(* ===== verification/_CoqProject ===== *)
-Q . S2P
Prelude.v
CityHash.v
Packets.v
FibEntry.v
NameTree.v
NameTreeFacts.v
NameTreeEnum.v
Fib.v
PitEntry.v
Pit.v
StrategyChoice.v
Measurements.v
DeadNonceList.v
ContentStore.v
CsPolicies.v
World.v
Forwarder.v
ForwarderInv.v
ForwarderSpec.v
FaceTable.v
Managers.v
Strategies.v
StrategiesSpec.v
Daemon.v
Variants.v
Pitless.v
Bridge.v
Requests.v
Instances.v
DaemonTheorems.v
StrategyTheorems.v
TableTheorems.v
PitlessTheorems.v
Timers.v
Tlv.v
Ndnlp.v
EthernetFace.v
NdnlpTheorems.v
RibEntry.v
Rib.v
RibFacts.v
RibSpec.v
RibInherit.v
FibUpdater.v
RibSystem.v
FibSync.v
RibRun.v
RibTheorems.v
