(* ===== verification/Prelude.v ===== *)
(** * NFD-PITless: a verification library

    NFD is the NDN forwarding daemon.  It receives Interests and Data on faces,
    keeps pending Interests in the PIT and packets in a content store, forwards
    Interests by the FIB and a strategy, and is told its routes by the RIB daemon.
    This repository adds two forwarders: a PITless one, which keeps nothing per
    packet, and a bridge between PITless and ordinary forwarding.  The library
    models these programs ([src/daemon], [src/rib], [src/core]) and proves what
    they do.  This file has the notions they share; the rest of the comment says
    where everything is.

    ** How the program is put together

    [Forwarder] (daemon/fw/forwarder.cpp) owns the tables.  FIB, PIT, strategy
    choices and measurements hang their entries on one name tree
    (daemon/table/name-tree.cpp), a hash table of names that is also a tree of
    prefixes; the content store and the Dead Nonce List stand alone.  A packet a
    face receives enters a pipeline, which calls the tables, and the strategy that
    governs the name; the strategy acts on the PIT entry and sends through the
    outgoing pipelines.  Timers remove PIT entries.  The management commands change
    the FIB and the strategy choices.  Faces split packets into link-layer fragments
    (daemon/face, the ndnlp files).  The RIB daemon (rib/) keeps routes by name, works out
    which next hops of the FIB they mean for every name below, and sends these to
    the forwarder as commands.

    ** The files

    - Prelude: unsigned machine integers ([u64], [u32], [u16]: the wrap-around of
      C++), lists and options.
    - CityHash: core/city-hash.cpp.  Buffers are byte lists, loads are checked.
    - Packets: the fields of names, Interests, Data and faces that the sources use,
      and the classes for what ndn-cxx computes of them.
    - NameTree, NameTreeFacts, NameTreeEnum: daemon/table/name-tree.cpp and
      name-tree-entry.cpp; a heap of entries with pointers, buckets, resizing, and
      the enumerations.  [payload_at] is the view of its clients: a map from names
      to what is attached to them.
    - FibEntry, Fib: daemon/table/fib-nexthop, fib-entry, fib.
    - PitEntry, Pit: daemon/table/pit-face-record, pit-in-record, pit-entry, pit.
      PIT entries are shared objects in a heap.
    - StrategyChoice, Measurements, DeadNonceList: the tables of these names.
    - ContentStore, CsPolicies: daemon/table/cs and the replacement policies.  The
      class [CsPolicy] is the interface of a policy, [CsPolicyLaws] its promise.
    - World, Forwarder: the state of daemon/fw/forwarder.hpp with the clock, the
      timers, the faces and the trace of what was sent, and the pipelines of
      daemon/fw/forwarder.cpp as state transformers [M].
    - ForwarderInv, ForwarderSpec, Requests: the invariants of the pipelines and
      what each pipeline does, for every strategy with [StrategyLaws].
    - FaceTable: daemon/fw/face-table.cpp; Managers: daemon/mgmt/fib-manager.cpp,
      strategy-choice-manager.cpp, manager-base.cpp.
    - Strategies, StrategiesSpec: the strategies of daemon/fw and retransmission
      suppression.
    - Daemon: construction and the steps of a running daemon.  Variants: the same
      for a forwarder of a derived class, by the class [VariantLaws].
    - Pitless, Bridge: daemon/fw/pitless-* and bridge-*.
    - Tlv, Timers, Ndnlp, EthernetFace: daemon/face/ndnlp-* and ethernet-face.cpp.
    - RibEntry, Rib, FibUpdater, RibSystem: rib/rib-entry, rib, fib-updater, and the
      two at work, with the commands that have no answer yet in the state.
    - RibFacts, RibSpec, RibInherit, FibSync, RibRun: the invariant of the RIB, what
      a name inherits, what the updates mean for the FIB, and the invariant of runs.
    - Instances: the parameters made concrete, for the witnesses.
    - DaemonTheorems, StrategyTheorems, TableTheorems, PitlessTheorems,
      NdnlpTheorems, RibTheorems: the properties.

    Operations keep the names of the sources, with the class in front where two
    classes share one ([Fib_insert], [Cs_insert], [Rib_insert]).

    ** What is proved

    - The daemon never stops: a step from a reachable state ends, with no failed
      assertion, invalid pointer or endless loop, and keeps the invariants of all
      tables; PIT entries have timers, which remove them.
    - Packets: Data go to the faces that asked, once each; a request is answered
      while it is pending; /localhost packets stay on local faces.
    - Tables: FIB and RIB are finite maps; prefix matching by hash is matching by
      name (when no two prefixes collide); the store answers with the first or last
      match and stays within its limit; the policies evict what they should.
    - Strategies: which next hops an Interest goes to, and how often it is sent
      again.
    - PITless and bridge forwarders: what each does, and the round trip of an
      Interest and its Data through both.
    - NDNLP: slicing and reassembly are inverse, in any order of arrival.
    - RIB: its tree and its map, inheritance, and that registrations reach the FIB
      whatever the order of answers; commands that fail or time out.
    - Theorems about single runs ([..._stops], [..._leaks], [..._lost]) show where
      the sources do not do what they are meant to.

    ** Conventions

    A result of [None] is the end of the program: a failed assertion, an invalid
    pointer or iterator, an exception that nobody catches, or fuel that ran out.
    So a theorem that an operation is [Some] covers all of them.  Fuel is the size
    of the structure that is walked: the number of entries for parents and
    subtrees, the length of the queue for batches, the buffer for hashing; that it
    is enough is part of the theorems, which give a result in every state of the
    invariant.  Integers wrap where the sources' do; time is an integer number of
    nanoseconds.

    Code that is not in the repository is a parameter: ndn-cxx's encodings
    ([WireEncoding], [NameWire], [Tlv]), the order of names ([NameOrder]), matching
    of Data, control commands ([ControlCommands]), the flags of routes
    ([RouteFlags]) and the codes of the controller ([ControllerCodes]), ndnSIM's
    store ([NdnSimCs]), and [std::sort] ([StdSort]).  Their laws are documented
    behaviour; Instances and RibTheorems give implementations.

    ** Not modelled

    - Sockets and channels (daemon/face/tcp, udp and unix), libpcap, logging, the
      configuration files and the status datasets: input and output.
    - daemon/fw/access-strategy.cpp, ncc-strategy.cpp and rtt-estimator.cpp.
    - Content store: changing the policy at run time ([Cs::setPolicy]).
    - rib/rib-manager.cpp and remote-registrator.cpp: validation of commands and
      fetching of datasets through ndn-cxx.
    - The tools: command line programs.
    - General statements about unregistration and about routes that capture: the
      updater does not keep the FIB equal to what the RIB asks for there, as the
      theorems of RibTheorems show on small runs. *)

From Stdlib Require Export ZArith Lia Sorting.Sorted.
From stdpp Require Export base tactics option list gmap sets strings numbers.
Export list_basics.list list_relations.list list_monad.list list_misc.list list_numbers.list list_tactics.list.

#[global] Open Scope Z_scope.

(** ** Unsigned machine integers

    [uint64_t], [size_t] (64-bit) and [uint32_t] values are integers of [Z] in
    range; every operation that can leave the range is written with the
    wrap-around of C++ unsigned arithmetic. *)

Definition u64 (z : Z) : Z := z mod 2 ^ 64.
Definition u32 (z : Z) : Z := z mod 2 ^ 32.
Definition u16 (z : Z) : Z := z mod 2 ^ 16.

(** [in_u64 z]: [z] is a value of an unsigned 64-bit variable. *)
Definition in_u64 (z : Z) : Prop := 0 <= z < 2 ^ 64.
Definition in_u32 (z : Z) : Prop := 0 <= z < 2 ^ 32.

Lemma u64_range z : in_u64 (u64 z).
Proof. apply Z.mod_pos_bound. lia. Qed.

Lemma u32_range z : in_u32 (u32 z).
Proof. apply Z.mod_pos_bound. lia. Qed.

Lemma u64_small z : in_u64 z → u64 z = z.
Proof. apply Z.mod_small. Qed.

Lemma u32_small z : in_u32 z → u32 z = z.
Proof. apply Z.mod_small. Qed.

(** Bitwise operations stay below a power of two. *)
Lemma log2_bound_iff n z : 0 < n → 0 <= z → z < 2 ^ n ↔ Z.log2 z < n.
Proof.
  intros Hn Hz. destruct (decide (z = 0)) as [->|].
  - rewrite Z.log2_nonpos by lia. split; intros; [lia | apply Z.pow_pos_nonneg; lia].
  - symmetry. apply iff_sym, Z.log2_lt_pow2; lia.
Qed.

Lemma lxor_below n a b : 0 < n → 0 <= a < 2 ^ n → 0 <= b < 2 ^ n → 0 <= Z.lxor a b < 2 ^ n.
Proof.
  intros Hn [Ha Ha'] [Hb Hb'].
  assert (H0 : 0 <= Z.lxor a b) by (apply Z.lxor_nonneg; lia).
  split; [done|]. apply log2_bound_iff; [done..|].
  apply log2_bound_iff in Ha', Hb'; [|lia..].
  pose proof (Z.log2_lxor a b Ha Hb). lia.
Qed.

Lemma lor_below n a b : 0 < n → 0 <= a < 2 ^ n → 0 <= b < 2 ^ n → 0 <= Z.lor a b < 2 ^ n.
Proof.
  intros Hn [Ha Ha'] [Hb Hb'].
  assert (H0 : 0 <= Z.lor a b) by (apply Z.lor_nonneg; lia).
  split; [done|]. apply log2_bound_iff; [done..|].
  apply log2_bound_iff in Ha', Hb'; [|lia..].
  pose proof (Z.log2_lor a b Ha Hb). lia.
Qed.

Lemma shiftr_below n a k : 0 <= k → 0 <= a < 2 ^ n → 0 <= Z.shiftr a k < 2 ^ n.
Proof.
  intros Hk [Ha Ha']. rewrite Z.shiftr_div_pow2 by done. split.
  - apply Z.div_pos; [done|]. apply Z.pow_pos_nonneg; lia.
  - eapply Z.le_lt_trans; [|done].
    apply Z.div_le_upper_bound; [apply Z.pow_pos_nonneg; lia|].
    assert (0 < 2 ^ k) by (apply Z.pow_pos_nonneg; lia). nia.
Qed.

Lemma lxor_u64 a b : in_u64 a → in_u64 b → in_u64 (Z.lxor a b).
Proof. apply (lxor_below 64). lia. Qed.
Lemma lxor_u32 a b : in_u32 a → in_u32 b → in_u32 (Z.lxor a b).
Proof. apply (lxor_below 32). lia. Qed.
Lemma lor_u64 a b : in_u64 a → in_u64 b → in_u64 (Z.lor a b).
Proof. apply (lor_below 64). lia. Qed.
Lemma lor_u32 a b : in_u32 a → in_u32 b → in_u32 (Z.lor a b).
Proof. apply (lor_below 32). lia. Qed.
Lemma shiftr_u64 a k : 0 <= k → in_u64 a → in_u64 (Z.shiftr a k).
Proof. apply (shiftr_below 64). Qed.
Lemma shiftr_u32 a k : 0 <= k → in_u32 a → in_u32 (Z.shiftr a k).
Proof. apply (shiftr_below 32). Qed.

Create HintDb word.
#[export] Hint Resolve u64_range u32_range lxor_u64 lxor_u32 lor_u64 lor_u32
  shiftr_u64 shiftr_u32 : word.
#[export] Hint Extern 1 (0 <= _) => lia : word.

(** ** Lists: [std::find_if], [std::max_element], vectors *)

Section find.
Context {A : Type}.

(** [std::find_if]: the first element satisfying a boolean predicate. *)
Fixpoint find_if (p : A → bool) (l : list A) : option A :=
  match l with
  | [] => None
  | x :: l' => if p x then Some x else find_if p l'
  end.

Lemma find_if_Some p (l : list A) x : find_if p l = Some x → x ∈ l ∧ p x = true.
Proof.
  induction l as [|y l IH]; [done|]. simpl. destruct (p y) eqn:E.
  - intros [= ->]. split; [set_solver|done].
  - intros H. destruct (IH H). split; [set_solver|done].
Qed.

Lemma find_if_None p (l : list A) : find_if p l = None ↔ ∀ x, x ∈ l → p x = false.
Proof.
  induction l as [|y l IH]; simpl.
  - split; [intros _ x Hx; by apply elem_of_nil in Hx | done].
  - destruct (p y) eqn:E.
    + split; [done|]. intros H. rewrite H in E; [done|set_solver].
    + rewrite IH. split; [|intros H; set_solver].
      intros H x [->|Hx]%elem_of_cons; auto.
Qed.

Lemma find_if_is_Some p (l : list A) x : x ∈ l → p x = true → is_Some (find_if p l).
Proof.
  intros Hx Hp. destruct (find_if p l) eqn:E; [eauto|].
  rewrite find_if_None in E. by rewrite E in Hp.
Qed.

Lemma find_if_ext p q (l : list A) :
  (∀ x, x ∈ l → p x = q x) → find_if p l = find_if q l.
Proof.
  induction l as [|y l IH]; intros H; [done|]. simpl. rewrite H by set_solver.
  destruct (q y); [done|]. apply IH. intros. apply H. set_solver.
Qed.

(** [find_if] on a list where at most one element qualifies. *)
Lemma find_if_unique p (l : list A) x :
  x ∈ l → p x = true → (∀ y, y ∈ l → p y = true → y = x) → find_if p l = Some x.
Proof.
  intros Hx Hp Hu. destruct (find_if_is_Some p l x Hx Hp) as [y Hy].
  destruct (find_if_Some _ _ _ Hy). rewrite Hy. f_equal. eauto.
Qed.

(** [std::max_element] for a comparison [lt]: the scan keeps the current
    maximum and replaces it when [lt] says it is smaller. *)
Fixpoint max_element_from (lt : A → A → bool) (m : A) (l : list A) : A :=
  match l with
  | [] => m
  | x :: l' => max_element_from lt (if lt m x then x else m) l'
  end.

Definition max_element (lt : A → A → bool) (l : list A) : option A :=
  match l with
  | [] => None
  | x :: l' => Some (max_element_from lt x l')
  end.

Lemma max_element_from_in lt m (l : list A) : max_element_from lt m l ∈ m :: l.
Proof.
  revert m. induction l as [|x l IH]; intros m; simpl; [set_solver|].
  specialize (IH (if lt m x then x else m)). destruct (lt m x); set_solver.
Qed.

Lemma max_element_in lt (l : list A) x : max_element lt l = Some x → x ∈ l.
Proof. destruct l; [done|]. intros [= <-]. apply max_element_from_in. Qed.

Lemma max_element_None lt (l : list A) : max_element lt l = None ↔ l = [].
Proof. by destruct l. Qed.

(** When [lt] is a strict weak order, no element exceeds the maximum. *)
Lemma max_element_from_max lt m (l : list A) :
  (∀ x y, lt x y = true → lt y x = false) →
  (∀ x y z, lt x y = false → lt y z = false → lt x z = false) →
  ∀ y, y ∈ m :: l → lt (max_element_from lt m l) y = false.
Proof.
  intros Hasym Htr.
  assert (Hirr : ∀ x, lt x x = false) by (intros x; destruct (lt x x) eqn:E; [rewrite (Hasym _ _ E) in E|]; done).
  revert m. induction l as [|x l IH]; intros m y Hy; simpl.
  - apply list_elem_of_singleton in Hy as ->. apply Hirr.
  - assert (Hm : ∀ z, z ∈ (if lt m x then x else m) :: l →
              lt (max_element_from lt (if lt m x then x else m) l) z = false) by eauto.
    destruct (lt m x) eqn:E.
    + apply elem_of_cons in Hy as [->|Hy]; [|by apply Hm].
      apply (Htr _ x); [apply Hm; set_solver|].
      by apply Hasym.
    + apply elem_of_cons in Hy as [->|[->|Hy]%elem_of_cons]; [apply Hm; set_solver| |apply Hm; set_solver].
      apply (Htr _ m); [apply Hm; set_solver|done].
Qed.
End find.

(** ** [l\[i\] = l.back(); l.pop_back()] for the first [i] with [l\[i\] == x] *)

Section swap_erase.
Context {A : Type} `{EqDecision A}.

Definition swap_erase (x : A) (l : list A) : list A :=
  match list_find (x =.) l, last l with
  | Some (i, _), Some y => take (length l - 1)%nat (<[i := y]> l)
  | _, _ => l
  end.

Lemma swap_erase_Permutation x l : x ∈ l → Permutation l (x :: swap_erase x l).
Proof.
  intros Hx. unfold swap_erase.
  destruct (list_find (x =.) l) as [[i z]|] eqn:Hf.
  2: { apply list_find_None in Hf. rewrite Forall_forall in Hf. by destruct (Hf x Hx). }
  apply list_find_Some in Hf as (Hi & <- & _).
  destruct l as [|y l _] using rev_ind; [by apply elem_of_nil in Hx|].
  rewrite last_snoc, length_app. simpl. rewrite Nat.add_sub.
  destruct (decide (i < length l)%nat) as [Hlt|Hge].
  - rewrite lookup_app_l in Hi by done. rewrite insert_app_l by done.
    rewrite take_app_le by (rewrite length_insert; lia).
    rewrite take_ge by (rewrite length_insert; lia).
    apply list_elem_of_split_length in Hi as (l1 & l2 & -> & ->).
    rewrite insert_app_r_alt, Nat.sub_diag by lia. simpl.
    rewrite <-app_assoc. simpl. rewrite <-Permutation_middle. apply Permutation_skip.
    by rewrite (Permutation_app_comm l2 [y]).
  - rewrite lookup_app_r in Hi by lia.
    destruct (i - length l)%nat eqn:E; [|done]. injection Hi as ->.
    rewrite insert_app_r_alt, E by lia. simpl. rewrite take_app_length.
    rewrite Permutation_app_comm. done.
Qed.

Lemma swap_erase_NoDup x l : x ∈ l → NoDup l → NoDup (swap_erase x l) ∧ x ∉ swap_erase x l.
Proof. intros Hx Hnd. rewrite (swap_erase_Permutation x l Hx) in Hnd. by apply NoDup_cons in Hnd as [??]. Qed.

Lemma elem_of_swap_erase x y l :
  x ∈ l → NoDup l → y ∈ swap_erase x l ↔ y ∈ l ∧ y ≠ x.
Proof.
  intros Hx Hnd. destruct (swap_erase_NoDup x l Hx Hnd).
  rewrite (swap_erase_Permutation x l Hx) at 2. rewrite elem_of_cons. naive_solver.
Qed.
End swap_erase.

Lemma elem_of_option_list {A} (o : option A) x : x ∈ option_list o ↔ o = Some x.
Proof. destruct o; simpl; [rewrite list_elem_of_singleton; naive_solver|]. rewrite elem_of_nil. naive_solver. Qed.

Lemma filter_none {A} (P : A → Prop) `{∀ x, Decision (P x)} (l : list A) : (∀ x, x ∈ l → ¬ P x) → filter P l = [].
Proof.
  induction l as [|x l IH]; intros Hl; [done|]. rewrite filter_cons_False by (apply Hl; set_solver).
  apply IH. intros y Hy. apply Hl. set_solver.
Qed.
