(* ===== verification/CityHash.v ===== *)
(** * CityHash: the hash functions of [core/city-hash.cpp]

    Buffers are lists of bytes (integers 0..255); a pointer into the buffer is
    an offset, and every load is checked: a load outside the buffer is [None].
    Loops run on fuel, and running out of fuel is [None] too, so that the
    theorem [CityHash_safe] (every hash returns [Some] 64-bit word) states
    memory safety and termination of the hash functions together. *)

From S2P Require Import Prelude.

(** ** Word arithmetic of the file ([uint32] and [uint64] operators) *)

Declare Scope word_scope.
Delimit Scope word_scope with word.
Notation "a +₆₄ b" := (u64 (a + b)) (at level 50, left associativity) : word_scope.
Notation "a -₆₄ b" := (u64 (a - b)) (at level 50, left associativity) : word_scope.
Notation "a *₆₄ b" := (u64 (a * b)) (at level 40, left associativity) : word_scope.
Notation "a +₃₂ b" := (u32 (a + b)) (at level 50, left associativity) : word_scope.
Notation "a *₃₂ b" := (u32 (a * b)) (at level 40, left associativity) : word_scope.
Notation "a ⊕ b" := (Z.lxor a b) (at level 50, left associativity) : word_scope.
Open Scope word_scope.

Definition byte_ok (b : Z) : Prop := 0 <= b < 2 ^ 8.

(** ** Loads *)

Fixpoint le_combine (l : list Z) : Z :=
  match l with
  | [] => 0
  | b :: l' => b + 2 ^ 8 * le_combine l'
  end.

(** [n] bytes at offset [p], little endian; [None] outside the buffer. *)
Definition load (n : nat) (s : list Z) (p : Z) : option Z :=
  if bool_decide (0 <= p ∧ p + Z.of_nat n <= Z.of_nat (length s))
  then Some (le_combine (take n (drop (Z.to_nat p) s)))
  else None.

Definition Fetch64 (s : list Z) (p : Z) : option Z := load 8 s p.
Definition Fetch32 (s : list Z) (p : Z) : option Z := load 4 s p.
Definition Fetch8 (s : list Z) (p : Z) : option Z := load 1 s p.

(** [bswap_32], [bswap_64] of [byteswap.h]: the bytes in reverse order. *)
Fixpoint le_split (n : nat) (z : Z) : list Z :=
  match n with
  | O => []
  | S n' => z mod 2 ^ 8 :: le_split n' (z / 2 ^ 8)
  end.
Definition bswap_32 (x : Z) : Z := le_combine (rev (le_split 4 x)).
Definition bswap_64 (x : Z) : Z := le_combine (rev (le_split 8 x)).

(** ** Constants *)

Definition k0 : Z := 0xc3a5c85c97cb3127.
Definition k1 : Z := 0xb492b66fbe98f273.
Definition k2 : Z := 0x9ae16a3b2f90404f.
Definition c1 : Z := 0xcc9e2d51.
Definition c2 : Z := 0x1b873593.
Definition kMul : Z := 0x9ddfea08eb382d69.

(** ** 32-bit hash *)

Definition fmix (h : Z) : Z :=
  let h := h ⊕ Z.shiftr h 16 in
  let h := h *₃₂ 0x85ebca6b in
  let h := h ⊕ Z.shiftr h 13 in
  let h := h *₃₂ 0xc2b2ae35 in
  h ⊕ Z.shiftr h 16.

Definition Rotate32 (val shift : Z) : Z :=
  if shift =? 0 then val
  else Z.lor (Z.shiftr val shift) (u32 (Z.shiftl val (32 - shift))).

Definition Mur (a h : Z) : Z :=
  let a := a *₃₂ c1 in
  let a := Rotate32 a 17 in
  let a := a *₃₂ c2 in
  let h := h ⊕ a in
  let h := Rotate32 h 19 in
  u32 (h * 5 + 0xe6546b64).

Definition Hash32Len13to24 (s : list Z) (len : Z) : option Z :=
  a ← Fetch32 s (Z.shiftr len 1 - 4);
  b ← Fetch32 s 4;
  c ← Fetch32 s (len - 8);
  d ← Fetch32 s (Z.shiftr len 1);
  e ← Fetch32 s 0;
  f ← Fetch32 s (len - 4);
  let h := u32 len in
  Some (fmix (Mur f (Mur e (Mur d (Mur c (Mur b (Mur a h))))))).

(** [signed char v = s[i]], converted to [uint32] *)
Definition signed_char (v : Z) : Z := if v <? 128 then v else v - 256.

Fixpoint Hash32Len0to4_loop (s : list Z) (n : nat) (i b c : Z) : option (Z * Z) :=
  match n with
  | O => Some (b, c)
  | S n' =>
      v ← Fetch8 s i;
      let b := u32 (b * c1 + signed_char v) in
      let c := c ⊕ b in
      Hash32Len0to4_loop s n' (i + 1) b c
  end.

Definition Hash32Len0to4 (s : list Z) (len : Z) : option Z :=
  bc ← Hash32Len0to4_loop s (Z.to_nat len) 0 0 9;
  Some (fmix (Mur bc.1 (Mur (u32 len) bc.2))).

Definition Hash32Len5to12 (s : list Z) (len : Z) : option Z :=
  let a := u32 len in let b := u32 (len * 5) in let c := 9 in let d := b in
  a' ← Fetch32 s 0;
  b' ← Fetch32 s (len - 4);
  c' ← Fetch32 s (Z.land (Z.shiftr len 1) 4);
  Some (fmix (Mur (c +₃₂ c') (Mur (b +₃₂ b') (Mur (a +₃₂ a') d)))).

(** The block "x ^= a; x = Rotate32(x, r); x = x * 5 + 0xe6546b64" of [CityHash32]. *)
Definition mix5 (x a r : Z) : Z := u32 (Rotate32 (x ⊕ a) r * 5 + 0xe6546b64).
Definition premix (a : Z) : Z := Rotate32 (a *₃₂ c1) 17 *₃₂ c2.

Record State32 := mkState32 { s32_h : Z; s32_g : Z; s32_f : Z }.

(** One round of the [do ... while (--iters != 0)] loop of [CityHash32], at [p]. *)
Definition CityHash32_round (s : list Z) (p : Z) (st : State32) : option State32 :=
  let '(mkState32 h g f) := st in
  a0 ← premix <$> Fetch32 s p;
  a1 ← Fetch32 s (p + 4);
  a2 ← premix <$> Fetch32 s (p + 8);
  a3 ← premix <$> Fetch32 s (p + 12);
  a4 ← Fetch32 s (p + 16);
  let h := mix5 h a0 18 in
  let f := f +₃₂ a1 in
  let f := Rotate32 f 19 in
  let f := f *₃₂ c1 in
  let g := u32 (Rotate32 (g +₃₂ a2) 18 * 5 + 0xe6546b64) in
  let h := mix5 h (a3 +₃₂ a1) 19 in
  let g := g ⊕ a4 in
  let g := bswap_32 g *₃₂ 5 in
  let h := u32 (h + a4 * 5) in
  let h := bswap_32 h in
  let f := f +₃₂ a0 in
  (* PERMUTE3(f, h, g) *)
  Some (mkState32 f h g).

Fixpoint CityHash32_loop (iters : nat) (s : list Z) (p : Z) (st : State32) : option State32 :=
  match iters with
  | O => Some st
  | S n => st' ← CityHash32_round s p st; CityHash32_loop n s (p + 20) st'
  end.

Definition CityHash32_long (s : list Z) (len : Z) : option Z :=
  let h := u32 len in let g := c1 *₃₂ len in let f := g in
  a0 ← premix <$> Fetch32 s (len - 4);
  a1 ← premix <$> Fetch32 s (len - 8);
  a2 ← premix <$> Fetch32 s (len - 16);
  a3 ← premix <$> Fetch32 s (len - 12);
  a4 ← premix <$> Fetch32 s (len - 20);
  let h := mix5 (mix5 h a0 19) a2 19 in
  let g := mix5 (mix5 g a1 19) a3 19 in
  let f := u32 (Rotate32 (f +₃₂ a4) 19 * 5 + 0xe6546b64) in
  let iters := (len - 1) / 20 in
  st ← CityHash32_loop (Z.to_nat iters) s 0 (mkState32 h g f);
  let '(mkState32 h g f) := st in
  let g := Rotate32 g 11 *₃₂ c1 in
  let g := Rotate32 g 17 *₃₂ c1 in
  let f := Rotate32 f 11 *₃₂ c1 in
  let f := Rotate32 f 17 *₃₂ c1 in
  let h := u32 (Rotate32 (h +₃₂ g) 19 * 5 + 0xe6546b64) in
  let h := Rotate32 h 17 *₃₂ c1 in
  let h := u32 (Rotate32 (h +₃₂ f) 19 * 5 + 0xe6546b64) in
  Some (Rotate32 h 17 *₃₂ c1).

Definition CityHash32 (s : list Z) (len : Z) : option Z :=
  if len <=? 24 then
    if len <=? 12 then
      if len <=? 4 then Hash32Len0to4 s len else Hash32Len5to12 s len
    else Hash32Len13to24 s len
  else CityHash32_long s len.

(** ** 64-bit hash *)

Definition Rotate (val shift : Z) : Z :=
  if shift =? 0 then val
  else Z.lor (Z.shiftr val shift) (u64 (Z.shiftl val (64 - shift))).

Definition ShiftMix (val : Z) : Z := val ⊕ Z.shiftr val 47.

(** [HashLen16(u, v, mul)]; [Hash128to64] is the same code with [mul = kMul]. *)
Definition HashLen16_mul (u v mul : Z) : Z :=
  let a := (u ⊕ v) *₆₄ mul in
  let a := a ⊕ Z.shiftr a 47 in
  let b := (v ⊕ a) *₆₄ mul in
  let b := b ⊕ Z.shiftr b 47 in
  b *₆₄ mul.

Definition Hash128to64 (x : Z * Z) : Z :=
  let a := (x.1 ⊕ x.2) *₆₄ kMul in
  let a := a ⊕ Z.shiftr a 47 in
  let b := (x.2 ⊕ a) *₆₄ kMul in
  let b := b ⊕ Z.shiftr b 47 in
  b *₆₄ kMul.

Definition HashLen16 (u v : Z) : Z := Hash128to64 (u, v).

Definition HashLen0to16 (s : list Z) (len : Z) : option Z :=
  if 8 <=? len then
    let mul := u64 (k2 + len * 2) in
    a ← Fetch64 s 0;
    let a := a +₆₄ k2 in
    b ← Fetch64 s (len - 8);
    let c := u64 (Rotate b 37 * mul + a) in
    let d := (Rotate a 25 +₆₄ b) *₆₄ mul in
    Some (HashLen16_mul c d mul)
  else if 4 <=? len then
    let mul := u64 (k2 + len * 2) in
    a ← Fetch32 s 0;
    b ← Fetch32 s (len - 4);
    Some (HashLen16_mul (u64 (len + Z.shiftl a 3)) b mul)
  else if 0 <? len then
    a ← Fetch8 s 0;
    b ← Fetch8 s (Z.shiftr len 1);
    c ← Fetch8 s (len - 1);
    let y := u32 (a + Z.shiftl b 8) in
    let z := u32 (len + Z.shiftl c 2) in
    Some (ShiftMix (y *₆₄ k2 ⊕ (z *₆₄ k0)) *₆₄ k2)
  else Some k2.

Definition HashLen17to32 (s : list Z) (len : Z) : option Z :=
  let mul := u64 (k2 + len * 2) in
  a ← (λ a, a *₆₄ k1) <$> Fetch64 s 0;
  b ← Fetch64 s 8;
  c ← (λ c, c *₆₄ mul) <$> Fetch64 s (len - 8);
  d ← (λ d, d *₆₄ k2) <$> Fetch64 s (len - 16);
  Some (HashLen16_mul (u64 (Rotate (a +₆₄ b) 43 + Rotate c 30 + d))
                      (u64 (a + Rotate (b +₆₄ k2) 18 + c)) mul).

Definition WeakHashLen32WithSeeds6 (w x y z a b : Z) : Z * Z :=
  let a := a +₆₄ w in
  let b := Rotate (u64 (b + a + z)) 21 in
  let c := a in
  let a := a +₆₄ x in
  let a := a +₆₄ y in
  let b := b +₆₄ Rotate a 44 in
  (a +₆₄ z, b +₆₄ c).

Definition WeakHashLen32WithSeeds (s : list Z) (p a b : Z) : option (Z * Z) :=
  w ← Fetch64 s p;
  x ← Fetch64 s (p + 8);
  y ← Fetch64 s (p + 16);
  z ← Fetch64 s (p + 24);
  Some (WeakHashLen32WithSeeds6 w x y z a b).

Definition HashLen33to64 (s : list Z) (len : Z) : option Z :=
  let mul := u64 (k2 + len * 2) in
  a ← (λ a, a *₆₄ k2) <$> Fetch64 s 0;
  b ← Fetch64 s 8;
  c ← Fetch64 s (len - 24);
  d ← Fetch64 s (len - 32);
  e ← (λ e, e *₆₄ k2) <$> Fetch64 s 16;
  f ← (λ f, f *₆₄ 9) <$> Fetch64 s 24;
  g ← Fetch64 s (len - 8);
  h ← (λ h, h *₆₄ mul) <$> Fetch64 s (len - 16);
  let u := u64 (Rotate (a +₆₄ g) 43 + (Rotate b 30 + c) * 9) in
  let v := u64 ((a +₆₄ g ⊕ d) + f + 1) in
  let w := u64 (bswap_64 ((u +₆₄ v) *₆₄ mul) + h) in
  let x := u64 (Rotate (e +₆₄ f) 42 + c) in
  let y := u64 (bswap_64 ((v +₆₄ w) *₆₄ mul) + g) *₆₄ mul in
  let z := u64 (e + f + c) in
  let a := u64 (bswap_64 (u64 ((x + z) * mul + y)) + b) in
  let b := ShiftMix (u64 ((z + a) * mul + d + h)) *₆₄ mul in
  Some (b +₆₄ x).

(** The 56 bytes of state of the long-string loops. *)
Record CityState := mkCityState {
  cs_x : Z; cs_y : Z; cs_z : Z; cs_v : Z * Z; cs_w : Z * Z
}.

(** The loop body shared by [CityHash64] and (twice) [CityHash128WithSeed]. *)
Definition CityHash64_round (s : list Z) (p : Z) (st : CityState) : option CityState :=
  let '(mkCityState x y z v w) := st in
  f8 ← Fetch64 s (p + 8);
  f48 ← Fetch64 s (p + 48);
  f40 ← Fetch64 s (p + 40);
  f16 ← Fetch64 s (p + 16);
  let x := Rotate (u64 (x + y + v.1 + f8)) 37 *₆₄ k1 in
  let y := Rotate (u64 (y + v.2 + f48)) 42 *₆₄ k1 in
  let x := x ⊕ w.2 in
  let y := u64 (y + (v.1 + f40)) in
  let z := Rotate (z +₆₄ w.1) 33 *₆₄ k1 in
  v' ← WeakHashLen32WithSeeds s p (v.2 *₆₄ k1) (x +₆₄ w.1);
  w' ← WeakHashLen32WithSeeds s (p + 32) (z +₆₄ w.2) (y +₆₄ f16);
  (* std::swap(z, x) *)
  Some (mkCityState z y x v' w').

(** [do ... while (len != 0)] *)
Fixpoint CityHash64_loop (fuel : nat) (s : list Z) (p len : Z) (st : CityState) : option CityState :=
  match fuel with
  | O => None
  | S fuel' =>
      st' ← CityHash64_round s p st;
      let len := u64 (len - 64) in
      if len =? 0 then Some st' else CityHash64_loop fuel' s (p + 64) len st'
  end.

Definition CityHash64_long (s : list Z) (len : Z) : option Z :=
  x ← Fetch64 s (len - 40);
  y1 ← Fetch64 s (len - 16);
  y2 ← Fetch64 s (len - 56);
  let y := y1 +₆₄ y2 in
  z1 ← Fetch64 s (len - 48);
  z2 ← Fetch64 s (len - 24);
  let z := HashLen16 (z1 +₆₄ len) z2 in
  v ← WeakHashLen32WithSeeds s (len - 64) len z;
  w ← WeakHashLen32WithSeeds s (len - 32) (y +₆₄ k1) x;
  x1 ← Fetch64 s 0;
  let x := u64 (x * k1 + x1) in
  let len := Z.land (len - 1) (Z.lnot 63) in
  st ← CityHash64_loop (length s) s 0 len (mkCityState x y z v w);
  let '(mkCityState x y z v w) := st in
  Some (HashLen16 (u64 (HashLen16 v.1 w.1 + ShiftMix y * k1 + z))
                  (u64 (HashLen16 v.2 w.2 + x))).

Definition CityHash64 (s : list Z) (len : Z) : option Z :=
  if len <=? 32 then
    if len <=? 16 then HashLen0to16 s len else HashLen17to32 s len
  else if len <=? 64 then HashLen33to64 s len
  else CityHash64_long s len.

Definition CityHash64WithSeeds (s : list Z) (len seed0 seed1 : Z) : option Z :=
  h ← CityHash64 s len;
  Some (HashLen16 (h -₆₄ seed0) seed1).

Definition CityHash64WithSeed (s : list Z) (len seed : Z) : option Z :=
  CityHash64WithSeeds s len k2 seed.

(** * Memory safety and termination *)

Lemma le_combine_bound l : Forall byte_ok l → 0 <= le_combine l < 2 ^ (8 * Z.of_nat (length l)).
Proof.
  induction 1 as [|b l Hb _ IH]; cbn -[Z.pow]; [lia|].
  unfold byte_ok in Hb. rewrite Nat2Z.inj_succ, Z.mul_succ_r, Z.pow_add_r by lia. nia.
Qed.

Lemma load_Some n s p :
  Forall byte_ok s → 0 <= p → p + Z.of_nat n <= Z.of_nat (length s) →
  ∃ v, load n s p = Some v ∧ 0 <= v < 2 ^ (8 * Z.of_nat n).
Proof.
  intros Hs Hp Hn. unfold load. rewrite bool_decide_eq_true_2 by lia.
  eexists; split; [done|].
  replace n with (length (take n (drop (Z.to_nat p) s))) at 3
    by (rewrite length_take, length_drop; lia).
  apply le_combine_bound. by apply Forall_take, Forall_drop.
Qed.

Section safety.
Context (s : list Z) (Hs : Forall byte_ok s).
Abbreviation len := (Z.of_nat (length s)).

(** Performs the next load of the goal, whose bounds must follow by [lia]. *)
Ltac fetch :=
  unfold Fetch64, Fetch32, Fetch8;
  match goal with
  | |- context [load ?n s ?p] =>
      let v := fresh "v" in let Hv := fresh "Hv" in
      destruct (load_Some n s p Hs) as (v & Hv & ?); [lia|lia|];
      rewrite Hv; clear Hv; cbn [mbind option_bind fmap option_fmap option_map fst snd]
  end.
(** Closes a goal whose hash ends with a 64-bit (32-bit) operation. *)
Ltac hashed := eexists; split; [done|]; solve [auto 20 with word].

Lemma fmix_range h : in_u32 h → in_u32 (fmix h).
Proof. intros. unfold fmix. cbv zeta. auto 20 with word. Qed.
Lemma Mur_range a h : in_u32 (Mur a h).
Proof. apply u32_range. Qed.
Lemma HashLen16_mul_range u v m : in_u64 (HashLen16_mul u v m).
Proof. apply u64_range. Qed.
Lemma HashLen16_range u v : in_u64 (HashLen16 u v).
Proof. apply u64_range. Qed.
Hint Resolve fmix_range Mur_range HashLen16_mul_range HashLen16_range : word.

Lemma WeakHash_Some p a b :
  0 <= p → p + 32 <= len → ∃ vw, WeakHashLen32WithSeeds s p a b = Some vw.
Proof. intros ??. unfold WeakHashLen32WithSeeds. repeat fetch. eauto. Qed.

Lemma half_lt : 0 < len → 0 <= Z.shiftr len 1 < len.
Proof.
  intros. rewrite Z.shiftr_div_pow2 by lia. change (2 ^ 1) with 2.
  split; [apply Z.div_pos; lia | apply Z.div_lt; lia].
Qed.

Lemma HashLen0to16_Some : len <= 16 → ∃ h, HashLen0to16 s len = Some h ∧ in_u64 h.
Proof.
  intros ?. pose proof half_lt. unfold HashLen0to16.
  repeat case_match; rewrite ?Z.leb_le, ?Z.leb_gt, ?Z.ltb_lt, ?Z.ltb_ge in *.
  1-3: repeat fetch; hashed.
  eexists; split; [done|]. unfold in_u64, k2. lia.
Qed.

Lemma HashLen17to32_Some : 16 < len → len <= 32 → ∃ h, HashLen17to32 s len = Some h ∧ in_u64 h.
Proof. intros ??. unfold HashLen17to32. repeat fetch. hashed. Qed.

Lemma HashLen33to64_Some : 32 < len → len <= 64 → ∃ h, HashLen33to64 s len = Some h ∧ in_u64 h.
Proof. intros ??. unfold HashLen33to64. repeat fetch. hashed. Qed.

Lemma CityHash64_round_Some p st :
  0 <= p → p + 64 <= len → ∃ st', CityHash64_round s p st = Some st'.
Proof.
  intros. destruct st. unfold CityHash64_round. repeat fetch.
  edestruct (WeakHash_Some p) as [? ->]; [lia..|]. cbn [mbind option_bind].
  edestruct (WeakHash_Some (p + 32)) as [? ->]; [lia..|]. eauto.
Qed.

(** [q] chunks of 64 bytes are left: [q] rounds are enough, none goes out of
    the buffer, and the unsigned length never wraps. *)
Lemma CityHash64_loop_Some fuel q p st :
  0 <= p → 0 < q → p + 64 * q <= len → q <= Z.of_nat fuel → 64 * q < 2 ^ 64 →
  ∃ st', CityHash64_loop fuel s p (64 * q) st = Some st'.
Proof.
  revert q p st. induction fuel as [|fuel IH]; intros q p st ?????; [lia|].
  cbn -[CityHash64_round Z.pow Z.mul].
  destruct (CityHash64_round_Some p st) as [st' ->]; [lia..|].
  cbn -[CityHash64_round Z.pow Z.mul].
  rewrite u64_small by (unfold in_u64; lia).
  case_match; [eauto|]. rewrite Z.eqb_neq in *.
  replace (64 * q - 64) with (64 * (q - 1)) by lia. apply IH; lia.
Qed.

Lemma chunks_len : 64 < len → Z.land (len - 1) (Z.lnot 63) = 64 * ((len - 1) / 64).
Proof.
  intros. rewrite <-Z.ldiff_land. change 63 with (Z.ones 6).
  rewrite Z.ldiff_ones_r, Z.shiftr_div_pow2, Z.shiftl_mul_pow2 by lia. change (2 ^ 6) with 64. lia.
Qed.

Lemma CityHash64_long_Some :
  64 < len → len < 2 ^ 64 → ∃ h, CityHash64_long s len = Some h ∧ in_u64 h.
Proof.
  intros. unfold CityHash64_long. repeat fetch.
  edestruct (WeakHash_Some (len - 64)) as [? ->]; [lia..|]. cbn [mbind option_bind].
  edestruct (WeakHash_Some (len - 32)) as [? ->]; [lia..|]. cbn [mbind option_bind].
  rewrite chunks_len by done.
  pose proof (Z.mul_div_le (len - 1) 64). assert (1 <= (len - 1) / 64) by (apply Z.div_le_lower_bound; lia).
  edestruct (CityHash64_loop_Some (length s) ((len - 1) / 64) 0) as [[] ->]; [lia..|]. cbn. hashed.
Qed.

Lemma CityHash64_Some : len < 2 ^ 64 → ∃ h, CityHash64 s len = Some h ∧ in_u64 h.
Proof.
  intros. unfold CityHash64.
  destruct (Z.leb_spec len 32); [destruct (Z.leb_spec len 16)|destruct (Z.leb_spec len 64)];
    auto using HashLen0to16_Some, HashLen17to32_Some, HashLen33to64_Some, CityHash64_long_Some.
Qed.

Lemma Hash32Len0to4_loop_Some n i b c :
  0 <= i → i + Z.of_nat n <= len → in_u32 b → in_u32 c →
  ∃ bc, Hash32Len0to4_loop s n i b c = Some bc.
Proof.
  revert i b c. induction n as [|n IH]; intros i b c ????; [eauto|].
  cbn -[Fetch8 Z.pow]. fetch. apply IH; [lia|lia|auto with word..].
Qed.

Lemma CityHash32_round_Some p st :
  0 <= p → p + 20 <= len → ∃ st', CityHash32_round s p st = Some st'.
Proof. intros. destruct st. unfold CityHash32_round. repeat fetch. eauto. Qed.

Lemma CityHash32_loop_Some n p st :
  0 <= p → p + 20 * Z.of_nat n <= len → ∃ st', CityHash32_loop n s p st = Some st'.
Proof.
  revert p st. induction n as [|n IH]; intros p st ??; [eauto|]. cbn -[CityHash32_round].
  destruct (CityHash32_round_Some p st) as [st' ->]; [lia..|]. apply IH; lia.
Qed.

Lemma CityHash32_long_Some : 24 < len → ∃ h, CityHash32_long s len = Some h ∧ in_u32 h.
Proof.
  intros. unfold CityHash32_long. repeat fetch.
  pose proof (Z.mul_div_le (len - 1) 20). pose proof (Z.div_pos (len - 1) 20).
  edestruct (CityHash32_loop_Some (Z.to_nat ((len - 1) / 20)) 0) as [[] ->]; [lia..|].
  cbn -[Z.pow]. hashed.
Qed.

Lemma and4 z : 0 <= z → Z.land z 4 = 0 ∨ (Z.land z 4 = 4 ∧ 4 <= z).
Proof.
  intros Hz. assert (E : Z.land z 4 = if Z.testbit z 2 then 4 else 0).
  { apply Z.bits_inj. intros i. change 4 with (2 ^ 2) at 1.
    rewrite Z.land_spec, Z.pow2_bits_eqb by lia. destruct (Z.eqb_spec 2 i) as [<-|].
    - by destruct (Z.testbit z 2).
    - destruct (Z.testbit z 2); rewrite ?Z.bits_0, ?andb_false_r; [|done].
      change 4 with (2 ^ 2). by rewrite Z.pow2_bits_false. }
  rewrite E. destruct (Z.testbit z 2) eqn:Hb; [|by left]. right. split; [done|].
  destruct (decide (4 <= z)) as [|Hlt]; [done|].
  assert (z = 0 ∨ z = 1 ∨ z = 2 ∨ z = 3) as [->|[->|[->| ->]]] by lia; done.
Qed.

Lemma CityHash32_Some : ∃ h, CityHash32 s len = Some h ∧ in_u32 h.
Proof.
  pose proof half_lt. unfold CityHash32.
  repeat case_match; rewrite ?Z.leb_le, ?Z.leb_gt in *.
  - unfold Hash32Len0to4. rewrite Nat2Z.id.
    destruct (Hash32Len0to4_loop_Some (length s) 0 0 9) as [? ->]; [lia|lia|unfold in_u32; lia..|].
    cbn. hashed.
  - unfold Hash32Len5to12. pose proof (and4 (Z.shiftr len 1)).
    assert (2 * Z.shiftr len 1 <= len).
    { rewrite Z.shiftr_div_pow2 by lia. change (2 ^ 1) with 2. apply Z.mul_div_le. lia. }
    repeat fetch. hashed.
  - unfold Hash32Len13to24.
    assert (6 <= Z.shiftr len 1 /\ 2 * Z.shiftr len 1 <= len).
    { rewrite Z.shiftr_div_pow2 by lia. change (2 ^ 1) with 2.
      split; [apply Z.div_le_lower_bound; lia | apply Z.mul_div_le; lia]. }
    repeat fetch. hashed.
  - by apply CityHash32_long_Some.
Qed.
End safety.

(** * Injectivity of the finalizers *)

(** "h ^= h >> k" loses nothing. *)
Lemma xorshift_inj k a b :
  0 < k → 0 <= a → 0 <= b → a ⊕ Z.shiftr a k = b ⊕ Z.shiftr b k → a = b.
Proof.
  intros Hk Ha Hb H. apply Z.lxor_eq.
  assert (Hd : Z.shiftr (a ⊕ b) k = a ⊕ b).
  { rewrite Z.shiftr_lxor. apply Z.bits_inj. intros i.
    apply (f_equal (λ z, Z.testbit z i)) in H. rewrite !Z.lxor_spec in *. revert H.
    by repeat match goal with |- context [Z.testbit ?z i] => destruct (Z.testbit z i) end. }
  assert (0 <= a ⊕ b) by (apply Z.lxor_nonneg; lia).
  rewrite Z.shiftr_div_pow2 in Hd by lia.
  assert (1 < 2 ^ k) by (apply Z.pow_gt_1; lia).
  destruct (decide (a ⊕ b = 0)); [done|]. pose proof (Z.div_lt (a ⊕ b) (2 ^ k)). lia.
Qed.

(** Multiplication by an invertible word is injective. *)
Lemma mul_inj n m i a b :
  0 < n → (m * i) mod n = 1 → 0 <= a < n → 0 <= b < n → (a * m) mod n = (b * m) mod n → a = b.
Proof.
  intros Hn Hi Ha Hb H.
  assert (E : ∀ c, 0 <= c < n → ((c * m) mod n * i) mod n = c).
  { intros c Hc. rewrite Z.mul_mod_idemp_l, <-Z.mul_assoc, <-Z.mul_mod_idemp_r, Hi, Z.mul_1_r by lia.
    by apply Z.mod_small. }
  rewrite <-(E a), <-(E b), H by done. done.
Qed.

Lemma mul32_inj m i a b :
  u32 (m * i) = 1 → in_u32 a → in_u32 b → a *₃₂ m = b *₃₂ m → a = b.
Proof. by apply mul_inj. Qed.
Lemma mul64_inj m i a b :
  u64 (m * i) = 1 → in_u64 a → in_u64 b → a *₆₄ m = b *₆₄ m → a = b.
Proof. by apply mul_inj. Qed.

Lemma u64_nonneg a : in_u64 a → 0 <= a.
Proof. unfold in_u64. lia. Qed.
Lemma u32_nonneg a : in_u32 a → 0 <= a.
Proof. unfold in_u32. lia. Qed.

Lemma fmix_inj_aux a b : in_u32 a → in_u32 b → fmix a = fmix b → a = b.
Proof.
  intros Ha Hb H. unfold fmix in H. cbv zeta in H.
  apply xorshift_inj in H; [|lia|apply u32_nonneg; auto 20 with word..].
  apply (mul32_inj 0xc2b2ae35 0x7ed1b41d) in H; [|done|auto 20 with word..].
  apply xorshift_inj in H; [|lia|apply u32_nonneg; auto 20 with word..].
  apply (mul32_inj 0x85ebca6b 0xa5cb9243) in H; [|done|auto 20 with word..].
  apply xorshift_inj in H; [done|lia|apply u32_nonneg; auto 20 with word..].
Qed.

Lemma lxor_cancel_l a b c : a ⊕ b = a ⊕ c → b = c.
Proof. intros H. apply (f_equal (Z.lxor a)) in H. by rewrite <-!Z.lxor_assoc, Z.lxor_nilpotent, !Z.lxor_0_l in H. Qed.

Lemma HashLen16_inj_l u u' v :
  in_u64 u → in_u64 u' → in_u64 v → HashLen16 u v = HashLen16 u' v → u = u'.
Proof.
  intros Hu Hu' Hv H. unfold HashLen16, Hash128to64 in H. cbn [fst snd] in H. cbv zeta in H.
  apply (mul64_inj kMul 0xdc56e6f5090b32d9) in H; [|done|auto 20 with word..].
  apply xorshift_inj in H; [|lia|apply u64_nonneg; auto 20 with word..].
  apply (mul64_inj kMul 0xdc56e6f5090b32d9) in H; [|done|auto 20 with word..].
  apply lxor_cancel_l in H.
  apply xorshift_inj in H; [|lia|apply u64_nonneg; auto 20 with word..].
  apply (mul64_inj kMul 0xdc56e6f5090b32d9) in H; [|done|auto 20 with word..].
  rewrite !(Z.lxor_comm _ v) in H. by apply lxor_cancel_l in H.
Qed.

(** * Properties *)

(** the hash functions are memory safe and total: on every byte string they
    return a hash of the right width, so no load leaves the buffer and no loop
    runs away. *)
Theorem CityHash_safe (s : list Z) (seed : Z) :
  Forall byte_ok s → Z.of_nat (length s) < 2 ^ 64 →
  (∃ h, CityHash64 s (Z.of_nat (length s)) = Some h ∧ in_u64 h) ∧
  (∃ h, CityHash64WithSeed s (Z.of_nat (length s)) seed = Some h ∧ in_u64 h) ∧
  (∃ h, CityHash32 s (Z.of_nat (length s)) = Some h ∧ in_u32 h).
Proof.
  intros Hs Hl. pose proof (CityHash64_Some s Hs Hl) as (h & Hh & ?).
  split_and!; [eauto| |by apply CityHash32_Some].
  unfold CityHash64WithSeed, CityHash64WithSeeds. rewrite Hh. cbn. eauto using HashLen16_range.
Qed.

Lemma CityHash_safe_witness :
  ∃ h, CityHash64 (replicate 100 7) 100 = Some h ∧ in_u64 h.
Proof.
  apply (CityHash_safe (replicate 100 7) 0).
  - apply Forall_replicate. by vm_compute.
  - reflexivity.
Defined.

(** With the same seed, [CityHash64WithSeed] separates two byte strings
    exactly when [CityHash64] does: seeding adds no collision. *)
Theorem CityHash64WithSeed_collision (s s' : list Z) (seed : Z) :
  Forall byte_ok s → Z.of_nat (length s) < 2 ^ 64 →
  Forall byte_ok s' → Z.of_nat (length s') < 2 ^ 64 → in_u64 seed →
  CityHash64WithSeed s (Z.of_nat (length s)) seed = CityHash64WithSeed s' (Z.of_nat (length s')) seed ↔
  CityHash64 s (Z.of_nat (length s)) = CityHash64 s' (Z.of_nat (length s')).
Proof.
  intros Hs Hl Hs' Hl' Hseed. unfold CityHash64WithSeed, CityHash64WithSeeds.
  destruct (CityHash64_Some s Hs Hl) as (h & -> & Hh), (CityHash64_Some s' Hs' Hl') as (h' & -> & Hh').
  cbn. split; [|congruence]. intros [= E]. f_equal.
  apply HashLen16_inj_l in E; [|auto with word..]. unfold u64, in_u64 in *. Z.to_euclidean_division_equations; lia.
Qed.

Lemma CityHash64WithSeed_collision_witness :
  CityHash64WithSeed [1; 2; 3] 3 5 ≠ CityHash64WithSeed [1; 2; 4] 3 5.
Proof.
  intros H. apply (CityHash64WithSeed_collision [1; 2; 3] [1; 2; 4] 5) in H; [by vm_compute in H|..].
  1,3: by repeat constructor.
  all: clear; by vm_compute.
Defined.
