(* ===== verification/Packets.v ===== *)
(** * Packets and faces: the data the daemon's components exchange

    Names, Interests and Data packets belong to the ndn-cxx library; only their
    data is described here (the fields the sources read and write), following
    the NDN packet format.  Everything ndn-cxx computes (wire encodings, packet
    matching, the canonical order of names) is a parameter of the definitions
    that use it. *)

From Stdlib Require Import Ascii String.
From S2P Require Import Prelude.

(** ** Names *)

(** A name component: a generic component or an implicit SHA-256 digest. *)
Inductive Component :=
| Generic (value : string)
| ImplicitSha256Digest (value : string).

#[export] Instance Component_eq_dec : EqDecision Component.
Proof. solve_decision. Defined.

#[export] Instance Component_countable : Countable Component.
Proof.
  refine (inj_countable' (λ c, match c with Generic v => inl v | ImplicitSha256Digest v => inr v end)
    (λ s, match s with inl v => Generic v | inr v => ImplicitSha256Digest v end) _).
  by intros [].
Defined.

(** [ndn::Name]: a sequence of components. *)
Abbreviation Name := (list Component).

(** [Name::isPrefixOf], [Name::getPrefix(n)] and [Name::getPrefix(-1)] *)
Definition isPrefixOf (p n : Name) : bool := bool_decide (p `prefix_of` n).
Definition getPrefix (n : Name) (k : nat) : Name := take k n.
Definition getParentName (n : Name) : Name := take (length n - 1) n.

Lemma isPrefixOf_true p n : isPrefixOf p n = true ↔ p `prefix_of` n.
Proof. apply bool_decide_eq_true. Qed.

Lemma getParentName_snoc (n : Name) c : getParentName (n ++ [c]) = n.
Proof. unfold getParentName. rewrite length_app. simpl. by rewrite Nat.add_sub, take_app_length. Qed.

Lemma prefix_take_iff (p n : Name) : p `prefix_of` n ↔ p = take (length p) n.
Proof.
  split; [intros [k ->]; by rewrite take_app_length|].
  intros ->. apply prefix_take.
Qed.

(** The canonical order of names (ndn-cxx): a total order in which the names
    with a common prefix are contiguous and follow the prefix. *)
Class NameOrder := {
  name_lt : Name → Name → bool;
  name_lt_irrefl n : name_lt n n = false;
  name_lt_trans a b c : name_lt a b = true → name_lt b c = true → name_lt a c = true;
  name_lt_total a b : a ≠ b → name_lt a b = true ∨ name_lt b a = true;
  name_lt_prefix a b : a `prefix_of` b → name_lt b a = false;
  name_lt_contiguous p a b : p `prefix_of` b → name_lt a p = false → name_lt b a = false → p `prefix_of` a;
  name_lt_app n a b : name_lt (n ++ a) (n ++ b) = name_lt a b
}.

(** Lexicographic orders of names are such orders. *)
Section lexicographic.
Variable component_lt : Component → Component → bool.

Fixpoint lex_lt (a b : Name) : bool :=
  match a, b with
  | [], [] => false
  | [], _ :: _ => true
  | _ :: _, [] => false
  | c :: a', d :: b' => component_lt c d || (bool_decide (c = d) && lex_lt a' b')
  end.
End lexicographic.

(** The canonical order of components: digests before generic components, and
    among components of one type shorter values first, equal lengths in the
    order of the bytes.  This is the order of [string_value], the value of the
    bytes in bijective base 256, least significant byte first. *)
Fixpoint bytes_value (l : list ascii) : N :=
  match l with
  | [] => 0
  | b :: l' => N_of_ascii b + 1 + 256 * bytes_value l'
  end%N.
Definition string_value (s : string) : N := bytes_value (rev (list_ascii_of_string s)).

Fixpoint bytes_succ (l : list ascii) : list ascii :=
  match l with
  | [] => [ascii_of_N 0]
  | b :: l' => if (N_of_ascii b =? 255)%N then ascii_of_N 0 :: bytes_succ l' else ascii_of_N (N_of_ascii b + 1) :: l'
  end.
Definition string_succ (s : string) : string := string_of_list_ascii (rev (bytes_succ (rev (list_ascii_of_string s)))).

Lemma bytes_value_inj l l' : bytes_value l = bytes_value l' → l = l'.
Proof.
  revert l'. induction l as [|b l IH]; intros [|b' l'] E; simpl in E; [done|lia|lia|].
  pose proof (N_ascii_bounded b). pose proof (N_ascii_bounded b').
  assert (N_of_ascii b = N_of_ascii b' ∧ bytes_value l = bytes_value l') as [Eb El] by lia.
  rewrite <-(ascii_N_embedding b), <-(ascii_N_embedding b'), Eb. f_equal. auto.
Qed.

Lemma bytes_succ_value l : bytes_value (bytes_succ l) = (bytes_value l + 1)%N.
Proof.
  induction l as [|b l IH]; [done|]. cbn [bytes_succ]. pose proof (N_ascii_bounded b).
  destruct (N.eqb_spec (N_of_ascii b) 255) as [E|E]; cbn [bytes_value].
  - rewrite N_ascii_embedding by done. rewrite IH. lia.
  - rewrite N_ascii_embedding by lia. lia.
Qed.

Lemma string_value_inj s s' : string_value s = string_value s' → s = s'.
Proof.
  intros E%bytes_value_inj. apply (f_equal (@rev _)) in E. rewrite !rev_involutive in E.
  by rewrite <-(string_of_list_ascii_of_string s), <-(string_of_list_ascii_of_string s'), E.
Qed.

Lemma string_succ_value s : string_value (string_succ s) = (string_value s + 1)%N.
Proof.
  unfold string_value, string_succ. by rewrite list_ascii_of_string_of_list_ascii, rev_involutive, bytes_succ_value.
Qed.

Definition component_lt (c d : Component) : bool :=
  match c, d with
  | ImplicitSha256Digest _, Generic _ => true
  | Generic _, ImplicitSha256Digest _ => false
  | ImplicitSha256Digest s, ImplicitSha256Digest s' | Generic s, Generic s' => (string_value s <? string_value s')%N
  end.
Definition component_succ (c : Component) : Component :=
  match c with
  | ImplicitSha256Digest s => ImplicitSha256Digest (string_succ s)
  | Generic s => Generic (string_succ s)
  end.

Lemma component_lt_total c d : c = d ∨ component_lt c d = true ∨ component_lt d c = true.
Proof.
  destruct c as [s|s], d as [s'|s']; simpl; auto; rewrite !N.ltb_lt;
    (destruct (N.lt_total (string_value s) (string_value s')) as [|[E|]]; auto; left; f_equal; by apply string_value_inj).
Qed.

Lemma component_lt_irrefl c : component_lt c c = false.
Proof. destruct c; apply N.ltb_irrefl. Qed.

Lemma component_lt_trans c d e : component_lt c d = true → component_lt d e = true → component_lt c e = true.
Proof. destruct c, d, e; simpl; try done; rewrite !N.ltb_lt; apply N.lt_trans. Qed.

(** Nothing lies between a component and its successor. *)
Lemma component_succ_spec c d : component_lt d (component_succ c) = true ↔ component_lt d c = true ∨ d = c.
Proof.
  destruct c as [s|s], d as [s'|s']; simpl; try naive_solver; rewrite string_succ_value, !N.ltb_lt;
    (split; [intros Hl; destruct (N.eq_dec (string_value s') (string_value s)) as [E|]; [right; f_equal; by apply string_value_inj|left; lia]
            |intros [|[= ->]]; lia]).
Qed.

#[export] Instance lex_NameOrder : NameOrder.
Proof.
  refine {| name_lt := lex_lt component_lt |}.
  - intros n. induction n as [|c n IH]; simpl; [done|]. by rewrite component_lt_irrefl, IH, andb_false_r.
  - intros a. induction a as [|x a IH]; intros [|y b] [|z c]; simpl; try done.
    rewrite !orb_true_iff, !andb_true_iff, !bool_decide_eq_true. intros [Hxy|[-> Hab]] [Hyz|[-> Hbc]]; auto.
    + left. by eapply component_lt_trans.
    + right. eauto.
  - intros a. induction a as [|x a IH]; intros [|y b] Hne; simpl; auto.
    destruct (component_lt_total x y) as [<-|[->| ->]]; auto. rewrite bool_decide_eq_true_2 by done. simpl.
    destruct (IH b) as [->| ->]; [congruence|left|right]; apply orb_true_r.
  - intros a. induction a as [|x a IH]; intros [|y b]; simpl; try done.
    + intros Hp. by apply prefix_nil_not in Hp.
    + intros Hp. apply prefix_cons_inv_1 in Hp as E. subst y. apply prefix_cons_inv_2 in Hp.
      by rewrite component_lt_irrefl, IH, andb_false_r.
  - intros p. induction p as [|x p IH]; intros a b Hp H1 H2; [apply prefix_nil|].
    destruct b as [|y b]; [by apply prefix_nil_not in Hp|]. apply prefix_cons_inv_1 in Hp as E. subst y.
    apply prefix_cons_inv_2 in Hp. destruct a as [|z a]; [done|]. simpl in *.
    apply orb_false_iff in H1 as [H1 H1'], H2 as [H2 H2'].
    destruct (component_lt_total x z) as [<-|[E|E]]; [|congruence..].
    rewrite bool_decide_eq_true_2 in H1', H2' by done. simpl in *. apply prefix_cons. by eapply IH.
  - intros n a b. induction n as [|c n IH]; simpl; [done|].
    by rewrite component_lt_irrefl, bool_decide_eq_true_2, IH.
Defined.

(** The successor of a name in the canonical order (ndn-cxx): its last component
    is replaced by one of the same type, so that exactly the names under the
    prefix lie between a prefix and its successor. *)
Definition isImplicitSha256Digest (c : Component) : bool :=
  match c with ImplicitSha256Digest _ => true | Generic _ => false end.

Class NameSuccessor `{NameOrder} := {
  name_successor : Name → Name;
  name_successor_last n c : ∃ c', name_successor (n ++ [c]) = n ++ [c'] ∧
    isImplicitSha256Digest c' = isImplicitSha256Digest c;
  name_successor_above p n : p ≠ [] → p `prefix_of` n → name_lt n (name_successor p) = true;
  name_successor_below p n : p ≠ [] → name_lt n p = false → name_lt n (name_successor p) = true → p `prefix_of` n
}.

Definition canonical_successor (n : Name) : Name :=
  match last n with Some c => getParentName n ++ [component_succ c] | None => [] end.

Lemma canonical_successor_snoc n c : canonical_successor (n ++ [c]) = n ++ [component_succ c].
Proof. unfold canonical_successor. by rewrite last_snoc, getParentName_snoc. Qed.

#[export] Instance canonical_NameSuccessor : NameSuccessor.
Proof.
  refine {| name_successor := canonical_successor |}.
  - intros n c. exists (component_succ c). rewrite canonical_successor_snoc. split; [done|by destruct c].
  - intros p n Hp [k ->]. destruct p as [|c p _] using rev_ind; [done|]. rewrite canonical_successor_snoc, <-app_assoc, name_lt_app.
    simpl. assert (component_lt c (component_succ c) = true) as ->; [|done]. apply component_succ_spec. by right.
  - intros p n Hp H1 H2. destruct p as [|c p _] using rev_ind; [done|]. rewrite canonical_successor_snoc in H2.
    assert (Hpn : p `prefix_of` n).
    { apply (name_lt_contiguous p n (p ++ [component_succ c])); [by apply prefix_app_r| |].
      - destruct (name_lt n p) eqn:E; [|done]. rewrite <-H1. symmetry.
        destruct (decide (n = p ++ [c])) as [->|Hne].
        + rewrite name_lt_prefix in E; [done|by apply prefix_app_r].
        + destruct (name_lt_total n (p ++ [c]) Hne) as [|Hgt]; [done|].
          pose proof (name_lt_trans _ _ _ Hgt E) as Hl. rewrite name_lt_prefix in Hl; [done|by apply prefix_app_r].
      - destruct (name_lt (p ++ [component_succ c]) n) eqn:E; [|done].
        pose proof (name_lt_trans _ _ _ H2 E) as Hl. by rewrite name_lt_irrefl in Hl. }
    destruct Hpn as [k ->]. rewrite name_lt_app in H1, H2. apply prefix_app. destruct k as [|d k]; simpl in *; [done|].
    apply orb_false_iff in H1 as [H1 H1']. apply orb_true_iff in H2 as [H2|H2].
    + apply component_succ_spec in H2 as [H2| ->]; [congruence|]. apply (prefix_app_r [c] [c] k). done.
    + apply andb_prop in H2 as [_ H2]. by destruct k.
Defined.

(** The wire encoding of a component (ndn-cxx): the bytes [it->wire()],
    [it->size()] that the name hash reads. *)
Class WireEncoding := component_wire : Component → list Z.

(** ** Interest and Data *)

(** The Selectors of an Interest.  The forwarder reads MustBeFresh and
    ChildSelector; the others are only compared for equality, and are kept as
    their encoding. *)
Record Selectors := mkSelectors {
  sel_mustBeFresh : bool;
  sel_childSelector : Z;
  sel_others : string
}.

#[export] Instance Selectors_eq_dec : EqDecision Selectors.
Proof. solve_decision. Defined.

Record Interest := mkInterest {
  i_name : Name;
  i_nonce : Z;                    (* uint32_t *)
  i_selectors : Selectors;
  i_lifetime : Z;                 (* milliseconds; negative when absent *)
  i_supportingName : Name;
  i_incomingFaceId : Z;
  i_nextHopFaceId : option Z      (* LocalControlHeader *)
}.

Inductive CachingPolicy := NO_CACHE | OTHER_CACHING_POLICY.

#[export] Instance CachingPolicy_eq_dec : EqDecision CachingPolicy.
Proof. solve_decision. Defined.

Record Data := mkData {
  d_name : Name;
  d_digest : Component;           (* last component of the full name *)
  d_supportingName : Name;
  d_freshnessPeriod : Z;          (* milliseconds; negative when absent *)
  d_cachingPolicy : option CachingPolicy; (* LocalControlHeader *)
  d_incomingFaceId : Z
}.

Definition getFullName (d : Data) : Name := d_name d ++ [d_digest d].

Definition setInterestIncomingFaceId (id : Z) (i : Interest) : Interest :=
  mkInterest (i_name i) (i_nonce i) (i_selectors i) (i_lifetime i) (i_supportingName i) id (i_nextHopFaceId i).
Definition setNonce (nonce : Z) (i : Interest) : Interest :=
  mkInterest (i_name i) nonce (i_selectors i) (i_lifetime i) (i_supportingName i) (i_incomingFaceId i) (i_nextHopFaceId i).
Definition setSupportingName (n : Name) (i : Interest) : Interest :=
  mkInterest (i_name i) (i_nonce i) (i_selectors i) (i_lifetime i) n (i_incomingFaceId i) (i_nextHopFaceId i).
Definition setDataIncomingFaceId (id : Z) (d : Data) : Data :=
  mkData (d_name d) (d_digest d) (d_supportingName d) (d_freshnessPeriod d) (d_cachingPolicy d) id.
Definition setDataName (n : Name) (d : Data) : Data :=
  mkData n (d_digest d) (d_supportingName d) (d_freshnessPeriod d) (d_cachingPolicy d) (d_incomingFaceId d).

(** ** Pointers, face identifiers and time *)

(** Shared pointers to faces, PIT entries and name-tree entries are addresses. *)
Abbreviation face_ptr := positive.
Abbreviation pit_ptr := positive.
Abbreviation nt_ptr := positive.

Definition INVALID_FACEID : Z := -1.
Definition FACEID_CONTENT_STORE : Z := 254.
Definition FACEID_RESERVED_MAX : Z := 255.

(** [steady_clock] time points and durations are nanoseconds. *)
Definition milliseconds (n : Z) : Z := n * 1000000.
Definition microseconds (n : Z) : Z := n * 1000.
Definition seconds (n : Z) : Z := n * 1000000000.
Definition TimePoint_min : Z := - 2 ^ 63.
Definition TimePoint_max : Z := 2 ^ 63 - 1.

Definition DEFAULT_INTEREST_LIFETIME : Z := 4000. (* ndn::DEFAULT_INTEREST_LIFETIME, milliseconds *)

Definition LOCALHOST_NAME : Name := [Generic "localhost"].
Definition LOCALHOP_NAME : Name := [Generic "localhop"].
