(* ===== verification/FibEntry.v ===== *)
(** * FIB entries: [daemon/table/fib-nexthop.cpp], [daemon/table/fib-entry.cpp]

    A FIB entry is a prefix with its next hops, one per face, kept in
    increasing order of cost.  [std::sort] is not stable, so the entry's
    operations take any sorting function; [StdSort] states what the standard
    promises of it. *)

From S2P Require Import Prelude Packets.

(** ** Data *)

Record NextHop := mkNextHop { nh_face : face_ptr; nh_cost : Z }.

#[export] Instance NextHop_eq_dec : EqDecision NextHop.
Proof. solve_decision. Defined.

Record FibEntry := mkFibEntry { fe_prefix : Name; fe_nextHops : list NextHop }.

(** [NextHop::NextHop(face)] and [setCost] *)
Definition NextHop_new (face : face_ptr) : NextHop := mkNextHop face 0.
Definition NextHop_setCost (cost : Z) (n : NextHop) : NextHop := mkNextHop (nh_face n) cost.

Definition cost_le (a b : NextHop) : Prop := nh_cost a <= nh_cost b.

(** ** [std::sort] by increasing cost *)

Class StdSort (sort : list NextHop → list NextHop) : Prop := {
  sort_Permutation l : Permutation (sort l) l;
  sort_Sorted l : StronglySorted cost_le (sort l)
}.

(** ** Operations *)

Section ops.
Context (sort : list NextHop → list NextHop).

Definition FibEntry_new (prefix : Name) : FibEntry := mkFibEntry prefix [].

Definition FibEntry_findNextHop (e : FibEntry) (face : face_ptr) : option NextHop :=
  find_if (λ n, bool_decide (nh_face n = face)) (fe_nextHops e).

Definition FibEntry_hasNextHops (e : FibEntry) : bool :=
  negb (bool_decide (fe_nextHops e = [])).

Definition FibEntry_hasNextHop (e : FibEntry) (face : face_ptr) : bool :=
  bool_decide (is_Some (FibEntry_findNextHop e face)).

(** Assigns [f n] to the next hop [n] that [findNextHop] finds. *)
Fixpoint update_nextHop (f : NextHop → NextHop) (face : face_ptr) (l : list NextHop) : list NextHop :=
  match l with
  | [] => []
  | n :: l' => if bool_decide (nh_face n = face) then f n :: l' else n :: update_nextHop f face l'
  end.

Definition FibEntry_addNextHop (e : FibEntry) (face : face_ptr) (cost : Z) : FibEntry :=
  let nextHops :=
    match FibEntry_findNextHop e face with
    | None => fe_nextHops e ++ [NextHop_new face]
    | Some _ => fe_nextHops e
    end in
  (* now the entry has a NextHop for face: set its cost, sort *)
  mkFibEntry (fe_prefix e) (sort (update_nextHop (NextHop_setCost cost) face nextHops)).

(** [m_nextHops.erase(it)] for the iterator [findNextHop] returns. *)
Fixpoint erase_nextHop (face : face_ptr) (l : list NextHop) : list NextHop :=
  match l with
  | [] => []
  | n :: l' => if bool_decide (nh_face n = face) then l' else n :: erase_nextHop face l'
  end.

Definition FibEntry_removeNextHop (e : FibEntry) (face : face_ptr) : FibEntry :=
  mkFibEntry (fe_prefix e) (erase_nextHop face (fe_nextHops e)).
End ops.

(** ** Invariant: one next hop per face, increasing cost *)

Definition FibEntry_ok (e : FibEntry) : Prop :=
  NoDup (nh_face <$> fe_nextHops e) ∧ StronglySorted cost_le (fe_nextHops e).

(** The cost the entry records for a face. *)
Definition FibEntry_cost (e : FibEntry) (face : face_ptr) : option Z :=
  nh_cost <$> FibEntry_findNextHop e face.

Lemma update_nextHop_faces c face l :
  nh_face <$> update_nextHop (NextHop_setCost c) face l = nh_face <$> l.
Proof. induction l as [|n l IH]; csimpl; [done|]. case_bool_decide; csimpl; congruence. Qed.

Lemma update_nextHop_app c face l :
  face ∉ (nh_face <$> l) →
  update_nextHop (NextHop_setCost c) face (l ++ [NextHop_new face]) = l ++ [mkNextHop face c].
Proof.
  induction l as [|n l IH]; csimpl; intros H; [by rewrite bool_decide_eq_true_2|].
  rewrite bool_decide_eq_false_2 by set_solver. rewrite IH by set_solver. done.
Qed.

Lemma findNextHop_None e face : FibEntry_findNextHop e face = None ↔ face ∉ (nh_face <$> fe_nextHops e).
Proof.
  unfold FibEntry_findNextHop. rewrite find_if_None, list_elem_of_fmap.
  setoid_rewrite bool_decide_eq_false. naive_solver.
Qed.

Lemma findNextHop_Some e face n :
  NoDup (nh_face <$> fe_nextHops e) →
  FibEntry_findNextHop e face = Some n ↔ n ∈ fe_nextHops e ∧ nh_face n = face.
Proof.
  intros Hnd. unfold FibEntry_findNextHop. split.
  - intros H. apply find_if_Some in H as [? ?%bool_decide_eq_true]. done.
  - intros [Hn <-]. apply find_if_unique; [done|by rewrite bool_decide_eq_true|].
    intros m Hm Hf%bool_decide_eq_true.
    apply list_elem_of_lookup in Hn as [i Hi], Hm as [j Hj].
    assert (i = j) as <-; [|congruence].
    apply (NoDup_lookup _ i j (nh_face n) Hnd); rewrite list_lookup_fmap, ?Hi, ?Hj; csimpl; congruence.
Qed.

(** Sorting does not change what a lookup by face finds. *)
Lemma FibEntry_cost_Permutation p l l' face :
  NoDup (nh_face <$> l) → Permutation l l' →
  FibEntry_cost (mkFibEntry p l) face = FibEntry_cost (mkFibEntry p l') face.
Proof.
  intros Hnd Hp. unfold FibEntry_cost. f_equal. apply option_eq. intros n.
  rewrite !findNextHop_Some; csimpl; [by rewrite Hp|by rewrite <-Hp|done].
Qed.

Lemma addNextHop_faces sort `{!StdSort sort} e face cost g :
  g ∈ (nh_face <$> fe_nextHops (FibEntry_addNextHop sort e face cost)) ↔
  g = face ∨ g ∈ (nh_face <$> fe_nextHops e).
Proof.
  unfold FibEntry_addNextHop; csimpl. rewrite sort_Permutation, update_nextHop_faces.
  destruct (FibEntry_findNextHop e face) as [n|] eqn:E.
  2: { rewrite fmap_app, elem_of_app. csimpl. rewrite list_elem_of_singleton. tauto. }
  apply find_if_Some in E as [Hin ?%bool_decide_eq_true].
  split; [auto|]. intros [->|]; [|done]. apply list_elem_of_fmap. eauto.
Qed.

Lemma addNextHop_ok sort `{!StdSort sort} e face cost :
  FibEntry_ok e → FibEntry_ok (FibEntry_addNextHop sort e face cost).
Proof.
  intros [Hnd _]. split; simpl; [|apply sort_Sorted].
  rewrite sort_Permutation, update_nextHop_faces.
  destruct (FibEntry_findNextHop e face) eqn:E; [done|].
  apply findNextHop_None in E. rewrite fmap_app. apply NoDup_app. split_and!; [done| |apply NoDup_singleton].
  intros g Hg ->%list_elem_of_singleton. done.
Qed.

Lemma erase_nextHop_sublist face l : erase_nextHop face l `sublist_of` l.
Proof. induction l as [|n l IH]; csimpl; [done|]. case_bool_decide; by constructor. Qed.

Lemma removeNextHop_ok e face : FibEntry_ok e → FibEntry_ok (FibEntry_removeNextHop e face).
Proof.
  intros [Hnd Hs]. split; csimpl.
  - eapply sublist_NoDup; [done|]. apply fmap_sublist, erase_nextHop_sublist.
  - clear Hnd. induction Hs as [|n l Hs IH Hn]; csimpl; [constructor|].
    case_bool_decide; [done|]. constructor; [done|].
    rewrite Forall_forall in *. intros m Hm. apply Hn.
    eapply elem_of_sublist; [done|apply erase_nextHop_sublist].
Qed.

(** ** What the operations do *)

Lemma cost_in e face c :
  NoDup (nh_face <$> fe_nextHops e) →
  FibEntry_cost e face = Some c ↔ mkNextHop face c ∈ fe_nextHops e.
Proof.
  intros Hnd. unfold FibEntry_cost. rewrite fmap_Some. setoid_rewrite findNextHop_Some; [|done].
  split; [by intros [[f d] [[? <-] ->]]|]. intros. by exists (mkNextHop face c).
Qed.

Lemma update_nextHop_in face c l g d :
  NoDup (nh_face <$> l) → face ∈ (nh_face <$> l) →
  mkNextHop g d ∈ update_nextHop (NextHop_setCost c) face l ↔
  (g = face ∧ d = c) ∨ (g ≠ face ∧ mkNextHop g d ∈ l).
Proof.
  induction l as [|[f e] l IH]; csimpl; intros Hnd Hf; [by apply elem_of_nil in Hf|].
  apply NoDup_cons in Hnd as [Hf' Hnd]. case_bool_decide as E; simpl in E.
  - subst f. rewrite !elem_of_cons. unfold NextHop_setCost. simpl.
    assert (∀ g d, mkNextHop g d ∈ l → g ≠ face).
    { intros g' d' Hin ->. apply Hf'. apply list_elem_of_fmap. by exists (mkNextHop face d'). }
    naive_solver.
  - apply elem_of_cons in Hf as [->|Hf]; [done|]. rewrite !elem_of_cons, IH by done. naive_solver.
Qed.

(** Adding a next hop keeps the list sorted with one entry per face, sets the
    cost of the face and leaves the others alone. *)
Lemma addNextHop_spec sort `{!StdSort sort} e face cost :
  FibEntry_ok e →
  FibEntry_ok (FibEntry_addNextHop sort e face cost) ∧
  ∀ g, FibEntry_cost (FibEntry_addNextHop sort e face cost) g =
       if decide (g = face) then Some cost else FibEntry_cost e g.
Proof.
  intros Hok. pose proof (addNextHop_ok sort e face cost Hok) as Hok'. split; [done|].
  destruct Hok as [Hnd _], Hok' as [Hnd' _]. intros g. apply option_eq. intros d.
  rewrite cost_in by done. simpl. rewrite sort_Permutation.
  destruct (FibEntry_findNextHop e face) as [n|] eqn:E.
  - apply findNextHop_Some in E as [Hn Hnf]; [|done].
    rewrite update_nextHop_in; [|done|apply list_elem_of_fmap; eauto].
    case_decide; [naive_solver|]. rewrite cost_in by done. naive_solver.
  - apply findNextHop_None in E. rewrite update_nextHop_app, elem_of_app, list_elem_of_singleton by done.
    case_decide as Hg.
    + subst. rewrite <-cost_in by done. unfold FibEntry_cost.
      apply findNextHop_None in E. rewrite E. naive_solver.
    + rewrite cost_in by done. naive_solver.
Qed.

Lemma erase_nextHop_in face l g d :
  NoDup (nh_face <$> l) →
  mkNextHop g d ∈ erase_nextHop face l ↔ g ≠ face ∧ mkNextHop g d ∈ l.
Proof.
  induction l as [|[f e] l IH]; csimpl; intros Hnd; [rewrite !elem_of_nil; naive_solver|].
  apply NoDup_cons in Hnd as [Hf' Hnd]. case_bool_decide as E; simpl in E.
  - subst f. rewrite elem_of_cons.
    assert (∀ g d, mkNextHop g d ∈ l → g ≠ face).
    { intros g' d' Hin ->. apply Hf'. apply list_elem_of_fmap. by exists (mkNextHop face d'). }
    naive_solver.
  - rewrite !elem_of_cons, IH by done. naive_solver.
Qed.

Lemma removeNextHop_spec e face :
  FibEntry_ok e →
  FibEntry_ok (FibEntry_removeNextHop e face) ∧
  ∀ g, FibEntry_cost (FibEntry_removeNextHop e face) g =
       if decide (g = face) then None else FibEntry_cost e g.
Proof.
  intros Hok. pose proof (removeNextHop_ok e face Hok) as Hok'. split; [done|].
  destruct Hok as [Hnd _], Hok' as [Hnd' _]. intros g. apply option_eq. intros d.
  rewrite cost_in by done. simpl. rewrite erase_nextHop_in by done.
  case_decide; [naive_solver|]. rewrite cost_in by done. naive_solver.
Qed.

(** The first next hop satisfying a predicate is a cheapest one that does. *)
Lemma first_is_cheapest e p n m :
  FibEntry_ok e → find_if p (fe_nextHops e) = Some n → m ∈ fe_nextHops e → p m = true →
  nh_cost n <= nh_cost m.
Proof.
  intros [_ Hs] Hn Hm Hp. induction Hs as [|x l Hs IH Hx]; [done|]. simpl in Hn.
  destruct (p x) eqn:E.
  - injection Hn as ->. apply elem_of_cons in Hm as [->|Hm]; [lia|].
    rewrite Forall_forall in Hx. by apply Hx.
  - apply elem_of_cons in Hm as [->|Hm]; [congruence|auto].
Qed.

(** ** Insertion sort is a [std::sort] *)

Fixpoint cost_insert (n : NextHop) (l : list NextHop) : list NextHop :=
  match l with
  | [] => [n]
  | m :: l' => if nh_cost n <? nh_cost m then n :: m :: l' else m :: cost_insert n l'
  end.

(** The (stable) insertion sort that libstdc++ uses on up to 16 elements. *)
Definition insertion_sort (l : list NextHop) : list NextHop := foldl (λ acc n, cost_insert n acc) [] l.

Lemma cost_insert_Permutation n l : Permutation (cost_insert n l) (n :: l).
Proof.
  induction l as [|m l IH]; simpl; [done|]. case_match; [done|].
  rewrite IH. apply Permutation_swap.
Qed.

Lemma cost_insert_Sorted n l : StronglySorted cost_le l → StronglySorted cost_le (cost_insert n l).
Proof.
  induction 1 as [|m l Hs IH Hm]; simpl; [by repeat constructor|].
  destruct (Z.ltb_spec (nh_cost n) (nh_cost m)).
  - constructor; [by constructor|]. constructor; [unfold cost_le; lia|].
    eapply Forall_impl; [done|]. unfold cost_le. lia.
  - constructor; [done|]. rewrite cost_insert_Permutation. constructor; [done|done].
Qed.

#[export] Instance insertion_sort_StdSort : StdSort insertion_sort.
Proof.
  unfold insertion_sort. split.
  - intros l. enough (∀ acc, Permutation (foldl (λ acc n, cost_insert n acc) acc l) (l ++ acc)) as H.
    { rewrite H. by rewrite app_nil_r. }
    induction l as [|n l IH]; intros acc; simpl; [done|].
    rewrite IH, cost_insert_Permutation. by rewrite <-Permutation_middle.
  - intros l. assert (H : StronglySorted cost_le []) by constructor. revert H.
    generalize (@nil NextHop). induction l as [|n l IH]; intros acc Hacc; simpl; [done|].
    apply IH. by apply cost_insert_Sorted.
Qed.
