(* ===== verification/NameTree.v ===== *)
(** * NameTree: [daemon/table/name-tree.cpp], [daemon/table/name-tree-entry.cpp]

    The name-prefix hash table on which the FIB, the PIT, the Measurements and
    the StrategyChoice tables hang their entries.  Entries live in a heap
    indexed by addresses; a hash bucket is the chain of the entries reached
    from [m_buckets\[i\]] through [m_next] (the node and its entry are one
    object, [m_prev] is the previous element of the chain). *)

From S2P Require Import Prelude CityHash Packets FibEntry.

(** ** Attached entries *)

(** StrategyInfo items, stored by type id in a [StrategyInfoHost]. *)
Inductive StrategyInfo :=
| RetxExponentialPitInfo (suppressionInterval : Z) (* microseconds *).
Definition StrategyInfo_typeId (i : StrategyInfo) : Z :=
  match i with RetxExponentialPitInfo _ => 1020 end.
Abbreviation StrategyInfoHost := (gmap Z StrategyInfo).

Definition getStrategyInfo (typeId : Z) (h : StrategyInfoHost) : option StrategyInfo := h !! typeId.
Definition setStrategyInfo (typeId : Z) (item : option StrategyInfo) (h : StrategyInfoHost) : StrategyInfoHost :=
  match item with None => delete typeId h | Some i => <[typeId := i]> h end.
Definition getOrCreateStrategyInfo (i : StrategyInfo) (h : StrategyInfoHost) : StrategyInfo * StrategyInfoHost :=
  match getStrategyInfo (StrategyInfo_typeId i) h with
  | Some item => (item, h)
  | None => (i, setStrategyInfo (StrategyInfo_typeId i) (Some i) h)
  end.
Definition clearStrategyInfoHost (h : StrategyInfoHost) : StrategyInfoHost := ∅.

Record MeasurementsEntry := mkMeasurementsEntry {
  me_name : Name;
  me_expiry : Z;
  me_cleanup : option Z;    (* the time of the pending cleanup event *)
  me_info : StrategyInfoHost
}.

(** A StrategyChoice entry refers to a strategy, identified by its name;
    [None] is the null pointer of a new entry. *)
Record StrategyChoiceEntry := mkStrategyChoiceEntry { sce_prefix : Name; sce_strategy : option Name }.

(** ** Entries *)

Record NtEntry := mkNtEntry {
  e_hash : Z;
  e_prefix : Name;
  e_parent : option nt_ptr;
  e_children : list nt_ptr;
  e_fib : option FibEntry;
  e_pit : list pit_ptr;
  e_measurements : option MeasurementsEntry;
  e_strategyChoice : option StrategyChoiceEntry
}.

Definition NtEntry_new (hash : Z) (prefix : Name) : NtEntry :=
  mkNtEntry hash prefix None [] None [] None None.
Definition setParent (p : option nt_ptr) (e : NtEntry) : NtEntry :=
  mkNtEntry (e_hash e) (e_prefix e) p (e_children e) (e_fib e) (e_pit e) (e_measurements e) (e_strategyChoice e).
Definition setChildren (c : list nt_ptr) (e : NtEntry) : NtEntry :=
  mkNtEntry (e_hash e) (e_prefix e) (e_parent e) c (e_fib e) (e_pit e) (e_measurements e) (e_strategyChoice e).
Definition setFibEntry (f : option FibEntry) (e : NtEntry) : NtEntry :=
  mkNtEntry (e_hash e) (e_prefix e) (e_parent e) (e_children e) f (e_pit e) (e_measurements e) (e_strategyChoice e).
Definition setPitEntries (l : list pit_ptr) (e : NtEntry) : NtEntry :=
  mkNtEntry (e_hash e) (e_prefix e) (e_parent e) (e_children e) (e_fib e) l (e_measurements e) (e_strategyChoice e).
Definition setMeasurementsEntry (m : option MeasurementsEntry) (e : NtEntry) : NtEntry :=
  mkNtEntry (e_hash e) (e_prefix e) (e_parent e) (e_children e) (e_fib e) (e_pit e) m (e_strategyChoice e).
Definition setStrategyChoiceEntry (s : option StrategyChoiceEntry) (e : NtEntry) : NtEntry :=
  mkNtEntry (e_hash e) (e_prefix e) (e_parent e) (e_children e) (e_fib e) (e_pit e) (e_measurements e) s.

Definition isEmpty (e : NtEntry) : bool :=
  bool_decide (e_children e = []) && bool_decide (¬ is_Some (e_fib e)) &&
  bool_decide (e_pit e = []) && bool_decide (¬ is_Some (e_measurements e)) &&
  bool_decide (¬ is_Some (e_strategyChoice e)).

Definition hasPitEntries (e : NtEntry) : bool := negb (bool_decide (e_pit e = [])).
Definition insertPitEntry (p : pit_ptr) (e : NtEntry) : NtEntry := setPitEntries (e_pit e ++ [p]) e.
Definition erasePitEntry (p : pit_ptr) (e : NtEntry) : NtEntry := setPitEntries (swap_erase p (e_pit e)) e.

(** ** The table *)

Record NameTree := mkNameTree {
  nt_heap : gmap nt_ptr NtEntry;
  nt_next : nt_ptr;                   (* the address of the next allocation *)
  nt_nItems : Z;
  nt_nBuckets : Z;
  nt_minNBuckets : Z;
  nt_enlargeThreshold : Z;
  nt_shrinkThreshold : Z;
  nt_buckets : list (list nt_ptr)
}.

(** [m_enlargeLoadFactor] = 0.5, [m_enlargeFactor] = 2, [m_shrinkLoadFactor] =
    0.1, [m_shrinkFactor] = 0.5: the products are truncated to [size_t]. *)
Definition enlargeThreshold (nBuckets : Z) : Z := nBuckets / 2.
Definition shrinkThreshold (nBuckets : Z) : Z := nBuckets / 10.
Definition m_enlargeFactor : Z := 2.
Definition shrunkNBuckets (nBuckets : Z) : Z := nBuckets / 2.

Definition NameTree_new (nBuckets : Z) : NameTree :=
  mkNameTree ∅ 1 0 nBuckets nBuckets (enlargeThreshold nBuckets) (shrinkThreshold nBuckets)
    (replicate (Z.to_nat nBuckets) []).

Definition set_heap (h : gmap nt_ptr NtEntry) (t : NameTree) : NameTree :=
  mkNameTree h (nt_next t) (nt_nItems t) (nt_nBuckets t) (nt_minNBuckets t)
    (nt_enlargeThreshold t) (nt_shrinkThreshold t) (nt_buckets t).
Definition set_nItems (n : Z) (t : NameTree) : NameTree :=
  mkNameTree (nt_heap t) (nt_next t) n (nt_nBuckets t) (nt_minNBuckets t)
    (nt_enlargeThreshold t) (nt_shrinkThreshold t) (nt_buckets t).

(** Updates the entry at [a] (an update through its shared pointer). *)
Definition alter_entry (f : NtEntry → NtEntry) (a : nt_ptr) (t : NameTree) : NameTree :=
  set_heap (alter f a (nt_heap t)) t.

Definition nt_bucket (t : NameTree) (loc : Z) : list nt_ptr := default [] (nt_buckets t !! Z.to_nat loc).

(** A predicate on the entry a node points to; a null entry is skipped. *)
Definition on_entry (t : NameTree) (p : NtEntry → bool) (a : nt_ptr) : bool :=
  match nt_heap t !! a with Some e => p e | None => false end.

Section nametree.
Context `{WireEncoding}.

(** *** Hashing *)

(** [CityHash::compute] on the wire encoding of a component (64-bit build). *)
Definition component_hash (c : Component) : Z :=
  default 0 (CityHash64 (component_wire c) (Z.of_nat (length (component_wire c)))).

Definition computeHash (prefix : Name) : Z :=
  foldl (λ hashValue c, Z.lxor hashValue (component_hash c)) 0 prefix.

Fixpoint computeHashSet_from (hashValue : Z) (prefix : Name) : list Z :=
  hashValue :: match prefix with
               | [] => []
               | c :: prefix' => computeHashSet_from (Z.lxor hashValue (component_hash c)) prefix'
               end.
Definition computeHashSet (prefix : Name) : list Z := computeHashSet_from 0 prefix.

(** *** Insertion and lookup *)

Definition NameTree_insert (t : NameTree) (prefix : Name) : (nt_ptr * bool) * NameTree :=
  let hashValue := computeHash prefix in
  let loc := hashValue mod nt_nBuckets t in
  match find_if (on_entry t (λ e, bool_decide (prefix = e_prefix e))) (nt_bucket t loc) with
  | Some a => ((a, false), t)
  | None =>
      let a := nt_next t in
      ((a, true),
       mkNameTree (<[a := NtEntry_new hashValue prefix]> (nt_heap t)) (Pos.succ a) (nt_nItems t)
         (nt_nBuckets t) (nt_minNBuckets t) (nt_enlargeThreshold t) (nt_shrinkThreshold t)
         (<[Z.to_nat loc := nt_bucket t loc ++ [a]]> (nt_buckets t)))
  end.

(** The rehashing loop of [resize]: the node at [a] moves to the end of its
    new chain.  [uint32_t h] truncates the hash. *)
Definition rehash_node (h : gmap nt_ptr NtEntry) (newNBuckets : Z)
    (newBuckets : list (list nt_ptr)) (a : nt_ptr) : list (list nt_ptr) :=
  match h !! a with
  | Some e =>
      let h := u32 (e_hash e) in
      let b := u32 (h mod newNBuckets) in
      <[Z.to_nat b := default [] (newBuckets !! Z.to_nat b) ++ [a]]> newBuckets
  | None => newBuckets
  end.

Definition NameTree_resize (t : NameTree) (newNBuckets : Z) : NameTree :=
  mkNameTree (nt_heap t) (nt_next t) (nt_nItems t) newNBuckets (nt_minNBuckets t)
    (enlargeThreshold newNBuckets) (shrinkThreshold newNBuckets)
    (foldl (rehash_node (nt_heap t) newNBuckets) (replicate (Z.to_nat newNBuckets) [])
       (concat (nt_buckets t))).

(** One iteration of the loop of [lookup], for the prefix of [i] components. *)
Definition NameTree_lookup_step (prefix : Name) (i : nat) (parent : option nt_ptr)
    (t : NameTree) : nt_ptr * NameTree :=
  let temp := getPrefix prefix i in
  let '((entry, isNew), t) := NameTree_insert t temp in
  let t :=
    if isNew then
      let t := set_nItems (nt_nItems t + 1) t in
      let t := alter_entry (setParent parent) entry t in
      match parent with
      | Some p => alter_entry (λ e, setChildren (e_children e ++ [entry]) e) p t
      | None => t
      end
    else t in
  let t :=
    if nt_enlargeThreshold t <? nt_nItems t
    then NameTree_resize t (m_enlargeFactor * nt_nBuckets t) else t in
  (entry, t).

Fixpoint NameTree_lookup_loop (prefix : Name) (n i : nat) (parent : nt_ptr) (t : NameTree) : nt_ptr * NameTree :=
  match n with
  | O => (parent, t)
  | S n' =>
      let '(entry, t) := NameTree_lookup_step prefix i (Some parent) t in
      NameTree_lookup_loop prefix n' (S i) entry t
  end.

Definition NameTree_lookup (t : NameTree) (prefix : Name) : nt_ptr * NameTree :=
  let '(entry, t) := NameTree_lookup_step prefix 0 None t in
  NameTree_lookup_loop prefix (length prefix) 1 entry t.

(** *** Matching *)

Definition NameTree_findExactMatch (t : NameTree) (prefix : Name) : option nt_ptr :=
  let hashValue := computeHash prefix in
  let loc := hashValue mod nt_nBuckets t in
  find_if (on_entry t (λ e, (hashValue =? e_hash e) && bool_decide (prefix = e_prefix e))) (nt_bucket t loc).

(** The scan for one value of [i] of [findLongestPrefixMatch(prefix, selector)] *)
Definition NameTree_matchAt (t : NameTree) (prefix : Name) (sel : NtEntry → bool) (hashValue : Z) : option nt_ptr :=
  let loc := hashValue mod nt_nBuckets t in
  find_if (on_entry t (λ e, (hashValue =? e_hash e) && isPrefixOf (e_prefix e) prefix && sel e)) (nt_bucket t loc).

(** Tries the hashes of the list in order; [findLongestPrefixMatch] passes the
    hash values of the prefixes, from the full name down to the root. *)
Fixpoint NameTree_LPM_loop (t : NameTree) (prefix : Name) (sel : NtEntry → bool) (hs : list Z) : option nt_ptr :=
  match hs with
  | [] => None
  | h :: hs' =>
      match NameTree_matchAt t prefix sel h with
      | Some a => Some a
      | None => NameTree_LPM_loop t prefix sel hs'
      end
  end.

Definition NameTree_findLongestPrefixMatch (t : NameTree) (prefix : Name) (sel : NtEntry → bool) : option nt_ptr :=
  NameTree_LPM_loop t prefix sel (rev (computeHashSet prefix)).

(** [findLongestPrefixMatch(entry, selector)] walks up the parents. *)
Fixpoint NameTree_LPM_up (fuel : nat) (t : NameTree) (entry : option nt_ptr) (sel : NtEntry → bool) : option nt_ptr :=
  match fuel, entry with
  | S fuel', Some a =>
      match nt_heap t !! a with
      | Some e => if sel e then Some a else NameTree_LPM_up fuel' t (e_parent e) sel
      | None => None
      end
  | _, _ => None
  end.

(** The depth of an entry bounds the walk. *)
Definition depth (t : NameTree) (a : nt_ptr) : nat :=
  match nt_heap t !! a with Some e => S (length (e_prefix e)) | None => 0 end.

Definition NameTree_findLongestPrefixMatch_entry (t : NameTree) (a : nt_ptr) (sel : NtEntry → bool) : option nt_ptr :=
  NameTree_LPM_up (depth t a) t (Some a) sel.

(** *** Erasure *)

(** Unlinks the node at [a] from its chain: through [m_prev] when there is a
    previous node, else by storing [m_next] in the bucket of its hash. *)
Definition unlink_node (t : NameTree) (a : nt_ptr) (e : NtEntry) : list (list nt_ptr) :=
  match list_find (λ chain, a ∈ chain) (nt_buckets t) with
  | Some (i, chain) =>
      if bool_decide (head chain = Some a)
      then <[Z.to_nat (e_hash e mod nt_nBuckets t) := tail chain]> (nt_buckets t)
      else <[i := filter (λ b, b ≠ a) chain]> (nt_buckets t)
  | None => nt_buckets t
  end.

Fixpoint NameTree_eraseEntryIfEmpty_fuel (fuel : nat) (t : NameTree) (a : nt_ptr) : bool * NameTree :=
  match fuel, nt_heap t !! a with
  | S fuel', Some e =>
      if isEmpty e then
        let parent := e_parent e in
        let t1 := match parent with
                  | Some p => alter_entry (λ ep, setChildren (swap_erase a (e_children ep)) ep) p t
                  | None => t
                  end in
        let t2 := mkNameTree (delete a (nt_heap t1)) (nt_next t1) (nt_nItems t1 - 1) (nt_nBuckets t1)
                    (nt_minNBuckets t1) (nt_enlargeThreshold t1) (nt_shrinkThreshold t1)
                    (unlink_node t1 a e) in
        let t3 := match parent with
                  | Some p => (NameTree_eraseEntryIfEmpty_fuel fuel' t2 p).2
                  | None => t2
                  end in
        let newNBuckets := shrunkNBuckets (nt_nBuckets t3) in
        let t4 := if (nt_minNBuckets t3 <=? newNBuckets) && (nt_nItems t3 <? nt_shrinkThreshold t3)
                  then NameTree_resize t3 newNBuckets else t3 in
        (true, t4)
      else (false, t)
  | _, _ => (false, t)
  end.

Definition NameTree_eraseEntryIfEmpty (t : NameTree) (a : nt_ptr) : bool * NameTree :=
  NameTree_eraseEntryIfEmpty_fuel (depth t a) t a.
(** *** Enumeration *)

(** The nodes that follow [a] in its chain ([m_next], repeatedly). *)
Fixpoint nodes_after (a : nt_ptr) (chain : list nt_ptr) : list nt_ptr :=
  match chain with
  | [] => []
  | b :: chain' => if bool_decide (b = a) then chain' else nodes_after a chain'
  end.

(** [fullEnumerate] and the FULL_ENUMERATE_TYPE case of [operator++] *)
Definition fullEnumerate_begin (t : NameTree) (sel : NtEntry → bool) : option nt_ptr :=
  find_if (on_entry t sel) (concat (nt_buckets t)).

Definition fullEnumerate_next (t : NameTree) (sel : NtEntry → bool) (a : nt_ptr) : option nt_ptr :=
  match nt_heap t !! a with
  | Some e =>
      let loc := e_hash e mod nt_nBuckets t in
      match find_if (on_entry t sel) (nodes_after a (nt_bucket t loc)) with
      | Some b => Some b
      | None => find_if (on_entry t sel) (concat (drop (Z.to_nat (loc + 1)) (nt_buckets t)))
      end
  | None => None
  end.

(** A range-based for loop over an iterator range: the elements visited. *)
Fixpoint iterate {S : Type} (next : S → option S) (fuel : nat) (it : option S) : list S :=
  match fuel, it with
  | S fuel', Some x => x :: iterate next fuel' (next x)
  | _, _ => []
  end.

Definition NameTree_fullEnumerate (t : NameTree) (sel : NtEntry → bool) : list nt_ptr :=
  iterate (fullEnumerate_next t sel) (size (nt_heap t)) (fullEnumerate_begin t sel).

(** [findAllMatches] and the FIND_ALL_MATCHES_TYPE case of [operator++] *)
Definition findAllMatches_next (t : NameTree) (sel : NtEntry → bool) (a : nt_ptr) : option nt_ptr :=
  match nt_heap t !! a with
  | Some e => NameTree_LPM_up (depth t a) t (e_parent e) sel
  | None => None
  end.

Definition NameTree_findAllMatches (t : NameTree) (prefix : Name) (sel : NtEntry → bool) : list nt_ptr :=
  iterate (findAllMatches_next t sel) (S (length prefix)) (NameTree_findLongestPrefixMatch t prefix sel).

(** [partialEnumerate] and the PARTIAL_ENUMERATE_TYPE case of [operator++].  An
    iterator is the current entry with [m_shouldVisitChildren]; the selector
    returns (accept the entry, visit its children). *)
Definition subtree_visit (t : NameTree) (sel : NtEntry → bool * bool) (a : nt_ptr) : bool * bool :=
  match nt_heap t !! a with
  | Some e => ((sel e).1, (sel e).2 && negb (bool_decide (e_children e = [])))
  | None => (false, false)
  end.

Definition nt_children (t : NameTree) (a : nt_ptr) : list nt_ptr := default [] (e_children <$> nt_heap t !! a).
Definition nt_parent (t : NameTree) (a : nt_ptr) : option nt_ptr := nt_heap t !! a ≫= e_parent.

(** The entry the loop moves to: the first child, the next sibling, or the
    parent with its children done ([None] in the second place). *)
Definition partialEnumerate_move (t : NameTree) (a : nt_ptr) (visit : bool) : option (nt_ptr * bool) :=
  if visit then c ← head (nt_children t a); Some (c, true)
  else
    p ← nt_parent t a;
    match head (nodes_after a (nt_children t p)) with
    | Some c => Some (c, true)
    | None => Some (p, false)
    end.

Fixpoint partialEnumerate_loop (fuel : nat) (t : NameTree) (sel : NtEntry → bool * bool) (root a : nt_ptr)
    (visit : bool) : option (nt_ptr * bool) :=
  match fuel with
  | O => None
  | S fuel' =>
      if bool_decide (a = root) then None
      else
        match partialEnumerate_move t a visit with
        | Some (c, true) =>
            let '(accept, visit') := subtree_visit t sel c in
            if accept then Some (c, visit') else partialEnumerate_loop fuel' t sel root c visit'
        | Some (p, false) => partialEnumerate_loop fuel' t sel root p false
        | None => None
        end
  end.

(** A traversal moves down to, across to and up from each entry at most once. *)
Definition partialEnumerate_fuel (t : NameTree) : nat := 2 * size (nt_heap t) + 2.

Definition partialEnumerate_next (t : NameTree) (sel : NtEntry → bool * bool) (root : nt_ptr)
    (it : nt_ptr * bool) : option (nt_ptr * bool) :=
  let '(a, visit) := it in
  if bool_decide (a = root) then
    if visit then
      match head (nt_children t a) with
      | Some c =>
          let '(accept, visit') := subtree_visit t sel c in
          if accept then Some (c, visit') else partialEnumerate_loop (partialEnumerate_fuel t) t sel root c visit'
      | None => None
      end
    else None
  else partialEnumerate_loop (partialEnumerate_fuel t) t sel root a visit.

Definition partialEnumerate_begin (t : NameTree) (prefix : Name) (sel : NtEntry → bool * bool) :
    option (nt_ptr * (nt_ptr * bool)) :=
  root ← NameTree_findExactMatch t prefix;
  let '(accept, visit) := subtree_visit t sel root in
  if accept then Some (root, (root, visit))
  else it ← partialEnumerate_next t sel root (root, visit); Some (root, it).

Definition NameTree_partialEnumerate (t : NameTree) (prefix : Name) (sel : NtEntry → bool * bool) : list nt_ptr :=
  match partialEnumerate_begin t prefix sel with
  | Some (root, it) => fst <$> iterate (partialEnumerate_next t sel root) (size (nt_heap t)) (Some it)
  | None => []
  end.
End nametree.
