(* ===== verification/NameTreeFacts.v ===== *)
(** * The NameTree invariant and what its operations promise

    The tree part of the invariant speaks of the entries and their parent and
    child pointers, the table part of the buckets.  The abstraction a client
    sees is [payload_at]: a total map from names to what is attached to them. *)

From S2P Require Import Prelude CityHash Packets FibEntry NameTree.

(** ** Payload: what the other tables attach to a name *)

Record Payload := mkPayload {
  p_fib : option FibEntry;
  p_pit : list pit_ptr;
  p_measurements : option MeasurementsEntry;
  p_strategyChoice : option StrategyChoiceEntry
}.

Definition payload (e : NtEntry) : Payload :=
  mkPayload (e_fib e) (e_pit e) (e_measurements e) (e_strategyChoice e).
Definition no_payload : Payload := mkPayload None [] None None.

(** The entry of a name, whichever bucket it is in. *)
Definition entry_at (h : gmap nt_ptr NtEntry) (n : Name) (a : nt_ptr) : Prop :=
  ∃ e, h !! a = Some e ∧ e_prefix e = n.

(** What is attached to the name [n]; nothing when the name has no entry. *)
Definition payload_at `{WireEncoding} (t : NameTree) (n : Name) : Payload :=
  match NameTree_findExactMatch t n with
  | Some a => match nt_heap t !! a with Some e => payload e | None => no_payload end
  | None => no_payload
  end.

(** [h'] extends [h] by entries without payload, for names that satisfy [P]. *)
Record nt_grow (P : Name → Prop) (h h' : gmap nt_ptr NtEntry) : Prop := {
  grow_old a e : h !! a = Some e → ∃ e', h' !! a = Some e' ∧ e_prefix e' = e_prefix e ∧ payload e' = payload e;
  grow_new a e : h' !! a = Some e → h !! a = None → P (e_prefix e) ∧ payload e = no_payload
}.

(** Longest prefix match on a total map from names. *)
Fixpoint lpm_upto {A} (get : Name → option A) (n : Name) (k : nat) : option A :=
  match get (take k n) with
  | Some x => Some x
  | None => match k with O => None | S k' => lpm_upto get n k' end
  end.
Definition lpm {A} (get : Name → option A) (n : Name) : option A := lpm_upto get n (length n).

(** ** Invariants *)

Record tree_wf (h : gmap nt_ptr NtEntry) : Prop := {
  wf_unique a b n : entry_at h n a → entry_at h n b → a = b;
  wf_parent a e : h !! a = Some e →
    match e_parent e with
    | None => e_prefix e = []
    | Some p => ∃ c, entry_at h (getParentName (e_prefix e)) p ∧ e_prefix e = getParentName (e_prefix e) ++ [c]
    end;
  wf_children_nodup a e : h !! a = Some e → NoDup (e_children e);
  wf_children a e c : h !! a = Some e → c ∈ e_children e ↔ ∃ f, h !! c = Some f ∧ e_parent f = Some a
}.

Record table_wf `{WireEncoding} (t : NameTree) : Prop := {
  wf_length : length (nt_buckets t) = Z.to_nat (nt_nBuckets t);
  wf_pow2 : ∃ k, 0 <= k <= 32 ∧ nt_nBuckets t = 2 ^ k;
  wf_min : 0 < nt_minNBuckets t;
  wf_enlarge : nt_enlargeThreshold t = enlargeThreshold (nt_nBuckets t);
  wf_shrink : nt_shrinkThreshold t = shrinkThreshold (nt_nBuckets t);
  wf_nodup : NoDup (concat (nt_buckets t));
  wf_dom a : a ∈ concat (nt_buckets t) ↔ is_Some (nt_heap t !! a);
  wf_loc i chain a e : nt_buckets t !! i = Some chain → a ∈ chain → nt_heap t !! a = Some e →
    i = Z.to_nat (e_hash e mod nt_nBuckets t);
  wf_hash a e : nt_heap t !! a = Some e → e_hash e = computeHash (e_prefix e);
  wf_nItems : nt_nItems t = Z.of_nat (size (nt_heap t));
  wf_fresh a : is_Some (nt_heap t !! a) → (a < nt_next t)%positive
}.

Definition nt_wf `{WireEncoding} (t : NameTree) : Prop := tree_wf (nt_heap t) ∧ table_wf t.

(** No entry could be erased: each leaf carries a payload. *)
Definition pruned_but (h : gmap nt_ptr NtEntry) (b : nt_ptr) : Prop :=
  ∀ a e, h !! a = Some e → a ≠ b → isEmpty e = false.
Definition pruned (h : gmap nt_ptr NtEntry) : Prop :=
  ∀ a e, h !! a = Some e → isEmpty e = false.

Section facts.
Context `{WireEncoding}.

(** ** Buckets as one list *)

Lemma concat_insert_Permutation {A} (bs : list (list A)) i c c' l l' :
  bs !! i = Some c → Permutation (l ++ c) (l' ++ c') →
  Permutation (l ++ concat bs) (l' ++ concat (<[i := c']> bs)).
Proof.
  intros Hi Hp. apply list_elem_of_split_length in Hi as (l1 & l2 & -> & ->).
  rewrite insert_app_r_alt, Nat.sub_diag by lia. simpl. rewrite !concat_app. simpl.
  rewrite (Permutation_app_swap_app (concat l1) c), (Permutation_app_swap_app (concat l1) c').
  rewrite !(app_assoc l), !(app_assoc l'). by rewrite Hp.
Qed.

Lemma concat_insert_snoc {A} (bs : list (list A)) i c (a : A) :
  bs !! i = Some c → Permutation (concat (<[i := c ++ [a]]> bs)) (a :: concat bs).
Proof.
  intros Hi. symmetry. apply (concat_insert_Permutation bs i c (c ++ [a]) [a] [] Hi).
  simpl. by rewrite Permutation_app_comm.
Qed.

Lemma concat_insert_remove {A} (bs : list (list A)) i c c' (a : A) :
  bs !! i = Some c → Permutation c (a :: c') → Permutation (concat bs) (a :: concat (<[i := c']> bs)).
Proof. intros Hi Hp. apply (concat_insert_Permutation bs i c c' [] [a] Hi). done. Qed.

Lemma elem_of_concat_lookup {A} (bs : list (list A)) (a : A) :
  a ∈ concat bs ↔ ∃ i c, bs !! i = Some c ∧ a ∈ c.
Proof.
  rewrite list_elem_of_In, in_concat. setoid_rewrite <-list_elem_of_In. split.
  - intros (c & Hc & Ha). apply list_elem_of_lookup in Hc as [i Hi]. eauto.
  - intros (i & c & Hi & Ha). exists c. split; [|done]. eapply list_elem_of_lookup_2; eauto.
Qed.

(** ** The hash table *)

Lemma nBuckets_pos t : table_wf t → 0 < nt_nBuckets t.
Proof. intros Ht. destruct (wf_pow2 _ Ht) as (k & Hk & ->). lia. Qed.

Lemma bucket_lookup t z : table_wf t →
  nt_buckets t !! Z.to_nat (z mod nt_nBuckets t) = Some (nt_bucket t (z mod nt_nBuckets t)).
Proof.
  intros Ht. pose proof (nBuckets_pos t Ht). unfold nt_bucket.
  pose proof (Z.mod_pos_bound z (nt_nBuckets t)).
  destruct (lookup_lt_is_Some_2 (nt_buckets t) (Z.to_nat (z mod nt_nBuckets t))) as [c ->]; [|done].
  rewrite wf_length by done. lia.
Qed.

(** The bucket of a hash holds the entries whose hash selects it. *)
Lemma elem_of_bucket t z a : table_wf t →
  a ∈ nt_bucket t (z mod nt_nBuckets t) ↔
  ∃ e, nt_heap t !! a = Some e ∧ e_hash e mod nt_nBuckets t = z mod nt_nBuckets t.
Proof.
  intros Ht. pose proof (nBuckets_pos t Ht). pose proof (bucket_lookup t z Ht) as Hb. split.
  - intros Ha. destruct (proj1 (wf_dom _ Ht a)) as [e He].
    { apply elem_of_concat_lookup. eauto. }
    exists e. split; [done|]. pose proof (wf_loc _ Ht _ _ _ _ Hb Ha He) as E.
    pose proof (Z.mod_pos_bound z (nt_nBuckets t)). pose proof (Z.mod_pos_bound (e_hash e) (nt_nBuckets t)). lia.
  - intros (e & He & Hz). destruct (proj1 (elem_of_concat_lookup _ _) (proj2 (wf_dom _ Ht a) (mk_is_Some _ _ He)))
      as (i & c & Hi & Ha).
    rewrite (wf_loc _ Ht _ _ _ _ Hi Ha He), Hz in Hi. congruence.
Qed.

Lemma on_entry_true t p a : on_entry t p a = true ↔ ∃ e, nt_heap t !! a = Some e ∧ p e = true.
Proof. unfold on_entry. destruct (nt_heap t !! a); naive_solver. Qed.

(** A scan of the bucket of [n] for the entry of [n], with or without the
    comparison of hashes, finds it. *)
Lemma find_prefix t n p a : nt_wf t →
  (∀ e, e_hash e = computeHash (e_prefix e) → p e = bool_decide (n = e_prefix e)) →
  find_if (on_entry t p) (nt_bucket t (computeHash n mod nt_nBuckets t)) = Some a ↔ entry_at (nt_heap t) n a.
Proof.
  intros [Hh Ht] Hp.
  assert (Hoe : ∀ b, on_entry t p b = true ↔ entry_at (nt_heap t) n b).
  { intros b. rewrite on_entry_true. unfold entry_at. split; intros (e & He & Hpe); exists e; split; try done.
    - rewrite Hp, bool_decide_eq_true in Hpe by (by eapply wf_hash). done.
    - rewrite Hp, bool_decide_eq_true by (by eapply wf_hash). done. }
  split.
  - intros [_ Ha]%find_if_Some. by apply Hoe.
  - intros Ha. apply find_if_unique.
    + apply elem_of_bucket; [done|]. destruct Ha as (e & He & <-). exists e.
      split; [done|]. by rewrite (wf_hash _ Ht _ _ He).
    + by apply Hoe.
    + intros b _ Hb. apply Hoe in Hb. by eapply wf_unique.
Qed.

Lemma findExactMatch_entry t n a : nt_wf t →
  NameTree_findExactMatch t n = Some a ↔ entry_at (nt_heap t) n a.
Proof.
  intros Ht. apply find_prefix; [done|]. intros e He. rewrite He.
  case_bool_decide as E; [subst; by rewrite Z.eqb_refl|].
  apply andb_false_r.
Qed.

Lemma findExactMatch_None t n : nt_wf t →
  NameTree_findExactMatch t n = None ↔ ∀ a, ¬ entry_at (nt_heap t) n a.
Proof.
  intros Ht. rewrite eq_None_not_Some. unfold is_Some.
  setoid_rewrite (findExactMatch_entry t n); [|done]. naive_solver.
Qed.

Lemma payload_at_entry t a e : nt_wf t → nt_heap t !! a = Some e → payload_at t (e_prefix e) = payload e.
Proof.
  intros Ht He. unfold payload_at.
  rewrite (proj2 (findExactMatch_entry t (e_prefix e) a Ht)) by (by exists e). by rewrite He.
Qed.

Lemma payload_at_None t n : nt_wf t → (∀ a, ¬ entry_at (nt_heap t) n a) → payload_at t n = no_payload.
Proof. intros Ht Hn. unfold payload_at. by rewrite (proj2 (findExactMatch_None t n Ht) Hn). Qed.

Lemma entry_at_dec t n : nt_wf t → (∃ a, entry_at (nt_heap t) n a) ∨ (∀ a, ¬ entry_at (nt_heap t) n a).
Proof.
  intros Ht. destruct (NameTree_findExactMatch t n) as [a|] eqn:E.
  - left. exists a. by apply findExactMatch_entry.
  - right. by apply findExactMatch_None.
Qed.

Lemma payload_at_cases t n : nt_wf t →
  (∃ a e, nt_heap t !! a = Some e ∧ e_prefix e = n ∧ payload_at t n = payload e) ∨
  ((∀ a, ¬ entry_at (nt_heap t) n a) ∧ payload_at t n = no_payload).
Proof.
  intros Ht. destruct (entry_at_dec t n Ht) as [(a & e & He & <-)|Hn].
  - left. exists a, e. split_and!; [done..|]. by apply (payload_at_entry t a).
  - right. split; [done|]. by apply payload_at_None.
Qed.

(** *** Growing a table *)

Lemma nt_grow_refl P h : nt_grow P h h.
Proof. split; [eauto|congruence]. Qed.

Lemma nt_grow_trans P h1 h2 h3 : nt_grow P h1 h2 → nt_grow P h2 h3 → nt_grow P h1 h3.
Proof.
  intros [O1 N1] [O2 N2]. split.
  - intros a e He. destruct (O1 _ _ He) as (e' & He' & ? & ?), (O2 _ _ He') as (e'' & ? & ? & ?).
    exists e''. split_and!; congruence.
  - intros a e He Hn. destruct (h2 !! a) as [e'|] eqn:E; [|eauto].
    destruct (N1 _ _ E Hn) as [HP Hq], (O2 _ _ E) as (e'' & He'' & Hp & ?).
    assert (e'' = e) as -> by congruence. split; congruence.
Qed.

Lemma nt_grow_payload P t t' n : nt_wf t → nt_wf t' → nt_grow P (nt_heap t) (nt_heap t') →
  payload_at t' n = payload_at t n.
Proof.
  intros Ht Ht' [O N].
  destruct (payload_at_cases t n Ht) as [(a & e & He & <- & ->)|[Hn ->]].
  - destruct (O _ _ He) as (e' & He' & <- & <-). by eapply payload_at_entry.
  - destruct (payload_at_cases t' n Ht') as [(a & e & He & <- & ->)|[_ ->]]; [|done].
    destruct (nt_heap t !! a) as [f|] eqn:E; [|by eapply N].
    destruct (O _ _ E) as (e' & ? & ? & ?). destruct (Hn a). exists f. split; congruence.
Qed.

Lemma nt_grow_entry P h h' n a : nt_grow P h h' → entry_at h n a → entry_at h' n a.
Proof. intros [O _] (e & He & <-). destruct (O _ _ He) as (e' & ? & ? & ?). by exists e'. Qed.

(** *** The table under updates of its entries and insertion of a new one *)

Lemma table_wf_set_heap t h' : table_wf t →
  (∀ a, (λ e, (e_hash e, e_prefix e)) <$> h' !! a = (λ e, (e_hash e, e_prefix e)) <$> nt_heap t !! a) →
  table_wf (set_heap h' t).
Proof.
  intros Ht Hh.
  assert (Hs : ∀ a, is_Some (h' !! a) ↔ is_Some (nt_heap t !! a)).
  { intros a. specialize (Hh a). destruct (h' !! a), (nt_heap t !! a); naive_solver. }
  assert (Hk : ∀ a e, h' !! a = Some e → ∃ f, nt_heap t !! a = Some f ∧ e_hash e = e_hash f ∧ e_prefix e = e_prefix f).
  { intros a e He. specialize (Hh a). rewrite He in Hh. destruct (nt_heap t !! a); naive_solver. }
  destruct Ht. split; simpl; auto.
  - intros a. by rewrite Hs.
  - intros i c a e Hi Ha He. destruct (Hk _ _ He) as (f & Hf & -> & _). eauto.
  - intros a e He. destruct (Hk _ _ He) as (f & Hf & -> & ->). eauto.
  - rewrite wf_nItems0. f_equal. rewrite <-!size_dom. f_equal.
    apply set_eq. intros a. by rewrite !elem_of_dom.
  - intros a. rewrite Hs. eauto.
Qed.

Lemma table_wf_insert t e : table_wf t → e_hash e = computeHash (e_prefix e) →
  let loc := e_hash e mod nt_nBuckets t in
  table_wf (mkNameTree (<[nt_next t := e]> (nt_heap t)) (Pos.succ (nt_next t)) (nt_nItems t + 1)
    (nt_nBuckets t) (nt_minNBuckets t) (nt_enlargeThreshold t) (nt_shrinkThreshold t)
    (<[Z.to_nat loc := nt_bucket t loc ++ [nt_next t]]> (nt_buckets t))).
Proof.
  intros Ht He loc. pose proof (bucket_lookup t (e_hash e) Ht) as Hb. fold loc in Hb.
  assert (Hfr : nt_heap t !! nt_next t = None).
  { apply eq_None_not_Some. intros Hs. pose proof (wf_fresh _ Ht _ Hs). lia. }
  assert (Hnot : nt_next t ∉ concat (nt_buckets t)) by (rewrite (wf_dom _ Ht), Hfr; by intros [? ?]).
  pose proof (concat_insert_snoc _ _ _ (nt_next t) Hb) as Hp.
  pose proof (nBuckets_pos t Ht) as Hn.
  destruct Ht. split; simpl; auto.
  - by rewrite length_insert.
  - rewrite Hp. by apply NoDup_cons.
  - intros a. rewrite Hp, elem_of_cons, wf_dom0, lookup_insert_is_Some'. naive_solver.
  - intros i c a f Hi Ha Hf. apply list_lookup_insert_Some in Hi as [(<- & <- & _)|[Hne Hi]].
    + apply elem_of_app in Ha as [Ha| ->%list_elem_of_singleton]; [|by rewrite lookup_insert_eq in Hf; simplify_eq].
      rewrite lookup_insert_ne in Hf; [by eapply wf_loc0|].
      intros <-. apply Hnot, elem_of_concat_lookup. eauto.
    + rewrite lookup_insert_ne in Hf; [by eapply wf_loc0|].
      intros <-. apply Hnot, elem_of_concat_lookup. eauto.
  - intros a f [[<- <-]|[_ Hf]]%lookup_insert_Some; eauto.
  - rewrite map_size_insert_None by done. rewrite wf_nItems0. lia.
  - intros a. rewrite lookup_insert_is_Some'. intros [<-|Ha]; [lia|].
    pose proof (wf_fresh0 _ Ha). lia.
Qed.

(** *** [resize] *)

Lemma u32_bucket z k : 0 <= k <= 32 → u32 (u32 z mod 2 ^ k) = z mod 2 ^ k.
Proof.
  intros Hk. assert (H2 : 0 < 2 ^ k <= 2 ^ 32) by (split; [lia|apply Z.pow_le_mono_r; lia]).
  rewrite u32_small.
  - unfold u32. apply Z.mod_mod_divide. exists (2 ^ (32 - k)). rewrite <-Z.pow_add_r by lia. f_equal. lia.
  - unfold in_u32. pose proof (Z.mod_pos_bound (u32 z) (2 ^ k)). lia.
Qed.

Lemma u32_mod_lt z n : 0 < n → 0 <= u32 (u32 z mod n) < n.
Proof.
  intros Hn. pose proof (Z.mod_pos_bound (u32 z) n Hn) as Hb.
  destruct (u32_range (u32 z mod n)). split; [done|].
  assert (u32 (u32 z mod n) <= u32 z mod n); [apply Z.mod_le; lia|lia].
Qed.

Lemma rehash_spec h n l : 0 < n → (∀ a, a ∈ l → is_Some (h !! a)) → ∀ bs, length bs = Z.to_nat n →
  let bs' := foldl (rehash_node h n) bs l in
  length bs' = Z.to_nat n ∧ Permutation (concat bs') (l ++ concat bs) ∧
  ∀ i c a, bs' !! i = Some c → a ∈ c →
    (∃ c0, bs !! i = Some c0 ∧ a ∈ c0) ∨
    (∃ e, h !! a = Some e ∧ i = Z.to_nat (u32 (u32 (e_hash e) mod n))).
Proof.
  intros Hn. induction l as [|b l IH]; intros Hl bs Hbs; simpl; [naive_solver|].
  destruct (Hl b) as [e He]; [set_solver|].
  assert (E : rehash_node h n bs b = <[Z.to_nat (u32 (u32 (e_hash e) mod n)) :=
    default [] (bs !! Z.to_nat (u32 (u32 (e_hash e) mod n))) ++ [b]]> bs) by (unfold rehash_node; by rewrite He).
  rewrite E. set (j := Z.to_nat (u32 (u32 (e_hash e) mod n))) in *.
  destruct (lookup_lt_is_Some_2 bs j) as [c0 Hc0].
  { subst j. pose proof (u32_mod_lt (e_hash e) n Hn). lia. }
  rewrite Hc0. simpl.
  destruct (IH ltac:(set_solver) (<[j := c0 ++ [b]]> bs)) as (H1 & H2 & H3); [by rewrite length_insert|].
  split_and!; [done| |].
  - rewrite H2, concat_insert_snoc by done. by rewrite Permutation_middle.
  - intros i c a Hi Ha. destruct (H3 _ _ _ Hi Ha) as [(c1 & Hc1 & Ha1)|?]; [|by right].
    apply list_lookup_insert_Some in Hc1 as [(<- & <- & _)|[_ Hc1]]; [|eauto].
    apply elem_of_app in Ha1 as [?|?%list_elem_of_singleton]; subst; eauto.
Qed.

Lemma concat_replicate_nil {A} n : concat (replicate n (@nil A)) = [].
Proof. induction n; simpl; auto. Qed.

Lemma resize_wf t k : table_wf t → 0 <= k <= 32 → table_wf (NameTree_resize t (2 ^ k)).
Proof.
  intros Ht Hk.
  assert (Hk2 : 0 < 2 ^ k) by (apply Z.pow_pos_nonneg; lia).
  destruct (rehash_spec (nt_heap t) (2 ^ k) (concat (nt_buckets t)) Hk2 (λ a, proj1 (wf_dom _ Ht a))
    (replicate (Z.to_nat (2 ^ k)) []) (length_replicate _ _)) as (H1 & H2 & H3).
  rewrite concat_replicate_nil, app_nil_r in H2.
  destruct Ht. split; simpl; auto.
  - eauto.
  - by rewrite H2.
  - intros a. by rewrite H2.
  - intros i c a e Hi Ha He. destruct (H3 _ _ _ Hi Ha) as [(c0 & Hc0 & Ha0)|(f & Hf & ->)].
    + apply lookup_replicate in Hc0 as [-> _]. by apply elem_of_nil in Ha0.
    + simplify_eq. by rewrite u32_bucket.
Qed.
(** ** The tree of entries *)

Lemma tree_wf_children_dom h p ep c : tree_wf h → h !! p = Some ep → c ∈ e_children ep → is_Some (h !! c).
Proof. intros Hh Hp Hc. apply (wf_children _ Hh _ _ _ Hp) in Hc as (f & -> & _). eauto. Qed.

Lemma tree_wf_root h a hash : tree_wf h → h !! a = None → (∀ b, ¬ entry_at h [] b) →
  tree_wf (<[a := NtEntry_new hash []]> h).
Proof.
  intros Hh Ha Hn. split.
  - intros b1 b2 n (e1 & He1 & <-) (e2 & He2 & E2).
    apply lookup_insert_Some in He1 as [[<- <-]|[_ He1]], He2 as [[<- <-]|[_ He2]]; simpl in *; try done.
    + destruct (Hn b2). by exists e2.
    + destruct (Hn b1). by exists e1.
    + apply (wf_unique _ Hh _ _ (e_prefix e1)); [by exists e1|by exists e2].
  - intros b e [[<- <-]|[_ He]]%lookup_insert_Some; [done|].
    pose proof (wf_parent _ Hh _ _ He) as Hp. destruct (e_parent e) as [p|]; [|done].
    destruct Hp as (c & (f & Hf & Hfn) & Hc). exists c. split; [|done]. exists f. split; [|done].
    rewrite lookup_insert_ne; [done|]. congruence.
  - intros b e [[<- <-]|[_ He]]%lookup_insert_Some; [constructor|by eapply wf_children_nodup].
  - intros b e c [[<- <-]|[Hb He]]%lookup_insert_Some; simpl.
    + rewrite elem_of_nil. split; [done|]. intros (f & [[<- <-]|[_ Hf]]%lookup_insert_Some & Hp); [done|].
      pose proof (wf_parent _ Hh _ _ Hf) as Hpar. rewrite Hp in Hpar.
      destruct Hpar as (_ & (g & Hg & _) & _). congruence.
    + rewrite (wf_children _ Hh _ _ _ He). split.
      * intros (f & Hf & Hp). exists f. split; [|done]. rewrite lookup_insert_ne; [done|congruence].
      * intros (f & [[<- <-]|[_ Hf]]%lookup_insert_Some & Hp); [done|eauto].
Qed.

Definition add_leaf (a p : nt_ptr) (new : NtEntry) (h : gmap nt_ptr NtEntry) : gmap nt_ptr NtEntry :=
  alter (λ e, setChildren (e_children e ++ [a]) e) p (<[a := new]> h).

Lemma lookup_add_leaf a p new h b : a ≠ p →
  add_leaf a p new h !! b =
  if decide (b = a) then Some new
  else if decide (b = p) then (λ e, setChildren (e_children e ++ [a]) e) <$> h !! b else h !! b.
Proof.
  intros Hap. unfold add_leaf. case_decide as E1; [subst b|case_decide as E2; [subst b|]].
  - by rewrite lookup_alter_ne, lookup_insert_eq.
  - by rewrite lookup_alter_eq, lookup_insert_ne.
  - by rewrite lookup_alter_ne, lookup_insert_ne.
Qed.

Lemma tree_wf_leaf h p n c a hash : tree_wf h → h !! a = None → entry_at h n p →
  (∀ b, ¬ entry_at h (n ++ [c]) b) →
  tree_wf (add_leaf a p (setParent (Some p) (NtEntry_new hash (n ++ [c]))) h).
Proof.
  intros Hh Ha (ep & Hp & Hpn) Hn. assert (Hap : a ≠ p) by congruence.
  set (new := setParent _ _).
  assert (Hl := λ b, lookup_add_leaf a p new h b Hap). set (h' := add_leaf a p new h) in *.
  (* each entry of the result is the new one or an old one with the same prefix and parent *)
  assert (Hold : ∀ b e, h' !! b = Some e → (b = a ∧ e = new) ∨
    (b ≠ a ∧ ∃ f, h !! b = Some f ∧ e_prefix e = e_prefix f ∧ e_parent e = e_parent f ∧
      e_children e = if decide (b = p) then e_children f ++ [a] else e_children f)).
  { intros b e He. rewrite Hl in He. case_decide; [naive_solver|]. right. split; [done|].
    case_decide; [|eauto]. apply fmap_Some in He as (f & Hf & ->). eauto. }
  assert (Hkeep : ∀ b f, h !! b = Some f → ∃ e, h' !! b = Some e ∧ e_prefix e = e_prefix f ∧ e_parent e = e_parent f).
  { intros b f Hf. rewrite Hl. rewrite decide_False by congruence.
    case_decide; [|eauto]. rewrite Hf. csimpl. eauto. }
  assert (Hnotchild : ∀ b f, h !! b = Some f → a ∉ e_children f).
  { intros b f Hf Hin. destruct (tree_wf_children_dom _ _ _ _ Hh Hf Hin). congruence. }
  split.
  - intros b1 b2 m (e1 & He1 & <-) (e2 & He2 & E2).
    destruct (Hold _ _ He1) as [[-> ->]|(? & f1 & Hf1 & P1 & _)], (Hold _ _ He2) as [[-> ->]|(? & f2 & Hf2 & P2 & _)]; [done|..].
    + destruct (Hn b2). exists f2. split; [done|]. by rewrite <-P2, E2.
    + destruct (Hn b1). exists f1. split; [done|]. by rewrite <-P1, <-E2.
    + apply (wf_unique _ Hh _ _ (e_prefix f1)); [by exists f1|]. exists f2. split; congruence.
  - intros b e He. destruct (Hold _ _ He) as [[-> ->]|(? & f & Hf & Hpre & -> & _)].
    + simpl. exists c. rewrite getParentName_snoc. split; [|done].
      destruct (Hkeep _ _ Hp) as (e & ? & ? & _). exists e. split; congruence.
    + pose proof (wf_parent _ Hh _ _ Hf) as Hpar. rewrite Hpre. destruct (e_parent f) as [q|]; [|done].
      destruct Hpar as (d & (g & Hg & Hgn) & Hd). exists d. split; [|done].
      destruct (Hkeep _ _ Hg) as (g' & ? & ? & _). exists g'. split; congruence.
  - intros b e He. destruct (Hold _ _ He) as [[-> ->]|(? & f & Hf & _ & _ & ->)]; [constructor|].
    pose proof (wf_children_nodup _ Hh _ _ Hf). case_decide; [|done].
    apply NoDup_app. split_and!; [done| |apply NoDup_singleton].
    intros x Hx ->%list_elem_of_singleton. by eapply Hnotchild.
  - intros b e x He. destruct (Hold _ _ He) as [[-> ->]|(Hba & f & Hf & _ & _ & ->)].
    + simpl. rewrite elem_of_nil. split; [done|]. intros (g & Hg & Hgp).
      destruct (Hold _ _ Hg) as [[-> ->]|(? & k & Hk & _ & Hkp & _)]; [simpl in Hgp; congruence|].
      pose proof (wf_parent _ Hh _ _ Hk) as Hpar. rewrite <-Hkp, Hgp in Hpar.
      destruct Hpar as (_ & (y & Hy & _) & _). congruence.
    + transitivity (x ∈ e_children f ∨ b = p ∧ x = a).
      { case_decide; [rewrite elem_of_app, list_elem_of_singleton|]; naive_solver. }
      rewrite (wf_children _ Hh _ _ _ Hf). split.
      * intros [(g & Hg & Hgp)|[-> ->]].
        -- destruct (Hkeep _ _ Hg) as (g' & ? & _ & ?). exists g'. split; congruence.
        -- exists new. by rewrite Hl, decide_True.
      * intros (g & Hg & Hgp). destruct (Hold _ _ Hg) as [[-> ->]|(? & k & Hk & _ & Hkp & _)].
        -- right. simpl in Hgp. split; congruence.
        -- left. exists k. split; congruence.
Qed.
(** ** [lookup] *)

Definition maybe_enlarge (t : NameTree) : NameTree :=
  if nt_enlargeThreshold t <? nt_nItems t then NameTree_resize t (m_enlargeFactor * nt_nBuckets t) else t.

Lemma maybe_enlarge_wf t : nt_wf t → nt_nItems t <= 2 ^ 31 →
  nt_wf (maybe_enlarge t) ∧ nt_heap (maybe_enlarge t) = nt_heap t ∧ nt_nItems (maybe_enlarge t) = nt_nItems t.
Proof.
  intros [Hh Ht] Hi. unfold maybe_enlarge. case_match eqn:E; [|done]. split; [|done]. split; [done|].
  destruct (wf_pow2 _ Ht) as (k & Hk & Hn). rewrite (wf_enlarge _ Ht) in E. unfold enlargeThreshold in E.
  apply Z.ltb_lt in E. rewrite Hn in *. unfold m_enlargeFactor.
  assert (k ≠ 32) by (intros ->; vm_compute (2 ^ 32 / 2) in E; lia).
  rewrite <-Z.pow_succ_r by lia. apply resize_wf; [done|lia].
Qed.

(** The parent that [lookup] passes along for the prefix of [i] components. *)
Definition parent_ok (h : gmap nt_ptr NtEntry) (prefix : Name) (i : nat) (parent : option nt_ptr) : Prop :=
  match parent with
  | None => i = 0%nat
  | Some p => ∃ j, i = S j ∧ entry_at h (take j prefix) p
  end.

Lemma isEmpty_children e : e_children e ≠ [] → isEmpty e = false.
Proof. unfold isEmpty. intros ?. by rewrite bool_decide_eq_false_2. Qed.

Lemma parent_has_child h p n c a e : tree_wf h → entry_at h n p → entry_at h (n ++ [c]) a →
  h !! p = Some e → a ∈ e_children e.
Proof.
  intros Hh Hp (f & Hf & Hfn) He. apply (wf_children _ Hh _ _ _ He). exists f. split; [done|].
  pose proof (wf_parent _ Hh _ _ Hf) as Hpar. rewrite Hfn in Hpar.
  destruct (e_parent f) as [q|]; [|by destruct n].
  destruct Hpar as (d & Hq & _). rewrite getParentName_snoc in Hq. f_equal. by eapply wf_unique.
Qed.

Definition lookup_step_post (t : NameTree) (prefix : Name) (i : nat) (parent : option nt_ptr)
    (r : nt_ptr * NameTree) : Prop :=
  let '(a, t') := r in
  nt_wf t' ∧ entry_at (nt_heap t') (take i prefix) a ∧
  nt_grow (λ m, m = take i prefix) (nt_heap t) (nt_heap t') ∧ nt_nItems t' <= nt_nItems t + 1 ∧
  (match parent with Some p => pruned_but (nt_heap t) p | None => pruned (nt_heap t) end →
   pruned_but (nt_heap t') a).

Lemma lookup_step_found t prefix i parent a : nt_wf t → (i <= length prefix)%nat →
  parent_ok (nt_heap t) prefix i parent → entry_at (nt_heap t) (take i prefix) a →
  lookup_step_post t prefix i parent (a, t).
Proof.
  intros Ht Hi Hpar Ha. unfold lookup_step_post. split_and!; [done|done|apply nt_grow_refl|lia|].
  destruct parent as [p|]; intros Hpr b e He Hne; [|by eapply Hpr].
  destruct (decide (b = p)) as [->|]; [|by eapply Hpr].
  destruct Hpar as (j & -> & Hj). destruct (lookup_lt_is_Some_2 prefix j ltac:(lia)) as [c Hc].
  rewrite (take_S_r _ _ _ Hc) in Ha.
  apply isEmpty_children. intros E.
  pose proof (parent_has_child _ _ _ _ _ _ (proj1 Ht) Hj Ha He) as Hin. rewrite E in Hin. by apply elem_of_nil in Hin.
Qed.

Lemma nt_wf_fresh t : nt_wf t → nt_heap t !! nt_next t = None.
Proof. intros [_ Ht]. apply eq_None_not_Some. intros Hs. pose proof (wf_fresh _ Ht _ Hs). lia. Qed.

(** The table [lookup] has after it created the entry of a prefix. *)
Definition lookup_created (t : NameTree) (n : Name) (parent : option nt_ptr) : NameTree :=
  let hash := computeHash n in
  let loc := hash mod nt_nBuckets t in
  let a := nt_next t in
  let e := setParent parent (NtEntry_new hash n) in
  mkNameTree (match parent with Some p => add_leaf a p e (nt_heap t) | None => <[a := e]> (nt_heap t) end)
    (Pos.succ a) (nt_nItems t + 1) (nt_nBuckets t) (nt_minNBuckets t) (nt_enlargeThreshold t)
    (nt_shrinkThreshold t) (<[Z.to_nat loc := nt_bucket t loc ++ [a]]> (nt_buckets t)).

Lemma lookup_step_eq t prefix i parent : nt_wf t →
  NameTree_lookup_step prefix i parent t =
  match NameTree_findExactMatch t (take i prefix) with
  | Some a => (a, maybe_enlarge t)
  | None => (nt_next t, maybe_enlarge (lookup_created t (take i prefix) parent))
  end.
Proof.
  intros Ht. unfold NameTree_lookup_step, NameTree_insert, getPrefix. set (n := take i prefix).
  assert (Hf : find_if (on_entry t (λ e, bool_decide (n = e_prefix e))) (nt_bucket t (computeHash n mod nt_nBuckets t))
    = NameTree_findExactMatch t n).
  { apply option_eq. intros a. rewrite findExactMatch_entry by done. by apply find_prefix. }
  rewrite Hf. destruct (NameTree_findExactMatch t n) as [a|]; [done|]. cbn [fst snd].
  unfold lookup_created, maybe_enlarge, alter_entry, set_heap, set_nItems, add_leaf. simpl.
  destruct parent as [p|]; simpl; by rewrite alter_insert_eq.
Qed.

Lemma lookup_created_wf t prefix i parent : nt_wf t → (i <= length prefix)%nat →
  parent_ok (nt_heap t) prefix i parent → (∀ b, ¬ entry_at (nt_heap t) (take i prefix) b) →
  lookup_step_post t prefix i parent (nt_next t, lookup_created t (take i prefix) parent).
Proof.
  intros Ht Hi Hpar Hn. pose proof (nt_wf_fresh t Ht) as Hfr. destruct Ht as [Hh Ht].
  set (n := take i prefix) in *. set (a := nt_next t) in *.
  pose (new := setParent parent (NtEntry_new (computeHash n) n)).
  pose proof (table_wf_insert t new Ht eq_refl) as Hins. unfold lookup_step_post.
  destruct parent as [p|]; simpl in Hpar.
  - destruct Hpar as (j & -> & Hj). destruct (lookup_lt_is_Some_2 prefix j ltac:(lia)) as [c Hc].
    assert (En : n = take j prefix ++ [c]) by apply (take_S_r _ _ _ Hc).
    assert (Hap : a ≠ p) by (destruct Hj as (? & ? & _); congruence).
    pose proof (λ b, lookup_add_leaf a p new (nt_heap t) b Hap) as Hl. unfold lookup_created; simpl.
    fold new. fold a. split_and!.
    + split; simpl.
      * subst new. rewrite En in Hn |- *. by apply tree_wf_leaf.
      * eapply (table_wf_set_heap _ (add_leaf a p new (nt_heap t))) in Hins; [exact Hins|].
        intros b. simpl. fold a. unfold add_leaf. destruct (decide (b = p)) as [->|].
        -- rewrite lookup_alter_eq. by destruct (<[a:=new]> (nt_heap t) !! p).
        -- by rewrite lookup_alter_ne.
    + exists new. by rewrite Hl, decide_True.
    + split.
      * intros b e He. rewrite Hl, decide_False by congruence.
        case_decide; [|eauto]. rewrite He. csimpl. eauto.
      * intros b e He Hb. rewrite Hl in He. case_decide; [by simplify_eq|].
        case_decide; [|congruence]. by rewrite Hb in He.
    + lia.
    + intros Hpr b e He Hne. rewrite Hl, decide_False in He by done.
      case_decide; [|by eapply Hpr]. apply fmap_Some in He as (f & _ & ->).
      apply isEmpty_children. simpl. by destruct (e_children f).
  - subst i. unfold lookup_created; simpl. fold new. fold a. split_and!.
    + split; simpl; [by apply tree_wf_root|exact Hins].
    + exists new. by rewrite lookup_insert_eq.
    + split.
      * intros b e He. rewrite lookup_insert_ne by congruence. eauto.
      * intros b e [[<- <-]|[_ He]]%lookup_insert_Some Hb; [done|congruence].
    + lia.
    + intros Hpr b e [[<- <-]|[_ He]]%lookup_insert_Some Hne; [done|by eapply Hpr].
Qed.

Lemma lookup_step_spec t prefix i parent : nt_wf t → nt_nItems t < 2 ^ 31 → (i <= length prefix)%nat →
  parent_ok (nt_heap t) prefix i parent →
  lookup_step_post t prefix i parent (NameTree_lookup_step prefix i parent t).
Proof.
  intros Ht Hitems Hi Hpar. rewrite lookup_step_eq by done.
  assert (Hlift : ∀ a t1, lookup_step_post t prefix i parent (a, t1) →
    lookup_step_post t prefix i parent (a, maybe_enlarge t1)).
  { intros a t1 (H1 & H2 & H3 & H4 & H5). destruct (maybe_enlarge_wf t1 H1) as (E1 & E2 & E3); [lia|].
    unfold lookup_step_post. rewrite E2, E3. done. }
  destruct (NameTree_findExactMatch t (take i prefix)) as [a|] eqn:E; apply Hlift.
  - apply lookup_step_found; try done. by apply findExactMatch_entry.
  - apply lookup_created_wf; try done. by apply findExactMatch_None.
Qed.

(** [lookup] returns the entry of the name; it creates only the prefixes of the
    name, which carry no payload. *)
Record lookup_post (t : NameTree) (n : Name) (a : nt_ptr) (t' : NameTree) : Prop := {
  lookup_wf : nt_wf t';
  lookup_entry : entry_at (nt_heap t') n a;
  lookup_grow : nt_grow (λ m, m `prefix_of` n) (nt_heap t) (nt_heap t');
  lookup_pruned : pruned (nt_heap t) → pruned_but (nt_heap t') a;
  lookup_nItems : nt_nItems t' <= nt_nItems t + Z.of_nat (length n) + 1
}.

Lemma lookup_loop_spec n k j p t : nt_wf t → nt_nItems t + Z.of_nat k <= 2 ^ 31 →
  (j + k = length n)%nat → entry_at (nt_heap t) (take j n) p →
  let '(a, t') := NameTree_lookup_loop n k (S j) p t in
  nt_wf t' ∧ entry_at (nt_heap t') n a ∧ nt_grow (λ m, m `prefix_of` n) (nt_heap t) (nt_heap t') ∧
  nt_nItems t' <= nt_nItems t + Z.of_nat k ∧ (pruned_but (nt_heap t) p → pruned_but (nt_heap t') a).
Proof.
  revert j p t. induction k as [|k IH]; intros j p t Ht Hi Hj Hp; simpl.
  - rewrite take_ge in Hp by lia. split_and!; [done|done|apply nt_grow_refl|lia|done].
  - pose proof (lookup_step_spec t n (S j) (Some p) Ht ltac:(lia) ltac:(lia) (ex_intro _ j (conj eq_refl Hp))) as Hs.
    destruct (NameTree_lookup_step n (S j) (Some p) t) as [a1 t1].
    destruct Hs as (W1 & A1 & G1 & I1 & P1).
    specialize (IH (S j) a1 t1 W1 ltac:(lia) ltac:(lia) A1).
    destruct (NameTree_lookup_loop n k (S (S j)) a1 t1) as [a2 t2].
    destruct IH as (W2 & A2 & G2 & I2 & P2). split_and!; [done|done| |lia|auto].
    eapply nt_grow_trans; [|done]. destruct G1 as [O N]. split; [done|].
    intros b e He Hb. destruct (N b e He Hb) as [-> ->]. split; [apply prefix_take|done].
Qed.

Lemma lookup_spec t n a t' : nt_wf t → nt_nItems t + Z.of_nat (length n) < 2 ^ 31 →
  NameTree_lookup t n = (a, t') → lookup_post t n a t'.
Proof.
  intros Ht Hi E. unfold NameTree_lookup in E.
  pose proof (lookup_step_spec t n 0 None Ht ltac:(lia) ltac:(lia) eq_refl) as Hs.
  destruct (NameTree_lookup_step n 0 None t) as [a1 t1]. destruct Hs as (W1 & A1 & G1 & I1 & P1).
  pose proof (lookup_loop_spec n (length n) 0 a1 t1 W1 ltac:(lia) ltac:(lia) A1) as Hl.
  rewrite E in Hl. destruct Hl as (W2 & A2 & G2 & I2 & P2). split; [done|done| |auto|lia].
  eapply nt_grow_trans; [|done]. destruct G1 as [O N]. split; [done|].
  intros b e He Hb. destruct (N b e He Hb) as [-> ->]. split; [apply prefix_take|done].
Qed.
(** ** [eraseEntryIfEmpty] *)

Definition remove_leaf (a : nt_ptr) (parent : option nt_ptr) (h : gmap nt_ptr NtEntry) : gmap nt_ptr NtEntry :=
  delete a match parent with
           | Some p => alter (λ ep, setChildren (swap_erase a (e_children ep)) ep) p h
           | None => h
           end.

Lemma lookup_remove_leaf a parent h b : remove_leaf a parent h !! b =
  if decide (b = a) then None
  else if decide (parent = Some b) then (λ ep, setChildren (swap_erase a (e_children ep)) ep) <$> h !! b
  else h !! b.
Proof.
  unfold remove_leaf. case_decide as E1; [subst b; by rewrite lookup_delete_eq|].
  rewrite lookup_delete_ne by done. destruct parent as [p|]; [|by rewrite decide_False].
  case_decide as E2; [injection E2 as ->; by rewrite lookup_alter_eq|].
  rewrite lookup_alter_ne; congruence.
Qed.

Lemma isEmpty_true e : isEmpty e = true ↔ e_children e = [] ∧ payload e = no_payload.
Proof.
  unfold isEmpty, payload, no_payload. rewrite !andb_true_iff, !bool_decide_eq_true, <-!eq_None_not_Some.
  split; [intros [[[[-> ->] ->] ->] ->]; done|].
  intros [-> E]. injection E as -> -> -> ->. done.
Qed.

Lemma parent_ne a e p h : tree_wf h → h !! a = Some e → e_parent e = Some p → p ≠ a.
Proof.
  intros Hh Ha Hp ->. pose proof (wf_parent _ Hh _ _ Ha) as Hpar. rewrite Hp in Hpar.
  destruct Hpar as (c & (f & Hf & E) & Hc). simplify_eq. rewrite <-E in Hc.
  apply (f_equal length) in Hc. rewrite length_app in Hc. simpl in Hc. lia.
Qed.

Lemma tree_wf_remove_leaf h a e : tree_wf h → h !! a = Some e → e_children e = [] →
  tree_wf (remove_leaf a (e_parent e) h).
Proof.
  intros Hh Ha Hc. pose proof (λ b, lookup_remove_leaf a (e_parent e) h b) as Hl.
  set (h' := remove_leaf a (e_parent e) h) in *.
  assert (Hnochild : ∀ b f, h !! b = Some f → e_parent f ≠ Some a).
  { intros b f Hf Hp. assert (b ∈ e_children e) as Hin; [|rewrite Hc in Hin; by apply elem_of_nil in Hin].
    apply (wf_children _ Hh _ _ _ Ha). eauto. }
  assert (Hold : ∀ b f, h' !! b = Some f → b ≠ a ∧ ∃ g, h !! b = Some g ∧ e_prefix f = e_prefix g ∧
    e_parent f = e_parent g ∧ e_children f = if decide (e_parent e = Some b) then swap_erase a (e_children g) else e_children g).
  { intros b f Hf. rewrite Hl in Hf. case_decide; [done|]. split; [done|].
    case_decide; [|eauto]. apply fmap_Some in Hf as (g & Hg & ->). eauto. }
  assert (Hkeep : ∀ b g, b ≠ a → h !! b = Some g → ∃ f, h' !! b = Some f ∧ e_prefix f = e_prefix g ∧ e_parent f = e_parent g).
  { intros b g Hb Hg. rewrite Hl, decide_False by done. case_decide; [|eauto]. rewrite Hg. csimpl. eauto. }
  split.
  - intros b1 b2 m (e1 & He1 & <-) (e2 & He2 & E2).
    destruct (Hold _ _ He1) as (_ & f1 & Hf1 & P1 & _), (Hold _ _ He2) as (_ & f2 & Hf2 & P2 & _).
    apply (wf_unique _ Hh _ _ (e_prefix f1)); [by exists f1|]. exists f2. split; congruence.
  - intros b f Hf. destruct (Hold _ _ Hf) as (_ & g & Hg & -> & -> & _).
    pose proof (wf_parent _ Hh _ _ Hg) as Hpar. destruct (e_parent g) as [q|] eqn:Eq; [|done].
    destruct Hpar as (c & (k & Hk & Hkn) & Hd). exists c. split; [|done].
    destruct (Hkeep q k) as (k' & ? & ? & _); [|done|exists k'; split; congruence].
    intros ->. by apply (Hnochild _ _ Hg).
  - intros b f Hf. destruct (Hold _ _ Hf) as (_ & g & Hg & _ & _ & ->).
    pose proof (wf_children_nodup _ Hh _ _ Hg) as Hnd. case_decide; [|done].
    apply swap_erase_NoDup; [|done]. apply (wf_children _ Hh _ _ _ Hg). eauto.
  - intros b f c Hf. destruct (Hold _ _ Hf) as (Hba & g & Hg & _ & _ & ->).
    transitivity (c ∈ e_children g ∧ c ≠ a).
    { pose proof (wf_children_nodup _ Hh _ _ Hg) as Hnd. case_decide as Ep.
      - rewrite elem_of_swap_erase; [done| |done]. apply (wf_children _ Hh _ _ _ Hg). eauto.
      - split; [|tauto]. intros Hin. split; [done|]. intros ->.
        apply (wf_children _ Hh _ _ _ Hg) in Hin as (k & Hk & Hkp). simplify_eq. }
    rewrite (wf_children _ Hh _ _ _ Hg). split.
    + intros [(k & Hk & Hkp) Hne]. destruct (Hkeep _ _ Hne Hk) as (k' & ? & _ & ?). exists k'. split; congruence.
    + intros (k & Hk & Hkp). destruct (Hold _ _ Hk) as (? & k' & ? & _ & ? & _).
      split; [|done]. exists k'. split; congruence.
Qed.

Lemma unlink_node_spec t a e : table_wf t → nt_heap t !! a = Some e →
  length (unlink_node t a e) = Z.to_nat (nt_nBuckets t) ∧
  Permutation (concat (nt_buckets t)) (a :: concat (unlink_node t a e)) ∧
  ∀ i c b, unlink_node t a e !! i = Some c → b ∈ c → ∃ c0, nt_buckets t !! i = Some c0 ∧ b ∈ c0.
Proof.
  intros Ht Ha. unfold unlink_node.
  destruct (proj1 (elem_of_concat_lookup _ _) (proj2 (wf_dom _ Ht a) (mk_is_Some _ _ Ha))) as (i0 & c0 & Hi0 & Ha0).
  destruct (list_find (λ chain, a ∈ chain) (nt_buckets t)) as [[i chain]|] eqn:E.
  2: { apply list_find_None in E. rewrite Forall_lookup in E. by destruct (E _ _ Hi0). }
  apply list_find_Some in E as (Hi & Hac & _).
  pose proof (wf_loc _ Ht _ _ _ _ Hi Hac Ha) as Hloc. rewrite <-Hloc.
  assert (Hnd : NoDup chain).
  { pose proof (wf_nodup _ Ht) as Hnd. apply list_elem_of_split_length in Hi as (l1 & l2 & E & _).
    rewrite E, concat_app in Hnd. simpl in Hnd.
    apply NoDup_app in Hnd as (_ & _ & Hnd). by apply NoDup_app in Hnd as (Hnd & _ & _). }
  assert (Hgen : ∀ c', Permutation chain (a :: c') → (∀ b, b ∈ c' → b ∈ chain) →
    length (<[i := c']> (nt_buckets t)) = Z.to_nat (nt_nBuckets t) ∧
    Permutation (concat (nt_buckets t)) (a :: concat (<[i := c']> (nt_buckets t))) ∧
    ∀ j c b, <[i := c']> (nt_buckets t) !! j = Some c → b ∈ c → ∃ c0, nt_buckets t !! j = Some c0 ∧ b ∈ c0).
  { intros c' Hp Hin. split_and!.
    - rewrite length_insert. apply (wf_length _ Ht).
    - by apply concat_insert_remove with (c := chain).
    - intros j c b [(<- & <- & _)|[_ Hj]]%list_lookup_insert_Some Hb; eauto. }
  case_bool_decide as Hh.
  - apply Hgen; destruct chain as [|x chain]; simplify_eq/=; [done|]. set_solver.
  - apply Hgen; [|intros b; rewrite list_elem_of_filter; tauto].
    clear -Hac Hnd. induction chain as [|x chain IH]; [by apply elem_of_nil in Hac|].
    apply NoDup_cons in Hnd as [Hx Hnd]. destruct (decide (x = a)) as [->|Hne].
    + rewrite filter_cons_False by auto. apply Permutation_skip.
      assert (filter (λ b, b ≠ a) chain = chain) as ->; [|done].
      clear IH Hac Hnd. induction chain as [|y chain IH]; [done|].
      rewrite filter_cons_True by set_solver. f_equal. apply IH. set_solver.
    + rewrite filter_cons_True by done. apply elem_of_cons in Hac as [->|Hac]; [done|].
      rewrite (IH Hac Hnd) at 1. apply Permutation_swap.
Qed.

Lemma erase_table_wf t a e : nt_wf t → nt_heap t !! a = Some e → e_children e = [] →
  let t1 := match e_parent e with
            | Some p => alter_entry (λ ep, setChildren (swap_erase a (e_children ep)) ep) p t
            | None => t
            end in
  let t2 := mkNameTree (delete a (nt_heap t1)) (nt_next t1) (nt_nItems t1 - 1) (nt_nBuckets t1)
              (nt_minNBuckets t1) (nt_enlargeThreshold t1) (nt_shrinkThreshold t1) (unlink_node t1 a e) in
  nt_wf t2 ∧ nt_heap t2 = remove_leaf a (e_parent e) (nt_heap t).
Proof.
  intros [Hh Ht] Ha Hc t1 t2.
  assert (Hh2 : nt_heap t2 = remove_leaf a (e_parent e) (nt_heap t)).
  { subst t2 t1. unfold remove_leaf. simpl. by destruct (e_parent e). }
  split; [|done]. split; [rewrite Hh2; by apply tree_wf_remove_leaf|].
  assert (Ht1 : table_wf t1 ∧ nt_heap t1 !! a = Some e).
  { subst t1. destruct (e_parent e) as [p|] eqn:Ep; [|done].
    assert (p ≠ a) by (by eapply parent_ne). split; [|simpl; by rewrite lookup_alter_ne].
    apply table_wf_set_heap; [done|]. intros b. destruct (decide (b = p)) as [->|].
    - rewrite lookup_alter_eq. by destruct (nt_heap t !! p).
    - by rewrite lookup_alter_ne. }
  clearbody t1. destruct Ht1 as [Ht1 Ha1]. destruct (unlink_node_spec t1 a e Ht1 Ha1) as (U1 & U2 & U3).
  subst t2. clear Hh2. destruct Ht1. rewrite U2 in wf_nodup0. apply NoDup_cons in wf_nodup0 as [Hna Hnd].
  split; simpl; auto.
  - intros b. rewrite lookup_delete_is_Some, <-wf_dom0, U2, elem_of_cons.
    split; [|naive_solver]. intros Hb. split; [|by right]. by intros ->.
  - intros i c b f Hi Hb [_ Hf]%lookup_delete_Some. destruct (U3 _ _ _ Hi Hb) as (c0 & ? & ?). eauto.
  - intros b f [_ Hf]%lookup_delete_Some. eauto.
  - rewrite map_size_delete_Some by done. rewrite wf_nItems0.
    assert (size (nt_heap t1) ≠ 0%nat); [|lia]. intros E. apply map_size_empty_inv in E. rewrite E in Ha1. done.
  - intros b Hb. apply wf_fresh0. by apply lookup_delete_is_Some in Hb as [_ ?].
Qed.
Lemma remove_leaf_grow h a e : h !! a = Some e → isEmpty e = true →
  nt_grow (λ m, m `prefix_of` e_prefix e) (remove_leaf a (e_parent e) h) h.
Proof.
  intros Ha Hem. split.
  - intros b f Hf. rewrite lookup_remove_leaf in Hf. case_decide; [done|]. case_decide; [|eauto].
    apply fmap_Some in Hf as (g & Hg & ->). eauto.
  - intros b f Hf Hn. rewrite lookup_remove_leaf in Hn. case_decide as E; [subst b|].
    + simplify_eq. apply isEmpty_true in Hem as [_ ->]. done.
    + case_decide; [|congruence]. by rewrite Hf in Hn.
Qed.

Lemma maybe_shrink_wf t : nt_wf t →
  let t' := if (nt_minNBuckets t <=? shrunkNBuckets (nt_nBuckets t)) && (nt_nItems t <? nt_shrinkThreshold t)
            then NameTree_resize t (shrunkNBuckets (nt_nBuckets t)) else t in
  nt_wf t' ∧ nt_heap t' = nt_heap t.
Proof.
  intros [Hh Ht]. simpl. case_match eqn:E; [|done]. split; [|done]. split; [done|].
  apply andb_prop in E as [E%Z.leb_le _]. pose proof (wf_min _ Ht) as Hm.
  unfold shrunkNBuckets in *. destruct (wf_pow2 _ Ht) as (k & Hk & Hn). rewrite Hn in *.
  assert (k ≠ 0) by (intros ->; change (2 ^ 0 / 2) with 0 in E; lia).
  replace (2 ^ k / 2) with (2 ^ (k - 1)); [apply resize_wf; [done|lia]|].
  rewrite <-(Z.succ_pred k) at 2. rewrite Z.pow_succ_r, Z.mul_comm, Z.div_mul by lia. done.
Qed.

(** [eraseEntryIfEmpty] removes only entries without payload; when the entry
    was the only one that could be erased, none is left. *)
Record erase_post (t : NameTree) (a : nt_ptr) (e : NtEntry) (r : bool) (t' : NameTree) : Prop := {
  erase_wf : nt_wf t';
  erase_result : r = isEmpty e;
  erase_grow : nt_grow (λ m, m `prefix_of` e_prefix e) (nt_heap t') (nt_heap t);
  erase_pruned : pruned_but (nt_heap t) a → pruned (nt_heap t');
  erase_gone : r = true → nt_heap t' !! a = None
}.

Lemma erase_spec_fuel fuel t a e : nt_wf t → nt_heap t !! a = Some e → (length (e_prefix e) < fuel)%nat →
  let '(r, t') := NameTree_eraseEntryIfEmpty_fuel fuel t a in erase_post t a e r t'.
Proof.
  revert t a e. induction fuel as [|fuel IH]; intros t a e Ht Ha Hf; [lia|].
  simpl. rewrite Ha. destruct (isEmpty e) eqn:Hem.
  2: { split; [done|done|apply nt_grow_refl| |done]. intros Hp b f Hb.
       destruct (decide (b = a)) as [->|]; [congruence|by eapply Hp]. }
  pose proof (proj1 (isEmpty_true e) Hem) as [Hc Hpay].
  destruct (erase_table_wf t a e Ht Ha Hc) as [Hw2 Hh2].
  set (t1 := match e_parent e with Some _ => _ | None => _ end) in *.
  set (t2 := mkNameTree _ _ _ _ _ _ _ _) in *.
  set (t3 := match e_parent e with Some p => (NameTree_eraseEntryIfEmpty_fuel fuel t2 p).2 | None => t2 end).
  assert (H3 : nt_wf t3 ∧ nt_grow (λ m, m `prefix_of` e_prefix e) (nt_heap t3) (nt_heap t2) ∧
    (pruned_but (nt_heap t) a → pruned (nt_heap t3))).
  { assert (Hpr : pruned_but (nt_heap t) a → ∀ b f, nt_heap t2 !! b = Some f → e_parent e ≠ Some b → isEmpty f = false).
    { intros Hp b f Hb Hne. rewrite Hh2, lookup_remove_leaf in Hb. case_decide; [done|].
      rewrite decide_False in Hb by done. by eapply Hp. }
    subst t3. destruct (e_parent e) as [p|] eqn:Ep.
    - pose proof (wf_parent _ (proj1 Ht) _ _ Ha) as Hpar. rewrite Ep in Hpar. destruct Hpar as (c & (ep & Hp & Hpn) & Hsn).
      assert (p ≠ a) by (by eapply parent_ne; [apply Ht|..]).
      assert (Hp2 : ∃ ep2, nt_heap t2 !! p = Some ep2 ∧ e_prefix ep2 = e_prefix ep).
      { rewrite Hh2, lookup_remove_leaf, decide_False, decide_True by done. rewrite Hp. csimpl. eauto. }
      destruct Hp2 as (ep2 & Hp2 & Hpn2).
      specialize (IH t2 p ep2 Hw2 Hp2).
      assert (Hlen : (length (e_prefix ep2) < fuel)%nat).
      { rewrite Hpn2, Hpn. rewrite Hsn, length_app in Hf. simpl in Hf. lia. }
      specialize (IH Hlen). destruct (NameTree_eraseEntryIfEmpty_fuel fuel t2 p) as [r3 t3].
      destruct IH as [W3 _ G3 P3 _]. simpl. split_and!; [done| |].
      + destruct G3 as [O N]. split; [done|]. intros b f Hb Hn. destruct (N b f Hb Hn) as [Hpre ?].
        split; [|done]. etrans; [exact Hpre|]. rewrite Hpn2, Hpn. apply prefix_take.
      + intros Hp'. apply P3. intros b f Hb Hne. apply (Hpr Hp' b f Hb). congruence.
    - split_and!; [done|apply nt_grow_refl|]. intros Hp' b f Hb. by apply (Hpr Hp' b f Hb). }
  clearbody t3. destruct H3 as (W3 & G3 & P3).
  destruct (maybe_shrink_wf t3 W3) as [W4 H4].
  split; [done|done| | |].
  - rewrite H4. eapply nt_grow_trans; [done|]. rewrite Hh2. by apply remove_leaf_grow.
  - rewrite H4. done.
  - intros _. rewrite H4. apply eq_None_not_Some. intros [f Hf3].
    destruct (grow_old _ _ _ G3 _ _ Hf3) as (g & Hg & _). by rewrite Hh2, lookup_remove_leaf, decide_True in Hg.
Qed.

Lemma erase_spec t a e r t' : nt_wf t → nt_heap t !! a = Some e →
  NameTree_eraseEntryIfEmpty t a = (r, t') → erase_post t a e r t'.
Proof.
  intros Ht Ha E. unfold NameTree_eraseEntryIfEmpty, depth in E. rewrite Ha in E.
  pose proof (erase_spec_fuel (S (length (e_prefix e))) t a e Ht Ha ltac:(lia)) as Hs. by rewrite E in Hs.
Qed.

(** ** Matching *)

(** The entry of the name [n], if it satisfies the selector. *)
Definition match_at (t : NameTree) (sel : NtEntry → bool) (n : Name) : option nt_ptr :=
  a ← NameTree_findExactMatch t n; e ← nt_heap t !! a; if sel e then Some a else None.

(** Reference: the matching entries among the prefixes of [n], longest first. *)
Fixpoint prefix_matches_upto (t : NameTree) (sel : NtEntry → bool) (n : Name) (k : nat) : list nt_ptr :=
  option_list (match_at t sel (take k n)) ++
  match k with O => [] | S k' => prefix_matches_upto t sel n k' end.
Definition prefix_matches (t : NameTree) (sel : NtEntry → bool) (n : Name) : list nt_ptr :=
  prefix_matches_upto t sel n (length n).

Lemma match_at_entry t sel n a e : nt_wf t → nt_heap t !! a = Some e → e_prefix e = n →
  match_at t sel n = if sel e then Some a else None.
Proof.
  intros Ht Ha Hn. unfold match_at. rewrite (proj2 (findExactMatch_entry t n a Ht)) by (by exists e).
  simpl. by rewrite Ha.
Qed.

Lemma prefix_matches_upto_prefix t sel n m k : (k <= length n)%nat →
  prefix_matches_upto t sel (n ++ m) k = prefix_matches_upto t sel n k.
Proof.
  induction k as [|k IH]; intros Hk; simpl; [by rewrite !take_0|].
  rewrite take_app_le by done. by rewrite IH by lia.
Qed.

Lemma prefix_matches_snoc t sel n c :
  prefix_matches t sel (n ++ [c]) = option_list (match_at t sel (n ++ [c])) ++ prefix_matches t sel n.
Proof.
  unfold prefix_matches. rewrite length_app, Nat.add_comm. simpl.
  rewrite take_ge by (rewrite length_app; simpl; lia). by rewrite prefix_matches_upto_prefix.
Qed.

Lemma prefix_matches_nil t sel : prefix_matches t sel [] = option_list (match_at t sel []).
Proof. unfold prefix_matches. simpl. by rewrite app_nil_r. Qed.

(** Walking up the parents from the entry of [n] meets its prefixes. *)
Lemma LPM_up_spec t sel n a fuel : nt_wf t → entry_at (nt_heap t) n a → (length n < fuel)%nat →
  NameTree_LPM_up fuel t (Some a) sel = head (prefix_matches t sel n).
Proof.
  intros Ht. revert a fuel. induction n as [|c n IH] using rev_ind; intros a fuel (e & Ha & Hn) Hf.
  - destruct fuel as [|fuel]; [simpl in Hf; lia|]. simpl. rewrite Ha, prefix_matches_nil, (match_at_entry t sel [] a e) by done.
    destruct (sel e); [done|]. pose proof (wf_parent _ (proj1 Ht) _ _ Ha) as Hp. rewrite Hn in Hp.
    destruct (e_parent e); [|by destruct fuel]. destruct Hp as (d & _ & Hd). by destruct (getParentName []).
  - destruct fuel as [|fuel]; [lia|]. simpl. rewrite Ha, prefix_matches_snoc, (match_at_entry t sel _ a e) by done.
    destruct (sel e); [done|]. simpl. pose proof (wf_parent _ (proj1 Ht) _ _ Ha) as Hp. rewrite Hn in Hp.
    destruct (e_parent e) as [p|]; [|by destruct n]. destruct Hp as (d & Hp & _).
    rewrite getParentName_snoc in Hp. apply IH; [done|]. rewrite length_app in Hf. simpl in Hf. lia.
Qed.

Lemma LPM_entry_spec t sel a e : nt_wf t → nt_heap t !! a = Some e →
  NameTree_findLongestPrefixMatch_entry t a sel = head (prefix_matches t sel (e_prefix e)).
Proof.
  intros Ht Ha. unfold NameTree_findLongestPrefixMatch_entry, depth. rewrite Ha.
  apply LPM_up_spec; [done|by exists e|lia].
Qed.

(** The hashes of the prefixes of a name. *)
Lemma computeHash_snoc n c : computeHash (n ++ [c]) = Z.lxor (computeHash n) (component_hash c).
Proof. unfold computeHash. by rewrite foldl_app. Qed.

Lemma computeHashSet_from_snoc z n c : computeHashSet_from z (n ++ [c]) =
  computeHashSet_from z n ++ [Z.lxor (foldl (λ h d, Z.lxor h (component_hash d)) z n) (component_hash c)].
Proof. revert z. induction n as [|d n IH]; intros z; simpl; [done|]. by rewrite IH. Qed.

Lemma computeHashSet_snoc n c : computeHashSet (n ++ [c]) = computeHashSet n ++ [computeHash (n ++ [c])].
Proof. rewrite computeHash_snoc. apply computeHashSet_from_snoc. Qed.

Lemma computeHashSet_app n m : computeHashSet n `prefix_of` computeHashSet (n ++ m).
Proof.
  induction m as [|c m IH] using rev_ind; [by rewrite app_nil_r|].
  rewrite app_assoc, computeHashSet_snoc. etrans; [done|]. by apply prefix_app_r.
Qed.

Lemma computeHash_in n k : (k <= length n)%nat → computeHashSet n !! k = Some (computeHash (take k n)).
Proof.
  revert k. induction n as [|c n IH] using rev_ind; intros k Hk.
  - simpl in Hk. by assert (k = 0%nat) as -> by lia.
  - rewrite computeHashSet_snoc. rewrite length_app in Hk. simpl in Hk.
    assert (Hl : length (computeHashSet n) = S (length n)).
    { clear. unfold computeHashSet. generalize 0. induction n; intros z; simpl; [done|]. by rewrite IHn. }
    destruct (decide (k = S (length n))) as [->|].
    + rewrite lookup_app_r by lia. rewrite Hl, Nat.sub_diag. simpl. f_equal.
      rewrite take_ge; [done|]. rewrite length_app. simpl. lia.
    + rewrite lookup_app_l by lia. rewrite take_app_le by lia. apply IH. lia.
Qed.

Lemma same_hash_prefix t n k a e : nt_wf t → NoDup (computeHashSet n) → (k <= length n)%nat →
  nt_heap t !! a = Some e → e_hash e = computeHash (take k n) → e_prefix e `prefix_of` n → e_prefix e = take k n.
Proof.
  intros Ht Hnd Hk He Hh Hpre. apply prefix_take_iff in Hpre as Epre. set (j := length (e_prefix e)) in *.
  assert (j <= length n)%nat by (by apply prefix_length).
  assert (j = k) as ->; [|done]. apply (NoDup_lookup _ j k (computeHash (take k n)) Hnd).
  - rewrite computeHash_in by done. rewrite <-Epre, <-Hh. by rewrite (wf_hash _ (proj2 Ht) _ _ He).
  - by apply computeHash_in.
Qed.

Lemma matchAt_spec t sel n k : nt_wf t → NoDup (computeHashSet n) → (k <= length n)%nat →
  NameTree_matchAt t n sel (computeHash (take k n)) = match_at t sel (take k n).
Proof.
  intros Ht Hnd Hk. unfold NameTree_matchAt. apply option_eq. intros a. split.
  - intros H0. apply find_if_Some in H0 as [Ha Hp]. apply on_entry_true in Hp as (e & He & Hp).
    apply andb_prop in Hp as [[Hh%Z.eqb_eq Hpre%isPrefixOf_true]%andb_prop Hs].
    pose proof (same_hash_prefix t n k a e Ht Hnd Hk He (eq_sym Hh) Hpre) as E.
    rewrite (match_at_entry t sel _ a e Ht He E). by rewrite Hs.
  - unfold match_at. destruct (NameTree_findExactMatch t (take k n)) as [b|] eqn:E; [|done]. simpl.
    apply findExactMatch_entry in E as (e & He & Hpre); [|done]. rewrite He. simpl.
    destruct (sel e) eqn:Hs; [|done]. intros [= ->]. apply find_if_unique.
    + apply elem_of_bucket; [apply Ht|]. exists e. split; [done|]. rewrite (wf_hash _ (proj2 Ht) _ _ He). by rewrite Hpre.
    + apply on_entry_true. exists e. split; [done|]. rewrite (wf_hash _ (proj2 Ht) _ _ He), Hpre, Z.eqb_refl, Hs.
      rewrite (proj2 (isPrefixOf_true _ _)); [done|]. apply prefix_take.
    + intros c Hc Hp. apply on_entry_true in Hp as (f & Hf & Hp).
      apply andb_prop in Hp as [[Hh%Z.eqb_eq Hpre'%isPrefixOf_true]%andb_prop _].
      pose proof (same_hash_prefix t n k c f Ht Hnd Hk Hf (eq_sym Hh) Hpre') as E.
      apply (wf_unique _ (proj1 Ht) _ _ (take k n)); [by exists f|by exists e].
Qed.

Lemma LPM_loop_spec t sel n k : nt_wf t → NoDup (computeHashSet n) → (k <= length n)%nat →
  NameTree_LPM_loop t n sel (rev (computeHashSet (take k n))) = head (prefix_matches t sel (take k n)).
Proof.
  intros Ht Hnd. induction k as [|k IH]; intros Hk.
  - rewrite take_0, prefix_matches_nil. simpl. pose proof (matchAt_spec t sel n 0 Ht Hnd Hk) as E.
    rewrite take_0 in E. simpl in E. unfold computeHash in E. simpl in E. rewrite E. by destruct (match_at t sel []).
  - destruct (lookup_lt_is_Some_2 n k ltac:(lia)) as [c Hc].
    pose proof (matchAt_spec t sel n (S k) Ht Hnd Hk) as E.
    rewrite (take_S_r _ _ _ Hc) in *. rewrite computeHashSet_snoc, rev_unit, prefix_matches_snoc. simpl.
    rewrite E. destruct (match_at t sel (take k n ++ [c])); [done|]. apply IH. lia.
Qed.

Lemma LPM_spec t sel n : nt_wf t → NoDup (computeHashSet n) →
  NameTree_findLongestPrefixMatch t n sel = head (prefix_matches t sel n).
Proof.
  intros Ht Hnd. unfold NameTree_findLongestPrefixMatch.
  pose proof (LPM_loop_spec t sel n (length n) Ht Hnd ltac:(done)) as E. by rewrite take_ge in E.
Qed.

Lemma lpm_upto_head {A} (proj : Payload → option A) sel t n k : nt_wf t →
  (∀ e, sel e = bool_decide (is_Some (proj (payload e)))) → proj no_payload = None →
  (a ← head (prefix_matches_upto t sel n k); e ← nt_heap t !! a; proj (payload e)) =
  lpm_upto (λ m, proj (payload_at t m)) n k.
Proof.
  intros Ht Hsel Hno.
  assert (Hm : ∀ m, match_at t sel m = None ∧ proj (payload_at t m) = None ∨
    ∃ a e, match_at t sel m = Some a ∧ nt_heap t !! a = Some e ∧ proj (payload_at t m) = proj (payload e) ∧
           is_Some (proj (payload e))).
  { intros m. destruct (payload_at_cases t m Ht) as [(a & e & He & Hn & ->)|[Hn ->]].
    - rewrite (match_at_entry t sel m a e Ht He Hn), Hsel. case_bool_decide as E; [right; eauto 10|].
      left. split; [done|]. by apply eq_None_not_Some.
    - left. split; [|done]. unfold match_at. by rewrite (proj2 (findExactMatch_None t m Ht) Hn). }
  assert (Hstep : ∀ m rest r, (a ← head rest; e ← nt_heap t !! a; proj (payload e)) = r →
    (a ← head (option_list (match_at t sel m) ++ rest); e ← nt_heap t !! a; proj (payload e)) =
    match proj (payload_at t m) with Some x => Some x | None => r end).
  { intros m rest r Hr. destruct (Hm m) as [[E1 E2]|(a & e & E1 & He & E2 & x & Hx)]; rewrite E1, E2; [done|].
    rewrite Hx. simpl. rewrite He. simpl. by rewrite Hx. }
  induction k as [|k IH]; apply Hstep; [done|apply IH].
Qed.

Lemma lpm_head {A} (proj : Payload → option A) sel t n : nt_wf t →
  (∀ e, sel e = bool_decide (is_Some (proj (payload e)))) → proj no_payload = None →
  (a ← head (prefix_matches t sel n); e ← nt_heap t !! a; proj (payload e)) =
  lpm (λ m, proj (payload_at t m)) n.
Proof. apply lpm_upto_head. Qed.

Lemma lpm_ext {A} (f g : Name → option A) n : (∀ m, f m = g m) → lpm f n = lpm g n.
Proof. intros E. unfold lpm. induction (length n) as [|k IH]; simpl; rewrite E; [done|]. by rewrite IH. Qed.

Lemma lpm_upto_Some {A} (get : Name → option A) n k x : (k <= length n)%nat → lpm_upto get n k = Some x ↔
  ∃ p, p `prefix_of` n ∧ (length p <= k)%nat ∧ get p = Some x ∧
       ∀ q, q `prefix_of` n → (length p < length q <= k)%nat → get q = None.
Proof.
  assert (Htake : ∀ p, p `prefix_of` n → p = take (length p) n) by (intros p; apply prefix_take_iff).
  induction k as [|k IH]; intros Hk.
  - simpl. rewrite take_0. split.
    + destruct (get []) eqn:E; [|done]. intros [= ->]. exists []. split_and!; [apply prefix_nil|simpl; lia|done|].
      intros q _ Hq. simpl in Hq. lia.
    + intros (p & _ & Hp & Hg & _). destruct p; [|simpl in Hp; lia]. by rewrite Hg.
  - cbn [lpm_upto]. destruct (get (take (S k) n)) as [y|] eqn:E.
    + split.
      * intros [= ->]. exists (take (S k) n). rewrite length_take. split_and!; [apply prefix_take|lia|done|lia].
      * intros (p & Hp & Hl & Hg & Hq). destruct (decide (length p = S k)) as [Es|].
        -- rewrite (Htake p Hp), Es in Hg. congruence.
        -- rewrite Hq in E; [done|apply prefix_take|]. rewrite length_take. lia.
    + rewrite IH by lia. split; intros (p & Hp & Hl & Hg & Hq).
      * exists p. split_and!; [done|lia|done|]. intros q Hqp Hlq.
        destruct (decide (length q = S k)) as [Es|]; [by rewrite (Htake q Hqp), Es|]. apply Hq; [done|lia].
      * exists p. split_and!; [done| |done|intros; apply Hq; [done|lia]].
        destruct (decide (length p = S k)) as [Es|]; [|lia]. rewrite (Htake p Hp), Es in Hg. congruence.
Qed.

(** [lpm] is the value of the longest prefix that has one. *)
Lemma lpm_Some {A} (get : Name → option A) n x : lpm get n = Some x ↔
  ∃ p, p `prefix_of` n ∧ get p = Some x ∧
       ∀ q, q `prefix_of` n → (length p < length q)%nat → get q = None.
Proof.
  unfold lpm. rewrite lpm_upto_Some by done. split; intros (p & Hp & H').
  - destruct H' as (_ & Hg & Hq). exists p. split_and!; [done..|]. intros q Hqn Hl. apply Hq; [done|].
    split; [done|]. by apply prefix_length.
  - destruct H' as (Hg & Hq). exists p. split_and!; [done|by apply prefix_length|done|].
    intros q Hqn [Hl _]. by apply Hq.
Qed.

(** ** Enumerations *)

Lemma iterate_S {S} (next : S → option S) fuel x : iterate next (Datatypes.S fuel) (Some x) = x :: iterate next fuel (next x).
Proof. done. Qed.

Lemma match_at_Some t sel n a : nt_wf t → match_at t sel n = Some a → ∃ e, nt_heap t !! a = Some e ∧ e_prefix e = n ∧ sel e = true.
Proof.
  intros Ht. unfold match_at. destruct (NameTree_findExactMatch t n) as [b|] eqn:E; [|done]. simpl.
  apply findExactMatch_entry in E as (e & He & Hn); [|done]. rewrite He. simpl. destruct (sel e) eqn:Es; [|done].
  intros [= <-]. eauto.
Qed.

Lemma findAllMatches_next_spec t sel n a : nt_wf t → entry_at (nt_heap t) n a →
  findAllMatches_next t sel a =
  match length n with O => None | S k => head (prefix_matches t sel (take k n)) end.
Proof.
  intros Ht (e & He & Hn). unfold findAllMatches_next, depth. rewrite He.
  pose proof (wf_parent _ (proj1 Ht) _ _ He) as Hp. rewrite Hn in *.
  destruct (e_parent e) as [p|]; [|by rewrite Hp].
  destruct Hp as (c & Hp & Hs). rewrite Hs in *. clear Hs. set (m := getParentName n) in *. clearbody m.
  rewrite getParentName_snoc in Hp.
  rewrite length_app, Nat.add_comm. cbn [length Nat.add]. rewrite take_app_length. apply LPM_up_spec; [done|done|lia].
Qed.

(** Iterating from the longest match yields all the matching prefixes. *)
Lemma iterate_matches t sel n fuel : nt_wf t → (length n < fuel)%nat →
  iterate (findAllMatches_next t sel) fuel (head (prefix_matches t sel n)) = prefix_matches t sel n.
Proof.
  intros Ht. revert fuel. induction n as [|c n IH] using rev_ind; intros fuel Hf.
  - rewrite prefix_matches_nil. destruct (match_at t sel []) as [a|] eqn:E; [|by destruct fuel].
    destruct fuel as [|fuel]; [simpl in Hf; lia|]. simpl. f_equal.
    apply match_at_Some in E as (e & He & Hn & _); [|done].
    rewrite (findAllMatches_next_spec t sel []); [by destruct fuel|done|by exists e].
  - rewrite length_app in Hf. simpl in Hf. rewrite prefix_matches_snoc.
    destruct (match_at t sel (n ++ [c])) as [a|] eqn:E; [|apply IH; lia].
    destruct fuel as [|fuel]; [lia|]. simpl. f_equal.
    apply match_at_Some in E as (e & He & Hn & _); [|done].
    rewrite (findAllMatches_next_spec t sel (n ++ [c])); [|done|by exists e].
    rewrite length_app, Nat.add_comm. simpl. rewrite take_app_length. apply IH. lia.
Qed.

Lemma findAllMatches_spec t sel n : nt_wf t → NoDup (computeHashSet n) →
  NameTree_findAllMatches t n sel = prefix_matches t sel n.
Proof. intros Ht Hnd. unfold NameTree_findAllMatches. rewrite LPM_spec by done. apply iterate_matches; [done|lia]. Qed.

(** *** [fullEnumerate] *)

Lemma find_if_app {A} (p : A → bool) l1 l2 :
  find_if p (l1 ++ l2) = match find_if p l1 with Some x => Some x | None => find_if p l2 end.
Proof. induction l1 as [|x l1 IH]; simpl; [done|]. by destruct (p x). Qed.

Lemma nodes_after_app a l1 l2 : a ∉ l1 → nodes_after a (l1 ++ a :: l2) = l2.
Proof.
  induction l1 as [|x l1 IH]; intros Ha; simpl; [by rewrite bool_decide_eq_true_2|].
  rewrite bool_decide_eq_false_2 by set_solver. apply IH. set_solver.
Qed.

Lemma fullEnumerate_next_spec t sel l1 a l2 : nt_wf t → concat (nt_buckets t) = l1 ++ a :: l2 →
  fullEnumerate_next t sel a = find_if (on_entry t sel) l2.
Proof.
  intros Ht Hl. destruct (proj1 (wf_dom _ (proj2 Ht) a)) as [e He]; [rewrite Hl; set_solver|].
  unfold fullEnumerate_next. rewrite He.
  pose proof (bucket_lookup t (e_hash e) (proj2 Ht)) as Hb.
  assert (Ha : a ∈ nt_bucket t (e_hash e mod nt_nBuckets t)) by (apply elem_of_bucket; [apply Ht|eauto]).
  pose proof (Z.mod_pos_bound (e_hash e) (nt_nBuckets t) (nBuckets_pos t (proj2 Ht))) as Hpos.
  set (loc := e_hash e mod nt_nBuckets t) in *.
  apply list_elem_of_split in Ha as (c1 & c2 & Hc). rewrite Hc in *.
  pose proof (wf_nodup _ (proj2 Ht)) as Hnd.
  assert (E : concat (nt_buckets t) = (concat (take (Z.to_nat loc) (nt_buckets t)) ++ c1) ++ a ::
    (c2 ++ concat (drop (Z.to_nat (loc + 1)) (nt_buckets t)))).
  { rewrite <-(take_drop_middle _ _ _ Hb) at 1. rewrite concat_app. simpl.
    replace (Z.to_nat (loc + 1)) with (S (Z.to_nat loc)) by lia. by rewrite <-!app_assoc. }
  assert (Hnot : ∀ x y, NoDup (x ++ a :: y) → a ∉ x ∧ nodes_after a (x ++ a :: y) = y).
  { intros x y Hxy. apply NoDup_app in Hxy as (_ & Hx & _). assert (a ∉ x) by (intros Hin; apply (Hx a Hin); set_solver).
    split; [done|]. by apply nodes_after_app. }
  rewrite Hl in Hnd. destruct (Hnot _ _ Hnd) as [_ N1]. rewrite <-Hl, E in Hnd, N1.
  destruct (Hnot _ _ Hnd) as [Hn N2].
  rewrite <-N1, N2, find_if_app. rewrite nodes_after_app by set_solver. done.
Qed.

Lemma fullEnumerate_iterate t sel l1 l2 fuel : nt_wf t → concat (nt_buckets t) = l1 ++ l2 → (length l2 <= fuel)%nat →
  iterate (fullEnumerate_next t sel) fuel (find_if (on_entry t sel) l2) = filter (λ a, on_entry t sel a = true) l2.
Proof.
  intros Ht. revert l1 fuel. induction l2 as [|a l2 IH]; intros l1 fuel Hl Hf; [by destruct fuel|].
  simpl in *. destruct (on_entry t sel a) eqn:E.
  - rewrite filter_cons_True by done. destruct fuel as [|fuel]; [lia|]. rewrite iterate_S. f_equal.
    rewrite (fullEnumerate_next_spec t sel l1 a l2) by done. apply (IH (l1 ++ [a])); [by rewrite <-app_assoc|lia].
  - rewrite filter_cons_False by congruence. apply (IH (l1 ++ [a])); [by rewrite <-app_assoc|lia].
Qed.

Lemma length_concat_buckets t : nt_wf t → length (concat (nt_buckets t)) = size (nt_heap t).
Proof.
  intros [_ Ht]. rewrite <-size_dom, <-(size_list_to_set (C := gset nt_ptr)) by apply (wf_nodup _ Ht).
  f_equal. apply set_eq. intros a. by rewrite elem_of_list_to_set, (wf_dom _ Ht), elem_of_dom.
Qed.

Lemma fullEnumerate_spec t sel : nt_wf t →
  NameTree_fullEnumerate t sel = filter (λ a, on_entry t sel a = true) (concat (nt_buckets t)).
Proof.
  intros Ht. apply (fullEnumerate_iterate t sel []); [done|done|]. by rewrite length_concat_buckets.
Qed.

(** ** Initial table and updates of a payload *)

Lemma NameTree_new_wf k : 0 <= k <= 32 → nt_wf (NameTree_new (2 ^ k)).
Proof.
  intros Hk. assert (0 < 2 ^ k) by (apply Z.pow_pos_nonneg; lia).
  split; [split; simpl; unfold entry_at; intros; simplify_map_eq|].
  - naive_solver.
  - split; simpl; try done; try (intros; by simplify_map_eq).
    + apply length_replicate.
    + eauto.
    + rewrite concat_replicate_nil. constructor.
    + intros a. rewrite concat_replicate_nil, elem_of_nil. split; [done|by intros [? ?]].
Qed.

(** Updating what is attached to an entry keeps the structure. *)
Definition payload_update (f : NtEntry → NtEntry) : Prop :=
  ∀ e, e_hash (f e) = e_hash e ∧ e_prefix (f e) = e_prefix e ∧ e_parent (f e) = e_parent e ∧
       e_children (f e) = e_children e.

Lemma lookup_alter_entry f t a b :
  nt_heap (alter_entry f a t) !! b = if decide (b = a) then f <$> nt_heap t !! a else nt_heap t !! b.
Proof. simpl. case_decide as E; [subst; apply lookup_alter_eq|apply lookup_alter_ne; congruence]. Qed.

Lemma alter_entry_wf f a t : payload_update f → nt_wf t → nt_wf (alter_entry f a t).
Proof.
  intros Hf [Hh Ht]. split.
  - simpl.
    assert (Hl : ∀ b e, alter f a (nt_heap t) !! b = Some e → ∃ g, nt_heap t !! b = Some g ∧ e_prefix e = e_prefix g ∧
      e_parent e = e_parent g ∧ e_children e = e_children g).
    { intros b e He. destruct (decide (b = a)) as [->|]; [|rewrite lookup_alter_ne in He by done; eauto].
      rewrite lookup_alter_eq in He. apply fmap_Some in He as (g & Hg & ->). destruct (Hf g) as (_ & ? & ? & ?). eauto. }
    assert (Hk : ∀ b g, nt_heap t !! b = Some g → ∃ e, alter f a (nt_heap t) !! b = Some e ∧ e_prefix e = e_prefix g ∧
      e_parent e = e_parent g).
    { intros b g Hg. destruct (decide (b = a)) as [->|]; [|rewrite lookup_alter_ne by done; eauto].
      rewrite lookup_alter_eq, Hg. csimpl. destruct (Hf g) as (_ & ? & ? & ?). eauto. }
    split.
    + intros b c n (e & He & <-) (e' & He' & E). destruct (Hl _ _ He) as (g & ? & ? & _), (Hl _ _ He') as (g' & ? & ? & _).
      apply (wf_unique _ Hh _ _ (e_prefix e)); [exists g|exists g']; split; congruence.
    + intros b e He. destruct (Hl _ _ He) as (g & Hg & -> & -> & _). pose proof (wf_parent _ Hh _ _ Hg) as Hp.
      destruct (e_parent g); [|done]. destruct Hp as (c & (k & Hk1 & Hk2) & ?). exists c. split; [|done].
      destruct (Hk _ _ Hk1) as (k' & ? & ? & _). exists k'. split; congruence.
    + intros b e He. destruct (Hl _ _ He) as (g & Hg & _ & _ & ->). by eapply wf_children_nodup.
    + intros b e c He. destruct (Hl _ _ He) as (g & Hg & _ & _ & ->). rewrite (wf_children _ Hh _ _ _ Hg). split.
      * intros (k & Hk1 & Hk2). destruct (Hk _ _ Hk1) as (k' & ? & _ & ?). exists k'. split; congruence.
      * intros (k & Hk1 & Hk2). destruct (Hl _ _ Hk1) as (k' & ? & _ & ? & _). exists k'. split; congruence.
  - apply table_wf_set_heap; [done|]. intros b. destruct (decide (b = a)) as [->|]; [|by rewrite lookup_alter_ne].
    rewrite lookup_alter_eq. destruct (nt_heap t !! a) as [g|]; [|done]. csimpl. by destruct (Hf g) as (-> & -> & _).
Qed.

Lemma payload_at_alter f t a e n : payload_update f → nt_wf t → nt_heap t !! a = Some e →
  payload_at (alter_entry f a t) n = if decide (n = e_prefix e) then payload (f e) else payload_at t n.
Proof.
  intros Hf Ht Ha. pose proof (alter_entry_wf f a t Hf Ht) as Ht'. case_decide as E.
  - subst n. destruct (Hf e) as (_ & E & _). rewrite <-E. apply (payload_at_entry _ a); [done|].
    by rewrite lookup_alter_entry, decide_True, Ha.
  - destruct (payload_at_cases _ n Ht') as [(b & g & Hb & <- & ->)|[Hn ->]].
    + rewrite lookup_alter_entry in Hb. case_decide; [|symmetry; by eapply payload_at_entry].
      subst b. rewrite Ha in Hb. injection Hb as <-. by destruct (Hf e) as (_ & ? & _).
    + symmetry. apply payload_at_None; [done|]. intros b (g & Hb & Hg). apply (Hn b).
      destruct (decide (b = a)) as [->|Hba]; [congruence|]. exists g. by rewrite lookup_alter_entry, decide_False.
Qed.

(** ** What a client does with the tree

    A client looks up the entry of a name (creating it) and attaches something,
    or detaches something and calls [eraseEntryIfEmpty]. *)

(** The table has room: creating the entries of [n] keeps 32-bit bucket counts. *)
Definition room (t : NameTree) (n : Name) : Prop := nt_nItems t + Z.of_nat (length n) < 2 ^ 31.

Lemma lookup_payload t n a t1 : nt_wf t → room t n → NameTree_lookup t n = (a, t1) →
  ∃ e, nt_heap t1 !! a = Some e ∧ e_prefix e = n ∧ payload e = payload_at t n ∧
       nt_wf t1 ∧ (∀ m, payload_at t1 m = payload_at t m).
Proof.
  intros Ht Hr Hl. destruct (lookup_spec t n a t1 Ht Hr Hl) as [W (e & He & Hn) G _ _].
  assert (E : ∀ m, payload_at t1 m = payload_at t m) by (intros m; by eapply nt_grow_payload).
  exists e. split_and!; [done|done| |done|done]. rewrite <-E, <-Hn. symmetry. by eapply payload_at_entry.
Qed.

Lemma lookup_alter_spec t n a t1 f : nt_wf t → room t n → NameTree_lookup t n = (a, t1) → payload_update f →
  ∃ e, nt_heap t1 !! a = Some e ∧ e_prefix e = n ∧ payload e = payload_at t n ∧
    nt_wf (alter_entry f a t1) ∧
    (∀ m, payload_at (alter_entry f a t1) m = if decide (m = n) then payload (f e) else payload_at t m) ∧
    (pruned (nt_heap t) → payload (f e) ≠ no_payload → pruned (nt_heap (alter_entry f a t1))).
Proof.
  intros Ht Hr Hl Hf. destruct (lookup_payload t n a t1 Ht Hr Hl) as (e & He & Hn & Hpay & W & E).
  exists e. split_and!; [done|done|done|by apply alter_entry_wf| |].
  - intros m. rewrite (payload_at_alter f t1 a e m Hf W He), Hn. by rewrite E.
  - intros Hp Hne b g Hb. rewrite lookup_alter_entry in Hb. case_decide as Eb.
    + subst b. rewrite He in Hb. injection Hb as <-. destruct (isEmpty (f e)) eqn:Em; [|done].
      apply isEmpty_true in Em as [_ ?]. done.
    + eapply (lookup_pruned _ _ _ _ (lookup_spec t n a t1 Ht Hr Hl)); eauto.
Qed.

Lemma alter_erase_spec t a e f r t2 : nt_wf t → nt_heap t !! a = Some e → payload_update f →
  NameTree_eraseEntryIfEmpty (alter_entry f a t) a = (r, t2) →
  nt_wf t2 ∧
  (∀ m, payload_at t2 m = if decide (m = e_prefix e) then payload (f e) else payload_at t m) ∧
  (pruned (nt_heap t) → pruned (nt_heap t2)) ∧
  nt_grow (λ m, m `prefix_of` e_prefix e) (nt_heap t2) (nt_heap (alter_entry f a t)).
Proof.
  intros Ht He Hf Hr. pose proof (alter_entry_wf f a t Hf Ht) as Ht1.
  assert (He1 : nt_heap (alter_entry f a t) !! a = Some (f e)) by (rewrite lookup_alter_entry, decide_True, He; done).
  destruct (erase_spec _ _ _ _ _ Ht1 He1 Hr) as [W _ G P _].
  destruct (Hf e) as (_ & Hpre & _). rewrite Hpre in G. split_and!; [done| | |done].
  - intros m. rewrite <-(payload_at_alter f t a e m Hf Ht He). symmetry. by eapply nt_grow_payload.
  - intros Hp. apply P. intros b g Hb Hne. rewrite lookup_alter_entry, decide_False in Hb by done. by eapply Hp.
Qed.

(** An entry that carries something survives the erasure of others. *)
Lemma grow_survives P h h' a e : nt_grow P h h' → h' !! a = Some e → payload e ≠ no_payload →
  ∃ e', h !! a = Some e' ∧ e_prefix e' = e_prefix e ∧ payload e' = payload e.
Proof.
  intros [O N] He Hne. destruct (h !! a) as [e'|] eqn:E; [|by destruct (N _ _ He E)].
  destruct (O _ _ E) as (g & Hg & ? & ?). exists e'. assert (g = e) as -> by congruence. done.
Qed.

(** The names whose payload satisfies [q]. *)
Definition payload_names (q : Payload → bool) (t : NameTree) : gset Name :=
  list_to_set (e_prefix <$> filter (λ e, q (payload e) = true) (snd <$> map_to_list (nt_heap t))).

Lemma elem_of_payload_names q t n : nt_wf t → q no_payload = false →
  n ∈ payload_names q t ↔ q (payload_at t n) = true.
Proof.
  intros Ht Hq. unfold payload_names. rewrite elem_of_list_to_set, list_elem_of_fmap.
  setoid_rewrite list_elem_of_filter. split.
  - intros (e & -> & He & Hin). apply list_elem_of_fmap in Hin as ([a e'] & -> & Ha%elem_of_map_to_list).
    simpl in *. by rewrite (payload_at_entry t a).
  - intros Hp. destruct (payload_at_cases t n Ht) as [(a & e & He & Hn & E)|[_ E]]; [|congruence].
    exists e. split_and!; [done|congruence|]. apply list_elem_of_fmap. exists (a, e). split; [done|].
    by apply elem_of_map_to_list.
Qed.

Lemma payload_names_insert q t t' n : nt_wf t → nt_wf t' → q no_payload = false →
  (∀ m, m ≠ n → payload_at t' m = payload_at t m) → q (payload_at t' n) = true → q (payload_at t n) = false →
  size (payload_names q t') = S (size (payload_names q t)).
Proof.
  intros Ht Ht' Hq Ho Hn Hn'. replace (payload_names q t') with ({[n]} ∪ payload_names q t).
  - rewrite size_union; [by rewrite size_singleton|].
    intros m ->%elem_of_singleton Hm. apply elem_of_payload_names in Hm; [congruence|done..].
  - apply set_eq. intros m. rewrite elem_of_union, elem_of_singleton, !elem_of_payload_names by done.
    destruct (decide (m = n)) as [->|]; [naive_solver|]. rewrite Ho by done. naive_solver.
Qed.

Lemma payload_names_ext q t t' : nt_wf t → nt_wf t' → q no_payload = false →
  (∀ m, q (payload_at t' m) = q (payload_at t m)) → payload_names q t' = payload_names q t.
Proof.
  intros Ht Ht' Hq E. apply set_eq. intros m. rewrite !elem_of_payload_names by done. by rewrite E.
Qed.

(** Enumerating the whole table visits each of those names once. *)
Lemma fullEnumerate_count q t : nt_wf t → q no_payload = false →
  length (NameTree_fullEnumerate t (λ e, q (payload e))) = size (payload_names q t).
Proof.
  intros Ht Hq. rewrite fullEnumerate_spec by done.
  set (l := filter _ _).
  assert (Hnd : NoDup l) by (apply NoDup_filter, (wf_nodup _ (proj2 Ht))).
  assert (Hl : ∀ a, a ∈ l ↔ ∃ e, nt_heap t !! a = Some e ∧ q (payload e) = true).
  { intros a. subst l. rewrite list_elem_of_filter, on_entry_true, (wf_dom _ (proj2 Ht)). naive_solver. }
  pose (pre := λ a, from_option e_prefix [] (nt_heap t !! a)).
  assert (E : payload_names q t = list_to_set (pre <$> l)).
  { apply set_eq. intros n. rewrite elem_of_payload_names, elem_of_list_to_set, list_elem_of_fmap by done. split.
    - intros Hp. destruct (payload_at_cases t n Ht) as [(a & e & He & Hn & E)|[_ E]]; [|congruence].
      exists a. rewrite Hl. unfold pre. rewrite He. split; [done|]. exists e. split; congruence.
    - intros (a & -> & (e & He & Hqe)%Hl). unfold pre. rewrite He. simpl. by rewrite (payload_at_entry t a). }
  rewrite E, size_list_to_set; [by rewrite length_fmap|].
  apply NoDup_fmap_2_strong; [|done]. intros a b (e & He & _)%Hl (f & Hf & _)%Hl. unfold pre. rewrite He, Hf. simpl.
  intros Hef. apply (wf_unique _ (proj1 Ht) _ _ (e_prefix e)); [by exists e|by exists f].
Qed.
End facts.
