(* ===== verification/NameTreeEnum.v ===== *)
(** * [partialEnumerate] is a pre-order traversal

    The PARTIAL_ENUMERATE_TYPE iterator of [daemon/table/name-tree.cpp] keeps no
    stack: it moves to the first child, to the next sibling or back to the
    parent.  Here its iterations are shown to list what a recursive pre-order
    traversal of the subtree lists. *)

From S2P Require Import Prelude CityHash Packets FibEntry NameTree NameTreeFacts.

(** ** Reference: recursive pre-order traversal *)

Fixpoint preorder_upto (k : nat) (t : NameTree) (sel : NtEntry → bool * bool) (a : nt_ptr) : list nt_ptr :=
  let '(accept, visit) := subtree_visit t sel a in
  (if accept then [a] else []) ++
  (if visit then match k with
                 | O => []
                 | S k' => concat (map (preorder_upto k' t sel) (nt_children t a))
                 end
   else []).

(** The length of the longest prefix bounds the height of the tree. *)
Definition max_prefix (t : NameTree) : nat :=
  max_list ((λ kv : nt_ptr * NtEntry, length (e_prefix kv.2)) <$> map_to_list (nt_heap t)).

Definition preorder (t : NameTree) (sel : NtEntry → bool * bool) (a : nt_ptr) : list nt_ptr :=
  preorder_upto (S (max_prefix t)) t sel a.

(** ** The iterator as a machine *)

Definition pe_step (t : NameTree) (sel : NtEntry → bool * bool) (s : nt_ptr * bool) : option ((nt_ptr * bool) * bool) :=
  match partialEnumerate_move t s.1 s.2 with
  | Some (c, true) => Some ((c, (subtree_visit t sel c).2), (subtree_visit t sel c).1)
  | Some (p, false) => Some ((p, false), false)
  | None => None
  end.

Section enum.
Context `{WireEncoding}.
Variables (t : NameTree) (sel : NtEntry → bool * bool) (root : nt_ptr).
Hypothesis Ht : nt_wf t.

Inductive pe_steps : nat → nt_ptr * bool → list (nt_ptr * bool) → nt_ptr * bool → Prop :=
| pe_refl s : pe_steps 0 s [] s
| pe_next n s s1 (out : bool) l s2 :
    s.1 ≠ root → pe_step t sel s = Some (s1, out) → pe_steps n s1 l s2 →
    pe_steps (S n) s ((if out then [s1] else []) ++ l) s2.

Lemma pe_steps_app n1 n2 s1 s2 s3 l1 l2 :
  pe_steps n1 s1 l1 s2 → pe_steps n2 s2 l2 s3 → pe_steps (n1 + n2) s1 (l1 ++ l2) s3.
Proof. induction 1; intros Hr; simpl; [done|]. rewrite <-app_assoc. econstructor; eauto. Qed.

Lemma pe_loop_step fuel s s1 out : s.1 ≠ root → pe_step t sel s = Some (s1, out) →
  partialEnumerate_loop (S fuel) t sel root s.1 s.2 =
  if (out : bool) then Some s1 else partialEnumerate_loop fuel t sel root s1.1 s1.2.
Proof.
  intros Hne. unfold pe_step. simpl. rewrite bool_decide_eq_false_2 by done.
  destruct (partialEnumerate_move t s.1 s.2) as [[c [|]]|]; [| |done].
  - destruct (subtree_visit t sel c) as [acc vis]. simpl. intros [= <- <-]. done.
  - intros [= <- <-]. done.
Qed.

Lemma pe_loop_root fuel v : partialEnumerate_loop (S fuel) t sel root root v = None.
Proof. simpl. by rewrite bool_decide_eq_true_2. Qed.

Lemma pe_next_nonroot s : s.1 ≠ root →
  partialEnumerate_next t sel root s = partialEnumerate_loop (partialEnumerate_fuel t) t sel root s.1 s.2.
Proof. destruct s as [a v]. simpl. intros. by rewrite bool_decide_eq_false_2. Qed.

Lemma pe_next_root c cs : nt_children t root = c :: cs →
  partialEnumerate_next t sel root (root, true) =
  if (subtree_visit t sel c).1 then Some (c, (subtree_visit t sel c).2)
  else partialEnumerate_loop (partialEnumerate_fuel t) t sel root c (subtree_visit t sel c).2.
Proof.
  intros E. unfold partialEnumerate_next. rewrite bool_decide_eq_true_2 by done. rewrite E.
  change (head (c :: cs)) with (Some c). cbv iota beta. by destruct (subtree_visit t sel c).
Qed.

(** A run that ends at the root is what the loop of [operator++] yields. *)
Lemma pe_steps_iterate n s l : pe_steps n s l (root, false) →
  (n < partialEnumerate_fuel t)%nat → Forall (λ s, s.1 ≠ root) l →
  ∀ fuel count, (n < fuel)%nat → (length l <= count)%nat →
  iterate (partialEnumerate_next t sel root) count (partialEnumerate_loop fuel t sel root s.1 s.2) = l.
Proof.
  remember (root, false) as e eqn:Ee.
  induction 1 as [s|n s s1 out l s2 Hne Hs Hr IH]; intros Hn Hl fuel count Hf Hc.
  - subst s. destruct fuel as [|fuel]; [lia|]. cbn [fst snd]. rewrite pe_loop_root. by destruct count.
  - destruct fuel as [|fuel]; [lia|]. rewrite (pe_loop_step fuel s s1 out) by done.
    destruct out; simpl in *; [|apply IH; [done|lia|done|lia|done]].
    apply Forall_cons in Hl as [Hs1 Hl]. destruct count as [|count]; [lia|]. rewrite iterate_S. f_equal.
    rewrite pe_next_nonroot by done. apply IH; [done|lia|done|lia|lia].
Qed.

(** ** Parents and children *)

Lemma nt_children_Some a e : nt_heap t !! a = Some e → nt_children t a = e_children e.
Proof. intros He. unfold nt_children. by rewrite He. Qed.

Definition plen (a : nt_ptr) : nat := from_option (λ e, length (e_prefix e)) 0%nat (nt_heap t !! a).

Lemma child_facts p c : c ∈ nt_children t p →
  ∃ ep ec d, nt_heap t !! p = Some ep ∧ nt_heap t !! c = Some ec ∧ nt_parent t c = Some p ∧
    e_prefix ec = e_prefix ep ++ [d].
Proof.
  unfold nt_children. destruct (nt_heap t !! p) as [ep|] eqn:Hp; simpl; [|by intros ?%elem_of_nil].
  intros Hc. apply (wf_children _ (proj1 Ht) _ _ _ Hp) in Hc as (ec & Hc & Hpar).
  pose proof (wf_parent _ (proj1 Ht) _ _ Hc) as Hw. rewrite Hpar in Hw.
  destruct Hw as (d & (e' & He' & Hpre) & Hsn). simplify_eq.
  exists ep, ec, d. split_and!; [done|done| |congruence].
  unfold nt_parent. by rewrite Hc.
Qed.

Lemma plen_child p c : c ∈ nt_children t p → plen c = S (plen p).
Proof.
  intros Hc. destruct (child_facts _ _ Hc) as (ep & ec & d & Hp & Hec & _ & Hpre).
  unfold plen. rewrite Hp, Hec. simpl. rewrite Hpre, length_app. simpl. lia.
Qed.

Lemma plen_max a : (plen a <= max_prefix t)%nat.
Proof.
  unfold plen. destruct (nt_heap t !! a) as [e|] eqn:He; simpl; [|lia].
  unfold max_prefix. apply max_list_elem_of_le. apply list_elem_of_fmap. exists (a, e). split; [done|].
  by apply elem_of_map_to_list.
Qed.

Lemma children_NoDup p : NoDup (nt_children t p).
Proof.
  unfold nt_children. destruct (nt_heap t !! p) as [ep|] eqn:Hp; simpl; [|constructor].
  by eapply wf_children_nodup; [apply Ht|].
Qed.

Lemma nodes_after_children p cs1 c cs2 : nt_children t p = cs1 ++ c :: cs2 → nodes_after c (nt_children t p) = cs2.
Proof.
  intros E. rewrite E. apply nodes_after_app. pose proof (children_NoDup p) as Hnd. rewrite E in Hnd.
  apply NoDup_app in Hnd as (_ & Hd & _). intros Hin. apply (Hd c Hin). set_solver.
Qed.

Lemma visit_children a : (subtree_visit t sel a).2 = true → nt_children t a ≠ [].
Proof.
  unfold subtree_visit, nt_children. destruct (nt_heap t !! a) as [e|]; simpl; [|done].
  intros [_ Hn]%andb_prop. apply negb_true_iff, bool_decide_eq_false in Hn. done.
Qed.

(** ** A subtree is traversed in pre-order *)

Definition all_entries (e : NtEntry) : bool * bool := (true, true).

Definition subtree_bound (k : nat) (a : nt_ptr) : nat := length (preorder_upto k t all_entries a).

Lemma preorder_S k s a : preorder_upto (S k) t s a =
  (if (subtree_visit t s a).1 then [a] else []) ++
  (if (subtree_visit t s a).2 then concat (map (preorder_upto k t s) (nt_children t a)) else []).
Proof. simpl. by destruct (subtree_visit t s a). Qed.

Lemma preorder_all_S k a e : nt_heap t !! a = Some e →
  preorder_upto (S k) t all_entries a = a :: concat (map (preorder_upto k t all_entries) (nt_children t a)).
Proof.
  intros He. rewrite preorder_S. unfold subtree_visit. rewrite He. simpl. f_equal.
  rewrite (nt_children_Some _ _ He). case_bool_decide as E; [by rewrite E|done].
Qed.

(** What a traversal of a list of siblings costs and yields. *)
Definition siblings_bound (k : nat) (cs : list nt_ptr) : nat := sum_list (subtree_bound k <$> cs).

(** The traversal below [a]: from just after visiting [a] to [a] done. *)
Definition traverses (k : nat) (a : nt_ptr) : Prop :=
  ∃ n l, pe_steps n (a, (subtree_visit t sel a).2) l (a, false) ∧
    Forall (λ s, s.1 ≠ root) l ∧
    fst <$> l = (if (subtree_visit t sel a).2 then
                   match k with O => [] | S k' => concat (map (preorder_upto k' t sel) (nt_children t a)) end
                 else []) ∧
    (n + 1 <= 2 * subtree_bound k a)%nat ∧ (length l + 1 <= subtree_bound k a)%nat.

Lemma siblings_traverse k p cs1 c cs2 : nt_children t p = cs1 ++ c :: cs2 → (plen root <= plen p)%nat →
  (∀ d, d ∈ nt_children t p → traverses k d) →
  ∃ n l, pe_steps n (c, (subtree_visit t sel c).2) l (p, false) ∧ Forall (λ s, s.1 ≠ root) l ∧
    (if (subtree_visit t sel c).1 then [c] else []) ++ (fst <$> l) = concat (map (preorder_upto k t sel) (c :: cs2)) ∧
    (n <= 2 * siblings_bound k (c :: cs2))%nat ∧ (length l + 1 <= siblings_bound k (c :: cs2))%nat.
Proof.
  intros E Hroot Htr. revert cs1 c E. induction cs2 as [|d cs2 IH]; intros cs1 c E.
  all: assert (Hc : c ∈ nt_children t p) by (rewrite E; set_solver).
  all: assert (Hcr : c ≠ root) by (intros ->; pose proof (plen_child _ _ Hc); lia).
  all: destruct (child_facts _ _ Hc) as (_ & _ & _ & _ & _ & Hpar & _).
  all: destruct (Htr c Hc) as (n1 & l1 & Hs1 & Hf1 & Hl1 & Hn1 & Hb1).
  all: assert (Hpre : (if (subtree_visit t sel c).1 then [c] else []) ++ (fst <$> l1) = preorder_upto k t sel c)
    by (rewrite Hl1; destruct k; simpl; destruct (subtree_visit t sel c) as [? []]; done).
  - exists (n1 + 1)%nat, (l1 ++ []). split_and!.
    + eapply pe_steps_app; [done|]. apply (pe_next 0 (c, false) (p, false) false [] (p, false)); [done| |constructor].
      unfold pe_step. simpl. rewrite Hpar. simpl. by rewrite (nodes_after_children p cs1 c []).
    + by rewrite app_nil_r.
    + rewrite app_nil_r, Hpre. simpl. by rewrite app_nil_r.
    + unfold siblings_bound. simpl. lia.
    + rewrite app_nil_r. unfold siblings_bound. simpl. lia.
  - destruct (IH (cs1 ++ [c]) d) as (n2 & l2 & Hs2 & Hf2 & Hl2 & Hn2 & Hb2); [by rewrite <-app_assoc|].
    assert (Hd : d ≠ root).
    { assert (Hd : d ∈ nt_children t p) by (rewrite E; set_solver). intros ->. pose proof (plen_child _ _ Hd). lia. }
    set (out := (subtree_visit t sel d).1) in *. set (vis := (subtree_visit t sel d).2) in *.
    exists (n1 + S n2)%nat, (l1 ++ (if out then [(d, vis)] else []) ++ l2). split_and!.
    + eapply pe_steps_app; [done|]. apply (pe_next n2 (c, false) (d, vis) out l2 (p, false)); [done| |done].
      unfold pe_step. simpl. rewrite Hpar. simpl. by rewrite (nodes_after_children p cs1 c (d :: cs2)).
    + apply Forall_app. split; [done|]. apply Forall_app. split; [|done]. destruct out; by repeat constructor.
    + change (concat (map (preorder_upto k t sel) (c :: d :: cs2))) with
        (preorder_upto k t sel c ++ concat (map (preorder_upto k t sel) (d :: cs2))).
      rewrite <-Hl2, <-Hpre, !fmap_app, <-app_assoc. by destruct out.
    + unfold siblings_bound in *. csimpl in *. lia.
    + unfold siblings_bound in *. rewrite !length_app. csimpl in *. destruct out; simpl; lia.
Qed.

Lemma length_concat_map {A B} (f : A → list B) l : length (concat (map f l)) = sum_list ((λ x, length (f x)) <$> l).
Proof. induction l as [|x l IH]; csimpl; [done|]. by rewrite length_app, IH. Qed.

Lemma subtree_bound_S k a e : nt_heap t !! a = Some e →
  subtree_bound (S k) a = S (siblings_bound k (nt_children t a)).
Proof. intros He. unfold subtree_bound. rewrite (preorder_all_S k a e He). simpl. by rewrite length_concat_map. Qed.

Lemma subtree_traverse k a : is_Some (nt_heap t !! a) → (plen root < plen a)%nat → (max_prefix t <= plen a + k)%nat →
  traverses k a.
Proof.
  revert a. induction k as [|k IH]; intros a [e He] Hroot Hk.
  - assert (Hv : (subtree_visit t sel a).2 = false).
    { destruct (subtree_visit t sel a).2 eqn:Hv; [|done]. apply visit_children in Hv.
      destruct (nt_children t a) as [|c cs] eqn:E; [done|].
      assert (plen c = S (plen a)) by (apply plen_child; rewrite E; set_solver). pose proof (plen_max c). lia. }
    exists 0%nat, []. rewrite Hv. split_and!; [constructor|done|done|..]; unfold subtree_bound; simpl;
      unfold subtree_visit; rewrite He; simpl; lia.
  - unfold traverses. rewrite (subtree_bound_S k a e He).
    destruct (subtree_visit t sel a).2 eqn:Hv.
    2: { exists 0%nat, []. split_and!; [constructor|done|done|simpl;lia..]. }
    apply visit_children in Hv as Hne. destruct (nt_children t a) as [|c cs] eqn:E; [done|].
    destruct (siblings_traverse k a [] c cs E) as (n & l & Hs & Hf & Hl & Hn & Hb); [lia| |].
    { intros d Hd. destruct (child_facts _ _ Hd) as (_ & ed & _ & _ & Hed & _).
      pose proof (plen_child _ _ Hd). apply IH; [eauto|lia|lia]. }
    assert (Hcr : c ≠ root).
    { intros ->. assert (plen root = S (plen a)) by (apply plen_child; rewrite E; set_solver). lia. }
    set (out := (subtree_visit t sel c).1) in *. set (vis := (subtree_visit t sel c).2) in *.
    exists (S n), ((if out then [(c, vis)] else []) ++ l). split_and!.
    + apply (pe_next n (a, true) (c, vis) out l (a, false)); [simpl; intros ->; lia| |done].
      unfold pe_step. simpl. by rewrite E.
    + apply Forall_app. split; [|done]. destruct out; by repeat constructor.
    + rewrite <-Hl, fmap_app. by destruct out.
    + lia.
    + rewrite length_app. destruct out; simpl; lia.
Qed.

(** ** Counting: a traversal visits each entry once *)

Lemma preorder_all_below k a b : b ∈ preorder_upto k t all_entries a →
  ∃ ea eb, nt_heap t !! a = Some ea ∧ nt_heap t !! b = Some eb ∧ e_prefix ea `prefix_of` e_prefix eb.
Proof.
  revert a. induction k as [|k IH]; intros a Hb.
  - simpl in Hb. unfold subtree_visit in Hb. destruct (nt_heap t !! a) as [e|] eqn:He; simpl in Hb; [|by apply elem_of_nil in Hb].
    assert (b = a) as -> by (destruct (negb _); set_solver). eauto.
  - destruct (nt_heap t !! a) as [e|] eqn:He.
    2: { rewrite preorder_S in Hb. unfold subtree_visit in Hb. rewrite He in Hb. by apply elem_of_nil in Hb. }
    rewrite (preorder_all_S k a e He) in Hb. apply elem_of_cons in Hb as [->|Hb]; [eauto|].
    apply list_elem_of_In, in_concat in Hb as (l & Hl & Hb). apply in_map_iff in Hl as (c & <- & Hc).
    apply list_elem_of_In in Hb, Hc.
    destruct (IH _ Hb) as (ec & eb & Hec & Heb & Hpre), (child_facts _ _ Hc) as (ea & ec' & d & Hea & Hec' & _ & Hd).
    simplify_eq. exists e, eb. split_and!; [done|done|]. etrans; [|done]. rewrite Hd. by apply prefix_app_r.
Qed.

Lemma NoDup_concat_map {A B} (f : A → list B) l : NoDup l → (∀ x, x ∈ l → NoDup (f x)) →
  (∀ x y b, x ∈ l → y ∈ l → b ∈ f x → b ∈ f y → x = y) → NoDup (concat (map f l)).
Proof.
  induction 1 as [|x l Hx Hnd IH]; intros Hf Hd; simpl; [constructor|].
  apply NoDup_app. split_and!.
  - apply Hf. set_solver.
  - intros b Hb Hin. apply list_elem_of_In, in_concat in Hin as (m & Hm & Hbm).
    apply in_map_iff in Hm as (y & <- & Hy). apply list_elem_of_In in Hbm, Hy.
    rewrite (Hd x y b) in Hx; [done|set_solver..].
  - apply IH; [intros; apply Hf; set_solver|intros; eapply Hd; set_solver].
Qed.

Lemma preorder_all_NoDup k a : NoDup (preorder_upto k t all_entries a).
Proof.
  revert a. induction k as [|k IH]; intros a.
  - simpl. unfold subtree_visit. destruct (nt_heap t !! a); simpl; [|constructor].
    destruct (negb _); simpl; apply NoDup_singleton.
  - destruct (nt_heap t !! a) as [e|] eqn:He.
    2: { rewrite preorder_S. unfold subtree_visit. rewrite He. constructor. }
    rewrite (preorder_all_S k a e He). apply NoDup_cons. split.
    + intros Hb. apply list_elem_of_In, in_concat in Hb as (l & Hl & Hb). apply in_map_iff in Hl as (c & <- & Hc).
      apply list_elem_of_In in Hb, Hc.
      destruct (preorder_all_below _ _ _ Hb) as (ec & eb & Hec & Heb & Hpre), (child_facts _ _ Hc) as (ea & ec' & d & Hea & Hec' & _ & Hd).
      simplify_eq. apply prefix_length in Hpre. rewrite Hd, length_app in Hpre. simpl in Hpre. lia.
    + apply NoDup_concat_map; [apply children_NoDup|auto|].
      intros x y b Hx Hy Hbx Hby.
      destruct (preorder_all_below _ _ _ Hbx) as (ex & eb & Hex & Heb & Hpx), (preorder_all_below _ _ _ Hby) as (ey & eb' & Hey & Heb' & Hpy).
      destruct (child_facts _ _ Hx) as (ea & ex' & d & Hea & Hex' & _ & Hd), (child_facts _ _ Hy) as (ea' & ey' & d' & Hea' & Hey' & _ & Hd').
      simplify_eq. apply (wf_unique _ (proj1 Ht) _ _ (e_prefix ex)); [by exists ex|]. exists ey. split; [done|].
      apply prefix_take_iff in Hpx, Hpy. rewrite Hpx, Hpy, Hd, Hd', !length_app. done.
Qed.

Lemma subtree_bound_size k a : (subtree_bound k a <= size (nt_heap t))%nat.
Proof.
  unfold subtree_bound. rewrite <-size_dom.
  rewrite <-(size_list_to_set (C := gset nt_ptr)) by apply preorder_all_NoDup.
  apply subseteq_size. intros b. rewrite elem_of_list_to_set, elem_of_dom.
  intros Hb. destruct (preorder_all_below _ _ _ Hb) as (_ & eb & _ & -> & _). eauto.
Qed.
End enum.

(** ** The traversal from [partialEnumerate] *)

Section spec.
Context `{WireEncoding}.
#[local] Arguments partialEnumerate_next : simpl never.

Lemma partialEnumerate_next_root t sel root l : nt_wf t → is_Some (nt_heap t !! root) →
  (subtree_visit t sel root).2 = true →
  l = concat (map (preorder_upto (max_prefix t) t sel) (nt_children t root)) →
  ∃ ls, fst <$> ls = l ∧ (length l + 1 <= size (nt_heap t))%nat ∧
    ∀ count, (length l <= count)%nat →
    iterate (partialEnumerate_next t sel root) count (partialEnumerate_next t sel root (root, true)) = ls.
Proof.
  intros Ht [e He] Hv ->. apply visit_children in Hv as Hne. destruct (nt_children t root) as [|c cs] eqn:E; [done|].
  set (k := max_prefix t).
  destruct (siblings_traverse t sel root Ht k root [] c cs E) as (n & l & Hs & Hf & Hl & Hn & Hb); [lia| |].
  { intros d Hd. destruct (child_facts t Ht _ _ Hd) as (_ & ed & _ & _ & Hed & _).
    pose proof (plen_child t Ht _ _ Hd). apply subtree_traverse; [done|eauto|lia|lia]. }
  pose proof (subtree_bound_S t k root e He) as Hsb. rewrite E in Hsb.
  pose proof (subtree_bound_size t sel Ht (S k) root) as Hsz.
  assert (Hcr : c ≠ root).
  { intros ->. assert (plen t root = S (plen t root)) by (apply plen_child; [done|rewrite E; set_solver]). lia. }
  exists ((if (subtree_visit t sel c).1 then [(c, (subtree_visit t sel c).2)] else []) ++ l).
  assert (Hlen : length (concat (map (preorder_upto k t sel) (c :: cs))) =
    length ((if (subtree_visit t sel c).1 then [(c, (subtree_visit t sel c).2)] else []) ++ l)).
  { rewrite <-Hl, !length_app, length_fmap. by destruct (subtree_visit t sel c).1. }
  split_and!.
  - rewrite fmap_app, <-Hl. by destruct (subtree_visit t sel c).1.
  - rewrite Hlen, length_app. destruct (subtree_visit t sel c).1; simpl; lia.
  - intros count Hc. rewrite Hlen in Hc. rewrite length_app in Hc. 
    rewrite (pe_next_root t sel root c cs) by done.
    assert (Hfuel : (n < partialEnumerate_fuel t)%nat) by (unfold partialEnumerate_fuel; lia).
    destruct (subtree_visit t sel c) as [acc vis] eqn:Ev. simpl in *. destruct acc; simpl in *.
    + destruct count as [|count]; [lia|]. rewrite iterate_S. f_equal.
      rewrite pe_next_nonroot by done. by eapply (pe_steps_iterate t sel root n (c, vis)); [..|lia].
    + by eapply (pe_steps_iterate t sel root n (c, vis)).
Qed.

Lemma partialEnumerate_spec t sel n : nt_wf t →
  NameTree_partialEnumerate t n sel = from_option (preorder t sel) [] (NameTree_findExactMatch t n).
Proof.
  intros Ht. unfold NameTree_partialEnumerate, partialEnumerate_begin.
  destruct (NameTree_findExactMatch t n) as [root|] eqn:Er; [|done]. simpl.
  apply findExactMatch_entry in Er as (e & He & _); [|done].
  unfold preorder. rewrite preorder_S.
  destruct (subtree_visit t sel root) as [acc vis] eqn:Ev. simpl.
  assert (Hsz : (1 <= size (nt_heap t))%nat).
  { assert (size (nt_heap t) ≠ 0%nat); [|lia]. intros E%map_size_empty_inv. by rewrite E in He. }
  destruct (size (nt_heap t)) as [|sz] eqn:Esz; [lia|].
  destruct vis.
  - destruct (partialEnumerate_next_root t sel root (concat (map (preorder_upto (max_prefix t) t sel) (nt_children t root)))
      Ht (mk_is_Some _ _ He)) as (ls & Hls & Hlen & Hit); [by rewrite Ev|done|]. rewrite Esz in Hlen.
    destruct acc; cbn [mbind option_bind].
    + rewrite iterate_S. csimpl. f_equal. rewrite Hit by lia. done.
    + rewrite <-Hls. specialize (Hit (S sz) ltac:(lia)). rewrite <-Hit.
      by destruct (partialEnumerate_next t sel root (root, true)).
  - assert (Hn : partialEnumerate_next t sel root (root, false) = None).
    { unfold partialEnumerate_next. by rewrite bool_decide_eq_true_2. }
    destruct acc; simpl; rewrite Hn; [by destruct sz|done].
Qed.

(** The child of [a] on the way to a descendant [b]. *)
Lemma child_towards t a b ea eb : nt_wf t → nt_heap t !! a = Some ea → nt_heap t !! b = Some eb →
  e_prefix ea `prefix_of` e_prefix eb → a ≠ b →
  ∃ c ec, c ∈ nt_children t a ∧ nt_heap t !! c = Some ec ∧ e_prefix ec `prefix_of` e_prefix eb.
Proof.
  intros Ht Hea Heb [m Hm] Hne. revert b eb Heb Hm Hne.
  induction m as [|d m IH] using rev_ind; intros b eb Heb Hm Hne.
  { rewrite app_nil_r in Hm. destruct Hne. apply (wf_unique _ (proj1 Ht) _ _ (e_prefix eb)); [by exists ea|by exists eb]. }
  pose proof (wf_parent _ (proj1 Ht) _ _ Heb) as Hp. rewrite Hm, app_assoc in Hp.
  destruct (e_parent eb) as [q|] eqn:Eq; [|by destruct (e_prefix ea ++ m)].
  destruct Hp as (_ & Hq & _). rewrite getParentName_snoc in Hq. destruct Hq as (eq & Heq & Hqp).
  destruct (decide (a = q)) as [<-|Haq].
  - exists b, eb. split_and!; [|done|done]. unfold nt_children. rewrite Hea. simpl.
    apply (wf_children _ (proj1 Ht) _ _ _ Hea). eauto.
  - destruct (IH q eq Heq Hqp Haq) as (c & ec & Hc & Hec & Hpre). exists c, ec. split_and!; [done|done|].
    etrans; [exact Hpre|]. rewrite Hqp, Hm, app_assoc. by apply prefix_app_r.
Qed.

(** What a traversal lists: the accepted entries below [a] whose ancestors, down
    from [a], are all to be visited. *)
Definition reachable_below (t : NameTree) (sel : NtEntry → bool * bool) (ea eb : NtEntry) : Prop :=
  e_prefix ea `prefix_of` e_prefix eb ∧ (sel eb).1 = true ∧
  ∀ x ex, nt_heap t !! x = Some ex → e_prefix ea `prefix_of` e_prefix ex → e_prefix ex `prefix_of` e_prefix eb →
    e_prefix ex ≠ e_prefix eb → (sel ex).2 = true.

Lemma reachable_child t sel a c b ea ec eb d : nt_wf t → nt_heap t !! a = Some ea → nt_heap t !! c = Some ec →
  nt_heap t !! b = Some eb → e_prefix ec = e_prefix ea ++ [d] → e_prefix ec `prefix_of` e_prefix eb →
  reachable_below t sel ea eb ↔ (sel ea).2 = true ∧ reachable_below t sel ec eb.
Proof.
  intros Ht Hea Hec Heb Hd Hpre. assert (Hac : e_prefix ea `prefix_of` e_prefix ec) by (rewrite Hd; by apply prefix_app_r).
  split.
  - intros (_ & Hacc & Hvis). split.
    + apply (Hvis a ea); [done|done|by etrans|]. intros E. apply prefix_length in Hpre. rewrite Hd, E, length_app in Hpre.
      simpl in Hpre. lia.
    + split_and!; [done|done|]. intros x ex Hx Hcx Hxb. apply (Hvis x ex); [done|by etrans|done].
  - intros (Hva & _ & Hacc & Hvis). split_and!; [by etrans|done|]. intros x ex Hx Hax Hxb Hne.
    destruct (decide (e_prefix ex = e_prefix ea)) as [E|E].
    + assert (x = a) as -> by (apply (wf_unique _ (proj1 Ht) _ _ (e_prefix ea)); [by exists ex|by exists ea]). congruence.
    + apply (Hvis x ex Hx); [|done|done].
      destruct (prefix_weak_total _ _ _ Hpre Hxb) as [|Hxc]; [done|].
      rewrite (prefix_length_eq _ _ Hxc); [done|]. destruct Hax as [k Hk]. rewrite Hk, Hd, !length_app. simpl.
      destruct k; [rewrite app_nil_r in Hk; done|simpl; lia].
Qed.

Lemma preorder_upto_elem t sel a b k : nt_wf t → (max_prefix t < plen t a + k)%nat → is_Some (nt_heap t !! a) →
  b ∈ preorder_upto k t sel a ↔
  ∃ ea eb, nt_heap t !! a = Some ea ∧ nt_heap t !! b = Some eb ∧ reachable_below t sel ea eb.
Proof.
  intros Ht. revert a. induction k as [|k IH]; intros a Hk [e He].
  { pose proof (plen_max t a). lia. }
  rewrite preorder_S. unfold subtree_visit. rewrite He. cbn [fst snd]. rewrite elem_of_app. split.
  - intros [Hb|Hb].
    + destruct (sel e).1 eqn:Ea; [|by apply elem_of_nil in Hb]. apply list_elem_of_singleton in Hb as ->.
      exists e, e. split_and!; [done|done|]. split_and!; [done|done|]. intros x ex _ H1 H2 Hne.
      destruct Hne. by apply (anti_symm prefix).
    + destruct (sel e).2 eqn:Ev; [|by apply elem_of_nil in Hb]. case_match; [|by apply elem_of_nil in Hb].
      apply list_elem_of_In, in_concat in Hb as (l & Hl & Hb). apply in_map_iff in Hl as (c & <- & Hc).
      apply list_elem_of_In in Hb, Hc.
      destruct (child_facts t Ht _ _ Hc) as (ea & ec & d & Hea & Hec & _ & Hd). pose proof (plen_child t Ht _ _ Hc).
      apply IH in Hb as (ec' & eb & Hec' & Heb & Hr); [|lia|eauto].
      assert (ec' = ec) as -> by congruence. assert (ea = e) as -> by congruence. exists e, eb. split_and!; [done|done|].
      rewrite (reachable_child t sel a c b e ec eb d) by (done || apply Hr). done.
  - intros (ea & eb & Hea & Heb & Hr). assert (ea = e) as -> by congruence.
    destruct (decide (a = b)) as [<-|Hne].
    { left. assert (eb = e) as -> by congruence. destruct Hr as (_ & -> & _). set_solver. }
    right. destruct (child_towards t a b e eb Ht He Heb (proj1 Hr) Hne) as (c & ec & Hc & Hec & Hpre).
    destruct (child_facts t Ht _ _ Hc) as (ea & ec' & d & Hea' & Hec' & _ & Hd).
    assert (ec' = ec) as -> by congruence. assert (ea = e) as -> by congruence.
    rewrite (reachable_child t sel a c b e ec eb d) in Hr by done. destruct Hr as [-> Hr].
    rewrite bool_decide_eq_false_2.
    2: { intros E. unfold nt_children in Hc. rewrite He in Hc. simpl in Hc. rewrite E in Hc. by apply elem_of_nil in Hc. }
    simpl. apply list_elem_of_In, in_concat. exists (preorder_upto k t sel c). split.
    + apply in_map, list_elem_of_In. done.
    + apply list_elem_of_In. pose proof (plen_child t Ht _ _ Hc). apply IH; [lia|eauto|]. eauto 10.
Qed.

(** The entries that [partialEnumerate] lists. *)
Lemma partialEnumerate_elem t sel n b : nt_wf t →
  b ∈ NameTree_partialEnumerate t n sel ↔
  ∃ a ea eb, nt_heap t !! a = Some ea ∧ e_prefix ea = n ∧ nt_heap t !! b = Some eb ∧ reachable_below t sel ea eb.
Proof.
  intros Ht. rewrite partialEnumerate_spec by done. destruct (NameTree_findExactMatch t n) as [a|] eqn:Er; simpl.
  - apply findExactMatch_entry in Er as (e & He & Hn); [|done]. unfold preorder.
    rewrite preorder_upto_elem; [|done|lia|eauto]. split.
    + intros (ea & eb & ? & ? & ?). exists a, ea, eb. split_and!; [done|congruence|done|done].
    + intros (a' & ea & eb & Ha' & Hea & Hb & Hr).
      assert (a' = a) as -> by (apply (wf_unique _ (proj1 Ht) _ _ n); [by exists ea|by exists e]). eauto.
  - rewrite elem_of_nil. rewrite (findExactMatch_None t n Ht) in Er. split; [done|].
    intros (a & ea & eb & Ha & Hn & _). apply (Er a). by exists ea.
Qed.
End spec.
