(* ===== verification/Fib.v ===== *)
(** * FIB: [daemon/table/fib.cpp]

    The Forwarding Information Base is a view of the name tree: the FIB entry of
    a prefix is attached to the name-tree entry of that prefix, so a pointer to
    a FIB entry is the address of its name-tree entry.  The contract is that the
    table is a finite map from names to FIB entries ([fib_get]). *)

From S2P Require Import Prelude CityHash Packets FibEntry NameTree NameTreeFacts.

Definition hasFibEntry (e : NtEntry) : bool := bool_decide (is_Some (e_fib e)).
Definition getFibEntry (t : NameTree) (a : nt_ptr) : option FibEntry := e ← nt_heap t !! a; e_fib e.
Definition s_emptyEntry : FibEntry := FibEntry_new [].

Section fib.
Context `{WireEncoding} (sort : list NextHop → list NextHop).

(** [findLongestPrefixMatch] by name and from a name-tree entry *)
Definition Fib_findLongestPrefixMatch (t : NameTree) (prefix : Name) : FibEntry :=
  match NameTree_findLongestPrefixMatch t prefix hasFibEntry with
  | Some a => default s_emptyEntry (getFibEntry t a)
  | None => s_emptyEntry
  end.

Definition Fib_findLongestPrefixMatch_nte (t : NameTree) (nte : nt_ptr) : FibEntry :=
  match getFibEntry t nte with
  | Some entry => entry
  | None =>
      match NameTree_findLongestPrefixMatch_entry t nte hasFibEntry with
      | Some a => default s_emptyEntry (getFibEntry t a)
      | None => s_emptyEntry
      end
  end.

Definition Fib_findExactMatch (t : NameTree) (prefix : Name) : option FibEntry :=
  nte ← NameTree_findExactMatch t prefix; getFibEntry t nte.

(** [insert] returns the entry (its address) and whether it is new. *)
Definition Fib_insert (t : NameTree) (nItems : Z) (prefix : Name) : (nt_ptr * bool) * (NameTree * Z) :=
  let '(nte, t) := NameTree_lookup t prefix in
  match getFibEntry t nte with
  | Some _ => ((nte, false), (t, nItems))
  | None => ((nte, true), (alter_entry (setFibEntry (Some (FibEntry_new prefix))) nte t, u64 (nItems + 1)))
  end.

Definition Fib_erase_nte (t : NameTree) (nItems : Z) (nte : nt_ptr) : NameTree * Z :=
  let t := alter_entry (setFibEntry None) nte t in
  let '(_, t) := NameTree_eraseEntryIfEmpty t nte in
  (t, u64 (nItems - 1)).

Definition Fib_erase (t : NameTree) (nItems : Z) (prefix : Name) : NameTree * Z :=
  match NameTree_findExactMatch t prefix with
  | Some nte => Fib_erase_nte t nItems nte
  | None => (t, nItems)
  end.

(** [entry->addNextHop], [entry->removeNextHop] through a pointer to the entry *)
Definition alter_fib (f : FibEntry → FibEntry) (nte : nt_ptr) (t : NameTree) : NameTree :=
  alter_entry (λ e, setFibEntry (f <$> e_fib e) e) nte t.

(** [!entry->hasNextHops()] for the entry at [nte] *)
Definition lacksNextHops (t : NameTree) (nte : nt_ptr) : bool :=
  match getFibEntry t nte with
  | Some entry => negb (FibEntry_hasNextHops entry)
  | None => false
  end.

Definition Fib_removeNextHopFromAllEntries (t : NameTree) (nItems : Z) (face : face_ptr) : NameTree * Z :=
  let entries := NameTree_fullEnumerate t hasFibEntry in
  let t := foldl (λ t nte, alter_fib (λ entry, FibEntry_removeNextHop entry face) nte t) t entries in
  let toErase := filter (λ nte, lacksNextHops t nte = true) entries in
  foldl (λ '(t, nItems) nte, Fib_erase_nte t nItems nte) (t, nItems) toErase.

(** ** The map the table implements *)

Definition fib_get (t : NameTree) (n : Name) : option FibEntry := p_fib (payload_at t n).
Definition has_fib (q : Payload) : bool := bool_decide (is_Some (p_fib q)).
Definition fib_size (t : NameTree) : Z := Z.of_nat (size (payload_names has_fib t)).

(** What is attached besides the FIB entry. *)
Definition non_fib (q : Payload) := (p_pit q, p_measurements q, p_strategyChoice q).

Record fib_wf (t : NameTree) (nItems : Z) : Prop := {
  fib_tree : nt_wf t;
  fib_pruned : pruned (nt_heap t);
  fib_nItems : nItems = u64 (fib_size t);
  fib_entries n e : fib_get t n = Some e → fe_prefix e = n ∧ FibEntry_ok e
}.

Lemma setFibEntry_update o : payload_update (setFibEntry o).
Proof. done. Qed.

Lemma alter_fib_update f : payload_update (λ e, setFibEntry (f <$> e_fib e) e).
Proof. done. Qed.

Lemma hasFibEntry_payload e : hasFibEntry e = bool_decide (is_Some (p_fib (payload e))).
Proof. done. Qed.

Lemma fib_get_entry t a e : nt_wf t → nt_heap t !! a = Some e → fib_get t (e_prefix e) = e_fib e.
Proof. intros Ht He. unfold fib_get. by rewrite (payload_at_entry t a e). Qed.

Lemma fib_payload_ne e x : e_fib e = Some x → payload e ≠ no_payload.
Proof. intros E. unfold payload, no_payload. rewrite E. congruence. Qed.

(** *** Lookups *)

Lemma Fib_LPM_head t n r : nt_wf t → r = head (prefix_matches t hasFibEntry n) →
  match r with Some a => default s_emptyEntry (getFibEntry t a) | None => s_emptyEntry end =
  default s_emptyEntry (lpm (fib_get t) n).
Proof.
  intros Ht ->. unfold fib_get. rewrite <-(lpm_head p_fib hasFibEntry t n Ht hasFibEntry_payload eq_refl).
  by destruct (head (prefix_matches t hasFibEntry n)).
Qed.

Lemma Fib_findExactMatch_spec t n : nt_wf t → Fib_findExactMatch t n = fib_get t n.
Proof.
  intros Ht. unfold Fib_findExactMatch, getFibEntry, fib_get, payload_at.
  destruct (NameTree_findExactMatch t n) as [a|]; [|done]. simpl. by destruct (nt_heap t !! a).
Qed.

Lemma Fib_LPM_spec t n : nt_wf t → NoDup (computeHashSet n) →
  Fib_findLongestPrefixMatch t n = default s_emptyEntry (lpm (fib_get t) n).
Proof. intros Ht Hnd. apply Fib_LPM_head; [done|]. by apply LPM_spec. Qed.

Lemma Fib_LPM_nte_spec t nte e : nt_wf t → nt_heap t !! nte = Some e →
  Fib_findLongestPrefixMatch_nte t nte = default s_emptyEntry (lpm (fib_get t) (e_prefix e)).
Proof.
  intros Ht He. unfold Fib_findLongestPrefixMatch_nte.
  destruct (getFibEntry t nte) as [x|] eqn:E.
  - unfold getFibEntry in E. rewrite He in E. simpl in E.
    assert (G : fib_get t (e_prefix e) = Some x) by (rewrite (fib_get_entry t nte e); done).
    unfold lpm. destruct (length (e_prefix e)) as [|k] eqn:El; simpl; rewrite take_ge by lia; by rewrite G.
  - apply Fib_LPM_head; [done|]. by apply LPM_entry_spec.
Qed.

(** *** Updates *)

Lemma u64_add_l a b : u64 (u64 a + b) = u64 (a + b).
Proof. unfold u64. by rewrite Zplus_mod_idemp_l. Qed.
Lemma u64_sub_l a b : u64 (u64 a - b) = u64 (a - b).
Proof. unfold u64. by rewrite Zminus_mod_idemp_l. Qed.

Lemma Fib_insert_spec t nItems n nte isNew t' nItems' : fib_wf t nItems → room t n →
  Fib_insert t nItems n = ((nte, isNew), (t', nItems')) →
  fib_wf t' nItems' ∧ isNew = negb (bool_decide (is_Some (fib_get t n))) ∧
  entry_at (nt_heap t') n nte ∧
  (∀ m, fib_get t' m = if decide (m = n) then Some (default (FibEntry_new n) (fib_get t n)) else fib_get t m) ∧
  (∀ m, non_fib (payload_at t' m) = non_fib (payload_at t m)).
Proof.
  intros [W P I E] Hr Hi. unfold Fib_insert in Hi. destruct (NameTree_lookup t n) as [a t1] eqn:Hl.
  destruct (lookup_payload t n a t1 W Hr Hl) as (e & He & Hn & Hpay & W1 & E1).
  unfold getFibEntry in Hi. rewrite He in Hi. simpl in Hi.
  assert (Hg : fib_get t n = e_fib e) by (unfold fib_get; by rewrite <-Hpay).
  destruct (e_fib e) as [x|] eqn:Ef; injection Hi as <- <- <- <-.
  - assert (Hf : ∀ m, fib_get t1 m = fib_get t m) by (intros m; unfold fib_get; by rewrite E1).
    rewrite Hg. split_and!; [|done|by exists e| |intros m; by rewrite E1].
    + split; [done| | |].
      * intros b f Hb. destruct (decide (b = a)) as [->|].
        -- rewrite He in Hb. injection Hb as <-. destruct (isEmpty e) eqn:Em; [|done].
           apply isEmpty_true in Em as [_ Em]. by destruct (fib_payload_ne _ _ Ef).
        -- by eapply (lookup_pruned _ _ _ _ (lookup_spec t n a t1 W Hr Hl)).
      * rewrite I. unfold fib_size. do 3 f_equal. symmetry.
        apply payload_names_ext; [done|done|done|]. intros m. by rewrite E1.
      * intros m y Hy. apply E. by rewrite <-Hf.
    + intros m. rewrite Hf. case_decide; [by subst|done].
  - destruct (lookup_alter_spec t n a t1 (setFibEntry (Some (FibEntry_new n))) W Hr Hl (setFibEntry_update _))
      as (e' & He' & _ & _ & W2 & E2 & P2). assert (e' = e) as -> by congruence.
    assert (Hf : ∀ m, fib_get (alter_entry (setFibEntry (Some (FibEntry_new n))) a t1) m =
      if decide (m = n) then Some (FibEntry_new n) else fib_get t m).
    { intros m. unfold fib_get. rewrite E2. by case_decide. }
    rewrite Hg. split_and!; [|done| |done|].
    + split; [done| | |].
      * apply P2; [done|]. by apply (fib_payload_ne _ (FibEntry_new n)).
      * rewrite I, u64_add_l. f_equal. unfold fib_size.
        rewrite (payload_names_insert has_fib t (alter_entry (setFibEntry (Some (FibEntry_new n))) a t1) n); [lia|done|done|done| | |].
        -- intros m Hm. by rewrite E2, decide_False.
        -- by rewrite E2, decide_True.
        -- unfold has_fib. apply bool_decide_eq_false, eq_None_not_Some. exact Hg.
      * intros m y. rewrite Hf. case_decide as Em; [|apply E]. intros [= <-]. split; [done|].
        split; constructor.
    + exists (setFibEntry (Some (FibEntry_new n)) e). rewrite lookup_alter_entry, decide_True, He by done. done.
    + intros m. rewrite E2. case_decide as Em; [|done]. subst m. rewrite <-Hpay. done.
Qed.

(** Erasing the FIB entry of a name-tree entry that has one. *)
Lemma Fib_erase_nte_spec t nItems nte e x : fib_wf t nItems → nt_heap t !! nte = Some e → e_fib e = Some x →
  let '(t', nItems') := Fib_erase_nte t nItems nte in
  fib_wf t' nItems' ∧
  (∀ m, fib_get t' m = if decide (m = e_prefix e) then None else fib_get t m) ∧
  (∀ m, non_fib (payload_at t' m) = non_fib (payload_at t m)) ∧
  nt_grow (λ _, True) (nt_heap t') (nt_heap (alter_entry (setFibEntry None) nte t)).
Proof.
  intros [W P I E] He Hx. unfold Fib_erase_nte.
  destruct (NameTree_eraseEntryIfEmpty (alter_entry (setFibEntry None) nte t) nte) as [r t'] eqn:Hr.
  destruct (alter_erase_spec t nte e _ r t' W He (setFibEntry_update None) Hr) as (W' & E' & P' & G').
  assert (Hf : ∀ m, fib_get t' m = if decide (m = e_prefix e) then None else fib_get t m).
  { intros m. unfold fib_get. rewrite E'. by case_decide. }
  pose proof (fib_get_entry t nte e W He) as Hg. rewrite Hx in Hg.
  split_and!; [|done| |].
  - split; [done|auto| |].
    + rewrite I, u64_sub_l. f_equal. unfold fib_size.
      rewrite (payload_names_insert has_fib t' t (e_prefix e)); [lia|done|done|done| | |].
      * intros m Hm. by rewrite E', decide_False.
      * unfold has_fib. apply bool_decide_eq_true. unfold fib_get in Hg. rewrite Hg. eauto.
      * unfold has_fib. rewrite E', decide_True by done. done.
    + intros m y. rewrite Hf. case_decide; [done|apply E].
  - intros m. rewrite E'. case_decide as Em; [|done]. subst m. by rewrite (payload_at_entry t nte e).
  - destruct G' as [O N]. split; [done|]. intros b f Hb Hn. split; [done|]. by destruct (N b f Hb Hn).
Qed.

(** *** Removing a face from all entries *)

Lemma lookup_foldl_alter_fib f l t b : NoDup l →
  nt_heap (foldl (λ t nte, alter_fib f nte t) t l) !! b =
  if decide (b ∈ l) then (λ e, setFibEntry (f <$> e_fib e) e) <$> nt_heap t !! b else nt_heap t !! b.
Proof.
  revert t. induction l as [|a l IH]; intros t Hnd; [done|]. apply NoDup_cons in Hnd as [Ha Hnd]. simpl.
  rewrite IH by done. unfold alter_fib. rewrite lookup_alter_entry. destruct (decide (b = a)) as [->|Hb].
  - rewrite decide_False, decide_True by set_solver. done.
  - destruct (decide (b ∈ l)); [rewrite decide_True by set_solver|rewrite decide_False by set_solver]; done.
Qed.

Lemma foldl_alter_fib_wf f l t : nt_wf t → nt_wf (foldl (λ t nte, alter_fib f nte t) t l).
Proof. revert t. induction l as [|a l IH]; intros t Ht; [done|]. simpl. apply IH. by apply alter_entry_wf. Qed.

(** All entries with a FIB entry are enumerated, so each of them is updated. *)
Lemma foldl_alter_fib_payload f t n : nt_wf t →
  let t1 := foldl (λ t nte, alter_fib f nte t) t (NameTree_fullEnumerate t hasFibEntry) in
  fib_get t1 n = f <$> fib_get t n ∧ non_fib (payload_at t1 n) = non_fib (payload_at t n).
Proof.
  intros Ht t1. assert (Ht1 : nt_wf t1) by by apply foldl_alter_fib_wf.
  set (l := NameTree_fullEnumerate t hasFibEntry) in *.
  assert (Hnd : NoDup l) by (subst l; rewrite fullEnumerate_spec by done; apply NoDup_filter, (wf_nodup _ (proj2 Ht))).
  assert (Hin : ∀ a e, nt_heap t !! a = Some e → a ∈ l ↔ hasFibEntry e = true).
  { intros a e He. subst l. rewrite fullEnumerate_spec, list_elem_of_filter, on_entry_true, (wf_dom _ (proj2 Ht)) by done.
    rewrite He. naive_solver. }
  assert (Hl := λ b, lookup_foldl_alter_fib f l t b Hnd). fold t1 in Hl.
  unfold fib_get. destruct (payload_at_cases t n Ht) as [(a & e & He & <- & ->)|[Hn ->]].
  - specialize (Hl a). case_decide as Ha; rewrite He in Hl; simpl in Hl.
    + by rewrite (payload_at_entry t1 a _ Ht1 Hl : payload_at t1 (e_prefix e) = _).
    + rewrite (payload_at_entry t1 a _ Ht1 Hl). split; [|done].
      rewrite (Hin _ _ He) in Ha. simpl. unfold hasFibEntry in Ha. rewrite bool_decide_eq_true, <-eq_None_not_Some in Ha.
      by rewrite Ha.
  - rewrite payload_at_None; [done|done|]. intros a (e & He & <-). rewrite Hl in He.
    case_decide; [apply fmap_Some in He as (e' & He & ->)|]; apply (Hn a); by eexists.
Qed.

Lemma foldl_erase_nte_spec l : ∀ t nItems, fib_wf t nItems → NoDup l →
  (∀ a, a ∈ l → ∃ e x, nt_heap t !! a = Some e ∧ e_fib e = Some x) →
  let '(t', nItems') := foldl (λ '(t, nItems) nte, Fib_erase_nte t nItems nte) (t, nItems) l in
  fib_wf t' nItems' ∧
  (∀ a n, a ∈ l → entry_at (nt_heap t) n a → fib_get t' n = None) ∧
  (∀ n, (∀ a, a ∈ l → ¬ entry_at (nt_heap t) n a) → fib_get t' n = fib_get t n) ∧
  (∀ n, non_fib (payload_at t' n) = non_fib (payload_at t n)).
Proof.
  induction l as [|a l IH]; intros t nItems Hw Hnd Hl; simpl.
  { split_and!; [done| |done|done]. intros a n Ha. by apply elem_of_nil in Ha. }
  apply NoDup_cons in Hnd as [Ha Hnd]. destruct (Hl a) as (e & x & He & Hx); [set_solver|].
  pose proof (Fib_erase_nte_spec t nItems a e x Hw He Hx) as Hs.
  destruct (Fib_erase_nte t nItems a) as [t1 n1]. destruct Hs as (Hw1 & F1 & N1 & G1).
  assert (Hkeep : ∀ b f y, b ≠ a → nt_heap t !! b = Some f → e_fib f = Some y →
    ∃ f', nt_heap t1 !! b = Some f' ∧ e_prefix f' = e_prefix f ∧ e_fib f' = Some y).
  { intros b f y Hb Hf Hy.
    destruct (grow_survives _ _ _ b f G1) as (f' & Hf' & Hp & Hq).
    - by rewrite lookup_alter_entry, decide_False.
    - by eapply fib_payload_ne.
    - exists f'. split_and!; [done|done|]. injection Hq as ->. done. }
  specialize (IH t1 n1 Hw1 Hnd).
  destruct (foldl _ (t1, n1) l) as [t2 n2]. destruct IH as (W2 & D2 & K2 & O2).
  { intros b Hb. destruct (Hl b) as (f & y & Hf & Hy); [set_solver|].
    destruct (Hkeep b f y) as (f' & ? & _ & ?); [by intros ->|done|done|eauto]. }
  assert (Hent : ∀ b n, b ∈ l → entry_at (nt_heap t) n b ↔ entry_at (nt_heap t1) n b).
  { intros b n Hb. destruct (Hl b) as (f & y & Hf & Hy); [set_solver|].
    destruct (Hkeep b f y) as (f' & Hf' & Hp & _); [by intros ->|done|done|]. unfold entry_at. rewrite Hf, Hf'.
    naive_solver congruence. }
  split_and!; [done| | |intros n; by rewrite O2].
  - intros b n Hb Hbn. destruct (decide (b ∈ l)) as [Hbl|Hbl]; [eapply D2; [done|]; by apply Hent|].
    assert (b = a) as -> by set_solver. destruct Hbn as (e' & He' & <-). assert (e' = e) as -> by congruence.
    rewrite K2; [by rewrite F1, decide_True|].
    intros c Hc Hcn. apply (Hent c) in Hcn; [|done]. rewrite (wf_unique _ (proj1 (fib_tree _ _ Hw)) c a (e_prefix e)) in Hc;
      [done|done|by exists e].
  - intros n Hn. rewrite K2.
    + rewrite F1, decide_False; [done|]. intros ->. apply (Hn a); [set_solver|by exists e].
    + intros b Hb Hbn. apply (Hn b); [set_solver|]. by apply Hent.
Qed.

Definition drop_face (face : face_ptr) (e : FibEntry) : option FibEntry :=
  let e' := FibEntry_removeNextHop e face in
  if FibEntry_hasNextHops e' then Some e' else None.

Lemma alter_fib_all_wf t nItems face : fib_wf t nItems →
  fib_wf (foldl (λ t nte, alter_fib (λ entry, FibEntry_removeNextHop entry face) nte t) t
    (NameTree_fullEnumerate t hasFibEntry)) nItems.
Proof.
  intros [W P I E]. pose proof (λ n, foldl_alter_fib_payload (λ entry, FibEntry_removeNextHop entry face) t n W) as Hp.
  assert (W1 := foldl_alter_fib_wf (λ entry, FibEntry_removeNextHop entry face) (NameTree_fullEnumerate t hasFibEntry) t W).
  split; [done| | |].
  - intros a e He. rewrite lookup_foldl_alter_fib in He.
    2: { rewrite fullEnumerate_spec by done. apply NoDup_filter, (wf_nodup _ (proj2 W)). }
    case_decide; [|by eapply P]. apply fmap_Some in He as (f & Hf & ->).
    pose proof (P _ _ Hf) as Hem. unfold isEmpty in *. simpl. destruct (e_fib f); done.
  - rewrite I. unfold fib_size. do 3 f_equal. symmetry. apply payload_names_ext; [done|done|done|].
    intros m. destruct (Hp m) as [Hm _]. unfold has_fib, fib_get in *. simpl in Hm. rewrite Hm.
    by destruct (p_fib (payload_at t m)).
  - intros n e. destruct (Hp n) as [-> _]. intros (f & Hf & ->)%fmap_Some. destruct (E _ _ Hf) as [<- Hok].
    split; [done|]. by apply removeNextHop_ok.
Qed.

Lemma removeNextHopFromAllEntries_spec t nItems face : fib_wf t nItems →
  let '(t', nItems') := Fib_removeNextHopFromAllEntries t nItems face in
  fib_wf t' nItems' ∧
  (∀ n, fib_get t' n = e ← fib_get t n; drop_face face e) ∧
  (∀ n, non_fib (payload_at t' n) = non_fib (payload_at t n)).
Proof.
  intros Hw. unfold Fib_removeNextHopFromAllEntries. pose proof (fib_tree _ _ Hw) as W.
  set (l := NameTree_fullEnumerate t hasFibEntry).
  assert (Hp := λ n, foldl_alter_fib_payload (λ entry, FibEntry_removeNextHop entry face) t n W). simpl in Hp. fold l in Hp.
  pose proof (alter_fib_all_wf t nItems face Hw) as Hw1. fold l in Hw1.
  set (t1 := foldl _ t l) in *. pose proof (fib_tree _ _ Hw1) as W1.
  assert (Hnd : NoDup l) by (subst l; rewrite fullEnumerate_spec by done; apply NoDup_filter, (wf_nodup _ (proj2 W))).
  assert (Hlk : ∀ b, nt_heap t1 !! b = _) by (intros b; apply (lookup_foldl_alter_fib _ l t b Hnd)).
  set (toErase := filter _ l).
  assert (Hte : ∀ a, a ∈ toErase ↔ ∃ e x, nt_heap t1 !! a = Some e ∧ e_fib e = Some x ∧ FibEntry_hasNextHops x = false).
  { intros a. subst toErase. rewrite list_elem_of_filter. unfold lacksNextHops, getFibEntry. split.
    - intros [Hlack _]. destruct (nt_heap t1 !! a) as [e|]; [|done]. simpl in Hlack.
      destruct (e_fib e) as [x|] eqn:Ex; [|done]. apply negb_true_iff in Hlack. eauto.
    - intros (e & x & He & Hx & Hn). rewrite He. simpl. rewrite Hx, Hn. split; [done|].
      rewrite Hlk in He. case_decide as Ha; [done|]. destruct Ha. subst l.
      rewrite fullEnumerate_spec, list_elem_of_filter, on_entry_true, (wf_dom _ (proj2 W)) by done.
      split; [|by eexists]. exists e. split; [done|]. unfold hasFibEntry. rewrite Hx. done. }
  pose proof (foldl_erase_nte_spec toErase t1 nItems Hw1 (NoDup_filter _ _ Hnd)) as Hs.
  destruct (foldl _ (t1, nItems) toErase) as [t2 n2].
  destruct Hs as (W2 & D2 & K2 & O2); [intros a (e & x & ? & ? & _)%Hte; eauto|].
  split_and!; [done| |].
  - intros n. destruct (Hp n) as [Hn _].
    destruct (payload_at_cases t1 n W1) as [(a & e & He & Hen & Hpay)|[Hno Hpay]].
    + assert (Hfe : fib_get t1 n = e_fib e) by (unfold fib_get; by rewrite Hpay).
      destruct (decide (a ∈ toErase)) as [Ha|Ha].
      * rewrite (D2 a n Ha) by (by exists e). apply Hte in Ha as (e' & x & He' & Hx & Hl).
        assert (e' = e) as -> by congruence. rewrite Hn, Hx in Hfe. apply fmap_Some in Hfe as (f & -> & ->).
        simpl. unfold drop_face. by rewrite Hl.
      * rewrite K2.
        -- rewrite Hn. destruct (fib_get t n) as [f|]; [|done]. simpl in *. unfold drop_face.
           destruct (FibEntry_hasNextHops (FibEntry_removeNextHop f face)) eqn:Eh; [done|].
           destruct Ha. apply Hte. exists e, (FibEntry_removeNextHop f face). rewrite <-Hfe, Hn. done.
        -- intros b Hb Hbn. rewrite (wf_unique _ (proj1 W1) b a n) in Hb; [done|done|by exists e].
    + rewrite K2; [|intros a _; apply Hno]. assert (Hfe : fib_get t1 n = None) by (unfold fib_get; by rewrite Hpay).
      rewrite Hfe. rewrite Hn in Hfe. by apply fmap_None in Hfe as ->.
  - intros n. rewrite O2. apply Hp.
Qed.
End fib.
