(* ===== verification/PitEntry.v ===== *)
(** * PIT entries: [daemon/table/pit-entry.cpp], [pit-face-record.cpp],
      [pit-in-record.cpp]

    A PIT entry keeps the Interest that created it, one in-record per downstream
    face, one out-record per upstream face, two timers and strategy information.
    The current time is an argument of the operations that read the clock. *)

From S2P Require Import Prelude Packets NameTree.

(** ** Data *)

Record FaceRecord := mkFaceRecord {
  fr_face : face_ptr;
  fr_lastNonce : Z;
  fr_lastRenewed : Z;
  fr_expiry : Z;
  fr_info : StrategyInfoHost
}.

Record InRecord := mkInRecord { ir_record : FaceRecord; ir_interest : option Interest }.
Abbreviation OutRecord := FaceRecord.

Record PitEntry := mkPitEntry {
  pe_interest : Interest;
  pe_inRecords : list InRecord;
  pe_outRecords : list OutRecord;
  pe_unsatisfyTimer : option positive;     (* scheduler::EventId *)
  pe_stragglerTimer : option positive;
  pe_nameTreeEntry : option nt_ptr;
  pe_info : StrategyInfoHost
}.

Definition ir_face (r : InRecord) : face_ptr := fr_face (ir_record r).

Definition DUPLICATE_NONCE_NONE : Z := 0.
Definition DUPLICATE_NONCE_IN_SAME : Z := Z.shiftl 1 0.
Definition DUPLICATE_NONCE_IN_OTHER : Z := Z.shiftl 1 1.
Definition DUPLICATE_NONCE_OUT_SAME : Z := Z.shiftl 1 2.
Definition DUPLICATE_NONCE_OUT_OTHER : Z := Z.shiftl 1 3.

(** ** Face records *)

Definition FaceRecord_new (face : face_ptr) : FaceRecord := mkFaceRecord face 0 TimePoint_min TimePoint_min ∅.

Definition interest_lifetime (interest : Interest) : Z :=
  if i_lifetime interest <? 0 then DEFAULT_INTEREST_LIFETIME else i_lifetime interest.

Definition FaceRecord_update (now : Z) (interest : Interest) (r : FaceRecord) : FaceRecord :=
  mkFaceRecord (fr_face r) (i_nonce interest) now (now + milliseconds (interest_lifetime interest)) (fr_info r).

Definition InRecord_new (face : face_ptr) : InRecord := mkInRecord (FaceRecord_new face) None.
Definition InRecord_update (now : Z) (interest : Interest) (r : InRecord) : InRecord :=
  mkInRecord (FaceRecord_update now interest (ir_record r)) (Some interest).

Definition setRecordInfo (h : StrategyInfoHost) (r : FaceRecord) : FaceRecord :=
  mkFaceRecord (fr_face r) (fr_lastNonce r) (fr_lastRenewed r) (fr_expiry r) h.
Definition InRecord_clearInfo (r : InRecord) : InRecord :=
  mkInRecord (setRecordInfo (clearStrategyInfoHost (fr_info (ir_record r))) (ir_record r)) (ir_interest r).
Definition OutRecord_clearInfo (r : OutRecord) : OutRecord :=
  setRecordInfo (clearStrategyInfoHost (fr_info r)) r.

(** ** Entry *)

Definition PitEntry_new (interest : Interest) : PitEntry := mkPitEntry interest [] [] None None None ∅.

Definition setInRecords (l : list InRecord) (e : PitEntry) : PitEntry :=
  mkPitEntry (pe_interest e) l (pe_outRecords e) (pe_unsatisfyTimer e) (pe_stragglerTimer e) (pe_nameTreeEntry e) (pe_info e).
Definition setOutRecords (l : list OutRecord) (e : PitEntry) : PitEntry :=
  mkPitEntry (pe_interest e) (pe_inRecords e) l (pe_unsatisfyTimer e) (pe_stragglerTimer e) (pe_nameTreeEntry e) (pe_info e).
Definition setUnsatisfyTimer (t : option positive) (e : PitEntry) : PitEntry :=
  mkPitEntry (pe_interest e) (pe_inRecords e) (pe_outRecords e) t (pe_stragglerTimer e) (pe_nameTreeEntry e) (pe_info e).
Definition setStragglerTimer (t : option positive) (e : PitEntry) : PitEntry :=
  mkPitEntry (pe_interest e) (pe_inRecords e) (pe_outRecords e) (pe_unsatisfyTimer e) t (pe_nameTreeEntry e) (pe_info e).
Definition setNameTreeEntry (n : option nt_ptr) (e : PitEntry) : PitEntry :=
  mkPitEntry (pe_interest e) (pe_inRecords e) (pe_outRecords e) (pe_unsatisfyTimer e) (pe_stragglerTimer e) n (pe_info e).
Definition setPitInfo (h : StrategyInfoHost) (e : PitEntry) : PitEntry :=
  mkPitEntry (pe_interest e) (pe_inRecords e) (pe_outRecords e) (pe_unsatisfyTimer e) (pe_stragglerTimer e) (pe_nameTreeEntry e) h.

Definition pe_name (e : PitEntry) : Name := i_name (pe_interest e).

Section entry.
Variable isLocal : face_ptr → bool.

Definition PitEntry_hasLocalInRecord (e : PitEntry) : bool :=
  existsb (λ r, isLocal (ir_face r)) (pe_inRecords e).

Definition PitEntry_violatesScope (e : PitEntry) (face : face_ptr) : bool :=
  let isViolatingLocalhost := negb (isLocal face) && isPrefixOf LOCALHOST_NAME (pe_name e) in
  if isViolatingLocalhost then true
  else
    let isViolatingLocalhop := negb (isLocal face) && isPrefixOf LOCALHOP_NAME (pe_name e) &&
                               negb (PitEntry_hasLocalInRecord e) in
    if isViolatingLocalhop then true else false.

Definition PitEntry_canForwardTo (now : Z) (e : PitEntry) (face : face_ptr) : bool :=
  let hasUnexpiredOutRecord :=
    existsb (λ r, bool_decide (fr_face r = face) && (now <=? fr_expiry r)) (pe_outRecords e) in
  if hasUnexpiredOutRecord then false
  else
    let hasUnexpiredOtherInRecord :=
      existsb (λ r, negb (bool_decide (ir_face r = face)) && (now <=? fr_expiry (ir_record r))) (pe_inRecords e) in
    if negb hasUnexpiredOtherInRecord then false
    else negb (PitEntry_violatesScope e face).
End entry.

(** The loop over the in-records and the loop over the out-records of [findNonce] *)
Definition findNonce_loop (same other nonce : Z) (face : face_ptr) (dnw : Z) (l : list FaceRecord) : Z :=
  foldl (λ dnw r, if fr_lastNonce r =? nonce
                  then if bool_decide (fr_face r = face) then Z.lor dnw same else Z.lor dnw other
                  else dnw) dnw l.

Definition PitEntry_findNonce (e : PitEntry) (nonce : Z) (face : face_ptr) : Z :=
  let dnw := DUPLICATE_NONCE_NONE in
  let dnw := findNonce_loop DUPLICATE_NONCE_IN_SAME DUPLICATE_NONCE_IN_OTHER nonce face dnw
               (ir_record <$> pe_inRecords e) in
  findNonce_loop DUPLICATE_NONCE_OUT_SAME DUPLICATE_NONCE_OUT_OTHER nonce face dnw (pe_outRecords e).

(** Applies [f] to the first element satisfying [p]. *)
Fixpoint update_first {A} (p : A → bool) (f : A → A) (l : list A) : list A :=
  match l with
  | [] => []
  | x :: l' => if p x then f x :: l' else x :: update_first p f l'
  end.

(** Removes the first element satisfying [p]. *)
Fixpoint erase_first {A} (p : A → bool) (l : list A) : list A :=
  match l with
  | [] => []
  | x :: l' => if p x then l' else x :: erase_first p l'
  end.

Definition in_of (face : face_ptr) (r : InRecord) : bool := bool_decide (ir_face r = face).
Definition out_of (face : face_ptr) (r : OutRecord) : bool := bool_decide (fr_face r = face).

Definition PitEntry_insertOrUpdateInRecord (now : Z) (face : face_ptr) (interest : Interest) (e : PitEntry) : PitEntry :=
  let l := match find_if (in_of face) (pe_inRecords e) with
           | None => InRecord_new face :: pe_inRecords e
           | Some _ => pe_inRecords e
           end in
  setInRecords (update_first (in_of face) (InRecord_update now interest) l) e.

Definition PitEntry_getInRecord (e : PitEntry) (face : face_ptr) : option InRecord :=
  find_if (in_of face) (pe_inRecords e).

Definition PitEntry_deleteInRecords (e : PitEntry) : PitEntry := setInRecords [] e.

Definition PitEntry_insertOrUpdateOutRecord (now : Z) (face : face_ptr) (interest : Interest) (e : PitEntry) : PitEntry :=
  let l := match find_if (out_of face) (pe_outRecords e) with
           | None => FaceRecord_new face :: pe_outRecords e
           | Some _ => pe_outRecords e
           end in
  setOutRecords (update_first (out_of face) (FaceRecord_update now interest) l) e.

Definition PitEntry_getOutRecord (e : PitEntry) (face : face_ptr) : option OutRecord :=
  find_if (out_of face) (pe_outRecords e).

Definition PitEntry_deleteOutRecord (face : face_ptr) (e : PitEntry) : PitEntry :=
  setOutRecords (erase_first (out_of face) (pe_outRecords e)) e.

Definition PitEntry_hasUnexpiredOutRecords (now : Z) (e : PitEntry) : bool :=
  existsb (λ r, now <=? fr_expiry r) (pe_outRecords e).

(** [clearStrategyInfo] of the entry and of all its records
    ([daemon/table/strategy-choice.cpp]) *)
Definition PitEntry_clearStrategyInfo (e : PitEntry) : PitEntry :=
  mkPitEntry (pe_interest e) (InRecord_clearInfo <$> pe_inRecords e) (OutRecord_clearInfo <$> pe_outRecords e)
    (pe_unsatisfyTimer e) (pe_stragglerTimer e) (pe_nameTreeEntry e) (clearStrategyInfoHost (pe_info e)).

(** ** Invariant: one record per face, every in-record holds its Interest *)

Record PitEntry_ok (e : PitEntry) : Prop := {
  ok_in : NoDup (ir_face <$> pe_inRecords e);
  ok_out : NoDup (fr_face <$> pe_outRecords e);
  ok_interest r : r ∈ pe_inRecords e → is_Some (ir_interest r)
}.

Section records.
Context {R : Type} (key : R → face_ptr) (upd : R → R).
Hypothesis key_upd : ∀ r, key (upd r) = key r.

Definition of_key (face : face_ptr) (r : R) : bool := bool_decide (key r = face).

Lemma update_first_keys face l : key <$> update_first (of_key face) upd l = key <$> l.
Proof. induction l as [|r l IH]; csimpl; [done|]. unfold of_key in *. case_bool_decide; csimpl; congruence. Qed.

Lemma find_update_first face l g :
  find_if (of_key g) (update_first (of_key face) upd l) =
  if decide (g = face) then upd <$> find_if (of_key face) l else find_if (of_key g) l.
Proof.
  unfold of_key. induction l as [|r l IH]; csimpl; [by case_decide|].
  case_decide as E; [subst g|]; case_bool_decide as Er; csimpl; rewrite ?key_upd.
  - by rewrite bool_decide_eq_true_2.
  - rewrite bool_decide_eq_false_2 by done. done.
  - rewrite !(bool_decide_eq_false_2 (key r = g)) by congruence. done.
  - case_bool_decide; [done|]. done.
Qed.

Lemma find_key_None face l : find_if (of_key face) l = None ↔ face ∉ (key <$> l).
Proof.
  rewrite find_if_None, list_elem_of_fmap. unfold of_key. setoid_rewrite bool_decide_eq_false. naive_solver.
Qed.

Lemma erase_first_sublist {A} p (l : list A) : erase_first p l `sublist_of` l.
Proof. induction l as [|r l IH]; simpl; [done|]. case_match; by constructor. Qed.

Lemma find_erase_first face l g : NoDup (key <$> l) →
  find_if (of_key g) (erase_first (of_key face) l) = if decide (g = face) then None else find_if (of_key g) l.
Proof.
  unfold of_key. induction l as [|r l IH]; csimpl; intros Hnd; [by case_decide|].
  apply NoDup_cons in Hnd as [Hr Hnd]. case_bool_decide as Er.
  - subst face. case_decide as E; [subst g|by rewrite (bool_decide_eq_false_2 (key r = g)) by congruence].
    by apply find_key_None.
  - csimpl. rewrite IH by done. case_decide; [subst g; by rewrite bool_decide_eq_false_2|done].
Qed.

(** Find-or-prepend, then update. *)
Lemma insert_update_find new face l g : key new = face →
  find_if (of_key g) (update_first (of_key face) upd
    (match find_if (of_key face) l with None => new :: l | Some _ => l end)) =
  if decide (g = face) then Some (upd (default new (find_if (of_key face) l))) else find_if (of_key g) l.
Proof.
  intros Hn. rewrite find_update_first. case_decide as E.
  - destruct (find_if (of_key face) l) as [r|] eqn:F; [by rewrite F|]. simpl. unfold of_key.
    by rewrite bool_decide_eq_true_2.
  - destruct (find_if (of_key face) l); [done|]. simpl. unfold of_key at 1.
    by rewrite bool_decide_eq_false_2 by congruence.
Qed.

Lemma insert_update_NoDup new face l : key new = face → NoDup (key <$> l) →
  NoDup (key <$> update_first (of_key face) upd
    (match find_if (of_key face) l with None => new :: l | Some _ => l end)).
Proof.
  intros Hn Hnd. rewrite update_first_keys. destruct (find_if (of_key face) l) eqn:F; [done|].
  apply find_key_None in F. csimpl. rewrite Hn. by apply NoDup_cons.
Qed.
End records.

Lemma update_first_in {A} p (f : A → A) l x : x ∈ update_first p f l → x ∈ l ∨ ∃ y, y ∈ l ∧ x = f y.
Proof.
  induction l as [|y l IH]; simpl; [by intros ?%elem_of_nil|]. destruct (p y).
  - intros [->|]%elem_of_cons; [right; exists y; set_solver|left; set_solver].
  - intros [->|Hx]%elem_of_cons; [left; set_solver|]. destruct (IH Hx) as [|(z & ? & ?)]; [left; set_solver|].
    right. exists z. set_solver.
Qed.

Lemma insertOrUpdateInRecord_ok now face interest e :
  PitEntry_ok e → PitEntry_ok (PitEntry_insertOrUpdateInRecord now face interest e).
Proof.
  intros [Hi Ho Hs]. split; simpl; [by apply (insert_update_NoDup ir_face)|done|].
  intros r Hr. destruct (find_if (in_of face) (pe_inRecords e)) eqn:F.
  - apply update_first_in in Hr as [Hr|(r' & Hr' & ->)]; simpl; eauto.
  - simpl in Hr. unfold in_of in Hr at 1. rewrite bool_decide_eq_true_2 in Hr by done.
    apply elem_of_cons in Hr as [->|Hr]; simpl; eauto.
Qed.

Lemma insertOrUpdateOutRecord_ok now face interest e :
  PitEntry_ok e → PitEntry_ok (PitEntry_insertOrUpdateOutRecord now face interest e).
Proof. intros [Hi Ho Hs]. split; simpl; [done| |done]. by apply (insert_update_NoDup fr_face). Qed.

Lemma deleteOutRecord_ok face e : PitEntry_ok e → PitEntry_ok (PitEntry_deleteOutRecord face e).
Proof.
  intros [Hi Ho Hs]. split; simpl; [done| |done].
  eapply sublist_NoDup; [done|]. apply fmap_sublist, erase_first_sublist.
Qed.

Lemma deleteInRecords_ok e : PitEntry_ok e → PitEntry_ok (PitEntry_deleteInRecords e).
Proof. intros [Hi Ho Hs]. split; simpl; [constructor|done|]. intros r Hr. by apply elem_of_nil in Hr. Qed.

Lemma clearStrategyInfo_ok e : PitEntry_ok e → PitEntry_ok (PitEntry_clearStrategyInfo e).
Proof.
  intros [Hi Ho Hs]. split; simpl.
  - rewrite <-list_fmap_compose. done.
  - rewrite <-list_fmap_compose. done.
  - intros r (r' & -> & Hr)%list_elem_of_fmap. simpl. auto.
Qed.

(** What the record of a face is after [insertOrUpdateInRecord] /
    [insertOrUpdateOutRecord] / [deleteOutRecord]. *)
Lemma getInRecord_insert now face interest e g :
  PitEntry_getInRecord (PitEntry_insertOrUpdateInRecord now face interest e) g =
  if decide (g = face)
  then Some (InRecord_update now interest (default (InRecord_new face) (PitEntry_getInRecord e face)))
  else PitEntry_getInRecord e g.
Proof. by apply (insert_update_find ir_face (InRecord_update now interest)). Qed.

Lemma getOutRecord_insert now face interest e g :
  PitEntry_getOutRecord (PitEntry_insertOrUpdateOutRecord now face interest e) g =
  if decide (g = face)
  then Some (FaceRecord_update now interest (default (FaceRecord_new face) (PitEntry_getOutRecord e face)))
  else PitEntry_getOutRecord e g.
Proof. by apply (insert_update_find fr_face (FaceRecord_update now interest)). Qed.

Lemma getOutRecord_delete face e g : PitEntry_ok e →
  PitEntry_getOutRecord (PitEntry_deleteOutRecord face e) g =
  if decide (g = face) then None else PitEntry_getOutRecord e g.
Proof. intros Hok. apply (find_erase_first fr_face). apply (ok_out _ Hok). Qed.

(** ** Forwarding decisions *)

Lemma existsb_bool {A} (p : A → bool) l : existsb p l = true ↔ ∃ x, x ∈ l ∧ p x = true.
Proof. rewrite existsb_exists. setoid_rewrite list_elem_of_In. done. Qed.

Lemma existsb_false {A} (p : A → bool) l : existsb p l = false ↔ ∀ x, x ∈ l → p x = false.
Proof.
  rewrite <-not_true_iff_false, existsb_bool. split.
  - intros Hn x Hx. apply not_true_iff_false. eauto.
  - intros Hf (x & Hx & Hp). by rewrite Hf in Hp.
Qed.

Lemma violatesScope_spec isLocal e face :
  PitEntry_violatesScope isLocal e face = true ↔
  isLocal face = false ∧
  (LOCALHOST_NAME `prefix_of` pe_name e ∨
   LOCALHOP_NAME `prefix_of` pe_name e ∧ ∀ r, r ∈ pe_inRecords e → isLocal (ir_face r) = false).
Proof.
  unfold PitEntry_violatesScope. rewrite <-!isPrefixOf_true, <-existsb_false.
  fold (PitEntry_hasLocalInRecord isLocal e).
  destruct (isLocal face), (isPrefixOf LOCALHOST_NAME (pe_name e)), (isPrefixOf LOCALHOP_NAME (pe_name e)),
    (PitEntry_hasLocalInRecord isLocal e); naive_solver.
Qed.

Lemma canForwardTo_true isLocal now e face :
  PitEntry_canForwardTo isLocal now e face = true ↔
  (∀ r, r ∈ pe_outRecords e → fr_face r = face → fr_expiry r < now) ∧
  (∃ r, r ∈ pe_inRecords e ∧ ir_face r ≠ face ∧ now <= fr_expiry (ir_record r)) ∧
  PitEntry_violatesScope isLocal e face = false.
Proof.
  unfold PitEntry_canForwardTo.
  destruct (existsb _ (pe_outRecords e)) eqn:Eo.
  - split; [done|]. intros (Ho & _). apply existsb_bool in Eo as (r & Hr & [Hf%bool_decide_eq_true Ht%Z.leb_le]%andb_prop).
    specialize (Ho r Hr Hf). lia.
  - rewrite existsb_false in Eo.
    assert (Ho : ∀ r, r ∈ pe_outRecords e → fr_face r = face → fr_expiry r < now).
    { intros r Hr Hf. specialize (Eo r Hr). rewrite bool_decide_eq_true_2 in Eo by done. simpl in Eo. lia. }
    destruct (existsb _ (pe_inRecords e)) eqn:Ei; simpl.
    + rewrite negb_true_iff. apply existsb_bool in Ei as (r & Hr & [Hf%negb_true_iff Ht%Z.leb_le]%andb_prop).
      apply bool_decide_eq_false in Hf. naive_solver.
    + split; [done|]. intros (_ & (r & Hr & Hf & Ht) & _). rewrite existsb_false in Ei. specialize (Ei r Hr).
      rewrite bool_decide_eq_false_2 in Ei by done. simpl in Ei. lia.
Qed.

(** *** [findNonce] *)

Lemma findNonce_loop_testbit i j nonce face dnw l k : 0 <= i → 0 <= j → 0 <= k →
  Z.testbit (findNonce_loop (Z.shiftl 1 i) (Z.shiftl 1 j) nonce face dnw l) k =
  Z.testbit dnw k ||
  existsb (λ r, (fr_lastNonce r =? nonce) &&
                ((bool_decide (fr_face r = face) && (k =? i)) || (negb (bool_decide (fr_face r = face)) && (k =? j)))) l.
Proof.
  intros Hi Hj Hk. unfold findNonce_loop. revert dnw. induction l as [|r l IH]; intros dnw; simpl; [by rewrite orb_false_r|].
  rewrite IH. destruct (fr_lastNonce r =? nonce); simpl; [|done].
  assert (Hb : ∀ n, 0 <= n → Z.testbit (Z.shiftl 1 n) k = (k =? n)).
  { intros n Hn. rewrite Z.shiftl_1_l, Z.pow2_bits_eqb, Z.eqb_sym; done. }
  case_bool_decide; simpl; rewrite Z.lor_spec, Hb, orb_assoc by done; by rewrite ?orb_false_r.
Qed.

Lemma findNonce_testbit e nonce face k : 0 <= k →
  Z.testbit (PitEntry_findNonce e nonce face) k =
  existsb (λ r, (fr_lastNonce r =? nonce) &&
    ((bool_decide (fr_face r = face) && (k =? 0)) || (negb (bool_decide (fr_face r = face)) && (k =? 1))))
    (ir_record <$> pe_inRecords e) ||
  existsb (λ r, (fr_lastNonce r =? nonce) &&
    ((bool_decide (fr_face r = face) && (k =? 2)) || (negb (bool_decide (fr_face r = face)) && (k =? 3))))
    (pe_outRecords e).
Proof.
  intros Hk. unfold PitEntry_findNonce, DUPLICATE_NONCE_IN_SAME, DUPLICATE_NONCE_IN_OTHER,
    DUPLICATE_NONCE_OUT_SAME, DUPLICATE_NONCE_OUT_OTHER. rewrite !findNonce_loop_testbit by done.
  change (Z.testbit DUPLICATE_NONCE_NONE k) with (Z.testbit 0 k). by rewrite Z.bits_0.
Qed.

(** No bit is set exactly when no record carries the nonce. *)
Lemma findNonce_loop_nonneg same other nonce face dnw l : 0 <= same → 0 <= other → 0 <= dnw →
  0 <= findNonce_loop same other nonce face dnw l.
Proof.
  unfold findNonce_loop. intros Hs Ho. revert dnw. induction l as [|r l IH]; intros dnw Hd; simpl; [done|].
  apply IH. case_match; [case_bool_decide; apply Z.lor_nonneg; auto|done].
Qed.

Lemma findNonce_NONE e nonce face :
  PitEntry_findNonce e nonce face = DUPLICATE_NONCE_NONE ↔
  (∀ r, r ∈ pe_inRecords e → fr_lastNonce (ir_record r) ≠ nonce) ∧
  (∀ r, r ∈ pe_outRecords e → fr_lastNonce r ≠ nonce).
Proof.
  split.
  - intros E. assert (Hb : ∀ k, 0 <= k → Z.testbit (PitEntry_findNonce e nonce face) k = false)
      by (intros k _; rewrite E; apply Z.bits_0).
    assert (Hcase : ∀ r b c l, (∀ k, 0 <= k → existsb (λ r, (fr_lastNonce r =? nonce) &&
      ((bool_decide (fr_face r = face) && (k =? b)) || (negb (bool_decide (fr_face r = face)) && (k =? c)))) l = false) →
      0 <= b → 0 <= c → r ∈ l → fr_lastNonce r ≠ nonce).
    { intros r b c l Hl Hb0 Hc0 Hr Hn. pose proof (proj1 (existsb_false _ _) (Hl b Hb0) r Hr) as H1.
      pose proof (proj1 (existsb_false _ _) (Hl c Hc0) r Hr) as H2. cbv beta in H1, H2.
      rewrite Hn, !Z.eqb_refl in *. case_bool_decide; simpl in *; try done; by rewrite ?orb_true_r in *. }
    assert (Hor : ∀ k, 0 <= k → _ = false ∧ _ = false) by
      (intros k Hk; pose proof (Hb k Hk) as Hk'; rewrite findNonce_testbit in Hk' by done; exact (orb_false_elim _ _ Hk')).
    split; intros r Hr.
    + apply (Hcase _ 0 1 (ir_record <$> pe_inRecords e)); [intros k Hk; apply (Hor k Hk)|done|done|].
      by apply list_elem_of_fmap_2.
    + apply (Hcase _ 2 3 (pe_outRecords e)); [intros k Hk; apply (Hor k Hk)|done|done|done].
  - intros [Hi Ho]. unfold PitEntry_findNonce.
    assert (Hskip : ∀ same other l dnw, (∀ r, r ∈ l → fr_lastNonce r ≠ nonce) →
      findNonce_loop same other nonce face dnw l = dnw).
    { intros same other l. unfold findNonce_loop. induction l as [|r l IH]; intros dnw Hl; simpl; [done|].
      rewrite (proj2 (Z.eqb_neq _ _)) by (apply Hl; set_solver). apply IH. set_solver. }
    rewrite (Hskip _ _ (ir_record <$> pe_inRecords e)); [by apply Hskip|].
    intros r (r' & -> & Hr)%list_elem_of_fmap. by apply Hi.
Qed.
