(* ===== verification/Pit.v ===== *)
(** * PIT: [daemon/table/pit.cpp]

    The Pending Interest Table is another view of the name tree: the PIT entries
    of a name are attached to its name-tree entry, and each points back to it.
    PIT entries are shared objects; they live in a heap of their own, where an
    erased entry remains for those who still hold a pointer, detached from the
    tree. *)

From S2P Require Import Prelude CityHash Packets FibEntry NameTree NameTreeFacts PitEntry.

Record Pit := mkPit {
  pit_nt : NameTree;
  pit_entries : gmap pit_ptr PitEntry;
  pit_next : pit_ptr;
  pit_nItems : Z
}.

Definition alter_pit (f : PitEntry → PitEntry) (p : pit_ptr) (P : Pit) : Pit :=
  mkPit (pit_nt P) (alter f p (pit_entries P)) (pit_next P) (pit_nItems P).
Definition set_nt (t : NameTree) (P : Pit) : Pit := mkPit t (pit_entries P) (pit_next P) (pit_nItems P).

(** The PIT entries attached to a name-tree entry *)
Definition getPitEntries (t : NameTree) (a : nt_ptr) : list pit_ptr := default [] (e_pit <$> nt_heap t !! a).

Section pit.
Context `{WireEncoding} (matchesData : Interest → Data → bool).

Definition Pit_new (t : NameTree) : Pit := mkPit t ∅ 1 0.

(** [interest] is the Interest of the PIT entry at [p]. *)
Definition sameInterest (P : Pit) (interest : Interest) (p : pit_ptr) : bool :=
  match pit_entries P !! p with
  | Some entry => bool_decide (i_name (pe_interest entry) = i_name interest) &&
                  bool_decide (i_selectors (pe_interest entry) = i_selectors interest)
  | None => false
  end.

(** [name_tree::Entry::insertPitEntry], [erasePitEntry]: both objects change. *)
Definition Pit_attach (nte : nt_ptr) (p : pit_ptr) (P : Pit) : Pit :=
  alter_pit (setNameTreeEntry (Some nte)) p (set_nt (alter_entry (insertPitEntry p) nte (pit_nt P)) P).
Definition Pit_detach (nte : nt_ptr) (p : pit_ptr) (P : Pit) : Pit :=
  alter_pit (setNameTreeEntry None) p (set_nt (alter_entry (erasePitEntry p) nte (pit_nt P)) P).

Definition Pit_insert (P : Pit) (interest : Interest) : (pit_ptr * bool) * Pit :=
  let '(nte, t) := NameTree_lookup (pit_nt P) (i_name interest) in
  let P := set_nt t P in
  match find_if (sameInterest P interest) (getPitEntries t nte) with
  | Some p => ((p, false), P)
  | None =>
      let p := pit_next P in
      let P := mkPit (pit_nt P) (<[p := PitEntry_new interest]> (pit_entries P)) (Pos.succ p) (pit_nItems P) in
      let P := Pit_attach nte p P in
      ((p, true), mkPit (pit_nt P) (pit_entries P) (pit_next P) (u64 (pit_nItems P + 1)))
  end.

Definition pit_satisfies (P : Pit) (q : PitEntry → bool) (p : pit_ptr) : bool :=
  match pit_entries P !! p with Some entry => q entry | None => false end.

Definition Pit_findAll (P : Pit) (name : Name) (q : PitEntry → bool) : list pit_ptr :=
  nte ← NameTree_findAllMatches (pit_nt P) name hasPitEntries;
  filter (λ p, pit_satisfies P q p = true) (getPitEntries (pit_nt P) nte).

Definition Pit_findAllDataMatches (P : Pit) (data : Data) : list pit_ptr :=
  Pit_findAll P (d_name data) (λ entry, matchesData (pe_interest entry) data).

Definition Pit_findAllDataMatchesByName (P : Pit) (name : Name) : list pit_ptr :=
  Pit_findAll P name (λ entry, bool_decide (i_name (pe_interest entry) = name)).

(** [None]: the entry is not in the table (its name-tree entry is null). *)
Definition Pit_erase (P : Pit) (p : pit_ptr) : option Pit :=
  entry ← pit_entries P !! p;
  nte ← pe_nameTreeEntry entry;
  let P := Pit_detach nte p P in
  let '(_, t) := NameTree_eraseEntryIfEmpty (pit_nt P) nte in
  Some (mkPit t (pit_entries P) (pit_next P) (u64 (pit_nItems P - 1))).

(** ** Invariant *)

(** The PIT entries in the table. *)
Definition live (P : Pit) (p : pit_ptr) : Prop := ∃ e a, pit_entries P !! p = Some e ∧ pe_nameTreeEntry e = Some a.
Definition live_pits (P : Pit) : gset pit_ptr :=
  dom (filter (λ kv, is_Some (pe_nameTreeEntry kv.2)) (pit_entries P)).

Record pit_wf (P : Pit) : Prop := {
  pw_tree : nt_wf (pit_nt P);
  pw_pruned : pruned (nt_heap (pit_nt P));
  pw_back p e a : pit_entries P !! p = Some e → pe_nameTreeEntry e = Some a →
    ∃ f, nt_heap (pit_nt P) !! a = Some f ∧ p ∈ e_pit f ∧ e_prefix f = pe_name e;
  pw_in a f p : nt_heap (pit_nt P) !! a = Some f → p ∈ e_pit f →
    ∃ e, pit_entries P !! p = Some e ∧ pe_nameTreeEntry e = Some a;
  pw_nodup a f : nt_heap (pit_nt P) !! a = Some f → NoDup (e_pit f);
  pw_selectors p q e f a : pit_entries P !! p = Some e → pit_entries P !! q = Some f →
    pe_nameTreeEntry e = Some a → pe_nameTreeEntry f = Some a →
    i_selectors (pe_interest e) = i_selectors (pe_interest f) → p = q;
  pw_nItems : pit_nItems P = u64 (Z.of_nat (size (live_pits P)));
  pw_fresh p : is_Some (pit_entries P !! p) → (p < pit_next P)%positive
}.

(** What is attached to names besides PIT entries. *)
Definition non_pit (q : Payload) := (p_fib q, p_measurements q, p_strategyChoice q).

Lemma elem_of_live_pits P p : p ∈ live_pits P ↔ live P p.
Proof.
  unfold live_pits, live. rewrite elem_of_dom. split.
  - intros [e [He [a Ha]]%map_lookup_filter_Some]. eauto.
  - intros (e & a & He & Ha). exists e. apply map_lookup_filter_Some. simpl. eauto.
Qed.

Lemma sameInterest_true P i p : sameInterest P i p = true ↔
  ∃ e, pit_entries P !! p = Some e ∧ pe_name e = i_name i ∧ i_selectors (pe_interest e) = i_selectors i.
Proof.
  clear matchesData.
  unfold sameInterest. destruct (pit_entries P !! p) as [e|]; [|naive_solver].
  rewrite andb_true_iff, !bool_decide_eq_true. unfold pe_name. naive_solver.
Qed.

Lemma insertPitEntry_update p : payload_update (insertPitEntry p).
Proof. done. Qed.
Lemma erasePitEntry_update p : payload_update (erasePitEntry p).
Proof. done. Qed.

Lemma pit_payload_ne e p : p ∈ e_pit e → payload e ≠ no_payload.
Proof. intros Hp E. unfold payload, no_payload in E. injection E as _ E _ _. rewrite E in Hp. by apply elem_of_nil in Hp. Qed.

(** The name of a live PIT entry leads to its name-tree entry. *)
Lemma live_entry_at P p e a : pit_wf P → pit_entries P !! p = Some e → pe_nameTreeEntry e = Some a →
  entry_at (nt_heap (pit_nt P)) (pe_name e) a.
Proof. intros W He Ha. destruct (pw_back _ W _ _ _ He Ha) as (f & Hf & _ & <-). by exists f. Qed.

(** *** Changing the tree without touching PIT entries *)

Definition same_pits (h h' : gmap nt_ptr NtEntry) : Prop :=
  (∀ a f, h !! a = Some f → e_pit f ≠ [] → ∃ f', h' !! a = Some f' ∧ e_prefix f' = e_prefix f ∧ e_pit f' = e_pit f) ∧
  (∀ a f, h' !! a = Some f → e_pit f ≠ [] → ∃ f', h !! a = Some f' ∧ e_prefix f' = e_prefix f ∧ e_pit f' = e_pit f).

Lemma payload_pit_nil e : payload e = no_payload → e_pit e = [].
Proof. intros E. unfold payload, no_payload in E. by injection E. Qed.

Lemma nt_grow_same_pits Q h h' : nt_grow Q h h' → same_pits h h'.
Proof.
  intros G. split; intros a f Hf Hne.
  - destruct (grow_old _ _ _ G _ _ Hf) as (f' & ? & ? & E). exists f'. split_and!; [done|done|]. by injection E.
  - destruct (grow_survives _ _ _ _ _ G Hf) as (f' & ? & ? & E); [intros E; by apply Hne, payload_pit_nil|].
    exists f'. split_and!; [done|done|]. by injection E.
Qed.

Lemma same_pits_sym h h' : same_pits h h' → same_pits h' h.
Proof. intros [? ?]. by split. Qed.

Lemma set_nt_wf P t' : pit_wf P → nt_wf t' → pruned (nt_heap t') → same_pits (nt_heap (pit_nt P)) (nt_heap t') →
  pit_wf (set_nt t' P).
Proof.
  intros W Ht Hp [S1 S2]. destruct W. split; simpl; auto.
  - intros p e a He Ha. destruct (pw_back0 _ _ _ He Ha) as (f & Hf & Hin & Hn).
    destruct (S1 _ _ Hf) as (f' & ? & Hp' & Hpit); [intros E; rewrite E in Hin; by apply elem_of_nil in Hin|].
    exists f'. rewrite Hp', Hpit. done.
  - intros a f p Hf Hin. destruct (S2 _ _ Hf) as (f' & ? & Hp' & Hpit); [intros E; rewrite E in Hin; by apply elem_of_nil in Hin|].
    rewrite <-Hpit in Hin. eauto.
  - intros a f Hf. destruct (decide (e_pit f = [])) as [->|Hne]; [constructor|].
    destruct (S2 _ _ Hf Hne) as (f' & ? & _ & <-). eauto.
Qed.

(** ** [insert] *)

(** The table has an entry with this Name and Selectors. *)
Definition pit_has (P : Pit) (interest : Interest) (p : pit_ptr) : Prop :=
  live P p ∧ ∃ e, pit_entries P !! p = Some e ∧ pe_name e = i_name interest ∧
    i_selectors (pe_interest e) = i_selectors interest.

Record insert_post (P : Pit) (interest : Interest) (p : pit_ptr) (isNew : bool) (P' : Pit) : Prop := {
  ins_wf : pit_wf P';
  ins_has : pit_has P' interest p;
  ins_new : isNew = true → (∀ q, ¬ pit_has P interest q) ∧
    ∃ a, pit_entries P' !! p = Some (setNameTreeEntry (Some a) (PitEntry_new interest));
  ins_old : isNew = false → pit_has P interest p;
  ins_frame q : q ≠ p ∨ isNew = false → pit_entries P' !! q = pit_entries P !! q;
  ins_live : live_pits P' = {[p]} ∪ live_pits P;
  ins_payload n : non_pit (payload_at (pit_nt P') n) = non_pit (payload_at (pit_nt P) n)
}.

Lemma live_pits_insert P p e a : pit_entries P !! p = None → pe_nameTreeEntry e = Some a →
  dom (filter (λ kv, is_Some (pe_nameTreeEntry kv.2)) (<[p := e]> (pit_entries P))) = {[p]} ∪ live_pits P.
Proof.
  intros Hp Ha. rewrite map_filter_insert_True by (simpl; eauto). by rewrite dom_insert_L.
Qed.

Lemma pit_lookup_pits P n a t1 e : pit_wf P → room (pit_nt P) n → NameTree_lookup (pit_nt P) n = (a, t1) →
  nt_heap t1 !! a = Some e → ∀ p, p ∈ e_pit e ↔ ∃ x b, pit_entries P !! p = Some x ∧ pe_nameTreeEntry x = Some b ∧ pe_name x = n.
Proof.
  intros W Hr Hl He p. pose proof (pw_tree _ W) as Wt.
  destruct (lookup_payload _ n a t1 Wt Hr Hl) as (e' & He' & Hn & Hpay & W1 & _). assert (e' = e) as -> by congruence.
  assert (Hpit : e_pit e = p_pit (payload_at (pit_nt P) n)) by (by rewrite <-Hpay). rewrite Hpit. split.
  - intros Hp. destruct (payload_at_cases _ n Wt) as [(b & f & Hf & Hfn & E)|[_ E]]; rewrite E in Hp; [|by apply elem_of_nil in Hp].
    destruct (pw_in _ W b f p Hf Hp) as (x & Hx & Hxb). exists x, b. split_and!; [done|done|].
    destruct (live_entry_at P p x b W Hx Hxb) as (f' & ? & ?). congruence.
  - intros (x & b & Hx & Hxb & <-). destruct (pw_back _ W _ _ _ Hx Hxb) as (f & Hf & Hin & Hfn).
    rewrite <-Hfn. by rewrite (payload_at_entry _ b f).
Qed.

Lemma Pit_insert_found P interest nte t p : pit_wf P → room (pit_nt P) (i_name interest) →
  NameTree_lookup (pit_nt P) (i_name interest) = (nte, t) →
  find_if (sameInterest (set_nt t P) interest) (getPitEntries t nte) = Some p →
  insert_post P interest p false (set_nt t P).
Proof.
  clear matchesData.
  intros W Hr Hl Hf. pose proof (lookup_spec _ _ _ _ (pw_tree _ W) Hr Hl) as [W1 (e & He & Hn) G Hpr _].
  assert (Hpit : getPitEntries t nte = e_pit e) by (unfold getPitEntries; by rewrite He). rewrite Hpit in Hf.
  apply find_if_Some in Hf as [Hp Hs]. apply sameInterest_true in Hs as (x & Hx & Hxn & Hxs). simpl in Hx.
  apply (pit_lookup_pits P _ _ _ _ W Hr Hl He) in Hp as Hp'. destruct Hp' as (x' & b & Hx' & Hxb & _). simplify_eq.
  assert (Hhas : pit_has P interest p) by (split; [by exists x, b|by exists x]).
  split; [|done|done|done|done| |].
  - apply set_nt_wf; [done|done| |by eapply nt_grow_same_pits].
    intros c f Hc. destruct (decide (c = nte)) as [->|Hne]; [|by eapply Hpr; [apply W|..]].
    assert (f = e) as -> by congruence. destruct (isEmpty e) eqn:E; [|done].
    apply isEmpty_true in E as [_ E]. by destruct (pit_payload_ne e p Hp).
  - apply set_eq. intros q. rewrite elem_of_union, elem_of_singleton, !elem_of_live_pits. destruct Hhas as [Hlive _].
    unfold live in *. simpl. naive_solver.
  - intros n. simpl. by rewrite (nt_grow_payload _ _ _ n (pw_tree _ W) W1 G).
Qed.

Lemma Pit_insert_created P interest nte t : pit_wf P → room (pit_nt P) (i_name interest) →
  NameTree_lookup (pit_nt P) (i_name interest) = (nte, t) →
  find_if (sameInterest (set_nt t P) interest) (getPitEntries t nte) = None →
  let p := pit_next P in
  let e := setNameTreeEntry (Some nte) (PitEntry_new interest) in
  insert_post P interest p true
    (mkPit (alter_entry (insertPitEntry p) nte t) (<[p := e]> (pit_entries P)) (Pos.succ p) (u64 (pit_nItems P + 1))).
Proof.
  clear matchesData.
  intros W Hr Hl Hf p e. pose proof (lookup_spec _ _ _ _ (pw_tree _ W) Hr Hl) as [W1 (f0 & Hf0 & Hn0) G _ _].
  destruct (lookup_alter_spec _ _ _ _ (insertPitEntry p) (pw_tree _ W) Hr Hl (insertPitEntry_update p))
    as (f0' & Hf0' & _ & Hpay & W2 & E2 & P2). assert (f0' = f0) as -> by congruence.
  pose proof (pit_lookup_pits P _ _ _ _ W Hr Hl Hf0) as Hpits.
  assert (Hpit : getPitEntries t nte = e_pit f0) by (unfold getPitEntries; by rewrite Hf0). rewrite Hpit in Hf.
  assert (Hfr : pit_entries P !! p = None).
  { apply eq_None_not_Some. intros Hs. pose proof (pw_fresh _ W _ Hs). subst p. lia. }
  assert (Hpf : p ∉ e_pit f0) by (rewrite Hpits, Hfr; naive_solver).
  assert (Hnone : ∀ q, ¬ pit_has P interest q).
  { intros q [(x & b & Hx & Hb) (x' & Hx' & Hxn & Hxs)]. simplify_eq.
    assert (Hq : q ∈ e_pit f0) by (apply Hpits; eauto).
    rewrite find_if_None in Hf. specialize (Hf q Hq).
    assert (sameInterest (set_nt t P) interest q = true) by (apply sameInterest_true; eauto). congruence. }
  destruct (nt_grow_same_pits _ _ _ G) as [S1 S2].
  assert (Hnodup0 : NoDup (e_pit f0)).
  { destruct (decide (e_pit f0 = [])) as [->|Hne]; [constructor|].
    destruct (S2 _ _ Hf0 Hne) as (f' & Hf' & _ & <-). by eapply pw_nodup. }
  assert (Hmem : ∀ a f, nt_heap (alter_entry (insertPitEntry p) nte t) !! a = Some f → ∀ q, q ∈ e_pit f ↔
    (a = nte ∧ q = p) ∨ ∃ f', nt_heap t !! a = Some f' ∧ q ∈ e_pit f').
  { intros a f Ha q. rewrite lookup_alter_entry in Ha. case_decide as E.
    - subst a. rewrite Hf0 in Ha. injection Ha as <-. simpl. rewrite elem_of_app, list_elem_of_singleton. naive_solver.
    - naive_solver. }
  split; simpl.
  - split; simpl.
    + done.
    + apply P2; [apply W|]. apply (pit_payload_ne _ p). simpl. set_solver.
    + intros q x a [[<- <-]|[Hq Hx]]%lookup_insert_Some Ha.
      * injection Ha as <-. exists (insertPitEntry p f0). rewrite lookup_alter_eq, Hf0. simpl.
        split_and!; [done|set_solver|done].
      * destruct (pw_back _ W _ _ _ Hx Ha) as (f & Hfa & Hin & Hfn).
        destruct (S1 _ _ Hfa) as (f' & Hf' & Hp' & Hpit'); [intros E; rewrite E in Hin; by apply elem_of_nil in Hin|].
        destruct (decide (a = nte)) as [->|Hne].
        -- exists (insertPitEntry p f0). rewrite lookup_alter_eq, Hf0. assert (f' = f0) as -> by congruence. simpl.
           split_and!; [done| |congruence]. rewrite Hpit'. set_solver.
        -- exists f'. rewrite lookup_alter_ne by done. rewrite Hpit', Hp'. done.
    + intros a f q Ha Hq. apply (Hmem a f Ha) in Hq as [[-> ->]|(f' & Hf' & Hq)].
      * exists e. by rewrite lookup_insert_eq.
      * destruct (S2 _ _ Hf') as (g & Hg & _ & Hgp); [intros E; rewrite E in Hq; by apply elem_of_nil in Hq|].
        rewrite <-Hgp in Hq. destruct (pw_in _ W _ _ _ Hg Hq) as (x & Hx & Hxa). exists x.
        rewrite lookup_insert_ne by congruence. done.
    + intros a f Ha. destruct (decide (a = nte)) as [->|Hne].
      * rewrite lookup_alter_eq, Hf0 in Ha. injection Ha as <-. simpl. apply NoDup_app.
        split_and!; [done| |apply NoDup_singleton]. intros q Hq ->%list_elem_of_singleton. done.
      * rewrite lookup_alter_ne in Ha by done. destruct (decide (e_pit f = [])) as [->|Hn]; [constructor|].
        destruct (S2 _ _ Ha Hn) as (f' & Hf' & _ & <-). by eapply pw_nodup.
    + intros q1 q2 x1 x2 a H1 H2 A1 A2 Hs.
      apply lookup_insert_Some in H1 as [[<- <-]|[Hq1 H1]], H2 as [[<- <-]|[Hq2 H2]]; [done| | |by eapply pw_selectors].
      all: exfalso; simpl in *; simplify_eq.
      * destruct (pw_back _ W _ _ _ H2 A2) as (f & Hfa & Hin & Hfn).
        assert (Hq : q2 ∈ e_pit f0).
        { destruct (S1 _ _ Hfa) as (f' & Hf' & _ & Hpit'); [intros E; rewrite E in Hin; by apply elem_of_nil in Hin|].
          congruence. }
        apply Hpits in Hq as (y & c & Hy & Hc & Hyn). apply (Hnone q2). split; [by exists y, c|exists y].
        split_and!; [done|done|congruence].
      * destruct (pw_back _ W _ _ _ H1 A1) as (f & Hfa & Hin & Hfn).
        assert (Hq : q1 ∈ e_pit f0).
        { destruct (S1 _ _ Hfa) as (f' & Hf' & _ & Hpit'); [intros E; rewrite E in Hin; by apply elem_of_nil in Hin|].
          congruence. }
        apply Hpits in Hq as (y & c & Hy & Hc & Hyn). apply (Hnone q1). split; [by exists y, c|exists y].
        split_and!; [done|done|congruence].
    + rewrite (pw_nItems _ W). unfold live_pits at 2. simpl. rewrite (live_pits_insert P p e nte) by done.
      rewrite size_union, size_singleton.
      * unfold u64. rewrite Zplus_mod_idemp_l. f_equal. lia.
      * intros q ->%elem_of_singleton (x & b & Hx & _)%elem_of_live_pits. congruence.
    + intros q [<-|Hq]%lookup_insert_is_Some'; [subst p; lia|]. pose proof (pw_fresh _ W _ Hq). subst p. lia.
  - split; [exists e, nte|exists e]; simpl; by rewrite lookup_insert_eq.
  - intros _. split; [done|]. exists nte. by rewrite lookup_insert_eq.
  - done.
  - intros q [Hq|]; [|done]. by rewrite lookup_insert_ne.
  - unfold live_pits at 1. simpl. by apply (live_pits_insert P p e nte).
  - intros n. rewrite E2. case_decide as E; [|done]. subst n. rewrite <-Hpay. done.
Qed.

Lemma Pit_insert_spec P interest p isNew P' : pit_wf P → room (pit_nt P) (i_name interest) →
  Pit_insert P interest = ((p, isNew), P') → insert_post P interest p isNew P'.
Proof.
  intros W Hr Hi. unfold Pit_insert in Hi. destruct (NameTree_lookup (pit_nt P) (i_name interest)) as [nte t] eqn:Hl.
  destruct (find_if _ _) as [q|] eqn:Hf; injection Hi as <- <- <-.
  - by eapply Pit_insert_found.
  - pose proof (Pit_insert_created P interest nte t W Hr Hl Hf) as Hc. simpl in *.
    rewrite alter_insert_eq. exact Hc.
Qed.

(** ** [erase] *)

Record pit_erase_post (P : Pit) (p : pit_ptr) (e : PitEntry) (P' : Pit) : Prop := {
  era_wf : pit_wf P';
  era_entry : pit_entries P' = <[p := setNameTreeEntry None e]> (pit_entries P);
  era_live : live_pits P' = live_pits P ∖ {[p]};
  era_payload n : non_pit (payload_at (pit_nt P') n) = non_pit (payload_at (pit_nt P) n)
}.

(** A name-tree entry of the table after the erasure, seen from before it. *)
Lemma erased_pits P p nte f0 t' : pit_wf P → nt_heap (pit_nt P) !! nte = Some f0 → p ∈ e_pit f0 →
  nt_grow (λ m, m `prefix_of` e_prefix f0) (nt_heap t') (nt_heap (alter_entry (erasePitEntry p) nte (pit_nt P))) →
  (∀ a f, nt_heap t' !! a = Some f →
     ∃ g, nt_heap (pit_nt P) !! a = Some g ∧ e_prefix g = e_prefix f ∧ NoDup (e_pit f) ∧
          ∀ q, q ∈ e_pit f ↔ q ∈ e_pit g ∧ q ≠ p) ∧
  (∀ a g q, nt_heap (pit_nt P) !! a = Some g → q ∈ e_pit g → q ≠ p →
     ∃ f, nt_heap t' !! a = Some f ∧ e_prefix f = e_prefix g ∧ q ∈ e_pit f).
Proof.
  intros W Hf0 Hp G.
  assert (Hmid : ∀ a g, nt_heap (pit_nt P) !! a = Some g →
    ∃ f, nt_heap (alter_entry (erasePitEntry p) nte (pit_nt P)) !! a = Some f ∧ e_prefix f = e_prefix g ∧
      NoDup (e_pit f) ∧ ∀ q, q ∈ e_pit f ↔ q ∈ e_pit g ∧ q ≠ p).
  { intros a g Hg. rewrite lookup_alter_entry. pose proof (pw_nodup _ W _ _ Hg) as Hnd. case_decide as E.
    - subst a. rewrite Hg. assert (g = f0) as -> by congruence. exists (erasePitEntry p f0). simpl.
      split_and!; [done|done|by apply swap_erase_NoDup|]. intros q. by apply elem_of_swap_erase.
    - exists g. split_and!; [done|done|done|]. intros q. split; [|tauto]. intros Hq. split; [done|]. intros ->.
      destruct (pw_in _ W _ _ _ Hg Hq) as (x & Hx & Hxa), (pw_in _ W _ _ _ Hf0 Hp) as (y & Hy & Hya). congruence. }
  split.
  - intros a f Hf. destruct (grow_old _ _ _ G _ _ Hf) as (f1 & Hf1 & Hp1 & Hq1). injection Hq1 as _ Hpit _ _.
    destruct (nt_heap (pit_nt P) !! a) as [g|] eqn:Hg.
    + destruct (Hmid _ _ Hg) as (f2 & Hf2 & Hp2 & Hnd & Hin). assert (f2 = f1) as -> by congruence.
      exists g. rewrite <-Hpit. split_and!; [done|congruence|done|done].
    + rewrite lookup_alter_entry in Hf1. case_decide; [subst a|]; congruence.
  - intros a g q Hg Hq Hne. destruct (Hmid _ _ Hg) as (f1 & Hf1 & Hp1 & _ & Hin).
    assert (Hq1 : q ∈ e_pit f1) by (by apply Hin).
    destruct (grow_survives _ _ _ _ _ G Hf1 (pit_payload_ne _ _ Hq1)) as (f & Hf & Hpf & Hqf).
    injection Hqf as _ Hpit _ _. exists f. rewrite Hpit. split_and!; [done|congruence|done].
Qed.

Lemma live_pits_delete P p e a : pit_entries P !! p = Some e → pe_nameTreeEntry e = Some a →
  dom (filter (λ kv, is_Some (pe_nameTreeEntry kv.2)) (<[p := setNameTreeEntry None e]> (pit_entries P))) =
  live_pits P ∖ {[p]} ∧ p ∈ live_pits P.
Proof.
  intros Hp Ha. split; [|apply elem_of_live_pits; by exists e, a].
  rewrite map_filter_insert_False by (simpl; by intros [??]). rewrite map_filter_delete. by rewrite dom_delete_L.
Qed.

Lemma Pit_erase_spec P p e : pit_wf P → pit_entries P !! p = Some e → is_Some (pe_nameTreeEntry e) →
  ∃ P', Pit_erase P p = Some P' ∧ pit_erase_post P p e P'.
Proof.
  intros W He [nte Hn]. unfold Pit_erase. rewrite He. simpl. rewrite Hn. simpl.
  destruct (pw_back _ W _ _ _ He Hn) as (f0 & Hf0 & Hp & Hf0n).
  destruct (NameTree_eraseEntryIfEmpty (alter_entry (erasePitEntry p) nte (pit_nt P)) nte) as [r t'] eqn:Hr.
  destruct (alter_erase_spec _ nte f0 _ r t' (pw_tree _ W) Hf0 (erasePitEntry_update p) Hr) as (W' & E' & P' & G').
  destruct (erased_pits P p nte f0 t' W Hf0 Hp G') as [Hold Hkeep].
  destruct (live_pits_delete P p e nte He Hn) as [Hlive Hpl].
  assert (Hent : alter (setNameTreeEntry None) p (pit_entries P) = <[p := setNameTreeEntry None e]> (pit_entries P)).
  { apply map_eq. intros q. destruct (decide (q = p)) as [->|Hq].
    - by rewrite lookup_alter_eq, lookup_insert_eq, He.
    - by rewrite lookup_alter_ne, lookup_insert_ne. }
  rewrite Hent. eexists. split; [done|]. split; simpl; [|done|exact Hlive|].
  2: { intros n. rewrite E'. case_decide as En; [|done]. subst n. by rewrite (payload_at_entry _ nte f0) by (done || apply W). }
  assert (Hns : ∀ q x a, <[p:=setNameTreeEntry None e]> (pit_entries P) !! q = Some x → pe_nameTreeEntry x = Some a →
    q ≠ p ∧ pit_entries P !! q = Some x).
  { intros q x a [[<- <-]|[Hq Hx]]%lookup_insert_Some Ha; [done|]. done. }
  split; simpl; auto.
  - apply P', W.
  - intros q x a Hx Ha. destruct (Hns q x a Hx Ha) as [Hq Hx']. destruct (pw_back _ W _ _ _ Hx' Ha) as (g & Hg & Hin & Hgn).
    destruct (Hkeep _ _ _ Hg Hin Hq) as (f & ? & ? & ?). exists f. split_and!; [done|done|congruence].
  - intros a f q Hf Hq. destruct (Hold _ _ Hf) as (g & Hg & _ & _ & Hin). destruct (proj1 (Hin q) Hq) as [Hq0 Hne].
    destruct (pw_in _ W _ _ _ Hg Hq0) as (x & Hx & Hxa). exists x. by rewrite lookup_insert_ne.
  - intros a f Hf. by destruct (Hold _ _ Hf) as (g & _ & _ & ? & _).
  - intros q1 q2 x1 x2 a H1 H2 A1 A2. destruct (Hns _ _ _ H1 A1) as [_ H1'], (Hns _ _ _ H2 A2) as [_ H2'].
    by apply (pw_selectors _ W q1 q2 x1 x2 a).
  - rewrite (pw_nItems _ W). unfold live_pits at 2. simpl. rewrite Hlive. unfold u64.
    rewrite Zminus_mod_idemp_l. f_equal. rewrite size_difference by set_solver. rewrite size_singleton.
    assert (size (live_pits P) ≠ 0%nat); [|lia]. intros E%size_empty_inv. set_solver.
  - intros q [<-|Hq]%lookup_insert_is_Some'; apply (pw_fresh _ W); eauto.
Qed.

(** ** Data matching *)

Lemma Pit_findAll_spec P name q p : pit_wf P → NoDup (computeHashSet name) →
  p ∈ Pit_findAll P name q ↔
  ∃ e, pit_entries P !! p = Some e ∧ live P p ∧ pe_name e `prefix_of` name ∧ q e = true.
Proof.
  intros W Hnd. unfold Pit_findAll. rewrite findAllMatches_spec by (done || apply W).
  rewrite list_elem_of_bind. unfold prefix_matches.
  assert (Hm : ∀ k nte, nte ∈ prefix_matches_upto (pit_nt P) hasPitEntries name k ↔
    ∃ j f, (j <= k)%nat ∧ nt_heap (pit_nt P) !! nte = Some f ∧ e_prefix f = take j name ∧ hasPitEntries f = true).
  { induction k as [|k IH]; intros nte; simpl; rewrite elem_of_app, elem_of_option_list.
    all: assert (Hat : ∀ n, match_at (pit_nt P) hasPitEntries n = Some nte ↔
      ∃ f, nt_heap (pit_nt P) !! nte = Some f ∧ e_prefix f = n ∧ hasPitEntries f = true)
      by (intros n; split; [apply match_at_Some, W|intros (f & Hf & Hfn & Hs);
            rewrite (match_at_entry _ _ n nte f (pw_tree _ W) Hf Hfn); by rewrite Hs]).
    - rewrite Hat, elem_of_nil. split.
      + intros [(f & ? & ? & ?)|[]]. exists 0%nat, f. split_and!; [lia|done..].
      + intros (j & f & Hj & ? & ? & ?). assert (j = 0%nat) as -> by lia. left. eauto.
    - rewrite Hat, IH. split.
      + intros [(f & ? & ? & ?)|(j & f & ? & ? & ? & ?)]; [exists (S k), f|exists j, f]; split_and!; (done || lia).
      + intros (j & f & Hj & ? & ? & ?). destruct (decide (j = S k)) as [->|]; [left; eauto|].
        right. exists j, f. split_and!; (done || lia). }
  split.
  - intros (nte & Hp & Hnte). apply Hm in Hnte as (j & f & _ & Hf & Hfn & _).
    unfold getPitEntries in Hp. rewrite Hf in Hp. simpl in Hp. apply list_elem_of_filter in Hp as [Hs Hp].
    destruct (pw_in _ W _ _ _ Hf Hp) as (e & He & Hea). exists e. unfold pit_satisfies in Hs. rewrite He in Hs.
    destruct (pw_back _ W _ _ _ He Hea) as (f' & Hf' & _ & Hn). simplify_eq.
    split_and!; [done|by exists e, nte| |done]. rewrite <-Hn, Hfn. apply prefix_take.
  - intros (e & He & (e' & nte & He' & Hea) & Hpre & Hs). simplify_eq.
    destruct (pw_back _ W _ _ _ He Hea) as (f & Hf & Hin & Hn). exists nte. split.
    + unfold getPitEntries. rewrite Hf. simpl. apply list_elem_of_filter. unfold pit_satisfies. by rewrite He.
    + apply Hm. exists (length (pe_name e)), f. split_and!; [by apply prefix_length|done| |].
      * rewrite Hn. by apply prefix_take_iff.
      * unfold hasPitEntries. rewrite bool_decide_eq_false_2; [done|]. intros E. rewrite E in Hin. by apply elem_of_nil in Hin.
Qed.

Lemma findAllDataMatches_spec P data p : pit_wf P → NoDup (computeHashSet (d_name data)) →
  p ∈ Pit_findAllDataMatches P data ↔
  ∃ e, pit_entries P !! p = Some e ∧ live P p ∧ pe_name e `prefix_of` d_name data ∧
       matchesData (pe_interest e) data = true.
Proof. intros W Hnd. by apply Pit_findAll_spec. Qed.

Lemma findAllDataMatchesByName_spec P name p : pit_wf P → NoDup (computeHashSet name) →
  p ∈ Pit_findAllDataMatchesByName P name ↔
  ∃ e, pit_entries P !! p = Some e ∧ live P p ∧ pe_name e = name.
Proof.
  intros W Hnd. unfold Pit_findAllDataMatchesByName. rewrite Pit_findAll_spec by done.
  setoid_rewrite bool_decide_eq_true. unfold pe_name. split; [naive_solver|].
  intros (e & ? & ? & E). exists e. rewrite E. done.
Qed.

(** ** Changes to PIT entries that keep their Interest and their place *)

(** What the table needs of an entry: its name, selectors and place *)
Definition pe_key (e : PitEntry) := (pe_name e, i_selectors (pe_interest e), pe_nameTreeEntry e).

Lemma alter_pit_wf_key P f p : pit_wf P → (∀ e, pe_key (f e) = pe_key e) →
  pit_wf (alter_pit f p P) ∧ live_pits (alter_pit f p P) = live_pits P.
Proof.
  intros W Hf.
  assert (Hl : ∀ q x, alter f p (pit_entries P) !! q = Some x → ∃ y, pit_entries P !! q = Some y ∧ pe_key x = pe_key y).
  { intros q x Hx. destruct (decide (q = p)) as [->|]; [|rewrite lookup_alter_ne in Hx by done; eauto].
    rewrite lookup_alter_eq in Hx. apply fmap_Some in Hx as (y & Hy & ->). eauto. }
  assert (Hk : ∀ q y, pit_entries P !! q = Some y → ∃ x, alter f p (pit_entries P) !! q = Some x ∧ pe_key x = pe_key y).
  { intros q y Hy. destruct (decide (q = p)) as [->|]; [|rewrite lookup_alter_ne by done; eauto].
    rewrite lookup_alter_eq, Hy. simpl. eauto. }
  assert (Hlive : live_pits (alter_pit f p P) = live_pits P).
  { apply set_eq. intros q. rewrite !elem_of_live_pits. unfold live. simpl. split.
    - intros (x & a & Hx & Ha). destruct (Hl _ _ Hx) as (y & ? & [= _ _ ?]). exists y, a. split; congruence.
    - intros (y & a & Hy & Ha). destruct (Hk _ _ Hy) as (x & ? & [= _ _ ?]). exists x, a. split; congruence. }
  split; [|done]. split; simpl; try apply W.
  - intros q x a Hx Ha. destruct (Hl _ _ Hx) as (y & Hy & [= En _ Eb]). rewrite En. rewrite Eb in Ha. by apply (pw_back _ W _ _ _ Hy).
  - intros a g q Hg Hq. destruct (pw_in _ W _ _ _ Hg Hq) as (y & Hy & Ha). destruct (Hk _ _ Hy) as (x & ? & [= _ _ ?]).
    exists x. split; congruence.
  - intros q1 q2 x1 x2 a H1 H2 A1 A2 Hs. destruct (Hl _ _ H1) as (y1 & ? & [= N1 I1 B1]), (Hl _ _ H2) as (y2 & ? & [= N2 I2 B2]).
    apply (pw_selectors _ W q1 q2 y1 y2 a); congruence.
  - rewrite Hlive. apply W.
  - intros q [x Hx]. destruct (Hl _ _ Hx) as (y & Hy & _). apply (pw_fresh _ W). eauto.
Qed.

Lemma alter_pit_wf P f p : pit_wf P →
  (∀ e, pe_interest (f e) = pe_interest e ∧ pe_nameTreeEntry (f e) = pe_nameTreeEntry e) →
  pit_wf (alter_pit f p P) ∧ live_pits (alter_pit f p P) = live_pits P.
Proof. intros W Hf. apply alter_pit_wf_key; [done|]. intros e. unfold pe_key, pe_name. by destruct (Hf e) as [-> ->]. Qed.
End pit.
