(* ===== verification/StrategyChoice.v ===== *)
(** * StrategyChoice: [daemon/table/strategy-choice.cpp]

    Which forwarding strategy serves which namespace.  Strategies are installed
    under their names; a StrategyChoice entry on the name tree selects one for a
    prefix, and the effective strategy of a name is that of its longest prefix
    with an entry.  Changing an entry resets the strategy information on the
    part of the name tree whose effective strategy changes. *)

From S2P Require Import Prelude CityHash Packets FibEntry NameTree NameTreeFacts NameTreeEnum PitEntry Pit.

(** The strategy instances, a [std::map] ordered by name, and the entry count. *)
Record StrategyChoice := mkStrategyChoice { sc_instances : list Name; sc_nItems : Z }.

Definition hasStrategyChoiceEntry (e : NtEntry) : bool := bool_decide (is_Some (e_strategyChoice e)).
Definition getStrategyChoiceEntry (t : NameTree) (a : nt_ptr) : option StrategyChoiceEntry :=
  e ← nt_heap t !! a; e_strategyChoice e.

Section strategy_choice.
Context `{WireEncoding, NameOrder}.

(** ** Installed strategies *)

(** [m_strategyInstances.lower_bound(n)]: the elements from there on *)
Fixpoint lower_bound (n : Name) (l : list Name) : list Name :=
  match l with
  | [] => []
  | m :: l' => if name_lt m n then lower_bound n l' else m :: l'
  end.

(** [m_strategyInstances\[n\] = strategy] for a name that is not there *)
Fixpoint instances_insert (n : Name) (l : list Name) : list Name :=
  match l with
  | [] => [n]
  | m :: l' => if name_lt m n then m :: instances_insert n l' else n :: m :: l'
  end.

Fixpoint getStrategy_loop (strategyName : Name) (candidate : option Name) (l : list Name) : option Name :=
  match l with
  | [] => candidate
  | m :: l' =>
      if isPrefixOf strategyName m then
        if (length m - length strategyName =? 0)%nat then Some m
        else if (length m - length strategyName =? 1)%nat then getStrategy_loop strategyName (Some m) l'
        else getStrategy_loop strategyName candidate l'
      else candidate
  end.

Definition StrategyChoice_getStrategy (c : StrategyChoice) (strategyName : Name) : option Name :=
  getStrategy_loop strategyName None (lower_bound strategyName (sc_instances c)).

Definition StrategyChoice_hasStrategy (c : StrategyChoice) (strategyName : Name) (isExact : bool) : bool :=
  if isExact then bool_decide (strategyName ∈ sc_instances c)
  else bool_decide (is_Some (StrategyChoice_getStrategy c strategyName)).

Definition StrategyChoice_install (c : StrategyChoice) (strategyName : Name) : bool * StrategyChoice :=
  if StrategyChoice_hasStrategy c strategyName true then (false, c)
  else (true, mkStrategyChoice (instances_insert strategyName (sc_instances c)) (sc_nItems c)).

(** ** Effective strategy; [None]: an assertion fails *)

Definition StrategyChoice_findEffectiveStrategy (t : NameTree) (prefix : Name) : option Name :=
  nte ← NameTree_findLongestPrefixMatch t prefix hasStrategyChoiceEntry;
  entry ← getStrategyChoiceEntry t nte;
  sce_strategy entry.

Definition StrategyChoice_findEffectiveStrategy_nte (t : NameTree) (nte : nt_ptr) : option Name :=
  match getStrategyChoiceEntry t nte with
  | Some entry => sce_strategy entry
  | None =>
      nte ← NameTree_findLongestPrefixMatch_entry t nte hasStrategyChoiceEntry;
      entry ← getStrategyChoiceEntry t nte;
      sce_strategy entry
  end.

(** [findEffectiveStrategy(pitEntry)] *)
Definition StrategyChoice_findEffectiveStrategy_pit (P : Pit) (p : pit_ptr) : option Name :=
  entry ← pit_entries P !! p;
  nte ← pe_nameTreeEntry entry;
  StrategyChoice_findEffectiveStrategy_nte (pit_nt P) nte.

Definition StrategyChoice_get (t : NameTree) (prefix : Name) : bool * Name :=
  match nte ← NameTree_findExactMatch t prefix; entry ← getStrategyChoiceEntry t nte; sce_strategy entry with
  | Some s => (true, s)
  | None => (false, [])
  end.

(** ** Changing the strategy of a prefix *)

Definition MeasurementsEntry_clearStrategyInfo (m : MeasurementsEntry) : MeasurementsEntry :=
  mkMeasurementsEntry (me_name m) (me_expiry m) (me_cleanup m) (clearStrategyInfoHost (me_info m)).

Definition clearStrategyInfo (P : Pit) (nte : nt_ptr) : Pit :=
  let P := foldl (λ P p, alter_pit PitEntry_clearStrategyInfo p P) P (getPitEntries (pit_nt P) nte) in
  set_nt (alter_entry (λ e, setMeasurementsEntry (MeasurementsEntry_clearStrategyInfo <$> e_measurements e) e) nte (pit_nt P)) P.

(** The selector of the enumeration in [changeStrategy]; name-tree entries are
    told apart by their prefixes. *)
Definition changeStrategy_selector (prefix : Name) (nte : NtEntry) : bool * bool :=
  if bool_decide (e_prefix nte = prefix) then (true, true)
  else if hasStrategyChoiceEntry nte then (false, false)
  else (true, true).

Definition StrategyChoice_changeStrategy (P : Pit) (prefix oldStrategy newStrategy : Name) : Pit :=
  if bool_decide (oldStrategy = newStrategy) then P
  else
    let ntChanged := NameTree_partialEnumerate (pit_nt P) prefix (changeStrategy_selector prefix) in
    foldl clearStrategyInfo P ntChanged.

Definition set_strategy (prefix : Name) (s : option Name) (nte : nt_ptr) (P : Pit) : Pit :=
  set_nt (alter_entry (setStrategyChoiceEntry (Some (mkStrategyChoiceEntry prefix s))) nte (pit_nt P)) P.

Definition StrategyChoice_insert (P : Pit) (c : StrategyChoice) (prefix strategyName : Name) :
    option (bool * (Pit * StrategyChoice)) :=
  match StrategyChoice_getStrategy c strategyName with
  | None => Some (false, (P, c))
  | Some strategy =>
      let '(nte, t) := NameTree_lookup (pit_nt P) prefix in
      let P := set_nt t P in
      match getStrategyChoiceEntry t nte with
      | Some entry =>
          oldStrategy ← sce_strategy entry;
          if bool_decide (oldStrategy = strategy) then Some (true, (P, c))
          else
            let P := StrategyChoice_changeStrategy P (sce_prefix entry) oldStrategy strategy in
            Some (true, (set_strategy (sce_prefix entry) (Some strategy) nte P, c))
      | None =>
          oldStrategy ← StrategyChoice_findEffectiveStrategy t prefix;
          let P := set_strategy prefix None nte P in
          let c := mkStrategyChoice (sc_instances c) (u64 (sc_nItems c + 1)) in
          let P := StrategyChoice_changeStrategy P prefix oldStrategy strategy in
          Some (true, (set_strategy prefix (Some strategy) nte P, c))
      end
  end.

Definition StrategyChoice_erase (P : Pit) (c : StrategyChoice) (prefix : Name) : option (Pit * StrategyChoice) :=
  if bool_decide (prefix = []) then None
  else
    match NameTree_findExactMatch (pit_nt P) prefix with
    | None => Some (P, c)
    | Some nte =>
        match getStrategyChoiceEntry (pit_nt P) nte with
        | None => Some (P, c)
        | Some entry =>
            oldStrategy ← sce_strategy entry;
            parentStrategy ← StrategyChoice_findEffectiveStrategy (pit_nt P) (getParentName prefix);
            let P := StrategyChoice_changeStrategy P (sce_prefix entry) oldStrategy parentStrategy in
            let t := alter_entry (setStrategyChoiceEntry None) nte (pit_nt P) in
            let '(_, t) := NameTree_eraseEntryIfEmpty t nte in
            Some (set_nt t P, mkStrategyChoice (sc_instances c) (u64 (sc_nItems c - 1)))
        end
    end.

Definition StrategyChoice_setDefaultStrategy (P : Pit) (c : StrategyChoice) (strategy : Name) : Pit * StrategyChoice :=
  let '(_, c) := StrategyChoice_install c strategy in
  let '(nte, t) := NameTree_lookup (pit_nt P) [] in
  let P := set_strategy [] None nte (set_nt t P) in
  let c := mkStrategyChoice (sc_instances c) (u64 (sc_nItems c + 1)) in
  (set_strategy [] (Some strategy) nte P, c).

(** ** [getStrategy] *)

Definition instances_sorted (l : list Name) : Prop := StronglySorted (λ a b, name_lt a b = true) l.

(** [m] is a versioned name of the strategy [n]. *)
Definition versioned (n m : Name) : Prop := n `prefix_of` m ∧ length m = S (length n).

Lemma name_lt_asym a b : name_lt a b = true → name_lt b a = false.
Proof.
  intros Hab. destruct (name_lt b a) eqn:E; [|done]. pose proof (name_lt_trans _ _ _ Hab E) as Haa.
  by rewrite name_lt_irrefl in Haa.
Qed.

Lemma getStrategy_loop_spec n l cand : instances_sorted l → (∀ m, m ∈ l → name_lt m n = false) →
  getStrategy_loop n cand l =
  if decide (n ∈ l) then Some n
  else match last (filter (versioned n) l) with Some m => Some m | None => cand end.
Proof.
  intros Hs. revert cand. induction Hs as [|m l Hs IH Hm]; intros cand Hge; simpl; [done|].
  rewrite Forall_forall in Hm. assert (Hge' : ∀ x, x ∈ l → name_lt x n = false) by (intros; apply Hge; set_solver).
  destruct (isPrefixOf n m) eqn:Hp.
  - apply isPrefixOf_true in Hp. pose proof (prefix_length _ _ Hp) as Hl.
    assert (Hnl : n ∉ l). { intros Hn. specialize (Hm n Hn). by rewrite (name_lt_prefix n m Hp) in Hm. }
    destruct (length m - length n =? 0)%nat eqn:E0.
    + apply Nat.eqb_eq in E0. rewrite (prefix_length_eq n m) by (done || lia). by rewrite decide_True by set_solver.
    + apply Nat.eqb_neq in E0. assert (m ≠ n) by (intros ->; lia). rewrite (decide_False (P := n ∈ m :: l)) by set_solver.
      rewrite !IH, !decide_False by done.
      destruct (length m - length n =? 1)%nat eqn:E1.
      * apply Nat.eqb_eq in E1. rewrite filter_cons_True by (split; [done|lia]).
        destruct (filter (versioned n) l) as [|y l'] eqn:Ef; [done|]. change (last (m :: y :: l')) with (last (y :: l')).
        by destruct (last (y :: l')) eqn:El; [|apply last_None in El].
      * apply Nat.eqb_neq in E1. rewrite filter_cons_False; [done|]. intros [_ ?]. lia.
  - assert (Hno : ∀ x, x ∈ m :: l → ¬ n `prefix_of` x).
    { intros x Hx Hnx. assert (n `prefix_of` m); [|by apply isPrefixOf_true in H1; congruence].
      apply elem_of_cons in Hx as [->|Hx]; [done|]. apply (name_lt_contiguous n m x); [done|apply Hge; set_solver|].
      apply name_lt_asym. auto. }
    rewrite decide_False by (intros Hn; by apply (Hno n Hn)).
    replace (filter (versioned n) (m :: l)) with (@nil Name); [done|]. symmetry.
    apply filter_none. intros x Hx [Hv _]. by apply (Hno x).
Qed.

Lemma elem_of_lower_bound n l x : instances_sorted l → x ∈ lower_bound n l ↔ x ∈ l ∧ name_lt x n = false.
Proof.
  induction 1 as [|m l Hs IH Hm]; simpl; [rewrite elem_of_nil; tauto|]. rewrite Forall_forall in Hm.
  destruct (name_lt m n) eqn:E; [rewrite IH, elem_of_cons; naive_solver congruence|]. split; [|tauto]. intros Hx. split; [done|].
  apply elem_of_cons in Hx as [->|Hx]; [done|]. destruct (name_lt x n) eqn:Ex; [|done].
  by rewrite (name_lt_trans _ _ _ (Hm x Hx) Ex) in E.
Qed.

Lemma lower_bound_sorted n l : instances_sorted l → instances_sorted (lower_bound n l).
Proof. induction 1 as [|m l Hs IH Hm]; simpl; [constructor|]. case_match; [done|]. by constructor. Qed.

Lemma filter_lower_bound n l : filter (versioned n) (lower_bound n l) = filter (versioned n) l.
Proof.
  induction l as [|m l IH]; simpl; [done|]. destruct (name_lt m n) eqn:E; [|done].
  rewrite filter_cons_False; [done|]. intros [Hp _]. by rewrite (name_lt_prefix n m Hp) in E.
Qed.

(** An exact name wins, else the greatest versioned name. *)
Lemma getStrategy_spec c n : instances_sorted (sc_instances c) →
  StrategyChoice_getStrategy c n =
  if decide (n ∈ sc_instances c) then Some n else last (filter (versioned n) (sc_instances c)).
Proof.
  intros Hs. unfold StrategyChoice_getStrategy.
  rewrite getStrategy_loop_spec by (try apply lower_bound_sorted; try done; intros m Hm; by apply elem_of_lower_bound in Hm as [_ ?]).
  rewrite filter_lower_bound.
  destruct (decide (n ∈ sc_instances c)).
  - rewrite decide_True; [done|]. apply elem_of_lower_bound; [done|]. split; [done|apply name_lt_irrefl].
  - rewrite decide_False; [by case_match|]. by intros [? _]%elem_of_lower_bound.
Qed.

Lemma instances_insert_Permutation n l : Permutation (instances_insert n l) (n :: l).
Proof. induction l as [|m l IH]; simpl; [done|]. case_match; [|done]. rewrite IH. apply Permutation_swap. Qed.

Lemma instances_insert_sorted n l : instances_sorted l → n ∉ l → instances_sorted (instances_insert n l).
Proof.
  induction 1 as [|m l Hs IH Hm]; simpl; intros Hn; [by repeat constructor|].
  destruct (name_lt m n) eqn:E.
  - constructor; [apply IH; set_solver|]. rewrite instances_insert_Permutation. by constructor.
  - assert (Hnm : name_lt n m = true) by (destruct (name_lt_total n m) as [|]; [set_solver|done|congruence]).
    constructor; [by constructor|]. constructor; [done|]. eapply Forall_impl; [done|]. intros x Hx. by eapply name_lt_trans.
Qed.

Lemma install_spec c n : instances_sorted (sc_instances c) →
  let '(r, c') := StrategyChoice_install c n in
  instances_sorted (sc_instances c') ∧ (∀ m, m ∈ sc_instances c' ↔ m = n ∨ m ∈ sc_instances c) ∧
  r = negb (bool_decide (n ∈ sc_instances c)) ∧ sc_nItems c' = sc_nItems c.
Proof.
  intros Hs. unfold StrategyChoice_install, StrategyChoice_hasStrategy. case_bool_decide as Hn; simpl.
  - split_and!; [done|naive_solver|done|done].
  - split_and!; [by apply instances_insert_sorted| |done|done]. intros m.
    by rewrite instances_insert_Permutation, elem_of_cons.
Qed.

(** ** The abstract table: entries and effective strategies *)

Definition sc_get (t : NameTree) (n : Name) : option StrategyChoiceEntry := p_strategyChoice (payload_at t n).
Definition effective (t : NameTree) (n : Name) : option Name := e ← lpm (sc_get t) n; sce_strategy e.
Definition has_sc (q : Payload) : bool := bool_decide (is_Some (p_strategyChoice q)).
Definition non_sc (q : Payload) := (p_fib q, p_pit q).

Record sc_wf (P : Pit) (c : StrategyChoice) : Prop := {
  scw_pit : pit_wf P;
  scw_sorted : instances_sorted (sc_instances c);
  scw_root : is_Some (sc_get (pit_nt P) []);
  scw_entry n e : sc_get (pit_nt P) n = Some e →
    sce_prefix e = n ∧ ∃ s, sce_strategy e = Some s ∧ s ∈ sc_instances c;
  scw_nItems : sc_nItems c = u64 (Z.of_nat (size (payload_names has_sc (pit_nt P))))
}.

(** The names between [prefix] (excluded) and [n] have no entry. *)
Definition governed {A} (get : Name → option A) (prefix n : Name) : Prop :=
  prefix `prefix_of` n ∧ ∀ q, prefix `prefix_of` q → q `prefix_of` n → q ≠ prefix → get q = None.

Lemma governed_dec {A} (get : Name → option A) prefix n : governed get prefix n ∨ ¬ governed get prefix n.
Proof.
  destruct (decide (prefix `prefix_of` n)) as [Hp|Hp]; [|right; by intros [? _]].
  destruct (decide (Forall (λ k, get (take k n) = None) (seq (S (length prefix)) (length n - length prefix)))) as [Hf|Hf].
  - left. split; [done|]. intros q Hpq Hqn Hne. rewrite Forall_forall in Hf.
    rewrite (proj1 (prefix_take_iff q n) Hqn). apply Hf. apply elem_of_seq.
    pose proof (prefix_length _ _ Hpq). pose proof (prefix_length _ _ Hqn).
    assert (length q ≠ length prefix); [|lia]. intros E. apply Hne. symmetry. apply prefix_length_eq; [done|lia].
  - right. intros [_ Hg]. apply Hf. apply Forall_forall. intros k [Hk1 Hk2]%elem_of_seq. apply prefix_length in Hp as Hl.
    apply prefix_take_iff in Hp as E. apply Hg; [|apply prefix_take|].
    + rewrite E. rewrite <-(Nat.min_l (length prefix) k) by lia. rewrite <-take_take. apply prefix_take.
    + intros E'. apply (f_equal length) in E'. rewrite length_take in E'. lia.
Qed.

Lemma lpm_governed {A} (get : Name → option A) prefix n : governed get prefix n → lpm get n = lpm get prefix.
Proof.
  intros [Hp Hg]. apply option_eq. intros x. rewrite !lpm_Some. split.
  - intros (p & Hpn & Hx & Hlong). exists p.
    assert (Hpp : p `prefix_of` prefix).
    { destruct (prefix_weak_total _ _ _ Hpn Hp) as [|Hpp]; [done|].
      destruct (decide (p = prefix)) as [->|Hne]; [done|]. rewrite (Hg p Hpp Hpn Hne) in Hx. done. }
    split_and!; [done|done|]. intros q Hq. apply Hlong. by etrans.
  - intros (p & Hpp & Hx & Hlong). exists p. split_and!; [by etrans|done|]. intros q Hq Hl.
    destruct (prefix_weak_total _ _ _ Hq Hp) as [Hqp|Hqp]; [by apply Hlong|].
    destruct (decide (q = prefix)) as [->|Hne]; [by apply Hlong|]. by apply Hg.
Qed.

Lemma lpm_here {A} (get : Name → option A) n x : get n = Some x → lpm get n = Some x.
Proof.
  intros E. apply lpm_Some. exists n. split_and!; [done|done|]. intros q Hq%prefix_length Hl. lia.
Qed.

(** Giving [prefix] another value changes the longest match of the governed names only. *)
Lemma lpm_update {A} (get get' : Name → option A) prefix n :
  (∀ m, m ≠ prefix → get' m = get m) → is_Some (get' prefix) ∨ get' prefix = None ∧ prefix ≠ [] →
  (governed get prefix n → lpm get' n = match get' prefix with
                                        | Some x => Some x
                                        | None => lpm get (getParentName prefix)
                                        end) ∧
  (¬ governed get prefix n → lpm get' n = lpm get n).
Proof.
  intros Ho Hpre. split.
  - intros Hg. assert (Hg' : governed get' prefix n).
    { destruct Hg as [Hp Hg]. split; [done|]. intros q ? ? Hne. rewrite Ho by done. auto. }
    rewrite (lpm_governed get' prefix n Hg'). destruct Hpre as [[x Hx]|[Hx Hne]]; rewrite Hx; [by apply lpm_here|].
    destruct prefix as [|d m _] using rev_ind; [done|]. rewrite getParentName_snoc.
    assert (Hgm : governed get' m (m ++ [d])).
    { split; [by apply prefix_app_r|]. intros q H1 H2 Hqm.
      assert (q = m ++ [d]) as ->; [|done]. apply prefix_length_eq; [done|]. apply prefix_length in H1 as L1.
      rewrite length_app. simpl. assert (length q ≠ length m); [|lia].
      intros E. apply Hqm. symmetry. apply prefix_length_eq; [done|lia]. }
    rewrite (lpm_governed get' m _ Hgm). apply option_eq. intros x. rewrite !lpm_Some.
    assert (Hsame : ∀ q, q `prefix_of` m → get' q = get q).
    { intros q Hq%prefix_length. apply Ho. intros ->. rewrite length_app in Hq. simpl in Hq. lia. }
    split; intros (p & Hp & Hx' & Hl); exists p; (split_and!; [done| |]); [by rewrite <-Hsame| |by rewrite Hsame|];
      intros q Hq Hql; [rewrite <-Hsame by done|rewrite Hsame by done]; by apply Hl.
  - intros Hng. apply option_eq. intros x. rewrite !lpm_Some.
    (* a longer match strictly between prefix and n, or prefix is not a prefix of n *)
    assert (Hlong : prefix `prefix_of` n → ∃ q, prefix `prefix_of` q ∧ q `prefix_of` n ∧ q ≠ prefix ∧ get q ≠ None).
    { intros Hp. destruct (decide (Forall (λ k, prefix `prefix_of` take k n → take k n ≠ prefix → get (take k n) = None)
        (seq 0 (S (length n))))) as [Hf|Hf].
      - destruct Hng. split; [done|]. intros q Hpq Hqn Hne. rewrite Forall_forall in Hf.
        rewrite (proj1 (prefix_take_iff q n) Hqn) in *. apply Hf; [|done|done]. apply elem_of_seq.
        apply prefix_length in Hqn. lia.
      - apply not_Forall_Exists in Hf; [|apply _]. apply Exists_exists in Hf as (k & _ & Hk).
        exists (take k n). destruct (decide (prefix `prefix_of` take k n)); [|by destruct Hk].
        destruct (decide (take k n = prefix)); [by destruct Hk|]. split_and!; [done|apply prefix_take|done|].
        intros E. by destruct Hk. }
    assert (Hnp : ∀ (g : Name → option A) p y, (∀ m, m ≠ prefix → g m = get m) → p `prefix_of` n → g p = Some y →
      (∀ q, q `prefix_of` n → (length p < length q)%nat → g q = None) → p ≠ prefix).
    { intros g p y Hg Hp Hy Hl ->. destruct (Hlong Hp) as (q & Hpq & Hqn & Hne & Hgq).
      rewrite <-Hg in Hgq by done. apply Hgq, Hl; [done|]. apply prefix_length in Hpq as L.
      assert (length q ≠ length prefix); [|lia]. intros E. apply Hne. symmetry. apply prefix_length_eq; [done|lia]. }
    split; intros (p & Hp & Hx & Hl);
      [pose proof (Hnp get' p x Ho Hp Hx Hl) as Hne|pose proof (Hnp get p x (λ _ _, eq_refl) Hp Hx Hl) as Hne];
      exists p; (split_and!; [done| |]).
    + by rewrite <-Ho.
    + intros q Hq Hql. destruct (decide (q = prefix)) as [->|Hqp]; [|rewrite <-Ho by done; by apply Hl].
      destruct (Hlong Hq) as (q' & H1 & H2 & H3 & H4). exfalso. apply H4. rewrite <-Ho by done.
      apply Hl; [done|]. apply prefix_length in H1. lia.
    + by rewrite Ho.
    + intros q Hq Hql. destruct (decide (q = prefix)) as [->|Hqp]; [|rewrite Ho by done; by apply Hl].
      destruct (Hlong Hq) as (q' & H1 & H2 & H3 & H4). exfalso. apply H4.
      apply Hl; [done|]. apply prefix_length in H1. lia.
Qed.

(** ** [changeStrategy] *)

Definition clear_measurements (e : NtEntry) : NtEntry :=
  setMeasurementsEntry (MeasurementsEntry_clearStrategyInfo <$> e_measurements e) e.

Lemma clear_measurements_update : payload_update clear_measurements.
Proof. done. Qed.

Lemma clear_pits_lookup l P q :
  pit_entries (foldl (λ P p, alter_pit PitEntry_clearStrategyInfo p P) P l) !! q =
  (if decide (q ∈ l) then PitEntry_clearStrategyInfo <$> pit_entries P !! q else pit_entries P !! q).
Proof.
  assert (Hidem : ∀ e, PitEntry_clearStrategyInfo (PitEntry_clearStrategyInfo e) = PitEntry_clearStrategyInfo e).
  { intros e. unfold PitEntry_clearStrategyInfo. simpl. f_equal; rewrite <-list_fmap_compose; done. }
  revert P. induction l as [|p l IH]; intros P; [done|]. simpl. rewrite IH. simpl.
  destruct (decide (q = p)) as [->|Hne].
  - rewrite lookup_alter_eq, (decide_True (P := p ∈ p :: l)) by set_solver.
    case_decide; [|done]. destruct (pit_entries P !! p); simpl; [by rewrite Hidem|done].
  - rewrite lookup_alter_ne by done. case_decide; [rewrite decide_True by set_solver|rewrite decide_False by set_solver]; done.
Qed.

Lemma clear_pits_rest l P : let P' := foldl (λ P p, alter_pit PitEntry_clearStrategyInfo p P) P l in
  pit_nt P' = pit_nt P ∧ pit_next P' = pit_next P ∧ pit_nItems P' = pit_nItems P.
Proof. revert P. induction l as [|p l IH]; intros P; [done|]. apply (IH (alter_pit PitEntry_clearStrategyInfo p P)). Qed.

Lemma clear_pits_wf l P : pit_wf P →
  let P' := foldl (λ P p, alter_pit PitEntry_clearStrategyInfo p P) P l in pit_wf P' ∧ live_pits P' = live_pits P.
Proof.
  revert P. induction l as [|p l IH]; intros P W; [done|]. simpl.
  destruct (alter_pit_wf P PitEntry_clearStrategyInfo p W) as [W' E]; [done|].
  destruct (IH _ W') as [W'' E']. split; [done|congruence].
Qed.

Lemma measurements_wf P nte : pit_wf P → pit_wf (set_nt (alter_entry clear_measurements nte (pit_nt P)) P).
Proof.
  intros W. pose proof (alter_entry_wf clear_measurements nte (pit_nt P) clear_measurements_update (pw_tree _ W)) as W'.
  assert (Hl : ∀ a e, nt_heap (alter_entry clear_measurements nte (pit_nt P)) !! a = Some e →
    ∃ f, nt_heap (pit_nt P) !! a = Some f ∧ e_prefix e = e_prefix f ∧ e_pit e = e_pit f ∧ isEmpty e = isEmpty f).
  { intros a e He. rewrite lookup_alter_entry in He. case_decide; [|eauto].
    subst a. apply fmap_Some in He as (f & Hf & ->). exists f. split_and!; [done..|].
    unfold isEmpty. simpl. by destruct (e_measurements f). }
  apply set_nt_wf; [done|done| |split].
  - intros a e He. destruct (Hl a e He) as (f & Hf & _ & _ & ->). by eapply pw_pruned.
  - intros a f Hf _. rewrite lookup_alter_entry. case_decide; [subst a; rewrite Hf; simpl; eauto|eauto].
  - intros a e He _. destruct (Hl a e He) as (f & Hf & -> & -> & _). eauto.
Qed.

(** What resetting the entries [l] of the name tree does. *)
Record cleared (l : list nt_ptr) (P P' : Pit) : Prop := {
  cl_wf : pit_wf P → pit_wf P' ∧ live_pits P' = live_pits P;
  cl_pit q : pit_entries P' !! q =
    (if decide (q ∈ l ≫= getPitEntries (pit_nt P)) then PitEntry_clearStrategyInfo <$> pit_entries P !! q else pit_entries P !! q);
  cl_nt a : nt_heap (pit_nt P') !! a =
    (if decide (a ∈ l) then clear_measurements <$> nt_heap (pit_nt P) !! a else nt_heap (pit_nt P) !! a);
  cl_tree : nt_wf (pit_nt P) → nt_wf (pit_nt P')
}.

Lemma clearStrategyInfo_cleared P nte : cleared [nte] P (clearStrategyInfo P nte).
Proof.
  unfold clearStrategyInfo. destruct (clear_pits_rest (getPitEntries (pit_nt P) nte) P) as (En & Ex & Ei).
  rewrite En. split.
  - intros W. destruct (clear_pits_wf (getPitEntries (pit_nt P) nte) P W) as [W' E'].
    split; [|rewrite <-E'; done].
    pose proof (measurements_wf _ nte W') as W''. by rewrite En in W''.
  - intros q. simpl. rewrite clear_pits_lookup, app_nil_r. done.
  - intros a. simpl. destruct (decide (a = nte)) as [->|Hne].
    + rewrite lookup_alter_eq, decide_True by set_solver. done.
    + rewrite lookup_alter_ne, decide_False by set_solver. done.
  - intros W. by apply (alter_entry_wf clear_measurements).
Qed.

Lemma cleared_pits l P P' a : cleared l P P' → getPitEntries (pit_nt P') a = getPitEntries (pit_nt P) a.
Proof.
  intros C. unfold getPitEntries. rewrite (cl_nt _ _ _ C). case_decide; [|done]. by destruct (nt_heap (pit_nt P) !! a).
Qed.

Lemma cleared_cons nte l P P1 P2 : cleared [nte] P P1 → cleared l P1 P2 → cleared (nte :: l) P P2.
Proof.
  intros C1 C2. split.
  - intros W. destruct (cl_wf _ _ _ C1 W) as [W1 E1], (cl_wf _ _ _ C2 W1) as [W2 E2]. split; [done|congruence].
  - intros q. rewrite (cl_pit _ _ _ C2), (cl_pit _ _ _ C1). simpl. rewrite app_nil_r.
    assert (E : l ≫= getPitEntries (pit_nt P1) = l ≫= getPitEntries (pit_nt P)).
    { apply list_bind_ext; [|done]. intros a. by eapply cleared_pits. }
    rewrite E. destruct (decide (q ∈ getPitEntries (pit_nt P) nte)) as [H1|H1].
    + rewrite (decide_True (P := q ∈ _ ++ _)) by set_solver. case_decide; [|done].
      destruct (pit_entries P !! q) as [e|]; [|done]. simpl. f_equal.
      unfold PitEntry_clearStrategyInfo. simpl. f_equal; rewrite <-list_fmap_compose; done.
    + case_decide; [rewrite decide_True by set_solver|rewrite decide_False by set_solver]; done.
  - intros a. rewrite (cl_nt _ _ _ C2), (cl_nt _ _ _ C1).
    destruct (decide (a = nte)) as [->|Hne].
    + rewrite (decide_True (P := nte ∈ [nte])), (decide_True (P := nte ∈ nte :: l)) by set_solver.
      case_decide; [|done]. destruct (nt_heap (pit_nt P) !! nte) as [e|]; [|done]. simpl. f_equal.
      unfold clear_measurements. simpl. by destruct (e_measurements e).
    + rewrite (decide_False (P := a ∈ [nte])) by set_solver.
      case_decide; [rewrite decide_True by set_solver|rewrite decide_False by set_solver]; done.
  - intros W. apply (cl_tree _ _ _ C2), (cl_tree _ _ _ C1), W.
Qed.

Lemma foldl_cleared l P : cleared l P (foldl clearStrategyInfo P l).
Proof.
  revert P. induction l as [|nte l IH]; intros P; simpl.
  - split; [done|..]; intros; try done; by rewrite decide_False by apply not_elem_of_nil.
  - eapply cleared_cons; [apply clearStrategyInfo_cleared|apply IH].
Qed.

Lemma cleared_payload l P P' n : nt_wf (pit_nt P) → cleared l P P' →
  non_sc (payload_at (pit_nt P') n) = non_sc (payload_at (pit_nt P) n) ∧ sc_get (pit_nt P') n = sc_get (pit_nt P) n ∧
  (∀ a, entry_at (nt_heap (pit_nt P')) n a ↔ entry_at (nt_heap (pit_nt P)) n a).
Proof.
  intros W C. pose proof (cl_tree _ _ _ C W) as W'.
  assert (He : ∀ a, entry_at (nt_heap (pit_nt P')) n a ↔ entry_at (nt_heap (pit_nt P)) n a).
  { intros a. unfold entry_at. rewrite (cl_nt _ _ _ C). case_decide; [|done].
    destruct (nt_heap (pit_nt P) !! a); simpl; [|naive_solver]. split; intros (e & [= <-] & E); eauto. }
  assert (Hpay : non_sc (payload_at (pit_nt P') n) = non_sc (payload_at (pit_nt P) n) ∧ sc_get (pit_nt P') n = sc_get (pit_nt P) n).
  { unfold sc_get. destruct (payload_at_cases (pit_nt P) n W) as [(a & e & Ha & <- & ->)|[Hn ->]].
    - pose proof (cl_nt _ _ _ C a) as Ha'. rewrite Ha in Ha'. case_decide; simpl in Ha'.
      + by rewrite (payload_at_entry _ a _ W' Ha' : payload_at _ (e_prefix e) = _).
      + by rewrite (payload_at_entry _ a _ W' Ha').
    - rewrite payload_at_None; [done|done|]. intros a. rewrite He. apply Hn. }
  destruct Hpay. done.
Qed.

(** The part of the name tree that the enumeration of [changeStrategy] covers. *)
Lemma changeStrategy_covers t prefix b eb : nt_wf t → (∃ a, entry_at (nt_heap t) prefix a) → nt_heap t !! b = Some eb →
  b ∈ NameTree_partialEnumerate t prefix (changeStrategy_selector prefix) ↔ governed (sc_get t) prefix (e_prefix eb).
Proof.
  intros Ht [a (ea & Ha & Han)] Hb. rewrite partialEnumerate_elem by done.
  assert (Hsel : ∀ x ex, nt_heap t !! x = Some ex → ∀ b, (if b : bool then (changeStrategy_selector prefix ex).1
    else (changeStrategy_selector prefix ex).2) = true ↔ (e_prefix ex ≠ prefix → sc_get t (e_prefix ex) = None)).
  { intros x ex Hx bb. unfold changeStrategy_selector, sc_get. rewrite (payload_at_entry t x ex Ht Hx). simpl.
    unfold hasStrategyChoiceEntry. case_bool_decide as E; [by destruct bb; split|].
    case_bool_decide as E'; destruct bb; simpl; split; try done; intros HH.
    all: try (rewrite HH in E' by done; by destruct E').
    all: intros _; by apply eq_None_not_Some. }
  split.
  - intros (a' & ea' & eb' & Ha' & Hn' & Hb' & Hpre & Hacc & Hvis). assert (eb' = eb) as -> by congruence. rewrite Hn' in *.
    split; [done|]. intros q Hpq Hqb Hne. destruct (decide (q = e_prefix eb)) as [->|Hqne].
    + apply (Hsel b eb Hb true); done.
    + destruct (payload_at_cases t q Ht) as [(x & ex & Hx & <- & _)|[_ E]]; [|unfold sc_get; by rewrite E].
      apply (Hsel x ex Hx false); [|done]. by apply (Hvis x ex).
  - intros [Hpre Hg]. exists a, ea, eb. rewrite <-Han in *. split_and!; [done|done|done|]. split_and!; [done| |].
    + apply (Hsel b eb Hb true). rewrite Han in *. intros Hne. by apply Hg.
    + intros x ex Hx H1 H2 _. apply (Hsel x ex Hx false). rewrite Han in *. intros Hne. by apply Hg.
Qed.

(** ** [insert] and [erase] *)

(** Nothing changes in the table but entries and strategy information. *)
Record same_table (P P' : Pit) : Prop := {
  st_wf : pit_wf P';
  st_live : live_pits P' = live_pits P;
  st_non_sc n : non_sc (payload_at (pit_nt P') n) = non_sc (payload_at (pit_nt P) n);
  st_entries q : pit_entries P' !! q = pit_entries P !! q ∨ pit_entries P' !! q = PitEntry_clearStrategyInfo <$> pit_entries P !! q
}.

Lemma clearStrategyInfo_idem e : PitEntry_clearStrategyInfo (PitEntry_clearStrategyInfo e) = PitEntry_clearStrategyInfo e.
Proof. unfold PitEntry_clearStrategyInfo. simpl. f_equal; rewrite <-list_fmap_compose; done. Qed.

Lemma same_table_intro P P' : pit_wf P' → live_pits P' = live_pits P →
  (∀ n, non_sc (payload_at (pit_nt P') n) = non_sc (payload_at (pit_nt P) n)) → pit_entries P' = pit_entries P → same_table P P'.
Proof. intros W L N Ee. split; [done..|]. intros q. left. by rewrite Ee. Qed.

Lemma same_table_trans P1 P2 P3 : same_table P1 P2 → same_table P2 P3 → same_table P1 P3.
Proof.
  intros [_ L1 N1 E1] [W L2 N2 E2]. split; [done|congruence|intros n; by rewrite N2|].
  intros q. destruct (E1 q) as [A|A], (E2 q) as [B|B]; rewrite A in B; auto. right. rewrite B.
  destruct (pit_entries P1 !! q); [|done]. simpl. by rewrite clearStrategyInfo_idem.
Qed.

Lemma changeStrategy_spec P prefix old new : pit_wf P → (∃ a, entry_at (nt_heap (pit_nt P)) prefix a) →
  let P' := StrategyChoice_changeStrategy P prefix old new in
  same_table P P' ∧
  (∀ n, sc_get (pit_nt P') n = sc_get (pit_nt P) n ∧
        ∀ a, entry_at (nt_heap (pit_nt P')) n a ↔ entry_at (nt_heap (pit_nt P)) n a) ∧
  (∀ p e, pit_entries P !! p = Some e → live P p →
    (old ≠ new → governed (sc_get (pit_nt P)) prefix (pe_name e) →
     pit_entries P' !! p = Some (PitEntry_clearStrategyInfo e)) ∧
    (old = new ∨ ¬ governed (sc_get (pit_nt P)) prefix (pe_name e) → pit_entries P' !! p = Some e)).
Proof.
  intros W Hex. unfold StrategyChoice_changeStrategy. case_bool_decide as E; simpl.
  { split_and!; [by apply same_table_intro|done|]. intros p e He _. split; [done|]. done. }
  set (l := NameTree_partialEnumerate _ _ _). pose proof (foldl_cleared l P) as C.
  set (P' := foldl clearStrategyInfo P l) in *. destruct (cl_wf _ _ _ C W) as [W' L'].
  pose proof (λ n, cleared_payload l P P' n (pw_tree _ W) C) as Hp.
  split_and!; [split; [done|done|apply Hp|intros q; rewrite (cl_pit _ _ _ C); case_decide; auto]|intros n; destruct (Hp n) as (_ & ? & ?); done|].
  intros p e He (e' & a & He' & Ha). assert (e' = e) as -> by congruence.
  destruct (pw_back _ W _ _ _ He Ha) as (f & Hf & Hin & Hn).
  assert (Hcov : p ∈ l ≫= getPitEntries (pit_nt P) ↔ governed (sc_get (pit_nt P)) prefix (pe_name e)).
  { rewrite <-Hn, <-(changeStrategy_covers (pit_nt P) prefix a f (pw_tree _ W) Hex Hf). fold l.
    rewrite list_elem_of_bind. unfold getPitEntries. split.
    - intros (b & Hb & Hbl). destruct (nt_heap (pit_nt P) !! b) as [g|] eqn:Hg; [|by apply elem_of_nil in Hb].
      simpl in Hb. destruct (pw_in _ W _ _ _ Hg Hb) as (e2 & He2 & Hb2). congruence.
    - intros Hal. exists a. rewrite Hf. done. }
  rewrite (cl_pit _ _ _ C). split.
  - intros _ Hg. rewrite decide_True by by apply Hcov. by rewrite He.
  - intros [?|Hg]; [done|]. rewrite decide_False; [done|]. by rewrite Hcov.
Qed.

Lemma sc_payload_ne e x : e_strategyChoice e = Some x → payload e ≠ no_payload.
Proof. intros E. unfold payload, no_payload. rewrite E. congruence. Qed.

(** Attaching a StrategyChoice entry to the entry that [lookup] returned. *)
Lemma set_strategy_looked_up P prefix s nte t : pit_wf P → room (pit_nt P) prefix →
  NameTree_lookup (pit_nt P) prefix = (nte, t) →
  let P1 := set_strategy prefix s nte (set_nt t P) in
  same_table P P1 ∧ entry_at (nt_heap (pit_nt P1)) prefix nte ∧ pit_entries P1 = pit_entries P ∧
  (∀ n, sc_get (pit_nt P1) n = if decide (n = prefix) then Some (mkStrategyChoiceEntry prefix s) else sc_get (pit_nt P) n).
Proof.
  intros W Hr Hl P1. set (f := setStrategyChoiceEntry (Some (mkStrategyChoiceEntry prefix s))).
  pose proof (lookup_spec _ _ _ _ (pw_tree _ W) Hr Hl) as [_ _ G _ _].
  destruct (lookup_alter_spec _ _ _ _ f (pw_tree _ W) Hr Hl) as (e & He & Hn & Hpay & W2 & E2 & P2); [done|].
  assert (W1 : pit_wf P1).
  { apply (set_nt_wf P (alter_entry f nte t)); [done|done|apply P2; [apply W|]|].
    - by apply (sc_payload_ne (f e) (mkStrategyChoiceEntry prefix s)).
    - destruct (nt_grow_same_pits _ _ _ G) as [S1 S2]. split.
      + intros a g Hg Hne. destruct (S1 a g Hg Hne) as (g' & Hg' & ? & ?). rewrite lookup_alter_entry.
        case_decide; [subst a; rewrite Hg'; simpl; eauto|eauto].
      + intros a g Hg Hne. rewrite lookup_alter_entry in Hg. case_decide; [|by apply S2].
        subst a. apply fmap_Some in Hg as (g' & Hg' & ->). by apply (S2 nte g'). }
  split_and!; [apply same_table_intro; [done|done| |done]|exists (f e)|done|].
  - intros n. unfold P1. simpl. rewrite E2. case_decide as En; [|done]. subst n. by rewrite <-Hpay.
  - unfold P1. simpl. rewrite lookup_alter_eq, He. done.
  - intros n. unfold P1, sc_get. simpl. rewrite E2. by case_decide.
Qed.

Lemma set_strategy_spec P prefix s nte : pit_wf P → entry_at (nt_heap (pit_nt P)) prefix nte →
  let P1 := set_strategy prefix s nte P in
  same_table P P1 ∧ pit_entries P1 = pit_entries P ∧
  (∀ n, sc_get (pit_nt P1) n = if decide (n = prefix) then Some (mkStrategyChoiceEntry prefix s) else sc_get (pit_nt P) n).
Proof.
  intros W (e & He & Hn) P1. set (f := setStrategyChoiceEntry (Some (mkStrategyChoiceEntry prefix s))).
  assert (Hf : payload_update f) by done.
  pose proof (λ n, payload_at_alter f (pit_nt P) nte e n Hf (pw_tree _ W) He) as E2.
  assert (W1 : pit_wf P1).
  { apply (set_nt_wf P (alter_entry f nte (pit_nt P))); [done|by apply alter_entry_wf, W| |split].
    - intros a g Hg. rewrite lookup_alter_entry in Hg. case_decide; [|by eapply pw_pruned].
      subst a. apply fmap_Some in Hg as (g' & Hg' & ->). destruct (isEmpty (f g')) eqn:Em; [|done].
      apply isEmpty_true in Em as [_ Em]. by destruct (sc_payload_ne (f g') (mkStrategyChoiceEntry prefix s) eq_refl Em).
    - intros a g Hg Hne. rewrite lookup_alter_entry. case_decide; [subst a; rewrite Hg; simpl; eauto|eauto].
    - intros a g Hg Hne. rewrite lookup_alter_entry in Hg. case_decide; [|eauto].
      subst a. apply fmap_Some in Hg as (g' & Hg' & ->). eauto. }
  split_and!; [apply same_table_intro; [done|done| |done]|done|].
  - intros n. unfold P1. simpl. rewrite E2. case_decide as En; [|done]. subst n. by rewrite (payload_at_entry _ nte e) by (done || apply W).
  - intros n. unfold P1, sc_get. simpl. rewrite E2, Hn. by case_decide.
Qed.

(** The strategy information of a PIT entry is reset exactly when the effective
    strategy of its name changes. *)
Record switch_post (P P' : Pit) : Prop := {
  sw_table : same_table P P';
  sw_pits p e : pit_entries P !! p = Some e → live P p →
    pit_entries P' !! p = Some (if decide (effective (pit_nt P') (pe_name e) = effective (pit_nt P) (pe_name e))
                                then e else PitEntry_clearStrategyInfo e)
}.

(** The common part of [insert] and [erase]: [P1] is the table the enumeration
    runs on, [P'] the final one. *)
Lemma switch_spec P P1 P2 P' prefix old new : pit_wf P →
  (* before: the same live PIT entries, the same StrategyChoice entries but for [prefix] *)
  same_table P P1 → pit_entries P1 = pit_entries P → (∃ a, entry_at (nt_heap (pit_nt P1)) prefix a) →
  (∀ n, n ≠ prefix → sc_get (pit_nt P1) n = sc_get (pit_nt P) n) →
  P2 = StrategyChoice_changeStrategy P1 prefix old new →
  (* after *)
  same_table P2 P' → pit_entries P' = pit_entries P2 →
  (∀ n, n ≠ prefix → sc_get (pit_nt P') n = sc_get (pit_nt P2) n) →
  (* the strategies of the governed names *)
  (∀ n, governed (sc_get (pit_nt P)) prefix n → effective (pit_nt P) n = Some old) →
  (∀ n, governed (sc_get (pit_nt P)) prefix n → effective (pit_nt P') n = Some new) →
  (∀ n, ¬ governed (sc_get (pit_nt P)) prefix n → effective (pit_nt P') n = effective (pit_nt P) n) →
  switch_post P P'.
Proof.
  intros W S1 E1 Hex G1 -> S2 E2 G2 Hold Hnew Hrest.
  destruct (changeStrategy_spec P1 prefix old new (st_wf _ _ S1) Hex) as (S & Hsc & Hpits).
  split; [by eapply same_table_trans, same_table_trans|].
  intros p e He Hlive.
  assert (Hlive1 : live P1 p) by (apply elem_of_live_pits; rewrite (st_live _ _ S1); by apply elem_of_live_pits).
  rewrite <-E1 in He. destruct (Hpits p e He Hlive1) as [Hg Hng]. rewrite E2.
  assert (Hgov : governed (sc_get (pit_nt P1)) prefix (pe_name e) ↔ governed (sc_get (pit_nt P)) prefix (pe_name e)).
  { unfold governed. split; intros [? Hq]; (split; [done|]); intros q ? ? Hne; [rewrite <-G1 by done|rewrite G1 by done]; auto. }
  destruct (governed_dec (sc_get (pit_nt P)) prefix (pe_name e)) as [Hgv|Hgv].
  - rewrite (Hnew _ Hgv), (Hold _ Hgv). case_decide as Eon.
    + apply Hng. left. congruence.
    + apply Hg; [congruence|by apply Hgov].
  - rewrite (Hrest _ Hgv), decide_True by done. apply Hng. right. by rewrite Hgov.
Qed.

Lemma has_sc_names_insert t t' prefix : nt_wf t → nt_wf t' →
  (∀ n, n ≠ prefix → sc_get t' n = sc_get t n) → sc_get t' prefix ≠ None → sc_get t prefix = None →
  size (payload_names has_sc t') = S (size (payload_names has_sc t)).
Proof.
  intros Ht Ht' Ho Hn Hn'.
  assert (Hq : ∀ u n, has_sc (payload_at u n) = bool_decide (is_Some (sc_get u n))) by done.
  replace (payload_names has_sc t') with ({[prefix]} ∪ payload_names has_sc t).
  - rewrite size_union; [by rewrite size_singleton|].
    intros m ->%elem_of_singleton Hm. apply elem_of_payload_names in Hm; [|done..]. rewrite Hq, Hn' in Hm. done.
  - apply set_eq. intros m. rewrite elem_of_union, elem_of_singleton, !elem_of_payload_names by done.
    rewrite !Hq, !bool_decide_eq_true. destruct (decide (m = prefix)) as [->|]; [|rewrite Ho by done; naive_solver].
    apply not_eq_None_Some in Hn. naive_solver.
Qed.

Lemma has_sc_names_ext t t' : nt_wf t → nt_wf t' → (∀ n, is_Some (sc_get t' n) ↔ is_Some (sc_get t n)) →
  payload_names has_sc t' = payload_names has_sc t.
Proof.
  intros Ht Ht' Ho. apply payload_names_ext; [done|done|done|]. intros m.
  apply bool_decide_ext, Ho.
Qed.

(** *** Effective strategies in a table *)

Lemma sc_head t n r : nt_wf t → r = head (prefix_matches t hasStrategyChoiceEntry n) →
  (nte ← r; entry ← getStrategyChoiceEntry t nte; sce_strategy entry) = effective t n.
Proof.
  intros Ht ->. unfold effective, sc_get.
  rewrite <-(lpm_head p_strategyChoice hasStrategyChoiceEntry t n Ht) by done.
  destruct (head (prefix_matches t hasStrategyChoiceEntry n)) as [a|]; [|done]. simpl.
  unfold getStrategyChoiceEntry. by destruct (nt_heap t !! a).
Qed.

Lemma findEffectiveStrategy_name t n : nt_wf t → NoDup (computeHashSet n) →
  StrategyChoice_findEffectiveStrategy t n = effective t n.
Proof. intros Ht Hnd. apply sc_head; [done|]. by apply LPM_spec. Qed.

Lemma findEffectiveStrategy_nte t nte e : nt_wf t → nt_heap t !! nte = Some e →
  StrategyChoice_findEffectiveStrategy_nte t nte = effective t (e_prefix e).
Proof.
  intros Ht He. unfold StrategyChoice_findEffectiveStrategy_nte.
  destruct (getStrategyChoiceEntry t nte) as [x|] eqn:E; [|by apply sc_head, LPM_entry_spec].
  unfold getStrategyChoiceEntry in E. rewrite He in E. simpl in E. unfold effective.
  rewrite (lpm_here _ _ x); [done|]. unfold sc_get. by rewrite (payload_at_entry t nte e).
Qed.

Lemma sc_get_entry t nte e : nt_wf t → nt_heap t !! nte = Some e → sc_get t (e_prefix e) = e_strategyChoice e.
Proof. intros Ht He. unfold sc_get. by rewrite (payload_at_entry t nte e). Qed.

Lemma effective_ext t u n : (∀ m, sc_get t m = sc_get u m) → effective t n = effective u n.
Proof. intros E. unfold effective. by rewrite (lpm_ext _ (sc_get u)). Qed.

(** Every name has an effective strategy, which is installed. *)
Lemma effective_total P c n : sc_wf P c → ∃ s, effective (pit_nt P) n = Some s ∧ s ∈ sc_instances c.
Proof.
  intros [W _ [r Hr] Hent _]. destruct (lpm (sc_get (pit_nt P)) n) as [e|] eqn:E.
  - unfold effective. rewrite E. simpl. apply lpm_Some in E as (p & _ & Hp & _).
    destruct (Hent p e Hp) as [_ (s & Hs & Hin)]. eauto.
  - exfalso. assert (∀ k, (k <= length n)%nat → lpm_upto (sc_get (pit_nt P)) n k ≠ None) as Hk.
    { induction k as [|k IH]; intros Hk; simpl; [rewrite take_0, Hr; done|]. case_match; [done|]. apply IH. lia. }
    by apply (Hk (length n)).
Qed.

Lemma findEffectiveStrategy_pit P c p e : sc_wf P c → pit_entries P !! p = Some e → live P p →
  StrategyChoice_findEffectiveStrategy_pit P p = effective (pit_nt P) (pe_name e).
Proof.
  intros Hw He (e' & a & He' & Ha). assert (e' = e) as -> by congruence. pose proof (scw_pit _ _ Hw) as W.
  unfold StrategyChoice_findEffectiveStrategy_pit. rewrite He. simpl. rewrite Ha. simpl.
  destruct (pw_back _ W _ _ _ He Ha) as (f & Hf & _ & <-). by apply findEffectiveStrategy_nte; [apply W|].
Qed.

Lemma sc_wf_update P c P' prefix strategy nItems : sc_wf P c → strategy ∈ sc_instances c → pit_wf P' →
  (∀ n, sc_get (pit_nt P') n = if decide (n = prefix) then Some (mkStrategyChoiceEntry prefix (Some strategy)) else sc_get (pit_nt P) n) →
  nItems = u64 (sc_nItems c + if decide (sc_get (pit_nt P) prefix = None) then 1 else 0) →
  sc_wf P' (mkStrategyChoice (sc_instances c) nItems).
Proof.
  intros [W S R E I] Hs W' Hg Hn. split; simpl; [done|done| | |].
  - rewrite Hg. destruct (decide ([] = prefix)); [eauto|exact R].
  - intros n e. rewrite Hg. destruct (decide (n = prefix)); [|apply E]. intros [= <-]. subst n. simpl. eauto.
  - rewrite Hn, I. case_decide as Hp.
    + rewrite (has_sc_names_insert (pit_nt P) (pit_nt P') prefix).
      * unfold u64. rewrite Zplus_mod_idemp_l. f_equal. lia.
      * apply W.
      * apply W'.
      * intros n Hne. by rewrite Hg, decide_False.
      * by rewrite Hg, decide_True.
      * done.
    + rewrite (has_sc_names_ext (pit_nt P) (pit_nt P')); [unfold u64; rewrite Z.add_0_r; by rewrite Zmod_mod|apply W|apply W'|].
      intros n. rewrite Hg. destruct (decide (n = prefix)); [|done]. subst n. apply not_eq_None_Some in Hp. naive_solver.
Qed.

Lemma insert_switch P P1 P' prefix nte old strategy : pit_wf P →
  same_table P P1 → pit_entries P1 = pit_entries P → entry_at (nt_heap (pit_nt P1)) prefix nte →
  (∀ n, n ≠ prefix → sc_get (pit_nt P1) n = sc_get (pit_nt P) n) →
  effective (pit_nt P) prefix = Some old →
  P' = set_strategy prefix (Some strategy) nte (StrategyChoice_changeStrategy P1 prefix old strategy) →
  switch_post P P' ∧ pit_wf P' ∧
  (∀ n, sc_get (pit_nt P') n = if decide (n = prefix) then Some (mkStrategyChoiceEntry prefix (Some strategy)) else sc_get (pit_nt P) n).
Proof.
  intros W S1 E1 Hat G1 Hold ->. set (P2 := StrategyChoice_changeStrategy P1 prefix old strategy).
  destruct (changeStrategy_spec P1 prefix old strategy (st_wf _ _ S1) (ex_intro _ nte Hat)) as (S2 & Hsc & _). fold P2 in S2, Hsc.
  assert (Hat2 : entry_at (nt_heap (pit_nt P2)) prefix nte) by (by apply Hsc).
  destruct (set_strategy_spec P2 prefix (Some strategy) nte (st_wf _ _ S2) Hat2) as (S3 & E3 & G3).
  set (P' := set_strategy prefix (Some strategy) nte P2) in *.
  assert (Hg : ∀ n, sc_get (pit_nt P') n = if decide (n = prefix) then Some (mkStrategyChoiceEntry prefix (Some strategy)) else sc_get (pit_nt P) n).
  { intros n. rewrite G3. case_decide; [done|]. destruct (Hsc n) as [-> _]. by apply G1. }
  split_and!; [|apply S3|done].
  assert (Hu : ∀ m, m ≠ prefix → sc_get (pit_nt P') m = sc_get (pit_nt P) m) by (intros m Hm; by rewrite Hg, decide_False).
  assert (Hpre : sc_get (pit_nt P') prefix = Some (mkStrategyChoiceEntry prefix (Some strategy))) by (by rewrite Hg, decide_True).
  pose proof (λ n, lpm_update (sc_get (pit_nt P)) (sc_get (pit_nt P')) prefix n Hu (or_introl (mk_is_Some _ _ Hpre))) as Hl.
  apply (switch_spec P P1 P2 P' prefix old strategy); try done.
  - by exists nte.
  - intros n Hne. by rewrite G3, decide_False.
  - intros n Hgov. rewrite <-Hold. unfold effective. by rewrite (lpm_governed _ _ _ Hgov).
  - intros n Hgov. unfold effective. rewrite (proj1 (Hl n) Hgov), Hpre. done.
  - intros n Hgov. unfold effective. by rewrite (proj2 (Hl n) Hgov).
Qed.

Lemma lookup_payload_sc P prefix nte t : pit_wf P → room (pit_nt P) prefix →
  NameTree_lookup (pit_nt P) prefix = (nte, t) → getStrategyChoiceEntry t nte = sc_get (pit_nt P) prefix.
Proof.
  intros W Hr Hl. destruct (lookup_payload _ _ _ _ (pw_tree _ W) Hr Hl) as (e & He & _ & Hpay & _).
  unfold getStrategyChoiceEntry, sc_get. rewrite He, <-Hpay. done.
Qed.

(** A lookup of a name that has a StrategyChoice entry changes no table. *)
Lemma lookup_same_table P prefix nte t x : pit_wf P → room (pit_nt P) prefix →
  NameTree_lookup (pit_nt P) prefix = (nte, t) → sc_get (pit_nt P) prefix = Some x →
  same_table P (set_nt t P) ∧ entry_at (nt_heap t) prefix nte ∧ ∀ n, sc_get t n = sc_get (pit_nt P) n.
Proof.
  intros W Hr Hl Hx. pose proof (lookup_spec _ _ _ _ (pw_tree _ W) Hr Hl) as [W1 Hat G Hpr _].
  destruct (lookup_payload _ _ _ _ (pw_tree _ W) Hr Hl) as (e & He & _ & Hpay & _ & E1).
  split_and!; [apply same_table_intro; [|done|intros n; by rewrite <-E1|done]|done|intros n; unfold sc_get; by rewrite E1].
  apply set_nt_wf; [done|done| |by eapply nt_grow_same_pits].
  intros a f Hf. destruct (decide (a = nte)) as [->|Hne]; [|by eapply Hpr; [apply W|..]].
  assert (f = e) as -> by congruence. destruct (isEmpty e) eqn:Em; [|done]. apply isEmpty_true in Em as [_ Em].
  unfold sc_get in Hx. rewrite <-Hpay, Em in Hx. done.
Qed.

Lemma StrategyChoice_insert_spec P c prefix strategyName strategy : sc_wf P c → room (pit_nt P) prefix →
  NoDup (computeHashSet prefix) → StrategyChoice_getStrategy c strategyName = Some strategy →
  ∃ P' c', StrategyChoice_insert P c prefix strategyName = Some (true, (P', c')) ∧ sc_wf P' c' ∧ switch_post P P' ∧
    ∀ n, sc_get (pit_nt P') n = if decide (n = prefix) then Some (mkStrategyChoiceEntry prefix (Some strategy)) else sc_get (pit_nt P) n.
Proof.
  intros Hw Hr Hnd Hs. pose proof (scw_pit _ _ Hw) as W.
  assert (Hin : strategy ∈ sc_instances c).
  { rewrite getStrategy_spec in Hs by apply Hw. case_decide; [by simplify_eq|].
    apply last_Some_elem_of in Hs. by apply list_elem_of_filter in Hs as [_ ?]. }
  unfold StrategyChoice_insert. rewrite Hs. destruct (NameTree_lookup (pit_nt P) prefix) as [nte t] eqn:Hl.
  rewrite (lookup_payload_sc P prefix nte t) by done.
  destruct (sc_get (pit_nt P) prefix) as [entry|] eqn:Hx.
  - destruct (lookup_same_table P prefix nte t entry W Hr Hl Hx) as (S1 & Hat & G1).
    destruct (scw_entry _ _ Hw prefix entry Hx) as [Hep (old & Hold & Holdin)]. rewrite Hold, Hep. simpl.
    assert (Heff : effective (pit_nt P) prefix = Some old) by (unfold effective; by rewrite (lpm_here _ _ _ Hx)).
    case_bool_decide as Eo.
    + subst old. exists (set_nt t P), c. split; [done|].
      assert (Hg : ∀ n, sc_get t n = if decide (n = prefix) then Some (mkStrategyChoiceEntry prefix (Some strategy)) else sc_get (pit_nt P) n).
      { intros n. rewrite G1. case_decide; [|done]. subst n. rewrite Hx. f_equal. destruct entry. simpl in *. congruence. }
      split_and!; [| |done].
      * destruct c as [inst k]. apply (sc_wf_update P (mkStrategyChoice inst k) (set_nt t P) prefix strategy k); [done|done|apply S1|done|].
        rewrite Hx. simpl. pose proof (scw_nItems _ _ Hw) as Hk. simpl in Hk. rewrite Hk. unfold u64. by rewrite Z.add_0_r, Zmod_mod.
      * split; [done|]. intros p e He _. simpl. rewrite decide_True; [done|]. by apply effective_ext.
    + destruct (insert_switch P (set_nt t P) (set_strategy prefix (Some strategy) nte
        (StrategyChoice_changeStrategy (set_nt t P) prefix old strategy)) prefix nte old strategy)
        as (Hsw & W' & Hg); try done.
      eexists _, c. split; [done|]. split_and!; [|done|done].
      destruct c as [inst k]. apply (sc_wf_update P (mkStrategyChoice inst k) _ prefix strategy k Hw Hin W' Hg).
      rewrite Hx. simpl. pose proof (scw_nItems _ _ Hw) as Hk. simpl in Hk. rewrite Hk. unfold u64. by rewrite Z.add_0_r, Zmod_mod.
  - destruct (lookup_payload _ _ _ _ (pw_tree _ W) Hr Hl) as (_ & _ & _ & _ & Wt & Et).
    rewrite findEffectiveStrategy_name by done.
    rewrite (effective_ext t (pit_nt P)) by (intros m; unfold sc_get; by rewrite Et).
    destruct (effective_total P c prefix Hw) as (old & Hold & _). rewrite Hold. simpl.
    destruct (set_strategy_looked_up P prefix None nte t W Hr Hl) as (S1 & Hat & E1 & G1).
    destruct (insert_switch P (set_strategy prefix None nte (set_nt t P)) (set_strategy prefix (Some strategy) nte
      (StrategyChoice_changeStrategy (set_strategy prefix None nte (set_nt t P)) prefix old strategy)) prefix nte old strategy)
      as (Hsw & W' & Hg); try done.
    { intros n Hne. by rewrite G1, decide_False. }
    eexists _, _. split; [done|]. split_and!; [|done|done].
    apply (sc_wf_update P c _ prefix strategy _ Hw Hin W' Hg). by rewrite Hx.
Qed.

Lemma detach_strategy P c prefix nte t r e : sc_wf P c → prefix ≠ [] → nt_heap (pit_nt P) !! nte = Some e → e_prefix e = prefix →
  NameTree_eraseEntryIfEmpty (alter_entry (setStrategyChoiceEntry None) nte (pit_nt P)) nte = (r, t) →
  same_table P (set_nt t P) ∧ (∀ n, sc_get t n = if decide (n = prefix) then None else sc_get (pit_nt P) n).
Proof.
  intros Hw Hne He Hn Hr. pose proof (scw_pit _ _ Hw) as W.
  destruct (alter_erase_spec _ _ _ (setStrategyChoiceEntry None) r t (pw_tree _ W) He) as (Wt & Et & Pt & Gt); [done|done|].
  split; [apply same_table_intro; [|done| |done]|].
  - apply set_nt_wf; [done|done|apply Pt, W|].
    apply nt_grow_same_pits, same_pits_sym in Gt as [S1 S2]. split.
    + intros a g Hg Hp. destruct (decide (a = nte)) as [->|Hane].
      * assert (g = e) as -> by congruence. apply (S1 nte (setStrategyChoiceEntry None e)); [|done].
        by rewrite lookup_alter_entry, decide_True, He.
      * apply S1; [|done]. by rewrite lookup_alter_entry, decide_False.
    + intros a g Hg Hp. destruct (S2 a g Hg Hp) as (f' & Hf' & ? & ?). rewrite lookup_alter_entry in Hf'.
      case_decide; [|eauto]. subst a. rewrite He in Hf'. injection Hf' as <-. eauto.
  - intros n. simpl. rewrite Et. case_decide as En; [|done]. subst n. by rewrite (payload_at_entry _ nte e) by (done || apply W).
  - intros n. unfold sc_get. rewrite Et, Hn. by case_decide.
Qed.

Lemma StrategyChoice_erase_spec P c prefix : sc_wf P c → prefix ≠ [] → NoDup (computeHashSet (getParentName prefix)) →
  ∃ P' c', StrategyChoice_erase P c prefix = Some (P', c') ∧ sc_wf P' c' ∧ switch_post P P' ∧
    ∀ n, sc_get (pit_nt P') n = if decide (n = prefix) then None else sc_get (pit_nt P) n.
Proof.
  intros Hw Hne Hnd. pose proof (scw_pit _ _ Hw) as W. unfold StrategyChoice_erase. rewrite bool_decide_eq_false_2 by done.
  assert (Hnone : sc_get (pit_nt P) prefix = None → sc_wf P c ∧ switch_post P P ∧
    ∀ n, sc_get (pit_nt P) n = if decide (n = prefix) then None else sc_get (pit_nt P) n).
  { intros Hx. split_and!; [done| |intros n; case_decide; by subst].
    split; [by apply same_table_intro|]. intros p e He _. by rewrite decide_True. }
  destruct (NameTree_findExactMatch (pit_nt P) prefix) as [nte|] eqn:Hf.
  2: { eexists _, _. split; [done|]. apply Hnone. rewrite findExactMatch_None in Hf by apply W.
       unfold sc_get. by rewrite payload_at_None by (done || apply W). }
  apply findExactMatch_entry in Hf as (e & He & Hn); [|apply W].
  assert (Hgx : getStrategyChoiceEntry (pit_nt P) nte = sc_get (pit_nt P) prefix).
  { unfold getStrategyChoiceEntry. rewrite He, <-Hn. by rewrite (sc_get_entry _ nte e) by (done || apply W). }
  rewrite Hgx. destruct (sc_get (pit_nt P) prefix) as [entry|] eqn:Hx; [|eexists _, _; split; [done|]; by apply Hnone].
  destruct (scw_entry _ _ Hw prefix entry Hx) as [Hep (old & Hold & _)]. rewrite Hold, Hep. simpl.
  rewrite findEffectiveStrategy_name by (done || apply W).
  destruct (effective_total P c (getParentName prefix) Hw) as (parent & Hpar & Hpin). rewrite Hpar. simpl.
  set (P2 := StrategyChoice_changeStrategy P prefix old parent).
  assert (Hex : ∃ a, entry_at (nt_heap (pit_nt P)) prefix a) by (exists nte, e; done).
  destruct (changeStrategy_spec P prefix old parent W Hex) as (S2 & Hsc & _). fold P2 in S2, Hsc.
  destruct (NameTree_eraseEntryIfEmpty (alter_entry (setStrategyChoiceEntry None) nte (pit_nt P2)) nte) as [r t] eqn:Hr.
  assert (Hat : entry_at (nt_heap (pit_nt P2)) prefix nte) by (apply Hsc; by exists e).
  destruct Hat as (e2 & He2 & Hn2).
  assert (Hw2 : sc_wf P2 c).
  { destruct Hw as [_ S R E I]. split; [apply S2|done| | |].
    - by destruct (Hsc []) as [-> _].
    - intros n x. destruct (Hsc n) as [-> _]. apply E.
    - rewrite I. do 3 f_equal. symmetry. apply has_sc_names_ext; [apply W|apply S2|]. intros n. by destruct (Hsc n) as [-> _]. }
  destruct (detach_strategy P2 c prefix nte t r e2 Hw2 Hne He2 Hn2 Hr) as [S3 G3].
  assert (Hg : ∀ n, sc_get t n = if decide (n = prefix) then None else sc_get (pit_nt P) n).
  { intros n. rewrite G3. case_decide; [done|]. by destruct (Hsc n) as [-> _]. }
  eexists _, _. split; [done|]. split_and!; [| |done].
  - destruct Hw as [_ S R E I]. split; simpl; [apply S3|done| | |].
    + rewrite Hg, decide_False by done. exact R.
    + intros n x. rewrite Hg. case_decide; [done|apply E].
    + rewrite I. rewrite (has_sc_names_insert t (pit_nt P) prefix).
      * unfold u64. rewrite Zminus_mod_idemp_l. f_equal. lia.
      * apply S3.
      * apply W.
      * intros n Hnn. by rewrite Hg, decide_False.
      * by rewrite Hx.
      * by rewrite Hg, decide_True.
  - assert (Hu : ∀ m, m ≠ prefix → sc_get t m = sc_get (pit_nt P) m) by (intros m Hm; by rewrite Hg, decide_False).
    assert (Hpre : sc_get t prefix = None) by (by rewrite Hg, decide_True).
    pose proof (λ n, lpm_update (sc_get (pit_nt P)) (sc_get t) prefix n Hu (or_intror (conj Hpre Hne))) as Hl.
    apply (switch_spec P P P2 (set_nt t P2) prefix old parent); try done.
    + by apply same_table_intro.
    + intros n Hnn. simpl. by rewrite G3, decide_False.
    + intros n Hgov. unfold effective. rewrite (lpm_governed _ _ _ Hgov), (lpm_here _ _ _ Hx). done.
    + intros n Hgov. unfold effective. simpl. rewrite (proj1 (Hl n) Hgov), Hpre. exact Hpar.
    + intros n Hgov. unfold effective. simpl. by rewrite (proj2 (Hl n) Hgov).
Qed.
(** ** The default strategy *)

(** On a table without strategies *)
Lemma setDefaultStrategy_spec P strategy : pit_wf P → room (pit_nt P) [] → (∀ n, sc_get (pit_nt P) n = None) →
  let '(P', c') := StrategyChoice_setDefaultStrategy P (mkStrategyChoice [] 0) strategy in
  sc_wf P' c' ∧ same_table P P' ∧ pit_entries P' = pit_entries P ∧ sc_instances c' = [strategy] ∧
  ∀ n, sc_get (pit_nt P') n = if decide (n = []) then Some (mkStrategyChoiceEntry [] (Some strategy)) else None.
Proof.
  intros W Hr Hnone. unfold StrategyChoice_setDefaultStrategy. simpl.
  destruct (NameTree_lookup (pit_nt P) []) as [nte t] eqn:Hl.
  destruct (set_strategy_looked_up P [] None nte t W Hr Hl) as (S1 & Hat & E1 & G1).
  destruct (set_strategy_spec (set_strategy [] None nte (set_nt t P)) [] (Some strategy) nte (st_wf _ _ S1) Hat) as (S2 & E2 & G2).
  set (P' := set_strategy [] (Some strategy) nte _) in *. assert (T : same_table P P') by (by eapply same_table_trans).
  assert (G : ∀ n, sc_get (pit_nt P') n = if decide (n = []) then Some (mkStrategyChoiceEntry [] (Some strategy)) else None).
  { intros n. rewrite G2, G1. repeat case_decide; try done. }
  split_and!; [|done|congruence|done|done]. split; cbn [sc_instances sc_nItems].
  - apply T.
  - constructor; constructor.
  - rewrite G. by eexists.
  - intros n e. rewrite G. case_decide; [|done]. intros [= <-]. subst n. split; [done|]. exists strategy.
    split; [done|]. by apply list_elem_of_singleton.
  - rewrite (has_sc_names_insert (pit_nt P) (pit_nt P') []).
    + assert (payload_names has_sc (pit_nt P) = ∅) as ->; [|by rewrite size_empty].
      apply set_eq. intros n. rewrite elem_of_payload_names by (done || apply W).
      unfold has_sc. rewrite (Hnone n : p_strategyChoice _ = None). rewrite bool_decide_eq_true. split; [by intros []|by intros ?%elem_of_empty].
    + apply W.
    + apply T.
    + intros n Hn. by rewrite G, decide_False.
    + by rewrite G.
    + apply Hnone.
Qed.
End strategy_choice.
