(* ===== verification/Measurements.v ===== *)
(** * Measurements: [daemon/table/measurements.cpp], [measurements-entry.cpp],
      [measurements-accessor.cpp]

    Entries of measured names hang on the name tree for a limited lifetime: each
    has an expiry time and a pending cleanup event.  A pointer to an entry is
    the address of its name-tree entry; [now] is the time of the call. *)

From S2P Require Import Prelude CityHash Packets FibEntry NameTree NameTreeFacts PitEntry Pit Fib StrategyChoice.


(** [Measurements::getInitialLifetime] *)
Definition Measurements_getInitialLifetime : Z := seconds 4.

Definition MeasurementsEntry_new (name : Name) : MeasurementsEntry := mkMeasurementsEntry name TimePoint_min None ∅.

Definition setExpiry (expiry : Z) (m : MeasurementsEntry) : MeasurementsEntry :=
  mkMeasurementsEntry (me_name m) expiry (me_cleanup m) (me_info m).
Definition setCleanup (time : option Z) (m : MeasurementsEntry) : MeasurementsEntry :=
  mkMeasurementsEntry (me_name m) (me_expiry m) time (me_info m).

Definition getMeasurementsEntry (t : NameTree) (a : nt_ptr) : option MeasurementsEntry :=
  e ← nt_heap t !! a; e_measurements e.

Section measurements.
Context `{WireEncoding} (now : Z).

(** [get(nte)]: the entry attached to [nte], created if need be *)
Definition Measurements_get_nte (t : NameTree) (nItems : Z) (nte : nt_ptr) : NameTree * Z :=
  match nt_heap t !! nte with
  | Some e =>
      match e_measurements e with
      | Some _ => (t, nItems)
      | None =>
          let entry := MeasurementsEntry_new (e_prefix e) in
          let nItems := u64 (nItems + 1) in
          let entry := setExpiry (now + Measurements_getInitialLifetime) entry in
          let entry := setCleanup (Some (now + Measurements_getInitialLifetime)) entry in
          (alter_entry (setMeasurementsEntry (Some entry)) nte t, nItems)
      end
  | None => (t, nItems)
  end.

Definition Measurements_get (t : NameTree) (nItems : Z) (name : Name) : nt_ptr * (NameTree * Z) :=
  let '(nte, t) := NameTree_lookup t name in
  (nte, Measurements_get_nte t nItems nte).

(** [getParent(child)]: [None] in the first place for the root entry *)
Definition Measurements_getParent (t : NameTree) (nItems : Z) (child : nt_ptr) : option nt_ptr * (NameTree * Z) :=
  match getMeasurementsEntry t child with
  | Some m =>
      if bool_decide (me_name m = []) then (None, (t, nItems))
      else
        match nt_heap t !! child ≫= e_parent with
        | Some nte => (Some nte, Measurements_get_nte t nItems nte)
        | None => (None, (t, nItems))
        end
  | None => (None, (t, nItems))
  end.

Definition measurementsSelector (pred : MeasurementsEntry → bool) (e : NtEntry) : bool :=
  match e_measurements e with Some entry => pred entry | None => false end.

Definition Measurements_findLongestPrefixMatch (t : NameTree) (name : Name) (pred : MeasurementsEntry → bool) :
    option MeasurementsEntry :=
  a ← NameTree_findLongestPrefixMatch t name (measurementsSelector pred); getMeasurementsEntry t a.

Definition Measurements_findLongestPrefixMatch_nte (t : NameTree) (nte : nt_ptr) (pred : MeasurementsEntry → bool) :
    option MeasurementsEntry :=
  a ← NameTree_findLongestPrefixMatch_entry t nte (measurementsSelector pred); getMeasurementsEntry t a.

(** [findExactMatch] looks the name up, creating its name-tree entry. *)
Definition Measurements_findExactMatch (t : NameTree) (name : Name) : option MeasurementsEntry * NameTree :=
  let '(nte, t) := NameTree_lookup t name in
  (getMeasurementsEntry t nte, t).

Definition Measurements_extendLifetime (t : NameTree) (nte : nt_ptr) (lifetime : Z) : NameTree :=
  match getMeasurementsEntry t nte with
  | None => t
  | Some entry =>
      let expiry := now + lifetime in
      if expiry <=? me_expiry entry then t
      else
        let entry := setCleanup None entry in
        let entry := setExpiry expiry entry in
        let entry := setCleanup (Some (now + lifetime)) entry in
        alter_entry (setMeasurementsEntry (Some entry)) nte t
  end.

(** The cleanup event of the entry on [nte] *)
Definition Measurements_cleanup (t : NameTree) (nItems : Z) (nte : nt_ptr) : NameTree * Z :=
  match getMeasurementsEntry t nte with
  | None => (t, nItems)
  | Some _ =>
      let t := alter_entry (setMeasurementsEntry None) nte t in
      let '(_, t) := NameTree_eraseEntryIfEmpty t nte in
      (t, u64 (nItems - 1))
  end.

(** [MeasurementsAccessor::filter] for the strategy of the accessor *)
Definition MeasurementsAccessor_filter `{NameOrder} (t : NameTree) (strategy : Name) (entry : option nt_ptr) : option nt_ptr :=
  nte ← entry;
  effectiveStrategy ← StrategyChoice_findEffectiveStrategy_nte t nte;
  if bool_decide (effectiveStrategy = strategy) then Some nte else None.

(** ** The table *)

Definition meas_get (t : NameTree) (n : Name) : option MeasurementsEntry := p_measurements (payload_at t n).
Definition has_meas (q : Payload) : bool := bool_decide (is_Some (p_measurements q)).
Definition non_meas (q : Payload) := (p_fib q, p_pit q, p_strategyChoice q).

(** Each entry is named after its name-tree entry and has its cleanup pending
    at its expiry. *)
Record meas_wf (t : NameTree) (nItems : Z) : Prop := {
  mw_tree : nt_wf t;
  mw_pruned : pruned (nt_heap t);
  mw_nItems : nItems = u64 (Z.of_nat (size (payload_names has_meas t)));
  mw_entry n m : meas_get t n = Some m → me_name m = n ∧ me_cleanup m = Some (me_expiry m)
}.

Lemma meas_get_entry t a e : nt_wf t → nt_heap t !! a = Some e → meas_get t (e_prefix e) = e_measurements e.
Proof. intros Ht He. unfold meas_get. by rewrite (payload_at_entry t a e). Qed.

Lemma meas_payload_ne e m : e_measurements e = Some m → payload e ≠ no_payload.
Proof. intros E. unfold payload, no_payload. rewrite E. congruence. Qed.

Definition fresh_measurements (n : Name) : MeasurementsEntry :=
  mkMeasurementsEntry n (now + Measurements_getInitialLifetime) (Some (now + Measurements_getInitialLifetime)) ∅.

Lemma Measurements_get_spec t nItems n nte t' nItems' : meas_wf t nItems → room t n →
  Measurements_get t nItems n = (nte, (t', nItems')) →
  meas_wf t' nItems' ∧ entry_at (nt_heap t') n nte ∧
  (∀ m, meas_get t' m = if decide (m = n) then Some (default (fresh_measurements n) (meas_get t n)) else meas_get t m) ∧
  (∀ m, non_meas (payload_at t' m) = non_meas (payload_at t m)).
Proof.
  intros [W P I E] Hr Hg. unfold Measurements_get in Hg. destruct (NameTree_lookup t n) as [a t1] eqn:Hl.
  destruct (lookup_payload t n a t1 W Hr Hl) as (e & He & Hn & Hpay & W1 & E1).
  assert (Hme : meas_get t n = e_measurements e) by (unfold meas_get; by rewrite <-Hpay).
  unfold Measurements_get_nte in Hg. rewrite He in Hg.
  destruct (e_measurements e) as [x|] eqn:Ex; injection Hg as <- <- <-; rewrite Hme.
  - assert (Hf : ∀ m, meas_get t1 m = meas_get t m) by (intros m; unfold meas_get; by rewrite E1).
    split_and!; [|by exists e| |intros m; by rewrite E1].
    + split; [done| | |].
      * intros b f Hb. destruct (decide (b = a)) as [->|]; [|by eapply (lookup_pruned _ _ _ _ (lookup_spec t n a t1 W Hr Hl))].
        assert (f = e) as -> by congruence. destruct (isEmpty e) eqn:Em; [|done].
        apply isEmpty_true in Em as [_ Em]. by destruct (meas_payload_ne _ _ Ex).
      * rewrite I. do 3 f_equal. symmetry. apply payload_names_ext; [done|done|done|]. intros m. by rewrite E1.
      * intros m y. rewrite Hf. apply E.
    + intros m. rewrite Hf. case_decide; [by subst|done].
  - rewrite Hn. change (setCleanup _ _) with (fresh_measurements n). set (f := setMeasurementsEntry (Some (fresh_measurements n))).
    destruct (lookup_alter_spec t n a t1 f W Hr Hl) as (e' & He' & _ & _ & W2 & E2 & P2); [done|].
    assert (e' = e) as -> by congruence.
    assert (Hf : ∀ m, meas_get (alter_entry f a t1) m = if decide (m = n) then Some (fresh_measurements n) else meas_get t m).
    { intros m. unfold meas_get. rewrite E2. by case_decide. }
    split_and!; [| |done|].
    + split; [done| | |].
      * apply P2; [done|]. by apply (meas_payload_ne (f e) (fresh_measurements n)).
      * rewrite I, u64_add_l. f_equal.
        rewrite (payload_names_insert has_meas t (alter_entry f a t1) n); [lia|done|done|done| | |].
        -- intros m Hm. by rewrite E2, decide_False.
        -- by rewrite E2, decide_True.
        -- unfold has_meas. apply bool_decide_eq_false, eq_None_not_Some. exact Hme.
      * intros m y. rewrite Hf. destruct (decide (m = n)); [|apply E]. intros [= <-]. by subst.
    + exists (f e). by rewrite lookup_alter_entry, decide_True, He.
    + intros m. rewrite E2. case_decide as Em; [|done]. subst m. by rewrite <-Hpay.
Qed.

(** [extendLifetime] keeps the later of two expiries, with the cleanup at it. *)
Lemma extendLifetime_spec t nItems nte lifetime e x : meas_wf t nItems → nt_heap t !! nte = Some e → e_measurements e = Some x →
  let t' := Measurements_extendLifetime t nte lifetime in
  meas_wf t' nItems ∧
  (∀ m, meas_get t' m = if decide (m = e_prefix e)
     then Some (mkMeasurementsEntry (me_name x) (Z.max (me_expiry x) (now + lifetime))
                  (Some (Z.max (me_expiry x) (now + lifetime))) (me_info x))
     else meas_get t m) ∧
  (∀ m, non_meas (payload_at t' m) = non_meas (payload_at t m)).
Proof.
  intros Hw He Hx. pose proof (mw_tree _ _ Hw) as W. pose proof (meas_get_entry t nte e W He) as Hg. rewrite Hx in Hg.
  destruct (mw_entry _ _ Hw _ _ Hg) as [Hnm Hcl].
  unfold Measurements_extendLifetime, getMeasurementsEntry. rewrite He. simpl. rewrite Hx.
  destruct (Z.leb_spec (now + lifetime) (me_expiry x)) as [Hle|Hlt]; simpl.
  - split_and!; [done| |done]. intros m. case_decide as E; [|done]. subst m. rewrite Hg. f_equal.
    rewrite Z.max_l by lia. destruct x. simpl in *. by rewrite Hcl.
  - set (f := setMeasurementsEntry _). assert (Hf : payload_update f) by done.
    pose proof (λ m, payload_at_alter f t nte e m Hf W He) as E2.
    assert (Hmg : ∀ m, meas_get (alter_entry f nte t) m = if decide (m = e_prefix e)
       then Some (mkMeasurementsEntry (me_name x) (now + lifetime) (Some (now + lifetime)) (me_info x)) else meas_get t m).
    { intros m. unfold meas_get. rewrite E2. by case_decide. }
    destruct Hw as [_ P I E]. split_and!.
    + split; [by apply alter_entry_wf| | |].
      * intros a g Ha. rewrite lookup_alter_entry in Ha. case_decide; [|by eapply P]. subst a.
        rewrite He in Ha. injection Ha as <-. destruct (isEmpty (f e)) eqn:Em; [|done]. apply isEmpty_true in Em as [_ Em].
        unfold payload, no_payload in Em. simpl in Em. congruence.
      * rewrite I. do 3 f_equal. symmetry. apply payload_names_ext; [done|by apply alter_entry_wf|done|].
        intros m. unfold has_meas. rewrite E2. case_decide; [|done]. subst m. simpl.
        unfold meas_get in Hg. by rewrite Hg.
      * intros m y. rewrite Hmg. destruct (decide (m = e_prefix e)); [|apply E]. intros [= <-]. subst m. simpl. by split.
    + intros m. rewrite Hmg. rewrite Z.max_r by lia. done.
    + intros m. rewrite E2. case_decide as Em; [|done]. subst m. by rewrite (payload_at_entry t nte e).
Qed.

Lemma cleanup_spec t nItems nte e x : meas_wf t nItems → nt_heap t !! nte = Some e → e_measurements e = Some x →
  let '(t', nItems') := Measurements_cleanup t nItems nte in
  meas_wf t' nItems' ∧
  (∀ m, meas_get t' m = if decide (m = e_prefix e) then None else meas_get t m) ∧
  (∀ m, non_meas (payload_at t' m) = non_meas (payload_at t m)).
Proof.
  intros [W P I E] He Hx. pose proof (meas_get_entry t nte e W He) as Hg. rewrite Hx in Hg.
  unfold Measurements_cleanup, getMeasurementsEntry. rewrite He. simpl. rewrite Hx.
  destruct (NameTree_eraseEntryIfEmpty (alter_entry (setMeasurementsEntry None) nte t) nte) as [r t'] eqn:Hr.
  destruct (alter_erase_spec t nte e (setMeasurementsEntry None) r t' W He) as (W' & E' & P' & _); [done|done|].
  assert (Hm : ∀ m, meas_get t' m = if decide (m = e_prefix e) then None else meas_get t m).
  { intros m. unfold meas_get. rewrite E'. by case_decide. }
  split_and!; [|done|].
  - split; [done|auto| |].
    + rewrite I, u64_sub_l. f_equal.
      rewrite (payload_names_insert has_meas t' t (e_prefix e)); [lia|done|done|done| | |].
      * intros m Hne. by rewrite E', decide_False.
      * unfold has_meas. apply bool_decide_eq_true. unfold meas_get in Hg. rewrite Hg. eauto.
      * unfold has_meas. by rewrite E', decide_True.
    + intros m y. rewrite Hm. case_decide; [done|apply E].
  - intros m. rewrite E'. case_decide as Em; [|done]. subst m. by rewrite (payload_at_entry t nte e).
Qed.

(** The exact match returns the entry of the name, but looking up a name that is
    not in the tree leaves an entry that carries nothing and has no child:
    nothing will erase it. *)
Lemma findExactMatch_result t nItems n : meas_wf t nItems → room t n →
  (Measurements_findExactMatch t n).1 = meas_get t n.
Proof.
  intros [W P I E] Hr. unfold Measurements_findExactMatch. destruct (NameTree_lookup t n) as [a t1] eqn:Hl.
  destruct (lookup_payload t n a t1 W Hr Hl) as (e & He & _ & Hpay & _).
  unfold getMeasurementsEntry, meas_get. simpl. rewrite He, <-Hpay. done.
Qed.

Lemma findExactMatch_leaks t n : nt_wf t → room t n → (∀ a, ¬ entry_at (nt_heap t) n a) →
  ¬ pruned (nt_heap (Measurements_findExactMatch t n).2).
Proof.
  intros W Hr Hno. unfold Measurements_findExactMatch. destruct (NameTree_lookup t n) as [a t1] eqn:Hl. simpl.
  destruct (lookup_spec t n a t1 W Hr Hl) as [W1 (e & He & Hn) G _ _].
  assert (Ha : nt_heap t !! a = None).
  { destruct (nt_heap t !! a) as [f|] eqn:Hf; [|done]. destruct (grow_old _ _ _ G _ _ Hf) as (e' & ? & ? & _).
    destruct (Hno a). exists f. split; congruence. }
  destruct (grow_new _ _ _ G _ _ He Ha) as [_ Hpay].
  intros Hp. specialize (Hp a e He). assert (isEmpty e = true); [|congruence]. apply isEmpty_true. split; [|done].
  destruct (e_children e) as [|c cs] eqn:Ec; [done|]. exfalso.
  assert (Hc : c ∈ e_children e) by (rewrite Ec; set_solver).
  apply (wf_children _ (proj1 W1) _ _ _ He) in Hc as (f & Hf & Hfp).
  pose proof (wf_parent _ (proj1 W1) _ _ Hf) as Hpar. rewrite Hfp in Hpar. destruct Hpar as (d & (e' & He' & Hpn) & Hs).
  assert (e' = e) as -> by congruence. rewrite <-Hpn, Hn in Hs.
  (* the child is new, so its name is a prefix of n: too long *)
  destruct (nt_heap t !! c) as [g|] eqn:Hg.
  - destruct (grow_old _ _ _ G _ _ Hg) as (f' & Hf' & Hgp & _). assert (f' = f) as -> by congruence.
    pose proof (wf_parent _ (proj1 W) _ _ Hg) as Hpar. rewrite <-Hgp, Hs in Hpar.
    destruct (e_parent g) as [q|]; [|by destruct n]. destruct Hpar as (_ & Hq & _). rewrite getParentName_snoc in Hq.
    by apply (Hno q).
  - destruct (grow_new _ _ _ G _ _ Hf Hg) as [Hpre _]. apply prefix_length in Hpre. rewrite Hs, length_app in Hpre. simpl in Hpre. lia.
Qed.
End measurements.
