(* ===== verification/DeadNonceList.v ===== *)
(** * DeadNonceList: [daemon/table/dead-nonce-list.cpp]

    A queue of 64-bit fingerprints of (Name, Nonce) pairs.  The entries carry no
    timestamps: marks are inserted at fixed intervals, and the capacity of the
    queue is adjusted so that about [EXPECTED_MARK_COUNT] marks stay in it, which
    is when entries live for about the intended lifetime. *)

From S2P Require Import Prelude CityHash Packets PitEntry.

(** The wire encoding of a name (ndn-cxx): [name.wireEncode()]. *)
Class NameWire := name_wire : Name → list Z.

Inductive DnlEvent := MarkEvent | AdjustCapacityEvent.

Record DeadNonceList := mkDeadNonceList {
  dnl_lifetime : Z;
  dnl_queue : list Z;               (* both indices: the sequence is m_queue *)
  dnl_capacity : Z;
  dnl_actualMarkCounts : list Z;    (* a multiset *)
  dnl_markInterval : Z;
  dnl_adjustCapacityInterval : Z;
  dnl_markEvent : positive;         (* event identifiers *)
  dnl_adjustCapacityEvent : positive;
  dnl_scheduled : gmap positive (Z * DnlEvent);  (* this list's pending events *)
  dnl_nextEvent : positive
}.

Definition DEFAULT_LIFETIME : Z := 6 * 1000000000.
Definition MIN_LIFETIME : Z := milliseconds 1.
Definition INITIAL_CAPACITY : Z := Z.shiftl 1 7.
Definition MIN_CAPACITY : Z := Z.shiftl 1 3.
Definition MAX_CAPACITY : Z := Z.shiftl 1 24.
Definition MARK : Z := 0.
Definition EXPECTED_MARK_COUNT : Z := 5.
Definition EVICT_LIMIT : Z := Z.shiftl 1 6.

(** [static_cast<size_t>(m_capacity * CAPACITY_UP)] and [CAPACITY_DOWN]: with
    capacities up to [MAX_CAPACITY] the double products truncate to these. *)
Definition capacity_up (c : Z) : Z := c * 12 / 10.
Definition capacity_down (c : Z) : Z := c * 9 / 10.

Definition set_queue (q : list Z) (d : DeadNonceList) : DeadNonceList :=
  mkDeadNonceList (dnl_lifetime d) q (dnl_capacity d) (dnl_actualMarkCounts d) (dnl_markInterval d)
    (dnl_adjustCapacityInterval d) (dnl_markEvent d) (dnl_adjustCapacityEvent d) (dnl_scheduled d) (dnl_nextEvent d).
Definition set_capacity (c : Z) (d : DeadNonceList) : DeadNonceList :=
  mkDeadNonceList (dnl_lifetime d) (dnl_queue d) c (dnl_actualMarkCounts d) (dnl_markInterval d)
    (dnl_adjustCapacityInterval d) (dnl_markEvent d) (dnl_adjustCapacityEvent d) (dnl_scheduled d) (dnl_nextEvent d).
Definition set_markCounts (l : list Z) (d : DeadNonceList) : DeadNonceList :=
  mkDeadNonceList (dnl_lifetime d) (dnl_queue d) (dnl_capacity d) l (dnl_markInterval d)
    (dnl_adjustCapacityInterval d) (dnl_markEvent d) (dnl_adjustCapacityEvent d) (dnl_scheduled d) (dnl_nextEvent d).
Definition set_adjustEvent (e : positive) (d : DeadNonceList) : DeadNonceList :=
  mkDeadNonceList (dnl_lifetime d) (dnl_queue d) (dnl_capacity d) (dnl_actualMarkCounts d) (dnl_markInterval d)
    (dnl_adjustCapacityInterval d) (dnl_markEvent d) e (dnl_scheduled d) (dnl_nextEvent d).

(** [scheduler::schedule]: the new event's identifier; [scheduler::cancel]. *)
Definition schedule (time : Z) (e : DnlEvent) (d : DeadNonceList) : positive * DeadNonceList :=
  (dnl_nextEvent d,
   mkDeadNonceList (dnl_lifetime d) (dnl_queue d) (dnl_capacity d) (dnl_actualMarkCounts d) (dnl_markInterval d)
     (dnl_adjustCapacityInterval d) (dnl_markEvent d) (dnl_adjustCapacityEvent d)
     (<[dnl_nextEvent d := (time, e)]> (dnl_scheduled d)) (Pos.succ (dnl_nextEvent d))).
Definition cancel (id : positive) (d : DeadNonceList) : DeadNonceList :=
  mkDeadNonceList (dnl_lifetime d) (dnl_queue d) (dnl_capacity d) (dnl_actualMarkCounts d) (dnl_markInterval d)
    (dnl_adjustCapacityInterval d) (dnl_markEvent d) (dnl_adjustCapacityEvent d)
    (delete id (dnl_scheduled d)) (dnl_nextEvent d).

Section dnl.
Context `{NameWire}.

(** [None]: [std::invalid_argument] *)
Definition DeadNonceList_new (now lifetime : Z) : option DeadNonceList :=
  if lifetime <? MIN_LIFETIME then None
  else
    let d := mkDeadNonceList lifetime (replicate (Z.to_nat EXPECTED_MARK_COUNT) MARK) INITIAL_CAPACITY []
               (lifetime / EXPECTED_MARK_COUNT) lifetime 1 1 ∅ 1 in
    let '(markEvent, d) := schedule (now + dnl_markInterval d) MarkEvent d in
    let '(adjustEvent, d) := schedule (now + dnl_adjustCapacityInterval d) AdjustCapacityEvent d in
    Some (mkDeadNonceList (dnl_lifetime d) (dnl_queue d) (dnl_capacity d) (dnl_actualMarkCounts d) (dnl_markInterval d)
      (dnl_adjustCapacityInterval d) markEvent adjustEvent (dnl_scheduled d) (dnl_nextEvent d)).

(** [~DeadNonceList]: the events left in the scheduler *)
Definition DeadNonceList_destroy (d : DeadNonceList) : gmap positive (Z * DnlEvent) :=
  dnl_scheduled (cancel (dnl_adjustCapacityEvent d) (cancel (dnl_markEvent d) d)).

Definition makeEntry (name : Name) (nonce : Z) : Z :=
  let nameWire := name_wire name in
  default 0 (CityHash64WithSeed nameWire (Z.of_nat (length nameWire)) (u64 nonce)).

Definition countMarks (d : DeadNonceList) : Z := Z.of_nat (count_occ Z.eq_dec (dnl_queue d) MARK).

Definition DeadNonceList_size (d : DeadNonceList) : Z := Z.of_nat (length (dnl_queue d)) - countMarks d.

Definition DeadNonceList_has (d : DeadNonceList) (name : Name) (nonce : Z) : bool :=
  bool_decide (makeEntry name nonce ∈ dnl_queue d).

(** The loop erases the front entry [nEvict] times. *)
Definition evictEntries (d : DeadNonceList) : DeadNonceList :=
  let nOverCapacity := Z.of_nat (length (dnl_queue d)) - dnl_capacity d in
  if nOverCapacity <=? 0 then d
  else set_queue (drop (Z.to_nat (Z.min nOverCapacity EVICT_LIMIT)) (dnl_queue d)) d.

Definition DeadNonceList_add (d : DeadNonceList) (name : Name) (nonce : Z) : DeadNonceList :=
  let entry := makeEntry name nonce in
  evictEntries (set_queue (dnl_queue d ++ [entry]) d).

Definition DeadNonceList_mark (now : Z) (d : DeadNonceList) : DeadNonceList :=
  let d := set_queue (dnl_queue d ++ [MARK]) d in
  let nMarks := countMarks d in
  let d := set_markCounts (nMarks :: dnl_actualMarkCounts d) d in
  (schedule (now + dnl_markInterval d) MarkEvent d).2.

Definition DeadNonceList_adjustCapacity (now : Z) (d : DeadNonceList) : DeadNonceList :=
  let counts := dnl_actualMarkCounts d in
  let d :=
    if forallb (λ c, EXPECTED_MARK_COUNT <? c) counts
    then (* equal_range.second == begin() *)
      set_capacity (Z.max MIN_CAPACITY (capacity_down (dnl_capacity d))) d
    else if forallb (λ c, c <? EXPECTED_MARK_COUNT) counts
    then (* equal_range.first == end() *)
      set_capacity (Z.min MAX_CAPACITY (capacity_up (dnl_capacity d))) d
    else d in
  let d := set_markCounts [] d in
  let d := evictEntries d in
  let '(id, d) := schedule (now + dnl_adjustCapacityInterval d) AdjustCapacityEvent d in
  set_adjustEvent id d.

(** ** Steps *)

Inductive DnlOp :=
| OpAdd (name : Name) (nonce : Z)
| OpMark (now : Z)
| OpAdjustCapacity (now : Z).

Definition dnl_step (d : DeadNonceList) (op : DnlOp) : DeadNonceList :=
  match op with
  | OpAdd name nonce => DeadNonceList_add d name nonce
  | OpMark now => DeadNonceList_mark now d
  | OpAdjustCapacity now => DeadNonceList_adjustCapacity now d
  end.

Definition is_adjust (op : DnlOp) : bool := match op with OpAdjustCapacity _ => true | _ => false end.

Definition capacity_ok (d : DeadNonceList) : Prop := MIN_CAPACITY <= dnl_capacity d <= MAX_CAPACITY.

(** ** Capacity *)

Lemma evictEntries_capacity d : dnl_capacity (evictEntries d) = dnl_capacity d.
Proof. unfold evictEntries. by case_match. Qed.

Lemma evictEntries_queue d : ∃ k, dnl_queue (evictEntries d) = drop k (dnl_queue d) ∧
  (Z.of_nat k <= Z.max 0 (Z.of_nat (length (dnl_queue d)) - dnl_capacity d)) ∧
  (Z.of_nat (length (dnl_queue (evictEntries d))) =
   Z.max (Z.min (Z.of_nat (length (dnl_queue d))) (dnl_capacity d)) (Z.of_nat (length (dnl_queue d)) - EVICT_LIMIT) ∨
   dnl_capacity d < 0).
Proof.
  unfold evictEntries. assert (HE : EVICT_LIMIT = 64) by done.
  destruct (Z.leb_spec (Z.of_nat (length (dnl_queue d)) - dnl_capacity d) 0).
  - exists 0%nat. split_and!; [done|lia|]. left. lia.
  - eexists. split; [done|]. cbn [dnl_queue set_queue]. rewrite length_drop. split; [lia|]. destruct (decide (dnl_capacity d < 0)); [by right|left]. lia.
Qed.

Lemma dnl_step_capacity d op : capacity_ok d → capacity_ok (dnl_step d op).
Proof.
  unfold capacity_ok. assert (MIN_CAPACITY = 8) as -> by done. assert (MAX_CAPACITY = 16777216) as -> by done.
  intros Hc. destruct op as [name nonce|now|now]; simpl.
  - unfold DeadNonceList_add. by rewrite evictEntries_capacity.
  - done.
  - unfold DeadNonceList_adjustCapacity. simpl. rewrite evictEntries_capacity. simpl.
    unfold capacity_up, capacity_down. repeat case_match; simpl; try lia.
    all: assert (MIN_CAPACITY = 8) by done; assert (MAX_CAPACITY = 16777216) by done; Z.to_euclidean_division_equations; lia.
Qed.

(** Eviction never lets the queue fall below its capacity, so the assertion at
    the end of [evictEntries] holds. *)
Lemma evictEntries_assert d : capacity_ok d → dnl_capacity d < Z.of_nat (length (dnl_queue d)) →
  dnl_capacity d <= Z.of_nat (length (dnl_queue (evictEntries d))).
Proof.
  intros Hc Hl. destruct (evictEntries_queue d) as (k & _ & _ & [-> | ?]); [lia|].
  unfold capacity_ok in Hc. assert (MIN_CAPACITY = 8) by done. lia.
Qed.

(** ** Retention *)

(** The last [dnl_capacity d] entries of the queue stay when a step pushes
    one more: an entry with [m] successors has at most [m + 1] afterwards. *)
Definition recent (x : Z) (m : nat) (q : list Z) : Prop := ∃ q1 q2, q = q1 ++ x :: q2 ∧ (length q2 <= m)%nat.

Lemma recent_elem x m q : recent x m q → x ∈ q.
Proof. intros (q1 & q2 & -> & _). set_solver. Qed.

Lemma recent_snoc x y m q : recent x m q → recent x (S m) (q ++ [y]).
Proof.
  intros (q1 & q2 & -> & Hl). exists q1, (q2 ++ [y]). rewrite <-app_assoc. split; [done|]. rewrite length_app. simpl. lia.
Qed.

Lemma recent_drop x m k q : recent x m q → k = 0%nat ∨ (k + m < length q)%nat → recent x m (drop k q).
Proof.
  intros (q1 & q2 & -> & Hl) [->|Hk]; [by exists q1, q2|]. rewrite length_app in Hk. simpl in Hk.
  exists (drop k q1), q2. rewrite drop_app_le by lia. done.
Qed.

Lemma recent_evict x m d : recent x m (dnl_queue d) → Z.of_nat m < dnl_capacity d → recent x m (dnl_queue (evictEntries d)).
Proof.
  intros Hr Hm. destruct (evictEntries_queue d) as (k & -> & Hk & _). apply recent_drop; [done|].
  lia.
Qed.

Lemma recent_step x m d op : recent x m (dnl_queue d) → is_adjust op = false → Z.of_nat (S m) < dnl_capacity d →
  recent x (S m) (dnl_queue (dnl_step d op)) ∧ dnl_capacity (dnl_step d op) = dnl_capacity d.
Proof.
  intros Hr Ha Hm. destruct op as [name nonce|now|]; [| |done]; simpl.
  - unfold DeadNonceList_add. rewrite evictEntries_capacity. split; [|done]. apply recent_evict; [|done]. by apply recent_snoc.
  - split; [|done]. by apply recent_snoc.
Qed.

Lemma recent_steps x m d ops : recent x m (dnl_queue d) → Forall (λ op, is_adjust op = false) ops →
  Z.of_nat (m + length ops) < dnl_capacity d → recent x (m + length ops) (dnl_queue (foldl dnl_step d ops)).
Proof.
  revert m d. induction ops as [|op ops IH]; intros m d Hr Hops Hm; simpl in *; [by rewrite Nat.add_0_r|].
  apply Forall_cons in Hops as [Hop Hops]. destruct (recent_step x m d op Hr Hop) as [Hr' Hc]; [lia|].
  replace (m + S (length ops))%nat with (S m + length ops)%nat by lia. apply IH; [done|done|]. rewrite Hc. lia.
Qed.

Lemma add_recent d name nonce : capacity_ok d → recent (makeEntry name nonce) 0 (dnl_queue (DeadNonceList_add d name nonce)).
Proof.
  intros Hc. unfold DeadNonceList_add. apply recent_evict; [exists (dnl_queue d), []; done|].
  simpl. unfold capacity_ok in Hc. assert (MIN_CAPACITY = 8) by done. lia.
Qed.
End dnl.
