(* ===== verification/ContentStore.v ===== *)
(** * Content Store: [daemon/table/cs.cpp], [cs-entry.cpp], [cs-entry-impl.cpp],
      [cs-policy.cpp], [core/algorithm.hpp]

    Cached Data packets in canonical order, looked up by Interests.  Which
    packet goes when the store is full is the replacement policy's decision: the
    class [CsPolicy] is the interface of a policy and [CsPolicyLaws] what it
    promises, namely to keep account of exactly the stored packets.  The
    policies are in [CsPolicies]. *)

From S2P Require Import Prelude Packets.

(** ** Entries *)

Record CsEntry := mkCsEntry { ce_data : Data; ce_isUnsolicited : bool; ce_staleTime : Z }.

(** Entries are told apart by the full name of their Data: a [std::set]
    iterator is the key of the entry it points to. *)
Abbreviation CsKey := (Name * Component)%type.
Definition ce_key (e : CsEntry) : CsKey := (d_name (ce_data e), d_digest (ce_data e)).

Definition CsEntry_updateStaleTime (now : Z) (e : CsEntry) : CsEntry :=
  if 0 <=? d_freshnessPeriod (ce_data e)
  then mkCsEntry (ce_data e) (ce_isUnsolicited e) (now + milliseconds (d_freshnessPeriod (ce_data e)))
  else mkCsEntry (ce_data e) (ce_isUnsolicited e) TimePoint_max.

Definition CsEntry_setData (now : Z) (data : Data) (isUnsolicited : bool) : CsEntry :=
  CsEntry_updateStaleTime now (mkCsEntry data isUnsolicited 0).

Definition CsEntry_isStale (now : Z) (e : CsEntry) : bool := ce_staleTime e <? now.
Definition CsEntry_canStale (e : CsEntry) : bool := ce_staleTime e <? TimePoint_max.
Definition CsEntry_unsetUnsolicited (now : Z) (e : CsEntry) : CsEntry := CsEntry_setData now (ce_data e) false.

(** ** Replacement policies *)

Class CsPolicy (S : Type) := {
  policy_afterInsert : Z → CsEntry → S → option S;   (* doAfterInsert, up to evictEntries *)
  policy_afterRefresh : Z → CsEntry → S → option S;  (* doAfterRefresh *)
  policy_beforeErase : CsKey → S → option S;         (* doBeforeErase *)
  policy_beforeUse : CsEntry → S → option S;         (* doBeforeUse *)
  policy_evictOne : S → option (CsKey * S)           (* one round of evictEntries *)
}.

Class CsPolicyLaws (S : Type) `{CsPolicy S} := {
  policy_inv : S → Prop;
  policy_keys : S → list CsKey;
  policy_keys_NoDup s : policy_inv s → NoDup (policy_keys s);
  policy_afterInsert_spec now e s : policy_inv s → ce_key e ∉ policy_keys s →
    ∃ s', policy_afterInsert now e s = Some s' ∧ policy_inv s' ∧ Permutation (policy_keys s') (ce_key e :: policy_keys s);
  policy_afterRefresh_spec now e s : policy_inv s → ce_key e ∈ policy_keys s →
    ∃ s', policy_afterRefresh now e s = Some s' ∧ policy_inv s' ∧ Permutation (policy_keys s') (policy_keys s);
  policy_beforeErase_spec k s : policy_inv s → k ∈ policy_keys s →
    ∃ s', policy_beforeErase k s = Some s' ∧ policy_inv s' ∧ Permutation (policy_keys s) (k :: policy_keys s');
  policy_beforeUse_spec e s : policy_inv s → ce_key e ∈ policy_keys s →
    ∃ s', policy_beforeUse e s = Some s' ∧ policy_inv s' ∧ Permutation (policy_keys s') (policy_keys s);
  policy_evictOne_spec s : policy_inv s → policy_keys s ≠ [] →
    ∃ k s', policy_evictOne s = Some (k, s') ∧ policy_inv s' ∧ Permutation (policy_keys s) (k :: policy_keys s')
}.

(** ** Canonical order of entries *)

Section order.
Context `{NameOrder}.

(** [Name::compare], [Component::compare] *)
Definition name_compare (a b : Name) : comparison :=
  if name_lt a b then Lt else if bool_decide (a = b) then Eq else Gt.
Definition component_compare (c d : Component) : comparison := name_compare [c] [d].

Definition compareQueryWithData (queryName : Name) (data : Data) : comparison :=
  match last queryName with
  | Some c =>
      if isImplicitSha256Digest c then
        match name_compare (getParentName queryName) (d_name data) with
        | Eq => component_compare c (d_digest data)
        | cmp => cmp
        end
      else match name_compare queryName (d_name data) with Eq => Lt | cmp => cmp end
  | None => match name_compare queryName (d_name data) with Eq => Lt | cmp => cmp end
  end.

Definition compareDataWithData (lhs rhs : Data) : comparison :=
  match name_compare (d_name lhs) (d_name rhs) with
  | Eq => component_compare (d_digest lhs) (d_digest rhs)
  | cmp => cmp
  end.

(** [operator<] between two entries, and of an entry and a query *)
Definition entry_less (e f : CsEntry) : bool :=
  match compareDataWithData (ce_data e) (ce_data f) with Lt => true | _ => false end.
Definition entry_less_query (e : CsEntry) (queryName : Name) : bool :=
  match compareQueryWithData queryName (ce_data e) with Gt => true | _ => false end.

(** [m_table.insert]: the table, and whether the entry is new *)
Fixpoint table_insert (new : CsEntry) (l : list CsEntry) : list CsEntry * bool :=
  match l with
  | [] => ([new], true)
  | e :: l' =>
      if entry_less e new then let '(l'', isNew) := table_insert new l' in (e :: l'', isNew)
      else if entry_less new e then (new :: e :: l', true)
      else (e :: l', false)
  end.

(** [m_table.lower_bound(queryName)], as an index *)
Fixpoint table_lower_bound (queryName : Name) (l : list CsEntry) : nat :=
  match l with
  | [] => 0
  | e :: l' => if entry_less_query e queryName then S (table_lower_bound queryName l') else 0
  end.
End order.

Definition has_key (k : CsKey) (e : CsEntry) : bool := bool_decide (ce_key e = k).

(** Updating and erasing the entry an iterator points to *)
Fixpoint table_update (k : CsKey) (f : CsEntry → CsEntry) (l : list CsEntry) : list CsEntry :=
  match l with
  | [] => []
  | e :: l' => if has_key k e then f e :: l' else e :: table_update k f l'
  end.
Fixpoint table_erase (k : CsKey) (l : list CsEntry) : list CsEntry :=
  match l with
  | [] => []
  | e :: l' => if has_key k e then l' else e :: table_erase k l'
  end.

(** ** The store *)

Record Cs (S : Type) := mkCs { cs_table : list CsEntry; cs_policy : S; cs_limit : Z }.
Arguments mkCs {S}.
Arguments cs_table {S}.
Arguments cs_policy {S}.
Arguments cs_limit {S}.

Section cs.
Context `{NameOrder, !NameSuccessor} {S : Type} `{CsPolicy S}.
Context (matchesData : Interest → Data → bool).

Definition Cs_size (cs : Cs S) : Z := Z.of_nat (length (cs_table cs)).

(** [evictEntries]: while the store is over its limit *)
Fixpoint Cs_evictEntries_loop (fuel : nat) (cs : Cs S) : option (Cs S) :=
  if Cs_size cs <=? cs_limit cs then Some cs
  else
    match fuel with
    | O => None
    | Datatypes.S fuel' =>
        '(k, s) ← policy_evictOne (cs_policy cs);
        Cs_evictEntries_loop fuel' (mkCs (table_erase k (cs_table cs)) s (cs_limit cs))
    end.
Definition Cs_evictEntries (cs : Cs S) : option (Cs S) := Cs_evictEntries_loop (length (cs_table cs)) cs.

(** [setLimit]; [None]: an assertion fails *)
Definition Cs_setLimit (nMaxPackets : Z) (cs : Cs S) : option (Cs S) :=
  if nMaxPackets <=? 0 then None
  else Cs_evictEntries (mkCs (cs_table cs) (cs_policy cs) nMaxPackets).

Definition Cs_new (empty : S) (nMaxPackets : Z) : option (Cs S) := Cs_setLimit nMaxPackets (mkCs [] empty 0).

Definition Cs_insert (now : Z) (data : Data) (isUnsolicited : bool) (cs : Cs S) : option (bool * Cs S) :=
  if bool_decide (d_cachingPolicy data = Some NO_CACHE) then Some (false, cs)
  else
    let new := CsEntry_setData now data isUnsolicited in
    let k := ce_key new in
    let '(table, isNewEntry) := table_insert new (cs_table cs) in
    let table := table_update k (CsEntry_updateStaleTime now) table in
    if negb isNewEntry then
      let table := table_update k (λ entry, if ce_isUnsolicited entry && negb isUnsolicited
                                            then CsEntry_unsetUnsolicited now entry else entry) table in
      entry ← find_if (has_key k) table;
      s ← policy_afterRefresh now entry (cs_policy cs);
      Some (true, mkCs table s (cs_limit cs))
    else
      entry ← find_if (has_key k) table;
      s ← policy_afterInsert now entry (cs_policy cs);
      cs ← Cs_evictEntries (mkCs table s (cs_limit cs));
      Some (true, cs).

Definition CsEntry_canSatisfy (now : Z) (interest : Interest) (e : CsEntry) : bool :=
  if negb (matchesData interest (ce_data e)) then false
  else if sel_mustBeFresh (i_selectors interest) && CsEntry_isStale now e then false
  else true.

(** [std::find_if] and [find_last_if] on a range of the table *)
Definition find_range (p : CsEntry → bool) (l : list CsEntry) (first last : nat) : nat :=
  match list_find (λ e, p e = true) (take (last - first) (drop first l)) with
  | Some (k, _) => first + k
  | None => last
  end.
Definition find_last_range (p : CsEntry → bool) (l : list CsEntry) (first last : nat) : nat :=
  match list_find (λ e, p e = true) (rev (take (last - first) (drop first l))) with
  | Some (k, _) => last - 1 - k
  | None => last
  end.

Definition Cs_findLeftmost (now : Z) (interest : Interest) (l : list CsEntry) (first last : nat) : nat :=
  find_range (CsEntry_canSatisfy now interest) l first last.

Definition Cs_findRightmostAmongExact (now : Z) (interest : Interest) (l : list CsEntry) (first last : nat) : nat :=
  find_last_range (CsEntry_canSatisfy now interest) l first last.

(** [None]: [right] has passed [first] and goes on below the beginning of the
    table, which is undefined behaviour. *)
Fixpoint Cs_findRightmost_loop (fuel : nat) (now : Z) (interest : Interest) (l : list CsEntry)
    (first last right : nat) : option nat :=
  match fuel with
  | O => None
  | Datatypes.S fuel' =>
      if bool_decide (right = first) then Some last
      else if bool_decide (right = 0)%nat then None
      else
        prev ← l !! (right - 1)%nat;
        let interestNameLength := length (i_name interest) in
        if bool_decide (length (d_name (ce_data prev)) = interestNameLength) then
          let matchExact := Cs_findRightmostAmongExact now interest l first right in
          if bool_decide (matchExact = right) then Some last else Some matchExact
        else
          let prefix := getPrefix (d_name (ce_data prev)) (interestNameLength + 1) in
          let left := table_lower_bound prefix l in
          let m := Cs_findLeftmost now interest l left right in
          if bool_decide (m ≠ right) then Some m
          else Cs_findRightmost_loop fuel' now interest l first last left
  end.

Definition Cs_findRightmost (now : Z) (interest : Interest) (l : list CsEntry) (first last : nat) : option nat :=
  Cs_findRightmost_loop (Datatypes.S (length l)) now interest l first last last.

(** The Data passed to the hit callback, or none for a miss *)
Definition Cs_find (now : Z) (interest : Interest) (cs : Cs S) : option (option Data * Cs S) :=
  let prefix := i_name interest in
  let isRightmost := sel_childSelector (i_selectors interest) =? 1 in
  let l := cs_table cs in
  let first := table_lower_bound prefix l in
  let last := if bool_decide (prefix = []) then length l else table_lower_bound (name_successor prefix) l in
  m ← (if isRightmost then Cs_findRightmost now interest l first last
       else Some (Cs_findLeftmost now interest l first last));
  if bool_decide (m = last) then Some (None, cs)
  else
    entry ← l !! m;
    s ← policy_beforeUse entry (cs_policy cs);
    Some (Some (ce_data entry), mkCs l s (cs_limit cs)).
End cs.

(** ** The order as one of keys *)

Section keys.
Context `{NameOrder}.

Lemma nlt_asym a b : name_lt a b = true → name_lt b a = false.
Proof.
  intros Hab. destruct (name_lt b a) eqn:E; [|done]. pose proof (name_lt_trans _ _ _ Hab E) as Haa.
  by rewrite name_lt_irrefl in Haa.
Qed.

(** A digest, or none for a query by name, which sorts first. *)
Definition odigest_lt (o p : option Component) : bool :=
  match o, p with
  | None, Some _ => true
  | Some c, Some d => name_lt [c] [d]
  | _, None => false
  end.

Definition key_lt (a b : Name * option Component) : bool :=
  name_lt a.1 b.1 || (bool_decide (a.1 = b.1) && odigest_lt a.2 b.2).

Definition entry_key (e : CsEntry) : Name * option Component := (d_name (ce_data e), Some (d_digest (ce_data e))).
Definition query_key (q : Name) : Name * option Component :=
  match last q with
  | Some c => if isImplicitSha256Digest c then (getParentName q, Some c) else (q, None)
  | None => (q, None)
  end.

Lemma key_lt_irrefl a : key_lt a a = false.
Proof. unfold key_lt. rewrite name_lt_irrefl, bool_decide_eq_true_2 by done. destruct a as [n [c|]]; simpl; [apply name_lt_irrefl|done]. Qed.

Lemma key_lt_trans a b c : key_lt a b = true → key_lt b c = true → key_lt a c = true.
Proof.
  unfold key_lt. rewrite !orb_true_iff, !andb_true_iff, !bool_decide_eq_true.
  intros [Hab|[Eab Dab]] [Hbc|[Ebc Dbc]].
  - left. by eapply name_lt_trans.
  - left. by rewrite <-Ebc.
  - left. by rewrite Eab.
  - right. split; [congruence|]. destruct a as [? [?|]], b as [? [?|]], c as [? [?|]]; simpl in *; try done.
    by eapply name_lt_trans.
Qed.

Lemma key_lt_asym a b : key_lt a b = true → key_lt b a = false.
Proof.
  intros Hab. destruct (key_lt b a) eqn:E; [|done]. pose proof (key_lt_trans _ _ _ Hab E) as Haa. by rewrite key_lt_irrefl in Haa.
Qed.

Lemma key_lt_total e f : entry_key e ≠ entry_key f → key_lt (entry_key e) (entry_key f) = true ∨ key_lt (entry_key f) (entry_key e) = true.
Proof.
  intros Hne. unfold key_lt, entry_key in *. simpl in *.
  destruct (decide (d_name (ce_data e) = d_name (ce_data f))) as [E|E].
  - rewrite E, name_lt_irrefl, bool_decide_eq_true_2 by done. simpl. apply name_lt_total. congruence.
  - destruct (name_lt_total _ _ E) as [->| ->]; auto.
Qed.

Lemma name_compare_Gt a b : name_compare a b = Gt ↔ name_lt b a = true.
Proof.
  unfold name_compare. destruct (name_lt a b) eqn:E.
  - rewrite (nlt_asym _ _ E). done.
  - case_bool_decide as Eab; [subst b; by rewrite E|]. destruct (name_lt_total _ _ Eab) as [|]; [congruence|]. done.
Qed.

Lemma entry_less_key e f : entry_less e f = key_lt (entry_key e) (entry_key f).
Proof.
  unfold entry_less, compareDataWithData, key_lt, entry_key, component_compare, name_compare. simpl.
  destruct (name_lt (d_name (ce_data e)) (d_name (ce_data f))); [done|]. case_bool_decide; simpl; [|done].
  by destruct (name_lt _ _); [|case_bool_decide].
Qed.

Lemma entry_less_query_key e q : entry_less_query e q = key_lt (entry_key e) (query_key q).
Proof.
  unfold entry_less_query, compareQueryWithData, query_key, key_lt, entry_key, component_compare.
  assert (Hc : ∀ n m (x : comparison), match (match name_compare n m with Eq => x | cmp => cmp end) with Gt => true | _ => false end =
    name_lt m n || (bool_decide (m = n) && match x with Gt => true | _ => false end)).
  { intros n m x. unfold name_compare. destruct (name_lt n m) eqn:E.
    - rewrite (nlt_asym _ _ E), bool_decide_eq_false_2; [done|]. intros ->. by rewrite name_lt_irrefl in E.
    - case_bool_decide as Enm; [subst m; by rewrite E, bool_decide_eq_true_2|].
      destruct (name_lt_total _ _ Enm) as [|Hl]; [congruence|]. by rewrite Hl. }
  assert (Hg : ∀ n m, match name_compare n m with Gt => true | _ => false end = name_lt m n).
  { intros n m. apply eq_true_iff_eq. rewrite <-name_compare_Gt. by destruct (name_compare n m). }
  destruct (last q) as [c|]; [destruct (isImplicitSha256Digest c)|]; simpl; rewrite Hc, ?Hg; simpl; done.
Qed.

(** *** Sorted tables *)

Definition table_sorted (l : list CsEntry) : Prop :=
  StronglySorted (λ e f, key_lt (entry_key e) (entry_key f) = true) l.

Lemma table_insert_elem new l e : e ∈ (table_insert new l).1 ↔ e ∈ l ∨ e = new ∧ (table_insert new l).2 = true.
Proof.
  induction l as [|f l IH]; simpl; [set_solver|]. destruct (entry_less f new).
  - destruct (table_insert new l) as [l'' isNew]. simpl in *. rewrite !elem_of_cons, IH. naive_solver.
  - destruct (entry_less new f); simpl; rewrite !elem_of_cons; naive_solver.
Qed.

Lemma table_insert_spec new l : table_sorted l →
  let '(l', isNew) := table_insert new l in
  table_sorted l' ∧
  if isNew then Permutation l' (new :: l) ∧ ce_key new ∉ (ce_key <$> l)
  else l' = l ∧ ce_key new ∈ (ce_key <$> l).
Proof.
  assert (Hkey : ∀ e f, entry_key e = entry_key f ↔ ce_key e = ce_key f).
  { intros e f. unfold entry_key, ce_key. split; [intros [= -> ->]|intros [= -> ->]]; done. }
  induction 1 as [|e l Hs IH He]; simpl; [repeat constructor; apply not_elem_of_nil|].
  rewrite !entry_less_key. destruct (key_lt (entry_key e) (entry_key new)) eqn:E1.
  - pose proof (table_insert_elem new l) as Hel. destruct (table_insert new l) as [l'' isNew]. simpl in Hel.
    destruct IH as [Hs'' Hi]. split.
    + constructor; [done|]. rewrite Forall_forall in *. intros f Hf%Hel. destruct Hf as [Hf|[-> _]]; auto.
    + assert (Hne : ce_key new ≠ ce_key e).
      { intros Ek%Hkey. rewrite Ek, key_lt_irrefl in E1. done. }
      destruct isNew; destruct Hi as [Hi1 Hi2]; simpl.
      * rewrite Hi1. split; [apply Permutation_swap|]. rewrite elem_of_cons. naive_solver.
      * subst l''. split; [done|]. rewrite elem_of_cons. by right.
  - destruct (key_lt (entry_key new) (entry_key e)) eqn:E2.
    + split.
      * constructor; [by constructor|]. constructor; [done|]. rewrite Forall_forall in *. intros f Hf.
        eapply key_lt_trans; [done|]. auto.
      * split; [done|]. rewrite elem_of_cons. intros [Ek|Hin].
        -- apply Hkey in Ek. rewrite Ek, key_lt_irrefl in E2. done.
        -- apply list_elem_of_fmap in Hin as (f & Ek & Hf). apply Hkey in Ek. rewrite Forall_forall in He.
           specialize (He f Hf). rewrite <-Ek in He. congruence.
    + split; [by constructor|]. split; [done|]. apply elem_of_cons. left. apply Hkey.
      destruct (decide (entry_key new = entry_key e)) as [|Hne]; [done|].
      destruct (key_lt_total _ _ Hne); congruence.
Qed.

Lemma table_sorted_NoDup l : table_sorted l → NoDup (ce_key <$> l).
Proof.
  induction 1 as [|e l Hs IH He]; csimpl; [constructor|]. constructor; [|done].
  intros (f & Ek & Hf)%list_elem_of_fmap. rewrite Forall_forall in He. specialize (He f Hf).
  assert (entry_key e = entry_key f) as E by (unfold entry_key, ce_key in *; by injection Ek as -> ->).
  by rewrite E, key_lt_irrefl in He.
Qed.

Lemma table_erase_sublist k l : table_erase k l `sublist_of` l.
Proof. induction l as [|e l IH]; simpl; [done|]. case_match; by constructor. Qed.

Lemma StronglySorted_sublist {A} (R : A → A → Prop) l l' : l' `sublist_of` l → StronglySorted R l → StronglySorted R l'.
Proof.
  induction 1 as [|x l1 l2 Hsub IH|x l1 l2 Hsub IH]; intros Hs; [done|..]; inversion Hs as [|? ? Hs' Hf]; subst.
  - constructor; [auto|]. rewrite Forall_forall in *. intros y Hy. apply Hf. by eapply elem_of_sublist.
  - auto.
Qed.

Lemma table_erase_keys k l : k ∈ (ce_key <$> l) → Permutation (ce_key <$> l) (k :: (ce_key <$> table_erase k l)).
Proof.
  induction l as [|e l IH]; csimpl; [by intros ?%elem_of_nil|]. unfold has_key. case_bool_decide as E; csimpl.
  - by subst k.
  - intros [->|Hk]%elem_of_cons; [done|]. rewrite IH by done. apply Permutation_swap.
Qed.

Lemma table_update_keys k f l : (∀ e, ce_key (f e) = ce_key e) → ce_key <$> table_update k f l = ce_key <$> l.
Proof. intros Hf. induction l as [|e l IH]; csimpl; [done|]. case_match; csimpl; rewrite ?Hf; congruence. Qed.

Lemma table_sorted_keys l l' : ce_key <$> l = ce_key <$> l' → table_sorted l → table_sorted l'.
Proof.
  intros E Hs. revert l' E. induction Hs as [|e l Hs IH He]; intros [|e' l'] E; csimpl in E; try done; [constructor|].
  injection E as E1 E2 E3. assert (Hk : entry_key e = entry_key e') by (unfold entry_key; congruence).
  constructor; [by apply IH|]. rewrite Forall_forall in *. intros f' Hf'.
  assert (Hin : ce_key f' ∈ (ce_key <$> l)) by (rewrite E3; by apply list_elem_of_fmap_2).
  apply list_elem_of_fmap in Hin as (f & Ek & Hf). rewrite <-Hk.
  assert (entry_key f' = entry_key f) as -> by (unfold entry_key, ce_key in *; by injection Ek as -> ->). auto.
Qed.
End keys.

(** ** The store against the policy interface *)

Section store.
Context `{NameOrder, !NameSuccessor} {S : Type} `{CsPolicyLaws S}.
Context (matchesData : Interest → Data → bool).

Record cs_wf (cs : Cs S) : Prop := {
  cw_sorted : table_sorted (cs_table cs);
  cw_policy : policy_inv (cs_policy cs);
  cw_keys : Permutation (policy_keys (cs_policy cs)) (ce_key <$> cs_table cs);
  cw_limit : 0 < cs_limit cs;
  cw_size : Cs_size cs <= cs_limit cs
}.

(** Over the limit, for a while. *)
Record cs_accounted (cs : Cs S) : Prop := {
  ca_sorted : table_sorted (cs_table cs);
  ca_policy : policy_inv (cs_policy cs);
  ca_keys : Permutation (policy_keys (cs_policy cs)) (ce_key <$> cs_table cs);
  ca_limit : 0 < cs_limit cs
}.

Lemma evictEntries_loop_spec fuel cs : cs_accounted cs → (length (cs_table cs) <= fuel)%nat →
  ∃ cs', Cs_evictEntries_loop fuel cs = Some cs' ∧ cs_wf cs' ∧ cs_limit cs' = cs_limit cs ∧
    cs_table cs' `sublist_of` cs_table cs ∧ Z.min (Cs_size cs) (cs_limit cs) <= Cs_size cs'.
Proof.
  revert cs. induction fuel as [|fuel IH]; intros cs Hc Hl; simpl.
  all: destruct (Z.leb_spec (Cs_size cs) (cs_limit cs)) as [Hle|Hgt];
    [exists cs; destruct Hc; split_and!; [done|by split|done|done|lia]|].
  - unfold Cs_size in Hgt. pose proof (ca_limit _ Hc). lia.
  - destruct Hc as [Hs Hp Hk Hlim].
    assert (Hne : policy_keys (cs_policy cs) ≠ []).
    { intros E. rewrite E in Hk. apply Permutation_nil_l in Hk. unfold Cs_size in Hgt.
      apply (f_equal length) in Hk. rewrite length_fmap in Hk. simpl in Hk. lia. }
    destruct (policy_evictOne_spec _ Hp Hne) as (k & s & -> & Hs' & Hk'). simpl.
    assert (Hin : k ∈ (ce_key <$> cs_table cs)) by (rewrite <-Hk, Hk'; set_solver).
    pose proof (table_erase_keys k (cs_table cs) Hin) as He.
    pose proof (Permutation_length He) as Hlen. simpl in Hlen. rewrite !length_fmap in Hlen.
    destruct (IH (mkCs (table_erase k (cs_table cs)) s (cs_limit cs))) as (cs' & E & Hw & Hlim' & Hsub & Hsz).
    + split; simpl; [|done| |done].
      * eapply StronglySorted_sublist; [apply table_erase_sublist|done].
      * apply (Permutation_cons_inv (a := k)). by rewrite <-Hk', <-He.
    + simpl. lia.
    + exists cs'. split_and!; [done|done|done| |].
      * etrans; [exact Hsub|]. apply table_erase_sublist.
      * unfold Cs_size in *. simpl in *. lia.
Qed.

Lemma evictEntries_spec cs : cs_accounted cs →
  ∃ cs', Cs_evictEntries cs = Some cs' ∧ cs_wf cs' ∧ cs_limit cs' = cs_limit cs ∧
    cs_table cs' `sublist_of` cs_table cs ∧ Z.min (Cs_size cs) (cs_limit cs) <= Cs_size cs'.
Proof. intros Hc. by apply evictEntries_loop_spec. Qed.

(** *** [insert] *)

Lemma table_update_lookup k f l e' : NoDup (ce_key <$> l) → (∀ e, ce_key (f e) = ce_key e) →
  e' ∈ table_update k f l ↔ ∃ e, e ∈ l ∧ e' = if decide (ce_key e = k) then f e else e.
Proof.
  intros Hnd Hf. induction l as [|e l IH]; csimpl in *.
  - rewrite elem_of_nil. split; [done|]. intros (e & He & _). by apply elem_of_nil in He.
  - apply NoDup_cons in Hnd as [He Hnd]. unfold has_key. case_bool_decide as Ek.
    + assert (Hno : ∀ x, x ∈ l → ce_key x ≠ k).
      { intros x Hx Ex. apply He. rewrite Ek, <-Ex. by apply list_elem_of_fmap_2. }
      rewrite elem_of_cons. split.
      * intros [->|Hin]; [exists e; rewrite decide_True by done; set_solver|].
        exists e'. rewrite decide_False by auto. set_solver.
      * intros (x & [->|Hx]%elem_of_cons & ->); [rewrite decide_True by done; by left|].
        rewrite decide_False by auto. by right.
    + rewrite elem_of_cons, IH by done. split.
      * intros [->|(x & Hx & ->)]; [exists e; rewrite decide_False by done; set_solver|exists x; set_solver].
      * intros (x & [->|Hx]%elem_of_cons & ->); [rewrite decide_False by done; by left|right; eauto].
Qed.

Lemma updateStaleTime_key now e : ce_key (CsEntry_updateStaleTime now e) = ce_key e.
Proof. unfold CsEntry_updateStaleTime. by case_match. Qed.

Lemma find_has_key k l : k ∈ (ce_key <$> l) → ∃ e, find_if (has_key k) l = Some e ∧ e ∈ l ∧ ce_key e = k.
Proof.
  intros (e & -> & He)%list_elem_of_fmap.
  destruct (find_if_is_Some (has_key (ce_key e)) l e He) as [x Hx]; [unfold has_key; by apply bool_decide_eq_true|].
  exists x. split; [done|]. apply find_if_Some in Hx as [? Hx]. unfold has_key in Hx. by apply bool_decide_eq_true in Hx.
Qed.

Lemma sublist_full {A} (l1 l2 : list A) : l1 `sublist_of` l2 → (length l2 <= length l1)%nat → l1 = l2.
Proof.
  induction 1 as [|x l1 l2 Hsub IH|x l1 l2 Hsub IH]; simpl; intros Hl; [done| |].
  - f_equal. apply IH. lia.
  - apply sublist_length in Hsub. lia.
Qed.

Lemma insert_refresh_key now u e : ce_key (if ce_isUnsolicited e && negb u then CsEntry_unsetUnsolicited now e else e) = ce_key e.
Proof. case_match; [|done]. unfold CsEntry_unsetUnsolicited, CsEntry_setData. by rewrite updateStaleTime_key. Qed.

(** Data that may be cached is inserted or refreshed; no assertion fails, the
    store stays within its limit and only entries of the policy's choice go. *)
Lemma Cs_insert_spec now data u cs : cs_wf cs →
  ∃ r cs', Cs_insert now data u cs = Some (r, cs') ∧ cs_wf cs' ∧ cs_limit cs' = cs_limit cs ∧
    r = negb (bool_decide (d_cachingPolicy data = Some NO_CACHE)) ∧
    (r = false → cs' = cs) ∧
    (∀ e, e ∈ cs_table cs' → ce_key e = (d_name data, d_digest data) ∨ e ∈ cs_table cs) ∧
    Cs_size cs <= Cs_size cs' ∧
    (r = true → Cs_size cs < cs_limit cs → (d_name data, d_digest data) ∈ (ce_key <$> cs_table cs')).
Proof.
  intros [Hs Hp Hk Hl Hsz]. unfold Cs_insert. case_bool_decide as Hc.
  { exists false, cs. split_and!; [done|by split|done|done|done|by right|lia|done]. }
  set (new := CsEntry_setData now data u). set (k := ce_key new).
  assert (Hkey : k = (d_name data, d_digest data)).
  { subst k new. unfold CsEntry_setData. by rewrite updateStaleTime_key. }
  pose proof (table_insert_spec new (cs_table cs) Hs) as Hi. pose proof (table_insert_elem new (cs_table cs)) as Hel.
  destruct (table_insert new (cs_table cs)) as [l1 isNew]. destruct Hi as [Hs1 Hi]. simpl in Hel.
  set (l2 := table_update k (CsEntry_updateStaleTime now) l1).
  assert (K2 : ce_key <$> l2 = ce_key <$> l1) by (apply table_update_keys, updateStaleTime_key).
  assert (Hin2 : ∀ e, e ∈ l2 → ce_key e = k ∨ e ∈ cs_table cs).
  { intros e He. apply table_update_lookup in He as (x & Hx & ->); [|by apply table_sorted_NoDup|apply updateStaleTime_key].
    case_decide as Ex; [left; by rewrite updateStaleTime_key|]. apply Hel in Hx as [|[-> _]]; [by right|by left]. }
  destruct isNew; destruct Hi as [Hi1 Hi2]; simpl.
  - (* a new entry *)
    destruct (find_has_key k l2) as (e & -> & He & Hek).
    { rewrite K2, Hi1. csimpl. set_solver. }
    simpl. destruct (policy_afterInsert_spec now e (cs_policy cs) Hp) as (s & -> & Hps & Hks).
    { rewrite Hek, Hk. exact Hi2. }
    simpl. destruct (evictEntries_spec (mkCs l2 s (cs_limit cs))) as (cs' & -> & Hw & Hlim & Hsub & Hmin).
    { split; simpl; [by eapply table_sorted_keys|done| |done]. rewrite Hks, Hek, Hk, K2, Hi1. csimpl. done. }
    assert (Hlen : length l2 = Datatypes.S (length (cs_table cs))).
    { pose proof (f_equal length K2) as Hlen. rewrite !length_fmap in Hlen. rewrite Hlen, Hi1. done. }
    exists true, cs'. split_and!; [done|done|done|done|done| | |].
    + intros x Hx. rewrite <-Hkey. apply Hin2. by eapply elem_of_sublist.
    + unfold Cs_size in *. simpl in Hmin. rewrite Hlen in Hmin. lia.
    + intros _ Hroom. rewrite <-Hkey. unfold Cs_size in *. simpl in Hmin. rewrite Hlen in Hmin.
      assert (cs_table cs' = l2) as ->; [|rewrite K2, Hi1; csimpl; set_solver].
      apply (sublist_full _ _ Hsub). simpl. lia.
  - (* an entry of the same Data is there *)
    subst l1. set (f := λ e, if ce_isUnsolicited e && negb u then CsEntry_unsetUnsolicited now e else e).
    set (l3 := table_update k f l2).
    assert (K3 : ce_key <$> l3 = ce_key <$> cs_table cs).
    { unfold l3. rewrite table_update_keys; [done|]. intros e. apply insert_refresh_key. }
    destruct (find_has_key k l3) as (e & -> & He & Hek); [by rewrite K3|].
    simpl. destruct (policy_afterRefresh_spec now e (cs_policy cs) Hp) as (s & -> & Hps & Hks).
    { by rewrite Hek, Hk. }
    simpl. assert (Hlen : length l3 = length (cs_table cs)).
    { pose proof (f_equal length K3) as Hlen. by rewrite !length_fmap in Hlen. }
    eexists true, _. split; [done|]. split_and!; simpl; [|done|done|done| | |].
    + split; simpl; [by eapply table_sorted_keys|done|by rewrite Hks, Hk, K3|done|]. unfold Cs_size in *. simpl. lia.
    + intros x Hx. rewrite <-Hkey. apply table_update_lookup in Hx as (y & Hy & ->).
      * case_decide as Ey; [left; rewrite <-Ey; apply insert_refresh_key|]. by apply Hin2.
      * rewrite K2. by apply table_sorted_NoDup.
      * intros x'. apply insert_refresh_key.
    + unfold Cs_size in *. simpl. lia.
    + intros _ _. rewrite <-Hkey, K3. done.
Qed.

Lemma Cs_setLimit_spec n cs : cs_wf cs → 0 < n →
  ∃ cs', Cs_setLimit n cs = Some cs' ∧ cs_wf cs' ∧ cs_limit cs' = n ∧ cs_table cs' `sublist_of` cs_table cs ∧
    Z.min (Cs_size cs) n <= Cs_size cs'.
Proof.
  intros [Hs Hp Hk Hl Hsz] Hn. unfold Cs_setLimit. rewrite (proj2 (Z.leb_gt n 0)) by lia.
  apply (evictEntries_spec (mkCs (cs_table cs) (cs_policy cs) n)). by split.
Qed.

(** *** [find] *)

(** Names of Data have no digest component. *)
Definition plain (n : Name) : Prop := ∀ c, c ∈ n → isImplicitSha256Digest c = false.

Definition matches_prefix : Prop := ∀ i d, matchesData i d = true → i_name i `prefix_of` getFullName d.

Lemma prefix_fullName (n : Name) (d : Component) (p : Name) : p `prefix_of` n ++ [d] → p `prefix_of` n ∨ p = n ++ [d].
Proof.
  intros Hp. destruct (decide (length p = length (n ++ [d]))) as [E|E].
  - right. apply prefix_length_eq; [done|lia].
  - left. apply prefix_length in Hp as Hl. rewrite length_app in Hl, E. simpl in *.
    destruct (prefix_weak_total p n (n ++ [d]) Hp) as [|Hn]; [by apply prefix_app_r|done|].
    apply prefix_length in Hn as Hl'. rewrite (prefix_length_eq n p Hn); [done|lia].
Qed.

(** An entry under a prefix lies between the prefix and its successor. *)
Lemma entry_in_range e p : plain (d_name (ce_data e)) → isImplicitSha256Digest (d_digest (ce_data e)) = true →
  p `prefix_of` getFullName (ce_data e) →
  entry_less_query e p = false ∧ (p ≠ [] → entry_less_query e (name_successor p) = true).
Proof.
  intros Hpl Hd Hp. rewrite !entry_less_query_key. unfold getFullName in Hp.
  destruct p as [|c q _] using rev_ind.
  { split; [|done]. unfold key_lt, query_key, entry_key. simpl.
    rewrite name_lt_prefix by apply prefix_nil. by rewrite andb_false_r. }
  destruct (name_successor_last q c) as (c' & Hsucc & Htype).
  assert (Hab : ∀ n, q ++ [c] `prefix_of` n → name_lt n (q ++ [c']) = true).
  { intros n Hn. rewrite <-Hsucc. apply name_successor_above; [by destruct q|done]. }
  rewrite Hsucc. unfold query_key. rewrite !last_snoc, Htype.
  destruct (prefix_fullName _ _ _ Hp) as [Hp'|Ep].
  - (* the prefix is one of the name itself *)
    assert (isImplicitSha256Digest c = false) as ->.
    { apply Hpl. destruct Hp' as [k Hk]. rewrite Hk. set_solver. }
    unfold key_lt, entry_key. simpl. split.
    + rewrite name_lt_prefix by done. simpl. apply andb_false_r.
    + intros _. by rewrite Hab.
  - apply app_inj_tail in Ep as [-> ->]. rewrite Hd. unfold key_lt, entry_key. simpl. rewrite !getParentName_snoc.
    split.
    + rewrite name_lt_irrefl, bool_decide_eq_true_2 by done. simpl. apply name_lt_irrefl.
    + intros _. rewrite bool_decide_eq_true_2, name_lt_irrefl by done. simpl.
      rewrite <-(name_lt_app (d_name (ce_data e))). by apply Hab.
Qed.

Lemma lower_bound_le q l : (table_lower_bound q l <= length l)%nat.
Proof. induction l as [|e l IH]; simpl; [lia|]. case_match; lia. Qed.

Lemma lower_bound_before q l i e : l !! i = Some e → (i < table_lower_bound q l)%nat → entry_less_query e q = true.
Proof.
  revert i. induction l as [|f l IH]; intros i Hi Hlt; [done|]. simpl in Hlt. destruct (entry_less_query f q) eqn:E; [|lia].
  destruct i as [|i]; simpl in Hi; [by simplify_eq|]. apply (IH i); [done|lia].
Qed.

Lemma lower_bound_after q l i e : table_sorted l → l !! i = Some e → (table_lower_bound q l <= i)%nat →
  entry_less_query e q = false.
Proof.
  intros Hs. revert i. induction Hs as [|f l Hs IH Hf]; intros i Hi Hle; [done|]. simpl in Hle.
  destruct (entry_less_query f q) eqn:E.
  - destruct i as [|i]; [lia|]. simpl in Hi. apply (IH i); [done|lia].
  - destruct i as [|i]; simpl in Hi; [by simplify_eq|]. rewrite Forall_forall in Hf.
    specialize (Hf e (list_elem_of_lookup_2 _ _ _ Hi)). rewrite entry_less_query_key in *.
    destruct (key_lt (entry_key e) (query_key q)) eqn:Ee; [|done]. rewrite (key_lt_trans _ _ _ Hf Ee) in E. done.
Qed.

Lemma find_range_spec p l i j : (i <= j <= length l)%nat → let m := find_range p l i j in
  (m = j ∧ ∀ k e, (i <= k < j)%nat → l !! k = Some e → p e = false) ∨
  ((i <= m < j)%nat ∧ (∃ e, l !! m = Some e ∧ p e = true) ∧ ∀ k e, (i <= k < m)%nat → l !! k = Some e → p e = false).
Proof.
  intros Hij. unfold find_range.
  assert (Hlk : ∀ k, (i <= k < j)%nat → take (j - i) (drop i l) !! (k - i)%nat = l !! k).
  { intros k Hk. rewrite lookup_take_lt by lia. rewrite lookup_drop. f_equal. lia. }
  destruct (list_find _ _) as [[k e]|] eqn:E.
  - right. apply list_find_Some in E as (Hk & Hp & Hb). apply lookup_lt_Some in Hk as Hlt.
    rewrite length_take, length_drop in Hlt. rewrite <-Hlk by lia. replace (i + k - i)%nat with k by lia.
    split_and!; [lia|lia|eauto|]. intros k' e' Hk' He'. rewrite <-Hlk in He' by lia.
    specialize (Hb _ _ He' ltac:(lia)). by apply not_true_iff_false.
  - left. split; [done|]. intros k e Hk He. rewrite <-Hlk in He by lia. apply list_find_None in E.
    rewrite Forall_lookup in E. specialize (E _ _ He). by apply not_true_iff_false.
Qed.

Lemma find_last_range_spec p l i j : (i <= j <= length l)%nat → let m := find_last_range p l i j in
  (m = j ∧ ∀ k e, (i <= k < j)%nat → l !! k = Some e → p e = false) ∨
  ((i <= m < j)%nat ∧ (∃ e, l !! m = Some e ∧ p e = true) ∧ ∀ k e, (m < k < j)%nat → l !! k = Some e → p e = false).
Proof.
  intros Hij. unfold find_last_range. set (s := take (j - i) (drop i l)).
  assert (Hlen : length s = (j - i)%nat) by (subst s; rewrite length_take, length_drop; lia).
  assert (Hlk : ∀ k, (i <= k < j)%nat → rev s !! (j - 1 - k)%nat = l !! k).
  { intros k Hk. rewrite rev_alt. change (rev_append s []) with (reverse s).
    rewrite reverse_lookup by (rewrite Hlen; lia). rewrite Hlen. subst s. rewrite lookup_take_lt by lia.
    rewrite lookup_drop. f_equal. lia. }
  destruct (list_find _ (rev s)) as [[k e]|] eqn:E.
  - right. apply list_find_Some in E as (Hk & Hp & Hb). apply lookup_lt_Some in Hk as Hlt.
    rewrite length_rev, Hlen in Hlt. rewrite <-Hlk by lia. replace (j - 1 - (j - 1 - k))%nat with k by lia.
    split_and!; [lia|lia|eauto|]. intros k' e' Hk' He'. rewrite <-Hlk in He' by lia.
    specialize (Hb _ _ He' ltac:(lia)). by apply not_true_iff_false.
  - left. split; [done|]. intros k e Hk He. rewrite <-Hlk in He by lia. apply list_find_None in E.
    rewrite Forall_lookup in E. specialize (E _ _ He). by apply not_true_iff_false.
Qed.

(** A range of the table that holds whatever can satisfy the Interest. *)
Definition stored_ok (l : list CsEntry) : Prop :=
  ∀ e, e ∈ l → plain (d_name (ce_data e)) ∧ isImplicitSha256Digest (d_digest (ce_data e)) = true.

Definition find_first (interest : Interest) (l : list CsEntry) : nat := table_lower_bound (i_name interest) l.
Definition find_end (interest : Interest) (l : list CsEntry) : nat :=
  if bool_decide (i_name interest = []) then length l else table_lower_bound (name_successor (i_name interest)) l.

Lemma canSatisfy_prefix now interest e : matches_prefix → CsEntry_canSatisfy matchesData now interest e = true →
  i_name interest `prefix_of` getFullName (ce_data e).
Proof.
  intros Hm Hc. apply Hm. unfold CsEntry_canSatisfy in Hc. by destruct (matchesData interest (ce_data e)).
Qed.

Lemma satisfying_in_range now interest l i e : matches_prefix → table_sorted l → stored_ok l → l !! i = Some e →
  CsEntry_canSatisfy matchesData now interest e = true → (find_first interest l <= i < find_end interest l)%nat.
Proof.
  intros Hm Hs Hok Hi Hc. destruct (Hok e (list_elem_of_lookup_2 _ _ _ Hi)) as [Hpl Hd].
  destruct (entry_in_range e (i_name interest) Hpl Hd (canSatisfy_prefix _ _ _ Hm Hc)) as [Hlo Hhi].
  unfold find_first, find_end. split.
  - destruct (decide (i < table_lower_bound (i_name interest) l)%nat) as [Hlt|]; [|lia].
    rewrite (lower_bound_before _ _ _ _ Hi Hlt) in Hlo. done.
  - case_bool_decide as E; [by apply lookup_lt_Some in Hi|].
    destruct (decide (table_lower_bound (name_successor (i_name interest)) l <= i)%nat) as [Hle|]; [|lia].
    pose proof (lower_bound_after _ _ _ _ Hs Hi Hle). rewrite Hhi in *; done.
Qed.

Lemma find_range_bounds interest l : table_sorted l → (find_first interest l <= find_end interest l <= length l)%nat.
Proof.
  intros Hs. unfold find_first, find_end. case_bool_decide as E; [split; [apply lower_bound_le|done]|].
  split; [|apply lower_bound_le].
  destruct (decide (table_lower_bound (i_name interest) l <= table_lower_bound (name_successor (i_name interest)) l)%nat) as [|Hgt]; [done|].
  set (j := table_lower_bound (name_successor (i_name interest)) l) in *.
  destruct (lookup_lt_is_Some_2 l j) as [e He]; [pose proof (lower_bound_le (i_name interest) l); lia|].
  assert (Hlt : (j < table_lower_bound (i_name interest) l)%nat) by lia.
  pose proof (lower_bound_before _ _ _ _ He Hlt) as K1. pose proof (lower_bound_after _ _ _ _ Hs He (le_n _)) as K2.
  rewrite entry_less_query_key in K1, K2. exfalso.
  assert (Hl : key_lt (query_key (i_name interest)) (query_key (name_successor (i_name interest))) = true).
  { destruct (i_name interest) as [|c q _] using rev_ind; [done|]. destruct (name_successor_last q c) as (c' & E' & Ht).
    pose proof (name_successor_above (q ++ [c]) (q ++ [c]) ltac:(by destruct q) ltac:(done)) as Ha. rewrite E' in *.
    unfold query_key. rewrite !last_snoc, Ht. destruct (isImplicitSha256Digest c); unfold key_lt; simpl.
    - rewrite !getParentName_snoc, name_lt_irrefl, bool_decide_eq_true_2 by done. simpl. by rewrite name_lt_app in Ha.
    - by rewrite Ha. }
  by rewrite (key_lt_trans _ _ _ K1 Hl) in K2.
Qed.

Lemma sorted_index l i j e f : table_sorted l → l !! i = Some e → l !! j = Some f →
  key_lt (entry_key e) (entry_key f) = true ↔ (i < j)%nat.
Proof.
  intros Hs. revert i j. induction Hs as [|x l Hs IH Hx]; intros i j Hi Hj; [done|]. rewrite Forall_forall in Hx.
  destruct i as [|i], j as [|j]; simpl in *; simplify_eq.
  - rewrite key_lt_irrefl. split; [done|lia].
  - split; [lia|]. intros _. apply Hx. by eapply list_elem_of_lookup_2.
  - split; [|lia]. intros Hl. specialize (Hx e (list_elem_of_lookup_2 _ _ _ Hi)). rewrite (key_lt_asym _ _ Hx) in Hl. done.
  - rewrite IH by done. lia.
Qed.

(** *** Leftmost child *)

Definition leftmost_match (now : Z) (interest : Interest) (l : list CsEntry) (e : CsEntry) : Prop :=
  e ∈ l ∧ CsEntry_canSatisfy matchesData now interest e = true ∧
  ∀ f, f ∈ l → CsEntry_canSatisfy matchesData now interest f = true → entry_less f e = false.

Lemma findLeftmost_spec now interest l : matches_prefix → table_sorted l → stored_ok l →
  let m := Cs_findLeftmost matchesData now interest l (find_first interest l) (find_end interest l) in
  (m = find_end interest l ∧ ∀ f, f ∈ l → CsEntry_canSatisfy matchesData now interest f = false) ∨
  (m ≠ find_end interest l ∧ ∃ e, l !! m = Some e ∧ leftmost_match now interest l e).
Proof.
  intros Hm Hs Hok. unfold Cs_findLeftmost.
  destruct (find_range_spec (CsEntry_canSatisfy matchesData now interest) l _ _ (find_range_bounds interest l Hs))
    as [[E Hno]|(Hr & (e & He & Hc) & Hno)]; [left|right].
  - split; [done|]. intros f [i Hi]%list_elem_of_lookup. apply not_true_iff_false. intros Hf.
    pose proof (satisfying_in_range now interest l i f Hm Hs Hok Hi Hf). rewrite (Hno i f) in Hf; done.
  - split; [lia|]. exists e. split; [done|]. split_and!; [by eapply list_elem_of_lookup_2|done|].
    intros f [i Hi]%list_elem_of_lookup Hf. rewrite entry_less_key. apply not_true_iff_false.
    rewrite (sorted_index l i _ f e Hs Hi He). intros Hlt.
    pose proof (satisfying_in_range now interest l i f Hm Hs Hok Hi Hf). rewrite (Hno i f) in Hf; [done|lia|done].
Qed.

(** *** Rightmost child

    The search is right for Interests whose last name component is not a digest. *)

Definition by_prefix (interest : Interest) : Prop :=
  ∀ c, last (i_name interest) = Some c → isImplicitSha256Digest c = false.

(** The match in the rightmost child that has one, leftmost within the child;
    Data named exactly as the Interest come before every child. *)
Definition rightmost_match (now : Z) (interest : Interest) (l : list CsEntry) (e : CsEntry) : Prop :=
  let child := getPrefix (d_name (ce_data e)) (length (i_name interest) + 1) in
  e ∈ l ∧ CsEntry_canSatisfy matchesData now interest e = true ∧
  ∀ f, f ∈ l → CsEntry_canSatisfy matchesData now interest f = true →
    if decide (length (d_name (ce_data e)) ≠ length (i_name interest) ∧ child `prefix_of` d_name (ce_data f))
    then entry_less f e = false
    else entry_less e f = false.

Lemma query_key_by_name q : (∀ c, last q = Some c → isImplicitSha256Digest c = false) → query_key q = (q, None).
Proof. intros Hq. unfold query_key. destruct (last q) as [c|]; [|done]. by rewrite (Hq c). Qed.

Lemma entry_less_query_name e q : (∀ c, last q = Some c → isImplicitSha256Digest c = false) →
  entry_less_query e q = name_lt (d_name (ce_data e)) q.
Proof.
  intros Hq. rewrite entry_less_query_key, query_key_by_name by done. unfold key_lt, entry_key. simpl.
  by rewrite andb_false_r, orb_false_r.
Qed.

Lemma plain_last n p c : plain n → p `prefix_of` n → last p = Some c → isImplicitSha256Digest c = false.
Proof. intros Hp [k ->] Hl. apply Hp. apply last_Some_elem_of in Hl. set_solver. Qed.

Lemma in_range_prefix interest l i e : table_sorted l → by_prefix interest → l !! i = Some e →
  (find_first interest l <= i < find_end interest l)%nat → i_name interest `prefix_of` d_name (ce_data e).
Proof.
  intros Hs Hb Hi [Hlo Hhi]. unfold find_first, find_end in *.
  pose proof (lower_bound_after _ _ _ _ Hs Hi Hlo) as K1. rewrite entry_less_query_name in K1 by done.
  case_bool_decide as E; [rewrite E; apply prefix_nil|].
  pose proof (lower_bound_before _ _ _ _ Hi Hhi) as K2.
  destruct (i_name interest) as [|c q _] eqn:Eq using rev_ind; [done|].
  destruct (name_successor_last q c) as (c' & E' & Ht).
  rewrite entry_less_query_name in K2.
  - by apply name_successor_below.
  - rewrite E'. intros d. rewrite last_snoc. intros [= <-]. rewrite Ht. apply Hb. rewrite Eq. apply last_snoc.
Qed.

Lemma entry_less_names e f : name_lt (d_name (ce_data e)) (d_name (ce_data f)) = true → entry_less e f = true.
Proof. intros Hl. rewrite entry_less_key. unfold key_lt, entry_key. simpl. by rewrite Hl. Qed.

(** The entries from [lower_bound(child)] up to one under [child] are under it. *)
Lemma under_child l child left j prev : table_sorted l → (∀ c, last child = Some c → isImplicitSha256Digest c = false) →
  left = table_lower_bound child l → l !! j = Some prev → child `prefix_of` d_name (ce_data prev) →
  (left <= j)%nat ∧
  ∀ k e, (k <= j)%nat → l !! k = Some e → child `prefix_of` d_name (ce_data e) ↔ (left <= k)%nat.
Proof.
  intros Hs Hc -> Hj Hpre.
  assert (Hless : ∀ k e, l !! k = Some e → child `prefix_of` d_name (ce_data e) → (table_lower_bound child l <= k)%nat).
  { intros k e Hk Hp. destruct (decide (k < table_lower_bound child l)%nat) as [Hlt|]; [|lia].
    pose proof (lower_bound_before _ _ _ _ Hk Hlt) as K. rewrite entry_less_query_name in K by done.
    by rewrite name_lt_prefix in K. }
  split; [by eapply Hless|]. intros k e Hkj Hk. split; [by apply Hless|]. intros Hle.
  apply (name_lt_contiguous child _ (d_name (ce_data prev))); [done| |].
  - pose proof (lower_bound_after _ _ _ _ Hs Hk Hle) as K. by rewrite entry_less_query_name in K.
  - apply not_true_iff_false. intros Hl%entry_less_names. rewrite entry_less_key, (sorted_index l j k) in Hl by done. lia.
Qed.

Definition rightmost_post now interest l right (r : option nat) : Prop :=
  ∃ m, r = Some m ∧
  ((m = find_end interest l ∧ ∀ k f, (find_first interest l <= k < right)%nat → l !! k = Some f →
      CsEntry_canSatisfy matchesData now interest f = false) ∨
   ((m < right)%nat ∧ ∃ e, l !! m = Some e ∧ rightmost_match now interest l e)).

(** The last case: the entries left are named exactly as the Interest. *)
Lemma rightmost_exact now interest l right prev : matches_prefix → table_sorted l → stored_ok l → by_prefix interest →
  (find_first interest l < right <= find_end interest l)%nat → l !! (right - 1)%nat = Some prev →
  length (d_name (ce_data prev)) = length (i_name interest) →
  (∀ k f, (right <= k < find_end interest l)%nat → l !! k = Some f → CsEntry_canSatisfy matchesData now interest f = false) →
  let m := Cs_findRightmostAmongExact matchesData now interest l (find_first interest l) right in
  rightmost_post now interest l right (if bool_decide (m = right) then Some (find_end interest l) else Some m).
Proof.
  intros Hm Hs Hok Hb Hr Hprev Hlen Hdone. pose proof (find_range_bounds interest l Hs) as Hbd.
  unfold Cs_findRightmostAmongExact.
  destruct (find_last_range_spec (CsEntry_canSatisfy matchesData now interest) l (find_first interest l) right ltac:(lia))
    as [[E Hno]|(Hrange & (e & He & Hc) & Hno)]; simpl in *.
  - rewrite bool_decide_eq_true_2 by done. eexists. split; [done|]. left. done.
  - rewrite bool_decide_eq_false_2 by lia. eexists. split; [done|]. right. split; [lia|]. exists e. split; [done|].
    split_and!; [by eapply list_elem_of_lookup_2|done|]. intros f [k Hk]%list_elem_of_lookup Hf.
    assert (Hel : length (d_name (ce_data e)) = length (i_name interest)).
    { pose proof (in_range_prefix interest l _ e Hs Hb He ltac:(lia)) as Hpe.
      pose proof (in_range_prefix interest l _ prev Hs Hb Hprev ltac:(lia)) as Hpp.
      assert (Ep : i_name interest = d_name (ce_data prev)) by (apply prefix_length_eq; [done|lia]).
      f_equal. symmetry. destruct (decide (i_name interest = d_name (ce_data e))) as [|Hne]; [done|].
      destruct (name_lt_total _ _ Hne) as [Hl|Hl].
      - rewrite Ep in Hl. apply entry_less_names in Hl. rewrite entry_less_key, (sorted_index l) in Hl by done. lia.
      - by rewrite name_lt_prefix in Hl. }
    rewrite decide_False by (intros [? _]; done). rewrite entry_less_key. apply not_true_iff_false.
    rewrite (sorted_index l _ k e f Hs He Hk). intros Hlt.
    pose proof (satisfying_in_range now interest l k f Hm Hs Hok Hk Hf).
    destruct (decide (k < right)%nat); [rewrite (Hno k f) in Hf|rewrite (Hdone k f) in Hf]; try done; lia.
Qed.

Lemma rightmost_hit now interest l right left prev m : matches_prefix → table_sorted l → stored_ok l → by_prefix interest →
  (find_first interest l < right <= find_end interest l)%nat → l !! (right - 1)%nat = Some prev →
  length (d_name (ce_data prev)) ≠ length (i_name interest) →
  (∀ k f, (right <= k < find_end interest l)%nat → l !! k = Some f → CsEntry_canSatisfy matchesData now interest f = false) →
  left = table_lower_bound (getPrefix (d_name (ce_data prev)) (length (i_name interest) + 1)) l →
  (left <= m < right)%nat → (∃ e, l !! m = Some e ∧ CsEntry_canSatisfy matchesData now interest e = true) →
  (∀ k e, (left <= k < m)%nat → l !! k = Some e → CsEntry_canSatisfy matchesData now interest e = false) →
  rightmost_post now interest l right (Some m).
Proof.
  intros Hm Hs Hok Hb Hr Hprev Hlen Hdone Hleft Hmr (e & He & Hc) Hno.
  set (child := getPrefix (d_name (ce_data prev)) (length (i_name interest) + 1)) in *.
  destruct (Hok prev (list_elem_of_lookup_2 _ _ _ Hprev)) as [Hpl _].
  assert (Hcp : child `prefix_of` d_name (ce_data prev)) by apply prefix_take.
  destruct (under_child l child left (right - 1) prev Hs (λ c, plain_last _ _ c Hpl Hcp) Hleft Hprev Hcp) as [_ Hunder].
  pose proof (in_range_prefix interest l _ prev Hs Hb Hprev ltac:(lia)) as Hpp.
  assert (Hcl : length child = (length (i_name interest) + 1)%nat).
  { unfold child, getPrefix. rewrite length_take. apply prefix_length in Hpp. lia. }
  assert (Hce : child `prefix_of` d_name (ce_data e)) by (apply (Hunder m e); [lia|done|lia]).
  assert (Eche : getPrefix (d_name (ce_data e)) (length (i_name interest) + 1) = child).
  { unfold getPrefix. rewrite <-Hcl. symmetry. by apply prefix_take_iff. }
  eexists. split; [done|]. right. split; [lia|]. exists e. split; [done|]. split_and!; [by eapply list_elem_of_lookup_2|done|].
  rewrite Eche. intros f [k Hk]%list_elem_of_lookup Hf.
  pose proof (satisfying_in_range now interest l k f Hm Hs Hok Hk Hf).
  assert (Hkr : (k < right)%nat).
  { destruct (decide (k < right)%nat); [done|]. rewrite (Hdone k f) in Hf; [done|lia|done]. }
  case_decide as Hd; rewrite entry_less_key; apply not_true_iff_false.
  - destruct Hd as [_ Hd]. apply (Hunder k f) in Hd; [|lia|done]. rewrite (sorted_index l k m f e Hs Hk He). intros Hlt.
    rewrite (Hno k f) in Hf; [done|lia|done].
  - rewrite (sorted_index l m k e f Hs He Hk). intros Hlt. apply Hd. split.
    + apply prefix_length in Hce. lia.
    + apply (Hunder k f); [lia|done|lia].
Qed.

Lemma findRightmost_loop_spec now interest l : matches_prefix → table_sorted l → stored_ok l → by_prefix interest →
  ∀ fuel right, (find_first interest l <= right <= find_end interest l)%nat → (right - find_first interest l < fuel)%nat →
  (∀ k f, (right <= k < find_end interest l)%nat → l !! k = Some f → CsEntry_canSatisfy matchesData now interest f = false) →
  rightmost_post now interest l right
    (Cs_findRightmost_loop matchesData fuel now interest l (find_first interest l) (find_end interest l) right).
Proof.
  intros Hm Hs Hok Hb fuel. pose proof (find_range_bounds interest l Hs) as Hbd.
  induction fuel as [|fuel IH]; intros right Hr Hf Hdone; [lia|]. cbn [Cs_findRightmost_loop].
  case_bool_decide as E1; [eexists; split; [done|]; left; split; [done|lia]|].
  rewrite bool_decide_eq_false_2 by lia.
  destruct (lookup_lt_is_Some_2 l (right - 1)) as [prev Hprev]; [lia|]. rewrite Hprev. simpl.
  case_bool_decide as E2; [by apply (rightmost_exact now interest l right prev); try done; lia|].
  set (child := getPrefix (d_name (ce_data prev)) (length (i_name interest) + 1)).
  set (left := table_lower_bound child l).
  destruct (Hok prev (list_elem_of_lookup_2 _ _ _ Hprev)) as [Hpl _].
  assert (Hcp : child `prefix_of` d_name (ce_data prev)) by apply prefix_take.
  pose proof (λ c, plain_last _ _ c Hpl Hcp) as Hclast.
  destruct (under_child l child left (right - 1) prev Hs Hclast eq_refl Hprev Hcp) as [Hlr Hunder].
  assert (Hfl : (find_first interest l <= left)%nat).
  { pose proof (in_range_prefix interest l _ prev Hs Hb Hprev ltac:(lia)) as Hpp.
    destruct (decide (find_first interest l <= left)%nat) as [|Hgt]; [done|]. exfalso.
    destruct (lookup_lt_is_Some_2 l left) as [e He]; [lia|].
    assert (Hce : child `prefix_of` d_name (ce_data e)) by (apply (Hunder left e); [lia|done|lia]).
    pose proof (lower_bound_before (i_name interest) l left e He ltac:(unfold find_first in *; lia)) as K.
    rewrite entry_less_query_name in K by done. rewrite name_lt_prefix in K; [done|].
    etrans; [|exact Hce]. unfold child, getPrefix. destruct Hpp as [k ->].
    rewrite take_app. rewrite take_ge by lia. by apply prefix_app_r. }
  unfold Cs_findLeftmost.
  destruct (find_range_spec (CsEntry_canSatisfy matchesData now interest) l left right ltac:(lia))
    as [[E Hno]|(Hrange & Hex & Hno)]; simpl in *.
  - rewrite bool_decide_eq_false_2 by (intros Hne; by apply Hne).
    destruct (IH left ltac:(lia) ltac:(lia)) as (m & Em & Hcase).
    { intros k f Hk Hfk. destruct (decide (k < right)%nat); [apply (Hno k); [lia|done]|apply (Hdone k); [lia|done]]. }
    exists m. split; [done|]. destruct Hcase as [[-> Hnone]|[Hlt Hhit]]; [left|right; split; [lia|done]].
    split; [done|]. intros k f Hk Hfk. destruct (decide (k < left)%nat); [apply (Hnone k); [lia|done]|apply (Hno k); [lia|done]].
  - rewrite bool_decide_eq_true_2 by lia. by apply (rightmost_hit now interest l right left prev); try done; lia.
Qed.

Lemma findRightmost_spec now interest l : matches_prefix → table_sorted l → stored_ok l → by_prefix interest →
  ∃ m, Cs_findRightmost matchesData now interest l (find_first interest l) (find_end interest l) = Some m ∧
  ((m = find_end interest l ∧ ∀ f, f ∈ l → CsEntry_canSatisfy matchesData now interest f = false) ∨
   (m ≠ find_end interest l ∧ ∃ e, l !! m = Some e ∧ rightmost_match now interest l e)).
Proof.
  intros Hm Hs Hok Hb. pose proof (find_range_bounds interest l Hs) as Hbd.
  destruct (findRightmost_loop_spec now interest l Hm Hs Hok Hb (Datatypes.S (length l)) (find_end interest l))
    as (m & E & Hcase); [lia|lia|lia|]. exists m. split; [done|].
  destruct Hcase as [[-> Hno]|[Hlt Hhit]]; [left|right; split; [lia|done]]. split; [done|].
  intros f [k Hk]%list_elem_of_lookup. apply not_true_iff_false. intros Hf.
  pose proof (satisfying_in_range now interest l k f Hm Hs Hok Hk Hf). rewrite (Hno k f) in Hf; done.
Qed.

(** *** [find] *)

Lemma Cs_find_spec now interest cs : matches_prefix → cs_wf cs → stored_ok (cs_table cs) →
  (sel_childSelector (i_selectors interest) = 1 → by_prefix interest) →
  ∃ r cs', Cs_find matchesData now interest cs = Some (r, cs') ∧ cs_wf cs' ∧ cs_table cs' = cs_table cs ∧
    cs_limit cs' = cs_limit cs ∧
    match r with
    | None => ∀ e, e ∈ cs_table cs → CsEntry_canSatisfy matchesData now interest e = false
    | Some d => ∃ e, ce_data e = d ∧
        if decide (sel_childSelector (i_selectors interest) = 1)
        then rightmost_match now interest (cs_table cs) e
        else leftmost_match now interest (cs_table cs) e
    end.
Proof.
  intros Hm Hw Hok Hb. pose proof (cw_sorted _ Hw) as Hs. unfold Cs_find.
  fold (find_first interest (cs_table cs)). fold (find_end interest (cs_table cs)).
  assert (Hhit : ∀ m e, m ≠ find_end interest (cs_table cs) → cs_table cs !! m = Some e →
    ∃ s, (if bool_decide (m = find_end interest (cs_table cs)) then Some (None, cs)
      else entry ← cs_table cs !! m; s ← policy_beforeUse entry (cs_policy cs);
           Some (Some (ce_data entry), mkCs (cs_table cs) s (cs_limit cs))) =
      Some (Some (ce_data e), mkCs (cs_table cs) s (cs_limit cs)) ∧ cs_wf (mkCs (cs_table cs) s (cs_limit cs))).
  { intros m e Hne He. rewrite bool_decide_eq_false_2 by done. rewrite He. simpl.
    destruct Hw as [_ Hp Hk Hl Hsz].
    destruct (policy_beforeUse_spec e (cs_policy cs) Hp) as (s & -> & Hp' & Hk').
    { rewrite Hk. apply list_elem_of_fmap_2. by eapply list_elem_of_lookup_2. }
    exists s. split; [done|]. split; simpl; [done|done|by rewrite Hk'|done|done]. }
  destruct (Z.eqb_spec (sel_childSelector (i_selectors interest)) 1) as [Ec|Ec].
  - destruct (findRightmost_spec now interest (cs_table cs) Hm Hs Hok (Hb Ec)) as (m & -> & [[-> Hno]|(Hne & e & He & Hr)]); simpl.
    + rewrite bool_decide_eq_true_2 by done. by exists None, cs.
    + destruct (Hhit m e Hne He) as (s & -> & Hw'). eexists _, _. split_and!; [done..|]. exists e. by rewrite decide_True.
  - destruct (findLeftmost_spec now interest (cs_table cs) Hm Hs Hok) as [[E Hno]|(Hne & e & He & Hr)]; simpl in *.
    + rewrite bool_decide_eq_true_2 by done. by exists None, cs.
    + destruct (Hhit _ e Hne He) as (s & -> & Hw'). eexists _, _. split_and!; [done..|]. exists e. by rewrite decide_False.
Qed.
End store.
