(* ===== verification/CsPolicies.v ===== *)
(** * Replacement policies: [daemon/table/cs-policy-lru.cpp],
    [daemon/table/cs-policy-priority-fifo.cpp]

    Both policies implement the interface [CsPolicy] of ContentStore.v; the
    instances of [CsPolicyLaws] are what the store's theorems need of them.  A
    table iterator is the key of the entry it points to.  An operation returns
    [None] when one of its assertions fails. *)

From S2P Require Import Prelude Packets PitEntry ContentStore.

(** Erasing through a stored iterator *)
Definition queue_erase (k : CsKey) (q : list CsKey) : list CsKey := erase_first (λ x, bool_decide (x = k)) q.

Lemma queue_erase_perm k q : k ∈ q → Permutation q (k :: queue_erase k q).
Proof.
  unfold queue_erase. induction q as [|x q IH]; simpl; [by intros ?%elem_of_nil|].
  case_bool_decide as E; [by subst|]. intros [->|Hk]%elem_of_cons; [done|].
  rewrite (IH Hk) at 1. apply perm_swap.
Qed.

Lemma queue_erase_sublist k q : queue_erase k q `sublist_of` q.
Proof.
  unfold queue_erase. induction q as [|x q IH]; simpl; [done|].
  case_bool_decide; [by apply sublist_cons|by apply sublist_skip].
Qed.

Lemma queue_erase_notin k q : k ∉ q → queue_erase k q = q.
Proof.
  unfold queue_erase. induction q as [|x q IH]; simpl; [done|].
  rewrite not_elem_of_cons. intros [Hx Hq]. rewrite bool_decide_eq_false_2 by congruence. f_equal. auto.
Qed.

Lemma elem_of_queue_erase k x q : NoDup q → x ∈ queue_erase k q ↔ x ∈ q ∧ x ≠ k.
Proof.
  intros Hnd. destruct (decide (k ∈ q)) as [Hk|Hk].
  - pose proof (queue_erase_perm _ _ Hk) as Hp. rewrite Hp in Hnd. apply NoDup_cons in Hnd as [Hn _].
    assert (Hx : x ∈ q ↔ x = k ∨ x ∈ queue_erase k q) by (rewrite Hp at 1; apply elem_of_cons).
    split; [|naive_solver]. intros Hin. split; [naive_solver|]. by intros ->.
  - rewrite queue_erase_notin by done. split; [|by intros [? _]]. intros Hx. split; [done|]. by intros ->.
Qed.

Lemma queue_erase_NoDup k q : NoDup q → NoDup (queue_erase k q).
Proof. intros. eapply sublist_NoDup; [done|apply queue_erase_sublist]. Qed.

(** ** LRU *)

Definition lru_insertToQueue (i : CsKey) (isNewEntry : bool) (q : list CsKey) : option (list CsKey) :=
  let isNew := negb (bool_decide (i ∈ q)) in
  let q := if isNew then q ++ [i] else q in
  if negb (eqb isNew isNewEntry) then None
  else if negb isNewEntry then Some (queue_erase i q ++ [i])
  else Some q.

Definition lru_doAfterInsert (now : Z) (e : CsEntry) (q : list CsKey) : option (list CsKey) :=
  lru_insertToQueue (ce_key e) true q.
Definition lru_doAfterRefresh (now : Z) (e : CsEntry) (q : list CsKey) : option (list CsKey) :=
  lru_insertToQueue (ce_key e) false q.
Definition lru_doBeforeErase (i : CsKey) (q : list CsKey) : option (list CsKey) := Some (queue_erase i q).
Definition lru_doBeforeUse (e : CsEntry) (q : list CsKey) : option (list CsKey) :=
  lru_insertToQueue (ce_key e) false q.
Definition lru_evictOne (q : list CsKey) : option (CsKey * list CsKey) :=
  match q with [] => None | i :: q' => Some (i, q') end.

Definition LruQueue : Type := list CsKey.
#[export] Instance LruPolicy : CsPolicy LruQueue := {
  policy_afterInsert := lru_doAfterInsert;
  policy_afterRefresh := lru_doAfterRefresh;
  policy_beforeErase := lru_doBeforeErase;
  policy_beforeUse := lru_doBeforeUse;
  policy_evictOne := lru_evictOne
}.

Lemma lru_insert_new k (q : list CsKey) : k ∉ q → lru_insertToQueue k true q = Some (q ++ [k]).
Proof. intros Hk. unfold lru_insertToQueue. by rewrite bool_decide_eq_false_2. Qed.

Lemma lru_insert_old k (q : list CsKey) : k ∈ q → lru_insertToQueue k false q = Some (queue_erase k q ++ [k]).
Proof. intros Hk. unfold lru_insertToQueue. by rewrite bool_decide_eq_true_2. Qed.

Lemma lru_move_perm k q : k ∈ q → Permutation (queue_erase k q ++ [k]) q.
Proof. intros Hk. rewrite (queue_erase_perm k q Hk) at 2. symmetry. apply Permutation_cons_append. Qed.

#[export] Program Instance LruPolicyLaws : CsPolicyLaws LruQueue := {
  policy_inv q := NoDup q;
  policy_keys q := q
}.
Next Obligation. done. Qed.
Next Obligation.
  intros now e q Hnd Hk. exists (q ++ [ce_key e]). split_and!.
  - by apply lru_insert_new.
  - rewrite <-Permutation_cons_append. by apply NoDup_cons.
  - by rewrite <-Permutation_cons_append.
Qed.
Next Obligation.
  intros now e q Hnd Hk. exists (queue_erase (ce_key e) q ++ [ce_key e]). split_and!.
  - by apply lru_insert_old.
  - by rewrite lru_move_perm.
  - by apply lru_move_perm.
Qed.
Next Obligation.
  intros k q Hnd Hk. exists (queue_erase k q). split_and!; [done|by apply queue_erase_NoDup|by apply queue_erase_perm].
Qed.
Next Obligation.
  intros e q Hnd Hk. exists (queue_erase (ce_key e) q ++ [ce_key e]). split_and!.
  - by apply lru_insert_old.
  - by rewrite lru_move_perm.
  - by apply lru_move_perm.
Qed.
Next Obligation.
  intros [|k q] Hnd Hne; [done|]. exists k, q. apply NoDup_cons in Hnd as [_ Hnd]. by split_and!.
Qed.

(** The abstract policy: every entry has the time of its last use, and the entry
    used least recently is evicted. *)
Record LruSpec := mkLruSpec { ls_clock : nat; ls_lastUse : gmap CsKey nat }.

Definition lru_touch (k : CsKey) (s : LruSpec) : LruSpec :=
  mkLruSpec (S (ls_clock s)) (<[k := ls_clock s]> (ls_lastUse s)).
Definition lru_forget (k : CsKey) (s : LruSpec) : LruSpec := mkLruSpec (ls_clock s) (delete k (ls_lastUse s)).

(** The queue holds the same keys, in the order of their last use. *)
Definition used_before (s : LruSpec) (k l : CsKey) : Prop :=
  ∃ n m, ls_lastUse s !! k = Some n ∧ ls_lastUse s !! l = Some m ∧ (n < m)%nat.

Record lru_refines (q : list CsKey) (s : LruSpec) : Prop := {
  lr_keys k : k ∈ q ↔ is_Some (ls_lastUse s !! k);
  lr_order : StronglySorted (used_before s) q;
  lr_clock k n : ls_lastUse s !! k = Some n → (n < ls_clock s)%nat
}.

Inductive LruOp := LruInsert (e : CsEntry) | LruRefresh (e : CsEntry) | LruUse (e : CsEntry) | LruErase (k : CsKey) | LruEvict.

Definition lru_step (now : Z) (op : LruOp) (q : list CsKey) : option (list CsKey) :=
  match op with
  | LruInsert e => policy_afterInsert now e (q : LruQueue)
  | LruRefresh e => policy_afterRefresh now e (q : LruQueue)
  | LruUse e => policy_beforeUse e (q : LruQueue)
  | LruErase k => policy_beforeErase k (q : LruQueue)
  | LruEvict => snd <$> policy_evictOne (q : LruQueue)
  end.

(** What the abstract policy allows: LruEvict forgets a least recently used key. *)
Inductive lru_spec_step : LruOp → LruSpec → LruSpec → Prop :=
  | spec_insert e s : ls_lastUse s !! ce_key e = None → lru_spec_step (LruInsert e) s (lru_touch (ce_key e) s)
  | spec_refresh e s : is_Some (ls_lastUse s !! ce_key e) → lru_spec_step (LruRefresh e) s (lru_touch (ce_key e) s)
  | spec_use e s : is_Some (ls_lastUse s !! ce_key e) → lru_spec_step (LruUse e) s (lru_touch (ce_key e) s)
  | spec_erase k s : lru_spec_step (LruErase k) s (lru_forget k s)
  | spec_evict k n s : ls_lastUse s !! k = Some n →
      (∀ l m, ls_lastUse s !! l = Some m → (n <= m)%nat) → lru_spec_step LruEvict s (lru_forget k s).

Lemma StronglySorted_snoc {A} (R : A → A → Prop) l x :
  StronglySorted R l → (∀ y, y ∈ l → R y x) → StronglySorted R (l ++ [x]).
Proof.
  induction 1 as [|y l Hl IH Hy]; intros Hx; simpl; [by repeat constructor|].
  constructor; [apply IH; set_solver|]. apply Forall_app. split; [done|]. repeat constructor. set_solver.
Qed.

Lemma StronglySorted_weaken {A} (R R' : A → A → Prop) l :
  StronglySorted R l → (∀ x y, x ∈ l → y ∈ l → R x y → R' x y) → StronglySorted R' l.
Proof.
  induction 1 as [|y l Hl IH Hy]; intros HR; constructor; [apply IH; set_solver|].
  rewrite !Forall_forall in *. intros x Hx. apply HR; [set_solver|set_solver|]. by apply Hy.
Qed.

Lemma lru_order_NoDup q s : lru_refines q s → NoDup q.
Proof.
  intros [_ Ho _]. induction Ho as [|y l Hl IH Hy]; constructor; [|done].
  intros Hin. rewrite Forall_forall in Hy. destruct (Hy _ Hin) as (n & m & ? & ? & ?). simplify_eq. lia.
Qed.

Lemma lru_touch_refines q s k : lru_refines q s → lru_refines (queue_erase k q ++ [k]) (lru_touch k s).
Proof.
  intros Hr. pose proof (lru_order_NoDup _ _ Hr) as Hnd. split; simpl.
  - intros x. rewrite elem_of_app, elem_of_queue_erase, list_elem_of_singleton, (lr_keys _ _ Hr) by done.
    rewrite lookup_insert_is_Some. destruct (decide (x = k)); naive_solver.
  - apply StronglySorted_snoc.
    + eapply StronglySorted_weaken.
      { eapply StronglySorted_sublist; [apply queue_erase_sublist|apply (lr_order _ _ Hr)]. }
      intros x y Hx Hy (n & m & ? & ? & ?). rewrite elem_of_queue_erase in Hx, Hy by done.
      exists n, m. unfold lru_touch. simpl. rewrite !lookup_insert_ne by naive_solver. done.
    + intros y Hy. rewrite elem_of_queue_erase in Hy by done. destruct Hy as [Hy Hne].
      apply (lr_keys _ _ Hr) in Hy as [n Hn]. exists n, (ls_clock s). unfold lru_touch. simpl.
      rewrite lookup_insert_ne, lookup_insert_eq by done. split_and!; [done|done|]. by apply (lr_clock _ _ Hr) in Hn.
  - intros x n. rewrite lookup_insert_Some. intros [[<- <-]|[_ Hx]]; [lia|]. apply (lr_clock _ _ Hr) in Hx. lia.
Qed.

Lemma lru_forget_refines q s k : lru_refines q s → lru_refines (queue_erase k q) (lru_forget k s).
Proof.
  intros Hr. pose proof (lru_order_NoDup _ _ Hr) as Hnd. split; simpl.
  - intros x. rewrite elem_of_queue_erase, lookup_delete_is_Some, (lr_keys _ _ Hr) by done. naive_solver.
  - eapply StronglySorted_weaken.
    { eapply StronglySorted_sublist; [apply queue_erase_sublist|apply (lr_order _ _ Hr)]. }
    intros x y Hx Hy (n & m & ? & ? & ?). rewrite elem_of_queue_erase in Hx, Hy by done.
    exists n, m. simpl. rewrite !lookup_delete_ne by naive_solver. done.
  - intros x n. rewrite lookup_delete_Some. intros [_ Hx]. by apply (lr_clock _ _ Hr) in Hx.
Qed.

(** Every step of the queue is a step of the abstract policy. *)
Lemma lru_step_refines now op q q' s : lru_refines q s → lru_step now op q = Some q' →
  ∃ s', lru_spec_step op s s' ∧ lru_refines q' s'.
Proof.
  intros Hr. pose proof (lru_touch_refines q s) as Ht. pose proof (lru_forget_refines q s) as Hf.
  destruct op as [e|e|e|k|]; simpl; intros E.
  - unfold lru_doAfterInsert, lru_insertToQueue in E. case_bool_decide as Hk; simplify_eq/=.
    exists (lru_touch (ce_key e) s). split.
    + constructor. apply eq_None_not_Some. by rewrite <-(lr_keys _ _ Hr).
    + rewrite <-(queue_erase_notin (ce_key e) q) by done. by apply Ht.
  - unfold lru_doAfterRefresh, lru_insertToQueue in E. case_bool_decide as Hk; simplify_eq/=.
    eexists. split; [apply spec_refresh; by apply (lr_keys _ _ Hr)|by apply Ht].
  - unfold lru_doBeforeUse, lru_insertToQueue in E. case_bool_decide as Hk; simplify_eq/=.
    eexists. split; [apply spec_use; by apply (lr_keys _ _ Hr)|by apply Ht].
  - unfold lru_doBeforeErase in E. simplify_eq. eexists. split; [apply spec_erase|by apply Hf].
  - destruct q as [|k q]; simplify_eq/=.
    destruct (proj1 (lr_keys _ _ Hr k)) as [n Hn]; [set_solver|].
    exists (lru_forget k s). split.
    + apply (spec_evict k n); [done|]. intros l m Hl.
      assert (Hin : l ∈ k :: q') by (apply (lr_keys _ _ Hr); eauto).
      apply elem_of_cons in Hin as [->|Hin]; [simplify_eq; lia|].
      pose proof (lr_order _ _ Hr) as Ho. apply StronglySorted_inv in Ho as [_ Ho].
      rewrite Forall_forall in Ho. destruct (Ho _ Hin) as (n' & m' & ? & ? & ?). simplify_eq. lia.
    + specialize (Hf k Hr). unfold queue_erase in Hf. simpl in Hf. by rewrite bool_decide_eq_true_2 in Hf.
Qed.

(** A step the abstract policy allows never fails an assertion. *)
Lemma lru_step_total now op q s s' : lru_refines q s → lru_spec_step op s s' → is_Some (lru_step now op q).
Proof.
  intros Hr Hs. destruct Hs as [e s Hk|e s Hk|e s Hk|k s|k n s Hk Hm]; simpl.
  - assert (Hn : ce_key e ∉ q) by (rewrite (lr_keys _ _ Hr), Hk; by intros [? ?]).
    unfold lru_doAfterInsert. by rewrite lru_insert_new.
  - rewrite <-(lr_keys _ _ Hr) in Hk. unfold lru_doAfterRefresh. by rewrite lru_insert_old.
  - rewrite <-(lr_keys _ _ Hr) in Hk. unfold lru_doBeforeUse. by rewrite lru_insert_old.
  - done.
  - assert (Hin : k ∈ q) by (rewrite (lr_keys _ _ Hr), Hk; eauto). destruct q; [by apply elem_of_nil in Hin|done].
Qed.

(** ** Priority FIFO *)

Inductive QueueType := QUEUE_UNSOLICITED | QUEUE_STALE | QUEUE_FIFO.

#[export] Instance QueueType_eq_dec : EqDecision QueueType.
Proof. solve_decision. Defined.

(** [queueIt] is the key itself, once in its queue.  [pf_scheduled] holds the
    pending moveToStaleQueue callbacks: their time and bound iterator. *)
Record EntryInfo := mkEntryInfo { queueType : QueueType; moveStaleEventId : option positive }.

Record PriorityFifo := mkPriorityFifo {
  pf_unsolicited : list CsKey;
  pf_stale : list CsKey;
  pf_fifo : list CsKey;
  pf_entryInfoMap : gmap CsKey EntryInfo;
  pf_scheduled : gmap positive (Z * CsKey);
  pf_nextEvent : positive
}.

Definition PriorityFifo_new : PriorityFifo := mkPriorityFifo [] [] [] ∅ ∅ 1.

Definition pf_queue (t : QueueType) (s : PriorityFifo) : list CsKey :=
  match t with QUEUE_UNSOLICITED => pf_unsolicited s | QUEUE_STALE => pf_stale s | QUEUE_FIFO => pf_fifo s end.
Definition pf_setQueue (t : QueueType) (q : list CsKey) (s : PriorityFifo) : PriorityFifo :=
  let '(mkPriorityFifo u st f m sch n) := s in
  match t with
  | QUEUE_UNSOLICITED => mkPriorityFifo q st f m sch n
  | QUEUE_STALE => mkPriorityFifo u q f m sch n
  | QUEUE_FIFO => mkPriorityFifo u st q m sch n
  end.
Definition pf_setInfo (m : gmap CsKey EntryInfo) (s : PriorityFifo) : PriorityFifo :=
  mkPriorityFifo (pf_unsolicited s) (pf_stale s) (pf_fifo s) m (pf_scheduled s) (pf_nextEvent s).
Definition pf_schedule (time : Z) (i : CsKey) (s : PriorityFifo) : positive * PriorityFifo :=
  (pf_nextEvent s,
   mkPriorityFifo (pf_unsolicited s) (pf_stale s) (pf_fifo s) (pf_entryInfoMap s)
     (<[pf_nextEvent s := (time, i)]> (pf_scheduled s)) (Pos.succ (pf_nextEvent s))).
Definition pf_cancel (id : option positive) (s : PriorityFifo) : PriorityFifo :=
  match id with
  | Some id => mkPriorityFifo (pf_unsolicited s) (pf_stale s) (pf_fifo s) (pf_entryInfoMap s)
                 (delete id (pf_scheduled s)) (pf_nextEvent s)
  | None => s
  end.

Definition attachQueue (now : Z) (i : CsEntry) (s : PriorityFifo) : option PriorityFifo :=
  let k := ce_key i in
  if bool_decide (is_Some (pf_entryInfoMap s !! k)) then None
  else
    let '(entryInfo, s) :=
      if ce_isUnsolicited i then (mkEntryInfo QUEUE_UNSOLICITED None, s)
      else if CsEntry_isStale now i then (mkEntryInfo QUEUE_STALE None, s)
      else if CsEntry_canStale i then
        let '(id, s) := pf_schedule (now + milliseconds (d_freshnessPeriod (ce_data i))) k s in
        (mkEntryInfo QUEUE_FIFO (Some id), s)
      else (mkEntryInfo QUEUE_FIFO None, s) in
    let s := pf_setQueue (queueType entryInfo) (pf_queue (queueType entryInfo) s ++ [k]) s in
    Some (pf_setInfo (<[k := entryInfo]> (pf_entryInfoMap s)) s).

Definition detachQueue (k : CsKey) (s : PriorityFifo) : option PriorityFifo :=
  entryInfo ← pf_entryInfoMap s !! k;
  let s := if bool_decide (queueType entryInfo = QUEUE_FIFO) then pf_cancel (moveStaleEventId entryInfo) s else s in
  let s := pf_setQueue (queueType entryInfo) (queue_erase k (pf_queue (queueType entryInfo) s)) s in
  Some (pf_setInfo (delete k (pf_entryInfoMap s)) s).

Definition moveToStaleQueue (k : CsKey) (s : PriorityFifo) : option PriorityFifo :=
  entryInfo ← pf_entryInfoMap s !! k;
  if negb (bool_decide (queueType entryInfo = QUEUE_FIFO)) then None
  else
    let s := pf_setQueue QUEUE_FIFO (queue_erase k (pf_queue QUEUE_FIFO s)) s in
    let entryInfo := mkEntryInfo QUEUE_STALE (moveStaleEventId entryInfo) in
    let s := pf_setQueue QUEUE_STALE (pf_queue QUEUE_STALE s ++ [k]) s in
    Some (pf_setInfo (<[k := entryInfo]> (pf_entryInfoMap s)) s).

(** The scheduler runs the event [id]. *)
Definition pf_fire (id : positive) (s : PriorityFifo) : option PriorityFifo :=
  '(_, k) ← pf_scheduled s !! id;
  moveToStaleQueue k (pf_cancel (Some id) s).

Definition pf_evictOne (s : PriorityFifo) : option (CsKey * PriorityFifo) :=
  i ← match pf_queue QUEUE_UNSOLICITED s, pf_queue QUEUE_STALE s, pf_queue QUEUE_FIFO s with
      | i :: _, _, _ => Some i
      | [], i :: _, _ => Some i
      | [], [], i :: _ => Some i
      | [], [], [] => None
      end;
  s ← detachQueue i s;
  Some (i, s).

Definition pf_doAfterInsert (now : Z) (i : CsEntry) (s : PriorityFifo) : option PriorityFifo := attachQueue now i s.
Definition pf_doAfterRefresh (now : Z) (i : CsEntry) (s : PriorityFifo) : option PriorityFifo :=
  s ← detachQueue (ce_key i) s; attachQueue now i s.
Definition pf_doBeforeErase (k : CsKey) (s : PriorityFifo) : option PriorityFifo := detachQueue k s.
Definition pf_doBeforeUse (i : CsEntry) (s : PriorityFifo) : option PriorityFifo :=
  if bool_decide (is_Some (pf_entryInfoMap s !! ce_key i)) then Some s else None.

#[export] Instance PriorityFifoPolicy : CsPolicy PriorityFifo := {
  policy_afterInsert := pf_doAfterInsert;
  policy_afterRefresh := pf_doAfterRefresh;
  policy_beforeErase := pf_doBeforeErase;
  policy_beforeUse := pf_doBeforeUse;
  policy_evictOne := pf_evictOne
}.

(** *** Invariant *)

Definition pf_keys (s : PriorityFifo) : list CsKey := pf_unsolicited s ++ pf_stale s ++ pf_fifo s.

(** Every entry is in one queue, once, as its info says; the pending callbacks
    are exactly the ones the infos of the FIFO queue name. *)
Record pf_inv (s : PriorityFifo) : Prop := {
  pi_nodup : NoDup (pf_keys s);
  pi_info t k : k ∈ pf_queue t s ↔ ∃ ev, pf_entryInfoMap s !! k = Some (mkEntryInfo t ev);
  pi_event id t k : pf_scheduled s !! id = Some (t, k) →
    pf_entryInfoMap s !! k = Some (mkEntryInfo QUEUE_FIFO (Some id));
  pi_fresh id : is_Some (pf_scheduled s !! id) → (id < pf_nextEvent s)%positive;
  pi_pending k id : pf_entryInfoMap s !! k = Some (mkEntryInfo QUEUE_FIFO (Some id)) →
    ∃ t, pf_scheduled s !! id = Some (t, k)
}.

Lemma pf_keys_queue s k : k ∈ pf_keys s ↔ ∃ t, k ∈ pf_queue t s.
Proof.
  unfold pf_keys. rewrite !elem_of_app. split.
  - intros [?|[?|?]]; [by exists QUEUE_UNSOLICITED|by exists QUEUE_STALE|by exists QUEUE_FIFO].
  - intros [[] ?]; auto.
Qed.

Lemma pf_keys_info s k : pf_inv s → k ∈ pf_keys s ↔ is_Some (pf_entryInfoMap s !! k).
Proof.
  intros Hi. rewrite pf_keys_queue. split.
  - intros [t Ht]. apply (pi_info _ Hi) in Ht as [ev E]. eauto.
  - intros [[t ev] E]. exists t. apply (pi_info _ Hi). eauto.
Qed.

Lemma pf_queue_NoDup s t : pf_inv s → NoDup (pf_queue t s).
Proof.
  intros Hi. pose proof (pi_nodup _ Hi) as Hn. unfold pf_keys in Hn. rewrite !NoDup_app in Hn. destruct t; naive_solver.
Qed.

(** Adding a key to, removing one from a queue *)
Lemma pf_keys_setQueue_add s t k :
  Permutation (pf_keys (pf_setQueue t (pf_queue t s ++ [k]) s)) (k :: pf_keys s).
Proof. destruct s, t; unfold pf_keys; simpl; solve_Permutation. Qed.

Lemma pf_keys_setQueue_erase s t k : k ∈ pf_queue t s →
  Permutation (pf_keys s) (k :: pf_keys (pf_setQueue t (queue_erase k (pf_queue t s)) s)).
Proof.
  intros Hk. pose proof (queue_erase_perm _ _ Hk) as Hp.
  destruct s, t; unfold pf_keys; simpl in *; rewrite Hp at 1; solve_Permutation.
Qed.

Lemma pf_queue_setQueue t q u s : pf_queue u (pf_setQueue t q s) = if decide (u = t) then q else pf_queue u s.
Proof. by destruct s, t, u. Qed.
Lemma pf_info_setQueue t q s : pf_entryInfoMap (pf_setQueue t q s) = pf_entryInfoMap s.
Proof. by destruct s, t. Qed.
Lemma pf_scheduled_setQueue t q s : pf_scheduled (pf_setQueue t q s) = pf_scheduled s.
Proof. by destruct s, t. Qed.
Lemma pf_nextEvent_setQueue t q s : pf_nextEvent (pf_setQueue t q s) = pf_nextEvent s.
Proof. by destruct s, t. Qed.
Lemma pf_keys_setInfo m s : pf_keys (pf_setInfo m s) = pf_keys s.
Proof. done. Qed.
Lemma pf_queue_setInfo m t s : pf_queue t (pf_setInfo m s) = pf_queue t s.
Proof. by destruct t. Qed.

Definition pf_placed (s : PriorityFifo) : Prop :=
  NoDup (pf_keys s) ∧ ∀ t k, k ∈ pf_queue t s ↔ ∃ ev, pf_entryInfoMap s !! k = Some (mkEntryInfo t ev).

Lemma pf_inv_placed s : pf_inv s → pf_placed s.
Proof. intros Hi. split; [apply (pi_nodup _ Hi)|apply (pi_info _ Hi)]. Qed.

Definition pf_place (t : QueueType) (ev : option positive) (k : CsKey) (s : PriorityFifo) : PriorityFifo :=
  let s := pf_setQueue t (pf_queue t s ++ [k]) s in
  pf_setInfo (<[k := mkEntryInfo t ev]> (pf_entryInfoMap s)) s.
Definition pf_unplace (t : QueueType) (k : CsKey) (s : PriorityFifo) : PriorityFifo :=
  let s := pf_setQueue t (queue_erase k (pf_queue t s)) s in
  pf_setInfo (delete k (pf_entryInfoMap s)) s.

Lemma pf_place_placed t ev k s : pf_placed s → pf_entryInfoMap s !! k = None →
  pf_placed (pf_place t ev k s) ∧ Permutation (pf_keys (pf_place t ev k s)) (k :: pf_keys s).
Proof.
  intros [Hn Hi] Hk. unfold pf_place.
  assert (Hp := pf_keys_setQueue_add s t k). split; [|by rewrite pf_keys_setInfo].
  split; [rewrite pf_keys_setInfo, Hp; apply NoDup_cons; split; [|done]|].
  - rewrite pf_keys_queue. intros [u Hu]. apply Hi in Hu as [ev' E]. congruence.
  - intros u x. rewrite pf_queue_setInfo, pf_queue_setQueue. simpl. rewrite pf_info_setQueue.
    destruct (decide (x = k)) as [->|Hx].
    + rewrite lookup_insert_eq. destruct (decide (u = t)) as [->|Hu].
      * split; [by eauto|]. intros _. set_solver.
      * rewrite Hi, Hk. split; [by intros [? ?]|]. intros [ev' E]. congruence.
    + rewrite lookup_insert_ne by done. rewrite <-Hi. destruct (decide (u = t)) as [->|Hu]; [|done].
      rewrite elem_of_app, list_elem_of_singleton. naive_solver.
Qed.

Lemma pf_unplace_placed t ev k s : pf_placed s → pf_entryInfoMap s !! k = Some (mkEntryInfo t ev) →
  pf_placed (pf_unplace t k s) ∧ Permutation (pf_keys s) (k :: pf_keys (pf_unplace t k s)).
Proof.
  intros [Hn Hi] Hk. unfold pf_unplace.
  assert (Ht : k ∈ pf_queue t s) by (apply Hi; eauto).
  assert (Hp := pf_keys_setQueue_erase s t k Ht). split; [|by rewrite pf_keys_setInfo].
  split; [rewrite pf_keys_setInfo; rewrite Hp in Hn; by apply NoDup_cons in Hn as [_ ?]|].
  assert (Hq : NoDup (pf_queue t s)) by (unfold pf_keys in Hn; rewrite !NoDup_app in Hn; destruct t; naive_solver).
  intros u x. rewrite pf_queue_setInfo, pf_queue_setQueue. simpl. rewrite pf_info_setQueue.
  destruct (decide (x = k)) as [->|Hx].
  - rewrite lookup_delete_eq. destruct (decide (u = t)) as [->|Hu].
    + rewrite elem_of_queue_erase by done. naive_solver.
    + rewrite Hi, Hk. naive_solver.
  - rewrite lookup_delete_ne by done. rewrite <-Hi. destruct (decide (u = t)) as [->|Hu]; [|done].
    rewrite elem_of_queue_erase by done. naive_solver.
Qed.

(** [attachQueue] and [detachQueue] as a placement and a change of the schedule *)
Lemma pf_place_events t ev k s : pf_entryInfoMap s !! k = None →
  pf_entryInfoMap (pf_place t ev k s) = <[k := mkEntryInfo t ev]> (pf_entryInfoMap s)
  ∧ pf_scheduled (pf_place t ev k s) = pf_scheduled s ∧ pf_nextEvent (pf_place t ev k s) = pf_nextEvent s.
Proof. intros Hk. unfold pf_place. destruct s, t; done. Qed.

Lemma pf_unplace_events t k s :
  pf_entryInfoMap (pf_unplace t k s) = delete k (pf_entryInfoMap s)
  ∧ pf_scheduled (pf_unplace t k s) = pf_scheduled s ∧ pf_nextEvent (pf_unplace t k s) = pf_nextEvent s.
Proof. unfold pf_unplace. destruct s, t; done. Qed.

Lemma pf_place_inv t k s : pf_inv s → pf_entryInfoMap s !! k = None → pf_inv (pf_place t None k s).
Proof.
  intros Hi Hk. destruct (pf_place_placed t None k s (pf_inv_placed _ Hi) Hk) as [[Hn Hp] _].
  destruct (pf_place_events t None k s Hk) as (Em & Es & En).
  split; [done|done| | |]; rewrite ?Em, ?Es, ?En.
  - intros id u x Hx. apply (pi_event _ Hi) in Hx. rewrite lookup_insert_ne by congruence. done.
  - apply (pi_fresh _ Hi).
  - intros x id. rewrite lookup_insert_Some. intros [[_ ?]|[_ Hx]]; [done|]. by apply (pi_pending _ Hi).
Qed.

Lemma pf_place_scheduled_inv time k s : pf_inv s → pf_entryInfoMap s !! k = None →
  pf_inv (pf_place QUEUE_FIFO (Some (pf_nextEvent s)) k (snd (pf_schedule time k s))).
Proof.
  intros Hi Hk. set (s1 := snd (pf_schedule time k s)).
  assert (Hs1 : pf_placed s1) by (destruct s; apply (pf_inv_placed _ Hi)).
  destruct (pf_place_placed QUEUE_FIFO (Some (pf_nextEvent s)) k s1 Hs1 Hk) as [[Hn Hp] _].
  destruct (pf_place_events QUEUE_FIFO (Some (pf_nextEvent s)) k s1 Hk) as (Em & Es & En).
  assert (Hfr : pf_scheduled s !! pf_nextEvent s = None).
  { apply eq_None_not_Some. intros Hc. apply (pi_fresh _ Hi) in Hc. lia. }
  split; [done|done| | |]; rewrite ?Em, ?Es, ?En; simpl.
  - intros id u x. rewrite lookup_insert_Some. intros [[<- ?]|[Hne Hx]]; simplify_eq.
    + by rewrite lookup_insert_eq.
    + apply (pi_event _ Hi) in Hx. rewrite lookup_insert_ne by congruence. done.
  - intros id. rewrite lookup_insert_is_Some. intros [<-|[_ Hx]]; [lia|]. apply (pi_fresh _ Hi) in Hx. lia.
  - intros x id. rewrite lookup_insert_Some. intros [[<- ?]|[Hne Hx]].
    + simplify_eq. exists time. by rewrite lookup_insert_eq.
    + apply (pi_pending _ Hi) in Hx as [t E]. exists t. rewrite lookup_insert_ne; [done|]. intros <-. congruence.
Qed.

Lemma attachQueue_spec now e s : pf_inv s → ce_key e ∉ pf_keys s →
  ∃ s', attachQueue now e s = Some s' ∧ pf_inv s' ∧ Permutation (pf_keys s') (ce_key e :: pf_keys s).
Proof.
  intros Hi Hk. rewrite pf_keys_info, <-eq_None_not_Some in Hk by done.
  assert (Hpl : ∀ s1 t ev, pf_placed s1 → pf_entryInfoMap s1 !! ce_key e = None → pf_keys s1 = pf_keys s →
    Permutation (pf_keys (pf_place t ev (ce_key e) s1)) (ce_key e :: pf_keys s)).
  { intros s1 t ev Hp1 Hk1 <-. by apply pf_place_placed. }
  unfold attachQueue. rewrite bool_decide_eq_false_2 by (rewrite Hk; by intros [? ?]).
  destruct (ce_isUnsolicited e); [|destruct (CsEntry_isStale now e); [|destruct (CsEntry_canStale e)]];
    (eexists; split; [reflexivity|]); simpl.
  - split; [by apply pf_place_inv|apply Hpl; [by apply pf_inv_placed|done|done]].
  - split; [by apply pf_place_inv|apply Hpl; [by apply pf_inv_placed|done|done]].
  - split; [by apply (pf_place_scheduled_inv (now + milliseconds (d_freshnessPeriod (ce_data e))))|].
    apply (Hpl (snd (pf_schedule (now + milliseconds (d_freshnessPeriod (ce_data e))) (ce_key e) s))
      QUEUE_FIFO (Some (pf_nextEvent s))); [|done|done].
    destruct s. apply (pf_inv_placed _ Hi).
  - split; [by apply pf_place_inv|apply Hpl; [by apply pf_inv_placed|done|done]].
Qed.

Lemma detachQueue_eq k s t ev : pf_entryInfoMap s !! k = Some (mkEntryInfo t ev) →
  detachQueue k s = Some (pf_unplace t k (if decide (t = QUEUE_FIFO) then pf_cancel ev s else s)).
Proof.
  intros Hk. unfold detachQueue. rewrite Hk. simpl.
  destruct (decide (t = QUEUE_FIFO)); [rewrite bool_decide_eq_true_2 by done|rewrite bool_decide_eq_false_2 by done]; done.
Qed.

Lemma pf_cancel_placed ev s : pf_placed s → pf_placed (pf_cancel ev s).
Proof. destruct ev, s; done. Qed.
Lemma pf_cancel_same ev s :
  pf_keys (pf_cancel ev s) = pf_keys s ∧ pf_entryInfoMap (pf_cancel ev s) = pf_entryInfoMap s
  ∧ pf_nextEvent (pf_cancel ev s) = pf_nextEvent s.
Proof. by destruct ev, s. Qed.
Lemma pf_cancel_lookup ev s id : pf_scheduled (pf_cancel ev s) !! id =
  if decide (ev = Some id) then None else pf_scheduled s !! id.
Proof.
  destruct ev as [i|]; simpl; [|done]. destruct (decide (Some i = Some id)) as [E|E].
  - simplify_eq. apply lookup_delete_eq.
  - by rewrite lookup_delete_ne by congruence.
Qed.

Lemma detachQueue_spec k s : pf_inv s → k ∈ pf_keys s →
  ∃ s', detachQueue k s = Some s' ∧ pf_inv s' ∧ Permutation (pf_keys s) (k :: pf_keys s').
Proof.
  intros Hi Hk. apply pf_keys_info in Hk as [[t ev] Hk]; [|done].
  rewrite (detachQueue_eq _ _ _ _ Hk). eexists. split; [done|].
  set (s1 := if decide _ then _ else _).
  assert (Hs1 : pf_placed s1 ∧ pf_keys s1 = pf_keys s ∧ pf_entryInfoMap s1 = pf_entryInfoMap s ∧ pf_nextEvent s1 = pf_nextEvent s).
  { subst s1. destruct (pf_cancel_same ev s) as (? & ? & ?). destruct (decide _); split_and!; try done;
      [apply pf_cancel_placed|]; by apply pf_inv_placed. }
  destruct Hs1 as (Hp1 & Ek1 & Em1 & En1). rewrite <-Em1 in Hk.
  destruct (pf_unplace_placed t ev k s1 Hp1 Hk) as [[Hn' Hp'] Hperm]. rewrite Ek1 in Hperm. split; [|done].
  destruct (pf_unplace_events t k s1) as (Em & Es & En). rewrite Em1 in Em, Hk.
  assert (Hsch : ∀ id u x, pf_scheduled s1 !! id = Some (u, x) ↔ pf_scheduled s !! id = Some (u, x) ∧ x ≠ k).
  { intros id u x. subst s1. destruct (decide (t = QUEUE_FIFO)) as [->|Ht].
    - rewrite pf_cancel_lookup. destruct (decide (ev = Some id)) as [->|Hev].
      + split; [done|]. intros [Hx Hne]. destruct (pi_pending _ Hi _ _ Hk) as [? E]. congruence.
      + split; [|by intros [? _]]. intros Hx. split; [done|]. intros ->. apply (pi_event _ Hi) in Hx. congruence.
    - split; [|by intros [? _]]. intros Hx. split; [done|]. intros ->. apply (pi_event _ Hi) in Hx. congruence. }
  split; [done|done| | |]; rewrite ?Em, ?Es, ?En, ?En1.
  - intros id u x Hx. apply Hsch in Hx as [Hx Hne]. rewrite lookup_delete_ne by done. by eapply (pi_event _ Hi).
  - intros id [[u x] Hx]. apply Hsch in Hx as [Hx _]. apply (pi_fresh _ Hi). eauto.
  - intros x id. rewrite lookup_delete_Some. intros [Hne Hx]. apply (pi_pending _ Hi) in Hx as [u Hx].
    exists u. apply Hsch. split; congruence.
Qed.

Lemma moveToStaleQueue_eq k s ev : pf_entryInfoMap s !! k = Some (mkEntryInfo QUEUE_FIFO ev) →
  moveToStaleQueue k s = Some (pf_place QUEUE_STALE ev k (pf_unplace QUEUE_FIFO k s)).
Proof.
  intros Hk. unfold moveToStaleQueue. rewrite Hk. simpl. f_equal. unfold pf_place, pf_unplace, pf_setInfo.
  destruct s; simpl. by rewrite insert_delete_eq.
Qed.

(** A callback that runs finds its entry, in the FIFO queue. *)
Lemma pf_fire_spec id t k s : pf_inv s → pf_scheduled s !! id = Some (t, k) →
  ∃ s', pf_fire id s = Some s' ∧ pf_inv s' ∧ Permutation (pf_keys s') (pf_keys s)
    ∧ pf_entryInfoMap s' = <[k := mkEntryInfo QUEUE_STALE (Some id)]> (pf_entryInfoMap s)
    ∧ pf_scheduled s' = delete id (pf_scheduled s).
Proof.
  intros Hi Hid. pose proof (pi_event _ Hi _ _ _ Hid) as Hk.
  unfold pf_fire. rewrite Hid. simpl. change (mkPriorityFifo _ _ _ _ _ _) with (pf_cancel (Some id) s).
  set (s1 := pf_cancel (Some id) s). destruct (pf_cancel_same (Some id) s) as (Ek1 & Em1 & En1). fold s1 in Ek1, Em1, En1.
  assert (Hp1 : pf_placed s1) by (apply pf_cancel_placed; by apply pf_inv_placed).
  rewrite <-Em1 in Hk. rewrite (moveToStaleQueue_eq _ _ _ Hk). eexists. split; [done|].
  destruct (pf_unplace_placed _ _ _ _ Hp1 Hk) as [Hp2 Hperm2].
  destruct (pf_unplace_events QUEUE_FIFO k s1) as (Em2 & Es2 & En2). set (s2 := pf_unplace QUEUE_FIFO k s1) in *.
  assert (Hk2 : pf_entryInfoMap s2 !! k = None) by (rewrite Em2; apply lookup_delete_eq).
  destruct (pf_place_placed QUEUE_STALE (Some id) k s2 Hp2 Hk2) as [[Hn3 Hp3] Hperm3].
  destruct (pf_place_events QUEUE_STALE (Some id) k s2 Hk2) as (Em3 & Es3 & En3).
  rewrite Em2, insert_delete_eq, Em1 in Em3. rewrite Es2 in Es3. rewrite En2, En1 in En3.
  change (pf_scheduled s1) with (delete id (pf_scheduled s)) in Es3.
  split_and!; [|by rewrite Hperm3, <-Hperm2, Ek1|done|done].
  split; [done|done| | |]; rewrite ?Em3, ?Es3, ?En3.
  - intros id' u x. rewrite lookup_delete_Some. intros [Hne Hx]. pose proof (pi_event _ Hi _ _ _ Hx) as Ex.
    rewrite Em1 in Hk. rewrite lookup_insert_ne by congruence. done.
  - intros id'. rewrite lookup_delete_is_Some. intros [_ Hx]. by apply (pi_fresh _ Hi).
  - intros x id'. rewrite lookup_insert_Some. intros [[_ ?]|[Hne Hx]]; [done|].
    apply (pi_pending _ Hi) in Hx as [u Hu]. exists u. rewrite lookup_delete_ne; [done|]. congruence.
Qed.

(** The queues by priority *)
Definition pf_victim (s : PriorityFifo) : option CsKey :=
  match pf_queue QUEUE_UNSOLICITED s with
  | i :: _ => Some i
  | [] => match pf_queue QUEUE_STALE s with i :: _ => Some i | [] => head (pf_queue QUEUE_FIFO s) end
  end.

Lemma pf_victim_keys s : pf_victim s = head (pf_keys s).
Proof. unfold pf_victim, pf_keys. simpl. destruct (pf_unsolicited s), (pf_stale s); done. Qed.

Lemma pf_evictOne_eq s : pf_evictOne s = (i ← head (pf_keys s); s ← detachQueue i s; Some (i, s)).
Proof.
  rewrite <-pf_victim_keys. unfold pf_evictOne, pf_victim. simpl.
  destruct (pf_unsolicited s), (pf_stale s), (pf_fifo s); done.
Qed.

#[export] Program Instance PriorityFifoPolicyLaws : CsPolicyLaws PriorityFifo := {
  policy_inv := pf_inv;
  policy_keys := pf_keys
}.
Next Obligation. intros s. apply pi_nodup. Qed.
Next Obligation. intros now e s. apply attachQueue_spec. Qed.
Next Obligation.
  intros now e s Hi Hk. simpl. unfold pf_doAfterRefresh.
  destruct (detachQueue_spec _ _ Hi Hk) as (s1 & -> & Hi1 & Hp1). simpl.
  destruct (attachQueue_spec now e s1 Hi1) as (s2 & -> & Hi2 & Hp2).
  { intros Hc. pose proof (pi_nodup _ Hi) as Hn. rewrite Hp1 in Hn. by apply NoDup_cons in Hn as [? _]. }
  exists s2. split_and!; [done|done|]. by rewrite Hp2, Hp1.
Qed.
Next Obligation. intros k s. apply detachQueue_spec. Qed.
Next Obligation.
  intros e s Hi Hk. exists s. split_and!; [|done|done]. simpl. unfold pf_doBeforeUse.
  apply pf_keys_info in Hk; [|done]. by rewrite bool_decide_eq_true_2.
Qed.
Next Obligation.
  intros s Hi Hne. simpl. rewrite pf_evictOne_eq. destruct (pf_keys s) as [|k l] eqn:E; [done|]. simpl.
  destruct (detachQueue_spec k s Hi) as (s' & -> & Hi' & Hp); [rewrite E; set_solver|].
  exists k, s'. split_and!; [done|done|]. by rewrite <-E.
Qed.

(** ** The queues of the priority FIFO and the freshness of the store's entries *)

(** The entry is in the queue its state calls for; in the FIFO queue, its
    callback is set for the time at which it becomes stale. *)
Definition entry_sync (now : Z) (s : PriorityFifo) (e : CsEntry) : Prop :=
  ∃ t ev, pf_entryInfoMap s !! ce_key e = Some (mkEntryInfo t ev) ∧
    match t with
    | QUEUE_UNSOLICITED => ce_isUnsolicited e = true
    | QUEUE_STALE => ce_isUnsolicited e = false ∧ ce_staleTime e <= now
    | QUEUE_FIFO => ce_isUnsolicited e = false ∧
        match ev with
        | Some id => pf_scheduled s !! id = Some (ce_staleTime e, ce_key e)
        | None => CsEntry_canStale e = false
        end
    end.

Definition fifo_sync (now : Z) (cs : Cs PriorityFifo) : Prop :=
  ∀ e, e ∈ cs_table cs → entry_sync now (cs_policy cs) e.

(** The stale time that [updateStaleTime] gives at [now]. *)
Definition stamped (now : Z) (e : CsEntry) : Prop := CsEntry_updateStaleTime now e = e.

Lemma updateStaleTime_stamped now e : stamped now (CsEntry_updateStaleTime now e).
Proof.
  unfold stamped, CsEntry_updateStaleTime. destruct (Z.leb_spec 0 (d_freshnessPeriod (ce_data e))) as [H|H]; simpl;
    destruct (Z.leb_spec 0 (d_freshnessPeriod (ce_data e))); by try lia.
Qed.

Lemma entry_sync_time now now' s e : now <= now' → entry_sync now s e → entry_sync now' s e.
Proof. intros Hle (t & ev & Ei & Ht). exists t, ev. split; [done|]. destruct t; naive_solver lia. Qed.

Lemma attachQueue_sync now e s s' : pf_inv s → stamped now e → attachQueue now e s = Some s' →
  entry_sync now s' e ∧ ∀ x, ce_key x ≠ ce_key e → entry_sync now s x → entry_sync now s' x.
Proof.
  intros Hi He. unfold attachQueue. case_bool_decide as Hk; [done|]. rewrite <-eq_None_not_Some in Hk.
  assert (Hold : ∀ x t ev, ce_key x ≠ ce_key e → entry_sync now s x → entry_sync now (pf_place t ev (ce_key e) s) x).
  { intros x t ev Hne (u & ev' & Ei & Hu). destruct (pf_place_events t ev (ce_key e) s Hk) as (Em & Es & _).
    exists u, ev'. by rewrite Em, Es, lookup_insert_ne. }
  assert (Hsame : ∀ t ev s1, pf_entryInfoMap (pf_place t ev (ce_key e) s1) !! ce_key e = Some (mkEntryInfo t ev)).
  { intros t ev s1. unfold pf_place, pf_setInfo. apply lookup_insert_eq. }
  destruct (ce_isUnsolicited e) eqn:Eu; [|destruct (CsEntry_isStale now e) eqn:Es; [|destruct (CsEntry_canStale e) eqn:Ec]];
    intros E; injection E as <-.
  - split; [exists QUEUE_UNSOLICITED, None; by split; [apply Hsame|]|by intros; apply Hold].
  - split; [|by intros; apply Hold]. exists QUEUE_STALE, None. split; [apply Hsame|]. split; [done|].
    unfold CsEntry_isStale in Es. lia.
  - set (time := now + milliseconds (d_freshnessPeriod (ce_data e))) in *.
    set (s1 := snd (pf_schedule time (ce_key e) s)).
    destruct (pf_place_events QUEUE_FIFO (Some (pf_nextEvent s)) (ce_key e) s1 Hk) as (Em & Es' & _).
    change (pf_scheduled s1) with (<[pf_nextEvent s := (time, ce_key e)]> (pf_scheduled s)) in Es'.
    split.
    + exists QUEUE_FIFO, (Some (pf_nextEvent s)). split; [apply lookup_insert_eq|]. split; [done|].
      etrans; [exact (f_equal (lookup (pf_nextEvent s)) Es')|]. rewrite lookup_insert_eq. do 2 f_equal.
      unfold stamped, CsEntry_updateStaleTime in He. rewrite <-He.
      destruct (Z.leb_spec 0 (d_freshnessPeriod (ce_data e))); simpl; [done|].
      rewrite <-He in Ec. unfold CsEntry_canStale in Ec. simpl in Ec. lia.
    + intros x Hne (u & ev' & Ei & Hu). exists u, ev'. split.
      { etrans; [exact (f_equal (lookup (ce_key x)) Em)|]. by rewrite lookup_insert_ne. }
      destruct u; [done|done|]. split; [by destruct Hu|]. destruct ev' as [id|]; [|by destruct Hu]. destruct Hu as [_ Hu].
      etrans; [exact (f_equal (lookup id) Es')|]. rewrite lookup_insert_ne; [done|]. intros <-.
      assert (pf_nextEvent s < pf_nextEvent s)%positive by (apply (pi_fresh _ Hi); eauto). lia.
  - split; [exists QUEUE_FIFO, None; by split; [apply Hsame|]|by intros; apply Hold].
Qed.

Lemma detachQueue_sync now k s s' : pf_inv s → detachQueue k s = Some s' →
  ∀ x, ce_key x ≠ k → entry_sync now s x → entry_sync now s' x.
Proof.
  intros Hi E x Hne (u & ev' & Ei & Hu).
  destruct (pf_entryInfoMap s !! k) as [[t ev]|] eqn:Hk; [|unfold detachQueue in E; by rewrite Hk in E].
  rewrite (detachQueue_eq _ _ _ _ Hk) in E. injection E as <-. exists u, ev'.
  set (s1 := if decide _ then _ else _). destruct (pf_unplace_events t k s1) as (Em & Es & _).
  assert (Em1 : pf_entryInfoMap s1 = pf_entryInfoMap s) by (unfold s1; destruct (decide _); [apply pf_cancel_same|done]).
  rewrite Em, Es, Em1, lookup_delete_ne by done. split; [done|].
  destruct u; [done|done|]. split; [by destruct Hu|]. destruct ev' as [id|]; [|by destruct Hu]. destruct Hu as [_ Hu].
  unfold s1. destruct (decide (t = QUEUE_FIFO)) as [->|]; [|done]. rewrite pf_cancel_lookup.
  destruct (decide (ev = Some id)) as [->|]; [|done].
  destruct (pi_pending _ Hi _ _ Hk) as [? E]. rewrite E in Hu. congruence.
Qed.

Lemma pf_fire_sync now id t k s s' : pf_inv s → pf_scheduled s !! id = Some (t, k) → t <= now → pf_fire id s = Some s' →
  ∀ x, entry_sync now s x → entry_sync now s' x.
Proof.
  intros Hi Hid Ht E x (u & ev & Ei & Hu).
  destruct (pf_fire_spec id t k s Hi Hid) as (s1 & E1 & _ & _ & Em & Es). rewrite E in E1. injection E1 as <-.
  pose proof (pi_event _ Hi _ _ _ Hid) as Hk. unfold entry_sync. rewrite Em, Es.
  destruct (decide (ce_key x = k)) as [<-|Hne].
  - rewrite Hk in Ei. injection Ei as <- <-. exists QUEUE_STALE, (Some id). rewrite lookup_insert_eq.
    destruct Hu as [Hu1 Hu2]. rewrite Hid in Hu2. injection Hu2 as ->. by split_and!.
  - exists u, ev. rewrite lookup_insert_ne by done. split; [done|].
    destruct u; [done|done|]. split; [by destruct Hu|]. destruct ev as [id'|]; [|by destruct Hu]. destruct Hu as [_ Hu].
    rewrite lookup_delete_ne; [done|]. intros <-. congruence.
Qed.

Lemma table_key_inj l (x y : CsEntry) : NoDup (ce_key <$> l) → x ∈ l → y ∈ l → ce_key x = ce_key y → x = y.
Proof.
  induction l as [|z l IH]; csimpl; [by intros _ ?%elem_of_nil|]. rewrite NoDup_cons, !elem_of_cons.
  intros [Hz Hn] [->|Hx] [->|Hy] E; [done|..].
  - destruct Hz. rewrite E. by apply list_elem_of_fmap_2.
  - destruct Hz. rewrite <-E. by apply list_elem_of_fmap_2.
  - auto.
Qed.

Section sync.
Context `{NameOrder, !NameSuccessor}.

Lemma evictEntries_loop_sync now fuel (cs cs' : Cs PriorityFifo) :
  cs_accounted cs → fifo_sync now cs → Cs_evictEntries_loop fuel cs = Some cs' → fifo_sync now cs'.
Proof.
  revert cs. induction fuel as [|fuel IH]; intros cs Hc Hf; simpl; case_match; intros E; simplify_eq; [done|done|].
  destruct Hc as [Hs Hp Hk Hl]. destruct (policy_keys (cs_policy cs)) as [|k0 l0] eqn:Ek.
  { simpl in Ek, E. rewrite pf_evictOne_eq, Ek in E. done. }
  destruct (policy_evictOne_spec (cs_policy cs) Hp) as (k & s & Ev & Hps & Hks); [by rewrite Ek|].
  simpl in Ev, Ek, Hks. rewrite Ev in E. simpl in E. rewrite <-Ek, Hks in Hk.
  assert (Hin : k ∈ (ce_key <$> cs_table cs)) by (rewrite <-Hk; set_solver).
  pose proof (table_erase_keys k (cs_table cs) Hin) as He.
  apply IH in E; [done| |].
  - split; simpl; [|done| |done].
    + eapply StronglySorted_sublist; [apply table_erase_sublist|done].
    + apply (Permutation_cons_inv (a := k)). by rewrite Hk, <-He.
  - intros x Hx. simpl in *. rewrite pf_evictOne_eq in Ev.
    destruct (head (pf_keys (cs_policy cs))) as [i|]; [|done]. simpl in Ev.
    destruct (detachQueue i (cs_policy cs)) as [s1|] eqn:Ed; simplify_eq/=.
    apply (detachQueue_sync now k _ _ Hp Ed).
    + pose proof (table_sorted_NoDup _ Hs) as Hnd. rewrite He in Hnd. apply NoDup_cons in Hnd as [Hnd _].
      intros <-. apply Hnd. by apply list_elem_of_fmap_2.
    + apply Hf. eapply elem_of_sublist; [exact Hx|apply table_erase_sublist].
Qed.

Lemma Cs_setLimit_sync now n (cs cs' : Cs PriorityFifo) :
  cs_wf cs → fifo_sync now cs → Cs_setLimit n cs = Some cs' → fifo_sync now cs'.
Proof.
  intros [Hs Hp Hk Hl Hsz] Hf. unfold Cs_setLimit. destruct (Z.leb_spec n 0); [done|].
  apply evictEntries_loop_sync; [by split|done].
Qed.

Lemma Cs_insert_sync now data u (cs cs' : Cs PriorityFifo) r :
  cs_wf cs → fifo_sync now cs → Cs_insert now data u cs = Some (r, cs') → fifo_sync now cs'.
Proof.
  intros [Hs Hp Hk Hl Hsz] Hf. unfold Cs_insert. case_bool_decide as Hc; [by intros [= _ <-]|].
  set (new := CsEntry_setData now data u). set (k := ce_key new).
  pose proof (table_insert_spec new (cs_table cs) Hs) as Hi. pose proof (table_insert_elem new (cs_table cs)) as Hel.
  destruct (table_insert new (cs_table cs)) as [l1 isNew]. destruct Hi as [Hs1 Hi]. simpl in Hel.
  set (l2 := table_update k (CsEntry_updateStaleTime now) l1).
  assert (K2 : ce_key <$> l2 = ce_key <$> l1) by (apply table_update_keys, updateStaleTime_key).
  (* in the updated table, the entry of [k] is stamped and the others are old ones *)
  assert (Hin2 : ∀ e, e ∈ l2 → if decide (ce_key e = k) then stamped now e else e ∈ cs_table cs).
  { intros e He. apply table_update_lookup in He as (x & Hx & ->); [|by apply table_sorted_NoDup|apply updateStaleTime_key].
    destruct (decide (ce_key x = k)) as [Ex|Ex].
    - rewrite updateStaleTime_key, decide_True by done. apply updateStaleTime_stamped.
    - rewrite decide_False by done. apply Hel in Hx as [|[-> _]]; done. }
  assert (Hnd2 : NoDup (ce_key <$> l2)) by (rewrite K2; by apply table_sorted_NoDup).
  destruct isNew; destruct Hi as [Hi1 Hi2]; simpl.
  - destruct (find_has_key k l2) as (e & -> & He & Hek); [rewrite K2, Hi1; csimpl; set_solver|]. simpl.
    destruct (pf_doAfterInsert now e (cs_policy cs)) as [s|] eqn:Ea; [|done]. simpl.
    assert (Hek' : ce_key e ∉ pf_keys (cs_policy cs)) by (rewrite Hek, Hk; exact Hi2).
    destruct (policy_afterInsert_spec now e (cs_policy cs) Hp Hek') as (s' & Es' & Hps & Hks).
    simpl in Es'. rewrite Ea in Es'. injection Es' as <-.
    destruct (Cs_evictEntries _) as [cs1|] eqn:Eev; [|done]. intros [= _ <-].
    apply evictEntries_loop_sync with (now := now) in Eev; [done| |].
    + split; simpl; [by eapply table_sorted_keys|done| |done].
      simpl in Hks, Hk. rewrite Hks, Hek, Hk, K2, Hi1. csimpl. done.
    + pose proof (Hin2 _ He) as Hst. rewrite decide_True in Hst by done.
      destruct (attachQueue_sync now e (cs_policy cs) s Hp Hst Ea) as [Hse Hso].
      intros x Hx. simpl in *. pose proof (Hin2 _ Hx) as Hx2. destruct (decide (ce_key x = k)) as [Ex|Ex].
      * assert (x = e) as -> by (eapply table_key_inj; [exact Hnd2|done|done|congruence]). done.
      * apply Hso; [congruence|]. by apply Hf.
  - subst l1. set (f := λ e, if ce_isUnsolicited e && negb u then CsEntry_unsetUnsolicited now e else e).
    set (l3 := table_update k f l2).
    assert (K3 : ce_key <$> l3 = ce_key <$> l2) by (apply table_update_keys; intros e; apply insert_refresh_key).
    assert (Hin3 : ∀ e, e ∈ l3 → if decide (ce_key e = k) then stamped now e else e ∈ cs_table cs).
    { intros e He. apply table_update_lookup in He as (x & Hx & ->); [|done|intros y; apply insert_refresh_key].
      apply Hin2 in Hx. destruct (decide (ce_key x = k)) as [Ex|Ex].
      - unfold f. rewrite insert_refresh_key, decide_True by done. case_match; [|done]. apply updateStaleTime_stamped.
      - by rewrite decide_False. }
    destruct (find_has_key k l3) as (e & -> & He & Hek); [by rewrite K3, K2|]. simpl.
    unfold pf_doAfterRefresh. destruct (detachQueue (ce_key e) (cs_policy cs)) as [s1|] eqn:Ed; [|done]. simpl.
    destruct (attachQueue now e s1) as [s2|] eqn:Ea; [|done]. simpl. intros [= _ <-].
    assert (Hek' : ce_key e ∈ pf_keys (cs_policy cs)) by (rewrite Hek, Hk; exact Hi2).
    destruct (detachQueue_spec _ _ Hp Hek') as (s1' & Es1 & Hp1 & Hk1). rewrite Ed in Es1. injection Es1 as <-.
    pose proof (Hin3 _ He) as Hst. rewrite decide_True in Hst by done.
    destruct (attachQueue_sync now e s1 s2 Hp1 Hst Ea) as [Hse Hso].
    intros x Hx. simpl in *. pose proof (Hin3 _ Hx) as Hx3. destruct (decide (ce_key x = k)) as [Ex|Ex].
    + assert (x = e) as -> by (eapply table_key_inj; [by rewrite K3|done|done|congruence]). done.
    + apply Hso; [congruence|]. eapply detachQueue_sync; [exact Hp|exact Ed|congruence|]. by apply Hf.
Qed.

(** With no callback overdue, a fresh solicited entry is evicted only when
    every entry is fresh and solicited. *)
Lemma evict_fresh_last now (cs : Cs PriorityFifo) k s e : cs_wf cs → now <= TimePoint_max → fifo_sync now cs →
  (∀ id t x, pf_scheduled (cs_policy cs) !! id = Some (t, x) → now < t) →
  pf_evictOne (cs_policy cs) = Some (k, s) → e ∈ cs_table cs → ce_key e = k →
  ce_isUnsolicited e = false → now < ce_staleTime e →
  ∀ x, x ∈ cs_table cs → ce_isUnsolicited x = false ∧ CsEntry_isStale now x = false.
Proof.
  intros [Hs Hp Hk Hl Hsz] Hnow Hf Hdue Hev He <- Hu Hfresh x Hx.
  assert (Hv : pf_victim (cs_policy cs) = Some (ce_key e)).
  { rewrite pf_victim_keys. rewrite pf_evictOne_eq in Hev. destruct (head _) as [i|]; [|done]. simpl in Hev.
    destruct (detachQueue i _) as [s'|]; by simplify_eq/=. }
  destruct (Hf e He) as (te & eve & Eie & Hte).
  assert (Hve : ∀ t, ce_key e ∈ pf_queue t (cs_policy cs) → t = te).
  { intros t Ht. apply (pi_info _ Hp) in Ht as [ev Et]. congruence. }
  destruct (Hf x Hx) as (t & ev & Ei & Ht).
  assert (Hxq : ce_key x ∈ pf_queue t (cs_policy cs)) by (apply (pi_info _ Hp); eauto).
  unfold pf_victim in Hv. destruct (pf_queue QUEUE_UNSOLICITED (cs_policy cs)) as [|i l] eqn:Equ.
  - destruct (pf_queue QUEUE_STALE (cs_policy cs)) as [|i l] eqn:Eqs.
    + destruct t; [rewrite Equ in Hxq; by apply elem_of_nil in Hxq|rewrite Eqs in Hxq; by apply elem_of_nil in Hxq|].
      destruct Ht as [-> Ht]. split; [done|]. unfold CsEntry_isStale. apply Z.ltb_ge.
      destruct ev as [id|]; [apply Hdue in Ht; lia|]. unfold CsEntry_canStale in Ht.
      apply Z.ltb_ge in Ht. lia.
    + injection Hv as ->. assert (QUEUE_STALE = te) as <- by (apply Hve; rewrite Eqs; set_solver). lia.
  - injection Hv as ->. assert (QUEUE_UNSOLICITED = te) as <- by (apply Hve; rewrite Equ; set_solver). congruence.
Qed.
End sync.
