(* ===== verification/World.v ===== *)
(** * The forwarder's state: [daemon/fw/forwarder.hpp], [daemon/fw/face-table.cpp]

    [World] gathers what the pipelines read and change: the clock, the faces and
    the face table, the name tree with the tables on it, the content store, the
    Dead Nonce List, the pending timers, the counters, and the trace of packets
    sent and signals emitted.  Pipelines are state transformers [M A]; [None] is
    an assertion that fails or an invalid pointer that is used, and [runs] is
    the total correctness statement about them. *)

From S2P Require Import Prelude CityHash Packets FibEntry NameTree NameTreeFacts Fib PitEntry Pit StrategyChoice DeadNonceList ContentStore.

(** ** Data *)

(** A face.  [FaceTable::addImpl] connects the handlers of a forwarder to its
    signals; the handlers connected so far are kept, in order. *)
Inductive Handlers := OrdinaryHandlers | PITlessHandlers | BridgeHandlers.
Record Face := mkFace { face_id : Z; face_isLocal : bool; face_onReceive : list Handlers }.
Definition face_setId (id : Z) (f : Face) : Face := mkFace id (face_isLocal f) (face_onReceive f).
Definition face_connect (h : Handlers) (f : Face) : Face := mkFace (face_id f) (face_isLocal f) (face_onReceive f ++ [h]).

(** The timers of PIT entries: the bound callbacks. *)
Inductive FwdEvent :=
| InterestUnsatisfied (p : pit_ptr)
| InterestFinalize (p : pit_ptr) (isSatisfied : bool) (dataFreshnessPeriod : Z).

Inductive Output :=
| SentInterest (face : face_ptr) (interest : Interest)
| SentData (face : face_ptr) (data : Data)
| SignalSatisfy (p : pit_ptr) (inFace : option face_ptr) (data : Data) (* no face: the CS face *)
| SignalExpire (p : pit_ptr).

Record ForwarderCounters := mkForwarderCounters {
  nInInterests : Z; nOutInterests : Z; nInDatas : Z; nOutDatas : Z (* uint64_t *)
}.

(** The content store of ndnSIM ([ns3::ndn::ContentStore]), used when it is set *)
Class NdnSimCs (E : Type) := {
  ndnsim_Lookup : Interest → E → option Data * E;
  ndnsim_Add : Data → E → E
}.

Record World (S E : Type) := mkWorld {
  w_now : Z;
  w_faces : gmap face_ptr Face;
  w_faceTable : gmap Z face_ptr;              (* FaceTable::m_faces *)
  w_lastFaceId : Z;
  w_pit : Pit;                                (* m_pit, with m_nameTree *)
  w_fibItems : Z;
  w_strategies : StrategyChoice;
  w_cs : Cs S;
  w_csFromNdnSim : option E;
  w_dnl : DeadNonceList;
  w_scheduled : gmap positive (Z * FwdEvent);
  w_nextEvent : positive;
  w_random : nat;                             (* draws from the global generator *)
  w_counters : ForwarderCounters;
  w_trace : list Output
}.
Arguments mkWorld {S E}.
Arguments w_now {S E}.
Arguments w_faces {S E}.
Arguments w_faceTable {S E}.
Arguments w_lastFaceId {S E}.
Arguments w_pit {S E}.
Arguments w_fibItems {S E}.
Arguments w_strategies {S E}.
Arguments w_cs {S E}.
Arguments w_csFromNdnSim {S E}.
Arguments w_dnl {S E}.
Arguments w_scheduled {S E}.
Arguments w_nextEvent {S E}.
Arguments w_random {S E}.
Arguments w_counters {S E}.
Arguments w_trace {S E}.

Section world.
Context {S E : Type}.
Abbreviation World := (World S E).

Definition set_now (now : Z) (w : World) : World :=
  mkWorld now (w_faces w) (w_faceTable w) (w_lastFaceId w) (w_pit w) (w_fibItems w) (w_strategies w) (w_cs w)
    (w_csFromNdnSim w) (w_dnl w) (w_scheduled w) (w_nextEvent w) (w_random w) (w_counters w) (w_trace w).
Definition set_faces (faces : gmap face_ptr Face) (table : gmap Z face_ptr) (last : Z) (w : World) : World :=
  mkWorld (w_now w) faces table last (w_pit w) (w_fibItems w) (w_strategies w) (w_cs w)
    (w_csFromNdnSim w) (w_dnl w) (w_scheduled w) (w_nextEvent w) (w_random w) (w_counters w) (w_trace w).
Definition set_pit (P : Pit) (w : World) : World :=
  mkWorld (w_now w) (w_faces w) (w_faceTable w) (w_lastFaceId w) P (w_fibItems w) (w_strategies w) (w_cs w)
    (w_csFromNdnSim w) (w_dnl w) (w_scheduled w) (w_nextEvent w) (w_random w) (w_counters w) (w_trace w).
Definition set_fibItems (n : Z) (w : World) : World :=
  mkWorld (w_now w) (w_faces w) (w_faceTable w) (w_lastFaceId w) (w_pit w) n (w_strategies w) (w_cs w)
    (w_csFromNdnSim w) (w_dnl w) (w_scheduled w) (w_nextEvent w) (w_random w) (w_counters w) (w_trace w).
Definition set_strategies (c : StrategyChoice) (w : World) : World :=
  mkWorld (w_now w) (w_faces w) (w_faceTable w) (w_lastFaceId w) (w_pit w) (w_fibItems w) c (w_cs w)
    (w_csFromNdnSim w) (w_dnl w) (w_scheduled w) (w_nextEvent w) (w_random w) (w_counters w) (w_trace w).
Definition set_cs (cs : Cs S) (w : World) : World :=
  mkWorld (w_now w) (w_faces w) (w_faceTable w) (w_lastFaceId w) (w_pit w) (w_fibItems w) (w_strategies w) cs
    (w_csFromNdnSim w) (w_dnl w) (w_scheduled w) (w_nextEvent w) (w_random w) (w_counters w) (w_trace w).
Definition set_csFromNdnSim (e : option E) (w : World) : World :=
  mkWorld (w_now w) (w_faces w) (w_faceTable w) (w_lastFaceId w) (w_pit w) (w_fibItems w) (w_strategies w) (w_cs w)
    e (w_dnl w) (w_scheduled w) (w_nextEvent w) (w_random w) (w_counters w) (w_trace w).
Definition set_dnl (d : DeadNonceList) (w : World) : World :=
  mkWorld (w_now w) (w_faces w) (w_faceTable w) (w_lastFaceId w) (w_pit w) (w_fibItems w) (w_strategies w) (w_cs w)
    (w_csFromNdnSim w) d (w_scheduled w) (w_nextEvent w) (w_random w) (w_counters w) (w_trace w).
Definition set_scheduled (sch : gmap positive (Z * FwdEvent)) (next : positive) (w : World) : World :=
  mkWorld (w_now w) (w_faces w) (w_faceTable w) (w_lastFaceId w) (w_pit w) (w_fibItems w) (w_strategies w) (w_cs w)
    (w_csFromNdnSim w) (w_dnl w) sch next (w_random w) (w_counters w) (w_trace w).
Definition set_random (n : nat) (w : World) : World :=
  mkWorld (w_now w) (w_faces w) (w_faceTable w) (w_lastFaceId w) (w_pit w) (w_fibItems w) (w_strategies w) (w_cs w)
    (w_csFromNdnSim w) (w_dnl w) (w_scheduled w) (w_nextEvent w) n (w_counters w) (w_trace w).
Definition set_counters (c : ForwarderCounters) (w : World) : World :=
  mkWorld (w_now w) (w_faces w) (w_faceTable w) (w_lastFaceId w) (w_pit w) (w_fibItems w) (w_strategies w) (w_cs w)
    (w_csFromNdnSim w) (w_dnl w) (w_scheduled w) (w_nextEvent w) (w_random w) c (w_trace w).
Definition set_trace (l : list Output) (w : World) : World :=
  mkWorld (w_now w) (w_faces w) (w_faceTable w) (w_lastFaceId w) (w_pit w) (w_fibItems w) (w_strategies w) (w_cs w)
    (w_csFromNdnSim w) (w_dnl w) (w_scheduled w) (w_nextEvent w) (w_random w) (w_counters w) l.
End world.

(** ** Pipelines *)

Definition M (S E A : Type) : Type := World S E → option (A * World S E).

Section monad.
Context {S E : Type}.
Abbreviation World := (World S E).
Abbreviation M := (M S E).

Definition ret {A} (a : A) : M A := λ w, Some (a, w).
Definition fail {A} : M A := λ _, None.
Definition bind {A B} (m : M A) (f : A → M B) : M B := λ w, '(a, w) ← m w; f a w.
Definition gets {A} (f : World → A) : M A := λ w, Some (f w, w).
Definition modify (f : World → World) : M unit := λ w, Some (tt, f w).
(** A pointer that is used, an assertion *)
Definition deref {A} (o : option A) : M A := match o with Some a => ret a | None => fail end.
Definition assertM (b : bool) : M unit := if b then ret tt else fail.
(** A range-based for loop *)
Fixpoint for_each {A} (l : list A) (f : A → M unit) : M unit :=
  match l with [] => ret tt | a :: l' => bind (f a) (λ _, for_each l' f) end.
End monad.

Declare Scope pipeline_scope.
Delimit Scope pipeline_scope with M.
Notation "'let*' x := m 'in' k" := (bind m (λ x, k))
  (at level 200, x pattern, m at level 100, k at level 200, right associativity) : pipeline_scope.
Notation "m ;; k" := (bind m (λ _, k)) (at level 100, k at level 200, right associativity) : pipeline_scope.
Notation "'when' b m" := (if b : bool then m else ret tt) (at level 99, b at level 9, m at level 99) : pipeline_scope.

(** *** Total correctness *)

Section runs.
Context {S E : Type}.
Abbreviation World := (World S E).
Abbreviation M := (M S E).

(** [m] runs to its end from [w], in a state that satisfies [Q]. *)
Definition runs {A} (m : M A) (w : World) (Q : A → World → Prop) : Prop := ∃ a w', m w = Some (a, w') ∧ Q a w'.

Lemma runs_mono {A} (m : M A) w (Q R : A → World → Prop) : runs m w Q → (∀ a w', Q a w' → R a w') → runs m w R.
Proof. intros (a & w' & Hm & HQ) HR. exists a, w'. auto. Qed.

Lemma runs_ret {A} (a : A) w (Q : A → World → Prop) : Q a w → runs (ret a) w Q.
Proof. intros. by exists a, w. Qed.

Lemma runs_bind {A B} (m : M A) (f : A → M B) w Q : runs m w (λ a w', runs (f a) w' Q) → runs (bind m f) w Q.
Proof. intros (a & w' & Hm & b & w'' & Hf & HQ). exists b, w''. unfold bind. by rewrite Hm. Qed.

Lemma runs_gets {A} (f : World → A) w (Q : A → World → Prop) : Q (f w) w → runs (gets f) w Q.
Proof. intros. by exists (f w), w. Qed.

Lemma runs_modify f w (Q : unit → World → Prop) : Q tt (f w) → runs (modify f) w Q.
Proof. intros. by exists tt, (f w). Qed.

Lemma runs_deref {A} (o : option A) (a : A) w (Q : A → World → Prop) : o = Some a → Q a w → runs (deref o) w Q.
Proof. intros -> ?. by apply runs_ret. Qed.

Lemma runs_assert b w (Q : unit → World → Prop) : b = true → Q tt w → runs (assertM b) w Q.
Proof. intros -> ?. by apply runs_ret. Qed.

(** A loop with an invariant over the elements that are left. *)
Lemma runs_for_each {A} (l : list A) (f : A → M unit) (I : list A → World → Prop) w (Q : unit → World → Prop) :
  I l w → (∀ a l' w', I (a :: l') w' → runs (f a) w' (λ _, I l')) → (∀ w', I [] w' → Q tt w') →
  runs (for_each l f) w Q.
Proof.
  intros HI Hf HQ. revert w HI. induction l as [|a l IH]; intros w HI; simpl; [by apply runs_ret, HQ|].
  apply runs_bind. eapply runs_mono; [by apply Hf|]. intros [] w' HI'. by apply IH.
Qed.

(** [runs] determines the result. *)
Lemma runs_det {A} (m : M A) w (Q : A → World → Prop) a w' : runs m w Q → m w = Some (a, w') → Q a w'.
Proof. intros (b & w'' & Hm & HQ) E'. rewrite Hm in E'. by injection E' as -> ->. Qed.
End runs.

Arguments runs_bind {S E A B m f w Q}.
Arguments ret : simpl never.
Arguments bind : simpl never.
Arguments gets : simpl never.
Arguments modify : simpl never.
Arguments deref : simpl never.
Arguments assertM : simpl never.

(** Steps through the administrative parts of a pipeline. *)
Ltac run_step :=
  lazymatch goal with
  | |- runs (ret _) _ _ => apply runs_ret
  | |- runs (bind _ _) _ _ => apply runs_bind
  | |- runs (gets _) _ _ => apply runs_gets
  | |- runs (modify _) _ _ => apply runs_modify
  end.
Ltac run_steps := cbv beta iota; repeat (run_step; cbv beta iota).

(** ** What a pipeline leaves alone *)

Section preserves.
Context {S E X : Type} (g : World S E → X).

(** [m] does not change the part [g] of the state. *)
Definition preserves {A} (m : M S E A) : Prop := ∀ w a w', m w = Some (a, w') → g w' = g w.

Lemma preserves_ret {A} (a : A) : preserves (ret a).
Proof. by intros w b w' [= <- <-]. Qed.
Lemma preserves_gets {A} (f : World S E → A) : preserves (gets f).
Proof. by intros w b w' [= <- <-]. Qed.
Lemma preserves_deref {A} (o : option A) : preserves (deref o).
Proof. destruct o; [apply preserves_ret|done]. Qed.
Lemma preserves_assert b : preserves (assertM b).
Proof. destruct b; [apply preserves_ret|done]. Qed.
Lemma preserves_modify f : (∀ w, g (f w) = g w) → preserves (modify f).
Proof. intros Hf w b w' [= <- <-]. apply Hf. Qed.
Lemma preserves_bind {A B} (m : M S E A) (f : A → M S E B) : preserves m → (∀ a, preserves (f a)) → preserves (bind m f).
Proof.
  intros Hm Hf w b w'. unfold bind. destruct (m w) as [[a w1]|] eqn:Em; [|done]. simpl. intros Eb.
  rewrite (Hf a _ _ _ Eb). by apply (Hm _ _ _ Em).
Qed.

Lemma runs_preserves {A} (m : M S E A) w (Q : A → World S E → Prop) : preserves m → runs m w Q →
  runs m w (λ a w', Q a w' ∧ g w' = g w).
Proof. intros Hp (a & w' & Hm & HQ). exists a, w'. split; [done|]. split; [done|by eapply Hp]. Qed.
End preserves.

Create HintDb preserves.
#[export] Hint Resolve preserves_ret preserves_gets preserves_deref preserves_assert : preserves.
Ltac solve_preserves :=
  repeat first
    [ solve [auto with preserves]
    | apply preserves_bind; [|intros ?]
    | apply preserves_modify; done
    | progress case_match ].
