(* ===== verification/Forwarder.v ===== *)
(** * Forwarder: [daemon/fw/forwarder.cpp]

    The forwarding pipelines.  A face reference is the address of the face; a
    PIT entry is the address of a shared object, which the pipelines and the
    strategies update in place.  The measurement of the processing delay and the
    log messages are left out. *)

From S2P Require Import Prelude CityHash Packets FibEntry NameTree NameTreeFacts Fib PitEntry Pit StrategyChoice DeadNonceList ContentStore World.
Open Scope pipeline_scope.

Section forwarder.
Context `{WireEncoding, NameWire, NameOrder, !NameSuccessor} {S E : Type} `{CsPolicy S, NdnSimCs E}.
Context (matchesData : Interest → Data → bool) (random_uint32 : nat → Z).
Abbreviation World := (World S E).
Abbreviation M := (M S E).

(** ** Accessors *)

Definition getId (face : face_ptr) (w : World) : Z := from_option face_id INVALID_FACEID (w_faces w !! face).
Definition isLocal (w : World) (face : face_ptr) : bool := from_option face_isLocal false (w_faces w !! face).

Definition getPitEntry (p : pit_ptr) : M PitEntry := let* e := gets (λ w, pit_entries (w_pit w) !! p) in deref e.
Definition updatePitEntry (f : PitEntry → PitEntry) (p : pit_ptr) : M unit :=
  modify (λ w, set_pit (alter_pit f p (w_pit w)) w).
Definition emit (o : Output) : M unit := modify (λ w, set_trace (w_trace w ++ [o]) w).

Definition count_InInterest : M unit := modify (λ w,
  let c := w_counters w in
  set_counters (mkForwarderCounters (u64 (nInInterests c + 1)) (nOutInterests c) (nInDatas c) (nOutDatas c)) w).
Definition count_OutInterest : M unit := modify (λ w,
  let c := w_counters w in
  set_counters (mkForwarderCounters (nInInterests c) (u64 (nOutInterests c + 1)) (nInDatas c) (nOutDatas c)) w).
Definition count_InData : M unit := modify (λ w,
  let c := w_counters w in
  set_counters (mkForwarderCounters (nInInterests c) (nOutInterests c) (u64 (nInDatas c + 1)) (nOutDatas c)) w).
Definition count_OutData : M unit := modify (λ w,
  let c := w_counters w in
  set_counters (mkForwarderCounters (nInInterests c) (nOutInterests c) (nInDatas c) (u64 (nOutDatas c + 1))) w).

(** ** Timers *)

(** [scheduler::schedule], [scheduler::cancel] *)
Definition fwd_schedule (after : Z) (event : FwdEvent) : M positive :=
  let* id := gets w_nextEvent in
  modify (λ w, set_scheduled (<[id := (w_now w + after, event)]> (w_scheduled w)) (Pos.succ id) w);;
  ret id.
Definition fwd_cancel (id : option positive) : M unit :=
  modify (λ w, match id with
               | Some id => set_scheduled (delete id (w_scheduled w)) (w_nextEvent w) w
               | None => w
               end).

Definition compare_InRecord_expiry (a b : InRecord) : bool := fr_expiry (ir_record a) <? fr_expiry (ir_record b).

(** [scheduler::cancel] also resets the EventId. *)
Definition cancelUnsatisfyTimer (p : pit_ptr) : M unit :=
  let* e := getPitEntry p in fwd_cancel (pe_unsatisfyTimer e);; updatePitEntry (setUnsatisfyTimer None) p.
Definition cancelStragglerTimer (p : pit_ptr) : M unit :=
  let* e := getPitEntry p in fwd_cancel (pe_stragglerTimer e);; updatePitEntry (setStragglerTimer None) p.

Definition cancelUnsatisfyAndStragglerTimer (p : pit_ptr) : M unit :=
  cancelUnsatisfyTimer p;; cancelStragglerTimer p.

Definition setUnsatisfyTimer (p : pit_ptr) : M unit :=
  let* e := getPitEntry p in
  let* lastExpiring := deref (max_element compare_InRecord_expiry (pe_inRecords e)) in
  let lastExpiry := fr_expiry (ir_record lastExpiring) in
  let* now := gets w_now in
  let lastExpiryFromNow := lastExpiry - now in
  cancelUnsatisfyTimer p;;
  let* id := fwd_schedule lastExpiryFromNow (InterestUnsatisfied p) in
  updatePitEntry (PitEntry.setUnsatisfyTimer (Some id)) p.

Definition setStragglerTimer (p : pit_ptr) (isSatisfied : bool) (dataFreshnessPeriod : Z) : M unit :=
  let stragglerTime := milliseconds 100 in
  cancelStragglerTimer p;;
  let* id := fwd_schedule stragglerTime (InterestFinalize p isSatisfied dataFreshnessPeriod) in
  updatePitEntry (PitEntry.setStragglerTimer (Some id)) p.

(** ** Dead Nonce List *)

Definition insertNonceToDnl (pitEntry : PitEntry) (outRecord : OutRecord) : M unit :=
  modify (λ w, set_dnl (DeadNonceList_add (w_dnl w) (pe_name pitEntry) (fr_lastNonce outRecord)) w).

(** [needDnl]; a duration in milliseconds is compared with the lifetime in nanoseconds. *)
Definition needDnlInsert (dnl : DeadNonceList) (pitEntry : PitEntry) (isSatisfied : bool) (dataFreshnessPeriod : Z) : bool :=
  if isSatisfied then
    let hasFreshnessPeriod := 0 <=? dataFreshnessPeriod in
    sel_mustBeFresh (i_selectors (pe_interest pitEntry)) &&
    (hasFreshnessPeriod && (milliseconds dataFreshnessPeriod <? dnl_lifetime dnl))
  else true.

Definition insertDeadNonceList (p : pit_ptr) (isSatisfied : bool) (dataFreshnessPeriod : Z)
    (upstream : option face_ptr) : M unit :=
  let* e := getPitEntry p in
  let* dnl := gets w_dnl in
  if negb (needDnlInsert dnl e isSatisfied dataFreshnessPeriod) then ret tt
  else
    match upstream with
    | None => for_each (pe_outRecords e) (insertNonceToDnl e)
    | Some upstream =>
        match PitEntry_getOutRecord e upstream with
        | Some outRecord => insertNonceToDnl e outRecord
        | None => ret tt
        end
    end.

(** ** Outgoing pipelines *)

(** [true]: [b] is preferred over [a] *)
Definition compare_pickInterest (outFace : face_ptr) (a b : InRecord) : bool :=
  let isOutFaceA := bool_decide (ir_face a = outFace) in
  let isOutFaceB := bool_decide (ir_face b = outFace) in
  if negb isOutFaceA && isOutFaceB then false
  else if isOutFaceA && negb isOutFaceB then true
  else fr_lastRenewed (ir_record b) <? fr_lastRenewed (ir_record a).

Definition onOutgoingInterest (p : pit_ptr) (outFace : face_ptr) (wantNewNonce : bool) : M unit :=
  let* id := gets (getId outFace) in
  if id =? INVALID_FACEID then ret tt
  else
    let* e := getPitEntry p in
    let* local := gets isLocal in
    if PitEntry_violatesScope local e outFace then ret tt
    else
      let* pickedInRecord := deref (max_element (compare_pickInterest outFace) (pe_inRecords e)) in
      let* interest := deref (ir_interest pickedInRecord) in
      let* interest :=
        if wantNewNonce then
          let* n := gets w_random in
          modify (set_random (Datatypes.S n));;
          ret (setNonce (random_uint32 n) interest)
        else ret interest in
      let* now := gets w_now in
      updatePitEntry (PitEntry_insertOrUpdateOutRecord now outFace interest) p;;
      emit (SentInterest outFace interest);;
      count_OutInterest.

Definition onInterestReject (p : pit_ptr) : M unit :=
  let* e := getPitEntry p in
  let* now := gets w_now in
  if PitEntry_hasUnexpiredOutRecords now e then ret tt
  else
    cancelUnsatisfyAndStragglerTimer p;;
    setStragglerTimer p false (-1).

Definition onInterestFinalize (p : pit_ptr) (isSatisfied : bool) (dataFreshnessPeriod : Z) : M unit :=
  insertDeadNonceList p isSatisfied dataFreshnessPeriod None;;
  cancelUnsatisfyAndStragglerTimer p;;
  let* P := gets (λ w, Pit_erase (w_pit w) p) in
  let* P := deref P in
  modify (set_pit P).

Definition onOutgoingData (data : Data) (outFace : face_ptr) : M unit :=
  let* id := gets (getId outFace) in
  if id =? INVALID_FACEID then ret tt
  else
    let* local := gets isLocal in
    let isViolatingLocalhost := negb (local outFace) && isPrefixOf LOCALHOST_NAME (d_name data) in
    if isViolatingLocalhost then ret tt
    else emit (SentData outFace data);; count_OutData.

(** The store in use: [m_csFromNdnSim] when it is set, [m_cs] otherwise. *)
Definition cs_insert (data : Data) (isUnsolicited : bool) : M unit :=
  let* ext := gets w_csFromNdnSim in
  match ext with
  | None =>
      let* r := gets (λ w, Cs_insert (w_now w) data isUnsolicited (w_cs w)) in
      let* (_, cs) := deref r in
      modify (set_cs cs)
  | Some ext => modify (set_csFromNdnSim (Some (ndnsim_Add data ext)))
  end.
Definition cs_find (interest : Interest) : M (option Data) :=
  let* ext := gets w_csFromNdnSim in
  match ext with
  | None =>
      let* r := gets (λ w, Cs_find matchesData (w_now w) interest (w_cs w)) in
      let* (d, cs) := deref r in
      modify (set_cs cs);;
      ret d
  | Some ext =>
      let '(d, ext) := ndnsim_Lookup interest ext in
      modify (set_csFromNdnSim (Some ext));;
      ret d
  end.

Definition onDataUnsolicited (inFace : face_ptr) (data : Data) : M unit :=
  let* local := gets isLocal in
  let acceptToCache := local inFace in
  when acceptToCache (cs_insert data true).

(** ** Strategies *)

(** The triggers of a strategy ([daemon/fw/strategy.hpp]) *)
Record Strategy := mkStrategy {
  afterReceiveInterest : face_ptr → Interest → FibEntry → pit_ptr → M unit;
  beforeSatisfyInterest : pit_ptr → option face_ptr → Data → M unit;  (* no face: the CS face *)
  beforeExpirePendingInterest : pit_ptr → M unit
}.

(** The default triggers only write to the log. *)
Definition Strategy_beforeSatisfyInterest (p : pit_ptr) (inFace : option face_ptr) (data : Data) : M unit := ret tt.
Definition Strategy_beforeExpirePendingInterest (p : pit_ptr) : M unit := ret tt.

(** *** Actions *)
Definition sendInterest (p : pit_ptr) (outFace : face_ptr) (wantNewNonce : bool) : M unit :=
  onOutgoingInterest p outFace wantNewNonce.
Definition rejectPendingInterest (p : pit_ptr) : M unit := onInterestReject p.

(** ** Incoming pipelines *)

Context (strategies : Name → Strategy).

Definition dispatchToStrategy (p : pit_ptr) (trigger : Strategy → M unit) : M unit :=
  let* strategyName := gets (λ w, StrategyChoice_findEffectiveStrategy_pit (w_pit w) p) in
  let* strategyName := deref strategyName in
  trigger (strategies strategyName).

Definition onContentStoreMiss (inFace : face_ptr) (p : pit_ptr) (interest : Interest) : M unit :=
  let* now := gets w_now in
  updatePitEntry (PitEntry_insertOrUpdateInRecord now inFace interest) p;;
  setUnsatisfyTimer p;;
  let* e := getPitEntry p in
  let* nte := deref (pe_nameTreeEntry e) in
  let* fibEntry := gets (λ w, Fib_findLongestPrefixMatch_nte (pit_nt (w_pit w)) nte) in
  dispatchToStrategy p (λ strategy, afterReceiveInterest strategy inFace interest fibEntry p).

Definition onContentStoreHit (inFace : face_ptr) (p : pit_ptr) (interest : Interest) (data : Data) : M unit :=
  emit (SignalSatisfy p None data);;
  dispatchToStrategy p (λ strategy, beforeSatisfyInterest strategy p None data);;
  let data := setDataIncomingFaceId FACEID_CONTENT_STORE data in
  setStragglerTimer p true (d_freshnessPeriod data);;
  onOutgoingData data inFace.

Definition onInterestLoop (inFace : face_ptr) (interest : Interest) (p : pit_ptr) : M unit := ret tt.

Definition onIncomingInterest (inFace : face_ptr) (interest : Interest) : M unit :=
  let* id := gets (getId inFace) in
  let interest := setInterestIncomingFaceId id interest in
  count_InInterest;;
  let* local := gets isLocal in
  let isViolatingLocalhost := negb (local inFace) && isPrefixOf LOCALHOST_NAME (i_name interest) in
  if isViolatingLocalhost then ret tt
  else
    let* ((p, _), P) := gets (λ w, Pit_insert (w_pit w) interest) in
    modify (set_pit P);;
    let* e := getPitEntry p in
    let dnw := PitEntry_findNonce e (i_nonce interest) inFace in
    let* dnl := gets w_dnl in
    let hasDuplicateNonce := negb (dnw =? DUPLICATE_NONCE_NONE) ||
                             DeadNonceList_has dnl (i_name interest) (i_nonce interest) in
    if hasDuplicateNonce then onInterestLoop inFace interest p
    else
      cancelUnsatisfyAndStragglerTimer p;;
      let* e := getPitEntry p in
      let isPending := negb (bool_decide (pe_inRecords e = [])) in
      if negb isPending then
        let* match_ := cs_find interest in
        match match_ with
        | Some data => onContentStoreHit inFace p interest data
        | None => onContentStoreMiss inFace p interest
        end
      else onContentStoreMiss inFace p interest.

Definition onInterestUnsatisfied (p : pit_ptr) : M unit :=
  emit (SignalExpire p);;
  dispatchToStrategy p (λ strategy, beforeExpirePendingInterest strategy p);;
  onInterestFinalize p false (-1).

(** The faces of the in-records that are still pending at [now]. *)
Definition pendingFaces (now : Z) (e : PitEntry) : list face_ptr :=
  ir_face <$> filter (λ r, now < fr_expiry (ir_record r)) (pe_inRecords e).

(** The body of the loop over the matching PIT entries: what it adds to [pendingDownstreams] *)
Definition satisfyPitEntry (inFace : face_ptr) (data : Data) (signal : bool) (p : pit_ptr) : M (list face_ptr) :=
  cancelUnsatisfyAndStragglerTimer p;;
  let* e := getPitEntry p in
  let* now := gets w_now in
  let pending := pendingFaces now e in
  when signal (emit (SignalSatisfy p (Some inFace) data));;
  dispatchToStrategy p (λ strategy, beforeSatisfyInterest strategy p (Some inFace) data);;
  insertDeadNonceList p true (d_freshnessPeriod data) (Some inFace);;
  updatePitEntry PitEntry_deleteInRecords p;;
  updatePitEntry (PitEntry_deleteOutRecord inFace) p;;
  setStragglerTimer p true (d_freshnessPeriod data);;
  ret pending.

Fixpoint satisfyPitEntries (inFace : face_ptr) (data : Data) (signal : bool) (l : list pit_ptr)
    (pendingDownstreams : gset face_ptr) : M (gset face_ptr) :=
  match l with
  | [] => ret pendingDownstreams
  | p :: l' =>
      let* pending := satisfyPitEntry inFace data signal p in
      satisfyPitEntries inFace data signal l' (pendingDownstreams ∪ list_to_set pending)
  end.

(** The loop over the set of faces.  The code visits them by address; the order
    here is the one [elements] gives. *)
Definition sendDownstream (inFace : face_ptr) (data : Data) (pendingDownstreams : gset face_ptr) : M unit :=
  for_each (elements pendingDownstreams) (λ pendingDownstream,
    if bool_decide (pendingDownstream = inFace) then ret tt else onOutgoingData data pendingDownstream).

Definition onIncomingData (inFace : face_ptr) (data : Data) : M unit :=
  let* id := gets (getId inFace) in
  let data := setDataIncomingFaceId id data in
  count_InData;;
  let* local := gets isLocal in
  let isViolatingLocalhost := negb (local inFace) && isPrefixOf LOCALHOST_NAME (d_name data) in
  if isViolatingLocalhost then ret tt
  else
    let* pitMatches := gets (λ w, Pit_findAllDataMatches matchesData (w_pit w) data) in
    if bool_decide (pitMatches = []) then onDataUnsolicited inFace data
    else
      cs_insert data false;;
      let* pendingDownstreams := satisfyPitEntries inFace data true pitMatches ∅ in
      sendDownstream inFace data pendingDownstreams.

(** ** The daemon's steps *)

Definition onInterest (face : face_ptr) (interest : Interest) : M unit := onIncomingInterest face interest.
Definition onData (face : face_ptr) (data : Data) : M unit := onIncomingData face data.

Definition runEvent (ev : FwdEvent) : M unit :=
  match ev with
  | InterestUnsatisfied p => onInterestUnsatisfied p
  | InterestFinalize p isSatisfied dataFreshnessPeriod => onInterestFinalize p isSatisfied dataFreshnessPeriod
  end.

(** The scheduler runs the event [id] at its time. *)
Definition fireTimer (id : positive) : M unit :=
  let* ev := gets (λ w, w_scheduled w !! id) in
  let* (time, ev) := deref ev in
  modify (λ w, set_now (Z.max (w_now w) time) (set_scheduled (delete id (w_scheduled w)) (w_nextEvent w) w));;
  runEvent ev.

Inductive FwdStep :=
| StepInterest (face : face_ptr) (interest : Interest)
| StepData (face : face_ptr) (data : Data)
| StepTimer (id : positive)
| StepTime (elapsed : Z).

Definition fwd_step (s : FwdStep) : M unit :=
  match s with
  | StepInterest face interest => onInterest face interest
  | StepData face data => onData face data
  | StepTimer id => fireTimer id
  | StepTime elapsed => modify (λ w, set_now (w_now w + elapsed) w)
  end.
End forwarder.

(** A step is unfolded before the pipelines it runs. *)
#[global] Strategy expand [fwd_step].
