(* ===== verification/ForwarderInv.v ===== *)
(** * The forwarder's invariants

    [timers_wf]: a pending timer belongs to one live PIT entry, which holds its
    identifier; [fwd_inv]: the tables and the timers are well formed; [covered]:
    a PIT entry with records has a timer that will remove it.  The lemmas follow
    the operations on timers and PIT entries that the pipelines are made of. *)

From S2P Require Import Prelude CityHash Packets FibEntry NameTree NameTreeFacts Fib PitEntry Pit StrategyChoice DeadNonceList ContentStore World Forwarder.
Open Scope pipeline_scope.

(** ** Timers *)

Definition ev_target (ev : FwdEvent) : pit_ptr :=
  match ev with InterestUnsatisfied p => p | InterestFinalize p _ _ => p end.

(** The two timers of a PIT entry: [true] for the unsatisfy timer *)
Definition ev_kind (ev : FwdEvent) : bool :=
  match ev with InterestUnsatisfied _ => true | InterestFinalize _ _ _ => false end.
Definition timer_of (k : bool) (e : PitEntry) : option positive :=
  if k then pe_unsatisfyTimer e else pe_stragglerTimer e.
Definition set_timer (k : bool) (t : option positive) : PitEntry → PitEntry :=
  if k then PitEntry.setUnsatisfyTimer t else PitEntry.setStragglerTimer t.

Lemma timer_of_set k l t e : timer_of k (set_timer l t e) = if decide (k = l) then t else timer_of k e.
Proof. by destruct k, l. Qed.
Lemma set_timer_same k t e : pe_interest (set_timer k t e) = pe_interest e ∧
  pe_nameTreeEntry (set_timer k t e) = pe_nameTreeEntry e ∧ pe_inRecords (set_timer k t e) = pe_inRecords e ∧
  pe_outRecords (set_timer k t e) = pe_outRecords e.
Proof. by destruct k. Qed.

Abbreviation Entries := (gmap pit_ptr PitEntry).
Abbreviation Schedule := (gmap positive (Z * FwdEvent)).

Record timers_wf (h : Entries) (sch : Schedule) (next : positive) : Prop := {
  tw_event id t ev : sch !! id = Some (t, ev) →
    ∃ e, h !! ev_target ev = Some e ∧ is_Some (pe_nameTreeEntry e) ∧ timer_of (ev_kind ev) e = Some id;
  tw_field p e k id : h !! p = Some e → timer_of k e = Some id → (id < next)%positive;
  tw_unique p q e f k l id : h !! p = Some e → h !! q = Some f →
    timer_of k e = Some id → timer_of l f = Some id → p = q ∧ k = l
}.

Definition pending (sch : Schedule) (p : pit_ptr) : Prop := ∃ id t ev, sch !! id = Some (t, ev) ∧ ev_target ev = p.

Definition has_records (e : PitEntry) : Prop := pe_inRecords e ≠ [] ∨ pe_outRecords e ≠ [].
Definition covered_in (h : Entries) (sch : Schedule) (p : pit_ptr) : Prop :=
  ∀ e, h !! p = Some e → is_Some (pe_nameTreeEntry e) → has_records e → pending sch p.

Definition delete_timer (id : option positive) (sch : Schedule) : Schedule :=
  match id with Some id => delete id sch | None => sch end.

Lemma delete_timer_lookup o sch id x : delete_timer o sch !! id = Some x ↔ sch !! id = Some x ∧ o ≠ Some id.
Proof.
  destruct o as [i|]; simpl; [|naive_solver]. rewrite lookup_delete_Some. naive_solver.
Qed.

(** Updates that leave timers and place alone *)
Definition keeps_timers (f : PitEntry → PitEntry) : Prop :=
  ∀ e, pe_nameTreeEntry (f e) = pe_nameTreeEntry e ∧ ∀ k, timer_of k (f e) = timer_of k e.

Lemma alter_entries_inv (f : PitEntry → PitEntry) p (h : Entries) q e :
  alter f p h !! q = Some e → ∃ e0, h !! q = Some e0 ∧ e = if decide (q = p) then f e0 else e0.
Proof. rewrite lookup_alter_Some. intros [(-> & y & ? & ->)|[? ?]]; (eexists; split; [eassumption|]);
  [by rewrite decide_True|by rewrite decide_False]. Qed.

Lemma alter_entries_eq (f : PitEntry → PitEntry) p (h : Entries) q e0 :
  h !! q = Some e0 → alter f p h !! q = Some (if decide (q = p) then f e0 else e0).
Proof. intros He. destruct (decide (q = p)) as [->|Hne]; [by rewrite lookup_alter_eq, He|by rewrite lookup_alter_ne]. Qed.

Lemma timers_alter f p (h : Entries) sch next : keeps_timers f → timers_wf h sch next → timers_wf (alter f p h) sch next.
Proof.
  intros Hf [Te Tf Tu].
  assert (Hinv : ∀ q e, alter f p h !! q = Some e → ∃ e0, h !! q = Some e0 ∧
    pe_nameTreeEntry e = pe_nameTreeEntry e0 ∧ ∀ k, timer_of k e = timer_of k e0).
  { intros q e He. apply alter_entries_inv in He as (e0 & He & ->). exists e0. case_decide; [|done]. destruct (Hf e0). auto. }
  split.
  - intros id t ev Hid. destruct (Te _ _ _ Hid) as (e & He & Hn & Ht). rewrite (alter_entries_eq _ _ _ _ _ He).
    eexists. split; [done|]. case_decide; [|done]. destruct (Hf e) as [-> ->]. done.
  - intros q e k id He Ht. destruct (Hinv _ _ He) as (e0 & He0 & _ & Hk). rewrite Hk in Ht. eauto.
  - intros q1 q2 e1 e2 k l id H1 H2 T1 T2. destruct (Hinv _ _ H1) as (f1 & F1 & _ & K1), (Hinv _ _ H2) as (f2 & F2 & _ & K2).
    rewrite K1 in T1. rewrite K2 in T2. eauto.
Qed.

Lemma set_timer_inv k t (p : pit_ptr) (h : Entries) q e : alter (set_timer k t) p h !! q = Some e → ∃ e0, h !! q = Some e0 ∧
  pe_nameTreeEntry e = pe_nameTreeEntry e0 ∧
  ∀ l, timer_of l e = if decide (q = p ∧ l = k) then t else timer_of l e0.
Proof.
  intros He. apply alter_entries_inv in He as (e0 & He & ->). exists e0. split; [done|].
  destruct (decide (q = p)) as [Eq|Eq].
  - destruct (set_timer_same k t e0) as (_ & -> & _). split; [done|]. intros l. rewrite timer_of_set.
    destruct (decide (l = k)); [rewrite decide_True by done|rewrite decide_False by naive_solver]; done.
  - split; [done|]. intros l. rewrite decide_False by naive_solver. done.
Qed.

Lemma timers_cancel k p e h sch next : timers_wf h sch next → h !! p = Some e →
  timers_wf (alter (set_timer k None) p h) (delete_timer (timer_of k e) sch) next.
Proof.
  intros [Te Tf Tu] Hp. split.
  - intros id t ev [Hid Hne]%delete_timer_lookup. destruct (Te _ _ _ Hid) as (x & Hx & Hn & Ht).
    rewrite (alter_entries_eq _ _ _ _ _ Hx). eexists. split; [done|].
    destruct (decide (ev_target ev = p)) as [Ev|Ev]; [|done]. destruct (set_timer_same k None x) as (_ & -> & _).
    split; [done|]. rewrite timer_of_set. destruct (decide (ev_kind ev = k)) as [Ek|]; [|done].
    rewrite Ev, Hp in Hx. injection Hx as <-. rewrite Ek in Ht. congruence.
  - intros q x l id Hx Hl. destruct (set_timer_inv _ _ _ _ _ _ Hx) as (x0 & Hx0 & _ & E). rewrite E in Hl.
    case_decide; [done|]. eauto.
  - intros q1 q2 x1 x2 k1 k2 id H1 H2 T1 T2.
    destruct (set_timer_inv _ _ _ _ _ _ H1) as (y1 & Y1 & _ & E1), (set_timer_inv _ _ _ _ _ _ H2) as (y2 & Y2 & _ & E2).
    rewrite E1 in T1. rewrite E2 in T2. repeat case_decide; try done; eauto.
Qed.

Lemma timers_schedule k t ev p e h sch next : timers_wf h sch next → h !! p = Some e → is_Some (pe_nameTreeEntry e) →
  timer_of k e = None → ev_target ev = p → ev_kind ev = k →
  timers_wf (alter (set_timer k (Some next)) p h) (<[next := (t, ev)]> sch) (Pos.succ next).
Proof.
  intros [Te Tf Tu] Hp Hlive Hk Et Ek. split.
  - intros id u ev'. rewrite lookup_insert_Some. intros [[<- [= <- <-]]|[Hne Hid]].
    + rewrite Et, (alter_entries_eq _ _ _ _ _ Hp), decide_True by done. eexists. split; [done|].
      destruct (set_timer_same k (Some next) e) as (_ & -> & _). split; [done|]. by rewrite Ek, timer_of_set, decide_True.
    + destruct (Te _ _ _ Hid) as (x & Hx & Hn & Ht). rewrite (alter_entries_eq _ _ _ _ _ Hx). eexists. split; [done|].
      destruct (decide (ev_target ev' = p)) as [Ev|Ev]; [|done]. destruct (set_timer_same k (Some next) x) as (_ & -> & _).
      split; [done|]. rewrite timer_of_set. destruct (decide (ev_kind ev' = k)) as [Ek'|]; [|done].
      rewrite Ev, Hp in Hx. injection Hx as <-. rewrite Ek' in Ht. congruence.
  - intros q x l id Hx Hl. destruct (set_timer_inv _ _ _ _ _ _ Hx) as (x0 & Hx0 & _ & E). rewrite E in Hl.
    case_decide; [injection Hl as <-; lia|]. specialize (Tf _ _ _ _ Hx0 Hl). lia.
  - intros q1 q2 x1 x2 k1 k2 id H1 H2 T1 T2.
    destruct (set_timer_inv _ _ _ _ _ _ H1) as (y1 & Y1 & _ & E1), (set_timer_inv _ _ _ _ _ _ H2) as (y2 & Y2 & _ & E2).
    rewrite E1 in T1. rewrite E2 in T2.
    destruct (decide (q1 = p ∧ k1 = k)) as [[-> ->]|], (decide (q2 = p ∧ k2 = k)) as [[-> ->]|]; [done|..].
    + injection T1 as <-. specialize (Tf _ _ _ _ Y2 T2). lia.
    + injection T2 as <-. specialize (Tf _ _ _ _ Y1 T1). lia.
    + eauto.
Qed.

Lemma timers_new p e h sch next : timers_wf h sch next → h !! p = None → (∀ k, timer_of k e = None) →
  timers_wf (<[p := e]> h) sch next.
Proof.
  intros [Te Tf Tu] Hp He. split.
  - intros id t ev Hid. destruct (Te _ _ _ Hid) as (x & Hx & ?). exists x. rewrite lookup_insert_ne by congruence. done.
  - intros q x l id. rewrite lookup_insert_Some. intros [[<- <-]|[_ Hx]] Hl; [by rewrite He in Hl|eauto].
  - intros q1 q2 x1 x2 k1 k2 id. rewrite !lookup_insert_Some.
    intros [[<- <-]|[_ H1]] [[<- <-]|[_ H2]] T1 T2; rewrite ?He in T1; rewrite ?He in T2; try done. eauto.
Qed.

Lemma timers_fire id h sch next : timers_wf h sch next → timers_wf h (delete id sch) next.
Proof. intros [Te Tf Tu]. split; [|done|done]. intros i t ev [_ Hid]%lookup_delete_Some. eauto. Qed.

(** A PIT entry without timers leaves the table. *)
Lemma timers_detach p e h sch next : timers_wf h sch next → h !! p = Some e → (∀ k, timer_of k e = None) →
  timers_wf (<[p := setNameTreeEntry None e]> h) sch next.
Proof.
  intros [Te Tf Tu] Hp He. split.
  - intros id t ev Hid. destruct (Te _ _ _ Hid) as (x & Hx & Hn & Ht). exists x.
    rewrite lookup_insert_ne; [done|]. intros Ep. assert (x = e) as -> by congruence. by rewrite He in Ht.
  - intros q x l id. rewrite lookup_insert_Some. intros [[<- <-]|[_ Hx]] Hl; [|eauto].
    assert (timer_of l e = Some id) by (by destruct l). eauto.
  - intros q1 q2 x1 x2 k1 k2 id. rewrite !lookup_insert_Some.
    intros [[<- <-]|[_ H1]] [[<- <-]|[_ H2]] T1 T2.
    + assert (timer_of k1 e = Some id) as E1 by (by destruct k1). by rewrite He in E1.
    + assert (timer_of k1 e = Some id) as E1 by (by destruct k1). by rewrite He in E1.
    + assert (timer_of k2 e = Some id) as E1 by (by destruct k2). by rewrite He in E1.
    + eauto.
Qed.

(** Cancelling a timer of [p] leaves the timers of other entries. *)
Lemma pending_cancel k p e q h sch next : timers_wf h sch next → h !! p = Some e → q ≠ p →
  pending sch q → pending (delete_timer (timer_of k e) sch) q.
Proof.
  intros [Te Tf Tu] Hp Hne (id & t & ev & Hid & Eq). exists id, t, ev. split; [|done].
  apply delete_timer_lookup. split; [done|]. intros Ek. destruct (Te _ _ _ Hid) as (x & Hx & _ & Ht).
  destruct (Tu _ _ _ _ _ _ _ Hp Hx Ek Ht) as [E _]. congruence.
Qed.

Lemma pending_insert sch p id x : sch !! id = None → pending sch p → pending (<[id := x]> sch) p.
Proof. intros Hn (i & t & ev & Hi & E). exists i, t, ev. rewrite lookup_insert_ne by congruence. done. Qed.

Lemma timers_next_fresh h sch next : timers_wf h sch next → sch !! next = None.
Proof.
  intros [Te Tf Tu]. apply eq_None_not_Some. intros [[t ev] Hx]. destruct (Te _ _ _ Hx) as (e & He & _ & Ht).
  specialize (Tf _ _ _ _ He Ht). lia.
Qed.

(** ** The invariant *)

Section inv.
Context `{WireEncoding, NameWire, NameOrder, !NameSuccessor} {S E : Type} `{CsPolicyLaws S, NdnSimCs E}.
Abbreviation World := (World S E).
Abbreviation M := (M S E).

Definition entries (w : World) : Entries := pit_entries (w_pit w).

(** The Interests in the in-records are the entry's, up to Nonce and lifetime. *)
Definition records_ok (e : PitEntry) : Prop :=
  ∀ r i, r ∈ pe_inRecords e → ir_interest r = Some i →
    i_name i = pe_name e ∧ i_selectors i = i_selectors (pe_interest e).

Record fwd_inv (w : World) : Prop := {
  fi_sc : sc_wf (w_pit w) (w_strategies w);
  fi_ok p e : entries w !! p = Some e → PitEntry_ok e ∧ records_ok e;
  fi_timers : timers_wf (entries w) (w_scheduled w) (w_nextEvent w);
  fi_cs : cs_wf (w_cs w);
  fi_stored : stored_ok (cs_table (w_cs w))
}.

Definition covered (w : World) (p : pit_ptr) : Prop := covered_in (entries w) (w_scheduled w) p.

(** Between the steps of the daemon *)
Definition fwd_ok (w : World) : Prop := fwd_inv w ∧ ∀ p, covered w p.

Lemma fi_pit w : fwd_inv w → pit_wf (w_pit w).
Proof. intros Hi. apply (scw_pit _ _ (fi_sc _ Hi)). Qed.

(** The FIB stays the same. *)
Definition same_fib (w w' : World) : Prop :=
  (∀ n, fib_get (pit_nt (w_pit w')) n = fib_get (pit_nt (w_pit w)) n) ∧ w_fibItems w' = w_fibItems w.
Lemma same_fib_refl w : same_fib w w.
Proof. by split. Qed.
Lemma same_fib_trans w1 w2 w3 : same_fib w1 w2 → same_fib w2 w3 → same_fib w1 w3.
Proof. intros [G1 I1] [G2 I2]. split; [intros n; by rewrite G2|congruence]. Qed.

(** What a pipeline that works for one PIT entry leaves alone *)
Record touches (p : pit_ptr) (w w' : World) : Prop := {
  to_inv : fwd_inv w';
  to_now : w_now w' = w_now w;
  to_faces : w_faces w' = w_faces w;
  to_table : w_faceTable w' = w_faceTable w ∧ w_lastFaceId w' = w_lastFaceId w;
  to_strategies : w_strategies w' = w_strategies w;
  to_fib : same_fib w w';
  to_entry e : entries w !! p = Some e →
    ∃ e', entries w' !! p = Some e' ∧ pe_interest e' = pe_interest e ∧ pe_nameTreeEntry e' = pe_nameTreeEntry e;
  to_other q : q ≠ p → entries w' !! q = entries w !! q;
  to_pending q : q ≠ p → pending (w_scheduled w) q → pending (w_scheduled w') q
}.

Lemma touches_refl p w : fwd_inv w → touches p w w.
Proof. intros Hi. split; eauto using same_fib_refl. Qed.

Lemma touches_trans p w1 w2 w3 : touches p w1 w2 → touches p w2 w3 → touches p w1 w3.
Proof.
  intros [I1 N1 F1 [A1 B1] S1 G1 E1 O1 P1] [I2 N2 F2 [A2 B2] S2 G2 E2 O2 P2].
  split; [done|congruence|congruence|split; congruence|congruence|by eapply same_fib_trans| | |].
  - intros e He. destruct (E1 _ He) as (e1 & He1 & ? & ?). destruct (E2 _ He1) as (e2 & He2 & ? & ?).
    exists e2. split_and!; congruence.
  - intros q Hq. by rewrite O2, O1.
  - auto.
Qed.

Lemma touches_covered p w w' q : touches p w w' → q ≠ p → covered w q → covered w' q.
Proof.
  intros T Hq Hc e He Hn Hr. rewrite (to_other _ _ _ T) in He by done. apply (to_pending _ _ _ T); [done|]. by eapply Hc.
Qed.

(** *** Updates of one PIT entry *)

(** Updates that keep what the tables rely on, and the entry's own invariant *)
Definition pit_update (f : PitEntry → PitEntry) : Prop :=
  ∀ e, pe_interest (f e) = pe_interest e ∧ pe_nameTreeEntry (f e) = pe_nameTreeEntry e.
Definition keeps_ok (f : PitEntry → PitEntry) (e : PitEntry) : Prop :=
  PitEntry_ok e → records_ok e → PitEntry_ok (f e) ∧ records_ok (f e).

Lemma sc_wf_entries P P' c : sc_wf P c → pit_wf P' → pit_nt P' = pit_nt P → sc_wf P' c.
Proof. intros [W A B C D] W' E'. split; rewrite ?E'; done. Qed.

Lemma alter_pit_nt f p P : pit_nt (alter_pit f p P) = pit_nt P.
Proof. done. Qed.

(** An update of a PIT entry, together with the schedule *)
Lemma update_inv w f p sch next :
  fwd_inv w → pit_update f → (∀ e, entries w !! p = Some e → keeps_ok f e) →
  timers_wf (alter f p (entries w)) sch next →
  fwd_inv (set_pit (alter_pit f p (w_pit w)) (set_scheduled sch next w)).
Proof.
  intros Hi Hf Hk Ht. destruct (alter_pit_wf (w_pit w) f p (fi_pit _ Hi) Hf) as [W' _].
  split; simpl; [by eapply sc_wf_entries; [apply Hi|..]| |done|apply Hi|apply Hi].
  intros q e He. apply alter_entries_inv in He as (e0 & He0 & ->). destruct (fi_ok _ Hi _ _ He0) as [Ho Hr].
  case_decide; [subst; by apply Hk|done].
Qed.

Lemma touches_update w f p sch next : fwd_inv w → pit_update f → (∀ e, entries w !! p = Some e → keeps_ok f e) →
  timers_wf (alter f p (entries w)) sch next → (∀ q, q ≠ p → pending (w_scheduled w) q → pending sch q) →
  touches p w (set_pit (alter_pit f p (w_pit w)) (set_scheduled sch next w)).
Proof.
  intros Hi Hf Hk Ht Hp. split; try done; simpl.
  - by apply update_inv.
  - intros e He. unfold entries. simpl. fold (entries w). rewrite (alter_entries_eq _ _ _ _ _ He), decide_True by done.
    eexists. split; [done|]. apply Hf.
  - intros q Hq. unfold entries. simpl. by rewrite lookup_alter_ne.
Qed.

(** An update of a PIT entry that leaves its timers alone *)
Lemma updatePitEntry_spec w f p e : fwd_inv w → pit_update f → keeps_timers f → entries w !! p = Some e → keeps_ok f e →
  runs (updatePitEntry f p) w (λ _ w', w' = set_pit (alter_pit f p (w_pit w)) w ∧ touches p w w' ∧ entries w' !! p = Some (f e)).
Proof.
  intros Hi Hf Ht He Hk. unfold updatePitEntry. run_steps. split; [done|].
  assert (Es : set_pit (alter_pit f p (w_pit w)) w = set_pit (alter_pit f p (w_pit w)) (set_scheduled (w_scheduled w) (w_nextEvent w) w))
    by (by destruct w).
  split.
  - rewrite Es. apply touches_update; [done|done| |by apply timers_alter; [|apply Hi]|done].
    intros x Hx. by assert (x = e) as -> by congruence.
  - unfold entries. simpl. fold (entries w). by rewrite (alter_entries_eq _ _ _ _ _ He), decide_True.
Qed.

Lemma set_timer_update k t : pit_update (set_timer k t).
Proof. by destruct k. Qed.
Lemma set_timer_ok k t e : keeps_ok (set_timer k t) e.
Proof. intros [A B C] D. destruct k; (split; [by split|done]). Qed.

(** ** The operations on one PIT entry *)

(** Nothing but PIT entries and timers changes. *)
Record quiet (w w' : World) : Prop := {
  qu_nt : pit_nt (w_pit w') = pit_nt (w_pit w);
  qu_fib : w_fibItems w' = w_fibItems w;
  qu_cs : w_cs w' = w_cs w;
  qu_ext : w_csFromNdnSim w' = w_csFromNdnSim w;
  qu_dnl : w_dnl w' = w_dnl w;
  qu_random : w_random w' = w_random w;
  qu_counters : w_counters w' = w_counters w;
  qu_trace : w_trace w' = w_trace w
}.

Lemma quiet_refl w : quiet w w.
Proof. by split. Qed.
Lemma quiet_trans w1 w2 w3 : quiet w1 w2 → quiet w2 w3 → quiet w1 w3.
Proof. intros [] []. split; congruence. Qed.

(** The entry at [p] is [e], in the table. *)
Definition holds (w : World) (p : pit_ptr) (e : PitEntry) : Prop :=
  entries w !! p = Some e ∧ is_Some (pe_nameTreeEntry e).

Lemma holds_live w p e : holds w p e → live (w_pit w) p.
Proof. intros [He [a Ha]]. by exists e, a. Qed.

Lemma runs_getPitEntry p w e Q : entries w !! p = Some e → Q e w → runs (getPitEntry p) w Q.
Proof. intros He HQ. unfold getPitEntry. run_steps. by eapply runs_deref. Qed.

Definition cancelTimer (k : bool) : pit_ptr → M unit := if k then cancelUnsatisfyTimer else cancelStragglerTimer.

Lemma cancel_spec k p w e : fwd_inv w → entries w !! p = Some e →
  runs (cancelTimer k p) w (λ _ w', touches p w w' ∧ quiet w w' ∧ entries w' !! p = Some (set_timer k None e)).
Proof.
  intros Hi He.
  assert (Eq : cancelTimer k p w = Some (tt, set_pit (alter_pit (set_timer k None) p (w_pit w))
    (set_scheduled (delete_timer (timer_of k e) (w_scheduled w)) (w_nextEvent w) w))).
  { unfold cancelTimer, cancelUnsatisfyTimer, cancelStragglerTimer, getPitEntry, fwd_cancel, updatePitEntry, bind, gets, modify, deref, ret.
    unfold entries in He. destruct k; simpl; rewrite He; simpl;
      [destruct (pe_unsatisfyTimer e)|destruct (pe_stragglerTimer e)]; destruct w; done. }
  eexists _, _. split; [exact Eq|]. split_and!.
  - apply touches_update; [done|apply set_timer_update|intros; apply set_timer_ok|by apply timers_cancel; [apply Hi|]|].
    intros q Hq. eapply pending_cancel; [apply Hi|done|done].
  - by split.
  - unfold entries. simpl. fold (entries w). by rewrite (alter_entries_eq _ _ _ _ _ He), decide_True.
Qed.

Lemma cancelBoth_spec p w e : fwd_inv w → entries w !! p = Some e →
  runs (cancelUnsatisfyAndStragglerTimer p) w (λ _ w', touches p w w' ∧ quiet w w' ∧
    entries w' !! p = Some (set_timer false None (set_timer true None e))).
Proof.
  intros Hi He. unfold cancelUnsatisfyAndStragglerTimer. run_steps.
  eapply runs_mono; [by apply (cancel_spec true)|]. intros _ w1 (T1 & Q1 & E1).
  eapply runs_mono; [by apply (cancel_spec false); [apply T1|]|]. intros _ w2 (T2 & Q2 & E2).
  split_and!; [by eapply touches_trans|by eapply quiet_trans|done].
Qed.

(** Scheduling the event of a timer that is not set *)
Lemma schedule_spec k ev after p w e : fwd_inv w → holds w p e → timer_of k e = None → ev_target ev = p → ev_kind ev = k →
  runs (let* id := fwd_schedule after ev in updatePitEntry (set_timer k (Some id)) p) w (λ _ w',
    touches p w w' ∧ quiet w w' ∧ entries w' !! p = Some (set_timer k (Some (w_nextEvent w)) e) ∧
    w_scheduled w' = <[w_nextEvent w := (w_now w + after, ev)]> (w_scheduled w)).
Proof.
  intros Hi [He Hn] Hk Et Ek.
  assert (Eq : (let* id := fwd_schedule after ev in updatePitEntry (set_timer k (Some id)) p)%M w =
    Some (tt, set_pit (alter_pit (set_timer k (Some (w_nextEvent w))) p (w_pit w))
      (set_scheduled (<[w_nextEvent w := (w_now w + after, ev)]> (w_scheduled w)) (Pos.succ (w_nextEvent w)) w))) by (by destruct w).
  eexists _, _. split; [exact Eq|]. split_and!; [|by split| |done].
  - apply touches_update; [done|apply set_timer_update|intros; apply set_timer_ok|by apply (timers_schedule k _ ev p e); [apply Hi|..]|].
    intros q Hq. apply pending_insert. eapply timers_next_fresh. apply Hi.
  - unfold entries. simpl. fold (entries w). by rewrite (alter_entries_eq _ _ _ _ _ He), decide_True.
Qed.

Lemma set_timer_twice k t u e : set_timer k t (set_timer k u e) = set_timer k t e.
Proof. by destruct k, e. Qed.

(** The timer of kind [k] is cancelled and set again, to run [ev]. *)
Lemma reset_timer_spec k ev after p w e : fwd_inv w → holds w p e → ev_target ev = p → ev_kind ev = k →
  runs (cancelTimer k p;; let* id := fwd_schedule after ev in updatePitEntry (set_timer k (Some id)) p) w (λ _ w',
    touches p w w' ∧ quiet w w' ∧ pending (w_scheduled w') p ∧
    ∃ id, entries w' !! p = Some (set_timer k (Some id) e)).
Proof.
  intros Hi [He Hn] Et Ek. run_steps.
  eapply runs_mono; [by apply cancel_spec|]. intros _ w1 (T1 & Q1 & E1).
  destruct (set_timer_same k None e) as (_ & Es & _).
  apply (runs_bind (m := fwd_schedule after ev)).
  pose proof (schedule_spec k ev after p w1 (set_timer k None e)) as (a & w2 & E2 & T2 & Q2 & G2 & S2); try done.
  - apply T1.
  - split; [exact E1|]. by rewrite Es.
  - by rewrite timer_of_set, decide_True.
  - unfold bind in E2. destruct (fwd_schedule after ev w1) as [[id w1']|] eqn:F; [|done]. simpl in E2.
    exists id, w1'. split; [done|]. exists a, w2. split; [done|]. split_and!.
    + by eapply touches_trans.
    + by eapply quiet_trans.
    + eexists _, _, ev. split; [rewrite S2; apply lookup_insert_eq|done].
    + eexists. by rewrite G2, set_timer_twice.
Qed.

Lemma setUnsatisfyTimer_spec p w e : fwd_inv w → holds w p e → pe_inRecords e ≠ [] →
  runs (setUnsatisfyTimer p) w (λ _ w', touches p w w' ∧ quiet w w' ∧ pending (w_scheduled w') p ∧
    ∃ id, entries w' !! p = Some (set_timer true (Some id) e)).
Proof.
  intros Hi Hh Hr. pose proof Hh as [He Hn]. unfold setUnsatisfyTimer. apply runs_bind.
  eapply runs_getPitEntry; [done|]. apply runs_bind.
  destruct (pe_inRecords e) as [|r l] eqn:El; [done|]. eapply runs_deref; [done|]. apply runs_bind, runs_gets.
  by apply (reset_timer_spec true (InterestUnsatisfied p)).
Qed.

Lemma setStragglerTimer_spec p w e b fresh : fwd_inv w → holds w p e →
  runs (setStragglerTimer p b fresh) w (λ _ w', touches p w w' ∧ quiet w w' ∧ pending (w_scheduled w') p ∧
    ∃ id, entries w' !! p = Some (set_timer false (Some id) e)).
Proof. intros Hi Hh. by apply (reset_timer_spec false (InterestFinalize p b fresh)). Qed.
(** ** Changes beside the tables *)

Record same_core (w w' : World) : Prop := {
  sa_pit : w_pit w' = w_pit w;
  sa_scheduled : w_scheduled w' = w_scheduled w;
  sa_next : w_nextEvent w' = w_nextEvent w;
  sa_strategies : w_strategies w' = w_strategies w;
  sa_fib : w_fibItems w' = w_fibItems w;
  sa_now : w_now w' = w_now w;
  sa_faces : w_faces w' = w_faces w;
  sa_table : w_faceTable w' = w_faceTable w ∧ w_lastFaceId w' = w_lastFaceId w
}.

Lemma touches_core p w w' : fwd_inv w → same_core w w' → cs_wf (w_cs w') → stored_ok (cs_table (w_cs w')) → touches p w w'.
Proof.
  intros Hi [P Sc N St Fi T F Tb] Hc Ho. split; try done; unfold entries; rewrite ?P, ?Sc; eauto.
  - split; unfold entries; rewrite ?P, ?Sc, ?N, ?St; [apply Hi|apply (fi_ok _ Hi)|apply Hi|done|done].
  - split; [by rewrite P|done].
Qed.

(** *** The Dead Nonce List *)

Definition dnl_after (dnl : DeadNonceList) (e : PitEntry) (isSatisfied : bool) (fresh : Z) (upstream : option face_ptr) : DeadNonceList :=
  if needDnlInsert dnl e isSatisfied fresh then
    foldl (λ d r, DeadNonceList_add d (pe_name e) (fr_lastNonce r)) dnl
      (match upstream with None => pe_outRecords e | Some f => option_list (PitEntry_getOutRecord e f) end)
  else dnl.

Lemma insertDeadNonceList_eq p w e b fresh up : entries w !! p = Some e →
  insertDeadNonceList p b fresh up w = Some (tt, set_dnl (dnl_after (w_dnl w) e b fresh up) w).
Proof.
  intros He. unfold insertDeadNonceList, dnl_after, getPitEntry, bind, gets, deref. unfold entries in He. simpl. rewrite He. simpl.
  assert (E0 : set_dnl (w_dnl w) w = w) by (by destruct w).
  destruct (needDnlInsert (w_dnl w) e b fresh); simpl; [|by rewrite E0].
  destruct up as [f|]; [destruct (PitEntry_getOutRecord e f); simpl; [done|by rewrite E0]|].
  rewrite <-E0 at 1. generalize (w_dnl w) as d. induction (pe_outRecords e) as [|r l IH]; intros d; simpl; [done|].
  apply (IH (DeadNonceList_add d (pe_name e) (fr_lastNonce r))).
Qed.

Lemma insertDeadNonceList_spec p w e b fresh up : fwd_inv w → entries w !! p = Some e →
  runs (insertDeadNonceList p b fresh up) w (λ _ w', w' = set_dnl (dnl_after (w_dnl w) e b fresh up) w ∧ touches p w w').
Proof.
  intros Hi He. eexists _, _. split; [by apply insertDeadNonceList_eq|]. split; [done|].
  apply touches_core; [done|by split|apply Hi|apply Hi].
Qed.

(** *** Sending Data *)

(** The face exists, and is local when the name is in /localhost. *)
Definition can_send (w : World) (face : face_ptr) (n : Name) : bool :=
  negb (getId face w =? INVALID_FACEID) && negb (negb (isLocal w face) && isPrefixOf LOCALHOST_NAME n).

Definition add_outData (w : World) : World :=
  let c := w_counters w in
  set_counters (mkForwarderCounters (nInInterests c) (nOutInterests c) (nInDatas c) (u64 (nOutDatas c + 1))) w.

Lemma onOutgoingData_eq data face w : onOutgoingData data face w = Some (tt,
  if can_send w face (d_name data) then add_outData (set_trace (w_trace w ++ [SentData face data]) w) else w).
Proof.
  unfold onOutgoingData, can_send, bind, gets. simpl. destruct (getId face w =? INVALID_FACEID); simpl; [done|].
  destruct (isLocal w face), (isPrefixOf LOCALHOST_NAME (d_name data)); done.
Qed.

Lemma onOutgoingData_spec data face p w : fwd_inv w →
  runs (onOutgoingData data face) w (λ _ w', touches p w w' ∧ w_scheduled w' = w_scheduled w ∧ w_dnl w' = w_dnl w ∧ w_cs w' = w_cs w ∧
    entries w' = entries w ∧
    w_trace w' = w_trace w ++ (if can_send w face (d_name data) then [SentData face data] else [])).
Proof.
  intros Hi. eexists _, _. split; [apply onOutgoingData_eq|]. destruct (can_send w face (d_name data)); simpl.
  - split_and!; try done. apply touches_core; [done|by split|apply Hi|apply Hi].
  - rewrite app_nil_r. split_and!; try done. by apply touches_refl.
Qed.

(** ** What a strategy may do with a PIT entry *)

(** An in-record without its strategy information *)
Definition in_key (r : InRecord) :=
  (ir_face r, fr_lastNonce (ir_record r), fr_lastRenewed (ir_record r), fr_expiry (ir_record r), ir_interest r).

(** Interests for the entry's Name, on faces that may carry it *)
Definition interest_out (w : World) (n : Name) (o : Output) : Prop :=
  match o with SentInterest f i => i_name i = n ∧ can_send w f n = true | _ => False end.

Record acts (p : pit_ptr) (w w' : World) : Prop := {
  ac_touches : touches p w w';
  ac_keep : w_cs w' = w_cs w ∧ w_csFromNdnSim w' = w_csFromNdnSim w ∧ w_dnl w' = w_dnl w;
  ac_records e e' : entries w !! p = Some e → entries w' !! p = Some e' →
    in_key <$> pe_inRecords e' = in_key <$> pe_inRecords e;
  ac_pending : pending (w_scheduled w) p → pending (w_scheduled w') p;
  ac_covered : covered w p → covered w' p;
  ac_trace e : entries w !! p = Some e → ∃ l, w_trace w' = w_trace w ++ l ∧ Forall (interest_out w (pe_name e)) l
}.

Lemma can_send_faces w w' f n : w_faces w' = w_faces w → can_send w' f n = can_send w f n.
Proof. intros E'. unfold can_send, getId, isLocal. by rewrite E'. Qed.

Lemma acts_refl p w : fwd_inv w → acts p w w.
Proof.
  intros Hi. split; [by apply touches_refl|done|congruence|done|done|]. intros e He. exists []. by rewrite app_nil_r.
Qed.

Lemma acts_trans p w1 w2 w3 : is_Some (entries w1 !! p) → acts p w1 w2 → acts p w2 w3 → acts p w1 w3.
Proof.
  intros [e1 He1] [T1 (K1 & L1 & N1) R1 P1 C1 G1] [T2 (K2 & L2 & N2) R2 P2 C2 G2].
  destruct (to_entry _ _ _ T1 _ He1) as (e2 & He2 & Ei & _).
  split; [by eapply touches_trans|split_and!; congruence| |auto|auto|].
  - intros e e' He He'. assert (e = e1) as -> by congruence. rewrite (R2 e2 e'), (R1 e1 e2); done.
  - intros e He. assert (e = e1) as -> by congruence. destruct (G1 _ He1) as (l1 & E1 & F1), (G2 _ He2) as (l2 & E2 & F2).
    exists (l1 ++ l2). split; [by rewrite E2, E1, app_assoc|]. apply Forall_app. split; [done|].
    eapply Forall_impl; [exact F2|]. intros [f i| | |]; try done. simpl. unfold pe_name. rewrite Ei.
    by rewrite (can_send_faces w1 w2) by apply T1.
Qed.

(** The in-records of the entry determine the Interests a strategy sends. *)
Definition ready (w : World) (p : pit_ptr) : Prop := ∃ e, holds w p e ∧ pe_inRecords e ≠ [].

Lemma acts_holds p w w' e : acts p w w' → holds w p e →
  ∃ e', holds w' p e' ∧ pe_interest e' = pe_interest e ∧ in_key <$> pe_inRecords e' = in_key <$> pe_inRecords e.
Proof.
  intros A [He Hn]. destruct (to_entry _ _ _ (ac_touches _ _ _ A) _ He) as (e' & He' & Ei & En).
  exists e'. split_and!; [split; [done|by rewrite En]|done|by eapply ac_records].
Qed.

Lemma acts_ready p w w' : acts p w w' → ready w p → ready w' p.
Proof.
  intros A (e & Hh & Hr). destruct (acts_holds _ _ _ _ A Hh) as (e' & Hh' & _ & Ek). exists e'. split; [done|].
  intros E'. rewrite E' in Ek. by destruct (pe_inRecords e).
Qed.
(** *** [sendInterest] *)

Lemma insertOutRecord_ok now face i e : keeps_ok (PitEntry_insertOrUpdateOutRecord now face i) e.
Proof. intros Ho Hr. split; [by apply insertOrUpdateOutRecord_ok|exact Hr]. Qed.

Lemma insertOutRecord_timers now face i : keeps_timers (PitEntry_insertOrUpdateOutRecord now face i).
Proof. intros e. split; [done|]. by intros []. Qed.

Context (random_uint32 : nat → Z).

Definition add_outInterest (w : World) : World :=
  let c := w_counters w in
  set_counters (mkForwarderCounters (nInInterests c) (u64 (nOutInterests c + 1)) (nInDatas c) (nOutDatas c)) w.

(** The Interest that goes out: the one of the picked in-record, maybe with a new Nonce *)
Definition picked_interest (w : World) (e : PitEntry) (outFace : face_ptr) (wantNewNonce : bool) : option Interest :=
  r ← max_element (compare_pickInterest outFace) (pe_inRecords e);
  i ← ir_interest r;
  Some (if wantNewNonce then setNonce (random_uint32 (w_random w)) i else i).

(** [sendInterest] does nothing on an invalid face or out of scope. *)
Definition may_send (w : World) (e : PitEntry) (outFace : face_ptr) : bool :=
  negb (getId outFace w =? INVALID_FACEID) && negb (PitEntry_violatesScope (isLocal w) e outFace).

Definition interest_sent (p : pit_ptr) (outFace : face_ptr) (wantNewNonce : bool) (i : Interest) (w : World) : World :=
  let w := if wantNewNonce then set_random (Datatypes.S (w_random w)) w else w in
  let w := set_pit (alter_pit (PitEntry_insertOrUpdateOutRecord (w_now w) outFace i) p (w_pit w)) w in
  add_outInterest (set_trace (w_trace w ++ [SentInterest outFace i]) w).

Lemma sendInterest_eq p outFace b e w : entries w !! p = Some e →
  sendInterest random_uint32 p outFace b w =
  if may_send w e outFace
  then i ← picked_interest w e outFace b; Some (tt, interest_sent p outFace b i w)
  else Some (tt, w).
Proof.
  intros He. unfold sendInterest, onOutgoingInterest, may_send, picked_interest, getPitEntry, bind, gets, deref. simpl.
  unfold entries in He. destruct (getId outFace w =? INVALID_FACEID); simpl; [done|]. rewrite He. simpl.
  destruct (PitEntry_violatesScope (isLocal w) e outFace); simpl; [done|].
  destruct (max_element (compare_pickInterest outFace) (pe_inRecords e)) as [r|]; simpl; [|done].
  destruct (ir_interest r) as [i|]; simpl; [|done]. by destruct b.
Qed.

Lemma picked_is_Some w e outFace b : PitEntry_ok e → pe_inRecords e ≠ [] →
  ∃ i r i0, picked_interest w e outFace b = Some i ∧ max_element (compare_pickInterest outFace) (pe_inRecords e) = Some r ∧
    r ∈ pe_inRecords e ∧ ir_interest r = Some i0 ∧ i = if b then setNonce (random_uint32 (w_random w)) i0 else i0.
Proof.
  intros Ho Hr. unfold picked_interest.
  destruct (max_element (compare_pickInterest outFace) (pe_inRecords e)) as [r|] eqn:Em; [|by apply max_element_None in Em].
  pose proof (max_element_in _ _ _ Em) as Hin. destruct (ok_interest _ Ho _ Hin) as [i0 Ei].
  simpl. rewrite Ei. simpl. eauto 10.
Qed.

Lemma may_send_can_send w e outFace : may_send w e outFace = true → can_send w outFace (pe_name e) = true.
Proof.
  unfold may_send, can_send. rewrite !andb_true_iff, !negb_true_iff. intros [-> Hv]. split; [done|].
  unfold PitEntry_violatesScope in Hv. by destruct (negb (isLocal w outFace) && isPrefixOf LOCALHOST_NAME (pe_name e)).
Qed.

Lemma interest_sent_acts p outFace b i e w : fwd_inv w → holds w p e → pe_inRecords e ≠ [] →
  may_send w e outFace = true → i_name i = pe_name e → acts p w (interest_sent p outFace b i w).
Proof.
  intros Hi [He Hn] Hr Hs Hname. set (f := PitEntry_insertOrUpdateOutRecord (w_now w) outFace i).
  set (w1 := set_pit (alter_pit f p (w_pit w)) (set_scheduled (w_scheduled w) (w_nextEvent w) w)).
  assert (T1 : touches p w w1).
  { apply touches_update; [done|done|intros; apply insertOutRecord_ok| |done].
    apply timers_alter; [apply insertOutRecord_timers|apply Hi]. }
  assert (Hc : same_core w1 (interest_sent p outFace b i w)) by (by destruct b).
  assert (T2 : touches p w1 (interest_sent p outFace b i w)).
  { apply touches_core; [apply T1|done|by destruct b; apply Hi|by destruct b; apply Hi]. }
  assert (He1 : entries (interest_sent p outFace b i w) !! p = Some (f e)).
  { unfold entries. rewrite (sa_pit _ _ Hc). simpl. fold (entries w). by rewrite (alter_entries_eq _ _ _ _ _ He), decide_True. }
  assert (Hsch : w_scheduled (interest_sent p outFace b i w) = w_scheduled w) by (by destruct b).
  split.
  - by eapply touches_trans.
  - by destruct b.
  - intros x x' Hx Hx'. rewrite He1 in Hx'. by simplify_eq/=.
  - by rewrite Hsch.
  - intros Hcov x Hx Hnx Hrx. rewrite Hsch. apply (Hcov e He Hn). by left.
  - intros x Hx. assert (x = e) as -> by congruence. exists [SentInterest outFace i]. split; [by destruct b|].
    repeat constructor; [done|]. by apply may_send_can_send.
Qed.

(** On an entry with in-records [sendInterest] cannot fail; what it sends and records *)
Lemma sendInterest_spec p outFace b w e : fwd_inv w → holds w p e → pe_inRecords e ≠ [] →
  runs (sendInterest random_uint32 p outFace b) w (λ _ w', acts p w w' ∧
    if may_send w e outFace
    then ∃ i, picked_interest w e outFace b = Some i ∧ w' = interest_sent p outFace b i w
    else w' = w).
Proof.
  intros Hi Hh Hr. pose proof Hh as [He Hn]. destruct (fi_ok _ Hi _ _ He) as [Ho Hro].
  pose proof (sendInterest_eq p outFace b e w He) as Eq. destruct (may_send w e outFace) eqn:Em.
  - destruct (picked_is_Some w e outFace b Ho Hr) as (i & r & i0 & Ep & _ & Hin & Ei & Eb). rewrite Ep in Eq. simpl in Eq.
    eexists _, _. split; [exact Eq|]. split; [|by eauto]. apply interest_sent_acts with (e := e); try done.
    destruct (Hro _ _ Hin Ei) as [<- _]. subst i. by destruct b.
  - eexists _, _. split; [exact Eq|]. split; [by apply acts_refl|done].
Qed.

(** *** [rejectPendingInterest] *)

Lemma quiet_acts p w w' e : fwd_inv w → holds w p e → touches p w w' → quiet w w' →
  (∀ e', entries w' !! p = Some e' → pe_inRecords e' = pe_inRecords e) → pending (w_scheduled w') p → acts p w w'.
Proof.
  intros Hi [He Hn] T Q Hr Hp. split; [done|split_and!; apply Q| |done|by intros _ x _ _ _|].
  - intros x x' Hx Hx'. assert (x = e) as -> by congruence. by rewrite (Hr _ Hx').
  - intros x Hx. exists []. split; [|done]. rewrite app_nil_r. apply Q.
Qed.

Lemma rejectPendingInterest_spec p w e : fwd_inv w → holds w p e →
  runs (rejectPendingInterest p) w (λ _ w', acts p w w' ∧
    if PitEntry_hasUnexpiredOutRecords (w_now w) e then w' = w
    else quiet w w' ∧ pending (w_scheduled w') p).
Proof.
  intros Hi Hh. pose proof Hh as [He Hn]. unfold rejectPendingInterest, onInterestReject. run_steps.
  eapply runs_getPitEntry; [done|]. run_steps. destruct (PitEntry_hasUnexpiredOutRecords (w_now w) e).
  { run_steps. split; [by apply acts_refl|done]. }
  run_steps. eapply runs_mono; [by apply cancelBoth_spec|]. intros _ w1 (T1 & Q1 & E1). cbv beta.
  eapply runs_mono; [apply (setStragglerTimer_spec p w1 (set_timer false None (set_timer true None e)) false (-1)); [apply T1|split; [exact E1|by destruct e]]|].
  intros _ w2 (T2 & Q2 & P2 & id & E2).
  assert (Q : quiet w w2) by (by eapply quiet_trans). split; [|done].
  apply (quiet_acts p w w2 e); [done|done|by eapply touches_trans|done| |done].
  intros e' He'. rewrite E2 in He'. injection He' as <-. by destruct e.
Qed.
End inv.
