(* ===== verification/ForwarderSpec.v ===== *)
(** * What the forwarding pipelines do

    The interface [StrategyLaws] states what the forwarder needs of a strategy:
    that its triggers end, and act on the PIT entry they are given and send
    Interests only.  Against it, every pipeline runs to its end in a state that
    satisfies [fwd_inv], and the packets it sends are described. *)

From S2P Require Import Prelude CityHash Packets FibEntry NameTree NameTreeFacts Fib PitEntry Pit StrategyChoice DeadNonceList ContentStore World Forwarder ForwarderInv.
Open Scope pipeline_scope.

Class StrategyLaws `{WireEncoding, NameWire, NameOrder, !NameSuccessor} {S E : Type} `{CsPolicyLaws S, NdnSimCs E}
    (s : Strategy (S := S) (E := E)) : Prop := {
  sl_receive w inFace i fe p : fwd_inv w → ready w p →
    runs (afterReceiveInterest s inFace i fe p) w (λ _ w', acts p w w');
  sl_satisfy w p inFace d e : fwd_inv w → holds w p e →
    runs (beforeSatisfyInterest s p inFace d) w (λ _ w', acts p w w');
  sl_expire w p e : fwd_inv w → holds w p e →
    runs (beforeExpirePendingInterest s p) w (λ _ w', acts p w w')
}.

Lemma bind_eq {S E A B} (m : M S E A) (f : A → M S E B) w a w' : m w = Some (a, w') → bind m f w = f a w'.
Proof. intros Hm. unfold bind. by rewrite Hm. Qed.

Section spec.
Context `{WireEncoding, NameWire, NameOrder, !NameSuccessor} {S E : Type} `{CsPolicyLaws S, NdnSimCs E}.
Context (matchesData : Interest → Data → bool) (strategies : Name → Strategy (S := S) (E := E)).
Context `{!∀ s, StrategyLaws (strategies s)}.
Abbreviation World := (World S E).
Abbreviation M := (M S E).

(** ** Dispatching *)

Lemma dispatch_eq p w e trigger : fwd_inv w → holds w p e →
  ∃ s, effective (pit_nt (w_pit w)) (pe_name e) = Some s ∧ dispatchToStrategy strategies p trigger w = trigger (strategies s) w.
Proof.
  intros Hi Hh. destruct (effective_total _ _ (pe_name e) (fi_sc _ Hi)) as (s & Es & _). exists s. split; [done|].
  unfold dispatchToStrategy, bind, gets, deref. simpl.
  rewrite (findEffectiveStrategy_pit _ _ p e (fi_sc _ Hi)), Es; [done|apply Hh|by eapply holds_live].
Qed.

Lemma runs_dispatch p w e trigger Q : fwd_inv w → holds w p e →
  (∀ s, runs (trigger (strategies s)) w Q) → runs (dispatchToStrategy strategies p trigger) w Q.
Proof.
  intros Hi Hh Ht. destruct (dispatch_eq p w e trigger Hi Hh) as (s & _ & Eq). unfold runs. rewrite Eq. apply Ht.
Qed.

(** ** [onContentStoreMiss] *)

Lemma insertInRecord_ok now face i e : i_name i = pe_name e → i_selectors i = i_selectors (pe_interest e) →
  keeps_ok (PitEntry_insertOrUpdateInRecord now face i) e.
Proof.
  intros En Es Ho Hr. split; [by apply insertOrUpdateInRecord_ok|]. intros r j Hin Hj. simpl in *.
  apply update_first_in in Hin as [Hin|(r0 & Hin & ->)].
  - destruct (find_if (in_of face) (pe_inRecords e)); [by eapply Hr|].
    apply elem_of_cons in Hin as [->|Hin]; [done|by eapply Hr].
  - simpl in Hj. by injection Hj as <-.
Qed.

Lemma insertInRecord_nonempty now face i e : pe_inRecords (PitEntry_insertOrUpdateInRecord now face i e) ≠ [].
Proof.
  simpl. destruct (find_if (in_of face) (pe_inRecords e)) eqn:F; simpl.
  - destruct (pe_inRecords e); [done|]. simpl. by case_match.
  - by case_match.
Qed.

(** The in-record and the timer are set, then the effective strategy is given
    the Interest and the longest matching FIB entry. *)
Lemma onContentStoreMiss_eq p w e inFace i : fwd_inv w → holds w p e →
  i_name i = pe_name e → i_selectors i = i_selectors (pe_interest e) →
  ∃ w1 id s, touches p w w1 ∧ quiet w w1 ∧ pending (w_scheduled w1) p ∧
    entries w1 !! p = Some (set_timer true (Some id) (PitEntry_insertOrUpdateInRecord (w_now w) inFace i e)) ∧
    effective (pit_nt (w_pit w)) (pe_name e) = Some s ∧
    onContentStoreMiss strategies inFace p i w =
      afterReceiveInterest (strategies s) inFace i
        (default s_emptyEntry (lpm (fib_get (pit_nt (w_pit w))) (pe_name e))) p w1.
Proof.
  intros Hi [He Hn] En Es. set (e1 := PitEntry_insertOrUpdateInRecord (w_now w) inFace i e).
  destruct (updatePitEntry_spec w (PitEntry_insertOrUpdateInRecord (w_now w) inFace i) p e) as ([] & w1 & R1 & E1 & T1 & H1e);
    [done|done|done|done|by apply insertInRecord_ok|].
  destruct (setUnsatisfyTimer_spec p w1 e1) as ([] & w2 & R2 & T2 & Q2 & P2 & id & E2);
    [apply T1|by split|apply insertInRecord_nonempty|].
  assert (Q1 : quiet w w1) by (subst w1; by split). assert (Q : quiet w w2) by (by eapply quiet_trans).
  assert (Hh2 : holds w2 p (set_timer true (Some id) e1)) by (split; [done|by destruct e]).
  destruct (dispatch_eq p w2 _ (λ strategy, afterReceiveInterest strategy inFace i
    (default s_emptyEntry (lpm (fib_get (pit_nt (w_pit w))) (pe_name e))) p) (to_inv _ _ _ T2) Hh2) as (s & Eeff & Eq).
  rewrite (qu_nt _ _ Q) in Eeff.
  exists w2, id, s. split_and!; [by eapply touches_trans|done|done|done|done|].
  rewrite <-Eq. unfold onContentStoreMiss. rewrite (bind_eq _ _ _ _ _ (eq_refl : gets w_now w = Some (w_now w, w))).
  rewrite (bind_eq _ _ _ _ _ R1), (bind_eq _ _ _ _ _ R2).
  destruct Hn as [a Ha].
  assert (R3 : getPitEntry p w2 = Some (set_timer true (Some id) e1, w2)).
  { unfold getPitEntry, bind, gets, deref. simpl. unfold entries in E2. by rewrite E2. }
  rewrite (bind_eq _ _ _ _ _ R3).
  assert (R4 : deref (pe_nameTreeEntry (set_timer true (Some id) e1)) w2 = Some (a, w2)).
  { change (pe_nameTreeEntry (set_timer true (Some id) e1)) with (pe_nameTreeEntry e). by rewrite Ha. }
  rewrite (bind_eq _ _ _ _ _ R4). unfold bind at 1, gets at 1. simpl. rewrite (qu_nt _ _ Q).
  pose proof (fi_pit _ Hi) as W. destruct (pw_back _ W _ _ _ He Ha) as (f & Hf & _ & Epre).
  rewrite (Fib_LPM_nte_spec _ _ _ (pw_tree _ W) Hf), Epre. done.
Qed.

(** What a pipeline of one PIT entry sends and keeps *)
Record serves (p : pit_ptr) (w w' : World) (l : list Output) : Prop := {
  sv_touches : touches p w w';
  sv_pending : pending (w_scheduled w') p;
  sv_trace : w_trace w' = w_trace w ++ l
}.

Lemma pending_covered (w : World) p : pending (w_scheduled w) p → covered w p.
Proof. by intros Hp e _ _ _. Qed.

Lemma onContentStoreMiss_spec p w e inFace i : fwd_inv w → holds w p e →
  i_name i = pe_name e → i_selectors i = i_selectors (pe_interest e) →
  runs (onContentStoreMiss strategies inFace p i) w (λ _ w', w_cs w' = w_cs w ∧ w_dnl w' = w_dnl w ∧
    pending (w_scheduled w') p ∧
    (∃ e', holds w' p e' ∧ pe_interest e' = pe_interest e ∧
       in_key <$> pe_inRecords e' = in_key <$> pe_inRecords (PitEntry_insertOrUpdateInRecord (w_now w) inFace i e)) ∧
    ∃ l, serves p w w' l ∧ Forall (interest_out w (pe_name e)) l).
Proof.
  intros Hi Hh En Es.
  destruct (onContentStoreMiss_eq p w e inFace i Hi Hh En Es) as (w1 & id & s & T1 & Q1 & P1 & E1 & _ & Eq).
  unfold runs. rewrite Eq. clear Eq.
  destruct (sl_receive (s := strategies s) w1 inFace i (default s_emptyEntry (lpm (fib_get (pit_nt (w_pit w))) (pe_name e))) p
    (to_inv _ _ _ T1)) as ([] & w2 & R2 & A2).
  { eexists. split; [split; [exact E1|]|].
    - change (is_Some (pe_nameTreeEntry e)). apply Hh.
    - apply insertInRecord_nonempty. }
  exists tt, w2. split; [exact R2|]. destruct (ac_keep _ _ _ A2) as (Kc & _ & Kd).
  split; [by rewrite Kc; apply Q1|]. split; [by rewrite Kd; apply Q1|]. split; [by apply (ac_pending _ _ _ A2)|].
  split.
  { assert (Hh1 : holds w1 p (set_timer true (Some id) (PitEntry_insertOrUpdateInRecord (w_now w) inFace i e)))
      by (split; [done|exact (proj2 Hh)]).
    destruct (acts_holds _ _ _ _ A2 Hh1) as (e2 & Hh2 & Ei2 & Ek2). by exists e2. }
  destruct (ac_trace _ _ _ A2 _ E1) as (l & El & Fl). exists l. split.
  - split; [eapply touches_trans; [done|apply (ac_touches _ _ _ A2)]|by apply (ac_pending _ _ _ A2)|].
    by rewrite El, (qu_trace _ _ Q1).
  - eapply Forall_impl; [exact Fl|]. intros [f j| | |]; try done. simpl.
    rewrite (can_send_faces w w1) by apply T1. done.
Qed.
(** ** [onContentStoreHit] *)

Lemma emit_spec o p (w : World) : fwd_inv w →
  runs (emit o) w (λ _ w', w' = set_trace (w_trace w ++ [o]) w ∧ touches p w w').
Proof.
  intros Hi. unfold emit. run_steps. split; [done|]. apply touches_core; [done|by split|apply (fi_cs _ Hi)|apply (fi_stored _ Hi)].
Qed.

Lemma touches_holds p (w w' : World) e : touches p w w' → holds w p e →
  ∃ e', holds w' p e' ∧ pe_interest e' = pe_interest e.
Proof.
  intros T [He Hn]. destruct (to_entry _ _ _ T _ He) as (e' & He' & Ei & En). exists e'. split; [split; [done|by rewrite En]|done].
Qed.

Lemma onContentStoreHit_spec p w e inFace i data : fwd_inv w → holds w p e →
  runs (onContentStoreHit strategies inFace p i data) w (λ _ w', w_cs w' = w_cs w ∧ w_dnl w' = w_dnl w ∧
    ∃ l, Forall (interest_out w (pe_name e)) l ∧
      serves p w w' (SignalSatisfy p None data :: l ++
        if can_send w inFace (d_name data) then [SentData inFace (setDataIncomingFaceId FACEID_CONTENT_STORE data)] else [])).
Proof.
  intros Hi Hh. unfold onContentStoreHit. run_steps.
  eapply runs_mono; [by apply (emit_spec _ p)|]. intros _ w1 [E1 T1].
  assert (Hh1 : holds w1 p e) by (subst w1; exact Hh).
  run_steps. eapply runs_mono; [apply (runs_dispatch p w1 e); [apply (to_inv _ _ _ T1)|done|]|].
  { intros s. by apply (sl_satisfy (s := strategies s) w1 p None data e); [apply (to_inv _ _ _ T1)|]. }
  intros [] w2 A2. cbv beta in A2. pose proof (ac_touches _ _ _ A2) as T2.
  destruct (acts_holds _ _ _ _ A2 Hh1) as (e2 & Hh2 & Ei2 & _).
  run_steps. eapply runs_mono; [apply (setStragglerTimer_spec p w2 e2); [apply (to_inv _ _ _ T2)|done]|].
  intros _ w3 (T3 & Q3 & P3 & _). cbv beta.
  eapply runs_mono; [apply (onOutgoingData_spec _ inFace p w3), (to_inv _ _ _ T3)|].
  intros _ w4 (T4 & Es4 & D4 & C4 & En4 & Tr4). cbv beta. destruct (ac_keep _ _ _ A2) as (K2 & _ & L2).
  assert (T13 : touches p w w3) by (do 2 (eapply touches_trans; [done|]); done).
  split; [rewrite C4, (qu_cs _ _ Q3), K2, E1; done|]. split; [rewrite D4, (qu_dnl _ _ Q3), L2, E1; done|].
  destruct (ac_trace _ _ _ A2 _ (proj1 Hh1)) as (l & El & Fl). exists l. split.
  - eapply Forall_impl; [exact Fl|]. intros [f j| | |]; try done. simpl. by rewrite (can_send_faces w w1) by apply T1.
  - split; [by eapply touches_trans| |].
    + by rewrite Es4.
    + rewrite Tr4, (qu_trace _ _ Q3), El. subst w1. simpl.
      change (d_name (setDataIncomingFaceId FACEID_CONTENT_STORE data)) with (d_name data).
      rewrite (can_send_faces w w3) by apply T13. by rewrite <-!app_assoc.
Qed.
(** ** The content store *)

(** What the store is asked for can be answered: [Cs_find] needs this of a
    search for the rightmost child. *)
Definition cs_searchable (i : Interest) : Prop := sel_childSelector (i_selectors i) = 1 → by_prefix i.

(** Data as ndn-cxx delivers it: no digest component but in the full name *)
Definition data_ok (d : Data) : Prop := plain (d_name d) ∧ isImplicitSha256Digest (d_digest d) = true.

(** The Data that answer the Interest in the store of the forwarder *)
Definition cs_answers (w : World) (i : Interest) (d : option Data) : Prop :=
  match w_csFromNdnSim w with
  | Some ext => d = (ndnsim_Lookup i ext).1
  | None =>
      match d with
      | None => ∀ e, e ∈ cs_table (w_cs w) → CsEntry_canSatisfy matchesData (w_now w) i e = false
      | Some d => ∃ e, ce_data e = d ∧ e ∈ cs_table (w_cs w) ∧ CsEntry_canSatisfy matchesData (w_now w) i e = true
      end
  end.

Lemma set_cs_core cs (w : World) : same_core w (set_cs cs w).
Proof. by split. Qed.
Lemma set_ext_core x (w : World) : same_core w (set_csFromNdnSim x w).
Proof. by split. Qed.

Lemma cs_find_spec i p (w : World) : matches_prefix matchesData → fwd_inv w → cs_searchable i →
  runs (cs_find matchesData i) w (λ d w', touches p w w' ∧ same_core w w' ∧ w_dnl w' = w_dnl w ∧ w_trace w' = w_trace w ∧
    w_counters w' = w_counters w ∧ cs_answers w i d).
Proof.
  intros Hm Hi Hs. unfold cs_find, cs_answers. run_steps. destruct (w_csFromNdnSim w) as [ext|].
  - destruct (ndnsim_Lookup i ext) as [d x]. run_steps. split_and!; try done.
    apply touches_core; [done|by split|apply (fi_cs _ Hi)|apply (fi_stored _ Hi)].
  - destruct (Cs_find_spec matchesData (w_now w) i (w_cs w) Hm (fi_cs _ Hi) (fi_stored _ Hi) Hs)
      as (d & cs' & Ef & Hw & Et & El & Hd).
    run_steps. eapply runs_deref; [exact Ef|]. run_steps. split_and!; try done.
    + apply touches_core; [done|by split|done|]. simpl. rewrite Et. apply (fi_stored _ Hi).
    + destruct d as [d|]; [|done]. destruct Hd as (x & Ex & Hx). exists x. split; [done|].
      destruct (decide _); destruct Hx as (? & ? & _); done.
Qed.

Lemma cs_insert_spec d u p (w : World) : fwd_inv w → data_ok d →
  runs (cs_insert d u) w (λ _ w', touches p w w' ∧ same_core w w' ∧ w_dnl w' = w_dnl w ∧ w_trace w' = w_trace w ∧
    w_counters w' = w_counters w).
Proof.
  intros Hi [Hp Hdig]. unfold cs_insert. run_steps. destruct (w_csFromNdnSim w) as [ext|].
  - run_steps. split_and!; try done. apply touches_core; [done|by split|apply (fi_cs _ Hi)|apply (fi_stored _ Hi)].
  - destruct (Cs_insert_spec (w_now w) d u (w_cs w) (fi_cs _ Hi)) as (r & cs' & Ef & Hw & _ & _ & _ & Hin & _).
    run_steps. eapply runs_deref; [exact Ef|]. run_steps. split_and!; try done.
    apply touches_core; [done|by split|done|]. intros e He. destruct (Hin e He) as [Ek|Hold]; [|by apply (fi_stored _ Hi)].
    unfold ce_key in Ek. injection Ek as -> ->. done.
Qed.

(** ** Insertion into the PIT *)

Lemma sc_wf_tables P P' c : sc_wf P c → pit_wf P' →
  (∀ n, p_strategyChoice (payload_at (pit_nt P') n) = p_strategyChoice (payload_at (pit_nt P) n)) → sc_wf P' c.
Proof.
  intros [W A B C D] W' Hn. assert (Hg : ∀ n, sc_get (pit_nt P') n = sc_get (pit_nt P) n) by (intros n; apply Hn).
  split; [done|done|by rewrite Hg|intros n e; rewrite Hg; apply C|]. rewrite D. do 3 f_equal. symmetry.
  apply payload_names_ext; [apply W|apply W'|done|]. intros m. unfold has_sc. by rewrite Hn.
Qed.

Definition same_interest (e : PitEntry) (i : Interest) : Prop :=
  i_name i = pe_name e ∧ i_selectors i = i_selectors (pe_interest e).

Lemma pit_insert_touches (w : World) i p isNew P' : fwd_inv w → room (pit_nt (w_pit w)) (i_name i) →
  Pit_insert (w_pit w) i = ((p, isNew), P') →
  touches p w (set_pit P' w) ∧
  ∃ e, holds (set_pit P' w) p e ∧ same_interest e i ∧
    (isNew = true → ∃ a, e = setNameTreeEntry (Some a) (PitEntry_new i)) ∧
    (isNew = false → holds w p e) ∧
    (isNew = true → entries w !! p = None).
Proof.
  intros Hi Hr Ep. pose proof (fi_pit _ Hi) as W. pose proof (Pit_insert_spec _ _ _ _ _ W Hr Ep) as P.
  destruct (ins_has _ _ _ _ _ P) as [(e & a & He & Ha) (e' & He' & Hn & Hs)].
  assert (e' = e) as -> by congruence.
  assert (Hnew : isNew = true → entries w !! p = None).
  { intros ->. unfold Pit_insert in Ep. destruct (NameTree_lookup (pit_nt (w_pit w)) (i_name i)) as [nte t].
    case_match; [done|]. injection Ep as <- _. apply eq_None_not_Some. intros Hc. apply (pw_fresh _ W) in Hc. simpl in Hc. lia. }
  assert (Hframe : ∀ q, q ≠ p ∨ isNew = false → pit_entries P' !! q = entries w !! q) by apply (ins_frame _ _ _ _ _ P).
  assert (Hold : isNew = false → holds w p e).
  { intros ->. rewrite Hframe in He by (by right). split; [done|eauto]. }
  assert (Hents : ∀ q x, pit_entries P' !! q = Some x → entries w !! q = Some x ∨
      isNew = true ∧ q = p ∧ ∃ b, x = setNameTreeEntry (Some b) (PitEntry_new i)).
  { intros q x Hx. destruct isNew eqn:En; [|left; by rewrite Hframe in Hx by (by right)].
    destruct (decide (q = p)) as [->|]; [|left; by rewrite Hframe in Hx by (by left)].
    right. split_and!; [done|done|]. destruct (ins_new _ _ _ _ _ P eq_refl) as (_ & b & Hb). exists b. congruence. }
  split.
  - split; try done; simpl.
    + split; simpl.
      * eapply sc_wf_tables; [apply (fi_sc _ Hi)|apply (ins_wf _ _ _ _ _ P)|].
        intros n. pose proof (ins_payload _ _ _ _ _ P n) as E'. by injection E'.
      * intros q x Hx. destruct (Hents q x Hx) as [Hx'|(_ & _ & b & ->)]; [by apply (fi_ok _ Hi q)|].
        split; [split; [constructor|constructor|]|]; intros r; [by intros ?%elem_of_nil|]. intros j Hr'. by apply elem_of_nil in Hr'.
      * unfold entries. simpl. destruct isNew.
        -- destruct (ins_new _ _ _ _ _ P eq_refl) as (_ & b & Hb).
           assert (pit_entries P' = <[p := setNameTreeEntry (Some b) (PitEntry_new i)]> (entries w)) as ->.
           { apply map_eq. intros q. destruct (decide (q = p)) as [->|]; [by rewrite lookup_insert_eq|].
             rewrite lookup_insert_ne by done. apply Hframe; by left. }
           apply timers_new; [apply (fi_timers _ Hi)|by apply Hnew|by intros []].
        -- assert (pit_entries P' = entries w) as ->; [|apply (fi_timers _ Hi)].
           apply map_eq. intros q. apply Hframe; by right.
      * apply (fi_cs _ Hi).
      * apply (fi_stored _ Hi).
    + split; [|done]. intros n. pose proof (ins_payload _ _ _ _ _ P n) as E'. by injection E'.
    + intros x Hx. destruct isNew; [by rewrite Hnew in Hx|]. exists x. split; [|done].
      unfold entries. simpl. by rewrite Hframe by (by right).
    + intros q Hq. apply Hframe; by left.
  - exists e. split_and!; [split; [done|eauto]|by split| |done|done].
    intros ->. destruct (ins_new _ _ _ _ _ P eq_refl) as (_ & b & Hb). exists b. congruence.
Qed.
(** ** [onIncomingInterest] *)

Definition add_inInterest (w : World) : World :=
  let c := w_counters w in
  set_counters (mkForwarderCounters (u64 (nInInterests c + 1)) (nOutInterests c) (nInDatas c) (nOutDatas c)) w.
Definition add_inData (w : World) : World :=
  let c := w_counters w in
  set_counters (mkForwarderCounters (nInInterests c) (nOutInterests c) (u64 (nInDatas c + 1)) (nOutDatas c)) w.

Definition violates_localhost (w : World) (face : face_ptr) (n : Name) : bool :=
  negb (isLocal w face) && isPrefixOf LOCALHOST_NAME n.

(** The Nonce of the Interest is in a record of the entry or in the Dead Nonce List. *)
Definition duplicate_nonce (w : World) (e : PitEntry) (inFace : face_ptr) (i : Interest) : bool :=
  negb (PitEntry_findNonce e (i_nonce i) inFace =? DUPLICATE_NONCE_NONE) ||
  DeadNonceList_has (w_dnl w) (i_name i) (i_nonce i).

(** The Interest is answered from the store [d], or forwarded by the strategy. *)
Definition interest_served (w w' : World) (inFace : face_ptr) (i : Interest) (p : pit_ptr) (e : PitEntry) (d : option Data) : Prop :=
  ∃ l, Forall (interest_out w (i_name i)) l ∧
  match d with
  | Some d =>
      w_trace w' = w_trace w ++ SignalSatisfy p None d :: l ++
        (if can_send w inFace (d_name d) then [SentData inFace (setDataIncomingFaceId FACEID_CONTENT_STORE d)] else [])
  | None =>
      w_trace w' = w_trace w ++ l ∧
      ∃ e', holds w' p e' ∧ pe_interest e' = pe_interest e ∧
        in_key <$> pe_inRecords e' = in_key <$> pe_inRecords (PitEntry_insertOrUpdateInRecord (w_now w) inFace i e)
  end.

Record interest_post (w w' : World) (inFace : face_ptr) (i : Interest) (p : pit_ptr) (isNew : bool) (P' : Pit) (e : PitEntry) : Prop := {
  ip_insert : Pit_insert (w_pit w) i = ((p, isNew), P');
  ip_entry : pit_entries P' !! p = Some e;
  ip_interest : same_interest e i;
  ip_new : isNew = true → ∃ a, e = setNameTreeEntry (Some a) (PitEntry_new i);
  ip_old : isNew = false → holds w p e;
  ip_other q : q ≠ p → entries w' !! q = entries w !! q;
  ip_loop : duplicate_nonce w e inFace i = true → w' = set_pit P' (add_inInterest w);
  ip_served : duplicate_nonce w e inFace i = false →
    pending (w_scheduled w') p ∧ w_dnl w' = w_dnl w ∧
    ∃ d, (pe_inRecords e = [] → cs_answers w i d) ∧ (pe_inRecords e ≠ [] → d = None) ∧ interest_served w w' inFace i p e d
}.

Definition same_env (w w' : World) : Prop :=
  w_now w' = w_now w ∧ w_faces w' = w_faces w ∧ w_faceTable w' = w_faceTable w ∧ w_lastFaceId w' = w_lastFaceId w ∧
  w_strategies w' = w_strategies w ∧ same_fib w w'.

(** The same, at another time *)
Definition same_tables (w w' : World) : Prop :=
  w_faces w' = w_faces w ∧ w_faceTable w' = w_faceTable w ∧ w_lastFaceId w' = w_lastFaceId w ∧
  w_strategies w' = w_strategies w ∧ same_fib w w'.
Lemma same_env_tables w w' : same_env w w' → same_tables w w'.
Proof. by intros [_ ?]. Qed.

Lemma same_env_refl w : same_env w w.
Proof. split_and!; [done..|apply same_fib_refl]. Qed.
Lemma same_env_trans w1 w2 w3 : same_env w1 w2 → same_env w2 w3 → same_env w1 w3.
Proof.
  intros (? & ? & ? & ? & ? & ?) (? & ? & ? & ? & ? & ?). split_and!; [congruence..|by eapply same_fib_trans].
Qed.

Lemma touches_env p w w' : touches p w w' → same_env w w'.
Proof. intros T. split_and!; try apply (to_table _ _ _ T); apply T. Qed.

Lemma count_InInterest_spec p w : fwd_inv w →
  runs count_InInterest w (λ _ w', w' = add_inInterest w ∧ touches p w w').
Proof.
  intros Hi. unfold count_InInterest. run_steps. split; [done|].
  apply touches_core; [done|by split|apply (fi_cs _ Hi)|apply (fi_stored _ Hi)].
Qed.

Lemma interest_out_faces (w w' : World) n l : w_faces w' = w_faces w → Forall (interest_out w' n) l → Forall (interest_out w n) l.
Proof.
  intros Ef Hl. eapply Forall_impl; [exact Hl|]. intros [f j| | |]; try done. simpl. by rewrite (can_send_faces w w').
Qed.

(** The part of the pipeline after the Interest loop check *)
Lemma serve_interest_spec inFace i p e w : matches_prefix matchesData → fwd_inv w → cs_searchable i →
  holds w p e → same_interest e i →
  runs (let* e := getPitEntry p in
        let isPending := negb (bool_decide (pe_inRecords e = [])) in
        if negb isPending then
          let* match_ := cs_find matchesData i in
          match match_ with
          | Some data => onContentStoreHit strategies inFace p i data
          | None => onContentStoreMiss strategies inFace p i
          end
        else onContentStoreMiss strategies inFace p i) w (λ _ w', touches p w w' ∧ pending (w_scheduled w') p ∧ w_dnl w' = w_dnl w ∧
    ∃ d, (pe_inRecords e = [] → cs_answers w i d) ∧ (pe_inRecords e ≠ [] → d = None) ∧ interest_served w w' inFace i p e d).
Proof.
  intros Hm Hi Hs Hh [En Es]. apply runs_bind. eapply runs_getPitEntry; [apply Hh|]. cbv zeta. rewrite negb_involutive.
  case_bool_decide as Er.
  - apply runs_bind. eapply runs_mono; [by apply (cs_find_spec i p w)|]. intros d w1 (T1 & C1 & D1 & Tr1 & _ & Ha).
    assert (Hh1 : holds w1 p e) by (unfold holds, entries; rewrite (sa_pit _ _ C1); exact Hh).
    destruct d as [d|].
    + eapply runs_mono; [by apply (onContentStoreHit_spec p w1 e); [apply (to_inv _ _ _ T1)|]|].
      intros _ w2 (_ & D2 & l & Fl & [T2 P2 Tr2]).
      split; [by eapply touches_trans|]. split; [done|]. split; [congruence|]. exists (Some d). split_and!; [done|done|].
      exists l. split; [rewrite En; apply (interest_out_faces w w1); [apply T1|done]|].
      rewrite Tr2, Tr1. by rewrite (can_send_faces w w1) by apply T1.
    + eapply runs_mono; [by apply (onContentStoreMiss_spec p w1 e); [apply (to_inv _ _ _ T1)|..]|].
      intros _ w2 (_ & D2 & P2 & He2 & l & [T2 _ Tr2] & Fl).
      split; [by eapply touches_trans|]. split; [done|]. split; [congruence|]. exists None. split_and!; [done|done|].
      exists l. split; [rewrite En; apply (interest_out_faces w w1); [apply T1|done]|]. split; [congruence|].
      rewrite <-(sa_now _ _ C1). done.
  - eapply runs_mono; [by apply (onContentStoreMiss_spec p w e)|].
    intros _ w2 (_ & D2 & P2 & He2 & l & [T2 _ Tr2] & Fl).
    split; [done|]. split; [done|]. split; [done|]. exists None. split_and!; [done|done|].
    exists l. split; [by rewrite En|]. done.
Qed.
Lemma onIncomingInterest_spec inFace i0 w : matches_prefix matchesData → fwd_inv w →
  room (pit_nt (w_pit w)) (i_name i0) → cs_searchable i0 →
  let i := setInterestIncomingFaceId (getId inFace w) i0 in
  runs (onIncomingInterest matchesData strategies inFace i0) w (λ _ w',
    if violates_localhost w inFace (i_name i0) then w' = add_inInterest w
    else ∃ p isNew P' e, touches p w w' ∧ interest_post w w' inFace i p isNew P' e).
Proof.
  intros Hm Hi Hr Hs i. unfold onIncomingInterest. run_steps. fold i.
  eapply runs_mono; [by apply (count_InInterest_spec 1%positive)|]. intros _ w1 [E1 _].
  assert (T1 : ∀ p, touches p w w1).
  { intros p. subst w1. apply touches_core; [done|by split|apply (fi_cs _ Hi)|apply (fi_stored _ Hi)]. }
  run_steps. assert (Ev : negb (isLocal w1 inFace) && isPrefixOf LOCALHOST_NAME (i_name i) = violates_localhost w inFace (i_name i0)) by (by subst w1).
  rewrite Ev. destruct (violates_localhost w inFace (i_name i0)); [by run_steps|]. run_steps.
  destruct (Pit_insert (w_pit w1) i) as [[p isNew] P'] eqn:Ep. run_steps.
  destruct (pit_insert_touches w1 i p isNew P') as (T2 & e & Hh & Hsame & Hnew & Hold & _);
    [apply (to_inv _ _ _ (T1 p))|by subst w1|done|].
  assert (T : touches p w (set_pit P' w1)) by (eapply touches_trans; [apply T1|done]).
  eapply runs_getPitEntry; [apply Hh|]. run_steps.
  assert (Ed : negb (PitEntry_findNonce e (i_nonce i) inFace =? DUPLICATE_NONCE_NONE) ||
    DeadNonceList_has (w_dnl (set_pit P' w1)) (i_name i) (i_nonce i) = duplicate_nonce w e inFace i) by (by subst w1).
  rewrite Ed. assert (Eh : isNew = false → holds w p e) by (by subst w1).
  destruct (duplicate_nonce w e inFace i) eqn:Edup.
  { unfold onInterestLoop. run_steps. exists p, isNew, P', e. split; [done|]. subst w1.
    split; [exact Ep|apply Hh|done|done|done| |done|by rewrite Edup].
    intros q Hq. apply (to_other _ _ _ T q Hq). }
  run_steps. eapply runs_mono; [apply (cancelBoth_spec p _ e); [apply (to_inv _ _ _ T2)|apply Hh]|].
  intros _ w3 (T3 & Q3 & E3).
  set (e3 := set_timer false None (set_timer true None e)) in *.
  assert (Hh3 : holds w3 p e3) by (split; [done|exact (proj2 Hh)]).
  eapply runs_mono; [apply (serve_interest_spec inFace i p e3 w3); [done|apply (to_inv _ _ _ T3)|done|done|exact Hsame]|].
  intros _ w4 (T4 & P4 & D4 & d & Hd1 & Hd2 & l & Fl & Hserved).
  assert (T' : touches p w w3) by (by eapply touches_trans). assert (T'' : touches p w w4) by (by eapply touches_trans).
  exists p, isNew, P', e. split; [done|].
  split; [by subst w1|apply Hh|done|done|done| |by rewrite Edup|].
  - intros q Hq. apply (to_other _ _ _ T'' q Hq).
  - intros _. split; [done|]. split; [rewrite D4, (qu_dnl _ _ Q3); by subst w1|].
    assert (Hans : cs_answers w3 i d → cs_answers w i d).
    { unfold cs_answers. rewrite (qu_cs _ _ Q3), (qu_ext _ _ Q3), (to_now _ _ _ T'). by subst w1. }
    exists d. split; [auto|]. split; [auto|]. exists l. split; [apply (interest_out_faces w w3); [apply T'|done]|].
    assert (Etr : w_trace w3 = w_trace w) by (rewrite (qu_trace _ _ Q3); by subst w1).
    destruct d as [d|]; [|destruct Hserved as [Et He4]].
    + by rewrite Hserved, Etr, (can_send_faces w w3) by apply T'.
    + split; [congruence|]. rewrite (to_now _ _ _ T') in He4. exact He4.
Qed.

(** Interests keep the daemon's invariant. *)
Lemma onIncomingInterest_ok inFace i0 w : matches_prefix matchesData → fwd_ok w →
  room (pit_nt (w_pit w)) (i_name i0) → cs_searchable i0 →
  runs (onIncomingInterest matchesData strategies inFace i0) w (λ _ w', fwd_ok w' ∧ same_env w w').
Proof.
  intros Hm [Hi Hc] Hr Hs. eapply runs_mono; [by apply onIncomingInterest_spec|]. cbv zeta. intros [] w'.
  destruct (violates_localhost w inFace (i_name i0)).
  - intros ->. assert (T : touches 1%positive w (add_inInterest w)).
    { apply touches_core; [done|by split|apply (fi_cs _ Hi)|apply (fi_stored _ Hi)]. }
    split; [split; [apply T|exact Hc]|by apply (touches_env 1%positive)].
  - intros (p & isNew & P' & e & T & Hp). split; [|by eapply touches_env]. split; [apply T|].
    intros q. destruct (decide (q = p)) as [->|Hq]; [|by eapply touches_covered].
    destruct (duplicate_nonce w e inFace (setInterestIncomingFaceId (getId inFace w) i0)) eqn:Ed.
    + rewrite (ip_loop _ _ _ _ _ _ _ _ Hp Ed). intros x Hx Hn Hr'. simpl.
      assert (x = e) as -> by (pose proof (ip_entry _ _ _ _ _ _ _ _ Hp); unfold entries in Hx; simpl in Hx; congruence).
      destruct isNew.
      * destruct (ip_new _ _ _ _ _ _ _ _ Hp eq_refl) as [a ->]. by destruct Hr'.
      * apply (Hc p e); [apply (ip_old _ _ _ _ _ _ _ _ Hp eq_refl)|done|done].
    + apply pending_covered. by apply (ip_served _ _ _ _ _ _ _ _ Hp).
Qed.
(** ** [onIncomingData] *)

Lemma pendingFaces_records now e e' : pe_inRecords e' = pe_inRecords e → pendingFaces now e' = pendingFaces now e.
Proof. unfold pendingFaces. by intros ->. Qed.

Lemma elem_of_pendingFaces now e f :
  f ∈ pendingFaces now e ↔ ∃ r, r ∈ pe_inRecords e ∧ ir_face r = f ∧ now < fr_expiry (ir_record r).
Proof.
  unfold pendingFaces. rewrite list_elem_of_fmap. setoid_rewrite list_elem_of_filter. naive_solver.
Qed.

(** A PIT entry that Data from [inFace] satisfied *)
Definition satisfied (w : World) (inFace : face_ptr) (p : pit_ptr) : Prop :=
  pending (w_scheduled w) p ∧
  ∃ e, holds w p e ∧ pe_inRecords e = [] ∧ PitEntry_getOutRecord e inFace = None.

Lemma deleteInRecords_keeps_ok e : keeps_ok PitEntry_deleteInRecords e.
Proof. intros Ho Hr. split; [by apply deleteInRecords_ok|]. intros r i Hin. by apply elem_of_nil in Hin. Qed.
Lemma deleteOutRecord_keeps_ok face e : keeps_ok (PitEntry_deleteOutRecord face) e.
Proof. intros Ho Hr. split; [by apply deleteOutRecord_ok|]. exact Hr. Qed.
Lemma deleteInRecords_timers : keeps_timers PitEntry_deleteInRecords.
Proof. intros e. split; [done|]. by intros []. Qed.
Lemma deleteOutRecord_timers face : keeps_timers (PitEntry_deleteOutRecord face).
Proof. intros e. split; [done|]. by intros []. Qed.

(** The records of the entry are removed, and its straggler timer set. *)
Lemma mark_satisfied_spec {A} (a : A) inFace b fresh p w e : fwd_inv w → holds w p e →
  runs (updatePitEntry PitEntry_deleteInRecords p;;
        updatePitEntry (PitEntry_deleteOutRecord inFace) p;;
        setStragglerTimer p b fresh;;
        ret a) w (λ x w', x = a ∧ touches p w w' ∧ w_cs w' = w_cs w ∧ w_dnl w' = w_dnl w ∧
    w_trace w' = w_trace w ∧ satisfied w' inFace p).
Proof.
  intros Hi [He Hn]. run_steps.
  eapply runs_mono; [by apply (updatePitEntry_spec w PitEntry_deleteInRecords p e);
    [..|apply deleteInRecords_timers| |apply deleteInRecords_keeps_ok]|].
  intros _ w1 (Q1 & T1 & E1). run_steps.
  eapply runs_mono; [apply (updatePitEntry_spec w1 (PitEntry_deleteOutRecord inFace) p (PitEntry_deleteInRecords e));
    [apply (to_inv _ _ _ T1)|done|apply deleteOutRecord_timers|done|apply deleteOutRecord_keeps_ok]|].
  intros _ w2 (Q2 & T2 & E2). cbv beta.
  destruct (fi_ok _ (to_inv _ _ _ T1) _ _ E1) as [Ho1 _]. run_steps.
  eapply runs_mono; [apply (setStragglerTimer_spec p w2 (PitEntry_deleteOutRecord inFace (PitEntry_deleteInRecords e)));
    [apply (to_inv _ _ _ T2)|split; [exact E2|exact Hn]]|].
  intros _ w3 (T3 & Q3 & P3 & id & E3). run_steps. split_and!; [done|..].
  - do 2 (eapply touches_trans; [done|]). done.
  - rewrite (qu_cs _ _ Q3). by subst w2 w1.
  - rewrite (qu_dnl _ _ Q3). by subst w2 w1.
  - rewrite (qu_trace _ _ Q3). by subst w2 w1.
  - split; [done|]. eexists. split; [split; [exact E3|exact Hn]|]. split; [done|].
    change (PitEntry_getOutRecord (PitEntry_deleteOutRecord inFace (PitEntry_deleteInRecords e)) inFace = None).
    rewrite getOutRecord_delete by done. by rewrite decide_True.
Qed.

Lemma satisfyPitEntry_spec inFace data sig p w e : fwd_inv w → holds w p e →
  runs (satisfyPitEntry strategies inFace data sig p) w (λ pend w', touches p w w' ∧ w_cs w' = w_cs w ∧
    pend = pendingFaces (w_now w) e ∧ satisfied w' inFace p ∧
    ∃ l, Forall (interest_out w (pe_name e)) l ∧
      w_trace w' = w_trace w ++ (if sig then [SignalSatisfy p (Some inFace) data] else []) ++ l).
Proof.
  intros Hi Hh. unfold satisfyPitEntry. run_steps.
  eapply runs_mono; [by apply (cancelBoth_spec p w e); [|apply Hh]|]. intros _ w1 (T1 & Q1 & E1).
  set (e1 := set_timer false None (set_timer true None e)) in *.
  run_steps. eapply runs_getPitEntry; [exact E1|]. run_steps.
  assert (Hsig : runs (when sig (emit (SignalSatisfy p (Some inFace) data))) w1 (λ _ w2,
    touches p w1 w2 ∧ w_cs w2 = w_cs w1 ∧ entries w2 !! p = Some e1 ∧
    w_trace w2 = w_trace w1 ++ (if sig then [SignalSatisfy p (Some inFace) data] else []))).
  { destruct sig; [|by run_steps; rewrite app_nil_r; split_and!; [apply touches_refl, (to_inv _ _ _ T1)|..]].
    eapply runs_mono; [apply (emit_spec _ p), (to_inv _ _ _ T1)|]. intros _ w2 [-> T2]. done. }
  eapply runs_mono; [exact Hsig|]. clear Hsig. intros _ w2 (T2 & C2 & E2 & Tr2). cbv beta.
  assert (Hh2 : holds w2 p e1) by (split; [done|exact (proj2 Hh)]).
  run_steps. eapply runs_mono; [apply (runs_dispatch p w2 e1); [apply (to_inv _ _ _ T2)|done|]|].
  { intros s. by apply (sl_satisfy (s := strategies s) w2 p (Some inFace) data e1); [apply (to_inv _ _ _ T2)|]. }
  intros [] w3 A3. cbv beta in A3. pose proof (ac_touches _ _ _ A3) as T3.
  destruct (acts_holds _ _ _ _ A3 Hh2) as (e3 & Hh3 & Ei3 & _).
  run_steps. eapply runs_mono; [by apply (insertDeadNonceList_spec p w3 e3); [apply (to_inv _ _ _ T3)|apply Hh3]|].
  intros _ w4 [Q4 T4]. assert (Hh4 : holds w4 p e3) by (subst w4; exact Hh3).
  eapply runs_mono; [by apply (mark_satisfied_spec _ inFace true (d_freshnessPeriod data) p w4 e3 (to_inv _ _ _ T4))|].
  intros a w5 (-> & T5 & C5 & D5 & Tr5 & S5).
  split; [do 4 (eapply touches_trans; [done|]); done|]. destruct (ac_keep _ _ _ A3) as (K3 & _ & _).
  split; [rewrite C5; subst w4; simpl; rewrite K3, C2; apply Q1|].
  split; [by rewrite (to_now _ _ _ T1)|]. split; [done|].
  destruct (ac_trace _ _ _ A3 _ E2) as (l & El & Fl). exists l. split.
  - apply (interest_out_faces w w2); [|exact Fl]. rewrite (to_faces _ _ _ T2). apply (to_faces _ _ _ T1).
  - rewrite Tr5. subst w4. simpl. rewrite El, Tr2, (qu_trace _ _ Q1). by rewrite app_assoc.
Qed.

(** Outputs other than Data *)
Definition no_data_out (w : World) (o : Output) : Prop :=
  match o with SentInterest f i => can_send w f (i_name i) = true | SentData _ _ => False | _ => True end.

Lemma interest_no_data (w : World) n l : Forall (interest_out w n) l → Forall (no_data_out w) l.
Proof. intros Hl. eapply Forall_impl; [exact Hl|]. intros [f i| | |]; try done. simpl. by intros [-> ?]. Qed.

Lemma no_data_faces (w w' : World) l : w_faces w' = w_faces w → Forall (no_data_out w') l → Forall (no_data_out w) l.
Proof.
  intros Ef Hl. eapply Forall_impl; [exact Hl|]. intros [f j| | |]; try done. simpl. by rewrite (can_send_faces w w').
Qed.
(** The faces with a pending in-record in one of the entries *)
Definition pending_in (w : World) (l : list pit_ptr) (f : face_ptr) : Prop :=
  ∃ p e, p ∈ l ∧ entries w !! p = Some e ∧ f ∈ pendingFaces (w_now w) e.

Record satisfied_all (inFace : face_ptr) (l : list pit_ptr) (w w' : World) : Prop := {
  sd_inv : fwd_inv w';
  sd_env : same_env w w';
  sd_cs : w_cs w' = w_cs w;
  sd_other q : q ∉ l → entries w' !! q = entries w !! q;
  sd_pending q : q ∉ l → pending (w_scheduled w) q → pending (w_scheduled w') q;
  sd_done q : q ∈ l → satisfied w' inFace q;
  sd_trace : ∃ out, w_trace w' = w_trace w ++ out ∧ Forall (no_data_out w) out
}.

Lemma satisfyPitEntries_spec inFace data sig l : ∀ w acc, fwd_inv w → (∀ p, p ∈ l → ∃ e, holds w p e) →
  runs (satisfyPitEntries strategies inFace data sig l acc) w (λ faces w',
    satisfied_all inFace l w w' ∧ ∀ f, f ∈ faces ↔ f ∈ acc ∨ pending_in w l f).
Proof.
  induction l as [|p l IH]; intros w acc Hi Hl; simpl.
  - run_steps. split; [|intros f; unfold pending_in; set_solver].
    split; [done|done|done|done|done|by intros q ?%elem_of_nil|]. exists []. by rewrite app_nil_r.
  - destruct (Hl p) as [e Hh]; [by left|]. run_steps.
    eapply runs_mono; [by apply (satisfyPitEntry_spec inFace data sig p w e)|].
    intros pend w1 (T1 & C1 & -> & S1 & l1 & F1 & Tr1).
    assert (Hl1 : ∀ q, q ∈ l → ∃ x, holds w1 q x).
    { intros q Hq. destruct (decide (q = p)) as [->|Hne]; [destruct S1 as (_ & x & Hx & _); eauto|].
      destruct (Hl q) as [x Hx]; [by right|]. exists x. unfold holds. by rewrite (to_other _ _ _ T1). }
    eapply runs_mono; [by apply IH; [apply (to_inv _ _ _ T1)|]|]. intros faces w2 [A2 Hf].
    pose proof (touches_env _ _ _ T1) as V1. destruct A2 as [I2 V2 C2 O2 P2 D2 (out & Tr2 & F2)]. split.
    + split; [done| |congruence| | | |].
      * by eapply same_env_trans.
      * intros q [Hqp Hql]%not_elem_of_cons. rewrite O2 by done. by apply (to_other _ _ _ T1).
      * intros q [Hqp Hql]%not_elem_of_cons Hp. apply P2; [done|]. by apply (to_pending _ _ _ T1).
      * intros q Hq. destruct (decide (q ∈ l)) as [Hin|Hin]; [by apply D2|]. assert (q = p) as -> by (by apply elem_of_cons in Hq as [|]).
        destruct S1 as (P1 & x & [Hx Hnx] & Hr). split; [by apply P2|]. exists x. split; [|done]. split; [|done]. by rewrite O2.
      * exists ((if sig then [SignalSatisfy p (Some inFace) data] else []) ++ l1 ++ out). split.
        -- rewrite Tr2, Tr1. by rewrite <-!app_assoc.
        -- rewrite !Forall_app. split; [destruct sig; by repeat constructor|]. split; [by eapply interest_no_data|].
           apply (no_data_faces w w1); [apply (to_faces _ _ _ T1)|done].
    + intros f. rewrite Hf, elem_of_union, elem_of_list_to_set. unfold pending_in.
      destruct S1 as (_ & x & [Hx _] & Hrx & _). rewrite (to_now _ _ _ T1). split.
      * intros [[Hf'|Hf']|(q & y & Hq & Hy & Hf')]; [by left|right; exists p, e; split_and!; [by left|apply Hh|done]|].
        destruct (decide (q = p)) as [->|Hne].
        -- rewrite Hx in Hy. injection Hy as <-. apply elem_of_pendingFaces in Hf' as (r & Hr & _).
           rewrite Hrx in Hr. by apply elem_of_nil in Hr.
        -- right. exists q, y. rewrite (to_other _ _ _ T1) in Hy by done. split_and!; [by right|done|done].
      * intros [Hf'|(q & y & Hq & Hy & Hf')]; [by left; left|]. destruct (decide (q = p)) as [->|Hne].
        -- left. right. destruct Hh as [He _]. by assert (y = e) as -> by congruence.
        -- right. exists q, y. rewrite (to_other _ _ _ T1) by done. split_and!; [by apply elem_of_cons in Hq as [|]|done|done].
Qed.

(** *** Sending to the downstreams *)

(** The Data that go out *)
Definition data_sent (w : World) (inFace : face_ptr) (data : Data) (faces : gset face_ptr) : list Output :=
  (λ f, SentData f data) <$> filter (λ f, f ≠ inFace ∧ can_send w f (d_name data) = true) (elements faces).

Lemma sendDownstream_list (w0 : World) inFace data l : ∀ w : World, w_faces w = w_faces w0 → fwd_inv w →
  runs (for_each l (λ f, if bool_decide (f = inFace) then ret tt else onOutgoingData data f)) w (λ _ w',
    (∀ p, touches p w w') ∧ w_scheduled w' = w_scheduled w ∧ w_cs w' = w_cs w ∧ w_dnl w' = w_dnl w ∧ entries w' = entries w ∧
    w_trace w' = w_trace w ++ ((λ f, SentData f data) <$> filter (λ f, f ≠ inFace ∧ can_send w0 f (d_name data) = true) l)).
Proof.
  induction l as [|f l IH]; intros w Ef Hi; simpl.
  - run_steps. rewrite app_nil_r. split_and!; try done. intros p. by apply touches_refl.
  - run_steps. case_bool_decide as Efi; [run_steps|].
    + eapply runs_mono; [by apply IH|]. intros _ w' (T & ? & ? & ? & ? & Tr). split_and!; try done.
      rewrite filter_cons_False by (by intros [? _]). done.
    + destruct (onOutgoingData_spec data f 1%positive w Hi) as ([] & w1 & R1 & T1 & Es1 & D1 & C1 & En1 & Tr1).
      assert (T1' : ∀ p, touches p w w1).
      { intros p. destruct (onOutgoingData_spec data f p w Hi) as ([] & w1' & R1' & T1' & _). congruence. }
      exists tt, w1. split; [exact R1|].
      eapply runs_mono; [apply (IH w1); [by rewrite (to_faces _ _ _ T1)|apply (to_inv _ _ _ T1)]|].
      intros _ w2 (T2 & Es2 & C2 & D2 & En2 & Tr2). split_and!; [intros p; by eapply touches_trans|congruence..|].
      rewrite Tr2, Tr1, (can_send_faces w0 w) by done. destruct (can_send w0 f (d_name data)) eqn:Ecs.
      * rewrite filter_cons_True by done. simpl. by rewrite <-app_assoc.
      * rewrite filter_cons_False by (intros [_ ?]; congruence). by rewrite app_nil_r.
Qed.

Lemma sendDownstream_spec inFace data faces (w : World) : fwd_inv w →
  runs (sendDownstream inFace data faces) w (λ _ w', (∀ p, touches p w w') ∧ w_scheduled w' = w_scheduled w ∧
    w_cs w' = w_cs w ∧ entries w' = entries w ∧ w_trace w' = w_trace w ++ data_sent w inFace data faces).
Proof.
  intros Hi. unfold sendDownstream. eapply runs_mono; [by apply (sendDownstream_list w)|].
  intros _ w' (? & ? & ? & ? & ? & ?). done.
Qed.

(** *** The matching PIT entries *)

Lemma findAll_live P name q p : pit_wf P → p ∈ Pit_findAll P name q → ∃ e, pit_entries P !! p = Some e ∧ is_Some (pe_nameTreeEntry e) ∧ q e = true.
Proof.
  intros W Hp. unfold Pit_findAll in Hp. apply list_elem_of_bind in Hp as (nte & Hp & _).
  apply list_elem_of_filter in Hp as [Hs Hp]. unfold getPitEntries in Hp.
  destruct (nt_heap (pit_nt P) !! nte) as [f|] eqn:Ef; simpl in Hp; [|by apply elem_of_nil in Hp].
  destruct (pw_in _ W _ _ _ Ef Hp) as (e & He & Ha). exists e. split_and!; [done|eauto|].
  unfold pit_satisfies in Hs. by rewrite He in Hs.
Qed.

Record data_post (w w' : World) (inFace : face_ptr) (data : Data) (matches : list pit_ptr) : Prop := {
  dp_inv : fwd_inv w';
  dp_env : same_env w w';
  dp_other q : q ∉ matches → entries w' !! q = entries w !! q;
  dp_pending q : q ∉ matches → pending (w_scheduled w) q → pending (w_scheduled w') q;
  dp_done q : q ∈ matches → satisfied w' inFace q;
  dp_trace : ∃ out faces, w_trace w' = w_trace w ++ out ++ data_sent w inFace data faces ∧
    Forall (no_data_out w) out ∧ ∀ f, f ∈ faces ↔ pending_in w matches f
}.

Lemma data_sent_nil (w : World) inFace data : data_sent w inFace data ∅ = [].
Proof. unfold data_sent. by rewrite elements_empty. Qed.

Lemma onDataUnsolicited_spec inFace data (w : World) : fwd_inv w → data_ok data →
  runs (onDataUnsolicited inFace data) w (λ _ w', (∀ p, touches p w w') ∧ same_core w w' ∧ w_dnl w' = w_dnl w ∧
    w_trace w' = w_trace w ∧ (isLocal w inFace = false → w' = w)).
Proof.
  intros Hi Hd. unfold onDataUnsolicited. run_steps. destruct (isLocal w inFace).
  - destruct (cs_insert_spec data true 1%positive w Hi Hd) as ([] & w' & R & T & C & D & Tr & _).
    exists tt, w'. split; [done|]. split; [|done].
    intros p. destruct (cs_insert_spec data true p w Hi Hd) as ([] & w'' & R' & T' & _). congruence.
  - run_steps. split_and!; try done. intros p. by apply touches_refl.
Qed.
(** *** The whole pipeline *)

Lemma same_core_faces (w w' : World) : same_core w w' → w_faces w' = w_faces w ∧ w_now w' = w_now w.
Proof. intros C. split; apply C. Qed.

Lemma data_sent_faces (w w' : World) inFace d faces : w_faces w' = w_faces w → data_sent w' inFace d faces = data_sent w inFace d faces.
Proof.
  intros Ef. unfold data_sent. f_equal. apply list_filter_iff. intros f. by rewrite (can_send_faces w w').
Qed.

(** CS insertion, the matching entries, the downstreams: shared with the bridge forwarder *)
Lemma satisfy_and_send_spec sig inFace data matches w : fwd_inv w → data_ok data →
  (∀ p, p ∈ matches → ∃ e, holds w p e) →
  runs (cs_insert data false;;
        let* pendingDownstreams := satisfyPitEntries strategies inFace data sig matches ∅ in
        sendDownstream inFace data pendingDownstreams) w (λ _ w', data_post w w' inFace data matches).
Proof.
  intros Hi Hd Hm. run_steps. eapply runs_mono; [by apply (cs_insert_spec data false 1%positive)|].
  intros _ w1 (T1 & C1 & D1 & Tr1 & _). pose proof (touches_env _ _ _ T1) as V1.
  assert (Een : entries w1 = entries w) by (unfold entries; by rewrite (sa_pit _ _ C1)).
  run_steps. eapply runs_mono; [apply (satisfyPitEntries_spec inFace data sig matches w1 ∅); [apply (to_inv _ _ _ T1)|]|].
  { intros p Hp. destruct (Hm p Hp) as [e He]. exists e. unfold holds. by rewrite Een. }
  intros faces w2 [[I2 V2 C2 O2 P2 D2 (out & Tr2 & F2)] Hf]. cbv beta.
  eapply runs_mono; [by apply sendDownstream_spec|]. intros _ w3 (T3 & Es3 & C3 & En3 & Tr3).
  pose proof (touches_env _ _ _ (T3 1%positive)) as V3.
  assert (V : same_env w w2) by (by eapply same_env_trans).
  split.
  - apply (to_inv _ _ _ (T3 1%positive)).
  - by eapply same_env_trans.
  - intros q Hq. rewrite En3, O2, Een; done.
  - intros q Hq. rewrite Es3, <-(sa_scheduled _ _ C1). by apply P2.
  - intros q Hq. destruct (D2 q Hq) as (Hp & e & [He Hn] & Hrest). split; [by rewrite Es3|]. exists e.
    split; [|done]. split; [by rewrite En3|done].
  - exists out, faces. split; [|split].
    + rewrite Tr3, Tr2, Tr1, (data_sent_faces w w2) by apply V. by rewrite <-app_assoc.
    + apply (no_data_faces w w1); [apply V1|done].
    + intros f. rewrite Hf. destruct (same_core_faces _ _ C1) as [_ Enow].
      assert (Hpi : pending_in w1 matches f ↔ pending_in w matches f) by (unfold pending_in; by rewrite Een, Enow).
      rewrite Hpi. split; [intros [?|?]; [set_solver|done]|by right].
Qed.

Lemma count_InData_spec p w : fwd_inv w →
  runs count_InData w (λ _ w', w' = add_inData w ∧ touches p w w').
Proof.
  intros Hi. unfold count_InData. run_steps. split; [done|].
  apply touches_core; [done|by split|apply (fi_cs _ Hi)|apply (fi_stored _ Hi)].
Qed.

Lemma onIncomingData_spec inFace d0 w : fwd_inv w → data_ok d0 →
  let d := setDataIncomingFaceId (getId inFace w) d0 in
  let matches := Pit_findAllDataMatches matchesData (w_pit w) d in
  runs (onIncomingData matchesData strategies inFace d0) w (λ _ w',
    if violates_localhost w inFace (d_name d0) then w' = add_inData w
    else if decide (matches = []) then
      (∀ p, touches p w w') ∧ entries w' = entries w ∧ w_trace w' = w_trace w ∧ w_scheduled w' = w_scheduled w ∧
      (isLocal w inFace = false → w' = add_inData w)
    else data_post w w' inFace d matches).
Proof.
  intros Hi Hd d matches. unfold onIncomingData. run_steps. fold d.
  eapply runs_mono; [by apply (count_InData_spec 1%positive)|]. intros _ w1 [E1 _].
  assert (T1 : ∀ p, touches p w w1).
  { intros p. subst w1. apply touches_core; [done|by split|apply (fi_cs _ Hi)|apply (fi_stored _ Hi)]. }
  pose proof (to_inv _ _ _ (T1 1%positive)) as Hi1. run_steps.
  assert (Ev : negb (isLocal w1 inFace) && isPrefixOf LOCALHOST_NAME (d_name d) = violates_localhost w inFace (d_name d0)) by (by subst w1).
  rewrite Ev. destruct (violates_localhost w inFace (d_name d0)); [by run_steps|]. run_steps.
  assert (Em : Pit_findAllDataMatches matchesData (w_pit w1) d = matches) by (by subst w1). rewrite Em.
  destruct (decide (matches = [])) as [Hnil|Hnil]; [rewrite bool_decide_eq_true_2 by done|rewrite bool_decide_eq_false_2 by done].
  - eapply runs_mono; [by apply onDataUnsolicited_spec|]. intros _ w2 (T2 & C2 & _ & Tr2 & Hl). subst w1. split_and!.
    + intros p. eapply touches_trans; [apply T1|apply T2].
    + unfold entries. by rewrite (sa_pit _ _ C2).
    + done.
    + by rewrite (sa_scheduled _ _ C2).
    + done.
  - eapply runs_mono; [apply (satisfy_and_send_spec true inFace d matches w1 Hi1 Hd)|].
    { intros p Hp. unfold matches, Pit_findAllDataMatches in Hp. apply findAll_live in Hp as (e & He & Hn & _); [|by apply fi_pit].
      exists e. subst w1. done. }
    intros _ w2 [I V O P D (out & faces & Tr & F & Hf)]. subst w1. split; try done.
    exists out, faces. done.
Qed.

Lemma onIncomingData_ok inFace d0 w : fwd_ok w → data_ok d0 →
  runs (onIncomingData matchesData strategies inFace d0) w (λ _ w', fwd_ok w' ∧ same_env w w').
Proof.
  intros [Hi Hc] Hd. eapply runs_mono; [by apply onIncomingData_spec|]. cbv zeta. intros [] w'.
  set (d := setDataIncomingFaceId (getId inFace w) d0). set (matches := Pit_findAllDataMatches matchesData (w_pit w) d).
  destruct (violates_localhost w inFace (d_name d0)).
  - intros ->. assert (T : touches 1%positive w (add_inData w)).
    { apply touches_core; [done|by split|apply (fi_cs _ Hi)|apply (fi_stored _ Hi)]. }
    split; [split; [apply T|exact Hc]|by apply (touches_env 1%positive)].
  - destruct (decide (matches = [])) as [Hnil|Hnil].
    + intros (T & En & _ & Es & _). split; [|by apply (touches_env 1%positive)].
      split; [apply (T 1%positive)|]. intros p e. unfold covered, covered_in in Hc. rewrite En, Es. by apply Hc.
    + intros [I V O P D _]. split; [|done]. split; [done|]. intros p. destruct (decide (p ∈ matches)) as [Hp|Hp].
      * apply pending_covered. by apply D.
      * intros e He Hn Hr. rewrite O in He by done. apply P; [done|]. by eapply Hc.
Qed.

(** ** Timers *)

(** The PIT entry [p] leaves the table. *)
Record removed (p : pit_ptr) (w w' : World) : Prop := {
  rm_inv : fwd_inv w';
  rm_env : same_env w w';
  rm_gone : ¬ live (w_pit w') p;
  rm_other q : q ≠ p → entries w' !! q = entries w !! q;
  rm_pending q : q ≠ p → pending (w_scheduled w) q → pending (w_scheduled w') q
}.

Lemma erase_inv (w : World) p e P' : fwd_inv w → entries w !! p = Some e → (∀ k, timer_of k e = None) →
  pit_erase_post (w_pit w) p e P' → fwd_inv (set_pit P' w).
Proof.
  intros Hi He Hk [W' Een _ Hpay]. split; simpl.
  - eapply sc_wf_tables; [apply (fi_sc _ Hi)|done|]. intros n. pose proof (Hpay n) as E'. by injection E'.
  - intros q x Hx. unfold entries in Hx. simpl in Hx. rewrite Een in Hx.
    apply lookup_insert_Some in Hx as [[<- <-]|[_ Hx]]; [|by apply (fi_ok _ Hi q)].
    destruct (fi_ok _ Hi _ _ He) as [[A B C] Hr]. split; [by split|exact Hr].
  - unfold entries. simpl. rewrite Een. by apply timers_detach; [apply (fi_timers _ Hi)|..].
  - apply (fi_cs _ Hi).
  - apply (fi_stored _ Hi).
Qed.

Lemma onInterestFinalize_spec p b fresh (w : World) e : fwd_inv w → holds w p e →
  runs (onInterestFinalize p b fresh) w (λ _ w', removed p w w' ∧ w_trace w' = w_trace w ∧
    w_dnl w' = dnl_after (w_dnl w) e b fresh None).
Proof.
  intros Hi Hh. unfold onInterestFinalize. run_steps.
  eapply runs_mono; [by apply (insertDeadNonceList_spec p w e); [|apply Hh]|]. intros _ w1 [Q1 T1].
  assert (Hh1 : holds w1 p e) by (subst w1; exact Hh).
  run_steps. eapply runs_mono; [by apply (cancelBoth_spec p w1 e); [apply (to_inv _ _ _ T1)|apply Hh1]|].
  intros _ w2 (T2 & Q2 & E2). set (e2 := set_timer false None (set_timer true None e)) in *.
  pose proof (to_inv _ _ _ T2) as Hi2. run_steps.
  destruct (Pit_erase_spec (w_pit w2) p e2 (fi_pit _ Hi2) E2) as (P' & Ee & Hpost); [exact (proj2 Hh)|].
  rewrite Ee. eapply runs_deref; [done|]. run_steps.
  assert (T : touches p w w2) by (by eapply touches_trans). pose proof (touches_env _ _ _ T) as V.
  split; [|split; [change (w_trace w2 = w_trace w); rewrite (qu_trace _ _ Q2); by subst w1
                  |change (w_dnl w2 = dnl_after (w_dnl w) e b fresh None); rewrite (qu_dnl _ _ Q2); by subst w1]].
  assert (Hne : ∀ q, q ≠ p → pit_entries P' !! q = entries w !! q).
  { intros q Hq. rewrite (era_entry _ _ _ _ Hpost), lookup_insert_ne by done. by apply (to_other _ _ _ T). }
  assert (V' : same_env w (set_pit P' w2)).
  { apply (same_env_trans w w2); [done|]. split_and!; try done. split; [|done].
    intros n. pose proof (era_payload _ _ _ _ Hpost n) as E'. by injection E'. }
  split; [|exact V'| |exact Hne|].
  - apply (erase_inv w2 p e2 P' Hi2 E2); [by intros []|done].
  - intros (x & a & Hx & Ha). simpl in Hx. rewrite (era_entry _ _ _ _ Hpost), lookup_insert_eq in Hx.
    injection Hx as <-. done.
  - intros q Hq Hp. apply (to_pending _ _ _ T q Hq Hp).
Qed.

Lemma onInterestUnsatisfied_spec p w e : fwd_inv w → holds w p e →
  runs (onInterestUnsatisfied strategies p) w (λ _ w', removed p w w' ∧
    ∃ l, Forall (interest_out w (pe_name e)) l ∧ w_trace w' = w_trace w ++ SignalExpire p :: l).
Proof.
  intros Hi Hh. unfold onInterestUnsatisfied. run_steps.
  eapply runs_mono; [by apply (emit_spec _ p)|]. intros _ w1 [E1 T1].
  assert (Hh1 : holds w1 p e) by (subst w1; exact Hh).
  run_steps. eapply runs_mono; [apply (runs_dispatch p w1 e); [apply (to_inv _ _ _ T1)|done|]|].
  { intros s. by apply (sl_expire (s := strategies s) w1 p e); [apply (to_inv _ _ _ T1)|]. }
  intros [] w2 A2. cbv beta in A2. pose proof (ac_touches _ _ _ A2) as T2.
  destruct (acts_holds _ _ _ _ A2 Hh1) as (e2 & Hh2 & _ & _). cbv beta.
  eapply runs_mono; [by apply (onInterestFinalize_spec p false (-1) w2 e2); [apply (to_inv _ _ _ T2)|]|].
  intros _ w3 ([I3 V3 G3 O3 P3] & Tr3 & _). assert (T : touches p w w2) by (by eapply touches_trans).
  pose proof (touches_env _ _ _ T) as V. split.
  - split; [done| |done| |].
    + by eapply same_env_trans.
    + intros q Hq. rewrite O3 by done. by apply (to_other _ _ _ T).
    + intros q Hq Hp. apply P3; [done|]. by apply (to_pending _ _ _ T).
  - destruct (ac_trace _ _ _ A2 _ (proj1 Hh1)) as (l & El & Fl). exists l. split.
    + apply (interest_out_faces w w1); [apply (to_faces _ _ _ T1)|done].
    + rewrite Tr3, El, E1. simpl. by rewrite <-app_assoc.
Qed.
(** The scheduler's step: the event leaves the schedule, then runs *)
Definition timer_started (w : World) (id : positive) (t : Z) : World :=
  set_now (Z.max (w_now w) t) (set_scheduled (delete id (w_scheduled w)) (w_nextEvent w) w).

Lemma timer_started_inv (w : World) id t : fwd_inv w → fwd_inv (timer_started w id t).
Proof.
  intros [A B C D F]. split; [done|exact B|by apply timers_fire|done|done].
Qed.

Lemma timer_started_pending (w : World) id t ev q : w_scheduled w !! id = Some (t, ev) → q ≠ ev_target ev →
  pending (w_scheduled w) q → pending (w_scheduled (timer_started w id t)) q.
Proof.
  intros Hid Hq (i & u & ev' & Hi & E'). exists i, u, ev'. split; [|done]. simpl. rewrite lookup_delete_ne; [done|].
  intros <-. rewrite Hid in Hi. injection Hi as <- <-. congruence.
Qed.

Lemma event_holds (w : World) id t ev : fwd_inv w → w_scheduled w !! id = Some (t, ev) → ∃ e, holds w (ev_target ev) e.
Proof. intros Hi Hid. destruct (tw_event _ _ _ (fi_timers _ Hi) _ _ _ Hid) as (e & He & Hn & _). by exists e. Qed.

(** A timer runs for an entry that is in the table, and removes it. *)
Lemma fireTimer_spec id t ev w : fwd_inv w → w_scheduled w !! id = Some (t, ev) →
  runs (fireTimer strategies id) w (λ _ w', removed (ev_target ev) (timer_started w id t) w' ∧
    ∃ out, w_trace w' = w_trace w ++ out ∧ Forall (no_data_out w) out).
Proof.
  intros Hi Hid. unfold fireTimer. run_steps. eapply runs_deref; [exact Hid|]. run_steps.
  fold (timer_started w id t). destruct (event_holds w id t ev Hi Hid) as (e & Hh).
  pose proof (timer_started_inv w id t Hi) as Hi'. destruct ev as [p|p b fresh]; simpl in *.
  - eapply runs_mono; [by apply (onInterestUnsatisfied_spec p (timer_started w id t) e)|].
    intros _ w' (Hr & l & Fl & Tr). split; [done|]. exists (SignalExpire p :: l). split; [done|].
    constructor; [done|]. eapply interest_no_data. exact Fl.
  - eapply runs_mono; [by apply (onInterestFinalize_spec p b fresh (timer_started w id t) e)|].
    intros _ w' (Hr & Tr & _). split; [done|]. exists []. by rewrite app_nil_r.
Qed.

(** ** Steps *)

(** What the environment provides: packets that ndn-cxx accepts, timers of the
    scheduler, a clock that does not run back, a table that is not full. *)
Definition step_ok (w : World) (s : FwdStep) : Prop :=
  match s with
  | StepInterest _ i => room (pit_nt (w_pit w)) (i_name i) ∧ cs_searchable i
  | StepData _ d => data_ok d
  | StepTimer id => is_Some (w_scheduled w !! id)
  | StepTime elapsed => 0 <= elapsed
  end.

Lemma fireTimer_ok id w : fwd_ok w → is_Some (w_scheduled w !! id) →
  runs (fireTimer strategies id) w (λ _ w', fwd_ok w' ∧ same_tables w w').
Proof.
  intros [Hi Hc] [[t ev] Hid]. eapply runs_mono; [by apply fireTimer_spec|]. intros _ w' [[I V G O P] _].
  split; [|exact (same_env_tables _ _ V)].
  split; [done|]. intros q e He Hn Hr. destruct (decide (q = ev_target ev)) as [->|Hq].
  - destruct G. destruct Hn as [a Ha]. by exists e, a.
  - rewrite O in He by done. apply P; [done|]. apply (timer_started_pending w id t ev q Hid Hq). by apply (Hc q e).
Qed.

(** Every step ends, keeps the invariant, and leaves the faces, the FIB and the
    installed strategies alone. *)
Lemma fwd_step_ok s w : matches_prefix matchesData → fwd_ok w → step_ok w s →
  runs (fwd_step matchesData strategies s) w (λ _ w', fwd_ok w' ∧ same_tables w w').
Proof.
  intros Hm Ho Hs. destruct s as [f i|f d|id|el]; simpl in *.
  - destruct Hs as [Hr Hs]. eapply runs_mono; [by apply onIncomingInterest_ok|]. intros _ w' [? V]. by split; [|apply same_env_tables].
  - eapply runs_mono; [by apply onIncomingData_ok|]. intros _ w' [? V]. by split; [|apply same_env_tables].
  - by apply fireTimer_ok.
  - run_steps. destruct Ho as [[A B C D F] Hc]. split; [|by split_and!]. split; [by split|exact Hc].
Qed.

(** *** What a step sends *)

Definition output_ok (w : World) (o : Output) : Prop :=
  match o with
  | SentInterest f i => can_send w f (i_name i) = true
  | SentData f d => can_send w f (d_name d) = true
  | _ => True
  end.

Lemma no_data_output_ok (w : World) l : Forall (no_data_out w) l → Forall (output_ok w) l.
Proof. intros Hl. eapply Forall_impl; [exact Hl|]. by intros [| | |]. Qed.

Lemma data_sent_ok (w : World) inFace d faces : Forall (output_ok w) (data_sent w inFace d faces).
Proof.
  unfold data_sent. apply Forall_forall. intros o (f & -> & Hf)%list_elem_of_fmap.
  apply list_elem_of_filter in Hf as [[_ Hs] _]. done.
Qed.

(** The Data a step sends *)
Definition data_step_reason (w : World) (s : FwdStep) (f : face_ptr) (d : Data) : Prop :=
  match s with
  | StepInterest g i => f = g ∧ ∃ d0, cs_answers w (setInterestIncomingFaceId (getId g w) i) (Some d0) ∧
      d = setDataIncomingFaceId FACEID_CONTENT_STORE d0
  | StepData g d0 => f ≠ g ∧ d = setDataIncomingFaceId (getId g w) d0 ∧
      pending_in w (Pit_findAllDataMatches matchesData (w_pit w) d) f
  | _ => False
  end.

Lemma fwd_step_trace s w : matches_prefix matchesData → fwd_inv w → step_ok w s →
  runs (fwd_step matchesData strategies s) w (λ _ w', ∃ out, w_trace w' = w_trace w ++ out ∧ Forall (output_ok w) out ∧
    ∀ f d, SentData f d ∈ out → data_step_reason w s f d).
Proof.
  intros Hm Hi Hs.
  assert (Hno : ∀ l f d, Forall (no_data_out w) l → SentData f d ∉ l).
  { intros l f d Hl Hin. rewrite Forall_forall in Hl. by apply (Hl _ Hin). }
  destruct s as [f i|f d|id|el]; simpl in *.
  - destruct Hs as [Hr Hs]. eapply runs_mono; [by apply onIncomingInterest_spec|]. cbv zeta. intros [] w' Hw.
    destruct (violates_localhost w f (i_name i)); [subst w'; exists []; rewrite app_nil_r; split_and!; [done..|by intros ? ? ?%elem_of_nil]|].
    destruct Hw as (p & isNew & P' & e & T & Hp). set (i1 := setInterestIncomingFaceId (getId f w) i) in *.
    destruct (duplicate_nonce w e f i1) eqn:Ed.
    { rewrite (ip_loop _ _ _ _ _ _ _ _ Hp Ed). exists []. rewrite app_nil_r. split_and!; [done..|by intros ? ? ?%elem_of_nil]. }
    destruct (ip_served _ _ _ _ _ _ _ _ Hp Ed) as (_ & _ & d & Hd1 & Hd2 & l & Fl & Hd).
    pose proof (interest_no_data _ _ _ Fl) as Fl'. destruct d as [d|].
    + assert (Hr0 : pe_inRecords e = []) by (destruct (pe_inRecords e) eqn:Er; [done|by discriminate Hd2]).
      eexists. split; [exact Hd|]. split.
      * constructor; [done|]. apply Forall_app. split; [by apply no_data_output_ok|].
        destruct (can_send w f (d_name d)) eqn:Ecs; by repeat constructor.
      * intros g x [?|Hx]%elem_of_cons; [done|]. apply elem_of_app in Hx as [Hx|Hx]; [by destruct (Hno _ _ _ Fl' Hx)|].
        destruct (can_send w f (d_name d)); [|by apply elem_of_nil in Hx]. apply list_elem_of_singleton in Hx.
        injection Hx as -> ->. split; [done|]. exists d. split; [by apply Hd1|done].
    + destruct Hd as [Hd _]. exists l. split_and!; [done|by apply no_data_output_ok|]. intros g x Hx. by destruct (Hno _ _ _ Fl' Hx).
  - eapply runs_mono; [by apply onIncomingData_spec|]. cbv zeta. intros [] w' Hw.
    destruct (violates_localhost w f (d_name d)); [subst w'; exists []; rewrite app_nil_r; split_and!; [done..|by intros ? ? ?%elem_of_nil]|].
    destruct (decide _).
    + destruct Hw as (_ & _ & Tr & _). exists []. rewrite app_nil_r. split_and!; [done..|by intros ? ? ?%elem_of_nil].
    + destruct (dp_trace _ _ _ _ _ Hw) as (out & faces & Tr & F & Hf). eexists. split; [exact Tr|]. split.
      * apply Forall_app. split; [by apply no_data_output_ok|apply data_sent_ok].
      * intros g x [Hx|Hx]%elem_of_app; [by destruct (Hno _ _ _ F Hx)|].
        unfold data_sent in Hx. apply list_elem_of_fmap in Hx as (g' & [= -> ->] & Hg).
        apply list_elem_of_filter in Hg as [[Hne _] Hg]. apply elem_of_elements, Hf in Hg. done.
  - destruct Hs as [[t ev] Hid]. eapply runs_mono; [by apply fireTimer_spec|]. intros [] w' [_ (out & Tr & F)].
    exists out. split_and!; [done|by apply no_data_output_ok|]. intros g x Hx. by destruct (Hno _ _ _ F Hx).
  - run_steps. exists []. rewrite app_nil_r. split_and!; [done..|by intros ? ? ?%elem_of_nil].
Qed.
End spec.
