(* ===== verification/FaceTable.v ===== *)
(** * Faces and the FIB: [daemon/fw/face-table.cpp], [daemon/mgmt/fib-manager.cpp]

    The face table numbers the faces and connects them to a forwarder; when a
    face fails it leaves the table and every FIB entry.  The FIB manager adds
    and removes next hops on command.  [links_ok] ties the two: the next hops of
    the FIB are faces of the table. *)

From S2P Require Import Prelude CityHash Packets FibEntry NameTree NameTreeFacts Fib PitEntry Pit StrategyChoice DeadNonceList ContentStore World Forwarder ForwarderInv ForwarderSpec.
Open Scope pipeline_scope.

(** ** Changing the FIB in the name tree that the PIT shares *)

Lemma same_pits_trans h1 h2 h3 : same_pits h1 h2 → same_pits h2 h3 → same_pits h1 h3.
Proof.
  intros [A1 B1] [A2 B2]. split; intros a f Hf Hne.
  - destruct (A1 a f Hf Hne) as (f1 & Hf1 & Ep1 & Eq1). destruct (A2 a f1 Hf1) as (f2 & Hf2 & Ep2 & Eq2); [congruence|].
    exists f2. split_and!; congruence.
  - destruct (B2 a f Hf Hne) as (f1 & Hf1 & Ep1 & Eq1). destruct (B1 a f1 Hf1) as (f2 & Hf2 & Ep2 & Eq2); [congruence|].
    exists f2. split_and!; congruence.
Qed.

Lemma same_pits_alter f a t : (∀ e, e_prefix (f e) = e_prefix e ∧ e_pit (f e) = e_pit e) →
  same_pits (nt_heap t) (nt_heap (alter_entry f a t)).
Proof.
  intros Hf. split; intros b e He Hne.
  - rewrite lookup_alter_entry. case_decide as Eb; [|eauto]. subst b. rewrite He. destruct (Hf e). simpl. eauto.
  - rewrite lookup_alter_entry in He. case_decide as Eb; [|eauto]. subst b. apply fmap_Some in He as (e0 & He & ->).
    destruct (Hf e0) as [-> ->]. eauto.
Qed.

Section fib_pits.
Context `{WireEncoding}.

Lemma Fib_insert_pits t nItems n nte isNew t' nItems' : nt_wf t → room t n →
  Fib_insert t nItems n = ((nte, isNew), (t', nItems')) → same_pits (nt_heap t) (nt_heap t').
Proof.
  intros W Hr Hi. unfold Fib_insert in Hi. destruct (NameTree_lookup t n) as [a t1] eqn:Hl.
  pose proof (nt_grow_same_pits _ _ _ (lookup_grow _ _ _ _ (lookup_spec t n a t1 W Hr Hl))) as S1.
  destruct (getFibEntry t1 a); injection Hi as <- <- <- <-; [done|].
  eapply same_pits_trans; [done|]. by apply same_pits_alter.
Qed.

Lemma alter_fib_pits f a t : same_pits (nt_heap t) (nt_heap (alter_fib f a t)).
Proof. by apply same_pits_alter. Qed.

Lemma Fib_erase_nte_pits t nItems nte e x : fib_wf t nItems → nt_heap t !! nte = Some e → e_fib e = Some x →
  same_pits (nt_heap t) (nt_heap (Fib_erase_nte t nItems nte).1).
Proof.
  intros Hw He Hx. pose proof (Fib_erase_nte_spec t nItems nte e x Hw He Hx) as Hs.
  destruct (Fib_erase_nte t nItems nte) as [t' n']. destruct Hs as (_ & _ & _ & G).
  apply (same_pits_trans _ (nt_heap (alter_entry (setFibEntry None) nte t))); [by apply same_pits_alter|].
  apply same_pits_sym. by eapply nt_grow_same_pits.
Qed.

Lemma foldl_erase_nte_pits l : ∀ t nItems, fib_wf t nItems → NoDup l →
  (∀ a, a ∈ l → ∃ e x, nt_heap t !! a = Some e ∧ e_fib e = Some x) →
  same_pits (nt_heap t) (nt_heap (foldl (λ '(t, nItems) nte, Fib_erase_nte t nItems nte) (t, nItems) l).1).
Proof.
  induction l as [|a l IH]; intros t nItems Hw Hnd Hl; simpl; [split; eauto|].
  apply NoDup_cons in Hnd as [Ha Hnd]. destruct (Hl a) as (e & x & He & Hx); [apply elem_of_cons; by left|].
  pose proof (Fib_erase_nte_spec t nItems a e x Hw He Hx) as Hs. pose proof (Fib_erase_nte_pits t nItems a e x Hw He Hx) as S1.
  destruct (Fib_erase_nte t nItems a) as [t1 n1]. destruct Hs as (Hw1 & _ & _ & G1).
  eapply same_pits_trans; [exact S1|]. apply IH; [done..|]. intros b Hb.
  destruct (Hl b) as (f & y & Hf & Hy); [apply elem_of_cons; by right|].
  destruct (grow_survives _ _ _ b f G1) as (f' & Hf' & _ & Hq).
  - rewrite lookup_alter_entry, decide_False; [done|]. by intros ->.
  - by eapply fib_payload_ne.
  - exists f', y. split; [done|]. injection Hq as ->. done.
Qed.

Lemma foldl_alter_fib_pits f l : ∀ t, same_pits (nt_heap t) (nt_heap (foldl (λ t nte, alter_fib f nte t) t l)).
Proof.
  induction l as [|a l IH]; intros t; simpl; [split; eauto|].
  eapply same_pits_trans; [apply alter_fib_pits|apply IH].
Qed.

Lemma removeNextHopFromAllEntries_pits t nItems face : fib_wf t nItems →
  same_pits (nt_heap t) (nt_heap (Fib_removeNextHopFromAllEntries t nItems face).1).
Proof.
  intros Hw. unfold Fib_removeNextHopFromAllEntries. pose proof (fib_tree _ _ Hw) as W.
  set (l := NameTree_fullEnumerate t hasFibEntry).
  pose proof (alter_fib_all_wf t nItems face Hw) as Hw1. fold l in Hw1.
  eapply same_pits_trans; [apply (foldl_alter_fib_pits (λ entry, FibEntry_removeNextHop entry face) l)|].
  apply foldl_erase_nte_pits; [done| |].
  - apply NoDup_filter. subst l. rewrite fullEnumerate_spec by done. apply NoDup_filter, (wf_nodup _ (proj2 W)).
  - intros a Ha. apply list_elem_of_filter in Ha as [Hlack _]. unfold lacksNextHops, getFibEntry in Hlack.
    destruct (nt_heap _ !! a) as [e|]; [|done]. simpl in Hlack. destruct (e_fib e) as [x|] eqn:Ex; [|done]. eauto.
Qed.
(** An update of the FIB entry at [a] *)
Lemma alter_fib_spec t n f a e x : fib_wf t n → nt_heap t !! a = Some e → e_fib e = Some x →
  fe_prefix (f x) = fe_prefix x → FibEntry_ok (f x) →
  fib_wf (alter_fib f a t) n ∧
  (∀ m, fib_get (alter_fib f a t) m = if decide (m = e_prefix e) then Some (f x) else fib_get t m) ∧
  (∀ m, non_fib (payload_at (alter_fib f a t) m) = non_fib (payload_at t m)).
Proof.
  intros [W P I Eq] He Hx Hp Ho.
  pose proof (λ m, payload_at_alter _ t a e m (alter_fib_update f) W He) as Hpay.
  assert (Hg : ∀ m, fib_get (alter_fib f a t) m = if decide (m = e_prefix e) then Some (f x) else fib_get t m).
  { intros m. unfold fib_get, alter_fib. rewrite Hpay. case_decide; [|done]. simpl. by rewrite Hx. }
  split_and!; [|done|].
  - split; [by apply alter_entry_wf| | |].
    + intros b g Hb. unfold alter_fib in Hb. rewrite lookup_alter_entry in Hb. case_decide; [|by eapply P].
      apply fmap_Some in Hb as (g0 & Hg0 & ->). pose proof (P _ _ Hg0) as Hem. unfold isEmpty in *. simpl.
      destruct (e_fib g0); done.
    + rewrite I. unfold fib_size. do 3 f_equal. symmetry.
      apply payload_names_ext; [done|by apply alter_entry_wf|done|]. intros m. unfold alter_fib. rewrite Hpay. case_decide as Em; [|done].
      subst m. rewrite (payload_at_entry t a e W He). unfold has_fib. simpl. by destruct (e_fib e).
    + intros m y. rewrite Hg. case_decide as Em; [|apply Eq]. intros [= <-]. split; [|done]. rewrite Hp.
      apply (Eq m x). rewrite Em. by rewrite (fib_get_entry t a e).
  - intros m. unfold alter_fib. rewrite Hpay. case_decide as Em; [|done]. subst m. by rewrite (payload_at_entry t a e).
Qed.
End fib_pits.

(** ** Face table *)

Section facetable.
Context `{WireEncoding, NameWire, NameOrder, !NameSuccessor} {S E : Type} `{CsPolicy S, NdnSimCs E}.
Abbreviation World := (World S E).
Abbreviation M := (M S E).

Definition FaceTable_get (id : Z) (w : World) : option face_ptr := w_faceTable w !! id.
Definition FaceTable_size (w : World) : Z := Z.of_nat (size (w_faceTable w)).

Definition handlers_of (isPITless isBridge : bool) : Handlers :=
  if isPITless then PITlessHandlers else if isBridge then BridgeHandlers else OrdinaryHandlers.

(** [face->setId], [m_faces\[faceId\] = face] and the connections; the signal
    [onAdd] has no subscriber in the forwarder. *)
Definition FaceTable_addImpl (face : face_ptr) (faceId : Z) (isPITless isBridge : bool) : M unit :=
  let* f := gets (λ w, w_faces w !! face) in
  let* f := deref f in
  modify (λ w, set_faces (<[face := face_connect (handlers_of isPITless isBridge) (face_setId faceId f)]> (w_faces w))
                 (<[faceId := face]> (w_faceTable w)) (w_lastFaceId w) w).

Definition FaceTable_add (face : face_ptr) (isPITless isBridge : bool) : M unit :=
  let* id := gets (getId face) in
  let* known := gets (λ w, bool_decide (is_Some (w_faceTable w !! id))) in
  if negb (id =? INVALID_FACEID) && known then ret tt
  else
    let* faceId := gets (λ w, w_lastFaceId w + 1) in
    modify (λ w, set_faces (w_faces w) (w_faceTable w) faceId w);;
    assertM (FACEID_RESERVED_MAX <? faceId);;
    FaceTable_addImpl face faceId isPITless isBridge.

Definition FaceTable_addReserved (face : face_ptr) (faceId : Z) : M unit :=
  let* id := gets (getId face) in
  assertM (id =? INVALID_FACEID);;
  let* known := gets (λ w, bool_decide (is_Some (w_faceTable w !! id))) in
  assertM (negb known);;
  assertM (faceId <=? FACEID_RESERVED_MAX);;
  FaceTable_addImpl face faceId false false.

(** An operation of the FIB on the name tree *)
Definition modify_fib {A} (f : NameTree → Z → A * (NameTree * Z)) : M A :=
  λ w, let '(a, (t, n)) := f (pit_nt (w_pit w)) (w_fibItems w) in
       Some (a, set_fibItems n (set_pit (set_nt t (w_pit w)) w)).

Definition FaceTable_remove (face : face_ptr) : M unit :=
  let* faceId := gets (getId face) in
  modify (λ w, set_faces (alter (face_setId INVALID_FACEID) face (w_faces w)) (delete faceId (w_faceTable w)) (w_lastFaceId w) w);;
  modify_fib (λ t n, (tt, Fib_removeNextHopFromAllEntries t n face)).

(** *** Invariants *)

(** The table maps the identifier of each of its faces to it; other faces have none. *)
Record faces_ok (w : World) : Prop := {
  fo_id id face : w_faceTable w !! id = Some face → id ≠ INVALID_FACEID ∧ ∃ f, w_faces w !! face = Some f ∧ face_id f = id;
  fo_known face f : w_faces w !! face = Some f → face_id f ≠ INVALID_FACEID → w_faceTable w !! face_id f = Some face;
  fo_next id : is_Some (w_faceTable w !! id) → id <= w_lastFaceId w;
  fo_last : FACEID_RESERVED_MAX <= w_lastFaceId w
}.

(** The FIB is well formed, and its next hops are faces of the table. *)
Record links_ok (w : World) : Prop := {
  lo_fib : fib_wf (pit_nt (w_pit w)) (w_fibItems w);
  lo_nextHop n e h : fib_get (pit_nt (w_pit w)) n = Some e → h ∈ fe_nextHops e →
    FaceTable_get (getId (nh_face h) w) w = Some (nh_face h)
}.

Lemma face_in_table (w : World) id face : faces_ok w → FaceTable_get id w = Some face → getId face w = id.
Proof. intros F Hg. destruct (fo_id _ F id face Hg) as (_ & f & Hf & Ei). unfold getId. by rewrite Hf. Qed.

Lemma faces_ok_unique (w : World) id1 id2 face : faces_ok w →
  FaceTable_get id1 w = Some face → FaceTable_get id2 w = Some face → id1 = id2.
Proof. intros F H1' H2'. by rewrite <-(face_in_table w id1 face), <-(face_in_table w id2 face). Qed.
End facetable.

Section facetable_spec.
Context `{WireEncoding, NameWire, NameOrder, !NameSuccessor} {S E : Type} `{CsPolicyLaws S, NdnSimCs E}.
Abbreviation World := (World S E).
Abbreviation M := (M S E).

(** A change of the FIB leaves the forwarder's invariant. *)
Definition with_fib (t : NameTree) (n : Z) (w : World) : World := set_fibItems n (set_pit (set_nt t (w_pit w)) w).

Lemma with_fib_ok (w : World) t n : fwd_ok w → fib_wf t n → same_pits (nt_heap (pit_nt (w_pit w))) (nt_heap t) →
  (∀ m, non_fib (payload_at t m) = non_fib (payload_at (pit_nt (w_pit w)) m)) → fwd_ok (with_fib t n w).
Proof.
  intros [[A B C D F] Hc] Hw Hs Hn. split; [|exact Hc]. split; [|exact B|exact C|exact D|exact F].
  eapply sc_wf_tables; [exact A|apply set_nt_wf; [apply A|apply Hw|apply Hw|exact Hs]|].
  intros m. pose proof (Hn m) as E'. by injection E'.
Qed.

Lemma set_faces_ok (w : World) f t l : fwd_ok w → fwd_ok (set_faces f t l w).
Proof. intros [[A B C D F] Hc]. split; [by split|exact Hc]. Qed.

Lemma getId_other (w : World) f t l face g x : g ≠ face → f = <[face := x]> (w_faces w) → getId g (set_faces f t l w) = getId g w.
Proof. intros Hg ->. unfold getId. simpl. by rewrite lookup_insert_ne. Qed.

(** *** [add] *)

Lemma addImpl_ok (w : World) face f id a b : faces_ok w → links_ok w → w_faces w !! face = Some f →
  FaceTable_get (face_id f) w ≠ Some face → w_faceTable w !! id = None → id ≠ INVALID_FACEID →
  id <= w_lastFaceId w →
  runs (FaceTable_addImpl face id a b) w (λ _ w', faces_ok w' ∧ links_ok w' ∧
    w_faceTable w' = <[id := face]> (w_faceTable w) ∧ getId face w' = id ∧ (fwd_ok w → fwd_ok w') ∧ w_lastFaceId w' = w_lastFaceId w ∧
    w_faces w' = <[face := face_connect (handlers_of a b) (face_setId id f)]> (w_faces w)).
Proof.
  intros F L Hf Hnot Hid Hinv Hlast. unfold FaceTable_addImpl. run_steps. eapply runs_deref; [exact Hf|]. run_steps.
  set (w' := set_faces _ _ _ w).
  assert (Hne : ∀ g j, w_faceTable w !! j = Some g → g ≠ face).
  { intros g j Hj ->. destruct (fo_id _ F j face Hj) as (_ & f' & Hf' & Ej). assert (f' = f) as -> by congruence.
    subst j. done. }
  assert (Hg : ∀ g, g ≠ face → getId g w' = getId g w) by (intros g Hg; by apply (getId_other w _ _ _ face g _ Hg eq_refl)).
  split_and!; [| |done| |apply set_faces_ok|done|done].
  - split; simpl.
    + intros j g. rewrite lookup_insert_Some. intros [[<- <-]|[Hj Hg']].
      * split; [done|]. eexists. split; [apply lookup_insert_eq|]. by destruct a, b.
      * destruct (fo_id _ F j g Hg') as (? & x & Hx & Ex). split; [done|]. exists x. split; [|done].
        rewrite lookup_insert_ne; [done|]. intros <-. by destruct (Hne _ _ Hg').
    + intros g x. rewrite lookup_insert_Some. intros [[<- <-]|[Hg' Hx]] Hx'.
      * rewrite lookup_insert_Some. left. by destruct a, b.
      * rewrite lookup_insert_ne; [by apply (fo_known _ F)|]. intros Ej.
        pose proof (fo_known _ F g x Hx Hx') as Hk. by rewrite <-Ej, Hid in Hk.
    + intros j Hj. destruct (decide (j = id)) as [->|]; [done|]. rewrite lookup_insert_ne in Hj by done. by apply (fo_next _ F).
    + apply (fo_last _ F).
  - split; [apply (lo_fib _ L)|]. intros n e h Hn Hh. pose proof (lo_nextHop _ L n e h Hn Hh) as Hl.
    rewrite Hg by (by eapply Hne). unfold FaceTable_get. simpl. rewrite lookup_insert_ne; [exact Hl|].
    intros Ej. unfold FaceTable_get in Hl. rewrite <-Ej, Hid in Hl. done.
  - unfold getId. simpl. rewrite lookup_insert_eq. by destruct a, b.
Qed.

(** A new face gets the next identifier, a face of the table is left alone. *)
Lemma FaceTable_add_spec (w : World) face f a b : faces_ok w → links_ok w → w_faces w !! face = Some f →
  runs (FaceTable_add face a b) w (λ _ w', faces_ok w' ∧ links_ok w' ∧ (fwd_ok w → fwd_ok w') ∧
    if decide (FaceTable_get (getId face w) w = Some face) then w' = w
    else getId face w' = w_lastFaceId w + 1 ∧ w_lastFaceId w' = w_lastFaceId w + 1 ∧
         w_faceTable w' = <[w_lastFaceId w + 1 := face]> (w_faceTable w) ∧
         w_faces w' = <[face := face_connect (handlers_of a b) (face_setId (w_lastFaceId w + 1) f)]> (w_faces w)).
Proof.
  intros F L Hf. unfold FaceTable_add. run_steps.
  assert (Eid : getId face w = face_id f) by (unfold getId; by rewrite Hf). rewrite Eid. unfold FaceTable_get.
  destruct (decide (w_faceTable w !! face_id f = Some face)) as [Hin|Hout].
  - destruct (fo_id _ F _ _ Hin) as [Hinv _]. rewrite (proj2 (Z.eqb_neq _ _)) by done.
    rewrite Hin, bool_decide_eq_true_2 by eauto. simpl. run_steps. by split_and!.
  - assert (Ei : face_id f = INVALID_FACEID).
    { destruct (decide (face_id f = INVALID_FACEID)); [done|]. destruct Hout. by apply (fo_known _ F). }
    rewrite Ei. simpl. run_steps. pose proof (fo_last _ F) as Hl. eapply runs_assert; [by apply Z.ltb_lt; lia|]. cbv beta.
    set (w1 := set_faces _ _ _ w).
    assert (F1 : faces_ok w1).
    { split; [apply (fo_id _ F)|apply (fo_known _ F)| |simpl; lia]. intros j Hj. pose proof (fo_next _ F j Hj). simpl. lia. }
    assert (L1 : links_ok w1) by (split; [apply (lo_fib _ L)|apply (lo_nextHop _ L)]).
    eapply runs_mono; [apply (addImpl_ok w1 face f (w_lastFaceId w + 1) a b F1 L1 Hf)|].
    + exact Hout.
    + simpl. apply eq_None_not_Some. intros Hs. pose proof (fo_next _ F _ Hs). lia.
    + unfold INVALID_FACEID, FACEID_RESERVED_MAX in *. lia.
    + simpl. lia.
    + intros [] w' (F' & L' & Et & Eg & Ho & El & Ef). simpl in *. split_and!; [done|done| |done|done|done|done].
      intros Hw. apply Ho. by apply set_faces_ok.
Qed.

(** *** [remove] *)

Lemma erase_nextHop_other face l h : NoDup (nh_face <$> l) → h ∈ erase_nextHop face l → h ∈ l ∧ nh_face h ≠ face.
Proof. intros Hnd Hh. destruct h as [g d]. apply erase_nextHop_in in Hh as [? ?]; done. Qed.

(** The face has no identifier any more, and is in no FIB entry. *)
Lemma FaceTable_remove_spec (w : World) face : faces_ok w → links_ok w → fwd_ok w →
  FaceTable_get (getId face w) w = Some face →
  runs (FaceTable_remove face) w (λ _ w', faces_ok w' ∧ links_ok w' ∧ fwd_ok w' ∧
    getId face w' = INVALID_FACEID ∧ w_faceTable w' = delete (getId face w) (w_faceTable w) ∧
    w_faces w' = alter (face_setId INVALID_FACEID) face (w_faces w) ∧
    ∀ n, fib_get (pit_nt (w_pit w')) n = e ← fib_get (pit_nt (w_pit w)) n; drop_face face e).
Proof.
  intros F L Ho Hin. destruct (fo_id _ F _ _ Hin) as (Hinv & f & Hf & Ef). unfold FaceTable_remove. run_steps.
  set (id := getId face w) in *. set (w1 := set_faces _ _ _ w).
  pose proof (removeNextHopFromAllEntries_spec _ _ face (lo_fib _ L)) as Hs.
  pose proof (removeNextHopFromAllEntries_pits _ _ face (lo_fib _ L)) as Hp.
  exists tt. unfold modify_fib. simpl. destruct (Fib_removeNextHopFromAllEntries _ _ _) as [t n] eqn:Et.
  destruct Hs as (Hw & Hg & Hn). eexists. split; [done|]. change (set_fibItems n _) with (with_fib t n w1).
  assert (Hid : ∀ g, g ≠ face → getId g w1 = getId g w) by (intros g Hg'; unfold getId; simpl; by rewrite lookup_alter_ne).
  split_and!; [| | | |done|done|done].
  - split; simpl; [| | |apply (fo_last _ F)].
    + intros j g [Hj Hgj]%lookup_delete_Some. destruct (fo_id _ F j g Hgj) as (? & x & Hx & Ex). split; [done|]. exists x.
      rewrite lookup_alter_ne; [done|]. intros <-. assert (x = f) as -> by congruence. congruence.
    + intros g x [(-> & y & Hy & ->)|[Hg' Hx]]%lookup_alter_Some Hx'; [done|].
      rewrite lookup_delete_ne; [by apply (fo_known _ F)|]. intros Ej.
      pose proof (fo_known _ F g x Hx Hx') as Hk. unfold FaceTable_get in Hin. rewrite <-Ej, Hin in Hk. congruence.
    + intros j [g [_ Hj]%lookup_delete_Some]. apply (fo_next _ F). eauto.
  - split; [done|]. intros m e h. simpl. rewrite Hg. intros (x & Hx & Hd)%bind_Some Hh. unfold drop_face in Hd.
    destruct (FibEntry_hasNextHops (FibEntry_removeNextHop x face)); [|done]. injection Hd as <-.
    destruct (fib_entries _ _ (lo_fib _ L) m x Hx) as [_ [Hnd _]]. destruct (erase_nextHop_other face _ h Hnd Hh) as [Hh' Hne].
    pose proof (lo_nextHop _ L m x h Hx Hh') as Hl. change (getId (nh_face h) (with_fib t n w1)) with (getId (nh_face h) w1).
    rewrite Hid by done. unfold FaceTable_get. simpl. rewrite lookup_delete_ne; [done|].
    intros Ej. rewrite <-Ej in Hl. unfold FaceTable_get in *. rewrite Hin in Hl. congruence.
  - by apply with_fib_ok; [apply set_faces_ok|..].
  - unfold getId. simpl. by rewrite lookup_alter_eq, Hf.
Qed.
(** The daemon between its steps *)
Record daemon_ok (w : World) : Prop := {
  dm_fwd : fwd_ok w;
  dm_faces : faces_ok w;
  dm_links : links_ok w
}.

Lemma with_fib_daemon (w : World) t n : daemon_ok w → same_pits (nt_heap (pit_nt (w_pit w))) (nt_heap t) → fib_wf t n →
  (∀ m, non_fib (payload_at t m) = non_fib (payload_at (pit_nt (w_pit w)) m)) →
  (∀ m e h, fib_get t m = Some e → h ∈ fe_nextHops e → FaceTable_get (getId (nh_face h) w) w = Some (nh_face h)) →
  daemon_ok (with_fib t n w).
Proof.
  intros [Ho F L] Hs Hw Hn Hl. split; [by apply with_fib_ok|by destruct F|]. by split.
Qed.
End facetable_spec.
