(* ===== verification/Managers.v ===== *)
(** * Management of FIB and strategies: [daemon/mgmt/fib-manager.cpp],
      [daemon/mgmt/strategy-choice-manager.cpp], [daemon/mgmt/manager-base.cpp]

    A manager receives command Interests, has them validated, and changes a
    table.  Signatures, the encoding of parameters and the checks of
    [ndn::nfd::ControlCommand] are ndn-cxx's ([ControlCommands]); a response is
    its code and, on success, the parameters it carries back. *)

From Stdlib Require Import Ascii String.
From S2P Require Import Prelude CityHash Packets FibEntry NameTree NameTreeFacts Fib PitEntry Pit StrategyChoice DeadNonceList ContentStore World Forwarder ForwarderInv ForwarderSpec FaceTable.
Open Scope pipeline_scope.

(** ** Control commands (ndn-cxx) *)

Record ControlParameters := mkControlParameters {
  cp_name : option Name;
  cp_faceId : option Z;                       (* uint64_t *)
  cp_uri : option string;
  cp_localControlFeature : option Z;
  cp_origin : option Z;
  cp_cost : option Z;                         (* uint64_t *)
  cp_flags : option Z;
  cp_strategy : option Name;
  cp_expirationPeriod : option Z              (* milliseconds *)
}.
Definition setFaceId (id : Z) (p : ControlParameters) : ControlParameters :=
  mkControlParameters (cp_name p) (Some id) (cp_uri p) (cp_localControlFeature p) (cp_origin p) (cp_cost p)
    (cp_flags p) (cp_strategy p) (cp_expirationPeriod p).
Definition setParametersStrategy (s : Name) (p : ControlParameters) : ControlParameters :=
  mkControlParameters (cp_name p) (cp_faceId p) (cp_uri p) (cp_localControlFeature p) (cp_origin p) (cp_cost p)
    (cp_flags p) (Some s) (cp_expirationPeriod p).

Inductive Command := FibAddNextHop | FibRemoveNextHop | StrategyChoiceSet | StrategyChoiceUnset.

Class ControlCommands := {
  wireDecode : Component → option ControlParameters;           (* [None]: it throws *)
  validateRequest : Command → ControlParameters → bool;        (* [false]: it throws *)
  applyDefaultsToRequest : Command → ControlParameters → ControlParameters
}.

(** The fields the commands require and their defaults *)
Class ControlCommandsLaws `{ControlCommands} := {
  fib_add_fields p : validateRequest FibAddNextHop p = true →
    let q := applyDefaultsToRequest FibAddNextHop p in
    is_Some (cp_name q) ∧ is_Some (cp_faceId q) ∧ is_Some (cp_cost q);
  fib_remove_fields p : validateRequest FibRemoveNextHop p = true →
    let q := applyDefaultsToRequest FibRemoveNextHop p in is_Some (cp_name q) ∧ is_Some (cp_faceId q);
  strategy_set_fields p : validateRequest StrategyChoiceSet p = true →
    let q := applyDefaultsToRequest StrategyChoiceSet p in is_Some (cp_name q) ∧ is_Some (cp_strategy q);
  strategy_unset_fields p : validateRequest StrategyChoiceUnset p = true →
    let q := applyDefaultsToRequest StrategyChoiceUnset p in ∃ n, cp_name q = Some n ∧ n ≠ []
}.

Record ControlResponse := mkControlResponse { cr_code : Z; cr_body : option ControlParameters }.

(** What a request handler does *)
Inductive RequestAction :=
| Respond (code : Z)                          (* [sendResponse] *)
| Validate                                    (* the validator goes on with [onValidated...] *)
| Publish.                                    (* the dataset is published *)

Section managers.
Context `{ControlCommands, WireEncoding, NameWire, NameOrder, !NameSuccessor} {S E : Type} `{CsPolicy S, NdnSimCs E}.
Context (sort : list NextHop → list NextHop).
Abbreviation World := (World S E).
Abbreviation M := (M S E).

(** ** [ManagerBase] *)

Definition extractParameters (parameterComponent : Component) : option ControlParameters := wireDecode parameterComponent.

Definition validateParameters (command : Command) (parameters : ControlParameters) : option ControlParameters :=
  if validateRequest command parameters then Some (applyDefaultsToRequest command parameters) else None.

(** ** [FibManager] *)

Definition Fib_COMMAND_PREFIX : Name := [Generic "localhost"; Generic "nfd"; Generic "fib"].
Definition Fib_COMMAND_UNSIGNED_NCOMPS : nat := length Fib_COMMAND_PREFIX + 1 + 1.
Definition Fib_COMMAND_SIGNED_NCOMPS : nat := Fib_COMMAND_UNSIGNED_NCOMPS + 4.
Definition Fib_LIST_COMMAND_PREFIX : Name := Fib_COMMAND_PREFIX ++ [Generic "list"].

Definition FibManager_listEntries (command : Name) : RequestAction :=
  if (length command <? length Fib_LIST_COMMAND_PREFIX)%nat || negb (isPrefixOf Fib_LIST_COMMAND_PREFIX command)
  then Respond 400 else Publish.

Definition FibManager_onFibRequest (command : Name) : RequestAction :=
  let commandNComps := length command in
  match command !! length Fib_COMMAND_PREFIX with
  | None => Respond 400
  | Some verb =>
      if bool_decide (verb = Generic "list") then FibManager_listEntries command
      else if (Fib_COMMAND_UNSIGNED_NCOMPS <=? commandNComps)%nat && (commandNComps <? Fib_COMMAND_SIGNED_NCOMPS)%nat
      then Respond 401
      else if (commandNComps <? Fib_COMMAND_SIGNED_NCOMPS)%nat || negb (isPrefixOf Fib_COMMAND_PREFIX command)
      then Respond 400
      else Validate
  end.

Definition FibManager_addNextHop (parameters : ControlParameters) : M ControlResponse :=
  match validateParameters FibAddNextHop parameters with
  | None => ret (mkControlResponse 400 None)
  | Some parameters =>
      let* prefix := deref (cp_name parameters) in
      let* faceId := deref (cp_faceId parameters) in
      let* cost := deref (cp_cost parameters) in
      let* nextHopFace := gets (FaceTable_get faceId) in
      match nextHopFace with
      | Some nextHopFace =>
          let* (entry, _) := modify_fib (λ t n, Fib_insert t n prefix) in
          modify_fib (λ t n, (tt, (alter_fib (λ e, FibEntry_addNextHop sort e nextHopFace cost) entry t, n)));;
          ret (mkControlResponse 200 (Some parameters))
      | None => ret (mkControlResponse 410 None)
      end
  end.

Definition FibManager_removeNextHop (parameters : ControlParameters) : M ControlResponse :=
  match validateParameters FibRemoveNextHop parameters with
  | None => ret (mkControlResponse 400 None)
  | Some parameters =>
      let* prefix := deref (cp_name parameters) in
      let* faceId := deref (cp_faceId parameters) in
      let* faceToRemove := gets (FaceTable_get faceId) in
      match faceToRemove with
      | Some faceToRemove =>
          let* entry := gets (λ w, let t := pit_nt (w_pit w) in
            nte ← NameTree_findExactMatch t prefix; _ ← getFibEntry t nte; Some nte) in
          match entry with
          | Some entry =>
              modify_fib (λ t n, (tt, (alter_fib (λ e, FibEntry_removeNextHop e faceToRemove) entry t, n)));;
              let* lacks := gets (λ w, lacksNextHops (pit_nt (w_pit w)) entry) in
              when lacks (modify_fib (λ t n, (tt, Fib_erase_nte t n entry)))
          | None => ret tt
          end
      | None => ret tt
      end;;
      ret (mkControlResponse 200 (Some parameters))
  end.

Definition FibManager_onValidatedFibRequest (request : Interest) : M ControlResponse :=
  let command := i_name request in
  let* verb := deref (command !! length Fib_COMMAND_PREFIX) in
  let* parameterComponent := deref (command !! (length Fib_COMMAND_PREFIX + 1)%nat) in
  let processor :=
    if bool_decide (verb = Generic "add-nexthop") then Some FibManager_addNextHop
    else if bool_decide (verb = Generic "remove-nexthop") then Some FibManager_removeNextHop
    else None in
  match processor with
  | Some processor =>
      match extractParameters parameterComponent with
      | None => ret (mkControlResponse 400 None)
      | Some parameters =>
          let isSelfRegistration := match cp_faceId parameters with None => true | Some id => id =? 0 end in
          processor (if isSelfRegistration then setFaceId (i_incomingFaceId request) parameters else parameters)
      end
  | None => ret (mkControlResponse 501 None)
  end.

(** ** [StrategyChoiceManager] *)

Definition Sc_COMMAND_PREFIX : Name := [Generic "localhost"; Generic "nfd"; Generic "strategy-choice"].
Definition Sc_COMMAND_UNSIGNED_NCOMPS : nat := length Sc_COMMAND_PREFIX + 1 + 1.
Definition Sc_COMMAND_SIGNED_NCOMPS : nat := Sc_COMMAND_UNSIGNED_NCOMPS + 4.
Definition LIST_DATASET_PREFIX : Name := Sc_COMMAND_PREFIX ++ [Generic "list"].

Definition StrategyChoiceManager_onStrategyChoiceRequest (command : Name) : RequestAction :=
  let commandNComps := length command in
  if bool_decide (command = LIST_DATASET_PREFIX) then Publish
  else if (commandNComps <=? length Sc_COMMAND_PREFIX)%nat then Respond 400
  else if (Sc_COMMAND_UNSIGNED_NCOMPS <=? commandNComps)%nat && (commandNComps <? Sc_COMMAND_SIGNED_NCOMPS)%nat
  then Respond 401
  else if (commandNComps <? Sc_COMMAND_SIGNED_NCOMPS)%nat || negb (isPrefixOf Sc_COMMAND_PREFIX command)
  then Respond 400
  else Validate.

(** [m_strategyChoice.insert], [m_strategyChoice.erase] *)
Definition insertStrategy (prefix strategy : Name) : M bool :=
  let* r := gets (λ w, StrategyChoice_insert (w_pit w) (w_strategies w) prefix strategy) in
  let* (ok, (P, c)) := deref r in
  modify (λ w, set_strategies c (set_pit P w));;
  ret ok.
Definition eraseStrategy (prefix : Name) : M unit :=
  let* r := gets (λ w, StrategyChoice_erase (w_pit w) (w_strategies w) prefix) in
  let* (P, c) := deref r in
  modify (λ w, set_strategies c (set_pit P w)).

Definition StrategyChoiceManager_setStrategy (parameters : ControlParameters) : M ControlResponse :=
  match validateParameters StrategyChoiceSet parameters with
  | None => ret (mkControlResponse 400 None)
  | Some parameters =>
      let* prefix := deref (cp_name parameters) in
      let* selectedStrategy := deref (cp_strategy parameters) in
      let* known := gets (λ w, StrategyChoice_hasStrategy (w_strategies w) selectedStrategy false) in
      if negb known then ret (mkControlResponse 504 None)
      else
        let* ok := insertStrategy prefix selectedStrategy in
        if ok then
          let* currentStrategyChoice := gets (λ w, StrategyChoice_get (pit_nt (w_pit w)) prefix) in
          assertM (currentStrategyChoice.1);;
          ret (mkControlResponse 200 (Some (setParametersStrategy (currentStrategyChoice.2) parameters)))
        else ret (mkControlResponse 405 None)
  end.

Definition StrategyChoiceManager_unsetStrategy (parameters : ControlParameters) : M ControlResponse :=
  match validateParameters StrategyChoiceUnset parameters with
  | None => ret (mkControlResponse (if bool_decide (cp_name parameters = Some []) then 403 else 400) None)
  | Some parameters =>
      let* prefix := deref (cp_name parameters) in
      eraseStrategy prefix;;
      ret (mkControlResponse 200 (Some parameters))
  end.

Definition StrategyChoiceManager_onValidatedStrategyChoiceRequest (request : Interest) : M ControlResponse :=
  let command := i_name request in
  let* parameterComponent := deref (command !! (length Sc_COMMAND_PREFIX + 1)%nat) in
  match extractParameters parameterComponent with
  | None => ret (mkControlResponse 400 None)
  | Some parameters =>
      let* verb := deref (command !! length Sc_COMMAND_PREFIX) in
      if bool_decide (verb = Generic "set") then StrategyChoiceManager_setStrategy parameters
      else if bool_decide (verb = Generic "unset") then StrategyChoiceManager_unsetStrategy parameters
      else ret (mkControlResponse 501 None)
  end.
End managers.

(** ** What the commands do *)

Section managers_spec.
Context `{ControlCommandsLaws, WireEncoding, NameWire, NameOrder, !NameSuccessor} {S E : Type} `{CsPolicyLaws S, NdnSimCs E}.
Context (sort : list NextHop → list NextHop) `{!StdSort sort}.
Abbreviation World := (World S E).
Abbreviation M := (M S E).

Lemma runs_modify_fib {A} (f : NameTree → Z → A * (NameTree * Z)) (w : World) a t n (Q : A → World → Prop) :
  f (pit_nt (w_pit w)) (w_fibItems w) = (a, (t, n)) → Q a (with_fib t n w) → runs (modify_fib f) w Q.
Proof. intros Hf HQ. exists a, (with_fib t n w). split; [|done]. unfold modify_fib. by rewrite Hf. Qed.

Lemma modify_fib_faces {A} (f : NameTree → Z → A * (NameTree * Z)) : preserves (S := S) (E := E) w_faces (modify_fib f).
Proof. intros w a w'. unfold modify_fib. destruct (f _ _) as [b [t n]]. by intros [= <- <-]. Qed.
#[local] Hint Resolve modify_fib_faces : preserves.

Lemma FibManager_faces r : preserves (S := S) (E := E) w_faces (FibManager_onValidatedFibRequest sort r).
Proof.
  assert (Ha : ∀ p, preserves (S := S) (E := E) w_faces (FibManager_addNextHop sort p)).
  { intros p. unfold FibManager_addNextHop. solve_preserves. }
  assert (Hr : ∀ p, preserves (S := S) (E := E) w_faces (FibManager_removeNextHop p)).
  { intros p. unfold FibManager_removeNextHop. solve_preserves. }
  unfold FibManager_onValidatedFibRequest. do 2 (apply preserves_bind; [apply preserves_deref|intros ?]).
  do 2 (case_bool_decide; [solve_preserves|]). solve_preserves.
Qed.

Lemma StrategyChoiceManager_faces r : preserves (S := S) (E := E) w_faces (StrategyChoiceManager_onValidatedStrategyChoiceRequest r).
Proof.
  unfold StrategyChoiceManager_onValidatedStrategyChoiceRequest, StrategyChoiceManager_setStrategy,
    StrategyChoiceManager_unsetStrategy, insertStrategy, eraseStrategy. solve_preserves.
Qed.

(** The FIB after [add-nexthop] *)
Definition added (t : NameTree) (prefix : Name) (face : face_ptr) (cost : Z) : FibEntry :=
  FibEntry_addNextHop sort (default (FibEntry_new prefix) (fib_get t prefix)) face cost.

Lemma FibManager_addNextHop_spec (w : World) p : daemon_ok w →
  (∀ n, cp_name (applyDefaultsToRequest FibAddNextHop p) = Some n → room (pit_nt (w_pit w)) n) →
  runs (FibManager_addNextHop sort p) w (λ r w', daemon_ok w' ∧
    match validateParameters FibAddNextHop p with
    | None => cr_code r = 400 ∧ w' = w
    | Some q => ∃ prefix id cost, cp_name q = Some prefix ∧ cp_faceId q = Some id ∧ cp_cost q = Some cost ∧
        match FaceTable_get id w with
        | None => cr_code r = 410 ∧ w' = w
        | Some face => r = mkControlResponse 200 (Some q) ∧
            ∀ n, fib_get (pit_nt (w_pit w')) n =
              if decide (n = prefix) then Some (added (pit_nt (w_pit w)) prefix face cost) else fib_get (pit_nt (w_pit w)) n
        end
    end).
Proof.
  intros Hd Hr. unfold FibManager_addNextHop, validateParameters.
  destruct (validateRequest FibAddNextHop p) eqn:Ev; [|by run_steps].
  destruct (fib_add_fields p Ev) as ([prefix Ep] & [id Ei] & [cost Ec]). rewrite Ep, Ei, Ec. run_steps.
  eapply runs_deref; [done|]. run_steps. eapply runs_deref; [done|]. run_steps. eapply runs_deref; [done|]. run_steps.
  destruct (FaceTable_get id w) as [face|] eqn:Ef; [|run_steps; split; [done|]; exists prefix, id, cost; by rewrite Ef].
  destruct Hd as [Ho F L]. specialize (Hr prefix Ep). pose proof (fib_tree _ _ (lo_fib _ L)) as W.
  run_steps. destruct (Fib_insert (pit_nt (w_pit w)) (w_fibItems w) prefix) as [[nte isNew] [t1 n1]] eqn:Ei1.
  destruct (Fib_insert_spec _ _ _ _ _ _ _ (lo_fib _ L) Hr Ei1) as (Hw1 & _ & (e & He & Hn) & Hg1 & Hq1).
  pose proof (Fib_insert_pits _ _ _ _ _ _ _ W Hr Ei1) as Hp1.
  eapply runs_modify_fib; [exact Ei1|]. run_steps.
  set (x := default (FibEntry_new prefix) (fib_get (pit_nt (w_pit w)) prefix)) in *.
  assert (Hx : fib_get t1 prefix = Some x) by (by rewrite Hg1, decide_True).
  assert (Hex : e_fib e = Some x) by (rewrite <-(fib_get_entry t1 nte e), Hn by (done || apply Hw1); done).
  destruct (fib_entries _ _ Hw1 _ _ Hx) as [Hpre Hok].
  destruct (alter_fib_spec t1 n1 (λ e, FibEntry_addNextHop sort e face cost) nte e x Hw1 He Hex eq_refl) as (Hw2 & Hg2 & Hq2);
    [by apply addNextHop_ok|].
  eapply runs_modify_fib; [done|]. run_steps. simpl.
  set (t2 := alter_fib _ nte t1) in *. change (with_fib t2 n1 (with_fib t1 n1 w)) with (with_fib t2 n1 w).
  assert (Hg : ∀ m, fib_get t2 m = if decide (m = prefix) then Some (added (pit_nt (w_pit w)) prefix face cost)
    else fib_get (pit_nt (w_pit w)) m).
  { intros m. rewrite Hg2, Hn. case_decide; [done|]. by rewrite Hg1, decide_False. }
  split.
  2: { exists prefix, id, cost. rewrite Ef. split_and!; [done..|]. exact Hg. }
  apply with_fib_daemon; [by split| |done| |].
  - eapply same_pits_trans; [exact Hp1|]. apply alter_fib_pits.
  - intros m. by rewrite Hq2, Hq1.
  - intros m y h. rewrite Hg. case_decide as Em; [|apply (lo_nextHop _ L)]. intros [= <-] Hh.
    assert (Hin : nh_face h ∈ nh_face <$> fe_nextHops (added (pit_nt (w_pit w)) prefix face cost)) by (by apply list_elem_of_fmap_2).
    apply (addNextHop_faces sort) in Hin as [->|Hin].
    + by rewrite (face_in_table w id face F Ef).
    + apply list_elem_of_fmap in Hin as (h0 & -> & Hh0). subst x. destruct (fib_get (pit_nt (w_pit w)) prefix) as [y|] eqn:Ey; simpl in Hh0.
      * by apply (lo_nextHop _ L prefix y).
      * by apply elem_of_nil in Hh0.
Qed.
(** Removing a next hop from the entry at [nte], and the entry when it was the last *)
Lemma remove_from_entry (w : World) face nte e x : daemon_ok w → nt_heap (pit_nt (w_pit w)) !! nte = Some e → e_fib e = Some x →
  runs (modify_fib (λ t n, (tt, (alter_fib (λ e, FibEntry_removeNextHop e face) nte t, n)));;
        let* lacks := gets (λ w, lacksNextHops (pit_nt (w_pit w)) nte) in
        when lacks (modify_fib (λ t n, (tt, Fib_erase_nte t n nte)))) w (λ _ w', daemon_ok w' ∧
    ∀ n, fib_get (pit_nt (w_pit w')) n = if decide (n = e_prefix e) then drop_face face x else fib_get (pit_nt (w_pit w)) n).
Proof.
  intros [Ho F L] He Hx. pose proof (lo_fib _ L) as Hw. pose proof (fib_tree _ _ Hw) as W. run_steps.
  assert (Hfx : fib_get (pit_nt (w_pit w)) (e_prefix e) = Some x) by (by rewrite (fib_get_entry _ nte e)).
  destruct (fib_entries _ _ Hw _ _ Hfx) as [_ Hok].
  destruct (alter_fib_spec _ _ (λ e, FibEntry_removeNextHop e face) nte e x Hw He Hx eq_refl) as (Hw1 & Hg1 & Hq1);
    [by apply removeNextHop_ok|].
  eapply runs_modify_fib; [done|]. run_steps. set (t1 := alter_fib _ nte _) in *. set (x1 := FibEntry_removeNextHop x face) in *.
  assert (He1 : nt_heap t1 !! nte = Some (setFibEntry (Some x1) e)).
  { unfold t1, alter_fib. rewrite lookup_alter_entry, decide_True, He by done. simpl. by rewrite Hx. }
  assert (Hs1 : same_pits (nt_heap (pit_nt (w_pit w))) (nt_heap t1)) by apply alter_fib_pits.
  assert (Hl1 : ∀ m y h, fib_get t1 m = Some y → h ∈ fe_nextHops y → FaceTable_get (getId (nh_face h) w) w = Some (nh_face h)).
  { intros m y h. rewrite Hg1. case_decide as Em; [|apply (lo_nextHop _ L)]. intros [= <-] Hh.
    destruct (erase_nextHop_other face _ h (proj1 Hok) Hh) as [Hh' _]. by eapply (lo_nextHop _ L). }
  unfold lacksNextHops, getFibEntry. change (pit_nt (w_pit (with_fib t1 (w_fibItems w) w))) with t1.
  rewrite He1. simpl. unfold drop_face. fold x1.
  destruct (FibEntry_hasNextHops x1) eqn:Eh; simpl.
  - run_steps. split; [by apply with_fib_daemon|]. intros n. simpl. by rewrite Hg1.
  - pose proof (Fib_erase_nte_spec t1 (w_fibItems w) nte _ x1 Hw1 He1 eq_refl) as Hs2.
    pose proof (Fib_erase_nte_pits t1 (w_fibItems w) nte _ x1 Hw1 He1 eq_refl) as Hp2.
    destruct (Fib_erase_nte t1 (w_fibItems w) nte) as [t2 n2] eqn:Ee. destruct Hs2 as (Hw2 & Hg2 & Hq2 & _).
    eapply runs_modify_fib; [simpl; by rewrite Ee|]. change (with_fib t2 n2 (with_fib t1 (w_fibItems w) w)) with (with_fib t2 n2 w).
    assert (Hg : ∀ m, fib_get t2 m = if decide (m = e_prefix e) then None else fib_get (pit_nt (w_pit w)) m).
    { intros m. rewrite Hg2. simpl. case_decide as Em; [done|]. by rewrite Hg1, decide_False. }
    split; [|exact Hg]. apply with_fib_daemon; [by split|by eapply same_pits_trans|done|intros m; by rewrite Hq2, Hq1|].
    intros m y h Hy Hh. rewrite Hg in Hy. case_decide; [done|]. by apply (lo_nextHop _ L m y).
Qed.

Lemma FibManager_removeNextHop_spec (w : World) p : daemon_ok w →
  runs (FibManager_removeNextHop p) w (λ r w', daemon_ok w' ∧
    match validateParameters FibRemoveNextHop p with
    | None => cr_code r = 400 ∧ w' = w
    | Some q => r = mkControlResponse 200 (Some q) ∧
        ∃ prefix id, cp_name q = Some prefix ∧ cp_faceId q = Some id ∧
        ∀ n, fib_get (pit_nt (w_pit w')) n =
          match FaceTable_get id w with
          | Some face => if decide (n = prefix) then e ← fib_get (pit_nt (w_pit w)) n; drop_face face e
                         else fib_get (pit_nt (w_pit w)) n
          | None => fib_get (pit_nt (w_pit w)) n
          end
    end).
Proof.
  intros Hd. unfold FibManager_removeNextHop, validateParameters.
  destruct (validateRequest FibRemoveNextHop p) eqn:Ev; [|by run_steps].
  destruct (fib_remove_fields p Ev) as ([prefix Ep] & [id Ei]). rewrite Ep, Ei. run_steps.
  eapply runs_deref; [done|]. run_steps. eapply runs_deref; [done|]. run_steps.
  destruct (FaceTable_get id w) as [face|] eqn:Ef.
  2: { run_steps. split; [done|]. split; [done|]. exists prefix, id. by rewrite Ef. }
  pose proof (fib_tree _ _ (lo_fib _ (dm_links _ Hd))) as W. run_steps.
  destruct (NameTree_findExactMatch (pit_nt (w_pit w)) prefix) as [nte|] eqn:Em; simpl.
  - apply findExactMatch_entry in Em as (e & He & Hn); [|done]. unfold getFibEntry. rewrite He. simpl.
    pose proof (fib_get_entry _ _ _ W He) as Hg. rewrite Hn in Hg. destruct (e_fib e) as [x|] eqn:Ex; simpl.
    + eapply runs_mono; [by apply (remove_from_entry w face nte e x)|]. intros [] w' [Hd' Hg']. run_steps.
      split; [done|]. split; [done|]. exists prefix, id. rewrite Ef. split_and!; [done..|]. intros n. rewrite Hg', Hn.
      case_decide as Enp; [|done]. subst n. by rewrite Hg.
    + run_steps. split; [done|]. split; [done|]. exists prefix, id. rewrite Ef. split_and!; [done..|].
      intros n. case_decide as Enp; [|done]. subst n. by rewrite Hg.
  - run_steps. split; [done|]. split; [done|]. exists prefix, id. rewrite Ef. split_and!; [done..|].
    intros n. case_decide as Enp; [|done]. subst n. rewrite findExactMatch_None in Em by done.
    unfold fib_get. by rewrite payload_at_None.
Qed.
(** *** Strategies *)

Lemma cleared_entry (P P' : Pit) q e : same_table P P' → pit_entries P' !! q = Some e →
  ∃ e0, pit_entries P !! q = Some e0 ∧ (e = e0 ∨ e = PitEntry_clearStrategyInfo e0).
Proof.
  intros T He. destruct (st_entries _ _ T q) as [Eq|Eq]; rewrite Eq in He; [eauto|].
  apply fmap_Some in He as (e0 & He0 & ->). eauto.
Qed.

Lemma cleared_entry_old (P P' : Pit) q e0 : same_table P P' → pit_entries P !! q = Some e0 →
  ∃ e, pit_entries P' !! q = Some e ∧ (e = e0 ∨ e = PitEntry_clearStrategyInfo e0).
Proof.
  intros T He. destruct (st_entries _ _ T q) as [Eq|Eq]; rewrite He in Eq; simpl in Eq; eauto.
Qed.

Lemma clear_timers (e e0 : PitEntry) : e = e0 ∨ e = PitEntry_clearStrategyInfo e0 →
  pe_nameTreeEntry e = pe_nameTreeEntry e0 ∧ ∀ k, timer_of k e = timer_of k e0.
Proof. intros [->| ->]; (split; [done|by intros []]). Qed.

Lemma same_table_timers (P P' : Pit) sch next : same_table P P' → timers_wf (pit_entries P) sch next →
  timers_wf (pit_entries P') sch next.
Proof.
  intros T [Te Tf Tu]. split.
  - intros id t ev Hid. destruct (Te id t ev Hid) as (e0 & He0 & Hn & Ht).
    destruct (cleared_entry_old P P' _ e0 T He0) as (e & He & Hc). destruct (clear_timers e e0 Hc) as [En Et].
    exists e. by rewrite En, Et.
  - intros q e k id He Hk. destruct (cleared_entry P P' q e T He) as (e0 & He0 & Hc).
    destruct (clear_timers e e0 Hc) as [_ Et]. rewrite Et in Hk. eauto.
  - intros q1 q2 e1 e2 k l id H1' H2' T1 T2.
    destruct (cleared_entry P P' q1 e1 T H1') as (f1 & F1 & C1), (cleared_entry P P' q2 e2 T H2') as (f2 & F2 & C2).
    destruct (clear_timers e1 f1 C1) as [_ E1], (clear_timers e2 f2 C2) as [_ E2]. rewrite E1 in T1. rewrite E2 in T2. eauto.
Qed.

Lemma clear_records_ok e : records_ok e → records_ok (PitEntry_clearStrategyInfo e).
Proof. intros Hr r i Hin Hi. simpl in Hin. apply list_elem_of_fmap in Hin as (r0 & -> & Hin). exact (Hr r0 i Hin Hi). Qed.

(** A change of strategies keeps the daemon's invariant. *)
Lemma same_table_daemon (w : World) P' c' : daemon_ok w → same_table (w_pit w) P' → sc_wf P' c' →
  daemon_ok (set_strategies c' (set_pit P' w)).
Proof.
  intros [[[A B C D I] Hc] F L] T Hsc. pose proof (st_wf _ _ T) as W'. pose proof (fib_tree _ _ (lo_fib _ L)) as W.
  assert (Hg : ∀ n, fib_get (pit_nt P') n = fib_get (pit_nt (w_pit w)) n).
  { intros n. pose proof (st_non_sc _ _ T n) as E'. by injection E'. }
  split; [split|by destruct F|].
  - split; [done| |by apply (same_table_timers (w_pit w) P')|done|done].
    intros q e He. destruct (cleared_entry _ _ q e T He) as (e0 & He0 & [->| ->]); [by apply (B q)|].
    destruct (B q e0 He0). split; [by apply clearStrategyInfo_ok|by apply clear_records_ok].
  - intros q e He Hn Hr. destruct (cleared_entry _ _ q e T He) as (e0 & He0 & Hcl).
    destruct (clear_timers e e0 Hcl) as [En _]. rewrite En in Hn. apply (Hc q e0 He0 Hn).
    destruct Hcl as [->| ->]; [done|]. unfold has_records in *. simpl in Hr.
    destruct (pe_inRecords e0), (pe_outRecords e0); naive_solver.
  - split.
    + split; simpl; [apply W'|apply W'| |].
      * rewrite (fib_nItems _ _ (lo_fib _ L)). unfold fib_size. do 3 f_equal. symmetry.
        apply payload_names_ext; [done|apply W'|done|]. intros m. unfold has_fib.
        pose proof (Hg m) as Em. unfold fib_get in Em. by rewrite Em.
      * intros n e. rewrite Hg. apply (fib_entries _ _ (lo_fib _ L)).
    + intros n e h. simpl. rewrite Hg. apply (lo_nextHop _ L).
Qed.

Lemma insertStrategy_spec (w : World) prefix name strategy : daemon_ok w → room (pit_nt (w_pit w)) prefix →
  NoDup (computeHashSet prefix) → StrategyChoice_getStrategy (w_strategies w) name = Some strategy →
  runs (insertStrategy prefix name) w (λ r w', r = true ∧ daemon_ok w' ∧ switch_post (w_pit w) (w_pit w') ∧
    ∀ n, sc_get (pit_nt (w_pit w')) n =
      if decide (n = prefix) then Some (mkStrategyChoiceEntry prefix (Some strategy)) else sc_get (pit_nt (w_pit w)) n).
Proof.
  intros Hd Hr Hnd Hs. pose proof (fi_sc _ (proj1 (dm_fwd _ Hd))) as Hsc.
  destruct (StrategyChoice_insert_spec _ _ _ _ _ Hsc Hr Hnd Hs) as (P' & c' & Ei & Hw & Hsw & Hg).
  unfold insertStrategy. run_steps. eapply runs_deref; [exact Ei|]. run_steps.
  split_and!; [done|by apply same_table_daemon; [|apply Hsw|]|done|done].
Qed.

Lemma eraseStrategy_spec (w : World) prefix : daemon_ok w → prefix ≠ [] → NoDup (computeHashSet (getParentName prefix)) →
  runs (eraseStrategy prefix) w (λ _ w', daemon_ok w' ∧ switch_post (w_pit w) (w_pit w') ∧
    ∀ n, sc_get (pit_nt (w_pit w')) n = if decide (n = prefix) then None else sc_get (pit_nt (w_pit w)) n).
Proof.
  intros Hd Hne Hnd. pose proof (fi_sc _ (proj1 (dm_fwd _ Hd))) as Hsc.
  destruct (StrategyChoice_erase_spec _ _ _ Hsc Hne Hnd) as (P' & c' & Ee & Hw & Hsw & Hg).
  unfold eraseStrategy. run_steps. eapply runs_deref; [exact Ee|]. run_steps.
  split_and!; [by apply same_table_daemon; [|apply Hsw|]|done|done].
Qed.

Lemma StrategyChoice_get_spec (t : NameTree) n : nt_wf t →
  StrategyChoice_get t n = match e ← sc_get t n; sce_strategy e with Some s => (true, s) | None => (false, []) end.
Proof.
  intros W. unfold StrategyChoice_get, sc_get, payload_at. destruct (NameTree_findExactMatch t n) as [a|] eqn:Ea; [|done].
  apply findExactMatch_entry in Ea as (e & He & Hn); [|done]. unfold getStrategyChoiceEntry. simpl. rewrite He. simpl. done.
Qed.

(** *** [set] and [unset] *)
Lemma setStrategy_spec (w : World) p : daemon_ok w →
  (∀ n, cp_name (applyDefaultsToRequest StrategyChoiceSet p) = Some n → room (pit_nt (w_pit w)) n ∧ NoDup (computeHashSet n)) →
  runs (StrategyChoiceManager_setStrategy p) w (λ r w', daemon_ok w' ∧
    match validateParameters StrategyChoiceSet p with
    | None => cr_code r = 400 ∧ w' = w
    | Some q => ∃ prefix name, cp_name q = Some prefix ∧ cp_strategy q = Some name ∧
        match StrategyChoice_getStrategy (w_strategies w) name with
        | None => cr_code r = 504 ∧ w' = w
        | Some strategy => r = mkControlResponse 200 (Some (setParametersStrategy strategy q)) ∧
            switch_post (w_pit w) (w_pit w') ∧ effective (pit_nt (w_pit w')) prefix = Some strategy
        end
    end).
Proof.
  intros Hd Hr. unfold StrategyChoiceManager_setStrategy, validateParameters.
  destruct (validateRequest StrategyChoiceSet p) eqn:Ev; [|by run_steps].
  destruct (strategy_set_fields p Ev) as ([prefix Ep] & [name Es]). rewrite Ep, Es. run_steps.
  eapply runs_deref; [done|]. run_steps. eapply runs_deref; [done|]. run_steps. destruct (Hr prefix Ep) as [Hroom Hnd].
  unfold StrategyChoice_hasStrategy. destruct (StrategyChoice_getStrategy (w_strategies w) name) as [strategy|] eqn:Eg; simpl.
  2: { run_steps. split; [done|]. exists prefix, name. by rewrite Eg. }
  run_steps. eapply runs_mono; [by apply (insertStrategy_spec w prefix name strategy)|].
  intros ok w' (-> & Hd' & Hsw & Hg). run_steps. pose proof (st_wf _ _ (sw_table _ _ Hsw)) as W'.
  rewrite (StrategyChoice_get_spec _ prefix) by apply W'. rewrite Hg, decide_True by done. simpl.
  eapply runs_assert; [done|]. run_steps. split; [done|]. exists prefix, name. rewrite Eg. split_and!; [done..|].
  unfold effective. by rewrite (lpm_here _ _ (mkStrategyChoiceEntry prefix (Some strategy))) by (by rewrite Hg, decide_True).
Qed.

Lemma unsetStrategy_spec (w : World) p : daemon_ok w →
  (∀ n, cp_name (applyDefaultsToRequest StrategyChoiceUnset p) = Some n → NoDup (computeHashSet (getParentName n))) →
  runs (StrategyChoiceManager_unsetStrategy p) w (λ r w', daemon_ok w' ∧
    match validateParameters StrategyChoiceUnset p with
    | None => cr_code r = (if decide (cp_name p = Some []) then 403 else 400) ∧ w' = w
    | Some q => r = mkControlResponse 200 (Some q) ∧ ∃ prefix, cp_name q = Some prefix ∧
        switch_post (w_pit w) (w_pit w') ∧ sc_get (pit_nt (w_pit w')) prefix = None
    end).
Proof.
  intros Hd Hr. unfold StrategyChoiceManager_unsetStrategy, validateParameters.
  destruct (validateRequest StrategyChoiceUnset p) eqn:Ev.
  2: { run_steps. split; [done|]. split; [|done]. simpl. by case_bool_decide; case_decide. }
  destruct (strategy_unset_fields p Ev) as (prefix & Ep & Hne). rewrite Ep. run_steps. eapply runs_deref; [done|]. run_steps.
  eapply runs_mono; [by apply (eraseStrategy_spec w prefix); [..|apply Hr]|]. intros [] w' (Hd' & Hsw & Hg). run_steps.
  split; [done|]. split; [done|]. exists prefix. split_and!; [done..|]. by rewrite Hg, decide_True.
Qed.
End managers_spec.
