(* ===== verification/Strategies.v ===== *)
(** * Forwarding strategies: [daemon/fw/*-strategy.cpp], [daemon/fw/retx-suppression*.cpp]

    A strategy decides to which next hops an Interest goes, through the actions
    [sendInterest] and [rejectPendingInterest].  Each satisfies [StrategyLaws],
    the interface the forwarder's theorems are proved against. *)

From Stdlib Require Import Ascii String.
From S2P Require Import Prelude CityHash Packets FibEntry NameTree NameTreeFacts Fib PitEntry Pit StrategyChoice DeadNonceList ContentStore World Forwarder ForwarderInv ForwarderSpec.
Open Scope pipeline_scope.

(** ** Names: [STRATEGY_NAME] of each class *)

Definition version_component (n : nat) : Component :=
  Generic (String (Ascii.ascii_of_nat 253) (String (Ascii.ascii_of_nat n) EmptyString)).
Definition strategy_name (s : string) (version : nat) : Name :=
  [Generic "localhost"; Generic "nfd"; Generic "strategy"; Generic s; version_component version].
Definition BestRouteStrategy_STRATEGY_NAME : Name := strategy_name "best-route" 1.
Definition BestRouteStrategy2_STRATEGY_NAME : Name := strategy_name "best-route" 3.
Definition MulticastStrategy_STRATEGY_NAME : Name := strategy_name "multicast" 1.
Definition BroadcastStrategy_STRATEGY_NAME : Name := strategy_name "broadcast" 2.
Definition ClientControlStrategy_STRATEGY_NAME : Name := strategy_name "client-control" 1.

Section strategies.
Context `{WireEncoding, NameWire, NameOrder, !NameSuccessor} {S E : Type} `{CsPolicy S, NdnSimCs E}.
Context (random_uint32 : nat → Z).
Abbreviation World := (World S E).
Abbreviation M := (M S E).
Abbreviation Strategy := (Strategy (S := S) (E := E)).

(** ** Best route *)

Definition predicate_PitEntry_canForwardTo_NextHop (w : World) (e : PitEntry) (nexthop : NextHop) : bool :=
  PitEntry_canForwardTo (isLocal w) (w_now w) e (nh_face nexthop).

Definition BestRouteStrategy_afterReceiveInterest (inFace : face_ptr) (interest : Interest) (fibEntry : FibEntry)
    (p : pit_ptr) : M unit :=
  let* e := getPitEntry p in
  let* now := gets w_now in
  if PitEntry_hasUnexpiredOutRecords now e then ret tt
  else
    let* it := gets (λ w, find_if (predicate_PitEntry_canForwardTo_NextHop w e) (fe_nextHops fibEntry)) in
    match it with
    | None => rejectPendingInterest p
    | Some nexthop => sendInterest random_uint32 p (nh_face nexthop) false
    end.

Definition BestRouteStrategy : Strategy :=
  mkStrategy BestRouteStrategy_afterReceiveInterest Strategy_beforeSatisfyInterest Strategy_beforeExpirePendingInterest.

(** ** Multicast, and broadcast, its former name *)

Definition MulticastStrategy_afterReceiveInterest (inFace : face_ptr) (interest : Interest) (fibEntry : FibEntry)
    (p : pit_ptr) : M unit :=
  for_each (fe_nextHops fibEntry) (λ nexthop,
    let outFace := nh_face nexthop in
    let* e := getPitEntry p in
    let* can := gets (λ w, PitEntry_canForwardTo (isLocal w) (w_now w) e outFace) in
    when can (sendInterest random_uint32 p outFace false));;
  let* e := getPitEntry p in
  let* now := gets w_now in
  when (negb (PitEntry_hasUnexpiredOutRecords now e)) (rejectPendingInterest p).

Definition MulticastStrategy : Strategy :=
  mkStrategy MulticastStrategy_afterReceiveInterest Strategy_beforeSatisfyInterest Strategy_beforeExpirePendingInterest.

(** The first use of the broadcast strategy also writes a warning. *)
Definition BroadcastStrategy_afterReceiveInterest := MulticastStrategy_afterReceiveInterest.
Definition BroadcastStrategy : Strategy :=
  mkStrategy BroadcastStrategy_afterReceiveInterest Strategy_beforeSatisfyInterest Strategy_beforeExpirePendingInterest.

(** ** Client control *)

Definition ClientControlStrategy_afterReceiveInterest (inFace : face_ptr) (interest : Interest) (fibEntry : FibEntry)
    (p : pit_ptr) : M unit :=
  match i_nextHopFaceId interest with
  | None => BestRouteStrategy_afterReceiveInterest inFace interest fibEntry p
  | Some outFaceId =>
      let* outFace := gets (λ w, w_faceTable w !! outFaceId) in
      match outFace with
      | None => rejectPendingInterest p
      | Some outFace => sendInterest random_uint32 p outFace false
      end
  end.

Definition ClientControlStrategy : Strategy :=
  mkStrategy ClientControlStrategy_afterReceiveInterest Strategy_beforeSatisfyInterest Strategy_beforeExpirePendingInterest.

(** ** Retransmission suppression *)

Inductive RetxResult := NEW | FORWARD | SUPPRESS.

Definition getLastOutgoing (e : PitEntry) : option Z :=
  fr_lastRenewed <$> max_element (λ a b, fr_lastRenewed a <? fr_lastRenewed b) (pe_outRecords e).

(** Durations of the exponential back-off are microseconds; the product with
    the multiplier (a float) is exact for intervals up to the maximum. *)
Definition DEFAULT_INITIAL_INTERVAL : Z := 1000.
Definition DEFAULT_MULTIPLIER : Z := 2.
Definition DEFAULT_MAX_INTERVAL : Z := 250000.

Definition RetxSuppressionExponential_decide (p : pit_ptr) : M RetxResult :=
  let* e := getPitEntry p in
  let* now := gets w_now in
  let isNewPitEntry := negb (PitEntry_hasUnexpiredOutRecords now e) in
  if isNewPitEntry then ret NEW
  else
    let* lastOutgoing := deref (getLastOutgoing e) in
    let sinceLastOutgoing := now - lastOutgoing in
    let '(pi, host) := getOrCreateStrategyInfo (RetxExponentialPitInfo DEFAULT_INITIAL_INTERVAL) (pe_info e) in
    updatePitEntry (setPitInfo host) p;;
    let 'RetxExponentialPitInfo suppressionInterval := pi in
    let shouldSuppress := sinceLastOutgoing <? microseconds suppressionInterval in
    if shouldSuppress then ret SUPPRESS
    else
      let suppressionInterval := Z.min DEFAULT_MAX_INTERVAL (suppressionInterval * DEFAULT_MULTIPLIER) in
      let pi := RetxExponentialPitInfo suppressionInterval in
      updatePitEntry (λ e, setPitInfo (setStrategyInfo (StrategyInfo_typeId pi) (Some pi) (pe_info e)) e) p;;
      ret FORWARD.

Definition DEFAULT_MIN_RETX_INTERVAL : Z := 100.

Definition RetxSuppressionFixed_decide (minRetxInterval : Z) (p : pit_ptr) : M RetxResult :=
  let* e := getPitEntry p in
  let* now := gets w_now in
  let isNewPitEntry := negb (PitEntry_hasUnexpiredOutRecords now e) in
  if isNewPitEntry then ret NEW
  else
    let* lastOutgoing := deref (getLastOutgoing e) in
    let sinceLastOutgoing := now - lastOutgoing in
    let shouldSuppress := sinceLastOutgoing <? milliseconds minRetxInterval in
    ret (if shouldSuppress then SUPPRESS else FORWARD).

(** ** Best route, version 3 *)

Definition predicate_NextHop_eligible (w : World) (e : PitEntry) (currentDownstream : Z) (wantUnused : bool) (now : Z)
    (nexthop : NextHop) : bool :=
  let upstream := nh_face nexthop in
  if getId upstream w =? currentDownstream then false
  else if PitEntry_violatesScope (isLocal w) e upstream then false
  else if wantUnused then
    match PitEntry_getOutRecord e upstream with
    | Some outRecord => if now <? fr_expiry outRecord then false else true
    | None => true
    end
  else true.

(** The loop of [findEligibleNextHopWithEarliestOutRecord]; [None]: its assertion fails *)
Fixpoint findEarliest_loop (w : World) (e : PitEntry) (currentDownstream : Z) (found : option NextHop)
    (earliestRenewed : Z) (nexthops : list NextHop) : option (option NextHop) :=
  match nexthops with
  | [] => Some found
  | it :: nexthops' =>
      if negb (predicate_NextHop_eligible w e currentDownstream false TimePoint_min it)
      then findEarliest_loop w e currentDownstream found earliestRenewed nexthops'
      else
        outRecord ← PitEntry_getOutRecord e (nh_face it);
        if fr_lastRenewed outRecord <? earliestRenewed
        then findEarliest_loop w e currentDownstream (Some it) (fr_lastRenewed outRecord) nexthops'
        else findEarliest_loop w e currentDownstream found earliestRenewed nexthops'
  end.
Definition findEligibleNextHopWithEarliestOutRecord (w : World) (e : PitEntry) (nexthops : list NextHop)
    (currentDownstream : Z) : option (option NextHop) :=
  findEarliest_loop w e currentDownstream None TimePoint_max nexthops.

Definition BestRouteStrategy2_afterReceiveInterest (inFace : face_ptr) (interest : Interest) (fibEntry : FibEntry)
    (p : pit_ptr) : M unit :=
  let nexthops := fe_nextHops fibEntry in
  let* suppression := RetxSuppressionExponential_decide p in
  let* e := getPitEntry p in
  let* inFaceId := gets (getId inFace) in
  match suppression with
  | NEW =>
      let* it := gets (λ w, find_if (predicate_NextHop_eligible w e inFaceId false TimePoint_min) nexthops) in
      match it with
      | None => rejectPendingInterest p
      | Some nexthop => sendInterest random_uint32 p (nh_face nexthop) false
      end
  | SUPPRESS => ret tt
  | FORWARD =>
      let* it := gets (λ w, find_if (predicate_NextHop_eligible w e inFaceId true (w_now w)) nexthops) in
      match it with
      | Some nexthop => sendInterest random_uint32 p (nh_face nexthop) false
      | None =>
          let* it := gets (λ w, findEligibleNextHopWithEarliestOutRecord w e nexthops inFaceId) in
          let* it := deref it in
          match it with
          | None => ret tt
          | Some nexthop => sendInterest random_uint32 p (nh_face nexthop) false
          end
      end
  end.

Definition BestRouteStrategy2 : Strategy :=
  mkStrategy BestRouteStrategy2_afterReceiveInterest Strategy_beforeSatisfyInterest Strategy_beforeExpirePendingInterest.
End strategies.
