(* ===== verification/StrategiesSpec.v ===== *)
(** * What the strategies do

    Each strategy satisfies [StrategyLaws], so the theorems on the forwarder hold
    for all of them, and each one's choice of next hops is described.
    [pipeline_mono]-style steps are the specifications of [sendInterest] and
    [rejectPendingInterest] from ForwarderInv. *)

From S2P Require Import Prelude CityHash Packets FibEntry NameTree NameTreeFacts Fib PitEntry Pit StrategyChoice DeadNonceList ContentStore World Forwarder ForwarderInv ForwarderSpec Strategies.
Open Scope pipeline_scope.

Section strategies.
Context `{WireEncoding, NameWire, NameOrder, !NameSuccessor} {S E : Type} `{CsPolicyLaws S, NdnSimCs E}.
Context (random_uint32 : nat → Z).
Abbreviation World := (World S E).
Abbreviation M := (M S E).

(** ** Actions *)

Lemma sendInterest_acts p outFace b (w : World) : fwd_inv w → ready w p →
  runs (sendInterest random_uint32 p outFace b) w (λ _ w', acts p w w').
Proof.
  intros Hi (e & Hh & Hr). eapply runs_mono; [by apply (sendInterest_spec random_uint32 p outFace b w e)|].
  by intros _ w' [A _].
Qed.

Lemma reject_acts p (w : World) : fwd_inv w → ready w p →
  runs (rejectPendingInterest p) w (λ _ w', acts p w w').
Proof.
  intros Hi (e & Hh & Hr). eapply runs_mono; [by apply (rejectPendingInterest_spec p w e)|]. by intros _ w' [A _].
Qed.

Lemma acts_inv p (w w' : World) : acts p w w' → fwd_inv w'.
Proof. intros A. apply (to_inv _ _ _ (ac_touches _ _ _ A)). Qed.

Lemma ready_some (w : World) p : ready w p → is_Some (entries w !! p).
Proof. intros (e & [He _] & _). by exists e. Qed.

Lemma acts_seq p (w1 w2 w3 : World) : ready w1 p → acts p w1 w2 → acts p w2 w3 → acts p w1 w3.
Proof. intros Hr. apply acts_trans. by apply ready_some. Qed.

(** The triggers that a strategy inherits *)
Lemma default_triggers recv : (∀ (w : World) inFace i fe p, fwd_inv w → ready w p →
    runs (recv inFace i fe p) w (λ _ w', acts p w w')) →
  StrategyLaws (mkStrategy recv Strategy_beforeSatisfyInterest Strategy_beforeExpirePendingInterest).
Proof.
  intros Hr. split; [exact Hr| |].
  - intros w p inFace d e Hi Hh. exists tt, w. split; [done|]. by apply acts_refl.
  - intros w p e Hi Hh. exists tt, w. split; [done|]. by apply acts_refl.
Qed.

(** ** Best route *)

(** The next hop that best-route picks *)
Definition best_route_choice (w : World) (e : PitEntry) (fe : FibEntry) : option NextHop :=
  find_if (predicate_PitEntry_canForwardTo_NextHop w e) (fe_nextHops fe).

(** What sending to the next hop of a choice amounts to *)
Definition sends_to (w : World) (p : pit_ptr) (e : PitEntry) (n : NextHop) (w' : World) : Prop :=
  if may_send w e (nh_face n)
  then ∃ i, picked_interest random_uint32 w e (nh_face n) false = Some i ∧ w' = interest_sent p (nh_face n) false i w
  else w' = w.

Lemma best_route_spec inFace i fe p e (w : World) : fwd_inv w → holds w p e → pe_inRecords e ≠ [] →
  runs (BestRouteStrategy_afterReceiveInterest random_uint32 inFace i fe p) w (λ _ w', acts p w w' ∧
    if PitEntry_hasUnexpiredOutRecords (w_now w) e then w' = w
    else match best_route_choice w e fe with
         | None => quiet w w' ∧ pending (w_scheduled w') p
         | Some n => sends_to w p e n w'
         end).
Proof.
  intros Hi Hh Hr. unfold BestRouteStrategy_afterReceiveInterest. run_steps.
  eapply runs_getPitEntry; [apply Hh|]. run_steps.
  destruct (PitEntry_hasUnexpiredOutRecords (w_now w) e) eqn:Eu; [run_steps; split; [by apply acts_refl|done]|].
  run_steps. change (find_if _ _) with (best_route_choice w e fe). destruct (best_route_choice w e fe) as [n|].
  - by apply sendInterest_spec.
  - eapply runs_mono; [by apply rejectPendingInterest_spec|]. intros _ w' [A Hw]. by rewrite Eu in Hw.
Qed.

(** The choice can be forwarded to, and no cheaper next hop can. *)
Lemma best_route_choice_spec (w : World) e fe n : FibEntry_ok fe → best_route_choice w e fe = Some n →
  n ∈ fe_nextHops fe ∧ PitEntry_canForwardTo (isLocal w) (w_now w) e (nh_face n) = true ∧
  ∀ m, m ∈ fe_nextHops fe → PitEntry_canForwardTo (isLocal w) (w_now w) e (nh_face m) = true → nh_cost n <= nh_cost m.
Proof.
  intros Ho Hc. destruct (find_if_Some _ _ _ Hc) as [Hin Hp]. split_and!; [done|done|].
  intros m Hm Hpm. by apply (first_is_cheapest fe _ _ _ Ho Hc).
Qed.

Lemma best_route_acts inFace i fe p (w : World) : fwd_inv w → ready w p →
  runs (BestRouteStrategy_afterReceiveInterest random_uint32 inFace i fe p) w (λ _ w', acts p w w').
Proof.
  intros Hi (e & Hh & Hr). eapply runs_mono; [by apply (best_route_spec inFace i fe p e)|]. by intros _ w' [A _].
Qed.

#[export] Instance BestRouteStrategy_laws : StrategyLaws (BestRouteStrategy (S := S) (E := E) random_uint32).
Proof. apply default_triggers. intros. by apply best_route_acts. Qed.

(** ** Multicast *)

Lemma multicast_acts inFace i fe p (w : World) : fwd_inv w → ready w p →
  runs (MulticastStrategy_afterReceiveInterest random_uint32 inFace i fe p) w (λ _ w', acts p w w').
Proof.
  intros Hi Hr. unfold MulticastStrategy_afterReceiveInterest. run_steps.
  apply (runs_for_each _ _ (λ _ w', acts p w w')); [by apply acts_refl| |].
  - intros n l w1 A1. pose proof (acts_ready _ _ _ A1 Hr) as (e1 & Hh1 & Hr1). run_steps.
    eapply runs_getPitEntry; [apply Hh1|]. run_steps. destruct (PitEntry_canForwardTo _ _ _ _); [|by run_steps].
    eapply runs_mono; [apply sendInterest_acts; [by eapply acts_inv|by exists e1]|].
    intros [] w2 A2. by apply (acts_seq p w w1 w2).
  - intros w1 A1. pose proof (acts_ready _ _ _ A1 Hr) as (e1 & Hh1 & Hr1). run_steps.
    eapply runs_getPitEntry; [apply Hh1|]. run_steps. destruct (negb _); [|by run_steps].
    eapply runs_mono; [apply reject_acts; [by eapply acts_inv|by exists e1]|].
    intros [] w2 A2. by apply (acts_seq p w w1 w2).
Qed.

#[export] Instance MulticastStrategy_laws : StrategyLaws (MulticastStrategy (S := S) (E := E) random_uint32).
Proof. apply default_triggers. intros. by apply multicast_acts. Qed.
#[export] Instance BroadcastStrategy_laws : StrategyLaws (BroadcastStrategy (S := S) (E := E) random_uint32).
Proof. apply default_triggers. intros. by apply multicast_acts. Qed.

(** ** Client control *)

#[export] Instance ClientControlStrategy_laws : StrategyLaws (ClientControlStrategy (S := S) (E := E) random_uint32).
Proof.
  apply default_triggers. intros w inFace i fe p Hi Hr. unfold ClientControlStrategy_afterReceiveInterest.
  destruct (i_nextHopFaceId i) as [id|]; [|by apply best_route_acts]. run_steps.
  destruct (w_faceTable w !! id); [by apply sendInterest_acts|by apply reject_acts].
Qed.
(** *** To which next hops multicast sends *)

Lemma insertOutRecord_existsb now face i (q : OutRecord → bool) e g : g ≠ face →
  existsb (λ r, bool_decide (fr_face r = g) && q r) (pe_outRecords (PitEntry_insertOrUpdateOutRecord now face i e)) =
  existsb (λ r, bool_decide (fr_face r = g) && q r) (pe_outRecords e).
Proof.
  intros Hg. assert (Hu : ∀ l, existsb (λ r, bool_decide (fr_face r = g) && q r) (update_first (out_of face) (FaceRecord_update now i) l) =
    existsb (λ r, bool_decide (fr_face r = g) && q r) l).
  { induction l as [|r l IH]; simpl; [done|]. unfold out_of at 1. case_bool_decide as Er; simpl; [|by rewrite IH].
    subst face. by rewrite !(bool_decide_eq_false_2 (fr_face r = g)) by congruence. }
  simpl. rewrite Hu. destruct (find_if (out_of face) (pe_outRecords e)); [done|]. simpl.
  by rewrite bool_decide_eq_false_2 by congruence.
Qed.

(** An entry that is the same for forwarding to [g] *)
Definition same_for (now : Z) (e e' : PitEntry) (g : face_ptr) : Prop :=
  pe_interest e' = pe_interest e ∧ pe_inRecords e' = pe_inRecords e ∧
  existsb (λ r, bool_decide (fr_face r = g) && (now <=? fr_expiry r)) (pe_outRecords e') =
  existsb (λ r, bool_decide (fr_face r = g) && (now <=? fr_expiry r)) (pe_outRecords e).

Lemma same_for_can local now e e' g : same_for now e e' g →
  PitEntry_canForwardTo local now e' g = PitEntry_canForwardTo local now e g.
Proof.
  intros (Ei & Er & Eo). unfold PitEntry_canForwardTo, PitEntry_violatesScope, PitEntry_hasLocalInRecord, pe_name.
  by rewrite Ei, Er, Eo.
Qed.

Lemma same_in_may_send (w w' : World) e e' g : w_faces w' = w_faces w → pe_interest e' = pe_interest e →
  pe_inRecords e' = pe_inRecords e → may_send w' e' g = may_send w e g.
Proof.
  intros Ef Ei Er. unfold may_send, PitEntry_violatesScope, PitEntry_hasLocalInRecord, pe_name, getId, isLocal.
  by rewrite Ef, Ei, Er.
Qed.

(** What goes out on one next hop *)
Definition multicast_out (w : World) (e : PitEntry) (n : NextHop) : list Output :=
  if PitEntry_canForwardTo (isLocal w) (w_now w) e (nh_face n) && may_send w e (nh_face n)
  then SentInterest (nh_face n) <$> option_list (picked_interest random_uint32 w e (nh_face n) false)
  else [].

Lemma isLocal_faces (w w' : World) : w_faces w' = w_faces w → isLocal w' = isLocal w.
Proof. intros Ef. unfold isLocal. by rewrite Ef. Qed.

(** One iteration of the loop *)
Lemma multicast_step p e e1 n (w w1 : World) : acts p w w1 → holds w1 p e1 → pe_inRecords e ≠ [] →
  same_for (w_now w) e e1 (nh_face n) →
  runs (let* e := getPitEntry p in
        let* can := gets (λ w, PitEntry_canForwardTo (isLocal w) (w_now w) e (nh_face n)) in
        when can (sendInterest random_uint32 p (nh_face n) false)) w1 (λ _ w2, acts p w1 w2 ∧
    w_trace w2 = w_trace w1 ++ multicast_out w e n ∧
    ∃ e2, holds w2 p e2 ∧ ∀ g, g ≠ nh_face n → same_for (w_now w) e e1 g → same_for (w_now w) e e2 g).
Proof.
  intros A1 Hh1 Hr Hs. pose proof (ac_touches _ _ _ A1) as T1. pose proof (acts_inv _ _ _ A1) as Hi1.
  destruct (Hs) as (Ei & Er & _). run_steps. eapply runs_getPitEntry; [apply Hh1|]. run_steps.
  rewrite (same_for_can _ _ e) by (by rewrite (to_now _ _ _ T1)).
  rewrite (isLocal_faces w) by apply T1. rewrite (to_now _ _ _ T1). unfold multicast_out.
  destruct (PitEntry_canForwardTo (isLocal w) (w_now w) e (nh_face n)); simpl.
  2: { run_steps. split; [by apply acts_refl|]. rewrite app_nil_r. split; [done|]. by exists e1. }
  eapply runs_mono; [apply (sendInterest_spec random_uint32 p (nh_face n) false w1 e1); [done|done|by rewrite Er]|].
  intros [] w2 [A2 Hw2]. split; [done|].
  rewrite (same_in_may_send w w1 e e1) in Hw2 by (done || apply T1).
  destruct (may_send w e (nh_face n)); [|subst w2; rewrite app_nil_r; split; [done|by exists e1]].
  destruct Hw2 as (i & Ep & ->).
  assert (Epk : picked_interest random_uint32 w e (nh_face n) false = Some i) by (rewrite <-Ep; unfold picked_interest; by rewrite Er).
  rewrite Epk. split; [done|]. exists (PitEntry_insertOrUpdateOutRecord (w_now w1) (nh_face n) i e1). split.
  - destruct Hh1 as [He1 Hn1]. split; [|done]. unfold entries. simpl. fold (entries w1).
    by rewrite (alter_entries_eq _ _ _ _ _ He1), decide_True.
  - intros g Hg (Gi & Gr & Go). split; [done|]. split; [done|]. rewrite <-Go. by apply insertOutRecord_existsb.
Qed.

(** Multicast sends one Interest to each next hop that can be forwarded to. *)
Lemma multicast_spec inFace i fe p e (w : World) : fwd_inv w → holds w p e → pe_inRecords e ≠ [] → FibEntry_ok fe →
  runs (MulticastStrategy_afterReceiveInterest random_uint32 inFace i fe p) w (λ _ w', acts p w w' ∧
    w_trace w' = w_trace w ++ (fe_nextHops fe ≫= multicast_out w e)).
Proof.
  intros Hi Hh Hr [Hnd _]. unfold MulticastStrategy_afterReceiveInterest. run_steps.
  apply (runs_for_each _ _ (λ left w1, acts p w w1 ∧ NoDup (nh_face <$> left) ∧
    (∃ e1, holds w1 p e1 ∧ ∀ n, n ∈ left → same_for (w_now w) e e1 (nh_face n)) ∧
    w_trace w1 ++ (left ≫= multicast_out w e) = w_trace w ++ (fe_nextHops fe ≫= multicast_out w e))).
  - split_and!; [by apply acts_refl|done| |done]. by exists e.
  - intros n l w1 (A1 & Hn1 & (e1 & Hh1 & Hs1) & Tr1). csimpl in Hn1. apply NoDup_cons in Hn1 as [Hn1 Hnd1].
    eapply runs_mono; [apply (multicast_step p e e1 n w w1 A1 Hh1 Hr); apply Hs1, elem_of_cons; by left|].
    intros [] w2 (A2 & Tr2 & e2 & Hh2 & Hs2).
    assert (Hrw : ready w p) by (by exists e). split_and!; [by apply (acts_seq p w w1 w2)|done| |].
    + exists e2. split; [done|]. intros m Hm. apply Hs2; [|apply Hs1, elem_of_cons; by right].
      intros Em. apply Hn1. rewrite <-Em. by apply list_elem_of_fmap_2.
    + rewrite Tr2, <-Tr1, <-app_assoc. done.
  - intros w1 (A1 & _ & (e1 & Hh1 & Hs1) & Tr1). rewrite <-Tr1. simpl. rewrite app_nil_r. run_steps.
    eapply runs_getPitEntry; [apply Hh1|]. run_steps. destruct (PitEntry_hasUnexpiredOutRecords (w_now w1) e1) eqn:Eu; simpl; [by run_steps|].
    eapply runs_mono; [apply (rejectPendingInterest_spec p w1 e1); [by eapply acts_inv|done]|].
    rewrite Eu. intros [] w2 [A2 [Q2 _]]. split; [|apply Q2]. apply (acts_seq p w w1 w2); [by exists e|done|done].
Qed.
(** ** Retransmission suppression *)

(** The suppression interval of a PIT entry, in microseconds *)
Definition retx_interval (e : PitEntry) : Z :=
  match getStrategyInfo 1020 (pe_info e) with
  | Some (RetxExponentialPitInfo d) => d
  | None => DEFAULT_INITIAL_INTERVAL
  end.

Lemma setPitInfo_update h : pit_update (setPitInfo h) ∧ keeps_timers (setPitInfo h).
Proof. split; intros e; [done|]. split; [done|]. by intros []. Qed.
Lemma setPitInfo_ok h e : keeps_ok (setPitInfo h) e.
Proof. intros [A B C] D. split; [by split|exact D]. Qed.

Lemma update_info_spec (f : PitEntry → StrategyInfoHost) p (w : World) e : fwd_inv w → holds w p e →
  runs (updatePitEntry (λ e, setPitInfo (f e) e) p) w (λ _ w', acts p w w' ∧ quiet w w' ∧ holds w' p (setPitInfo (f e) e)).
Proof.
  intros Hi [He Hn].
  eapply runs_mono; [apply (updatePitEntry_spec w (λ e, setPitInfo (f e) e) p e); [done|by intros x|intros x; split; [done|by intros []]|done|]|].
  { intros A B. by apply setPitInfo_ok. }
  intros [] w' (-> & T & E1).
  assert (Hq : quiet w (set_pit (alter_pit (λ e, setPitInfo (f e) e) p (w_pit w)) w)) by done.
  split; [|split; [done|by split]]. split; [done|done| |done| |].
  - intros x x' Hx Hx'. rewrite E1 in Hx'. by simplify_eq/=.
  - intros Hc x Hx Hnx Hrx. rewrite E1 in Hx. injection Hx as <-. by apply (Hc e).
  - intros x Hx. exists []. by rewrite app_nil_r.
Qed.

Lemma unexpired_last now e : PitEntry_hasUnexpiredOutRecords now e = true → ∃ t, getLastOutgoing e = Some t.
Proof.
  unfold PitEntry_hasUnexpiredOutRecords, getLastOutgoing. intros Hu. apply existsb_bool in Hu as (r & Hr & _).
  destruct (pe_outRecords e); [by apply elem_of_nil in Hr|]. simpl. eauto.
Qed.

(** [getLastOutgoing] is the latest renewal of an out-record. *)
Lemma getLastOutgoing_spec e t : getLastOutgoing e = Some t →
  (∃ r, r ∈ pe_outRecords e ∧ fr_lastRenewed r = t) ∧ ∀ r, r ∈ pe_outRecords e → fr_lastRenewed r <= t.
Proof.
  unfold getLastOutgoing. intros Ht. apply fmap_Some in Ht as (r & Er & ->). split.
  - exists r. split; [by eapply max_element_in|done].
  - intros x Hx. destruct (pe_outRecords e) as [|y l]; [done|]. injection Er as <-.
    assert (Hlt := max_element_from_max (λ a b, fr_lastRenewed a <? fr_lastRenewed b) y l).
    specialize (Hlt ltac:(cbv beta; lia) ltac:(cbv beta; lia) x Hx). cbv beta in Hlt. lia.
Qed.

(** The decision, and the interval after it *)
Definition retx_decision (now : Z) (e : PitEntry) : RetxResult * Z :=
  if PitEntry_hasUnexpiredOutRecords now e then
    if now - default now (getLastOutgoing e) <? microseconds (retx_interval e)
    then (SUPPRESS, retx_interval e)
    else (FORWARD, Z.min DEFAULT_MAX_INTERVAL (retx_interval e * DEFAULT_MULTIPLIER))
  else (NEW, retx_interval e).

Lemma RetxSuppressionExponential_spec p e (w : World) : fwd_inv w → holds w p e →
  runs (RetxSuppressionExponential_decide p) w (λ r w', acts p w w' ∧ quiet w w' ∧ r = (retx_decision (w_now w) e).1 ∧
    ∃ h, holds w' p (setPitInfo h e) ∧ retx_interval (setPitInfo h e) = (retx_decision (w_now w) e).2).
Proof.
  intros Hi Hh. unfold RetxSuppressionExponential_decide, retx_decision. run_steps.
  eapply runs_getPitEntry; [apply Hh|]. run_steps.
  destruct (PitEntry_hasUnexpiredOutRecords (w_now w) e) eqn:Eu; simpl.
  2: { run_steps. split; [by apply acts_refl|]. split; [by apply quiet_refl|]. split; [done|]. exists (pe_info e). by destruct e. }
  destruct (unexpired_last _ _ Eu) as [t Et]. run_steps. eapply runs_deref; [done|]. rewrite Et. simpl.
  destruct (getOrCreateStrategyInfo (RetxExponentialPitInfo DEFAULT_INITIAL_INTERVAL) (pe_info e)) as [pi host] eqn:Eg.
  assert (Epi : pi = RetxExponentialPitInfo (retx_interval e) ∧ host !! 1020 = Some pi).
  { unfold getOrCreateStrategyInfo, retx_interval in *. simpl in Eg. destruct (getStrategyInfo 1020 (pe_info e)) as [[d]|] eqn:Ei;
      injection Eg as <- <-; [done|]. split; [done|apply lookup_insert_eq]. }
  destruct Epi as [-> Ehost]. run_steps.
  eapply runs_mono; [by apply (update_info_spec (λ _, host) p w e)|]. intros _ w1 (A1 & Q1 & Hh1). cbv beta iota.
  assert (Hrd : ready w p → ready w1 p) by (intros; by eapply acts_ready).
  destruct (w_now w - t <? microseconds (retx_interval e)) eqn:Esup.
  - run_steps. split; [done|]. split; [done|]. split; [done|]. exists host. split; [done|].
    unfold retx_interval, getStrategyInfo. simpl. by rewrite Ehost.
  - set (d := Z.min DEFAULT_MAX_INTERVAL (retx_interval e * DEFAULT_MULTIPLIER)). run_steps.
    eapply runs_mono; [apply (update_info_spec (λ x, setStrategyInfo 1020 (Some (RetxExponentialPitInfo d)) (pe_info x)) p w1 (setPitInfo host e));
      [by eapply acts_inv|done]|].
    intros [] w2 (A2 & Q2 & Hh2). cbv beta iota. run_steps.
    split; [by apply (acts_trans p w w1 w2); [exists e; apply Hh|..]|]. split; [by eapply quiet_trans|]. split; [done|].
    eexists. split; [exact Hh2|]. unfold retx_interval, getStrategyInfo. simpl. by rewrite lookup_insert_eq.
Qed.

(** The interval starts at 1 ms, doubles on each decision to forward, and stays
    below 250 ms. *)
Definition retx_ok (e : PitEntry) : Prop := DEFAULT_INITIAL_INTERVAL <= retx_interval e <= DEFAULT_MAX_INTERVAL.

Lemma retx_decision_ok now e : retx_ok e → retx_interval e <= (retx_decision now e).2 <= DEFAULT_MAX_INTERVAL.
Proof.
  unfold retx_ok, retx_decision, DEFAULT_INITIAL_INTERVAL, DEFAULT_MAX_INTERVAL, DEFAULT_MULTIPLIER. intros Hd.
  repeat case_match; simpl; lia.
Qed.

(** ** Best route, version 3 *)

(** An eligible next hop, used or not *)
Definition eligible (w : World) (e : PitEntry) (down : Z) (n : NextHop) : bool :=
  predicate_NextHop_eligible w e down false TimePoint_min n.

Lemma eligible_spec w e down n : eligible w e down n = true ↔
  getId (nh_face n) w ≠ down ∧ PitEntry_violatesScope (isLocal w) e (nh_face n) = false.
Proof.
  unfold eligible, predicate_NextHop_eligible. destruct (Z.eqb_spec (getId (nh_face n) w) down); [naive_solver|].
  destruct (PitEntry_violatesScope (isLocal w) e (nh_face n)); naive_solver.
Qed.

(** A next hop that is eligible but not unused has an out-record that is not expired. *)
Lemma eligible_used w e down now n : eligible w e down n = true → predicate_NextHop_eligible w e down true now n = false →
  ∃ o, PitEntry_getOutRecord e (nh_face n) = Some o ∧ now < fr_expiry o.
Proof.
  unfold eligible, predicate_NextHop_eligible. repeat (case_match; try done). intros _ _. eexists. split; [done|lia].
Qed.

Lemma unused_eligible w e down now n : predicate_NextHop_eligible w e down true now n = true → eligible w e down n = true.
Proof. unfold eligible, predicate_NextHop_eligible. by repeat case_match. Qed.

(** The loop finds the eligible next hop whose out-record is the oldest. *)
Lemma findEarliest_loop_spec w e down l found t :
  (∀ n, n ∈ l → eligible w e down n = true → is_Some (PitEntry_getOutRecord e (nh_face n))) →
  ∃ r t', findEarliest_loop w e down found t l = Some r ∧ t' <= t ∧
    (∀ n o, n ∈ l → eligible w e down n = true → PitEntry_getOutRecord e (nh_face n) = Some o → t' <= fr_lastRenewed o) ∧
    (r = found ∧ t' = t ∨
     ∃ n o, r = Some n ∧ n ∈ l ∧ eligible w e down n = true ∧ PitEntry_getOutRecord e (nh_face n) = Some o ∧ fr_lastRenewed o = t').
Proof.
  revert found t. induction l as [|n l IH]; intros found t Hl; simpl.
  { exists found, t. split_and!; [done|lia|by intros ? ? ?%elem_of_nil|by left]. }
  assert (Hl' : ∀ m, m ∈ l → eligible w e down m = true → is_Some (PitEntry_getOutRecord e (nh_face m))).
  { intros m Hm. apply Hl, elem_of_cons. by right. }
  fold (eligible w e down n). destruct (eligible w e down n) eqn:Ee; simpl.
  - destruct (Hl n) as [o Eo]; [apply elem_of_cons; by left|done|]. rewrite Eo. simpl.
    destruct (Z.ltb_spec (fr_lastRenewed o) t) as [Hlt|Hge].
    + destruct (IH (Some n) (fr_lastRenewed o) Hl') as (r & t' & El & Ht & Hmin & Hr). exists r, t'.
      split_and!; [done|lia| |].
      * intros m o' [->|Hm]%elem_of_cons Em Eo'; [congruence|by eapply Hmin].
      * right. destruct Hr as [[-> ->]|(m & o' & -> & Hm & ? & ? & ?)]; [exists n, o|exists m, o'];
          (split_and!; [done|rewrite elem_of_cons; tauto|done..]).
    + destruct (IH found t Hl') as (r & t' & El & Ht & Hmin & Hr). exists r, t'. split_and!; [done|lia| |].
      * intros m o' [->|Hm]%elem_of_cons Em Eo'; [assert (o' = o) as -> by congruence; lia|by eapply Hmin].
      * destruct Hr as [Hr|(m & o' & -> & Hm & ? & ? & ?)]; [by left|right; exists m, o'].
        split_and!; [done|rewrite elem_of_cons; tauto|done..].
  - destruct (IH found t Hl') as (r & t' & El & Ht & Hmin & Hr). exists r, t'. split_and!; [done|lia| |].
    + intros m o' [->|Hm]%elem_of_cons Em Eo'; [congruence|by eapply Hmin].
    + destruct Hr as [Hr|(m & o' & -> & Hm & ? & ? & ?)]; [by left|right; exists m, o'].
      split_and!; [done|rewrite elem_of_cons; tauto|done..].
Qed.

(** The next hop that best-route (version 3) picks for a new Interest or a
    retransmission; [None] in the outer option: an assertion fails *)
Definition best_route2_choice (w : World) (e : PitEntry) (down : Z) (fe : FibEntry) (r : RetxResult) : option (option NextHop) :=
  match r with
  | NEW => Some (find_if (eligible w e down) (fe_nextHops fe))
  | SUPPRESS => Some None
  | FORWARD =>
      match find_if (predicate_NextHop_eligible w e down true (w_now w)) (fe_nextHops fe) with
      | Some n => Some (Some n)
      | None => findEligibleNextHopWithEarliestOutRecord w e (fe_nextHops fe) down
      end
  end.

(** The assertion in the choice holds: with no unused next hop, every eligible
    one has an out-record, and the oldest is picked. *)
Lemma best_route2_earliest (w : World) e down fe : 
  find_if (predicate_NextHop_eligible w e down true (w_now w)) (fe_nextHops fe) = None →
  ∃ r, findEligibleNextHopWithEarliestOutRecord w e (fe_nextHops fe) down = Some r ∧
  match r with
  | None => ∀ n, n ∈ fe_nextHops fe → eligible w e down n = true →
      ∃ o, PitEntry_getOutRecord e (nh_face n) = Some o ∧ TimePoint_max <= fr_lastRenewed o
  | Some n => n ∈ fe_nextHops fe ∧ eligible w e down n = true ∧
      ∃ o, PitEntry_getOutRecord e (nh_face n) = Some o ∧
      ∀ m o', m ∈ fe_nextHops fe → eligible w e down m = true → PitEntry_getOutRecord e (nh_face m) = Some o' →
        fr_lastRenewed o <= fr_lastRenewed o'
  end.
Proof.
  intros Hf. rewrite find_if_None in Hf.
  assert (Hout : ∀ n, n ∈ fe_nextHops fe → eligible w e down n = true → is_Some (PitEntry_getOutRecord e (nh_face n))).
  { intros n Hn He. destruct (eligible_used _ _ _ _ _ He (Hf n Hn)) as (o & Eo & _). by exists o. }
  destruct (findEarliest_loop_spec w e down (fe_nextHops fe) None TimePoint_max Hout) as (r & t & El & _ & Hmin & Hr).
  exists r. split; [done|]. destruct Hr as [[-> ->]|(m & o & -> & Hm & Ee & Eo & <-)].
  - intros n Hn He. destruct (Hout n Hn He) as [o Eo]. exists o. split; [done|by apply (Hmin n)].
  - split_and!; [done|done|]. by exists o.
Qed.

(** Forwarding sees the same entry whatever its strategy information. *)
Lemma choice_setPitInfo (w w' : World) e h down fe r : w_faces w' = w_faces w → w_now w' = w_now w →
  best_route2_choice w' (setPitInfo h e) down fe r = best_route2_choice w e down fe r.
Proof.
  intros Ef En. assert (Hp : ∀ b t n, predicate_NextHop_eligible w' (setPitInfo h e) down b t n = predicate_NextHop_eligible w e down b t n).
  { intros b t n. unfold predicate_NextHop_eligible, getId. by rewrite Ef, (isLocal_faces w). }
  assert (Hl : ∀ l found t, findEarliest_loop w' (setPitInfo h e) down found t l = findEarliest_loop w e down found t l).
  { induction l as [|n l IH]; intros found t; simpl; [done|]. rewrite Hp, IH. destruct (negb _); [done|].
    change (PitEntry_getOutRecord (setPitInfo h e) (nh_face n)) with (PitEntry_getOutRecord e (nh_face n)).
    destruct (PitEntry_getOutRecord e (nh_face n)); simpl; [|done]. by rewrite !IH. }
  unfold best_route2_choice, eligible. rewrite En. destruct r; [|by unfold findEligibleNextHopWithEarliestOutRecord; rewrite Hl;
    rewrite (find_if_ext _ (predicate_NextHop_eligible w e down true (w_now w))) by (intros; apply Hp)|done].
  f_equal. by apply find_if_ext.
Qed.
(** What [sendInterest] sends *)
Definition send_out (w : World) (e : PitEntry) (f : face_ptr) : list Output :=
  if may_send w e f then SentInterest f <$> option_list (picked_interest random_uint32 w e f false) else [].

Lemma sendInterest_out p f (w : World) e : fwd_inv w → holds w p e → pe_inRecords e ≠ [] →
  runs (sendInterest random_uint32 p f false) w (λ _ w', acts p w w' ∧ w_trace w' = w_trace w ++ send_out w e f).
Proof.
  intros Hi Hh Hr. eapply runs_mono; [by apply (sendInterest_spec random_uint32 p f false w e)|]. unfold send_out.
  intros [] w' [A Hw]. split; [done|]. destruct (may_send w e f); [|subst w'; by rewrite app_nil_r].
  destruct Hw as (i & -> & ->). done.
Qed.

Lemma send_out_setPitInfo (w w' : World) e h f : w_faces w' = w_faces w → send_out w' (setPitInfo h e) f = send_out w e f.
Proof.
  intros Ef. unfold send_out. by rewrite (same_in_may_send w w' e (setPitInfo h e) f Ef).
Qed.

(** Best-route (version 3) sends to its choice, and nowhere else. *)
Lemma best_route2_spec inFace i fe p e (w : World) : fwd_inv w → holds w p e → pe_inRecords e ≠ [] →
  runs (BestRouteStrategy2_afterReceiveInterest random_uint32 inFace i fe p) w (λ _ w', acts p w w' ∧
    ∃ c, best_route2_choice w e (getId inFace w) fe (retx_decision (w_now w) e).1 = Some c ∧
      w_trace w' = w_trace w ++ from_option (λ n, send_out w e (nh_face n)) [] c).
Proof.
  intros Hi Hh Hr. unfold BestRouteStrategy2_afterReceiveInterest. cbv zeta. run_steps.
  eapply runs_mono; [by apply (RetxSuppressionExponential_spec p e w)|]. intros r w1 (A1 & Q1 & Er & h & Hh1 & _).
  pose proof (ac_touches _ _ _ A1) as T1. assert (Hrd : ready w p) by (by exists e).
  assert (Eid : getId inFace w1 = getId inFace w) by (unfold getId; by rewrite (to_faces _ _ _ T1)).
  assert (Hc : ∀ r, best_route2_choice w1 (setPitInfo h e) (getId inFace w1) fe r = best_route2_choice w e (getId inFace w) fe r).
  { intros r'. rewrite Eid. apply choice_setPitInfo; apply T1. }
  assert (Hsend : ∀ n, runs (sendInterest random_uint32 p (nh_face n) false) w1 (λ _ w',
      acts p w w' ∧ w_trace w' = w_trace w ++ from_option (λ n, send_out w e (nh_face n)) [] (Some n))).
  { intros n. eapply runs_mono; [by apply (sendInterest_out p (nh_face n) w1 (setPitInfo h e)); [eapply acts_inv|..]|].
    intros [] w2 [A2 Tr2]. split; [by apply (acts_seq p w w1 w2)|].
    by rewrite Tr2, (qu_trace _ _ Q1), (send_out_setPitInfo w) by apply T1. }
  run_steps. eapply runs_getPitEntry; [apply Hh1|]. run_steps. rewrite <-Er, <-Hc. destruct r; simpl.
  - run_steps. change (find_if _ _) with (find_if (eligible w1 (setPitInfo h e) (getId inFace w1)) (fe_nextHops fe)).
    destruct (find_if (eligible w1 (setPitInfo h e) (getId inFace w1)) (fe_nextHops fe)) as [n|].
    + eapply runs_mono; [apply Hsend|]. intros [] w2 [A2 Tr2]. split; [done|]. by exists (Some n).
    + eapply runs_mono; [by apply (rejectPendingInterest_spec p w1 (setPitInfo h e)); [eapply acts_inv|]|].
      intros [] w2 [A2 Hw2]. split; [by apply (acts_seq p w w1 w2)|]. exists None. split; [done|]. simpl. rewrite app_nil_r.
      destruct (PitEntry_hasUnexpiredOutRecords _ _); [subst w2|destruct Hw2 as [Q2 _]; rewrite (qu_trace _ _ Q2)]; apply Q1.
  - run_steps. destruct (find_if _ _) as [n|] eqn:Ef.
    + eapply runs_mono; [apply Hsend|]. intros [] w2 [A2 Tr2]. split; [done|]. by exists (Some n).
    + run_steps. destruct (best_route2_earliest _ _ _ _ Ef) as (c & Ec & _). eapply runs_deref; [exact Ec|].
      destruct c as [n|]; cbv beta iota.
      * eapply runs_mono; [apply Hsend|]. intros [] w2 [A2 Tr2]. split; [done|]. by exists (Some n).
      * run_steps. split; [done|]. exists None. split; [done|]. simpl. rewrite app_nil_r. apply Q1.
  - run_steps. split; [done|]. exists None. split; [done|]. simpl. rewrite app_nil_r. apply Q1.
Qed.

#[export] Instance BestRouteStrategy2_laws : StrategyLaws (BestRouteStrategy2 (S := S) (E := E) random_uint32).
Proof.
  apply default_triggers. intros w inFace i fe p Hi (e & Hh & Hr).
  eapply runs_mono; [by apply (best_route2_spec inFace i fe p e w)|]. by intros _ w' [A _].
Qed.
End strategies.
