(* ===== verification/Daemon.v ===== *)
(** * The daemon: construction and steps

    [Forwarder_new] follows the constructors of [Forwarder] and its members
    ([daemon/fw/forwarder.cpp], [daemon/fw/strategy-registry.cpp]).  A step of
    the daemon is a packet, a timer, a face that comes or fails, or a management
    command; the reachable states are those that steps lead to. *)

From Stdlib Require Import Ascii String.
From S2P Require Import Prelude CityHash Packets FibEntry NameTree NameTreeFacts Fib PitEntry Pit StrategyChoice DeadNonceList ContentStore World Forwarder ForwarderInv ForwarderSpec FaceTable Managers Strategies.
Open Scope pipeline_scope.

(** ** Construction *)

Section construction.
Context `{WireEncoding, NameWire, NameOrder, !NameSuccessor} {S E : Type} `{CsPolicy S, NdnSimCs E}.
Abbreviation World := (World S E).
Abbreviation M := (M S E).

(** The names in [getStrategyFactories], in the order of the map *)
Context (factories : list Name).

Definition installStrategies (c : StrategyChoice) : StrategyChoice :=
  foldl (λ c name, if StrategyChoice_hasStrategy c name true then c else (StrategyChoice_install c name).2) c factories.

Definition makeDefaultStrategy : Name := BestRouteStrategy2_STRATEGY_NAME.

Definition StrategyChoice_new (P : Pit) (defaultStrategy : Name) : Pit * StrategyChoice :=
  StrategyChoice_setDefaultStrategy P (mkStrategyChoice [] 0) defaultStrategy.

(** The daemon starts at time [now] with the face objects [objects], among them
    [m_csFace]; [policy] is an empty replacement policy. *)
Definition Forwarder_new (now : Z) (objects : gmap face_ptr Face) (csFace : face_ptr) (policy : S) (csFromNdnSim : option E) : option World :=
  let t := NameTree_new 1024 in
  let '(P, c) := StrategyChoice_new (Pit_new t) makeDefaultStrategy in
  cs ← Cs_new policy 10;
  dnl ← DeadNonceList_new now DEFAULT_LIFETIME;
  let w := mkWorld now objects ∅ FACEID_RESERVED_MAX P 0 (installStrategies c) cs csFromNdnSim dnl ∅ 1 0
             (mkForwarderCounters 0 0 0 0) [] in
  '(_, w) ← FaceTable_addReserved csFace FACEID_CONTENT_STORE w;
  Some w.
End construction.

(** ** Steps *)

Section steps.
Context `{ControlCommands, WireEncoding, NameWire, NameOrder, !NameSuccessor} {S E : Type} `{CsPolicy S, NdnSimCs E}.
Context (matchesData : Interest → Data → bool) (sort : list NextHop → list NextHop).
Context (strategies : Name → Strategy (S := S) (E := E)).
Abbreviation World := (World S E).
Abbreviation M := (M S E).

(** The signals of a face run the handlers connected to it.  The handlers of
    another class of forwarder are connected to a null pointer. *)
Definition face_receive (face : face_ptr) (handler : M unit) : M unit :=
  let* f := gets (λ w, w_faces w !! face) in
  let* f := deref f in
  for_each (face_onReceive f) (λ h, match h with OrdinaryHandlers => handler | _ => fail end).

(** The events of the Dead Nonce List *)
Definition dnl_event (id : positive) : M unit :=
  let* ev := gets (λ w, dnl_scheduled (w_dnl w) !! id) in
  let* (time, ev) := deref ev in
  modify (λ w, set_now (Z.max (w_now w) time) w);;
  modify (λ w, set_dnl (cancel id (w_dnl w)) w);;
  modify (λ w, set_dnl (match ev with
                        | MarkEvent => DeadNonceList_mark (w_now w) (w_dnl w)
                        | AdjustCapacityEvent => DeadNonceList_adjustCapacity (w_now w) (w_dnl w)
                        end) w).

Inductive DaemonStep :=
| ReceiveInterest (face : face_ptr) (interest : Interest)
| ReceiveData (face : face_ptr) (data : Data)
| FireTimer (id : positive)
| DnlTimer (id : positive)
| Elapse (time : Z)
| AddFace (face : face_ptr)
| FailFace (face : face_ptr)
| FibRequest (request : Interest)          (* validated *)
| StrategyRequest (request : Interest).    (* validated *)

Definition daemon_step (s : DaemonStep) : M unit :=
  match s with
  | ReceiveInterest face interest => face_receive face (onInterest matchesData strategies face interest)
  | ReceiveData face data => face_receive face (onData matchesData strategies face data)
  | FireTimer id => fireTimer strategies id
  | DnlTimer id => dnl_event id
  | Elapse time => modify (λ w, set_now (w_now w + time) w)
  | AddFace face => FaceTable_add face false false
  | FailFace face => FaceTable_remove face
  | FibRequest request => let* _ := FibManager_onValidatedFibRequest sort request in ret tt
  | StrategyRequest request => let* _ := StrategyChoiceManager_onValidatedStrategyChoiceRequest request in ret tt
  end.

(** What the environment provides.  Packets come from connected faces and are
    such as ndn-cxx accepts; timers are pending; faces are added once and fail
    when they are in the table; commands have a name and a verb, and their names
    fit in the name tree and have no colliding prefixes. *)
Definition step_ok (w : World) (s : DaemonStep) : Prop :=
  match s with
  | ReceiveInterest face i => is_Some (w_faces w !! face) ∧ ForwarderSpec.step_ok w (StepInterest face i)
  | ReceiveData face d => is_Some (w_faces w !! face) ∧ ForwarderSpec.step_ok w (StepData face d)
  | FireTimer id => is_Some (w_scheduled w !! id)
  | DnlTimer id => is_Some (dnl_scheduled (w_dnl w) !! id)
  | Elapse time => 0 <= time
  | AddFace face => ∃ f, w_faces w !! face = Some f ∧ face_onReceive f = []
  | FailFace face => FaceTable_get (getId face w) w = Some face
  | FibRequest request => is_Some (i_name request !! 4%nat) ∧
      ∀ c p n, i_name request !! 4%nat = Some c → extractParameters c = Some p →
        ∀ id, cp_name (applyDefaultsToRequest FibAddNextHop (setFaceId id p)) = Some n ∨
              cp_name (applyDefaultsToRequest FibAddNextHop p) = Some n → room (pit_nt (w_pit w)) n
  | StrategyRequest request => is_Some (i_name request !! 4%nat) ∧
      ∀ c p n, i_name request !! 4%nat = Some c → extractParameters c = Some p →
        (cp_name (applyDefaultsToRequest StrategyChoiceSet p) = Some n → room (pit_nt (w_pit w)) n ∧ NoDup (computeHashSet n)) ∧
        (cp_name (applyDefaultsToRequest StrategyChoiceUnset p) = Some n → NoDup (computeHashSet (getParentName n)))
  end.

Inductive reachable (w0 : World) : World → Prop :=
| reachable_start : reachable w0 w0
| reachable_step w s w' : reachable w0 w → step_ok w s → daemon_step s w = Some (tt, w') → reachable w0 w'.
End steps.

(** ** Every step ends and keeps the invariant *)

Section invariant.
Context `{ControlCommandsLaws, WireEncoding, NameWire, NameOrder, !NameSuccessor} {S E : Type} `{CsPolicyLaws S, NdnSimCs E}.
Context (matchesData : Interest → Data → bool) (sort : list NextHop → list NextHop) `{!StdSort sort}.
Context (strategies : Name → Strategy (S := S) (E := E)) `{!∀ s, StrategyLaws (strategies s)}.
Abbreviation World := (World S E).
Abbreviation M := (M S E).

(** A face is connected at most once, to the handlers of [Forwarder]. *)
Definition connected (w : World) : Prop :=
  ∀ face f, w_faces w !! face = Some f → face_onReceive f = [] ∨ face_onReceive f = [OrdinaryHandlers].

Lemma same_tables_daemon (w w' : World) : daemon_ok w → fwd_ok w' → same_tables w w' → daemon_ok w'.
Proof.
  intros [_ [A B C D] [L K]] Ho (Ef & Et & El & _ & Eg & Ei). pose proof (fi_pit _ (proj1 Ho)) as W'.
  split; [done| |].
  - split; rewrite ?Ef, ?Et, ?El; done.
  - split.
    + split; [apply W'|apply W'| |].
      * rewrite Ei, (fib_nItems _ _ L). unfold fib_size. do 3 f_equal. symmetry.
        apply payload_names_ext; [apply L|apply W'|done|]. intros m. unfold has_fib.
        pose proof (Eg m) as Em. unfold fib_get in Em. by rewrite Em.
      * intros n e. rewrite Eg. apply (fib_entries _ _ L).
    + intros n e h. rewrite Eg. intros Hn Hh. unfold FaceTable_get, getId. rewrite Ef, Et. by apply (K n e).
Qed.

Lemma face_receive_spec face (handler : M unit) (w : World) (Q : World → Prop) : connected w → is_Some (w_faces w !! face) →
  runs handler w (λ _, Q) → Q w → runs (face_receive face handler) w (λ _, Q).
Proof.
  intros Hc [f Hf] Hh Hq. unfold face_receive. run_steps. eapply runs_deref; [exact Hf|].
  destruct (Hc face f Hf) as [->| ->]; simpl; [by run_steps|]. run_steps.
  eapply runs_mono; [exact Hh|]. intros [] w' Hw'. by run_steps.
Qed.

Lemma packet_step_ok (w : World) face (handler : M unit) : daemon_ok w → connected w → is_Some (w_faces w !! face) →
  runs handler w (λ _ w', fwd_ok w' ∧ same_tables w w') →
  runs (face_receive face handler) w (λ _ w', daemon_ok w' ∧ connected w').
Proof.
  intros Hd Hc Hf Hh. apply face_receive_spec; [done|done| |done].
  eapply runs_mono; [exact Hh|]. intros _ w' [Ho Hs]. split; [by eapply same_tables_daemon|].
  intros g x. destruct Hs as [-> _]. apply Hc.
Qed.

Lemma onValidatedFibRequest_ok (w : World) r : daemon_ok w → step_ok w (FibRequest r) →
  runs (FibManager_onValidatedFibRequest sort r) w (λ _ w', daemon_ok w').
Proof.
  intros Hd [[c Hc] Hr]. unfold FibManager_onValidatedFibRequest. simpl.
  destruct (lookup_lt_is_Some_2 (i_name r) 3) as [verb Hv]; [apply lookup_lt_Some in Hc; lia|].
  run_steps. eapply runs_deref; [exact Hv|]. run_steps. eapply runs_deref; [exact Hc|].
  assert (Hadd : ∀ p, extractParameters c = Some p → ∀ b, runs (FibManager_addNextHop sort (if b : bool then setFaceId (i_incomingFaceId r) p else p)) w
    (λ _ w', daemon_ok w')).
  { intros p Hp b. eapply runs_mono; [apply (FibManager_addNextHop_spec sort w); [done|]|by intros ? w' [? _]].
    intros n Hn. apply (Hr c p n Hc Hp (i_incomingFaceId r)). destruct b; auto. }
  assert (Hrem : ∀ p, runs (FibManager_removeNextHop p) w (λ _ w', daemon_ok w')).
  { intros p. eapply runs_mono; [by apply FibManager_removeNextHop_spec|]. by intros ? w' [? _]. }
  do 2 (case_bool_decide; [destruct (extractParameters c) eqn:Ep; [by auto|by run_steps]|]). by run_steps.
Qed.

Lemma onValidatedStrategyRequest_ok (w : World) r : daemon_ok w → step_ok w (StrategyRequest r) →
  runs (StrategyChoiceManager_onValidatedStrategyChoiceRequest r) w (λ _ w', daemon_ok w').
Proof.
  intros Hd [[c Hc] Hr]. unfold StrategyChoiceManager_onValidatedStrategyChoiceRequest. simpl.
  destruct (lookup_lt_is_Some_2 (i_name r) 3) as [verb Hv]; [apply lookup_lt_Some in Hc; lia|].
  run_steps. eapply runs_deref; [exact Hc|]. destruct (extractParameters c) as [p|] eqn:Ep; [|by run_steps].
  run_steps. eapply runs_deref; [exact Hv|]. case_bool_decide; [|case_bool_decide; [|by run_steps]].
  - eapply runs_mono; [apply (setStrategy_spec w p Hd)|by intros ? w' [? _]]. intros n Hn. by apply (Hr c p n).
  - eapply runs_mono; [apply (unsetStrategy_spec w p Hd)|by intros ? w' [? _]]. intros n Hn. by apply (Hr c p n).
Qed.

Lemma dnl_event_ok id (w : World) : daemon_ok w → is_Some (dnl_scheduled (w_dnl w) !! id) →
  runs (dnl_event id) w (λ _ w', daemon_ok w' ∧ w_faces w' = w_faces w).
Proof.
  intros [[[A B C D I] Hc] F L] [[t ev] Hid]. unfold dnl_event. run_steps. eapply runs_deref; [exact Hid|]. run_steps.
  split; [|done]. split; [split; [by split|exact Hc]|by destruct F|by destruct L].
Qed.

(** A face keeps its handlers, but for a new one. *)
Definition handlers_kept (s : DaemonStep) (w w' : World) : Prop :=
  ∀ g x, w_faces w' !! g = Some x → ∃ x0, w_faces w !! g = Some x0 ∧
    (face_onReceive x = face_onReceive x0 ∨ s = AddFace g ∧ face_onReceive x0 = [] ∧ face_onReceive x = [OrdinaryHandlers]).

Lemma handlers_kept_faces s (w w' : World) : w_faces w' = w_faces w → handlers_kept s w w'.
Proof. intros Ef g x Hx. rewrite Ef in Hx. eauto. Qed.

Definition is_packet (s : DaemonStep) : bool :=
  match s with ReceiveInterest _ _ | ReceiveData _ _ => true | _ => false end.

(** Timers, faces and commands, in a daemon of any kind *)
Lemma control_step_ok s (w : World) : matches_prefix matchesData → is_packet s = false → daemon_ok w → step_ok w s →
  runs (daemon_step matchesData sort strategies s) w (λ _ w', daemon_ok w' ∧ handlers_kept s w w').
Proof.
  intros Hm Hp Hd Hs. pose proof (dm_fwd _ Hd) as Ho.
  destruct s as [face i|face d|id|id|time|face|face|r|r]; simpl in *; try done.
  - eapply runs_mono; [by apply (fwd_step_ok matchesData strategies (StepTimer id) w)|].
    intros _ w' [Ho' Hs']. split; [by eapply same_tables_daemon|]. apply handlers_kept_faces, Hs'.
  - eapply runs_mono; [by apply dnl_event_ok|]. intros _ w' [Hd' Ef]. split; [done|by apply handlers_kept_faces].
  - eapply runs_mono; [by apply (fwd_step_ok matchesData strategies (StepTime time) w)|].
    intros _ w' [Ho' Hs']. split; [by eapply same_tables_daemon|]. apply handlers_kept_faces, Hs'.
  - destruct Hs as (f & Hf & Hcn). destruct Hd as [_ F L].
    eapply runs_mono; [by apply (FaceTable_add_spec w face f false false)|].
    intros _ w' (F' & L' & Ho' & Hadd). split; [split; [by apply Ho'|done|done]|].
    destruct (decide _) as [_|_]; [subst w'; by apply handlers_kept_faces|]. destruct Hadd as (_ & _ & _ & Ef). intros g x. rewrite Ef.
    rewrite lookup_insert_Some. intros [[<- <-]|[_ Hx]]; [|eauto]. exists f. split; [done|right]. simpl. by rewrite Hcn.
  - eapply runs_mono; [by apply FaceTable_remove_spec; [apply Hd..|]|].
    intros _ w' (F' & L' & Ho' & _ & _ & Ef & _). split; [by split|]. intros g x. rewrite Ef.
    intros [(-> & y & Hy & ->)|[_ Hx]]%lookup_alter_Some; eauto.
  - run_steps. eapply runs_mono; [apply (runs_preserves w_faces); [apply FibManager_faces|by apply onValidatedFibRequest_ok]|].
    intros x w' [Hd' Ef]. run_steps. split; [done|by apply handlers_kept_faces].
  - run_steps. eapply runs_mono; [apply (runs_preserves w_faces); [apply StrategyChoiceManager_faces|by apply onValidatedStrategyRequest_ok]|].
    intros x w' [Hd' Ef]. run_steps. split; [done|by apply handlers_kept_faces].
Qed.

Lemma handlers_kept_connected s (w w' : World) : handlers_kept s w w' → connected w → connected w'.
Proof. intros Hk Hc g x Hx. destruct (Hk g x Hx) as (x0 & Hx0 & [->|(_ & _ & ->)]); [by eapply Hc|by right]. Qed.

(** The daemon never stops: each step runs to its end and keeps the invariant. *)
Lemma daemon_step_ok s (w : World) : matches_prefix matchesData → daemon_ok w → connected w → step_ok w s →
  runs (daemon_step matchesData sort strategies s) w (λ _ w', daemon_ok w' ∧ connected w').
Proof.
  intros Hm Hd Hc Hs. pose proof (dm_fwd _ Hd) as Ho. destruct (is_packet s) eqn:Hp.
  - destruct s as [face i|face d| | | | | | |]; try done; destruct Hs as [Hf Hs]; apply packet_step_ok; try done.
    + by apply (fwd_step_ok matchesData strategies (StepInterest face i) w).
    + by apply (fwd_step_ok matchesData strategies (StepData face d) w).
  - eapply runs_mono; [by apply control_step_ok|]. intros _ w' [Hd' Hk]. split; [done|by eapply handlers_kept_connected].
Qed.
Lemma reachable_ok (w0 w : World) : matches_prefix matchesData → daemon_ok w0 → connected w0 →
  reachable matchesData sort strategies w0 w → daemon_ok w ∧ connected w.
Proof.
  intros Hm Hd Hc. induction 1 as [|w s w' _ [IHd IHc] Hs Hw]; [done|].
  exact (runs_det _ _ (λ _ w', daemon_ok w' ∧ connected w') _ _ (daemon_step_ok s w Hm IHd IHc Hs) Hw).
Qed.

(** ** The daemon starts in a state that satisfies the invariant *)

Lemma installStrategies_spec factories c : instances_sorted (sc_instances c) →
  instances_sorted (sc_instances (installStrategies factories c)) ∧
  sc_nItems (installStrategies factories c) = sc_nItems c ∧
  ∀ m, m ∈ sc_instances (installStrategies factories c) ↔ m ∈ factories ∨ m ∈ sc_instances c.
Proof.
  revert c. induction factories as [|n l IH]; intros c Hs; simpl.
  { split_and!; [done|done|]. intros m. rewrite elem_of_nil. naive_solver. }
  pose proof (install_spec c n Hs) as Hi. unfold StrategyChoice_hasStrategy. case_bool_decide as Hn.
  - destruct (IH c Hs) as (A & B & C). split_and!; [done|done|]. intros m. rewrite C, elem_of_cons. naive_solver.
  - destruct (StrategyChoice_install c n) as [r c']. destruct Hi as (A & B & _ & D). simpl.
    destruct (IH c' A) as (A' & B' & C'). split_and!; [done|congruence|]. intros m. rewrite C', B, elem_of_cons. naive_solver.
Qed.

Lemma sc_wf_instances P c c' : sc_wf P c → instances_sorted (sc_instances c') → sc_nItems c' = sc_nItems c →
  (∀ m, m ∈ sc_instances c → m ∈ sc_instances c') → sc_wf P c'.
Proof.
  intros [A B C D I] Hs Hn Hin. split; [done|done|done| |congruence].
  intros n e He. destruct (D n e He) as (? & s & ? & ?). split; [done|]. exists s. auto.
Qed.

Lemma NameTree_new_payload n : payload_at (NameTree_new 1024) n = no_payload.
Proof.
  apply payload_at_None; [by apply (NameTree_new_wf 10)|]. intros a (e & He & _). simpl in He. by rewrite lookup_empty in He.
Qed.

Lemma Pit_new_wf : pit_wf (Pit_new (NameTree_new 1024)).
Proof.
  split; simpl; try (intros; by simplify_map_eq).
  - by apply (NameTree_new_wf 10).
Qed.

Lemma Cs_new_spec (policy : S) : policy_inv policy → policy_keys policy = [] →
  ∃ cs, Cs_new policy 10 = Some cs ∧ cs_wf cs ∧ cs_table cs = [].
Proof.
  intros Hi Hk. exists (mkCs [] policy 10). split; [done|]. split; [|done]. split; simpl; try done; [constructor|by rewrite Hk].
Qed.

Lemma Forwarder_new_spec factories now objects csFace f policy ext :
  policy_inv policy → policy_keys policy = [] → objects !! csFace = Some f →
  (∀ g x, objects !! g = Some x → face_id x = INVALID_FACEID ∧ face_onReceive x = []) →
  ∃ w : World, Forwarder_new factories now objects csFace policy ext = Some w ∧ daemon_ok w ∧ connected w ∧ w_trace w = [].
Proof.
  intros Hpi Hpk Hcs Hobj. unfold Forwarder_new, StrategyChoice_new.
  pose proof (setDefaultStrategy_spec (Pit_new (NameTree_new 1024)) makeDefaultStrategy Pit_new_wf) as Hsc.
  destruct (StrategyChoice_setDefaultStrategy _ _ _) as [P c]. destruct Hsc as (Hsc & T & Een & Ein & Hg).
  { done. }
  { intros n. unfold sc_get. simpl. by rewrite NameTree_new_payload. }
  destruct (Cs_new_spec policy Hpi Hpk) as (cs & -> & Hcw & Hct). simpl.
  set (w := mkWorld now objects ∅ FACEID_RESERVED_MAX P 0 _ cs ext _ ∅ 1 0 _ []).
  destruct (installStrategies_spec factories c (scw_sorted _ _ Hsc)) as (A & B & C).
  assert (Hfg : ∀ n, fib_get (pit_nt P) n = None).
  { intros n. pose proof (st_non_sc _ _ T n) as E'. rewrite NameTree_new_payload in E'. by injection E'. }
  assert (Hd : daemon_ok w).
  { split; [split|split|split]; simpl; try (intros; by simplify_map_eq).
    - split; simpl.
      + apply (sc_wf_instances P c); [done|done|done|]. intros m. rewrite C. auto.
      + unfold entries. simpl. rewrite Een. simpl. intros; by simplify_map_eq.
      + unfold entries. simpl. rewrite Een. split; simpl; intros; by simplify_map_eq.
      + done.
      + rewrite Hct. intros e He. by apply elem_of_nil in He.
    - intros p e He. unfold entries in He. simpl in He. rewrite Een in He. simpl in He. by simplify_map_eq.
    - intros g x Hx Hid. destruct (Hobj g x Hx). congruence.
    - split; [apply T|apply T| |].
      + assert (payload_names has_fib (pit_nt P) = ∅) as Em; [|unfold fib_size; by rewrite Em, size_empty].
        apply set_eq. intros n. rewrite elem_of_payload_names by (done || apply T). unfold has_fib.
        rewrite (Hfg n : p_fib _ = None), bool_decide_eq_true. split; [by intros []|by intros ?%elem_of_empty].
      + intros n e. by rewrite Hfg.
    - intros n e h. by rewrite Hfg. }
  assert (Hc : connected w).
  { intros g x Hx. destruct (Hobj g x Hx) as [_ ->]. by left. }
  destruct (addImpl_ok w csFace f FACEID_CONTENT_STORE false false (dm_faces _ Hd) (dm_links _ Hd) Hcs) as ([] & w' & Ea & F' & L' & _ & _ & Ho & _ & Ef);
    [unfold FaceTable_get; simpl; by rewrite lookup_empty|done|done|done|].
  assert (Hpt : preserves w_trace (FaceTable_addImpl csFace FACEID_CONTENT_STORE false false : M unit)).
  { unfold FaceTable_addImpl. solve_preserves. }
  exists w'. split.
  - assert (R : runs (FaceTable_addReserved csFace FACEID_CONTENT_STORE) w (λ _ x, x = w')).
    { unfold FaceTable_addReserved. run_steps. destruct (Hobj csFace f Hcs) as [Eid _].
      assert (Ei : getId csFace w = INVALID_FACEID) by (unfold getId; simpl; by rewrite Hcs). rewrite Ei.
      eapply runs_assert; [done|]. run_steps. eapply runs_assert; [done|]. run_steps. eapply runs_assert; [done|].
      by exists tt, w'. }
    destruct R as (u & x & -> & ->). done.
  - split; [split; [apply Ho, Hd|done|done]|]. split; [|by apply Hpt in Ea]. intros g x. rewrite Ef, lookup_insert_Some.
    intros [[<- <-]|[_ Hx]]; [|by eapply Hc]. right. simpl. by destruct (Hobj csFace f Hcs) as [_ ->].
Qed.
(** ** What a step sends *)

(** Commands and faces send nothing. *)
Lemma modify_fib_trace {A} (f : NameTree → Z → A * (NameTree * Z)) : preserves (S := S) (E := E) w_trace (modify_fib f).
Proof. intros w a w'. unfold modify_fib. destruct (f _ _) as [b [t n]]. by intros [= <- <-]. Qed.
#[local] Hint Resolve modify_fib_trace : preserves.

Lemma FibManager_trace r : preserves (S := S) (E := E) w_trace (FibManager_onValidatedFibRequest sort r).
Proof.
  assert (Ha : ∀ p, preserves (S := S) (E := E) w_trace (FibManager_addNextHop sort p)).
  { intros p. unfold FibManager_addNextHop. solve_preserves. }
  assert (Hr : ∀ p, preserves (S := S) (E := E) w_trace (FibManager_removeNextHop p)).
  { intros p. unfold FibManager_removeNextHop. solve_preserves. }
  unfold FibManager_onValidatedFibRequest. do 2 (apply preserves_bind; [apply preserves_deref|intros ?]).
  do 2 (case_bool_decide; [solve_preserves|]). solve_preserves.
Qed.

Lemma StrategyChoiceManager_trace r : preserves (S := S) (E := E) w_trace (StrategyChoiceManager_onValidatedStrategyChoiceRequest r).
Proof.
  unfold StrategyChoiceManager_onValidatedStrategyChoiceRequest, StrategyChoiceManager_setStrategy,
    StrategyChoiceManager_unsetStrategy, insertStrategy, eraseStrategy. solve_preserves.
Qed.

Lemma management_trace s : match s with AddFace _ | FailFace _ | FibRequest _ | StrategyRequest _ | DnlTimer _ | Elapse _ => True | _ => False end →
  preserves w_trace (daemon_step matchesData sort strategies s).
Proof.
  destruct s; intros Hs; try done; simpl.
  - unfold dnl_event. solve_preserves.
  - by apply preserves_modify.
  - unfold FaceTable_add, FaceTable_addImpl. solve_preserves.
  - unfold FaceTable_remove. solve_preserves.
  - apply preserves_bind; [apply FibManager_trace|intros; apply preserves_ret].
  - apply preserves_bind; [apply StrategyChoiceManager_trace|intros; apply preserves_ret].
Qed.

(** Why a step sends Data *)
Definition data_reason (w : World) (s : DaemonStep) (f : face_ptr) (d : Data) : Prop :=
  match s with
  | ReceiveInterest g i => data_step_reason matchesData w (StepInterest g i) f d
  | ReceiveData g d0 => data_step_reason matchesData w (StepData g d0) f d
  | _ => False
  end.

Definition sends (w w' : World) (s : DaemonStep) : Prop :=
  ∃ out, w_trace w' = w_trace w ++ out ∧ Forall (output_ok w) out ∧ ∀ f d, SentData f d ∈ out → data_reason w s f d.

Lemma sends_nothing (w w' : World) s : w_trace w' = w_trace w → sends w w' s.
Proof. intros Et. exists []. rewrite app_nil_r. split_and!; [done|done|]. by intros ? ? ?%elem_of_nil. Qed.

Local Ltac management_step :=
  eapply runs_mono; [apply (runs_preserves w_trace); [by apply management_trace|by apply daemon_step_ok]|];
  intros _ w' [_ Et]; by apply sends_nothing.

Lemma daemon_step_sends s (w : World) : matches_prefix matchesData → daemon_ok w → connected w → step_ok w s →
  runs (daemon_step matchesData sort strategies s) w (λ _ w', sends w w' s).
Proof.
  intros Hm Hd Hc Hs. pose proof (dm_fwd _ Hd) as [Hi _].
  destruct s as [face i|face d|id|id|time|face|face|r|r].
  - simpl in *. destruct Hs as [Hf Hs]. apply face_receive_spec; [done|done| |by apply sends_nothing].
    by apply (fwd_step_trace matchesData strategies (StepInterest face i) w).
  - simpl in *. destruct Hs as [Hf Hs]. apply face_receive_spec; [done|done| |by apply sends_nothing].
    by apply (fwd_step_trace matchesData strategies (StepData face d) w).
  - by apply (fwd_step_trace matchesData strategies (StepTimer id) w).
  - management_step.
  - management_step.
  - management_step.
  - management_step.
  - management_step.
  - management_step.
Qed.

(** A face object keeps its scope. *)
Definition locality (w : World) : gmap face_ptr bool := face_isLocal <$> w_faces w.

Lemma isLocal_locality (w w' : World) : locality w' = locality w → ∀ f, isLocal w' f = isLocal w f.
Proof.
  intros El f. unfold isLocal. assert (Ef : locality w' !! f = locality w !! f) by (by rewrite El).
  unfold locality in Ef. rewrite !lookup_fmap in Ef. by destruct (w_faces w' !! f), (w_faces w !! f); simplify_eq/=.
Qed.

Lemma alter_locality (m : gmap face_ptr Face) f g : (∀ x, face_isLocal (g x) = face_isLocal x) →
  face_isLocal <$> alter g f m = face_isLocal <$> m.
Proof.
  intros Hg. apply map_eq. intros i. rewrite !lookup_fmap. destruct (decide (i = f)) as [->|].
  - rewrite lookup_alter_eq. destruct (m !! f); simpl; [by rewrite Hg|done].
  - by rewrite lookup_alter_ne.
Qed.

Lemma daemon_step_locality s (w : World) : matches_prefix matchesData → daemon_ok w → connected w → step_ok w s →
  runs (daemon_step matchesData sort strategies s) w (λ _ w', locality w' = locality w).
Proof.
  intros Hm Hd Hc Hs. pose proof (dm_fwd _ Hd) as Ho.
  assert (Hsame : ∀ w', same_tables w w' → locality w' = locality w) by (intros w' [Ef _]; unfold locality; by rewrite Ef).
  destruct s as [face i|face d|id|id|time|face|face|r|r]; simpl in *.
  - destruct Hs as [Hf Hs]. apply face_receive_spec; [done|done| |done].
    eapply runs_mono; [by apply (fwd_step_ok matchesData strategies (StepInterest face i) w)|]. intros _ w' [_ ?]. auto.
  - destruct Hs as [Hf Hs]. apply face_receive_spec; [done|done| |done].
    eapply runs_mono; [by apply (fwd_step_ok matchesData strategies (StepData face d) w)|]. intros _ w' [_ ?]. auto.
  - eapply runs_mono; [by apply (fwd_step_ok matchesData strategies (StepTimer id) w)|]. intros _ w' [_ ?]. auto.
  - eapply runs_mono; [by apply dnl_event_ok|]. intros _ w' [_ Ef]. unfold locality. by rewrite Ef.
  - by run_steps.
  - destruct Hs as (f & Hf & _). eapply runs_mono; [by apply (FaceTable_add_spec w face f false false); [apply Hd..|]|].
    intros _ w' (_ & _ & _ & Hadd). destruct (decide _) as [_|_]; [by subst w'|]. destruct Hadd as (_ & _ & _ & Ef).
    unfold locality. rewrite Ef, fmap_insert. apply insert_id. rewrite lookup_fmap, Hf. done.
  - eapply runs_mono; [by apply FaceTable_remove_spec; [apply Hd..|]|].
    intros _ w' (_ & _ & _ & _ & _ & Ef & _). unfold locality. rewrite Ef. by apply alter_locality.
  - run_steps. eapply runs_mono; [apply (runs_preserves w_faces); [apply FibManager_faces|by apply onValidatedFibRequest_ok]|].
    intros x w' [_ Ef]. run_steps. unfold locality. by rewrite Ef.
  - run_steps. eapply runs_mono; [apply (runs_preserves w_faces); [apply StrategyChoiceManager_faces|by apply onValidatedStrategyRequest_ok]|].
    intros x w' [_ Ef]. run_steps. unfold locality. by rewrite Ef.
Qed.
(** ** A running daemon *)

(** The state after construction, from face objects that are not in use yet *)
Definition booted (w : World) : Prop :=
  ∃ factories now objects csFace policy ext, policy_inv policy ∧ policy_keys policy = [] ∧ is_Some (objects !! csFace) ∧
    (∀ g x, objects !! g = Some x → face_id x = INVALID_FACEID ∧ face_onReceive x = []) ∧
    Forwarder_new factories now objects csFace policy ext = Some w.

Definition running (w : World) : Prop := ∃ w0, booted w0 ∧ reachable matchesData sort strategies w0 w.

Lemma booted_ok (w : World) : booted w → daemon_ok w ∧ connected w ∧ w_trace w = [].
Proof.
  intros (factories & now & objects & csFace & policy & ext & Hpi & Hpk & [f Hf] & Hobj & Hw).
  destruct (Forwarder_new_spec factories now objects csFace f policy ext Hpi Hpk Hf Hobj) as (w' & Ew & Hd).
  rewrite Hw in Ew. by injection Ew as ->.
Qed.

Lemma running_ok (w : World) : matches_prefix matchesData → running w → daemon_ok w ∧ connected w.
Proof. intros Hm (w0 & Hb & Hr). destruct (booted_ok w0 Hb) as (? & ? & _). by eapply reachable_ok. Qed.

Lemma running_inv (w : World) : matches_prefix matchesData → running w → fwd_ok w.
Proof. intros Hm Hr. apply (running_ok w Hm Hr). Qed.

Lemma running_step (w w' : World) s : running w → step_ok w s → daemon_step matchesData sort strategies s w = Some (tt, w') → running w'.
Proof. intros (w0 & Hb & Hr) Hs Hw. exists w0. split; [done|]. by eapply reachable_step. Qed.

(** A property of the steps holds along a run. *)
Lemma running_ind (P : World → Prop) : matches_prefix matchesData →
  (∀ w, booted w → P w) →
  (∀ w s w', running w → P w → step_ok w s → daemon_step matchesData sort strategies s w = Some (tt, w') → P w') →
  ∀ w, running w → P w.
Proof.
  intros Hm Hb Hs w (w0 & Hw0 & Hr). induction Hr as [|w s w' Hr IH Hok Hw]; [by apply Hb|].
  apply (Hs w s w'); [by exists w0|done..].
Qed.
End invariant.
