(* ===== verification/Variants.v ===== *)
(** * Daemons with a forwarder of a derived class

    [PITlessForwarder] and [BridgeForwarder] derive from [Forwarder]; a face
    added to one of them is connected to the pipelines of the derived class, the
    CS face and its like to those of [Forwarder] ([FaceTable::addImpl]).  The
    steps of such a daemon are given here for any derived class, and the class
    only has to show that its packet handlers end and keep the invariant. *)

From S2P Require Import Prelude CityHash Packets FibEntry NameTree NameTreeFacts Fib PitEntry Pit StrategyChoice DeadNonceList ContentStore World Forwarder ForwarderInv ForwarderSpec FaceTable Managers Strategies Daemon.
Open Scope pipeline_scope.

#[export] Instance Handlers_eq_dec : EqDecision Handlers.
Proof. solve_decision. Defined.

Section variant.
Context `{ControlCommands, WireEncoding, NameWire, NameOrder, !NameSuccessor} {S E : Type} `{CsPolicy S, NdnSimCs E}.
Context (matchesData : Interest → Data → bool) (sort : list NextHop → list NextHop).
Context (strategies : Name → Strategy (S := S) (E := E)).
Abbreviation World := (World S E).
Abbreviation M := (M S E).

(** ** Construction *)

(** The base class is constructed, then the strategies of the derived class are
    installed: [installPITlessStrategies], [installBridgeStrategies]. *)
Definition install_more (names : list Name) (w : World) : World :=
  set_strategies (installStrategies names (w_strategies w)) w.

Definition variant_new (names factories : list Name) (now : Z) (objects : gmap face_ptr Face) (csFace : face_ptr) (policy : S)
    (csFromNdnSim : option E) : option World :=
  w ← Forwarder_new factories now objects csFace policy csFromNdnSim;
  Some (install_more names w).

(** ** Steps *)

(** The derived class: its handlers, as [FaceTable::addImpl] connects them *)
Context (kind : Handlers) (isPITless isBridge : bool).
Context (variantInterest : face_ptr → Interest → M unit) (variantData : face_ptr → Data → M unit).

(** A handler of a third class is bound to the null pointer [dynamic_cast] gives. *)
Definition variant_receive (face : face_ptr) (ordinary variant : M unit) : M unit :=
  let* f := gets (λ w, w_faces w !! face) in
  let* f := deref f in
  for_each (face_onReceive f) (λ h,
    if bool_decide (h = kind) then variant else if bool_decide (h = OrdinaryHandlers) then ordinary else fail).

Definition variant_step (s : DaemonStep) : M unit :=
  match s with
  | ReceiveInterest face interest =>
      variant_receive face (onInterest matchesData strategies face interest) (variantInterest face interest)
  | ReceiveData face data => variant_receive face (onData matchesData strategies face data) (variantData face data)
  | AddFace face => FaceTable_add face isPITless isBridge
  | s => daemon_step matchesData sort strategies s
  end.

(** What the derived class asks of the environment, besides [step_ok] *)
Context (packet_ok : World → DaemonStep → Prop).

Inductive variant_reachable (w0 : World) : World → Prop :=
| variant_start : variant_reachable w0 w0
| variant_next w s w' : variant_reachable w0 w → step_ok w s → packet_ok w s → variant_step s w = Some (tt, w') →
    variant_reachable w0 w'.

End variant.

(** ** The invariant *)

Section variant_spec.
Context `{ControlCommandsLaws, WireEncoding, NameWire, NameOrder, !NameSuccessor} {S E : Type} `{CsPolicyLaws S, NdnSimCs E}.
Context (matchesData : Interest → Data → bool) (sort : list NextHop → list NextHop) `{!StdSort sort}.
Context (strategies : Name → Strategy (S := S) (E := E)) `{!∀ s, StrategyLaws (strategies s)}.
Abbreviation World := (World S E).
Abbreviation M := (M S E).
Context (kind : Handlers) (isPITless isBridge : bool) (names : list Name).
Context (variantInterest : face_ptr → Interest → M unit) (variantData : face_ptr → Data → M unit).
Context (packet_ok : World → DaemonStep → Prop).

Definition installed (w : World) : list Name := sc_instances (w_strategies w).

Record variant_ok (w : World) : Prop := {
  vo_daemon : daemon_ok w;
  vo_connected face f : w_faces w !! face = Some f → face_onReceive f = [] ∨ ∃ h, face_onReceive f = [h] ∧ (h = OrdinaryHandlers ∨ h = kind);
  vo_installed n : n ∈ names → n ∈ installed w
}.

(** The interface of the derived class *)
Class VariantLaws : Prop := {
  vl_kind : handlers_of isPITless isBridge = kind;
  vl_interest w face i : variant_ok w → step_ok w (ReceiveInterest face i) → packet_ok w (ReceiveInterest face i) →
    runs (variantInterest face i) w (λ _ w', fwd_ok w' ∧ same_tables w w');
  vl_data w face d : variant_ok w → step_ok w (ReceiveData face d) → packet_ok w (ReceiveData face d) →
    runs (variantData face d) w (λ _ w', fwd_ok w' ∧ same_tables w w')
}.
(** *** Installed strategies are not uninstalled *)

Lemma insertStrategy_installed prefix s : preserves (S := S) (E := E) installed (insertStrategy prefix s).
Proof.
  unfold insertStrategy. intros w a w'. unfold bind, gets. simpl. unfold StrategyChoice_insert, deref, modify, ret, fail.
  repeat case_match; simplify_option_eq; repeat case_match; simplify_option_eq; try done; by intros [= <- <-].
Qed.
Lemma eraseStrategy_installed prefix : preserves (S := S) (E := E) installed (eraseStrategy prefix).
Proof.
  unfold eraseStrategy. intros w a w'. unfold bind, gets. simpl. unfold StrategyChoice_erase, deref, modify, ret, fail.
  repeat case_match; simplify_option_eq; repeat case_match; simplify_option_eq; try done; by intros [= <- <-].
Qed.
#[local] Hint Resolve insertStrategy_installed eraseStrategy_installed : preserves.

Lemma modify_fib_installed {A} (f : NameTree → Z → A * (NameTree * Z)) : preserves (S := S) (E := E) installed (modify_fib f).
Proof. intros w a w'. unfold modify_fib. destruct (f _ _) as [b [t n]]. by intros [= <- <-]. Qed.
#[local] Hint Resolve modify_fib_installed : preserves.

Lemma management_installed s : match s with AddFace _ | FailFace _ | FibRequest _ | StrategyRequest _ | DnlTimer _ | Elapse _ => True | _ => False end →
  preserves installed (daemon_step matchesData sort strategies s).
Proof.
  assert (Ha : ∀ p, preserves (S := S) (E := E) installed (FibManager_addNextHop sort p)).
  { intros p. unfold FibManager_addNextHop. solve_preserves. }
  assert (Hr : ∀ p, preserves (S := S) (E := E) installed (FibManager_removeNextHop p)).
  { intros p. unfold FibManager_removeNextHop. solve_preserves. }
  destruct s; intros Hs; try done; simpl.
  - unfold dnl_event. solve_preserves.
  - solve_preserves.
  - unfold FaceTable_add, FaceTable_addImpl. solve_preserves.
  - unfold FaceTable_remove. solve_preserves.
  - apply preserves_bind; [|intros; apply preserves_ret]. unfold FibManager_onValidatedFibRequest.
    do 2 (apply preserves_bind; [apply preserves_deref|intros ?]). do 2 (case_bool_decide; [solve_preserves|]). solve_preserves.
  - unfold StrategyChoiceManager_onValidatedStrategyChoiceRequest, StrategyChoiceManager_setStrategy, StrategyChoiceManager_unsetStrategy.
    solve_preserves.
Qed.

(** *** A face of the derived class *)

Definition variant_face (w : World) (face : face_ptr) : Prop :=
  ∃ f, w_faces w !! face = Some f ∧ face_onReceive f = [kind].

Lemma variant_receive_own (w : World) face (ordinary variant : M unit) Q : variant_face w face →
  runs variant w (λ _, Q) → runs (variant_receive kind face ordinary variant) w (λ _, Q).
Proof.
  intros (f & Hf & Hh) Hr. unfold variant_receive. run_steps. eapply runs_deref; [exact Hf|]. rewrite Hh. simpl.
  rewrite bool_decide_eq_true_2 by done. run_steps. eapply runs_mono; [exact Hr|]. intros [] w' Hw'. by run_steps.
Qed.

Lemma variant_face_faces (w w' : World) face : w_faces w' = w_faces w → variant_face w face → variant_face w' face.
Proof. intros Ef (f & Hf & Hh). exists f. by rewrite Ef. Qed.

(** *** Steps *)

Lemma variant_receive_ok face (ordinary variant : M unit) (w : World) : variant_ok w → is_Some (w_faces w !! face) →
  runs ordinary w (λ _ w', fwd_ok w' ∧ same_tables w w') → runs variant w (λ _ w', fwd_ok w' ∧ same_tables w w') →
  runs (variant_receive kind face ordinary variant) w (λ _ w', variant_ok w').
Proof.
  intros [Hd Hc Hn] [f Hf] Ho Hv. unfold variant_receive. run_steps. eapply runs_deref; [exact Hf|].
  assert (Hok : ∀ m : M unit, runs m w (λ _ w', fwd_ok w' ∧ same_tables w w') → runs m w (λ _ w', variant_ok w')).
  { intros m Hm. eapply runs_mono; [exact Hm|]. intros [] w' [Ho' Hs]. split; [by eapply same_tables_daemon| |].
    - destruct Hs as [Ef _]. intros g x. rewrite Ef. apply Hc.
    - destruct Hs as (_ & _ & _ & Es & _). unfold installed. rewrite Es. apply Hn. }
  destruct (Hc face f Hf) as [->|(h & -> & Hh)]; simpl; [run_steps; by split|]. run_steps.
  destruct Hh as [->| ->].
  - case_bool_decide; [eapply runs_mono; [by apply Hok|]; intros [] w' ?; by run_steps|].
    rewrite bool_decide_eq_true_2 by done. eapply runs_mono; [by apply Hok|]. intros [] w' ?. by run_steps.
  - rewrite bool_decide_eq_true_2 by done. eapply runs_mono; [by apply Hok|]. intros [] w' ?. by run_steps.
Qed.

(** Timers, faces and commands *)
Lemma variant_control_ok s (w : World) : handlers_of isPITless isBridge = kind → matches_prefix matchesData → is_packet s = false →
  variant_ok w → step_ok w s →
  runs (variant_step matchesData sort strategies kind isPITless isBridge variantInterest variantData s) w (λ _ w', variant_ok w').
Proof.
  intros Hkind Hm Hpk Hv Hs. pose proof Hv as [Hd Hc Hn].
  assert (Hctl : (∀ g, s ≠ AddFace g) →
    match s with FireTimer id => True | _ => preserves installed (daemon_step matchesData sort strategies s) end →
    runs (daemon_step matchesData sort strategies s) w (λ _ w', variant_ok w')).
  { intros Hna Hpr. assert (R : runs (daemon_step matchesData sort strategies s) w
      (λ _ w', (daemon_ok w' ∧ handlers_kept s w w') ∧ installed w' = installed w)).
    { destruct s as [| |id| | | | | |]; try by apply runs_preserves, control_step_ok.
      eapply runs_mono; [by apply (fireTimer_ok strategies id w); [apply Hd|]|]. intros [] w' [Ho Hs']. split; [split|].
      - by eapply same_tables_daemon.
      - apply handlers_kept_faces, Hs'.
      - unfold installed. destruct Hs' as (_ & _ & _ & -> & _). done. }
    eapply runs_mono; [exact R|]. intros [] w' [[Hd' Hk] Ei]. split; [done| |by rewrite Ei].
    intros g x Hx. destruct (Hk g x Hx) as (x0 & Hx0 & [->|[Ha _]]); [by eapply Hc|]. by destruct (Hna g). }
  destruct s as [face i|face d|id|id|time|face|face|r|r]; try done; try (by apply Hctl; [done|try done; by apply management_installed]).
  destruct Hs as (f & Hf & Hcn). destruct Hd as [Ho F L]. simpl.
  eapply runs_mono; [apply (runs_preserves installed); [unfold FaceTable_add, FaceTable_addImpl; solve_preserves|]|].
  { by apply (FaceTable_add_spec w face f isPITless isBridge). }
  intros [] w' [(F' & L' & Ho' & Hadd) Ei]. split; [split; [by apply Ho'|done|done]| |by rewrite Ei].
  destruct (decide _) as [_|_]; [by subst w'|]. destruct Hadd as (_ & _ & _ & Ef). intros g x. rewrite Ef.
  rewrite lookup_insert_Some. intros [[<- <-]|[_ Hx]]; [|by eapply Hc]. right. exists kind. simpl. rewrite Hcn, Hkind. by split; [|right].
Qed.

(** The daemon never stops: each step runs to its end and keeps the invariant. *)
Lemma variant_step_ok `{!VariantLaws} s (w : World) : matches_prefix matchesData → variant_ok w → step_ok w s → packet_ok w s →
  runs (variant_step matchesData sort strategies kind isPITless isBridge variantInterest variantData s) w (λ _ w', variant_ok w').
Proof.
  intros Hm Hv Hs Hp. destruct (is_packet s) eqn:Hpk; [|by apply variant_control_ok; [apply vl_kind|..]].
  destruct s as [face i|face d| | | | | | |]; try done; destruct (Hs) as [Hf _]; apply variant_receive_ok; try done.
  - by apply (fwd_step_ok matchesData strategies (StepInterest face i) w); [|apply Hv|apply Hs].
  - by apply vl_interest.
  - by apply (fwd_step_ok matchesData strategies (StepData face d) w); [|apply Hv|apply Hs].
  - by apply vl_data.
Qed.

Lemma variant_reachable_ok `{!VariantLaws} (w0 w : World) : matches_prefix matchesData → variant_ok w0 →
  variant_reachable matchesData sort strategies kind isPITless isBridge variantInterest variantData packet_ok w0 w → variant_ok w.
Proof.
  intros Hm H0' Hr. induction Hr as [|w s w' _ IH Hs Hp Hw]; [done|].
  exact (runs_det _ _ (λ _ w', variant_ok w') _ _ (variant_step_ok s w Hm IH Hs Hp) Hw).
Qed.

Lemma variant_new_ok factories now objects csFace f policy ext :
  policy_inv policy → policy_keys policy = [] → objects !! csFace = Some f →
  (∀ g x, objects !! g = Some x → face_id x = INVALID_FACEID ∧ face_onReceive x = []) →
  ∃ w : World, variant_new names factories now objects csFace policy ext = Some w ∧ variant_ok w ∧ w_trace w = [].
Proof.
  intros Hpi Hpk Hcs Hobj.
  destruct (Forwarder_new_spec factories now objects csFace f policy ext Hpi Hpk Hcs Hobj) as (w & Ew & Hd & Hc & Ht).
  unfold variant_new. rewrite Ew. simpl. eexists. split; [done|]. split; [|done].
  destruct Hd as [[[A B C D I] Hcov] F L].
  destruct (installStrategies_spec names (w_strategies w) (scw_sorted _ _ A)) as (A' & B' & C').
  split.
  - split; [split; [split; [|done..]|done]|by destruct F|by destruct L].
    apply (sc_wf_instances _ (w_strategies w)); [done|done|done|]. intros m Hm. apply C'. by right.
  - intros g x Hx. destruct (Hc g x Hx) as [->| ->]; [by left|right]. exists OrdinaryHandlers. auto.
  - intros n Hin. apply C'. by left.
Qed.

(** A daemon constructed from face objects that are not in use yet, and run *)
Definition variant_running (w : World) : Prop :=
  ∃ factories now objects csFace policy ext w0, (policy_inv policy ∧ policy_keys policy = [] ∧ is_Some (objects !! csFace) ∧
    ∀ g x, objects !! g = Some x → face_id x = INVALID_FACEID ∧ face_onReceive x = []) ∧
    variant_new names factories now objects csFace policy ext = Some w0 ∧
    variant_reachable matchesData sort strategies kind isPITless isBridge variantInterest variantData packet_ok w0 w.

Lemma variant_running_step w s w' : variant_running w → step_ok w s → packet_ok w s →
  variant_step matchesData sort strategies kind isPITless isBridge variantInterest variantData s w = Some (tt, w') → variant_running w'.
Proof.
  intros (fa & now & o & cs & po & ext & w0 & Hp0 & Hn & Hr) ???. exists fa, now, o, cs, po, ext, w0.
  split; [done|]. split; [done|]. by eapply variant_next.
Qed.

Lemma variant_running_ok `{!VariantLaws} (w : World) : matches_prefix matchesData → variant_running w → variant_ok w.
Proof.
  intros Hm (fa & now & o & cs & po & ext & w0 & (Hpi & Hpk & [f Hf] & Ho) & Hn & Hr).
  destruct (variant_new_ok fa now o cs f po ext Hpi Hpk Hf Ho) as (w0' & Ew & Hv & _).
  rewrite Hn in Ew. injection Ew as ->. by eapply variant_reachable_ok.
Qed.
End variant_spec.
