(* ===== verification/Pitless.v ===== *)
(** * PITless forwarding: [daemon/fw/pitless-forwarder.cpp],
      [daemon/fw/pitless-strategy.cpp], [daemon/fw/pitless-*-strategy.cpp]

    A forwarder without PIT state.  Interests are answered from the content
    store or sent to a next hop of their name; Data are routed the same way, by
    their own name, which is the supporting name of the Interest they answer.
    The class derives from [Forwarder]; a face is connected to the pipelines of
    one of the two.  Delay callbacks and logging are left out. *)

From Stdlib Require Import Ascii String.
From S2P Require Import Prelude CityHash Packets FibEntry NameTree NameTreeFacts Fib PitEntry Pit StrategyChoice DeadNonceList ContentStore World Forwarder ForwarderInv ForwarderSpec FaceTable Managers Strategies Daemon Variants.
Open Scope pipeline_scope.

Definition PITlessBestRouteStrategy_STRATEGY_NAME : Name := strategy_name "pitless-best-route" 1.
Definition PITlessMulticastStrategy_STRATEGY_NAME : Name := strategy_name "pitless-multicast" 1.
Definition NccStrategy_STRATEGY_NAME : Name := strategy_name "ncc" 1.
Definition AccessStrategy_STRATEGY_NAME : Name := strategy_name "access" 1.

(** The names in [getPITlessStrategyFactories], in the order of the map *)
Definition pitless_factories : list Name := [PITlessMulticastStrategy_STRATEGY_NAME; PITlessBestRouteStrategy_STRATEGY_NAME].

Section pitless.
Context `{WireEncoding, NameWire, NameOrder, !NameSuccessor} {S E : Type} `{CsPolicy S, NdnSimCs E}.
Context (matchesData : Interest → Data → bool).
Abbreviation World := (World S E).
Abbreviation M := (M S E).
Abbreviation Strategy := (Strategy (S := S) (E := E)).

(** ** Construction *)

Definition PITlessForwarder_new : list Name → Z → gmap face_ptr Face → face_ptr → S → option E → option World :=
  variant_new pitless_factories.

(** ** Strategies *)

Definition predicate_canForwardTo_NextHop (w : World) (inFace : face_ptr) (nexthop : NextHop) : bool :=
  negb (getId inFace w =? getId (nh_face nexthop) w).

Definition onOutgoingInterestPITless (interest : Interest) (outFace : face_ptr) (wantNewNonce : bool) : M unit :=
  let* id := gets (getId outFace) in
  if id =? INVALID_FACEID then ret tt
  else emit (SentInterest outFace interest).

Definition sendInterestPITless (interest : Interest) (outFace : face_ptr) (wantNewNonce : bool) : M unit :=
  onOutgoingInterestPITless interest outFace wantNewNonce.

Definition PITlessBestRouteStrategy_afterReceiveInterestPITless (inFace : face_ptr) (interest : Interest) (fibEntry : FibEntry) : M unit :=
  let* it := gets (λ w, find_if (predicate_canForwardTo_NextHop w inFace) (fe_nextHops fibEntry)) in
  match it with
  | None => ret tt
  | Some it => sendInterestPITless interest (nh_face it) false
  end.

Definition PITlessMulticastStrategy_afterReceiveInterestPITless (inFace : face_ptr) (interest : Interest) (fibEntry : FibEntry) : M unit :=
  for_each (fe_nextHops fibEntry) (λ it,
    let outFace := nh_face it in
    let* inId := gets (getId inFace) in
    let* outId := gets (getId outFace) in
    when (negb (inId =? outId)) (sendInterestPITless interest outFace false)).

(** The trigger of the ordinary pipelines does nothing. *)
Definition PITlessStrategy_afterReceiveInterest (inFace : face_ptr) (interest : Interest) (fibEntry : FibEntry) (p : pit_ptr) : M unit :=
  ret tt.

Definition PITlessStrategy : Strategy :=
  mkStrategy PITlessStrategy_afterReceiveInterest Strategy_beforeSatisfyInterest Strategy_beforeExpirePendingInterest.

(** The trigger of the strategy object installed under a name; another object is
    not a [PITlessStrategy]. *)
Definition afterReceiveInterestPITless (strategy : Name) (inFace : face_ptr) (interest : Interest) (fibEntry : FibEntry) : M unit :=
  if bool_decide (strategy = PITlessBestRouteStrategy_STRATEGY_NAME)
  then PITlessBestRouteStrategy_afterReceiveInterestPITless inFace interest fibEntry
  else if bool_decide (strategy = PITlessMulticastStrategy_STRATEGY_NAME)
  then PITlessMulticastStrategy_afterReceiveInterestPITless inFace interest fibEntry
  else fail.

(** [beforeSatisfyInterest] with a null PIT entry: the default trigger writes to
    the log; NCC and access begin by using the entry. *)
Definition beforeSatisfyInterest_nullptr (strategy : Name) : M unit :=
  if bool_decide (strategy = NccStrategy_STRATEGY_NAME) || bool_decide (strategy = AccessStrategy_STRATEGY_NAME) then fail
  else ret tt.

(** ** Pipelines *)

Definition dispatchToPITlessStrategy (prefix : Name) (trigger : Name → M unit) : M unit :=
  let* strategy := gets (λ w, StrategyChoice_findEffectiveStrategy (pit_nt (w_pit w)) prefix) in
  let* strategy := deref strategy in
  trigger strategy.

Definition PITless_onContentStoreMiss (inFace : face_ptr) (interest : Interest) : M unit :=
  let* fibEntry := gets (λ w, Fib_findLongestPrefixMatch (pit_nt (w_pit w)) (i_name interest)) in
  let strategyName := PITlessBestRouteStrategy_STRATEGY_NAME in
  let* strategy := gets (λ w, StrategyChoice_getStrategy (w_strategies w) strategyName) in
  let* strategy := deref strategy in
  afterReceiveInterestPITless strategy inFace interest fibEntry.

Definition PITless_onContentStoreHit (inFace : face_ptr) (interest : Interest) (data : Data) : M unit :=
  let strategyName := PITlessBestRouteStrategy_STRATEGY_NAME in
  dispatchToPITlessStrategy strategyName beforeSatisfyInterest_nullptr;;
  let data := setDataIncomingFaceId FACEID_CONTENT_STORE data in
  onOutgoingData data inFace.

Definition PITless_onIncomingInterest (inFace : face_ptr) (interest : Interest) : M unit :=
  let* id := gets (getId inFace) in
  let interest := setInterestIncomingFaceId id interest in
  count_InInterest;;
  let* local := gets isLocal in
  let isViolatingLocalhost := negb (local inFace) && isPrefixOf LOCALHOST_NAME (i_name interest) in
  if isViolatingLocalhost then ret tt
  else
    let* match_ := cs_find matchesData interest in
    match match_ with
    | Some data => PITless_onContentStoreHit inFace interest data
    | None => PITless_onContentStoreMiss inFace interest
    end.

Definition PITless_onIncomingData (inFace : face_ptr) (data : Data) : M unit :=
  let* id := gets (getId inFace) in
  let data := setDataIncomingFaceId id data in
  count_InData;;
  let* local := gets isLocal in
  let isViolatingLocalhost := negb (local inFace) && isPrefixOf LOCALHOST_NAME (d_supportingName data) in
  if isViolatingLocalhost then ret tt
  else
    cs_insert data false;;
    let* fibEntry := gets (λ w, Fib_findLongestPrefixMatch (pit_nt (w_pit w)) (d_name data)) in
    let* it := gets (λ w, find_if (predicate_canForwardTo_NextHop w inFace) (fe_nextHops fibEntry)) in
    match it with
    | None => ret tt
    | Some it =>
        let outFace := nh_face it in
        if bool_decide (outFace = inFace) then ret tt
        else onOutgoingData data outFace
    end.

Definition PITless_onInterest (face : face_ptr) (interest : Interest) : M unit := PITless_onIncomingInterest face interest.
Definition PITless_onData (face : face_ptr) (data : Data) : M unit := PITless_onIncomingData face data.
End pitless.

(** ** What the pipelines do *)

Section pitless_spec.
Context `{WireEncoding, NameWire, NameOrder, !NameSuccessor} {S E : Type} `{CsPolicyLaws S, NdnSimCs E}.
Context (matchesData : Interest → Data → bool).
Abbreviation World := (World S E).
Abbreviation M := (M S E).

(** Nothing but the content store, the counters and the trace changes: no PIT
    entry, timer, nonce or name-tree entry is left behind. *)
Record stateless (w w' : World) : Prop := {
  sl_core : same_core w w';
  sl_dnl : w_dnl w' = w_dnl w;
  sl_random : w_random w' = w_random w
}.

Lemma stateless_refl w : stateless w w.
Proof. by repeat split. Qed.

Lemma same_core_trans (w1 w2 w3 : World) : same_core w1 w2 → same_core w2 w3 → same_core w1 w3.
Proof. intros [] []. split; try (by etrans). split; intuition congruence. Qed.

Lemma stateless_trans w1 w2 w3 : stateless w1 w2 → stateless w2 w3 → stateless w1 w3.
Proof. intros [] []. split; [by eapply same_core_trans|congruence|congruence]. Qed.

Lemma stateless_ok w w' : fwd_inv w' → fwd_ok w → stateless w w' → fwd_ok w'.
Proof.
  intros Hi [_ Hc] [Hs _ _]. split; [done|]. intros p. unfold covered, entries. rewrite (sa_pit _ _ Hs), (sa_scheduled _ _ Hs). apply Hc.
Qed.

(** The next hop for a name, for packets from [inFace]: the first of the longest
    matching FIB entry that is another face *)
Definition next_hop (w : World) (inFace : face_ptr) (n : Name) : option face_ptr :=
  nh_face <$> find_if (predicate_canForwardTo_NextHop w inFace)
    (fe_nextHops (default s_emptyEntry (lpm (fib_get (pit_nt (w_pit w))) n))).

Definition valid_face (w : World) (f : face_ptr) : bool := negb (getId f w =? INVALID_FACEID).

Definition interest_to_next_hop (w : World) (inFace : face_ptr) (i : Interest) : list Output :=
  match next_hop w inFace (i_name i) with
  | Some f => if valid_face w f then [SentInterest f i] else []
  | None => []
  end.
Definition data_to_next_hop (w : World) (inFace : face_ptr) (d : Data) : list Output :=
  match next_hop w inFace (d_name d) with
  | Some f => if can_send w f (d_name d) then [SentData f d] else []
  | None => []
  end.
Definition data_from_store (w : World) (inFace : face_ptr) (d : Data) : list Output :=
  if can_send w inFace (d_name d) then [SentData inFace (setDataIncomingFaceId FACEID_CONTENT_STORE d)] else [].

Lemma next_hop_core w w' inFace n : same_core w w' → next_hop w' inFace n = next_hop w inFace n.
Proof.
  intros [Ep _ _ _ _ _ Ef _]. unfold next_hop. rewrite Ep. f_equal. apply find_if_ext. intros h _.
  unfold predicate_canForwardTo_NextHop, getId. by rewrite Ef.
Qed.

Lemma next_hop_other w inFace n f : next_hop w inFace n = Some f → getId f w ≠ getId inFace w ∧ f ≠ inFace.
Proof.
  unfold next_hop. destruct (find_if _ _) as [h|] eqn:Eh; [|done]. intros [= <-].
  apply find_if_Some in Eh as [_ Hp%negb_true_iff%Z.eqb_neq]. split; congruence.
Qed.

(** What the forwarder has to offer: the strategy the code names is installed,
    and the strategy in effect for that name tolerates a null PIT entry. *)
Definition strategy_ready (name : Name) (w : World) : Prop :=
  name ∈ sc_instances (w_strategies w) ∧ NoDup (computeHashSet name) ∧
  ∀ s, effective (pit_nt (w_pit w)) name = Some s → s ≠ NccStrategy_STRATEGY_NAME ∧ s ≠ AccessStrategy_STRATEGY_NAME.
Definition pitless_ready : World → Prop := strategy_ready PITlessBestRouteStrategy_STRATEGY_NAME.

Lemma strategy_ready_core name w w' : same_core w w' → strategy_ready name w → strategy_ready name w'.
Proof. intros [Ep _ _ Es _ _ _ _]. unfold strategy_ready. by rewrite Ep, Es. Qed.
Lemma emit_eq (o : Output) w : emit (S := S) (E := E) o w = Some (tt, set_trace (w_trace w ++ [o]) w).
Proof. done. Qed.

Lemma gets_bind {A B} (g : World → A) (k : A → M B) w : bind (gets g) k w = k (g w) w.
Proof. done. Qed.
Lemma deref_bind {A B} (a : A) (k : A → M B) w : bind (deref (Some a)) k w = k a w.
Proof. done. Qed.

Lemma sendInterestPITless_eq i f b w :
  sendInterestPITless (S := S) (E := E) i f b w = Some (tt, if valid_face w f then set_trace (w_trace w ++ [SentInterest f i]) w else w).
Proof.
  unfold sendInterestPITless, onOutgoingInterestPITless, bind, gets, valid_face. simpl. by destruct (_ =? _).
Qed.

Lemma set_trace_stateless l (w : World) : stateless w (set_trace l w).
Proof. by repeat split. Qed.

Lemma stateless_send_data w f d : stateless w (if can_send w f (d_name d) then add_outData (set_trace (w_trace w ++ [SentData f d]) w) else w).
Proof. destruct (can_send _ _ _); by repeat split. Qed.

(** *** Strategies *)

Lemma PITlessBestRoute_spec inFace i fe (w : World) :
  PITlessBestRouteStrategy_afterReceiveInterestPITless inFace i fe w = Some (tt,
    match find_if (predicate_canForwardTo_NextHop w inFace) (fe_nextHops fe) with
    | Some h => if valid_face w (nh_face h) then set_trace (w_trace w ++ [SentInterest (nh_face h) i]) w else w
    | None => w
    end).
Proof.
  unfold PITlessBestRouteStrategy_afterReceiveInterestPITless, bind at 1, gets at 1. simpl.
  destruct (find_if _ _); [apply sendInterestPITless_eq|done].
Qed.

(** One round of the multicast loop *)
Lemma multicast_round inFace i h (w : World) :
  (let outFace := nh_face h in
   let* inId := gets (getId inFace) in
   let* outId := gets (getId outFace) in
   when (negb (inId =? outId)) (sendInterestPITless i outFace false)) w =
  Some (tt, set_trace (w_trace w ++ (if decide (getId (nh_face h) w ≠ getId inFace w ∧ valid_face w (nh_face h) = true)
                                     then [SentInterest (nh_face h) i] else [])) w).
Proof.
  unfold bind, gets. simpl. case_decide as Hd; [destruct Hd as [Hne Hv]|].
  - rewrite (proj2 (Z.eqb_neq _ _)) by congruence. simpl. by rewrite sendInterestPITless_eq, Hv.
  - rewrite app_nil_r. assert (Ew : set_trace (w_trace w) w = w) by by destruct w. rewrite Ew.
    destruct (_ =? _) eqn:Eq; [done|]. simpl. rewrite sendInterestPITless_eq. apply Z.eqb_neq in Eq.
    destruct (valid_face w (nh_face h)) eqn:Ev; [|done]. destruct Hd. by split.
Qed.

(** Multicast sends to every next hop that is another face, in order. *)
Lemma PITlessMulticast_spec inFace i fe (w : World) :
  PITlessMulticastStrategy_afterReceiveInterestPITless inFace i fe w = Some (tt,
    set_trace (w_trace w ++ ((λ f, SentInterest f i) <$>
      filter (λ f, getId f w ≠ getId inFace w ∧ valid_face w f = true) (nh_face <$> fe_nextHops fe))) w).
Proof.
  unfold PITlessMulticastStrategy_afterReceiveInterestPITless. revert w. induction (fe_nextHops fe) as [|h l IH]; intros w.
  - simpl. rewrite app_nil_r. by destruct w.
  - cbn [for_each]. rewrite (bind_eq _ _ _ _ _ (multicast_round inFace i h w)), IH. csimpl. rewrite filter_cons.
    change (set_trace ?l (set_trace ?l' w)) with (set_trace l w). do 2 f_equal.
    unfold valid_face, getId. simpl. rewrite <-app_assoc. f_equal. by case_decide.
Qed.

(** *** Pipelines *)

Lemma onContentStoreMiss_pitless inFace i (w : World) : fwd_inv w → pitless_ready w → NoDup (computeHashSet (i_name i)) →
  runs (PITless_onContentStoreMiss inFace i) w (λ _ w', w' = set_trace (w_trace w ++ interest_to_next_hop w inFace i) w).
Proof.
  intros Hi (Hin & _ & _) Hn. unfold PITless_onContentStoreMiss. run_steps.
  rewrite getStrategy_spec by apply (scw_sorted _ _ (fi_sc _ Hi)). rewrite decide_True by done.
  eapply runs_deref; [done|]. unfold afterReceiveInterestPITless. rewrite bool_decide_eq_true_2 by done.
  exists tt. eexists. split; [apply PITlessBestRoute_spec|].
  rewrite Fib_LPM_spec by (done || apply (fi_pit _ Hi)). unfold interest_to_next_hop, next_hop.
  assert (Ew : w = set_trace (w_trace w ++ []) w) by (rewrite app_nil_r; by destruct w).
  destruct (find_if _ _) as [h|]; simpl; [by destruct (valid_face w (nh_face h))|done].
Qed.

(** The hit pipeline: the trigger gets no PIT entry, and the Data go back. *)
Lemma hit_without_entry name inFace d (w : World) : fwd_inv w → NoDup (computeHashSet name) →
  (∀ s, effective (pit_nt (w_pit w)) name = Some s → s ≠ NccStrategy_STRATEGY_NAME ∧ s ≠ AccessStrategy_STRATEGY_NAME) →
  runs (dispatchToPITlessStrategy name beforeSatisfyInterest_nullptr;; onOutgoingData (setDataIncomingFaceId FACEID_CONTENT_STORE d) inFace) w
    (λ _ w', stateless w w' ∧ w_cs w' = w_cs w ∧ w_trace w' = w_trace w ++ data_from_store w inFace d).
Proof.
  intros Hi Hn Hs. unfold dispatchToPITlessStrategy. run_steps.
  rewrite findEffectiveStrategy_name by (done || apply (fi_pit _ Hi)).
  destruct (effective_total _ _ name (fi_sc _ Hi)) as (s & Es & _).
  eapply runs_deref; [exact Es|]. destruct (Hs s Es) as [Hncc Hacc]. unfold beforeSatisfyInterest_nullptr.
  rewrite !bool_decide_eq_false_2 by done. simpl. run_steps.
  exists tt. eexists. split; [apply onOutgoingData_eq|]. unfold data_from_store. simpl d_name.
  split; [apply (stateless_send_data w inFace (setDataIncomingFaceId FACEID_CONTENT_STORE d))|].
  destruct (can_send _ _ _); [done|]. split; [done|]. by rewrite app_nil_r.
Qed.

Lemma onContentStoreHit_pitless inFace i d (w : World) : fwd_inv w → pitless_ready w →
  runs (PITless_onContentStoreHit inFace i d) w (λ _ w', stateless w w' ∧ w_cs w' = w_cs w ∧ w_trace w' = w_trace w ++ data_from_store w inFace d).
Proof. intros Hi (_ & Hn & Hs). by apply (hit_without_entry PITlessBestRouteStrategy_STRATEGY_NAME). Qed.

(** An Interest is dropped, answered from the content store, or sent to the next
    hop of its name; nothing else is kept of it. *)
Definition pitless_interest_post (w w' : World) (inFace : face_ptr) (i : Interest) : Prop :=
  if violates_localhost w inFace (i_name i) then w' = add_inInterest w
  else ∃ d, cs_answers matchesData w i d ∧
    w_trace w' = w_trace w ++ match d with Some d => data_from_store w inFace d | None => interest_to_next_hop w inFace i end.

Lemma interest_to_next_hop_core w w' inFace i : same_core w w' → interest_to_next_hop w' inFace i = interest_to_next_hop w inFace i.
Proof.
  intros Hs. unfold interest_to_next_hop. rewrite (next_hop_core w w') by done. unfold valid_face, getId. by rewrite (sa_faces _ _ Hs).
Qed.

Lemma can_send_core (w w' : World) f n : same_core w w' → can_send w' f n = can_send w f n.
Proof. intros Hs. by apply can_send_faces, Hs. Qed.

Lemma stateless_inv (w w' : World) : fwd_inv w → stateless w w' → w_cs w' = w_cs w → fwd_inv w'.
Proof.
  intros Hi Hs Ec. pose proof (touches_core 1 w w' Hi (sl_core _ _ Hs)) as Ht. rewrite Ec in Ht. apply Ht; apply Hi.
Qed.

Lemma cs_find_random i : preserves w_random (cs_find (S := S) (E := E) matchesData i).
Proof. unfold cs_find. solve_preserves. Qed.
Lemma cs_insert_random d b : preserves w_random (cs_insert (S := S) (E := E) d b).
Proof. unfold cs_insert. solve_preserves. Qed.

(** A lookup in the store, and an insertion *)
Lemma cs_find_stateless i (w : World) : matches_prefix matchesData → fwd_inv w → cs_searchable i →
  runs (cs_find matchesData i) w (λ d w', fwd_inv w' ∧ stateless w w' ∧ w_trace w' = w_trace w ∧ cs_answers matchesData w i d).
Proof.
  intros Hm Hi Hs. eapply runs_mono; [apply (runs_preserves w_random); [apply cs_find_random|by apply (cs_find_spec matchesData i 1)]|].
  intros d w' [(T & C & Ed & Et & _ & A) Er]. split_and!; [apply T|by split|done|done].
Qed.
Lemma cs_insert_stateless d b (w : World) : fwd_inv w → data_ok d →
  runs (cs_insert d b) w (λ _ w', fwd_inv w' ∧ stateless w w' ∧ w_trace w' = w_trace w).
Proof.
  intros Hi Hd. eapply runs_mono; [apply (runs_preserves w_random); [apply cs_insert_random|by apply (cs_insert_spec d b 1)]|].
  intros [] w' [(T & C & Ed & Et & _) Er]. split_and!; [apply T|by split|done].
Qed.

Lemma PITless_onIncomingInterest_spec inFace i0 (w : World) : matches_prefix matchesData → fwd_inv w → pitless_ready w →
  cs_searchable i0 → NoDup (computeHashSet (i_name i0)) →
  runs (PITless_onIncomingInterest matchesData inFace i0) w (λ _ w', fwd_inv w' ∧ stateless w w' ∧
    pitless_interest_post w w' inFace (setInterestIncomingFaceId (getId inFace w) i0)).
Proof.
  intros Hm Hi Hr Hs Hn. unfold PITless_onIncomingInterest. run_steps. set (i := setInterestIncomingFaceId _ i0).
  eapply runs_mono; [by apply (count_InInterest_spec 1%positive)|]. intros [] w1 [E1 T1]. pose proof (to_inv _ _ _ T1) as Hi1.
  assert (S1 : stateless w w1) by (by subst w1). run_steps.
  assert (Ev : negb (isLocal w1 inFace) && isPrefixOf LOCALHOST_NAME (i_name i) = violates_localhost w inFace (i_name i)) by (by subst w1).
  unfold pitless_interest_post. rewrite Ev. destruct (violates_localhost w inFace (i_name i)); [by run_steps|]. run_steps.
  eapply runs_mono; [by apply cs_find_stateless|]. intros d w2 (Hi2 & S2 & Tr2 & A). cbv beta in *.
  assert (S12 : stateless w w2) by (by eapply stateless_trans). pose proof (sl_core _ _ S12) as C2.
  assert (A' : cs_answers matchesData w i d) by (by subst w1).
  destruct d as [d|].
  - eapply runs_mono; [apply onContentStoreHit_pitless; [done|by eapply strategy_ready_core]|]. intros [] w3 (S3 & Ec & Tr3).
    split_and!; [by eapply stateless_inv|by eapply stateless_trans|]. exists (Some d). split; [done|].
    rewrite Tr3, Tr2. subst w1. unfold data_from_store. by rewrite (can_send_core _ _ _ _ C2).
  - eapply runs_mono; [apply onContentStoreMiss_pitless; [done|by eapply strategy_ready_core|done]|]. intros [] w3 ->.
    split_and!; [by eapply stateless_inv; [done|apply set_trace_stateless|]|by eapply stateless_trans; [|apply set_trace_stateless]|].
    exists None. split; [done|]. simpl. rewrite Tr2. subst w1. by rewrite (interest_to_next_hop_core _ _ _ _ C2).
Qed.

(** Data are dropped, or kept in the content store and sent to the next hop of
    their name; only the supporting name is checked against the scope. *)
Definition pitless_data_post (w w' : World) (inFace : face_ptr) (d : Data) : Prop :=
  if violates_localhost w inFace (d_supportingName d) then w' = add_inData w
  else w_trace w' = w_trace w ++ data_to_next_hop w inFace d.

Lemma data_to_next_hop_core w w' inFace d : same_core w w' → data_to_next_hop w' inFace d = data_to_next_hop w inFace d.
Proof.
  intros Hs. unfold data_to_next_hop. rewrite (next_hop_core w w') by done. destruct (next_hop w inFace _); [|done].
  by rewrite (can_send_core _ _ _ _ Hs).
Qed.

Lemma PITless_onIncomingData_spec inFace d0 (w : World) : fwd_inv w → data_ok d0 → NoDup (computeHashSet (d_name d0)) →
  runs (PITless_onIncomingData inFace d0) w (λ _ w', fwd_inv w' ∧ stateless w w' ∧
    pitless_data_post w w' inFace (setDataIncomingFaceId (getId inFace w) d0)).
Proof.
  intros Hi Hd Hn. unfold PITless_onIncomingData. run_steps. set (d := setDataIncomingFaceId _ d0).
  eapply runs_mono; [by apply (count_InData_spec 1%positive)|]. intros [] w1 [E1 T1]. pose proof (to_inv _ _ _ T1) as Hi1.
  assert (S1 : stateless w w1) by (by subst w1). run_steps.
  assert (Ev : negb (isLocal w1 inFace) && isPrefixOf LOCALHOST_NAME (d_supportingName d) = violates_localhost w inFace (d_supportingName d)) by (by subst w1).
  unfold pitless_data_post. rewrite Ev. destruct (violates_localhost w inFace (d_supportingName d)); [by run_steps|]. run_steps.
  eapply runs_mono; [by apply cs_insert_stateless|]. intros [] w2 (Hi2 & S2 & Tr2). cbv beta in *.
  assert (S12 : stateless w w2) by (by eapply stateless_trans). run_steps.
  rewrite Fib_LPM_spec by (done || apply (fi_pit _ Hi2)).
  rewrite <-(data_to_next_hop_core w w2) by apply S12. unfold data_to_next_hop.
  pose proof (next_hop_other w2 inFace (d_name d)) as Ho. unfold next_hop in *.
  assert (Tr : w_trace w2 = w_trace w) by (subst w1; done). rewrite <-Tr.
  destruct (find_if _ _) as [h|]; simpl in *; [|run_steps; by rewrite app_nil_r].
  rewrite bool_decide_eq_false_2 by (by apply Ho). exists tt. eexists. split; [apply onOutgoingData_eq|].
  split_and!; [eapply stateless_inv; [done|apply stateless_send_data|by case_match]|by eapply stateless_trans; [|apply stateless_send_data]|].
  simpl. destruct (can_send w2 _ _); [done|by rewrite app_nil_r].
Qed.
End pitless_spec.

(** ** The daemon with a PITless forwarder *)

Section pitless_daemon.
Context `{ControlCommandsLaws, WireEncoding, NameWire, NameOrder, !NameSuccessor} {S E : Type} `{CsPolicyLaws S, NdnSimCs E}.
Context (matchesData : Interest → Data → bool) (sort : list NextHop → list NextHop) `{!StdSort sort}.
Context (strategies : Name → Strategy (S := S) (E := E)) `{!∀ s, StrategyLaws (strategies s)}.
Abbreviation World := (World S E).
Abbreviation M := (M S E).

#[export] Instance PITlessStrategy_laws : StrategyLaws (PITlessStrategy (S := S) (E := E)).
Proof.
  split; intros; unfold PITlessStrategy; simpl; unfold PITlessStrategy_afterReceiveInterest, Strategy_beforeSatisfyInterest,
    Strategy_beforeExpirePendingInterest; run_steps; by apply acts_refl.
Qed.

Definition pitless_step : DaemonStep → M unit :=
  variant_step matchesData sort strategies PITlessHandlers true false (PITless_onInterest matchesData) PITless_onData.

(** Names whose prefixes do not collide; a strategy in effect that tolerates a
    null PIT entry *)
Definition pitless_packet_ok (w : World) (s : DaemonStep) : Prop :=
  match s with
  | ReceiveInterest _ i => NoDup (computeHashSet (i_name i)) ∧ pitless_ready w
  | ReceiveData _ d => NoDup (computeHashSet (d_name d))
  | _ => True
  end.

Abbreviation pitless_ok := (variant_ok (S := S) (E := E) PITlessHandlers pitless_factories).

Lemma stateless_tables (w w' : World) : stateless w w' → same_tables w w'.
Proof.
  intros [[Ep _ _ Es Ef _ Ea [Et El]] _]. split_and!; try done. split; [intros n; by rewrite Ep|done].
Qed.

#[export] Instance pitless_laws : VariantLaws PITlessHandlers true false pitless_factories (PITless_onInterest (E := E) matchesData) PITless_onData
  (λ w s, matches_prefix matchesData ∧ pitless_packet_ok w s).
Proof.
  split; [done| |].
  - intros w face i [Hd _ _] [_ [_ Hs]] [Hm [Hn Hr]]. eapply runs_mono; [apply PITless_onIncomingInterest_spec; try done; apply Hd|].
    intros [] w' (Hi & Hl & _). split; [eapply stateless_ok; [done|apply Hd|done]|by apply stateless_tables].
  - intros w face d [Hd _ _] [_ Hs] [_ Hn]. eapply runs_mono; [apply PITless_onIncomingData_spec; try done; apply Hd|].
    intros [] w' (Hi & Hl & _). split; [eapply stateless_ok; [done|apply Hd|done]|by apply stateless_tables].
Qed.
End pitless_daemon.
