(* ===== verification/Bridge.v ===== *)
(** * Bridge forwarding: [daemon/fw/bridge-forwarder.cpp],
      [daemon/fw/bridge-strategy.cpp], [daemon/fw/bridge-best-route-strategy.cpp]

    The forwarder between consumers, whose Interests it keeps in the PIT, and a
    PITless network: it puts its own name into the Interest as the supporting
    name, and takes Data by their supporting name, the name of the Interest they
    answer, which becomes the name of the Data sent downstream. *)

From Stdlib Require Import Ascii String.
From S2P Require Import Prelude CityHash Packets FibEntry NameTree NameTreeFacts Fib PitEntry Pit StrategyChoice DeadNonceList ContentStore World Forwarder ForwarderInv ForwarderSpec FaceTable Managers Strategies Daemon Variants Pitless.
Open Scope pipeline_scope.

Definition BridgeBestRouteStrategy_STRATEGY_NAME : Name := strategy_name "bridge-best-route" 1.

(** The names in [getBridgeStrategyFactories] *)
Definition bridge_factories : list Name := [BridgeBestRouteStrategy_STRATEGY_NAME].

(** [Data::setName] (ndn-cxx): the packet with another name.  The implicit
    digest of the new packet is left to ndn-cxx. *)
Class DataRename := {
  renameData : Name → Data → Data;
  rename_name n d : d_name (renameData n d) = n;
  rename_freshness n d : d_freshnessPeriod (renameData n d) = d_freshnessPeriod d;
  rename_policy n d : d_cachingPolicy (renameData n d) = d_cachingPolicy d;
  rename_face n d : d_incomingFaceId (renameData n d) = d_incomingFaceId d;
  rename_digest n d : isImplicitSha256Digest (d_digest d) = true → isImplicitSha256Digest (d_digest (renameData n d)) = true
}.

(** The Interest object that came in is shared with the in-record just written,
    and with the PIT entry when it was made for it: both see its supporting name
    change. *)
Definition InRecord_shareSupportingName (n : Name) (r : InRecord) : InRecord :=
  mkInRecord (ir_record r) (setSupportingName n <$> ir_interest r).
Definition PitEntry_setInterest (i : Interest) (e : PitEntry) : PitEntry :=
  mkPitEntry i (pe_inRecords e) (pe_outRecords e) (pe_unsatisfyTimer e) (pe_stragglerTimer e) (pe_nameTreeEntry e) (pe_info e).
Definition PitEntry_shareSupportingName (isNew : bool) (inFace : face_ptr) (n : Name) (e : PitEntry) : PitEntry :=
  let e := setInRecords (update_first (in_of inFace) (InRecord_shareSupportingName n) (pe_inRecords e)) e in
  if isNew then PitEntry_setInterest (setSupportingName n (pe_interest e)) e else e.

Section bridge.
Context `{WireEncoding, NameWire, NameOrder, !NameSuccessor, !DataRename} {S E : Type} `{CsPolicy S, NdnSimCs E}.
Context (matchesData : Interest → Data → bool) (strategies : Name → Strategy (S := S) (E := E)).
Context (m_Name : Name).
Abbreviation World := (World S E).
Abbreviation M := (M S E).
Abbreviation Strategy := (Strategy (S := S) (E := E)).

(** ** Construction *)

Definition BridgeForwarder_new : list Name → Z → gmap face_ptr Face → face_ptr → S → option E → option World :=
  variant_new bridge_factories.

(** ** Strategy *)

Definition onOutgoingInterestBridge (interest : Interest) (outFace : face_ptr) (wantNewNonce : bool) : M unit :=
  let* id := gets (getId outFace) in
  if id =? INVALID_FACEID then ret tt
  else emit (SentInterest outFace interest).

Definition sendInterestBridge (interest : Interest) (outFace : face_ptr) (wantNewNonce : bool) : M unit :=
  onOutgoingInterestBridge interest outFace wantNewNonce.

Definition BridgeBestRouteStrategy_afterReceiveInterestBridge (inFace : face_ptr) (interest : Interest) (fibEntry : FibEntry) : M unit :=
  let* it := gets (λ w, find_if (predicate_canForwardTo_NextHop w inFace) (fe_nextHops fibEntry)) in
  match it with
  | None => ret tt
  | Some it => sendInterestBridge interest (nh_face it) false
  end.

Definition BridgeStrategy_afterReceiveInterest (inFace : face_ptr) (interest : Interest) (fibEntry : FibEntry) (p : pit_ptr) : M unit :=
  ret tt.

Definition BridgeStrategy : Strategy :=
  mkStrategy BridgeStrategy_afterReceiveInterest Strategy_beforeSatisfyInterest Strategy_beforeExpirePendingInterest.

(** The trigger of the strategy object installed under a name; another object is
    not a [BridgeStrategy]. *)
Definition afterReceiveInterestBridge (strategy : Name) (inFace : face_ptr) (interest : Interest) (fibEntry : FibEntry) : M unit :=
  if bool_decide (strategy = BridgeBestRouteStrategy_STRATEGY_NAME)
  then BridgeBestRouteStrategy_afterReceiveInterestBridge inFace interest fibEntry
  else fail.

(** ** Pipelines *)

Definition dispatchToBridgeStrategy (prefix : Name) (trigger : Name → M unit) : M unit :=
  let* strategy := gets (λ w, StrategyChoice_findEffectiveStrategy (pit_nt (w_pit w)) prefix) in
  let* strategy := deref strategy in
  trigger strategy.

(** [isNew]: the PIT entry was made for this Interest object *)
Definition Bridge_onContentStoreMiss (isNew : bool) (inFace : face_ptr) (p : pit_ptr) (interest : Interest) : M unit :=
  let* now := gets w_now in
  updatePitEntry (PitEntry_insertOrUpdateInRecord now inFace interest) p;;
  setUnsatisfyTimer p;;
  let* fibEntry := gets (λ w, Fib_findLongestPrefixMatch (pit_nt (w_pit w)) (i_name interest)) in
  updatePitEntry (PitEntry_shareSupportingName isNew inFace m_Name) p;;
  let interest := setSupportingName m_Name interest in
  let strategyName := BridgeBestRouteStrategy_STRATEGY_NAME in
  let* strategy := gets (λ w, StrategyChoice_getStrategy (w_strategies w) strategyName) in
  let* strategy := deref strategy in
  afterReceiveInterestBridge strategy inFace interest fibEntry.

Definition Bridge_onContentStoreHit (inFace : face_ptr) (interest : Interest) (data : Data) : M unit :=
  let strategyName := BridgeBestRouteStrategy_STRATEGY_NAME in
  dispatchToBridgeStrategy strategyName beforeSatisfyInterest_nullptr;;
  let data := setDataIncomingFaceId FACEID_CONTENT_STORE data in
  onOutgoingData data inFace.

Definition Bridge_onIncomingInterest (inFace : face_ptr) (interest : Interest) : M unit :=
  let* id := gets (getId inFace) in
  let interest := setInterestIncomingFaceId id interest in
  count_InInterest;;
  let* local := gets isLocal in
  let isViolatingLocalhost := negb (local inFace) && isPrefixOf LOCALHOST_NAME (i_name interest) in
  if isViolatingLocalhost then ret tt
  else
    let* ((p, isNew), P) := gets (λ w, Pit_insert (w_pit w) interest) in
    modify (set_pit P);;
    let* e := getPitEntry p in
    let dnw := PitEntry_findNonce e (i_nonce interest) inFace in
    let* dnl := gets w_dnl in
    let hasDuplicateNonce := negb (dnw =? DUPLICATE_NONCE_NONE) ||
                             DeadNonceList_has dnl (i_name interest) (i_nonce interest) in
    if hasDuplicateNonce then onInterestLoop inFace interest p
    else
      cancelUnsatisfyAndStragglerTimer p;;
      let* e := getPitEntry p in
      let isPending := negb (bool_decide (pe_inRecords e = [])) in
      if negb isPending then
        let* match_ := cs_find matchesData interest in
        match match_ with
        | Some data => Bridge_onContentStoreHit inFace interest data
        | None => Bridge_onContentStoreMiss isNew inFace p interest
        end
      else Bridge_onContentStoreMiss isNew inFace p interest.

Definition Bridge_onIncomingData (inFace : face_ptr) (data : Data) : M unit :=
  let* id := gets (getId inFace) in
  let data := setDataIncomingFaceId id data in
  count_InData;;
  let* local := gets isLocal in
  let isViolatingLocalhost := negb (local inFace) && isPrefixOf LOCALHOST_NAME (d_supportingName data) in
  if isViolatingLocalhost then ret tt
  else
    let* pitMatches := gets (λ w, Pit_findAllDataMatchesByName (w_pit w) (d_supportingName data)) in
    if bool_decide (pitMatches = []) then onDataUnsolicited inFace data
    else
      let data := renameData (d_supportingName data) data in
      cs_insert data false;;
      let* pendingDownstreams := satisfyPitEntries strategies inFace data false pitMatches ∅ in
      sendDownstream inFace data pendingDownstreams.

Definition Bridge_onInterest (face : face_ptr) (interest : Interest) : M unit := Bridge_onIncomingInterest face interest.
Definition Bridge_onData (face : face_ptr) (data : Data) : M unit := Bridge_onIncomingData face data.
End bridge.

(** ** What the pipelines do *)

Section bridge_spec.
Context `{WireEncoding, NameWire, NameOrder, !NameSuccessor, !DataRename} {S E : Type} `{CsPolicyLaws S, NdnSimCs E}.
Context (matchesData : Interest → Data → bool) (strategies : Name → Strategy (S := S) (E := E)) `{!∀ s, StrategyLaws (strategies s)}.
Context (m_Name : Name).
Abbreviation World := (World S E).
Abbreviation M := (M S E).

(** What a pipeline for one PIT entry leaves alone; the entry's Interest may change. *)
Record frame (p : pit_ptr) (w w' : World) : Prop := {
  fr_inv : fwd_inv w';
  fr_env : same_env w w';
  fr_other q : q ≠ p → entries w' !! q = entries w !! q;
  fr_pending q : q ≠ p → pending (w_scheduled w) q → pending (w_scheduled w') q
}.

Lemma touches_frame p w w' : touches p w w' → frame p w w'.
Proof. intros T. split; [apply T|by eapply touches_env|apply T|apply T]. Qed.

Lemma frame_trans p w1 w2 w3 : frame p w1 w2 → frame p w2 w3 → frame p w1 w3.
Proof.
  intros [A1 B1 C1 D1] [A2 B2 C2 D2]. split; [done|by eapply same_env_trans| |auto].
  intros q Hq. by rewrite C2, C1.
Qed.

(** An in-record without the Interest it holds *)
Definition record_key (r : InRecord) := (ir_face r, fr_lastNonce (ir_record r), fr_lastRenewed (ir_record r), fr_expiry (ir_record r)).

Lemma share_keys isNew inFace n e : record_key <$> pe_inRecords (PitEntry_shareSupportingName isNew inFace n e) = record_key <$> pe_inRecords e.
Proof.
  unfold PitEntry_shareSupportingName. assert (Hl : ∀ l, record_key <$> update_first (in_of inFace) (InRecord_shareSupportingName n) l = record_key <$> l).
  { intros l. induction l as [|r l IH]; csimpl; [done|]. case_match; csimpl; [done|by f_equal]. }
  destruct isNew; apply Hl.
Qed.

Lemma share_pe_key isNew inFace n e : pe_key (PitEntry_shareSupportingName isNew inFace n e) = pe_key e.
Proof. by destruct isNew. Qed.

Lemma share_keeps isNew inFace n e : PitEntry_ok e → records_ok e →
  PitEntry_ok (PitEntry_shareSupportingName isNew inFace n e) ∧ records_ok (PitEntry_shareSupportingName isNew inFace n e).
Proof.
  intros Ho Hr. set (e' := PitEntry_shareSupportingName isNew inFace n e).
  assert (Ein : pe_inRecords e' = update_first (in_of inFace) (InRecord_shareSupportingName n) (pe_inRecords e)) by by destruct isNew.
  assert (Eout : pe_outRecords e' = pe_outRecords e) by by destruct isNew.
  assert (Ek : pe_name e' = pe_name e ∧ i_selectors (pe_interest e') = i_selectors (pe_interest e)) by by destruct isNew.
  split.
  - split; rewrite ?Ein, ?Eout; [|apply Ho|].
    + rewrite (update_first_keys ir_face (InRecord_shareSupportingName n)) by done. apply Ho.
    + intros r [Hin|(r' & Hin & ->)]%update_first_in; [by apply (ok_interest _ Ho)|]. simpl. destruct (ok_interest _ Ho r' Hin) as [i ->]. eauto.
  - intros r i. rewrite Ein. destruct Ek as [-> ->]. intros [Hin|(r' & Hin & ->)]%update_first_in Hi; [by apply (Hr r)|].
    simpl in Hi. apply fmap_Some in Hi as (i' & Hi' & ->). by apply (Hr r' i').
Qed.

Lemma share_timer isNew inFace n k e : timer_of k (PitEntry_shareSupportingName isNew inFace n e) = timer_of k e.
Proof. by destruct isNew, k. Qed.
Lemma share_place isNew inFace n e : pe_nameTreeEntry (PitEntry_shareSupportingName isNew inFace n e) = pe_nameTreeEntry e.
Proof. by destruct isNew. Qed.

Lemma shareSupportingName_spec isNew inFace n p w e : fwd_inv w → entries w !! p = Some e →
  runs (updatePitEntry (PitEntry_shareSupportingName isNew inFace n) p) w (λ _ w',
    frame p w w' ∧ quiet w w' ∧ w_scheduled w' = w_scheduled w ∧ entries w' !! p = Some (PitEntry_shareSupportingName isNew inFace n e)).
Proof.
  intros Hi He. unfold updatePitEntry. run_steps. set (f := PitEntry_shareSupportingName isNew inFace n).
  destruct (alter_pit_wf_key (w_pit w) f p (fi_pit _ Hi)) as [W' _]; [intros; apply share_pe_key|].
  assert (He' : entries (set_pit (alter_pit f p (w_pit w)) w) !! p = Some (f e)).
  { unfold entries in *. simpl. by rewrite lookup_alter_eq, He. }
  split_and!; [|by split|done|done]. split; simpl; [|done| |done].
  - split; simpl; [by eapply sc_wf_entries; [apply Hi|..]| | |apply Hi|apply Hi].
    + intros q x Hx. apply alter_entries_inv in Hx as (e0 & He0 & ->). destruct (fi_ok _ Hi _ _ He0) as [Ho Hr].
      case_decide; [by apply share_keeps|done].
    + apply timers_alter; [|apply Hi]. intros x. split; [apply share_place|intros; apply share_timer].
  - intros q Hq. unfold entries. simpl. by rewrite lookup_alter_ne.
Qed.

Lemma quiet_set_trace l (w : World) : same_core w (set_trace l w).
Proof. by split. Qed.

Lemma set_trace_frame p l (w w' : World) : frame p w w' → frame p w (set_trace l w').
Proof.
  intros Hf. eapply frame_trans; [exact Hf|]. apply touches_frame, touches_core; [apply Hf|apply quiet_set_trace|apply Hf|apply Hf].
Qed.

Definition bridge_ready : World → Prop := strategy_ready BridgeBestRouteStrategy_STRATEGY_NAME.

Lemma BridgeBestRoute_spec inFace i fe (w : World) :
  BridgeBestRouteStrategy_afterReceiveInterestBridge inFace i fe w = Some (tt,
    match find_if (predicate_canForwardTo_NextHop w inFace) (fe_nextHops fe) with
    | Some h => if valid_face w (nh_face h) then set_trace (w_trace w ++ [SentInterest (nh_face h) i]) w else w
    | None => w
    end).
Proof. apply PITlessBestRoute_spec. Qed.

(** The Interest awaits the answer, and goes to the next hop of its name with the
    bridge's name in it. *)
Definition bridge_entry (w : World) (inFace : face_ptr) (i : Interest) (e e' : PitEntry) : Prop :=
  pe_key e' = pe_key e ∧
  record_key <$> pe_inRecords e' = record_key <$> pe_inRecords (PitEntry_insertOrUpdateInRecord (w_now w) inFace i e).

Lemma predicate_faces (w w' : World) inFace h : w_faces w' = w_faces w →
  predicate_canForwardTo_NextHop w' inFace h = predicate_canForwardTo_NextHop w inFace h.
Proof. intros Ef. unfold predicate_canForwardTo_NextHop, getId. by rewrite Ef. Qed.

Lemma interest_to_next_hop_env (w w' : World) inFace i : same_fib w w' → w_faces w' = w_faces w →
  interest_to_next_hop w' inFace i = interest_to_next_hop w inFace i.
Proof.
  intros [Hg _] Ef. unfold interest_to_next_hop, next_hop.
  rewrite (lpm_ext (fib_get (pit_nt (w_pit w'))) (fib_get (pit_nt (w_pit w)))) by done.
  rewrite (find_if_ext _ (predicate_canForwardTo_NextHop w inFace)) by (intros; by apply predicate_faces).
  unfold valid_face, getId. by rewrite Ef.
Qed.

Lemma Bridge_onContentStoreMiss_spec isNew inFace p i (w : World) e : fwd_inv w → bridge_ready w → holds w p e → same_interest e i →
  NoDup (computeHashSet (i_name i)) →
  runs (Bridge_onContentStoreMiss m_Name isNew inFace p i) w (λ _ w', frame p w w' ∧ w_cs w' = w_cs w ∧ w_dnl w' = w_dnl w ∧
    pending (w_scheduled w') p ∧ (∃ e', holds w' p e' ∧ bridge_entry w inFace i e e') ∧
    w_trace w' = w_trace w ++ interest_to_next_hop w inFace (setSupportingName m_Name i)).
Proof.
  intros Hi (Hin & _ & _) [He Hp] [En Es] Hn. unfold Bridge_onContentStoreMiss. run_steps.
  eapply runs_mono; [apply (updatePitEntry_spec w _ p e); [done|done|done|done|by apply insertInRecord_ok]|].
  intros [] w1 (E1 & T1 & H1e). assert (Q1 : quiet w w1) by (subst w1; by split). run_steps.
  eapply runs_mono; [apply (setUnsatisfyTimer_spec p w1 (PitEntry_insertOrUpdateInRecord (w_now w) inFace i e)); [apply T1|split; [exact H1e|done]|apply insertInRecord_nonempty]|].
  intros [] w2 (T2 & Q2 & P2 & id & E2). run_steps.
  eapply runs_mono; [apply (shareSupportingName_spec isNew inFace m_Name p w2 _ (to_inv _ _ _ T2) E2)|].
  intros [] w3 (F3 & Q3 & S3 & E3). pose proof (touches_trans _ _ _ _ T1 T2) as T12.
  assert (F : frame p w w3) by (eapply frame_trans; [by apply touches_frame|done]).
  assert (Q : quiet w w3) by (eapply quiet_trans; [by eapply quiet_trans|done]).
  destruct (fr_env _ _ _ F) as (En3 & Ef3 & _ & _ & Est3 & _). run_steps.
  rewrite getStrategy_spec by apply (scw_sorted _ _ (fi_sc _ (fr_inv _ _ _ F))). rewrite decide_True by (by rewrite Est3).
  eapply runs_deref; [done|]. unfold afterReceiveInterestBridge. rewrite bool_decide_eq_true_2 by done.
  exists tt. eexists. split; [apply BridgeBestRoute_spec|].
  rewrite Fib_LPM_spec by (done || apply (fi_pit _ (to_inv _ _ _ T2))).
  rewrite <-(interest_to_next_hop_env w w3) by (done || apply (fr_env _ _ _ F)). unfold interest_to_next_hop, next_hop. simpl i_name.
  rewrite (qu_nt _ _ Q3). rewrite <-(qu_trace _ _ Q).
  set (h := find_if _ _). set (w4 := match h with Some _ => _ | None => w3 end).
  assert (Hw4 : w4 = set_trace (w_trace w3 ++ match h with Some h => if valid_face w3 (nh_face h) then [SentInterest (nh_face h) (setSupportingName m_Name i)] else [] | None => [] end) w3).
  { unfold w4. destruct h as [h|]; [destruct (valid_face w3 (nh_face h))|]; try done; rewrite app_nil_r; by destruct w3. }
  rewrite Hw4. split_and!.
  - by apply set_trace_frame.
  - apply Q.
  - apply Q.
  - simpl. by rewrite S3.
  - eexists. split; [split; [exact E3|]|split].
    + by rewrite share_place.
    + rewrite share_pe_key. by destruct e.
    + by rewrite share_keys.
  - simpl. f_equal. by destruct h.
Qed.

Lemma Bridge_onContentStoreHit_spec inFace i d (w : World) : fwd_inv w → bridge_ready w →
  runs (Bridge_onContentStoreHit inFace i d) w (λ _ w', stateless w w' ∧ w_cs w' = w_cs w ∧ w_trace w' = w_trace w ++ data_from_store w inFace d).
Proof. intros Hi (_ & Hn & Hs). by apply (hit_without_entry BridgeBestRouteStrategy_STRATEGY_NAME). Qed.

(** *** Incoming Interests *)

Record bridge_interest_post (w w' : World) (inFace : face_ptr) (i : Interest) (p : pit_ptr) (isNew : bool) (P' : Pit) (e : PitEntry) : Prop := {
  bi_insert : Pit_insert (w_pit w) i = ((p, isNew), P');
  bi_entry : pit_entries P' !! p = Some e;
  bi_interest : same_interest e i;
  bi_new : isNew = true → ∃ a, e = setNameTreeEntry (Some a) (PitEntry_new i);
  bi_old : isNew = false → holds w p e;
  bi_frame : frame p w w';
  bi_loop : duplicate_nonce w e inFace i = true → w' = set_pit P' (add_inInterest w);
  bi_dnl : w_dnl w' = w_dnl w;
  (* answered from the store: the entry stays, with no timer *)
  bi_hit : duplicate_nonce w e inFace i = false → ∃ d, (pe_inRecords e = [] → cs_answers matchesData w i d) ∧ (pe_inRecords e ≠ [] → d = None) ∧
    match d with
    | Some d => w_trace w' = w_trace w ++ data_from_store w inFace d ∧
                holds w' p (set_timer false None (set_timer true None e)) ∧ ¬ pending (w_scheduled w') p
    | None => w_trace w' = w_trace w ++ interest_to_next_hop w inFace (setSupportingName m_Name i) ∧
              pending (w_scheduled w') p ∧ ∃ e', holds w' p e' ∧ bridge_entry w inFace i e e'
    end
}.

Lemma timerless_not_pending p e (w : World) : fwd_inv w → entries w !! p = Some e → (∀ k, timer_of k e = None) → ¬ pending (w_scheduled w) p.
Proof.
  intros Hi He Hk (id & t & ev & Hid & <-). destruct (tw_event _ _ _ (fi_timers _ Hi) _ _ _ Hid) as (e' & He' & _ & Ht).
  assert (e' = e) as -> by congruence. by rewrite Hk in Ht.
Qed.

Lemma strategy_ready_ext name (w w' : World) : w_strategies w' = w_strategies w →
  (∀ n, sc_get (pit_nt (w_pit w')) n = sc_get (pit_nt (w_pit w)) n) → strategy_ready name w → strategy_ready name w'.
Proof. intros Es Eg (A & B & C). split_and!; [by rewrite Es|done|]. intros s. rewrite (effective_ext _ (pit_nt (w_pit w))) by done. apply C. Qed.

Lemma same_core_frame p (w w' : World) : fwd_inv w' → same_core w w' → frame p w w'.
Proof.
  intros Hi [Ep Es _ Est Efi En Ef [Et El]]. split; [done| | |].
  - split_and!; try done. split; [intros n; by rewrite Ep|done].
  - intros q _. unfold entries. by rewrite Ep.
  - intros q _. by rewrite Es.
Qed.

Lemma cs_answers_ext (w w' : World) i d : w_cs w' = w_cs w → w_csFromNdnSim w' = w_csFromNdnSim w → w_now w' = w_now w →
  cs_answers matchesData w' i d → cs_answers matchesData w i d.
Proof. intros Ec Ee En. unfold cs_answers. by rewrite Ec, Ee, En. Qed.

(** After the check for loops *)
Lemma bridge_serve_spec isNew inFace i p e (w : World) : matches_prefix matchesData → fwd_inv w → bridge_ready w → cs_searchable i →
  NoDup (computeHashSet (i_name i)) → holds w p e → same_interest e i → (∀ k, timer_of k e = None) →
  runs (let* e := getPitEntry p in
        let isPending := negb (bool_decide (pe_inRecords e = [])) in
        if negb isPending then
          let* match_ := cs_find matchesData i in
          match match_ with
          | Some data => Bridge_onContentStoreHit inFace i data
          | None => Bridge_onContentStoreMiss m_Name isNew inFace p i
          end
        else Bridge_onContentStoreMiss m_Name isNew inFace p i) w (λ _ w', frame p w w' ∧ w_dnl w' = w_dnl w ∧
    ∃ d, (pe_inRecords e = [] → cs_answers matchesData w i d) ∧ (pe_inRecords e ≠ [] → d = None) ∧
    match d with
    | Some d => w_trace w' = w_trace w ++ data_from_store w inFace d ∧ holds w' p e ∧ ¬ pending (w_scheduled w') p
    | None => w_trace w' = w_trace w ++ interest_to_next_hop w inFace (setSupportingName m_Name i) ∧
              pending (w_scheduled w') p ∧ ∃ e', holds w' p e' ∧ bridge_entry w inFace i e e'
    end).
Proof.
  intros Hm Hi Hr Hs Hn Hh Hsame Ht. run_steps. eapply runs_getPitEntry; [apply Hh|].
  assert (Hmiss : ∀ w1 : World, fwd_inv w1 → stateless w w1 → w_trace w1 = w_trace w →
    runs (Bridge_onContentStoreMiss m_Name isNew inFace p i) w1 (λ _ w', frame p w w' ∧ w_dnl w' = w_dnl w ∧
      w_trace w' = w_trace w ++ interest_to_next_hop w inFace (setSupportingName m_Name i) ∧
      pending (w_scheduled w') p ∧ ∃ e', holds w' p e' ∧ bridge_entry w inFace i e e')).
  { intros w1 Hi1 [C1 D1 _] Tr1. assert (Hh1 : holds w1 p e) by (unfold holds, entries; by rewrite (sa_pit _ _ C1)).
    eapply runs_mono; [apply (Bridge_onContentStoreMiss_spec isNew inFace p i w1 e); [done|by eapply strategy_ready_core|done..]|].
    intros [] w2 (F2 & _ & D2 & P2 & He2 & Tr2). split_and!.
    - eapply frame_trans; [by apply same_core_frame|done].
    - congruence.
    - rewrite Tr2, Tr1. f_equal. apply interest_to_next_hop_core, C1.
    - done.
    - unfold bridge_entry in *. by rewrite <-(sa_now _ _ C1). }
  destruct (decide (pe_inRecords e = [])) as [He|He].
  - rewrite (bool_decide_eq_true_2 _ He). simpl. run_steps.
    eapply runs_mono; [by apply (cs_find_stateless matchesData i w)|]. intros d w1 (Hi1 & S1 & Tr1 & A). cbv beta in *.
    destruct d as [d|].
    + eapply runs_mono; [apply Bridge_onContentStoreHit_spec; [done|by eapply strategy_ready_core; [apply S1|]]|].
      intros [] w2 (S2 & Ec & Tr2). pose proof (stateless_trans _ _ _ S1 S2) as S12. pose proof (stateless_inv _ _ Hi1 S2 Ec) as Hi2.
      split; [apply same_core_frame; [done|apply S12]|]. split; [apply S12|]. exists (Some d). split; [done|]. split; [done|].
      assert (Hh2 : holds w2 p e) by (unfold holds, entries; by rewrite (sa_pit _ _ (sl_core _ _ S12))).
      split_and!; [|done|by eapply timerless_not_pending; [|apply Hh2|]].
      rewrite Tr2, Tr1. unfold data_from_store. by rewrite (can_send_core _ _ _ _ (sl_core _ _ S1)).
    + eapply runs_mono; [by apply Hmiss|]. intros [] w2 (F & D & Tr & P & He'). split; [done|]. split; [done|]. exists None. done.
  - rewrite (bool_decide_eq_false_2 _ He). simpl.
    eapply runs_mono; [apply (Hmiss w); [done|apply stateless_refl|done]|].
    intros [] w2 (F & D & Tr & P & He'). split; [done|]. split; [done|]. exists None. done.
Qed.

Lemma Bridge_onIncomingInterest_spec inFace i0 (w : World) : matches_prefix matchesData → fwd_inv w → bridge_ready w →
  room (pit_nt (w_pit w)) (i_name i0) → cs_searchable i0 → NoDup (computeHashSet (i_name i0)) →
  let i := setInterestIncomingFaceId (getId inFace w) i0 in
  runs (Bridge_onIncomingInterest matchesData m_Name inFace i0) w (λ _ w',
    if violates_localhost w inFace (i_name i0) then w' = add_inInterest w
    else ∃ p isNew P' e, bridge_interest_post w w' inFace i p isNew P' e).
Proof.
  intros Hm Hi Hr Hro Hs Hn i. unfold Bridge_onIncomingInterest. run_steps. fold i.
  eapply runs_mono; [by apply (count_InInterest_spec 1%positive)|]. intros [] w1 [E1 T1]. pose proof (to_inv _ _ _ T1) as Hi1. run_steps.
  assert (Ev : negb (isLocal w1 inFace) && isPrefixOf LOCALHOST_NAME (i_name i) = violates_localhost w inFace (i_name i0)) by (by subst w1).
  rewrite Ev. destruct (violates_localhost w inFace (i_name i0)); [by run_steps|]. run_steps.
  destruct (Pit_insert (w_pit w1) i) as [[p isNew] P'] eqn:Ep. run_steps.
  destruct (pit_insert_touches w1 i p isNew P') as (T2 & e & Hh & Hsame & Hnew & Hold & _); [done|by subst w1|done|].
  assert (F2 : frame p w (set_pit P' w1)).
  { eapply frame_trans; [|by apply touches_frame]. subst w1. by apply same_core_frame. }
  eapply runs_getPitEntry; [apply Hh|]. run_steps.
  assert (Ed : negb (PitEntry_findNonce e (i_nonce i) inFace =? DUPLICATE_NONCE_NONE) ||
    DeadNonceList_has (w_dnl (set_pit P' w1)) (i_name i) (i_nonce i) = duplicate_nonce w e inFace i) by (by subst w1).
  rewrite Ed. assert (Eh : isNew = false → holds w p e) by (by subst w1).
  destruct (duplicate_nonce w e inFace i) eqn:Edup.
  { unfold onInterestLoop. run_steps. exists p, isNew, P', e. subst w1. split; try done; [apply Hh|by rewrite Edup]. }
  run_steps. eapply runs_mono; [apply (cancelBoth_spec p _ e); [apply (to_inv _ _ _ T2)|apply Hh]|].
  intros [] w3 (T3 & Q3 & E3). set (e3 := set_timer false None (set_timer true None e)) in *.
  assert (Hh3 : holds w3 p e3) by (split; [done|exact (proj2 Hh)]).
  assert (F3 : frame p w w3) by (eapply frame_trans; [exact F2|by apply touches_frame]).
  assert (R3 : bridge_ready w3).
  { apply (strategy_ready_ext _ w); [apply (fr_env _ _ _ F3)| |done]. intros n. rewrite (qu_nt _ _ Q3).
    assert (Hro1 : room (pit_nt (w_pit w1)) (i_name i)) by (by subst w1).
    pose proof (ins_payload _ _ _ _ _ (Pit_insert_spec _ _ _ _ _ (fi_pit _ Hi1) Hro1 Ep) n) as E'. injection E' as _ _ E'.
    subst w1. exact E'. }
  assert (Ht3 : ∀ k, timer_of k e3 = None) by (by intros []).
  eapply runs_mono; [by apply (bridge_serve_spec isNew inFace i p e3 w3); [|apply T3|..]|].
  intros [] w4 (F4 & D4 & d & Hd1 & Hd2 & Hserved).
  exists p, isNew, P', e. split; try done.
  - by subst w1.
  - apply Hh.
  - by eapply frame_trans.
  - by rewrite Edup.
  - rewrite D4, (qu_dnl _ _ Q3). by subst w1.
  - intros _. destruct (fr_env _ _ _ F3) as (En3 & Ef3 & _ & _ & _ & Efib).
    assert (Etr : w_trace w3 = w_trace w) by (rewrite (qu_trace _ _ Q3); by subst w1).
    exists d. split; [|split; [done|]].
    { intros He. apply (cs_answers_ext w w3); [| |done|by apply Hd1].
      - rewrite (qu_cs _ _ Q3). by subst w1.
      - rewrite (qu_ext _ _ Q3). by subst w1. }
    destruct d as [d|]; rewrite Etr in Hserved.
    + unfold data_from_store in *. by rewrite (can_send_faces w w3) in Hserved by done.
    + rewrite (interest_to_next_hop_env w w3) in Hserved by done. unfold bridge_entry in *. by rewrite <-En3.
Qed.

(** *** Incoming Data *)

Lemma renameData_ok n d : data_ok d → plain n → data_ok (renameData n d).
Proof. intros [_ Hd] Hn. split; [by rewrite rename_name|by apply rename_digest]. Qed.

(** Data are for the PIT entries whose name is their supporting name, which
    becomes their name. *)
Lemma Bridge_onIncomingData_spec inFace d0 (w : World) : fwd_inv w → data_ok d0 → plain (d_supportingName d0) →
  let d := setDataIncomingFaceId (getId inFace w) d0 in
  let matches := Pit_findAllDataMatchesByName (w_pit w) (d_supportingName d0) in
  runs (Bridge_onIncomingData strategies inFace d0) w (λ _ w',
    if violates_localhost w inFace (d_supportingName d0) then w' = add_inData w
    else if decide (matches = []) then
      fwd_inv w' ∧ same_core w w' ∧ w_trace w' = w_trace w ∧ (isLocal w inFace = false → w' = add_inData w)
    else data_post w w' inFace (renameData (d_supportingName d0) d) matches).
Proof.
  intros Hi Hd Hn d matches. unfold Bridge_onIncomingData. run_steps. fold d.
  eapply runs_mono; [by apply (count_InData_spec 1%positive)|]. intros [] w1 [E1 T1].
  pose proof (to_inv _ _ _ T1) as Hi1. run_steps.
  assert (Ev : negb (isLocal w1 inFace) && isPrefixOf LOCALHOST_NAME (d_supportingName d) = violates_localhost w inFace (d_supportingName d0)) by (by subst w1).
  rewrite Ev. destruct (violates_localhost w inFace (d_supportingName d0)); [by run_steps|]. run_steps.
  assert (Em : Pit_findAllDataMatchesByName (w_pit w1) (d_supportingName d) = matches) by (by subst w1). rewrite Em.
  destruct (decide (matches = [])) as [Hnil|Hnil]; [rewrite bool_decide_eq_true_2 by done|rewrite bool_decide_eq_false_2 by done].
  - eapply runs_mono; [by apply onDataUnsolicited_spec|]. intros [] w2 (T2 & C2 & _ & Tr2 & Hl). subst w1.
    split_and!; [apply (T2 1%positive)|by eapply same_core_trans; [|exact C2]|done|done].
  - eapply runs_mono; [apply (satisfy_and_send_spec strategies false inFace (renameData (d_supportingName d) d) matches w1 Hi1)|].
    { by apply renameData_ok. }
    { intros p Hp. unfold matches, Pit_findAllDataMatchesByName in Hp. apply findAll_live in Hp as (e & He & Hl & _); [|by apply fi_pit].
      exists e. subst w1. done. }
    intros [] w2 [I V O P D (out & faces & Tr & F & Hf)]. subst w1. split; try done. by exists out, faces.
Qed.

(** ** Steps *)

Context `{ControlCommands} (sort : list NextHop → list NextHop).

Definition bridge_step : DaemonStep → M unit :=
  variant_step matchesData sort strategies BridgeHandlers false true (Bridge_onInterest matchesData m_Name) (Bridge_onData strategies).

Abbreviation bridge_face := (variant_face (S := S) (E := E) BridgeHandlers).

(** Packets from faces of the bridge, timers and time *)
Definition bridge_step_ok (w : World) (s : DaemonStep) : Prop :=
  match s with
  | ReceiveInterest face i => bridge_face w face ∧ room (pit_nt (w_pit w)) (i_name i) ∧ cs_searchable i ∧ NoDup (computeHashSet (i_name i)) ∧
      bridge_ready w
  | ReceiveData face d => bridge_face w face ∧ data_ok d ∧ plain (d_supportingName d)
  | FireTimer id => is_Some (w_scheduled w !! id)
  | Elapse time => 0 <= time
  | _ => False
  end.

(** A forwarder that only bridges: each step ends in a well-formed state, with
    the faces, the FIB and the installed strategies as they were. *)
Lemma bridge_step_inv s (w : World) : matches_prefix matchesData → fwd_inv w → bridge_step_ok w s →
  runs (bridge_step s) w (λ _ w', fwd_inv w' ∧ same_tables w w').
Proof.
  intros Hm Hi Hs. destruct s as [face i|face d|id|id|time|face|face|r|r]; simpl in Hs; try done.
  - destruct Hs as (Hf & Hr & Hcs & Hn & Hb). apply variant_receive_own; [done|].
    eapply runs_mono; [by apply Bridge_onIncomingInterest_spec|]. cbv zeta. intros [] w'. destruct (violates_localhost _ _ _).
    + intros ->. split; [by destruct Hi|done].
    + intros (p & isNew & P' & e & I). pose proof (bi_frame _ _ _ _ _ _ _ _ I) as F. split; [apply F|apply same_env_tables, F].
  - destruct Hs as (Hf & Hd & Hn). apply variant_receive_own; [done|].
    eapply runs_mono; [by apply Bridge_onIncomingData_spec|]. cbv zeta. intros [] w'. destruct (violates_localhost _ _ _).
    + intros ->. split; [by destruct Hi|done].
    + case_decide; [intros (Hi' & C & _)|intros D; split; [apply D|apply same_env_tables, D]].
      split; [done|]. apply same_env_tables. by apply (fr_env 1 w), same_core_frame.
  - destruct Hs as [[t ev] Hid]. eapply runs_mono; [by apply (fireTimer_spec strategies id t ev w)|].
    intros [] w' [R _]. split; [apply R|]. by apply (same_env_tables (timer_started w id t)), R.
  - exists tt. eexists. split; [done|]. split; [|done]. by destruct Hi.
Qed.

(** A bridge that runs: constructed and set up, then packets, timers and time *)
Inductive bridge_reachable (w0 : World) : World → Prop :=
| bridge_start : bridge_reachable w0 w0
| bridge_next w s w' : bridge_reachable w0 w → bridge_step_ok w s → bridge_step s w = Some (tt, w') → bridge_reachable w0 w'.

Definition bridge_setup : World → Prop :=
  variant_running matchesData sort strategies BridgeHandlers false true bridge_factories (Bridge_onInterest matchesData m_Name)
    (Bridge_onData strategies) (λ _ s, is_packet s = false).
Definition bridge_running (w : World) : Prop := ∃ w0, bridge_setup w0 ∧ bridge_reachable w0 w.
End bridge_spec.

Section bridge_running.
Context `{ControlCommandsLaws, WireEncoding, NameWire, NameOrder, !NameSuccessor, !DataRename} {S E : Type} `{CsPolicyLaws S, NdnSimCs E}.
Context (matchesData : Interest → Data → bool) (strategies : Name → Strategy (S := S) (E := E)) `{!∀ s, StrategyLaws (strategies s)}.
Context (m_Name : Name) (sort : list NextHop → list NextHop) `{!StdSort sort}.
Abbreviation World := (World S E).

#[export] Instance BridgeStrategy_laws : StrategyLaws (BridgeStrategy (S := S) (E := E)).
Proof. apply PITlessStrategy_laws. Qed.

#[export] Instance bridge_setup_laws : VariantLaws BridgeHandlers false true bridge_factories (Bridge_onInterest (S := S) (E := E) matchesData m_Name)
  (Bridge_onData strategies) (λ _ s, is_packet s = false).
Proof. by split. Qed.

Lemma bridge_running_inv (w : World) : matches_prefix matchesData → bridge_running matchesData strategies m_Name sort w → fwd_inv w.
Proof.
  intros Hm (w0 & Hw0 & Hr). induction Hr as [|w s w' _ IH Hs Hw].
  - apply (variant_running_ok _ _ _ _ _ _ _ _ _ _ w0 Hm Hw0).
  - by apply (runs_det _ _ (λ _ w', fwd_inv w' ∧ same_tables w w') _ _ (bridge_step_inv matchesData strategies m_Name sort s w Hm IH Hs) Hw).
Qed.
End bridge_running.
