(* ===== verification/Requests.v ===== *)
(** * Requests

    What an Interest leaves behind and what Data find of it: the lemmas that
    connect the pipelines of ForwarderSpec over several steps of the daemon. *)

From S2P Require Import Prelude CityHash Packets FibEntry NameTree NameTreeFacts Fib PitEntry Pit StrategyChoice DeadNonceList ContentStore World Forwarder ForwarderInv ForwarderSpec FaceTable Managers Strategies Daemon.
Open Scope pipeline_scope.

(** ndn-cxx matches Data by the Name and Selectors of the Interest; the face that
    Data came from is a local tag. *)
Class MatchesFields (matchesData : Interest → Data → bool) : Prop := {
  matches_interest i j d : i_name i = i_name j → i_selectors i = i_selectors j → matchesData i d = matchesData j d;
  matches_data i d k : matchesData i (setDataIncomingFaceId k d) = matchesData i d
}.

Section requests.
Context `{ControlCommands, WireEncoding, NameWire, NameOrder, !NameSuccessor} {S E : Type} `{CsPolicyLaws S, NdnSimCs E}.
Context (matchesData : Interest → Data → bool) (sort : list NextHop → list NextHop).
Context (strategies : Name → Strategy (S := S) (E := E)) `{!∀ s, StrategyLaws (strategies s)}.
Abbreviation World := (World S E).
Abbreviation step := (daemon_step matchesData sort strategies).

(** A face whose packets the forwarder receives *)
Definition attached (w : World) (face : face_ptr) : Prop :=
  ∃ f, w_faces w !! face = Some f ∧ face_onReceive f = [OrdinaryHandlers].

Lemma attached_env (w w' : World) face : w_faces w' = w_faces w → attached w face → attached w' face.
Proof. intros Ef (f & Hf & Hh). exists f. by rewrite Ef. Qed.

Lemma face_receive_attached (w : World) face (handler : M S E unit) (Q : World → Prop) : attached w face →
  runs handler w (λ _, Q) → runs (face_receive face handler) w (λ _, Q).
Proof.
  intros (f & Hf & Hh) Hr. unfold face_receive. run_steps. eapply runs_deref; [exact Hf|]. rewrite Hh. simpl.
  run_steps. eapply runs_mono; [exact Hr|]. intros [] w' Hw'. by run_steps.
Qed.

(** The Interest is a duplicate, as [onIncomingInterest] decides after the insertion
    into the PIT. *)
Definition loops (w : World) (face : face_ptr) (i : Interest) : bool :=
  let i := setInterestIncomingFaceId (getId face w) i in
  let '((p, _), P') := Pit_insert (w_pit w) i in
  match pit_entries P' !! p with Some e => duplicate_nonce w e face i | None => false end.

(** A PIT entry waits for the answer to the Interest from [face], until [expiry]. *)
Definition awaits (w : World) (face : face_ptr) (i : Interest) (expiry : Z) (p : pit_ptr) : Prop :=
  ∃ e r, holds w p e ∧ same_interest e i ∧ r ∈ pe_inRecords e ∧ ir_face r = face ∧ fr_expiry (ir_record r) = expiry.

Lemma insertInRecord_in now face i e :
  ∃ r, r ∈ pe_inRecords (PitEntry_insertOrUpdateInRecord now face i e) ∧ ir_face r = face ∧
    fr_expiry (ir_record r) = now + milliseconds (interest_lifetime i).
Proof.
  pose proof (getInRecord_insert now face i e face) as Hg. rewrite decide_True in Hg by done.
  exists (InRecord_update now i (default (InRecord_new face) (PitEntry_getInRecord e face))). split_and!; [| |done].
  - by apply find_if_Some in Hg as [? _].
  - by apply find_if_Some in Hg as [_ Hf%bool_decide_eq_true].
Qed.

(** The Interest is answered from the store, or awaited. *)
Lemma interest_received (w : World) face i : matches_prefix matchesData → fwd_inv w → attached w face →
  room (pit_nt (w_pit w)) (i_name i) → cs_searchable i →
  violates_localhost w face (i_name i) = false → loops w face i = false →
  runs (step (ReceiveInterest face i)) w (λ _ w', fwd_inv w' ∧ same_env w w' ∧
    ((∃ d out, cs_answers matchesData w (setInterestIncomingFaceId (getId face w) i) (Some d) ∧ w_trace w' = w_trace w ++ out ∧
       (can_send w face (d_name d) = true → SentData face (setDataIncomingFaceId FACEID_CONTENT_STORE d) ∈ out)) ∨
     ∃ p, awaits w' face i (w_now w + milliseconds (interest_lifetime i)) p)).
Proof.
  intros Hm Hi Ha Hr Hs Hv Hl. apply face_receive_attached; [done|].
  eapply runs_mono; [by apply (onIncomingInterest_spec matchesData strategies face i w)|].
  intros [] w'. simpl. rewrite Hv. intros (p & isNew & P' & e & T & I).
  split; [apply T|]. split; [by eapply touches_env|].
  unfold loops in Hl. rewrite (ip_insert _ _ _ _ _ _ _ _ _ I), (ip_entry _ _ _ _ _ _ _ _ _ I) in Hl.
  destruct (ip_served _ _ _ _ _ _ _ _ _ I Hl) as (_ & _ & d & Hd & Hn & l & _ & Hserved). destruct d as [d|].
  - left. destruct (decide (pe_inRecords e = [])) as [He|He]; [|by specialize (Hn He)]. eexists d, _.
    split_and!; [by apply Hd|exact Hserved|]. intros ->. rewrite elem_of_cons, elem_of_app, list_elem_of_singleton. auto.
  - right. destruct Hserved as (_ & e' & He' & Hint & Hkeys). exists p, e'.
    destruct (insertInRecord_in (w_now w) face (setInterestIncomingFaceId (getId face w) i) e) as (r & Hin & Hface & Hexp).
    assert (Hk : in_key r ∈ in_key <$> pe_inRecords e') by (rewrite Hkeys; by apply list_elem_of_fmap_2).
    apply list_elem_of_fmap in Hk as (r' & Ek & Hin'). exists r'. split_and!; [done| |done| |].
    + destruct (ip_interest _ _ _ _ _ _ _ _ _ I) as [En Es]. unfold same_interest, pe_name in *. by rewrite Hint.
    + injection Ek. congruence.
    + injection Ek as _ _ _ Ex _. change (fr_expiry (ir_record r') = w_now w + milliseconds (interest_lifetime (setInterestIncomingFaceId (getId face w) i))). congruence.
Qed.

(** Data that match reach the face that awaits them. *)
Lemma data_received `{!MatchesFields matchesData} (w : World) face inFace i d expiry p : fwd_inv w → attached w inFace →
  data_ok d → NoDup (computeHashSet (d_name d)) → violates_localhost w inFace (d_name d) = false →
  awaits w face i expiry p → w_now w < expiry → i_name i `prefix_of` d_name d → matchesData i d = true →
  face ≠ inFace → can_send w face (d_name d) = true →
  runs (step (ReceiveData inFace d)) w (λ _ w', ∃ out, w_trace w' = w_trace w ++ out ∧
    SentData face (setDataIncomingFaceId (getId inFace w) d) ∈ out).
Proof.
  intros Hi Ha Hd Hnd Hv (e & r & [He Hlive] & [En Es] & Hin & Hface & Hexp) Hnow Hp Hmatch Hne Hsend.
  apply face_receive_attached; [done|].
  eapply runs_mono; [by apply (onIncomingData_spec matchesData strategies inFace d w)|].
  intros [] w'. simpl. rewrite Hv. set (d' := setDataIncomingFaceId _ d). set (m := Pit_findAllDataMatches _ _ _).
  assert (Hpm : p ∈ m).
  { apply findAllDataMatches_spec; [by apply fi_pit|done|]. exists e. split_and!; [done| |by rewrite <-En|].
    - destruct Hlive as [a Hl]. by exists e, a.
    - rewrite (matches_interest _ i d') by done. unfold d'. by rewrite matches_data. }
  destruct (decide (m = [])) as [Em|_]; [rewrite Em in Hpm; by apply elem_of_nil in Hpm|].
  intros D. destruct (dp_trace _ _ _ _ _ D) as (out & faces & -> & _ & Hfaces). eexists. split; [done|].
  apply elem_of_app. right. unfold data_sent. apply list_elem_of_fmap. exists face. split; [done|].
  apply list_elem_of_filter. split; [done|]. apply elem_of_elements, Hfaces. exists p, e. split_and!; [done|done|].
  apply elem_of_pendingFaces. exists r. split_and!; [done|done|lia].
Qed.

Lemma awaits_set_now t (w : World) face i expiry p : awaits (set_now t w) face i expiry p ↔ awaits w face i expiry p.
Proof. done. Qed.

(** Once satisfied, PIT entries have nobody left to send the same Data to. *)
Lemma data_again `{!MatchesFields matchesData} (w w' : World) inFace g d : fwd_inv w → NoDup (computeHashSet (d_name d)) →
  data_post w w' inFace (setDataIncomingFaceId (getId inFace w) d)
    (Pit_findAllDataMatches matchesData (w_pit w) (setDataIncomingFaceId (getId inFace w) d)) →
  ∀ f, ¬ pending_in w' (Pit_findAllDataMatches matchesData (w_pit w') (setDataIncomingFaceId (getId g w') d)) f.
Proof.
  intros Hi Hnd D f (p & e & Hp & He & Hf).
  apply findAllDataMatches_spec in Hp; [|apply fi_pit, D|done]. destruct Hp as (e' & He' & [x [a [Hx Hl]]] & Hpre & Hmatch).
  unfold entries in *. simplify_eq. rewrite matches_data in Hmatch. simpl in Hpre.
  set (m := Pit_findAllDataMatches _ (w_pit w) _) in D. destruct (decide (p ∈ m)) as [Hm|Hm].
  - destruct (dp_done _ _ _ _ _ D p Hm) as (_ & y & [Hy _] & Hnil & _). unfold entries in *. simplify_eq.
    apply elem_of_pendingFaces in Hf as (r & Hr & _). rewrite Hnil in Hr. by apply elem_of_nil in Hr.
  - apply Hm. apply findAllDataMatches_spec; [by apply fi_pit|done|]. exists e'.
    pose proof (dp_other _ _ _ _ _ D p Hm) as Eo. unfold entries in Eo. split_and!; [congruence| |done|by rewrite matches_data].
    exists e', a. split; [congruence|done].
Qed.

(** *** The faces that Data go to *)

Definition data_faces (out : list Output) : list face_ptr :=
  omap (λ o, match o with SentData f _ => Some f | _ => None end) out.

Lemma elem_of_data_faces out f : f ∈ data_faces out ↔ ∃ d, SentData f d ∈ out.
Proof.
  unfold data_faces. rewrite list_elem_of_omap. split.
  - intros ([|g x| |] & Hin & Ho); simplify_eq. by exists x.
  - intros [d Hin]. by exists (SentData f d).
Qed.

Lemma data_faces_app l1 l2 : data_faces (l1 ++ l2) = data_faces l1 ++ data_faces l2.
Proof. apply omap_app. Qed.

Lemma no_data_faces_nil (w : World) l : Forall (no_data_out w) l → data_faces l = [].
Proof. induction 1 as [|[] l Ho _ IH]; simpl; try done; destruct Ho. Qed.

Lemma data_faces_sent (w : World) inFace d faces : data_faces (data_sent w inFace d faces) =
  filter (λ f, f ≠ inFace ∧ can_send w f (d_name d) = true) (elements faces).
Proof.
  unfold data_sent. generalize (filter (λ f, f ≠ inFace ∧ can_send w f (d_name d) = true) (elements faces)).
  intros l. induction l as [|f l IH]; simpl; [done|]. by f_equal.
Qed.

(** What [data_post] says of the faces: each pending downstream once *)
Lemma data_post_faces (w w' : World) inFace d matches : data_post w w' inFace d matches →
  ∃ out, w_trace w' = w_trace w ++ out ∧ NoDup (data_faces out) ∧ (∀ f x, SentData f x ∈ out → x = d) ∧
    ∀ f, f ∈ data_faces out ↔ f ≠ inFace ∧ can_send w f (d_name d) = true ∧ pending_in w matches f.
Proof.
  intros D. destruct (dp_trace _ _ _ _ _ D) as (out & faces & Ht & Hout & Hf). eexists. split; [exact Ht|].
  rewrite data_faces_app, (no_data_faces_nil w) by done. simpl. rewrite data_faces_sent. split_and!.
  - apply NoDup_filter, NoDup_elements.
  - intros f x [Hin|Hin]%elem_of_app.
    + assert (Hx : f ∈ data_faces out) by (apply elem_of_data_faces; eauto). rewrite (no_data_faces_nil w) in Hx by done.
      by apply elem_of_nil in Hx.
    + unfold data_sent in Hin. apply list_elem_of_fmap in Hin as (f' & [= _ ->] & _). done.
  - intros f. rewrite list_elem_of_filter, elem_of_elements, Hf. naive_solver.
Qed.

(** *** Timers running one after the other *)

Inductive fires : list positive → World → World → Prop :=
| fires_nil w : fires [] w w
| fires_cons id ids w w1 w2 : is_Some (w_scheduled w !! id) → step (FireTimer id) w = Some (tt, w1) → fires ids w1 w2 →
    fires (id :: ids) w w2.

Definition live_entries (w : World) : nat := size (live_pits (w_pit w)).

(** Each timer removes one PIT entry. *)
Lemma fireTimer_live (w : World) id : fwd_ok w → is_Some (w_scheduled w !! id) →
  runs (step (FireTimer id)) w (λ _ w', fwd_ok w' ∧ live_entries w = Datatypes.S (live_entries w')).
Proof.
  intros [Hi Hc] [[t ev] Hev]. destruct (event_holds w id t ev Hi Hev) as (e & He & Hl).
  destruct (fireTimer_ok strategies id w (conj Hi Hc) (mk_is_Some _ _ Hev)) as ([] & w' & Ew & Ho & _).
  destruct (fireTimer_spec strategies id t ev w Hi Hev) as ([] & w'' & Ew' & R & _).
  rewrite Ew in Ew'. injection Ew' as <-. exists tt, w'. split; [done|]. split; [done|].
  assert (Hp : ev_target ev ∈ live_pits (w_pit w)).
  { apply elem_of_live_pits. destruct Hl as [a Ha]. by exists e, a. }
  assert (El : live_pits (w_pit w') = live_pits (w_pit w) ∖ {[ev_target ev]}).
  { apply set_eq. intros q. rewrite elem_of_difference, elem_of_singleton, !elem_of_live_pits. destruct (decide (q = ev_target ev)) as [->|Hq].
    - split; [by intros ?%(rm_gone _ _ _ R)|by intros []].
    - pose proof (rm_other _ _ _ R q Hq) as Eq. unfold entries in Eq. simpl in Eq. unfold live. rewrite Eq. naive_solver. }
  unfold live_entries. rewrite El, size_difference by set_solver. rewrite size_singleton.
  assert (size (live_pits (w_pit w)) ≠ 0%nat) by (apply size_non_empty_iff; set_solver). lia.
Qed.

Lemma fires_live ids (w w' : World) : fwd_ok w → fires ids w w' → fwd_ok w' ∧ live_entries w = (length ids + live_entries w')%nat.
Proof.
  intros Ho Hf. induction Hf as [|id ids w w1 w2 Hid Hw Hf IH]; [done|].
  pose proof (runs_det _ _ _ _ _ (fireTimer_live w id Ho Hid) Hw) as [Ho1 E1]. destruct (IH Ho1) as [Ho2 E2].
  split; [done|]. simpl. lia.
Qed.

Lemma fires_end n : ∀ w : World, fwd_ok w → (live_entries w <= n)%nat → ∃ ids w', fires ids w w' ∧ w_scheduled w' = ∅.
Proof.
  induction n as [|n IH]; intros w Ho Hn; destruct (map_choose_or_empty (w_scheduled w)) as [(id & x & Hx)|He];
    try (exists [], w; split; [constructor|done]);
    destruct (fireTimer_live w id Ho (mk_is_Some _ _ Hx)) as ([] & w1 & E1 & Ho1 & El).
  - lia.
  - destruct (IH w1 Ho1) as (ids & w' & Hf & He); [lia|]. exists (id :: ids), w'. split; [|done]. by eapply fires_cons.
Qed.

(** *** Costs in the FIB *)

(** The cost of the face for the prefix [n] *)
Definition fib_cost (t : NameTree) (n : Name) (face : face_ptr) : option Z := e ← fib_get t n; FibEntry_cost e face.

Lemma fib_cost_added `{!StdSort sort} (t t' : NameTree) nItems prefix face cost : fib_wf t nItems →
  (∀ n, fib_get t' n = if decide (n = prefix) then Some (added sort t prefix face cost) else fib_get t n) →
  ∀ n g, fib_cost t' n g = if decide (n = prefix ∧ g = face) then Some cost else fib_cost t n g.
Proof.
  intros W Hf n g. unfold fib_cost. rewrite Hf. destruct (decide (n = prefix)) as [->|Hn]; [|by rewrite decide_False by naive_solver].
  simpl. unfold added. set (e := default (FibEntry_new prefix) (fib_get t prefix)).
  assert (Hok : FibEntry_ok e).
  { unfold e. destruct (fib_get t prefix) eqn:E'; [by apply (fib_entries _ _ W prefix)|]. split; constructor. }
  destruct (addNextHop_spec sort e face cost Hok) as [_ ->]. destruct (decide (g = face)) as [->|Hg]; [by rewrite decide_True|].
  rewrite decide_False by naive_solver. unfold e. by destruct (fib_get t prefix).
Qed.

Lemma cost_drop_face face e g : FibEntry_ok e →
  (e' ← drop_face face e; FibEntry_cost e' g) = if decide (g = face) then None else FibEntry_cost e g.
Proof.
  intros Hok. destruct (removeNextHop_spec e face Hok) as [_ Hc]. specialize (Hc g). unfold drop_face.
  destruct (FibEntry_hasNextHops (FibEntry_removeNextHop e face)) eqn:E'; [done|]. simpl. rewrite <-Hc.
  unfold FibEntry_hasNextHops in E'. apply negb_false_iff, bool_decide_eq_true in E'. unfold FibEntry_cost, FibEntry_findNextHop. by rewrite E'.
Qed.

Lemma fib_cost_dropped (t t' : NameTree) nItems prefix face : fib_wf t nItems →
  (∀ n, fib_get t' n = if decide (n = prefix) then e ← fib_get t n; drop_face face e else fib_get t n) →
  ∀ n g, fib_cost t' n g = if decide (n = prefix ∧ g = face) then None else fib_cost t n g.
Proof.
  intros W Hf n g. unfold fib_cost. rewrite Hf. destruct (decide (n = prefix)) as [->|Hn]; [|by rewrite decide_False by naive_solver].
  destruct (fib_get t prefix) as [e|] eqn:E'; simpl; [|by destruct (decide _)].
  rewrite cost_drop_face by (by apply (fib_entries _ _ W prefix)).
  destruct (decide (g = face)) as [->|Hg]; [by rewrite decide_True|by rewrite decide_False by naive_solver].
Qed.

Lemma modify_fib_faceTable {A} (f : NameTree → Z → A * (NameTree * Z)) : preserves (S := S) (E := E) w_faceTable (modify_fib f).
Proof. intros w a w'. unfold modify_fib. destruct (f _ _) as [b [t n]]. by intros [= <- <-]. Qed.
#[local] Hint Resolve modify_fib_faceTable : preserves.

Lemma addNextHop_faceTable p : preserves (S := S) (E := E) w_faceTable (FibManager_addNextHop sort p).
Proof. unfold FibManager_addNextHop. solve_preserves. Qed.
End requests.
