(* ===== verification/Instances.v ===== *)
(** * Concrete instances

    The parameters of the model, instantiated: the TLV encodings of names, prefix
    matching, the FIFO policy, an ndnSIM store that keeps a list, a few control
    commands, the strategies, and a small daemon.  The witnesses of the theorems
    run on them. *)

From Stdlib Require Import Ascii String.
From S2P Require Import Prelude CityHash Packets FibEntry NameTree NameTreeFacts Fib PitEntry Pit StrategyChoice DeadNonceList ContentStore CsPolicies World Forwarder ForwarderInv ForwarderSpec FaceTable Managers Strategies StrategiesSpec Daemon Requests.

(** ** Encodings *)

Definition string_bytes (s : string) : list Z := (λ a, Z.of_N (N_of_ascii a)) <$> list_ascii_of_string s.

(** Components and names shorter than 253 bytes *)
Definition tlv (type : Z) (value : list Z) : list Z := type :: Z.of_nat (length value) :: value.
Definition tlv_component (c : Component) : list Z :=
  match c with Generic s => tlv 8 (string_bytes s) | ImplicitSha256Digest s => tlv 1 (string_bytes s) end.
Definition tlv_name (n : Name) : list Z := tlv 7 (n ≫= tlv_component).

#[export] Instance tlv_WireEncoding : WireEncoding := tlv_component.
#[export] Instance tlv_NameWire : NameWire := tlv_name.

(** ** Matching and stores *)

Definition prefix_matchesData (i : Interest) (d : Data) : bool := isPrefixOf (i_name i) (getFullName d).

Lemma prefix_matchesData_ok : matches_prefix prefix_matchesData.
Proof. intros i d Hm. by apply isPrefixOf_true in Hm. Qed.

#[export] Instance list_NdnSimCs : NdnSimCs (list Data) := {
  ndnsim_Lookup i l := (find_if (prefix_matchesData i) l, l);
  ndnsim_Add d l := d :: l
}.

Definition random_uint32 (n : nat) : Z := u32 (Z.of_nat n * 2654435761).

(** ** Strategies: the classes in the registry that are modelled *)

Definition factories : list Name :=
  [BestRouteStrategy_STRATEGY_NAME; BestRouteStrategy2_STRATEGY_NAME; MulticastStrategy_STRATEGY_NAME;
   BroadcastStrategy_STRATEGY_NAME; ClientControlStrategy_STRATEGY_NAME].

Definition nfd_strategies (name : Name) : Strategy (S := PriorityFifo) (E := list Data) :=
  if bool_decide (name = BestRouteStrategy_STRATEGY_NAME) then BestRouteStrategy random_uint32
  else if bool_decide (name = MulticastStrategy_STRATEGY_NAME) then MulticastStrategy random_uint32
  else if bool_decide (name = BroadcastStrategy_STRATEGY_NAME) then BroadcastStrategy random_uint32
  else if bool_decide (name = ClientControlStrategy_STRATEGY_NAME) then ClientControlStrategy random_uint32
  else BestRouteStrategy2 random_uint32.

#[export] Instance nfd_strategies_laws name : StrategyLaws (nfd_strategies name).
Proof. unfold nfd_strategies. repeat case_bool_decide; apply _. Qed.

(** ** Control commands: the parameters of a few components *)

Definition no_parameters : ControlParameters := mkControlParameters None None None None None None None None None.
Definition parameters_of (n : Name) (id cost : Z) (s : Name) : ControlParameters :=
  mkControlParameters (Some n) (Some id) None None None (Some cost) None (Some s) None.

Definition sample_a : Name := [Generic "a"].
Definition sample_b : Name := [Generic "b"].
Definition sample_decode (c : Component) : option ControlParameters :=
  if bool_decide (c = Generic "to-257") then Some (parameters_of sample_a 257 10 [])
  else if bool_decide (c = Generic "to-258") then Some (parameters_of sample_a 258 20 [])
  else if bool_decide (c = Generic "localhost-to-259") then Some (parameters_of LOCALHOST_NAME 259 0 [])
  else if bool_decide (c = Generic "b-to-256") then Some (parameters_of sample_b 256 10 [])
  else if bool_decide (c = Generic "localhost-to-257") then Some (parameters_of LOCALHOST_NAME 257 0 [])
  else if bool_decide (c = Generic "to-nowhere") then Some (parameters_of sample_a 300 0 [])
  else if bool_decide (c = Generic "a-multicast") then Some (parameters_of sample_a 0 0 MulticastStrategy_STRATEGY_NAME)
  else if bool_decide (c = Generic "pitless-to-ncc")
  then Some (parameters_of (strategy_name "pitless-best-route" 1) 0 0 (strategy_name "ncc" 1))
  else None.

#[export] Instance sample_ControlCommands : ControlCommands := {
  wireDecode := sample_decode;
  validateRequest command p :=
    match command, cp_name p with
    | StrategyChoiceSet, Some _ => bool_decide (is_Some (cp_strategy p))
    | StrategyChoiceUnset, Some n => bool_decide (n ≠ [])
    | _, Some _ => true
    | _, None => false
    end;
  applyDefaultsToRequest _ p :=
    mkControlParameters (cp_name p) (Some (default 0 (cp_faceId p))) (cp_uri p) (cp_localControlFeature p) (cp_origin p)
      (Some (default 0 (cp_cost p))) (cp_flags p) (cp_strategy p) (cp_expirationPeriod p)
}.

#[export] Instance sample_ControlCommandsLaws : ControlCommandsLaws.
Proof.
  split; intros p; simpl; destruct (cp_name p) as [n|]; try done; intros Hv; rewrite ?bool_decide_eq_true in Hv;
    repeat (split; try done); eauto.
Qed.

(** ** A small daemon *)

(** The CS face, an application, two remote faces, and another application, before
    they are added *)
Definition sample_objects : gmap face_ptr Face :=
  list_to_map [(1%positive, mkFace INVALID_FACEID true []); (2%positive, mkFace INVALID_FACEID true []);
               (3%positive, mkFace INVALID_FACEID false []); (4%positive, mkFace INVALID_FACEID false []);
               (5%positive, mkFace INVALID_FACEID true [])].

Abbreviation SWorld := (World PriorityFifo (list Data)).

Definition sample_boot : option SWorld := Forwarder_new factories 0 sample_objects 1 PriorityFifo_new None.

Abbreviation sample_step := (daemon_step prefix_matchesData insertion_sort nfd_strategies).
Definition sample_run (l : list DaemonStep) (w : option SWorld) : option SWorld :=
  foldl (λ w s, w ← w; '(_, w) ← sample_step s w; Some w) w l.

Definition sample_interest (n : Name) (nonce : Z) : Interest :=
  mkInterest n nonce (mkSelectors false 0 "") (-1) [] 0 None.
Definition sample_data (n : Name) : Data := mkData n (ImplicitSha256Digest "d") [] 1000 None 0.
Definition sample_command (prefix : Name) (verb parameters : string) : Interest :=
  sample_interest (prefix ++ [Generic verb; Generic parameters]) 1.

(** Faces 2 to 5 get the identifiers 256 to 259; /a goes to 257, /localhost to 259. *)
Definition sample_setup : list DaemonStep :=
  [AddFace 2; AddFace 3; AddFace 4; AddFace 5; FibRequest (sample_command Fib_COMMAND_PREFIX "add-nexthop" "to-257");
   FibRequest (sample_command Fib_COMMAND_PREFIX "add-nexthop" "localhost-to-259")].

(** ** Reachable states of the small daemon *)

Definition sample_matches := prefix_matchesData_ok.
Abbreviation sample_ok := (step_ok (S := PriorityFifo) (E := list Data)).
Abbreviation sample_reachable := (reachable prefix_matchesData insertion_sort nfd_strategies).

Definition roomb (w : SWorld) (n : Name) : bool := nt_nItems (pit_nt (w_pit w)) + Z.of_nat (length n) <? 2 ^ 31.
Definition parametersb (c : Command) (w : SWorld) (request : Interest) : bool :=
  match i_name request !! 4%nat with
  | Some k =>
      match sample_decode k with
      | Some p =>
          match cp_name p with
          | Some n => roomb w n && bool_decide (NoDup (computeHashSet n)) && bool_decide (NoDup (computeHashSet (getParentName n)))
          | None => true
          end
      | None => true
      end
  | None => false
  end.

(** A decision procedure for the hypotheses on a step *)
Definition check_step (w : SWorld) (s : DaemonStep) : bool :=
  match s with
  | ReceiveInterest face i => bool_decide (is_Some (w_faces w !! face)) && roomb w (i_name i) && negb (sel_childSelector (i_selectors i) =? 1)
  | ReceiveData face d =>
      bool_decide (is_Some (w_faces w !! face)) && forallb (λ c, negb (isImplicitSha256Digest c)) (d_name d) &&
      isImplicitSha256Digest (d_digest d)
  | FireTimer id => bool_decide (is_Some (w_scheduled w !! id))
  | DnlTimer id => bool_decide (is_Some (dnl_scheduled (w_dnl w) !! id))
  | Elapse time => 0 <=? time
  | AddFace face => match w_faces w !! face with Some f => bool_decide (face_onReceive f = []) | None => false end
  | FailFace face => bool_decide (FaceTable_get (getId face w) w = Some face)
  | FibRequest r => parametersb FibAddNextHop w r
  | StrategyRequest r => parametersb StrategyChoiceSet w r
  end.

Lemma parametersb_spec c w r : parametersb c w r = true → is_Some (i_name r !! 4%nat) ∧
  ∀ k p n, i_name r !! 4%nat = Some k → sample_decode k = Some p → cp_name p = Some n →
    room (pit_nt (w_pit w)) n ∧ NoDup (computeHashSet n) ∧ NoDup (computeHashSet (getParentName n)).
Proof.
  unfold parametersb. destruct (i_name r !! 4%nat) as [k|]; [|done]. intros Hp. split; [done|].
  intros k' p n [= <-] Hk Hn. rewrite Hk, Hn in Hp. apply andb_prop in Hp as [[Hr%Z.ltb_lt Ha%bool_decide_eq_true]%andb_prop Hb%bool_decide_eq_true].
  done.
Qed.

Lemma check_step_ok w s : check_step w s = true → sample_ok w s.
Proof.
  destruct s as [face i|face d|id|id|time|face|face|r|r]; simpl.
  - intros [[Hf%bool_decide_eq_true Hr%Z.ltb_lt]%andb_prop Hs%negb_true_iff%Z.eqb_neq]%andb_prop.
    split_and!; [done|done|by intros ?].
  - intros [[Hf%bool_decide_eq_true Hp]%andb_prop Hd]%andb_prop. split; [done|]. split; [|done].
    intros c Hc. rewrite forallb_forall in Hp. apply negb_true_iff, Hp. by apply list_elem_of_In.
  - by intros ?%bool_decide_eq_true.
  - by intros ?%bool_decide_eq_true.
  - by intros ?%Z.leb_le.
  - destruct (w_faces w !! face) as [f|]; [|done]. intros ?%bool_decide_eq_true. by exists f.
  - by intros ?%bool_decide_eq_true.
  - intros Hp. destruct (parametersb_spec _ _ _ Hp) as [Hs Hk]. split; [done|]. intros c p n Hc Hd id Hn.
    apply (Hk c p n); [done|done|]. by destruct Hn.
  - intros Hp. destruct (parametersb_spec _ _ _ Hp) as [Hs Hk]. split; [done|]. intros c p n Hc Hd.
    split; intros Hn; destruct (Hk c p n Hc Hd Hn) as (? & ? & ?); by repeat split.
Qed.

Fixpoint check_run (l : list DaemonStep) (w : SWorld) : option SWorld :=
  match l with
  | [] => Some w
  | s :: l' => if check_step w s then match sample_step s w with Some (_, w') => check_run l' w' | None => None end else None
  end.

Lemma check_run_reachable l w0 w w' : sample_reachable w0 w → check_run l w = Some w' → sample_reachable w0 w'.
Proof.
  revert w. induction l as [|s l IH]; intros w Hr; simpl; [by intros [= <-]|].
  destruct (check_step w s) eqn:Ec; [|done]. destruct (sample_step s w) as [[[] w1]|] eqn:Es; [|done].
  apply IH. eapply reachable_step; [done|by apply check_step_ok|done].
Qed.

(** The daemon after a run, and after the setup *)
Definition sample_dummy : SWorld :=
  mkWorld 0 ∅ ∅ 0 (Pit_new (NameTree_new 1)) 0 (mkStrategyChoice [] 0) (mkCs [] PriorityFifo_new 0) None
    (mkDeadNonceList 0 [] 0 [] 0 0 1 1 ∅ 1) ∅ 1 0 (mkForwarderCounters 0 0 0 0) [].
Definition sample_w0 : SWorld := default sample_dummy sample_boot.
Definition sample_after (l : list DaemonStep) : SWorld := default sample_dummy (check_run l sample_w0).

Lemma sample_boot_eq : Forwarder_new factories 0 sample_objects 1 PriorityFifo_new None = Some sample_w0.
Proof. vm_compute. reflexivity. Qed.

Lemma sample_after_reachable l : is_Some (check_run l sample_w0) → sample_reachable sample_w0 (sample_after l).
Proof. intros [w Hw]. unfold sample_after. rewrite Hw. apply (check_run_reachable l sample_w0 sample_w0); [constructor|done]. Qed.

Lemma sample_objects_fresh g x : sample_objects !! g = Some x → face_id x = INVALID_FACEID ∧ face_onReceive x = [].
Proof.
  intros Hx. apply elem_of_list_to_map_2 in Hx. repeat (apply elem_of_cons in Hx as [[= _ ->]|Hx]; [done|]). by apply elem_of_nil in Hx.
Qed.

Lemma PriorityFifo_new_inv : pf_inv PriorityFifo_new.
Proof.
  split; simpl; try (intros; by simplify_map_eq).
  - constructor.
  - intros [] k; (split; [by intros ?%elem_of_nil|by intros [? ?]; simplify_map_eq]).
Qed.

Lemma sample_w0_ok : daemon_ok sample_w0 ∧ connected sample_w0 ∧ w_trace sample_w0 = [].
Proof.
  destruct (Forwarder_new_spec factories 0 sample_objects 1 (mkFace INVALID_FACEID true []) PriorityFifo_new (None : option (list Data)))
    as (w & Ew & Hd & Hc & Ht); [|done|done|apply sample_objects_fresh|].
  - apply PriorityFifo_new_inv.
  - rewrite sample_boot_eq in Ew. by injection Ew as <-.
Qed.

Abbreviation sample_is_running := (running (S := PriorityFifo) (E := list Data) prefix_matchesData insertion_sort nfd_strategies).

Lemma sample_booted : booted (sample_w0 : SWorld).
Proof.
  exists factories, 0, sample_objects, 1%positive, PriorityFifo_new, None. split_and!.
  - apply PriorityFifo_new_inv.
  - done.
  - by eexists.
  - apply sample_objects_fresh.
  - apply sample_boot_eq.
Qed.

Lemma sample_running l : bool_decide (is_Some (check_run l sample_w0)) = true → sample_is_running (sample_after l).
Proof.
  intros Hr%bool_decide_eq_true. exists sample_w0. split; [apply sample_booted|by apply sample_after_reachable].
Qed.

#[export] Instance prefix_MatchesFields : MatchesFields prefix_matchesData.
Proof. split; [|done]. intros i j d En _. unfold prefix_matchesData. by rewrite En. Qed.

Lemma sample_data_ok : data_ok (sample_data sample_a).
Proof. split; [|done]. by intros c ->%list_elem_of_singleton. Qed.

Lemma sample_NoDup : NoDup (computeHashSet sample_a).
Proof. apply (bool_decide_eq_true_1 _). vm_compute. reflexivity. Qed.

Lemma sample_attached w face : (f ← w_faces (w : SWorld) !! face; Some (face_onReceive f)) = Some [OrdinaryHandlers] → attached w face.
Proof. destruct (w_faces w !! face) as [f|] eqn:Ef; [|done]. intros [= Hf]. by exists f. Qed.

(** The PIT entry at [p] *)
Definition sample_entry (w : SWorld) (p : pit_ptr) : PitEntry := default (PitEntry_new (sample_interest [] 0)) (entries w !! p).

Lemma sample_holds (w : SWorld) p :
  match entries w !! p with Some e => bool_decide (is_Some (pe_nameTreeEntry e)) | None => false end = true → holds w p (sample_entry w p).
Proof.
  unfold sample_entry, holds. destruct (entries w !! p) as [e|]; [|done]. by intros ?%bool_decide_eq_true.
Qed.

Lemma sample_fwd_inv l : bool_decide (is_Some (check_run l sample_w0)) = true → fwd_inv (sample_after l).
Proof.
  intros Hl. apply (running_inv prefix_matchesData insertion_sort nfd_strategies); [apply prefix_matchesData_ok|by apply sample_running].
Qed.

(** Face 4 has asked for /a, and the Interest went to face 3. *)
Definition sample_asked : list DaemonStep := sample_setup ++ [ReceiveInterest 4 (sample_interest sample_a 7)].

(** A FIB entry with faces 3 and 5 *)
Definition sample_fib : FibEntry := mkFibEntry sample_a [mkNextHop 3 10; mkNextHop 5 20].
Lemma sample_fib_ok : FibEntry_ok sample_fib.
Proof. split; [apply (bool_decide_eq_true_1 _); vm_compute; reflexivity|]. repeat constructor; unfold cost_le; simpl; lia. Qed.
