(* ===== verification/DaemonTheorems.v ===== *)
(** * Properties of the daemon

    What holds of a daemon that runs: no step stops it, packets leave in scope and
    for a reason, requests are answered, PIT entries are removed, the FIB refers
    to faces of the table, commands do what they say. *)

From Stdlib Require Import Ascii String.
From S2P Require Import Prelude CityHash Packets FibEntry NameTree NameTreeFacts Fib PitEntry Pit StrategyChoice DeadNonceList ContentStore CsPolicies World Forwarder ForwarderInv ForwarderSpec FaceTable Managers Strategies StrategiesSpec Daemon Requests Instances.
Open Scope pipeline_scope.

Section theorems.
Context `{ControlCommandsLaws, WireEncoding, NameWire, NameOrder, !NameSuccessor} {S E : Type} `{CsPolicyLaws S, NdnSimCs E}.
Context (matchesData : Interest → Data → bool) (sort : list NextHop → list NextHop) `{!StdSort sort}.
Context (strategies : Name → Strategy (S := S) (E := E)) `{!∀ s, StrategyLaws (strategies s)}.
Abbreviation World := (World S E).
Abbreviation step := (daemon_step matchesData sort strategies).
Abbreviation running := (running matchesData sort strategies).

(** ** Safety *)


(** C3: a running daemon never sends a packet whose name is under /localhost on a
    face that is not local, nor any packet on a face that has no identifier. *)
Theorem localhost_stays_local (w : World) o : matches_prefix matchesData → running w → o ∈ w_trace w →
  match o with
  | SentInterest f i => LOCALHOST_NAME `prefix_of` i_name i → isLocal w f = true
  | SentData f d => LOCALHOST_NAME `prefix_of` d_name d → isLocal w f = true
  | _ => True
  end.
Proof.
  intros Hm Hr. revert o. pattern w. revert w Hr. apply (running_ind matchesData sort strategies); [done| |].
  - intros w Hb o. destruct (booted_ok w Hb) as (_ & _ & ->). by intros ?%elem_of_nil.
  - intros w s w' Hr IH Hs Hw o. destruct (running_ok _ _ _ w Hm Hr) as [Hd Hc].
    pose proof (runs_det _ _ _ _ _ (daemon_step_sends matchesData sort strategies s w Hm Hd Hc Hs) Hw) as (out & -> & Hout & _).
    pose proof (runs_det _ _ _ _ _ (daemon_step_locality matchesData sort strategies s w Hm Hd Hc Hs) Hw) as Hl.
    rewrite elem_of_app. intros Ho. pose proof (isLocal_locality _ _ Hl) as Hi.
    assert (Hok : ∀ f n, can_send w f n = true → LOCALHOST_NAME `prefix_of` n → isLocal w' f = true).
    { intros f n Hcs Hn. rewrite Hi. apply andb_prop in Hcs as [_ Hcs]. apply isPrefixOf_true in Hn. rewrite Hn in Hcs.
      by destruct (isLocal w f). }
    destruct Ho as [Ho|Ho]; [specialize (IH o Ho); destruct o; try done; by rewrite Hi|].
    rewrite Forall_forall in Hout. specialize (Hout o Ho). destruct o; try done; simpl; by apply Hok.
Qed.

(** C4: Data leave a running daemon only for a reason: to the face an Interest
    comes from, when the content store has an answer to it, or, when Data come in,
    to another face with an unexpired in-record in a PIT entry that matches them. *)
Theorem data_need_a_request (w w' : World) s f d : matches_prefix matchesData → running w → step_ok w s →
  step s w = Some (tt, w') → ∀ out, w_trace w' = w_trace w ++ out → SentData f d ∈ out →
  (∃ i d0, s = ReceiveInterest f i ∧ cs_answers matchesData w (setInterestIncomingFaceId (getId f w) i) (Some d0) ∧
     d = setDataIncomingFaceId FACEID_CONTENT_STORE d0) ∨
  (∃ g d0, s = ReceiveData g d0 ∧ f ≠ g ∧ d = setDataIncomingFaceId (getId g w) d0 ∧
     ∃ p e, p ∈ Pit_findAllDataMatches matchesData (w_pit w) d ∧ entries w !! p = Some e ∧ f ∈ pendingFaces (w_now w) e).
Proof.
  intros Hm Hr Hs Hw out Ht Hin. destruct (running_ok _ _ _ w Hm Hr) as [Hd Hc].
  pose proof (runs_det _ _ _ _ _ (daemon_step_sends matchesData sort strategies s w Hm Hd Hc Hs) Hw) as (out' & Ht' & _ & Hreason).
  rewrite Ht in Ht'. apply app_inv_head in Ht' as <-. specialize (Hreason f d Hin).
  destruct s as [g i|g d0|?|?|?|?|?|?|?]; try done; simpl in Hreason.
  - left. destruct Hreason as (-> & d0 & Ha & ->). by exists i, d0.
  - right. destruct Hreason as (Hne & -> & p & e & Hp & He & Hf). exists g, d0. split_and!; eauto.
Qed.

(** ** Requests *)


(** C5: Data that match PIT entries go exactly once to each other face that has an
    unexpired in-record in one of them and may carry them, and to no other face;
    the in-records are used up, so the same Data coming in again, on any face, are
    sent to nobody. *)
Theorem data_fan_out `{!MatchesFields matchesData} (w : World) g d : matches_prefix matchesData → running w →
  data_ok d → NoDup (computeHashSet (d_name d)) → violates_localhost w g (d_name d) = false →
  let d' := setDataIncomingFaceId (getId g w) d in
  let matches := Pit_findAllDataMatches matchesData (w_pit w) d' in
  matches ≠ [] →
  runs (onIncomingData matchesData strategies g d) w (λ _ w',
    (∃ out, w_trace w' = w_trace w ++ out ∧ NoDup (data_faces out) ∧ (∀ f x, SentData f x ∈ out → x = d') ∧
       ∀ f, f ∈ data_faces out ↔ f ≠ g ∧ can_send w f (d_name d) = true ∧ pending_in w matches f) ∧
    ∀ h, runs (onIncomingData matchesData strategies h d) w' (λ _ w'', ∃ out, w_trace w'' = w_trace w' ++ out ∧ data_faces out = [])).
Proof.
  intros Hm Hr Hd Hnd Hv d' matches Hne. destruct (running_inv _ _ _ w Hm Hr) as [Hi _].
  eapply runs_mono; [by apply (onIncomingData_spec matchesData strategies g d w)|].
  intros [] w'. simpl. rewrite Hv, decide_False by done. intros D. split; [exact (data_post_faces w w' g d' matches D)|].
  intros h. pose proof (dp_inv _ _ _ _ _ D) as Hi'.
  eapply runs_mono; [by apply (onIncomingData_spec matchesData strategies h d w')|]. intros [] w''. simpl.
  destruct (violates_localhost w' h (d_name d)); [intros ->; exists []; by rewrite app_nil_r|].
  case_decide as Em; [intros (_ & _ & Et & _); exists []; by rewrite app_nil_r|].
  intros D'. destruct (data_post_faces _ _ _ _ _ D') as (out & Et & _ & _ & Hf). exists out. split; [done|].
  apply elem_of_nil_inv. intros f. rewrite Hf. intros (_ & _ & Hp). by apply (data_again matchesData w w' g h d) in Hp.
Qed.

(** C18: an Interest whose Nonce is a duplicate (in a record of its PIT entry, or in
    the Dead Nonce List) goes nowhere: nothing is sent, and no existing PIT entry,
    timer, store or list changes. *)
Theorem looping_interest (w : World) f i : matches_prefix matchesData → running w → step_ok w (ReceiveInterest f i) →
  violates_localhost w f (i_name i) = false → loops w f i = true →
  runs (onIncomingInterest matchesData strategies f i) w (λ _ w', w_trace w' = w_trace w ∧ w_scheduled w' = w_scheduled w ∧
    w_cs w' = w_cs w ∧ w_dnl w' = w_dnl w ∧ same_fib w w' ∧
    ∀ q e, holds w q e → holds w' q e).
Proof.
  intros Hm Hr [_ [Hroom Hcs]] Hv Hl. destruct (running_inv _ _ _ w Hm Hr) as [Hi _].
  eapply runs_mono; [by apply (onIncomingInterest_spec matchesData strategies f i w)|].
  intros [] w'. simpl. rewrite Hv. intros (p & isNew & P' & e & T & I). unfold loops in Hl.
  rewrite (ip_insert _ _ _ _ _ _ _ _ _ I), (ip_entry _ _ _ _ _ _ _ _ _ I) in Hl.
  rewrite (ip_loop _ _ _ _ _ _ _ _ _ I Hl) in *. split_and!; try done; [apply T|].
  intros q x [Hq Hx]. split; [|done]. destruct (decide (q = p)) as [->|Hqp]; [|by rewrite (to_other _ _ _ T)].
  destruct isNew.
  - destruct (pit_insert_touches w (setInterestIncomingFaceId (getId f w) i) p true P' Hi Hroom (ip_insert _ _ _ _ _ _ _ _ _ I)) as (_ & _ & _ & _ & _ & _ & Hn).
    rewrite Hn in Hq by done. done.
  - destruct (ip_old _ _ _ _ _ _ _ _ _ I eq_refl) as [He _]. rewrite Hq in He. injection He as <-. apply (ip_entry _ _ _ _ _ _ _ _ _ I).
Qed.

(** a new Interest that loops because of the Dead Nonce List leaves a PIT entry
    behind for which no timer is set: nothing will remove it. *)
Theorem loop_leaves_entry (w : World) f i p P' : matches_prefix matchesData → running w → step_ok w (ReceiveInterest f i) →
  violates_localhost w f (i_name i) = false → DeadNonceList_has (w_dnl w) (i_name i) (i_nonce i) = true →
  Pit_insert (w_pit w) (setInterestIncomingFaceId (getId f w) i) = ((p, true), P') →
  runs (onIncomingInterest matchesData strategies f i) w (λ _ w', live (w_pit w') p ∧ ¬ live (w_pit w) p ∧
    ¬ pending (w_scheduled w') p).
Proof.
  intros Hm Hr [_ [Hroom Hcs]] Hv Hdnl HP. destruct (running_inv _ _ _ w Hm Hr) as [Hi _].
  eapply runs_mono; [by apply (onIncomingInterest_spec matchesData strategies f i w)|].
  intros [] w'. simpl. rewrite Hv. intros (q & isNew & Q & e & T & I).
  pose proof (ip_insert _ _ _ _ _ _ _ _ _ I) as HQ. rewrite HP in HQ. injection HQ as <- <- <-.
  assert (Hloop : duplicate_nonce w e f (setInterestIncomingFaceId (getId f w) i) = true).
  { unfold duplicate_nonce. simpl. rewrite Hdnl. apply orb_true_r. }
  rewrite (ip_loop _ _ _ _ _ _ _ _ _ I Hloop).
  destruct (ip_new _ _ _ _ _ _ _ _ _ I eq_refl) as [a Ee].
  destruct (pit_insert_touches w (setInterestIncomingFaceId (getId f w) i) p true P' Hi Hroom HP) as (_ & _ & _ & _ & _ & _ & Hnone).
  specialize (Hnone eq_refl). split_and!.
  - exists e, a. split; [apply (ip_entry _ _ _ _ _ _ _ _ _ I)|by rewrite Ee].
  - intros (x & b & Hx & _). unfold entries in Hnone. congruence.
  - intros (id & t & ev & Hev & <-). destruct (tw_event _ _ _ (fi_timers _ Hi) id t ev Hev) as (x & Hx & _).
    rewrite Hnone in Hx. done.
Qed.

(** ** PIT entries and their timers *)

(** C6: in a running daemon every pending timer belongs to a PIT entry of the table,
    which refers to it, and every PIT entry of the table that has records has a
    pending timer, which will remove it. *)
Theorem timers_match_entries (w : World) : matches_prefix matchesData → running w →
  (∀ id t ev, w_scheduled w !! id = Some (t, ev) → ∃ e, holds w (ev_target ev) e ∧ timer_of (ev_kind ev) e = Some id) ∧
  (∀ p e, holds w p e → pe_inRecords e ≠ [] ∨ pe_outRecords e ≠ [] → ∃ id t ev, w_scheduled w !! id = Some (t, ev) ∧ ev_target ev = p).
Proof.
  intros Hm Hr. destruct (running_inv _ _ _ w Hm Hr) as [Hi Hc]. split.
  - intros id t ev Hev. destruct (tw_event _ _ _ (fi_timers _ Hi) id t ev Hev) as (e & He & Hl & Hk). by exists e.
  - intros p e [He Hl]. by apply Hc.
Qed.

(** C7: timers drain the PIT: each one that runs removes exactly one PIT entry, so no
    run of timers is longer than the table, and some run ends with no timer left and
    no PIT entry that has records. *)
Theorem timers_drain_the_PIT (w : World) : matches_prefix matchesData → running w →
  (∀ ids w', fires matchesData sort strategies ids w w' → live_entries w = (length ids + live_entries w')%nat) ∧
  ∃ ids w', fires matchesData sort strategies ids w w' ∧ w_scheduled w' = ∅ ∧
    ∀ p e, holds w' p e → pe_inRecords e = [] ∧ pe_outRecords e = [].
Proof.
  intros Hm Hr. pose proof (running_inv _ _ _ w Hm Hr) as Ho. split.
  - intros ids w' Hf. by destruct (fires_live _ _ _ _ _ _ Ho Hf).
  - destruct (fires_end matchesData sort strategies (live_entries w) w Ho) as (ids & w' & Hf & Hn); [done|].
    exists ids, w'. split_and!; [done|done|]. destruct (fires_live _ _ _ _ _ _ Ho Hf) as [[_ Hc] _]. intros p e [He Hl].
    assert (Hno : ¬ has_records e).
    { intros Hrec. destruct (Hc p e He Hl Hrec) as (id & t & ev & Hev & _). by rewrite Hn, lookup_empty in Hev. }
    unfold has_records in Hno. split.
    + destruct (pe_inRecords e); [done|]. exfalso. apply Hno. by left.
    + destruct (pe_outRecords e); [done|]. exfalso. apply Hno. by right.
Qed.

(** ** Faces and the FIB *)


(** ** Management *)

(** add-nexthop.  Invalid parameters and unknown faces are refused (400, 410)
    and change nothing.  Otherwise exactly the cost of the face at the prefix
    changes, and the longest prefix match of a name that has no longer prefix in
    the FIB is the entry of the prefix, with the face as a next hop. *)
Theorem add_nexthop (w : World) p : matches_prefix matchesData → running w →
  (∀ n, cp_name (applyDefaultsToRequest FibAddNextHop p) = Some n → room (pit_nt (w_pit w)) n) →
  runs (FibManager_addNextHop sort p) w (λ r w',
    match validateParameters FibAddNextHop p with
    | None => cr_code r = 400 ∧ w' = w
    | Some q => ∃ prefix id cost, cp_name q = Some prefix ∧ cp_faceId q = Some id ∧ cp_cost q = Some cost ∧
        match FaceTable_get id w with
        | None => cr_code r = 410 ∧ w' = w
        | Some face => cr_code r = 200 ∧
            (∀ n g, fib_cost (pit_nt (w_pit w')) n g =
               if decide (n = prefix ∧ g = face) then Some cost else fib_cost (pit_nt (w_pit w)) n g) ∧
            ∀ n, prefix `prefix_of` n → NoDup (computeHashSet n) →
              (∀ q, q `prefix_of` n → (length prefix < length q)%nat → fib_get (pit_nt (w_pit w)) q = None) →
              let e := Fib_findLongestPrefixMatch (pit_nt (w_pit w')) n in
              fe_prefix e = prefix ∧ FibEntry_cost e face = Some cost
        end
    end).
Proof.
  intros Hm Hr Hroom. destruct (running_ok _ _ _ w Hm Hr) as [Hd _].
  pose proof (lo_fib _ (dm_links _ Hd)) as W.
  eapply runs_mono; [by apply FibManager_addNextHop_spec|]. intros r w' [Hd' Hpost].
  destruct (validateParameters FibAddNextHop p) as [q|]; [|done].
  destruct Hpost as (prefix & id & cost & Hn & Hid & Hcost & Hpost). exists prefix, id, cost. split_and!; [done..|].
  destruct (FaceTable_get id w) as [face|]; [|done]. destruct Hpost as [-> Hfib].
  pose proof (lo_fib _ (dm_links _ Hd')) as W'.
  pose proof (fib_cost_added sort _ (pit_nt (w_pit w')) _ prefix face cost W Hfib) as Hc.
  split_and!; [done|exact Hc|]. intros n Hp Hnd Hlonger e.
  assert (Elpm : lpm (fib_get (pit_nt (w_pit w'))) n = Some (added sort (pit_nt (w_pit w)) prefix face cost)).
  { apply lpm_Some. exists prefix. split_and!; [done|by rewrite Hfib, decide_True|].
    intros k Hk Hlen. rewrite Hfib, decide_False by (intros ->; lia). by apply Hlonger. }
  unfold e. rewrite Fib_LPM_spec, Elpm by (done || apply W'). simpl. split.
  - assert (Hg : fib_get (pit_nt (w_pit w')) prefix = Some (added sort (pit_nt (w_pit w)) prefix face cost)) by (by rewrite Hfib, decide_True).
    apply (fib_entries _ _ W' prefix _ Hg).
  - specialize (Hc prefix face). rewrite decide_True in Hc by done. unfold fib_cost in Hc. rewrite Hfib, decide_True in Hc by done. done.
Qed.


(** C31: the strategy-choice commands.  Invalid parameters, an unknown strategy and
    unsetting the root are refused (400, 504, 403) and change nothing; set makes the
    chosen version of the strategy effective for the name, unset leaves the name
    without a choice of its own; either way the strategy information of a PIT
    entry is dropped exactly when the effective strategy of its name changed. *)
Theorem strategy_choice_commands (w : World) p : matches_prefix matchesData → running w →
  (∀ n, cp_name (applyDefaultsToRequest StrategyChoiceSet p) = Some n → room (pit_nt (w_pit w)) n ∧ NoDup (computeHashSet n)) →
  (∀ n, cp_name (applyDefaultsToRequest StrategyChoiceUnset p) = Some n → NoDup (computeHashSet (getParentName n))) →
  let switched w' := ∀ p e, pit_entries (w_pit w) !! p = Some e → live (w_pit w) p →
    pit_entries (w_pit w') !! p = Some (if decide (effective (pit_nt (w_pit w')) (pe_name e) = effective (pit_nt (w_pit w)) (pe_name e))
                                        then e else PitEntry_clearStrategyInfo e) in
  runs (StrategyChoiceManager_setStrategy p) w (λ r w',
    match validateParameters StrategyChoiceSet p with
    | None => cr_code r = 400 ∧ w' = w
    | Some q => ∃ prefix name, cp_name q = Some prefix ∧ cp_strategy q = Some name ∧
        match StrategyChoice_getStrategy (w_strategies w) name with
        | None => cr_code r = 504 ∧ w' = w
        | Some strategy => r = mkControlResponse 200 (Some (setParametersStrategy strategy q)) ∧ switched w' ∧
            effective (pit_nt (w_pit w')) prefix = Some strategy
        end
    end) ∧
  runs (StrategyChoiceManager_unsetStrategy p) w (λ r w',
    match validateParameters StrategyChoiceUnset p with
    | None => cr_code r = (if decide (cp_name p = Some []) then 403 else 400) ∧ w' = w
    | Some q => cr_code r = 200 ∧ switched w' ∧ ∃ prefix, cp_name q = Some prefix ∧ sc_get (pit_nt (w_pit w')) prefix = None
    end).
Proof.
  intros Hm Hr Hset Hunset switched. destruct (running_ok _ _ _ w Hm Hr) as [Hd _]. split.
  - eapply runs_mono; [by apply (setStrategy_spec w p)|]. intros r w' [_ Hpost].
    destruct (validateParameters StrategyChoiceSet p) as [q|]; [|done].
    destruct Hpost as (prefix & name & Hn & Hs & Hpost). exists prefix, name. split_and!; [done..|].
    destruct (StrategyChoice_getStrategy _ _); [|done]. destruct Hpost as (-> & Hsw & He). split_and!; [done| |done].
    exact (sw_pits _ _ Hsw).
  - eapply runs_mono; [by apply (unsetStrategy_spec w p)|]. intros r w' [_ Hpost].
    destruct (validateParameters StrategyChoiceUnset p) as [q|]; [|done].
    destruct Hpost as (-> & prefix & Hn & Hsw & Hs). split_and!; [done| |by exists prefix]. exact (sw_pits _ _ Hsw).
Qed.
End theorems.

(** ** Witnesses, in the small daemon *)

Local Ltac sample :=
  first [apply prefix_matchesData_ok|apply sample_running; vm_compute; reflexivity|apply check_step_ok; vm_compute; reflexivity].


Abbreviation w_setup := (sample_after sample_setup).
Abbreviation w_asked := (sample_after sample_asked).
Abbreviation asked_for_a := (sample_interest sample_a 7).
Abbreviation data_a := (sample_data sample_a).

Lemma localhost_stays_local_witness :
  isLocal (sample_after (sample_setup ++ [ReceiveInterest 2 (sample_interest (LOCALHOST_NAME ++ [Generic "x"]) 7)])) 5 = true.
Proof.
  refine (localhost_stays_local prefix_matchesData insertion_sort nfd_strategies _
    (SentInterest 5 (setInterestIncomingFaceId 256 (sample_interest (LOCALHOST_NAME ++ [Generic "x"]) 7))) _ _ _ _).
  - sample.
  - sample.
  - apply (list_elem_of_lookup_2 _ 0). vm_compute. reflexivity.
  - by exists [Generic "x"].
Defined.

Lemma data_need_a_request_witness :
  ∃ p e, p ∈ Pit_findAllDataMatches prefix_matchesData (w_pit w_asked) (setDataIncomingFaceId 257 data_a) ∧
    entries w_asked !! p = Some e ∧ 4%positive ∈ pendingFaces (w_now w_asked) e.
Proof.
  destruct (data_need_a_request prefix_matchesData insertion_sort nfd_strategies w_asked
    (sample_after (sample_asked ++ [ReceiveData 3 data_a])) (ReceiveData 3 data_a) 4 (setDataIncomingFaceId 257 data_a)
    prefix_matchesData_ok) with (out := drop 1 (w_trace (sample_after (sample_asked ++ [ReceiveData 3 data_a]))))
    as [(i & d0 & [=] & _)|(g & d0 & _ & _ & _ & Hp)].
  - sample.
  - sample.
  - vm_compute. reflexivity.
  - vm_compute. reflexivity.
  - apply (list_elem_of_lookup_2 _ 1). vm_compute. reflexivity.
  - exact Hp.
Defined.


Lemma data_fan_out_witness :
  runs (onIncomingData prefix_matchesData nfd_strategies 3 data_a) w_asked (λ _ w',
    (∃ out, w_trace w' = w_trace w_asked ++ out ∧ NoDup (data_faces out) ∧ 4%positive ∈ data_faces out) ∧
    runs (onIncomingData prefix_matchesData nfd_strategies 3 data_a) w' (λ _ w'', ∃ out, w_trace w'' = w_trace w' ++ out ∧ data_faces out = [])).
Proof.
  eapply runs_mono.
  - apply (data_fan_out prefix_matchesData insertion_sort nfd_strategies w_asked 3 data_a);
      [sample|sample|apply sample_data_ok|apply sample_NoDup|vm_compute; reflexivity|vm_compute; discriminate].
  - intros [] w' [(out & Et & Hnd & _ & Hf) Hagain]. split; [|apply Hagain]. exists out. split_and!; [done|done|].
    apply Hf. split_and!; [done|vm_compute; reflexivity|]. exists 1%positive.
    destruct (entries w_asked !! 1%positive) as [e|] eqn:Ee; [|vm_compute in Ee; discriminate]. exists e.
    split_and!; [apply (list_elem_of_lookup_2 _ 0); vm_compute; reflexivity|done|].
    assert (Hx : (e ← entries w_asked !! 1%positive; pendingFaces (w_now w_asked) e !! 0%nat) = Some 4%positive) by (vm_compute; reflexivity).
    rewrite Ee in Hx. by apply list_elem_of_lookup_2 in Hx.
Defined.

Lemma looping_interest_witness :
  runs (onIncomingInterest prefix_matchesData nfd_strategies 3 asked_for_a) w_asked (λ _ w', w_trace w' = w_trace w_asked).
Proof.
  eapply runs_mono.
  - apply (looping_interest prefix_matchesData insertion_sort nfd_strategies w_asked 3 asked_for_a);
      [sample|sample|sample|vm_compute; reflexivity|vm_compute; reflexivity].
  - by intros [] w' [? _].
Defined.

(** The PIT entry has expired; its Nonce is in the Dead Nonce List. *)
Definition sample_done : list DaemonStep := sample_asked ++ [FireTimer 1].

Lemma loop_leaves_entry_witness :
  runs (onIncomingInterest prefix_matchesData nfd_strategies 3 asked_for_a) (sample_after sample_done) (λ _ w',
    live (w_pit w') 2 ∧ ¬ live (w_pit (sample_after sample_done)) 2 ∧ ¬ pending (w_scheduled w') 2).
Proof.
  apply (loop_leaves_entry prefix_matchesData insertion_sort nfd_strategies (sample_after sample_done) 3 asked_for_a 2
    (Pit_insert (w_pit (sample_after sample_done)) (setInterestIncomingFaceId (getId 3 (sample_after sample_done)) asked_for_a)).2);
    [sample|sample|sample|vm_compute; reflexivity|vm_compute; reflexivity|vm_compute; reflexivity].
Defined.

Lemma timers_match_entries_witness : ∃ e, holds w_asked 1 e ∧ timer_of true e = Some 1%positive.
Proof.
  destruct (timers_match_entries prefix_matchesData insertion_sort nfd_strategies w_asked) as [Ht _]; [sample|sample|].
  apply (Ht 1%positive 4000000000 (InterestUnsatisfied 1)). vm_compute. reflexivity.
Defined.

Lemma timers_drain_the_PIT_witness : ∃ ids w', fires prefix_matchesData insertion_sort nfd_strategies ids w_asked w' ∧
  (1 = length ids + live_entries w')%nat ∧ w_scheduled w' = ∅.
Proof.
  destruct (timers_drain_the_PIT prefix_matchesData insertion_sort nfd_strategies w_asked) as [Hl (ids & w' & Hf & He & _)]; [sample|sample|].
  exists ids, w'. split_and!; [done| |done]. rewrite <-(Hl ids w' Hf). vm_compute. reflexivity.
Defined.


(** add-nexthop and remove-nexthop for /a and face 4 *)
Abbreviation to_258 := (parameters_of sample_a 258 20 []).

Lemma sample_room : room (pit_nt (w_pit w_setup)) sample_a.
Proof. vm_compute. reflexivity. Qed.

Lemma add_nexthop_witness : runs (FibManager_addNextHop insertion_sort to_258) w_setup (λ r w', cr_code r = 200 ∧
  fib_cost (pit_nt (w_pit w')) sample_a 4 = Some 20 ∧ fib_cost (pit_nt (w_pit w')) sample_a 3 = Some 10).
Proof.
  eapply runs_mono; [apply (add_nexthop prefix_matchesData insertion_sort nfd_strategies w_setup to_258)|].
  - sample.
  - sample.
  - intros n [= <-]. apply sample_room.
  - intros r w' (prefix & id & cost & [= <-] & [= <-] & [= <-] & Hpost).
    assert (Ef : FaceTable_get 258 w_setup = Some 4%positive) by (vm_compute; reflexivity). rewrite Ef in Hpost.
    destruct Hpost as (Hc & Hf & _). split_and!; [done|by rewrite Hf|rewrite Hf; vm_compute; reflexivity].
Defined.


Abbreviation a_multicast := (parameters_of sample_a 0 0 MulticastStrategy_STRATEGY_NAME).

Lemma strategy_choice_commands_witness : runs (StrategyChoiceManager_setStrategy a_multicast) w_setup (λ r w', cr_code r = 200 ∧
  effective (pit_nt (w_pit w')) sample_a = Some MulticastStrategy_STRATEGY_NAME).
Proof.
  destruct (strategy_choice_commands prefix_matchesData insertion_sort nfd_strategies w_setup a_multicast) as [Hset _].
  - sample.
  - sample.
  - intros n [= <-]. split; [apply sample_room|apply sample_NoDup].
  - intros n [= <-]. apply (bool_decide_eq_true_1 _). vm_compute. reflexivity.
  - eapply runs_mono; [exact Hset|]. intros r w' (prefix & name & [= <-] & [= <-] & Hpost).
    assert (Es : StrategyChoice_getStrategy (w_strategies w_setup) MulticastStrategy_STRATEGY_NAME = Some MulticastStrategy_STRATEGY_NAME) by (vm_compute; reflexivity).
    rewrite Es in Hpost. destruct Hpost as (-> & _ & He). split; [reflexivity|exact He].
Defined.
