(* ===== verification/StrategyTheorems.v ===== *)
(** * Properties of the strategies

    Which next hops each strategy sends an Interest to, and how often
    best-route (version 3) lets a retransmission through. *)

From Stdlib Require Import Ascii String.
From S2P Require Import Prelude CityHash Packets FibEntry NameTree NameTreeFacts Fib PitEntry Pit StrategyChoice DeadNonceList ContentStore CsPolicies World Forwarder ForwarderInv ForwarderSpec FaceTable Managers Strategies StrategiesSpec Daemon Requests Instances.
Open Scope pipeline_scope.

Section theorems.
Context `{WireEncoding, NameWire, NameOrder, !NameSuccessor} {S E : Type} `{CsPolicyLaws S, NdnSimCs E}.
Context (random_uint32 : nat → Z).
Abbreviation World := (World S E).

(** C28: best-route (version 3) sends an Interest to at most one next hop.  A new
    Interest goes to the cheapest eligible next hop; a retransmission to the
    cheapest one not used yet, or when all are used, to the one used the longest
    ago; a suppressed retransmission goes nowhere. *)
Theorem best_route2_forwards inFace i fe p e (w : World) : fwd_inv w → holds w p e → pe_inRecords e ≠ [] → FibEntry_ok fe →
  let ok := eligible w e (getId inFace w) in
  let unused := predicate_NextHop_eligible w e (getId inFace w) true (w_now w) in
  runs (BestRouteStrategy2_afterReceiveInterest random_uint32 inFace i fe p) w (λ _ w', ∃ c : option NextHop,
    w_trace w' = w_trace w ++ from_option (λ n, send_out random_uint32 w e (nh_face n)) [] c ∧
    match (retx_decision (w_now w) e).1, c with
    | SUPPRESS, _ => c = None
    | NEW, None => ∀ n, n ∈ fe_nextHops fe → ok n = false
    | FORWARD, None => ∀ n, n ∈ fe_nextHops fe → ok n = true →
        ∃ o, PitEntry_getOutRecord e (nh_face n) = Some o ∧ TimePoint_max <= fr_lastRenewed o
    | NEW, Some n => n ∈ fe_nextHops fe ∧ ok n = true ∧
        ∀ m, m ∈ fe_nextHops fe → ok m = true → nh_cost n <= nh_cost m
    | FORWARD, Some n => n ∈ fe_nextHops fe ∧ ok n = true ∧
        if existsb unused (fe_nextHops fe)
        then unused n = true ∧ ∀ m, m ∈ fe_nextHops fe → unused m = true → nh_cost n <= nh_cost m
        else ∃ o, PitEntry_getOutRecord e (nh_face n) = Some o ∧
               ∀ m o', m ∈ fe_nextHops fe → ok m = true → PitEntry_getOutRecord e (nh_face m) = Some o' →
                 fr_lastRenewed o <= fr_lastRenewed o'
    end).
Proof.
  intros Hi He Hin Hfe ok unused. eapply runs_mono; [by apply (best_route2_spec random_uint32 inFace i fe p e w)|].
  intros [] w' (_ & c & Hc & Ht). exists c. split; [done|]. unfold best_route2_choice in Hc.
  destruct (retx_decision (w_now w) e).1.
  - injection Hc as <-. destruct (find_if _ _) as [n|] eqn:F; [|by apply find_if_None].
    destruct (find_if_Some _ _ _ F). split_and!; [done|done|]. intros m Hm Hok. by apply (first_is_cheapest fe ok).
  - fold unused in Hc. destruct (find_if unused (fe_nextHops fe)) as [n|] eqn:F.
    + injection Hc as <-. destruct (find_if_Some _ _ _ F) as [Hn Hu]. split_and!; [done|by eapply unused_eligible|].
      rewrite (proj2 (existsb_bool unused _)) by eauto. split; [done|]. intros m Hm Hok. by apply (first_is_cheapest fe unused).
    + assert (Hex : existsb unused (fe_nextHops fe) = false) by (apply existsb_false; by apply find_if_None). rewrite Hex.
      destruct (best_route2_earliest w e (getId inFace w) fe F) as (r & Er & Hr). rewrite Hc in Er. injection Er as <-. exact Hr.
  - by injection Hc as <-.
Qed.

(** C29: retransmission suppression.  A new Interest is never suppressed; a
    retransmission is suppressed exactly within the interval after the last time the
    Interest was sent, and each one let through doubles the interval, which stays
    between 1 ms and 250 ms. *)
Theorem suppression_backs_off p e (w : World) : fwd_inv w → holds w p e → retx_ok e →
  runs (RetxSuppressionExponential_decide p) w (λ r w', ∃ e', holds w' p e' ∧ retx_ok e' ∧ w_trace w' = w_trace w ∧
    if PitEntry_hasUnexpiredOutRecords (w_now w) e then
      ∃ last, (∃ o, o ∈ pe_outRecords e ∧ fr_lastRenewed o = last) ∧ (∀ o, o ∈ pe_outRecords e → fr_lastRenewed o <= last) ∧
      if decide (w_now w < last + microseconds (retx_interval e))
      then r = SUPPRESS ∧ retx_interval e' = retx_interval e
      else r = FORWARD ∧ retx_interval e' = Z.min 250000 (2 * retx_interval e)
    else r = NEW ∧ retx_interval e' = retx_interval e).
Proof.
  intros Hi He Hok. eapply runs_mono; [by apply (RetxSuppressionExponential_spec p e w)|].
  intros r w' (_ & Hq & -> & h & He' & Eint). exists (setPitInfo h e). pose proof (retx_decision_ok (w_now w) e Hok) as Hb.
  split_and!; [done|unfold retx_ok in *; lia|apply Hq|]. rewrite Eint. unfold retx_decision.
  destruct (PitEntry_hasUnexpiredOutRecords (w_now w) e) eqn:Hu; [|done].
  destruct (unexpired_last _ _ Hu) as [last El]. destruct (getLastOutgoing_spec e last El) as [Hex Hmax].
  exists last. split_and!; [done|done|]. rewrite El. simpl. 
  destruct (Z.ltb_spec (w_now w - last) (microseconds (retx_interval e))).
  - by rewrite decide_True by lia.
  - rewrite decide_False by lia. split; [done|]. unfold DEFAULT_MAX_INTERVAL, DEFAULT_MULTIPLIER. simpl. f_equal. lia.
Qed.

(** multicast sends the Interest once to every next hop that it can be forwarded
    to (in scope, not the only downstream, no unexpired out-record), in the order of
    the FIB entry, and to no other face. *)
Theorem multicast_sends_to_all inFace i fe p e (w : World) : fwd_inv w → holds w p e → pe_inRecords e ≠ [] → FibEntry_ok fe →
  let wanted := filter (λ n, PitEntry_canForwardTo (isLocal w) (w_now w) e (nh_face n) = true ∧ may_send w e (nh_face n) = true) (fe_nextHops fe) in
  runs (MulticastStrategy_afterReceiveInterest random_uint32 inFace i fe p) w (λ _ w', ∃ out, w_trace w' = w_trace w ++ out ∧
    Forall2 (λ n o, ∃ j, o = SentInterest (nh_face n) j ∧ i_name j = pe_name e ∧ i_selectors j = i_selectors (pe_interest e)) wanted out).
Proof.
  intros Hi He Hin Hfe wanted. eapply runs_mono; [by apply (multicast_spec random_uint32 inFace i fe p e w)|].
  intros [] w' (_ & Ht). eexists. split; [exact Ht|]. unfold wanted. clear wanted Ht Hfe.
  destruct (fi_ok _ Hi p e (proj1 He)) as [Hok Hrec].
  induction (fe_nextHops fe) as [|n l IH]; simpl; [constructor|]. unfold multicast_out at 1. rewrite filter_cons.
  destruct (PitEntry_canForwardTo _ _ _ _), (may_send _ _ _); simpl; try exact IH.
  destruct (picked_is_Some random_uint32 w e (nh_face n) false Hok Hin) as (j & r & i0 & Ej & _ & Hr & Hi0 & ->).
  rewrite Ej. simpl. constructor; [|exact IH]. exists i0. split; [done|]. by apply (Hrec r i0).
Qed.

(** best-route sends an Interest that is not pending upstream to the cheapest
    next hop it can be forwarded to, and rejects it when there is none; an Interest
    already pending upstream is not sent again. *)
Theorem best_route_forwards inFace i fe p e (w : World) : fwd_inv w → holds w p e → pe_inRecords e ≠ [] → FibEntry_ok fe →
  let can n := PitEntry_canForwardTo (isLocal w) (w_now w) e (nh_face n) in
  runs (BestRouteStrategy_afterReceiveInterest random_uint32 inFace i fe p) w (λ _ w',
    if PitEntry_hasUnexpiredOutRecords (w_now w) e then w' = w
    else (w_trace w' = w_trace w ∧ pending (w_scheduled w') p ∧ ∀ n, n ∈ fe_nextHops fe → can n = false) ∨
         ∃ n, n ∈ fe_nextHops fe ∧ can n = true ∧ (∀ m, m ∈ fe_nextHops fe → can m = true → nh_cost n <= nh_cost m) ∧
           w_trace w' = w_trace w ++ send_out random_uint32 w e (nh_face n)).
Proof.
  intros Hi He Hin Hfe can. eapply runs_mono; [by apply (best_route_spec random_uint32 inFace i fe p e w)|].
  intros [] w' (_ & Hpost). destruct (PitEntry_hasUnexpiredOutRecords (w_now w) e); [done|].
  destruct (best_route_choice w e fe) as [n|] eqn:Ec.
  - right. destruct (best_route_choice_spec w e fe n Hfe Ec) as (Hn & Hcan & Hmin). exists n. split_and!; [done..|].
    unfold send_out. unfold sends_to in Hpost. destruct (may_send w e (nh_face n)); [|rewrite Hpost; by rewrite app_nil_r].
    destruct Hpost as (j & -> & ->). done.
  - left. destruct Hpost as [Hq Hp]. split_and!; [apply Hq|done|]. exact (proj1 (find_if_None _ _) Ec).
Qed.
End theorems.

(** ** Witnesses

    Face 4 has asked for /a, the Interest went to face 3, and 2 ms have passed. *)

Definition sample_waited : list DaemonStep := sample_asked ++ [Elapse 2000000].
Abbreviation w_waited := (sample_after sample_waited).
Abbreviation e_waited := (sample_entry w_waited 1).

#[local] Opaque sample_after sample_entry.

Local Ltac sample :=
  first [apply sample_fwd_inv; vm_compute; reflexivity|apply sample_holds; vm_compute; reflexivity|apply sample_fib_ok|vm_compute; discriminate].

Lemma best_route2_forwards_witness :
  runs (BestRouteStrategy2_afterReceiveInterest random_uint32 4 (sample_interest sample_a 8) sample_fib 1) w_waited (λ _ w',
    w_trace w' = w_trace w_waited ++ send_out random_uint32 w_waited e_waited 5).
Proof.
  eapply runs_mono; [apply (best_route2_forwards random_uint32 4 (sample_interest sample_a 8) sample_fib 1 e_waited w_waited); sample|].
  intros [] w' (c & Ht & Hc).
  assert (Er : (retx_decision (w_now w_waited) e_waited).1 = FORWARD) by (vm_compute; reflexivity). rewrite Er in Hc.
  assert (Ho : eligible w_waited e_waited (getId 4 w_waited) (mkNextHop 5 20) = true) by (vm_compute; reflexivity).
  assert (Eu : existsb (predicate_NextHop_eligible w_waited e_waited (getId 4 w_waited) true (w_now w_waited)) (fe_nextHops sample_fib) = true)
    by (vm_compute; reflexivity).
  destruct c as [n|].
  - rewrite Eu in Hc. destruct Hc as (Hn & _ & Hunused & _).
    assert (En : n = mkNextHop 5 20); [|subst n; exact Ht].
    assert (En3 : predicate_NextHop_eligible w_waited e_waited (getId 4 w_waited) true (w_now w_waited) (mkNextHop 3 10) = false)
      by (vm_compute; reflexivity).
    apply elem_of_cons in Hn as [En|Hn]; [|apply list_elem_of_singleton in Hn; exact Hn].
    exfalso. rewrite En, En3 in Hunused. discriminate Hunused.
  - destruct (Hc (mkNextHop 5 20)) as (o & Eo & _); [apply (list_elem_of_lookup_2 _ 1); reflexivity|exact Ho|].
    assert (Eno : PitEntry_getOutRecord e_waited 5 = None) by (vm_compute; reflexivity).
    change (nh_face (mkNextHop 5 20)) with 5%positive in Eo. rewrite Eno in Eo. discriminate Eo.
Defined.

Lemma suppression_backs_off_witness :
  runs (RetxSuppressionExponential_decide 1) w_waited (λ r w', r = FORWARD ∧ ∃ e', holds w' 1 e' ∧ retx_interval e' = 2000).
Proof.
  eapply runs_mono; [apply (suppression_backs_off 1 e_waited w_waited); [sample|sample|split; vm_compute; discriminate]|].
  intros r w' (e' & He' & _ & _ & Hd).
  assert (Eu : PitEntry_hasUnexpiredOutRecords (w_now w_waited) e_waited = true) by (vm_compute; reflexivity). rewrite Eu in Hd.
  destruct Hd as (last & (o & Ho & <-) & _ & Hd).
  assert (Eo : pe_outRecords e_waited = [default (FaceRecord_new 1) (head (pe_outRecords e_waited))]) by (vm_compute; reflexivity).
  rewrite Eo in Ho. apply list_elem_of_singleton in Ho as ->. rewrite decide_False in Hd by (vm_compute; discriminate).
  destruct Hd as [-> Hi]. split; [done|]. exists e'. split; [done|]. rewrite Hi. vm_compute. reflexivity.
Defined.

Lemma multicast_sends_to_all_witness :
  runs (MulticastStrategy_afterReceiveInterest random_uint32 4 (sample_interest sample_a 8) sample_fib 1) w_waited (λ _ w',
    ∃ j, w_trace w' = w_trace w_waited ++ [SentInterest 5 j]).
Proof.
  eapply runs_mono; [apply (multicast_sends_to_all random_uint32 4 (sample_interest sample_a 8) sample_fib 1 e_waited w_waited); sample|].
  intros [] w' (out & Ht & Hout).
  assert (Ew : filter (λ n, PitEntry_canForwardTo (isLocal w_waited) (w_now w_waited) e_waited (nh_face n) = true ∧
    may_send w_waited e_waited (nh_face n) = true) (fe_nextHops sample_fib) = [mkNextHop 5 20]) by (vm_compute; reflexivity).
  rewrite Ew in Hout. apply Forall2_cons_inv_l in Hout as (o & out' & (j & -> & _) & Hnil & ->).
  apply Forall2_nil_inv_l in Hnil as ->. by exists j.
Defined.

(** Face 4 has asked for /b, for which there is no route. *)
Definition sample_unrouted : list DaemonStep := sample_setup ++ [ReceiveInterest 4 (sample_interest [Generic "b"] 7)].
Abbreviation w_b := (sample_after sample_unrouted).
Abbreviation e_b := (sample_entry w_b 1).

Lemma best_route_forwards_witness :
  runs (BestRouteStrategy_afterReceiveInterest random_uint32 4 (sample_interest [Generic "b"] 8) sample_fib 1) w_b (λ _ w',
    w_trace w' = w_trace w_b ++ send_out random_uint32 w_b e_b 3).
Proof.
  eapply runs_mono; [apply (best_route_forwards random_uint32 4 (sample_interest [Generic "b"] 8) sample_fib 1 e_b w_b); sample|].
  intros [] w' Hpost.
  assert (Eu : PitEntry_hasUnexpiredOutRecords (w_now w_b) e_b = false) by (vm_compute; reflexivity). rewrite Eu in Hpost.
  assert (Ec : PitEntry_canForwardTo (isLocal w_b) (w_now w_b) e_b 3 = true) by (vm_compute; reflexivity).
  assert (H3 : mkNextHop 3 10 ∈ fe_nextHops sample_fib) by (apply (list_elem_of_lookup_2 _ 0); reflexivity).
  destruct Hpost as [(_ & _ & Hnone)|(n & Hn & _ & Hmin & Ht)].
  - specialize (Hnone _ H3). change (nh_face (mkNextHop 3 10)) with 3%positive in Hnone. rewrite Ec in Hnone. discriminate Hnone.
  - assert (En : n = mkNextHop 3 10); [|subst n; exact Ht]. specialize (Hmin _ H3 Ec).
    apply elem_of_cons in Hn as [En|Hn]; [exact En|]. apply list_elem_of_singleton in Hn as ->. simpl in Hmin. lia.
Defined.
