(* ===== verification/TableTheorems.v ===== *)
(** * Properties of the tables

    The name tree and what is attached to it (FIB, PIT, strategy choices,
    measurements), the content store and its policies, the Dead Nonce List. *)

From Stdlib Require Import Ascii String.
From S2P Require Import Prelude CityHash Packets FibEntry NameTree NameTreeFacts NameTreeEnum Fib PitEntry Pit StrategyChoice Measurements DeadNonceList ContentStore CsPolicies World Forwarder ForwarderInv ForwarderSpec FaceTable Managers Strategies StrategiesSpec Daemon Requests Instances.

(** ** The names of a tree *)

Section names.
Context `{WireEncoding}.

Definition has_entry (t : NameTree) (n : Name) : Prop := ∃ a, entry_at (nt_heap t) n a.

Lemma has_entry_parent t n : nt_wf t → has_entry t n → has_entry t (getParentName n).
Proof.
  intros [T _] (a & e & He & <-). pose proof (wf_parent _ T a e He) as Hp. destruct (e_parent e) as [p|].
  - destruct Hp as (c & Hp & _). by exists p.
  - rewrite Hp. exists a, e. by rewrite Hp.
Qed.

Lemma has_entry_prefix t n m : nt_wf t → has_entry t (n ++ m) → has_entry t n.
Proof.
  intros Ht. induction m as [|c m IH] using rev_ind; [by rewrite app_nil_r|].
  rewrite app_assoc. intros Hn%has_entry_parent; [|done]. unfold getParentName in Hn. rewrite length_app, Nat.add_sub, take_app_length in Hn. auto.
Qed.

(** In a pruned tree the entries are those of the names that carry something and
    of their prefixes. *)
Lemma pruned_has_entry t n : nt_wf t → pruned (nt_heap t) →
  has_entry t n ↔ ∃ m, n `prefix_of` m ∧ payload_at t m ≠ no_payload.
Proof.
  intros Ht Hp. split.
  - assert (Hk : ∀ k n, (max_prefix t < length n + k)%nat → has_entry t n → ∃ m, n `prefix_of` m ∧ payload_at t m ≠ no_payload).
    { intros k. induction k as [|k IH]; intros x Hx (a & e & He & <-).
      - pose proof (plen_max t a) as Hm. unfold plen in Hm. rewrite He in Hm. simpl in *. lia.
      - destruct (e_children e) as [|c l] eqn:Ec.
        + exists (e_prefix e). split; [done|]. rewrite (payload_at_entry t a e Ht He). intros Hpay.
          specialize (Hp a e He). rewrite (proj2 (isEmpty_true e)) in Hp; [done|by split].
        + destruct (proj1 (wf_children _ (proj1 Ht) a e c He)) as (f & Hf & Hfp); [rewrite Ec; apply elem_of_cons; by left|].
          pose proof (wf_parent _ (proj1 Ht) c f Hf) as Hpar. rewrite Hfp in Hpar. destruct Hpar as (d & (e' & He' & En) & Ef).
          rewrite He in He'. injection He' as <-. rewrite <-En in Ef.
          destruct (IH (e_prefix f)) as (m & Hm & Hpay); [rewrite Ef, length_app; simpl; lia|by exists c, f|].
          exists m. split; [|done]. etransitivity; [|exact Hm]. rewrite Ef. by eexists. }
    intros Hn. apply (Hk (Datatypes.S (max_prefix t))); [lia|done].
  - intros (m & [k ->] & Hpay). destruct (entry_at_dec t (n ++ k) Ht) as [He|He]; [by eapply has_entry_prefix|].
    by rewrite payload_at_None in Hpay.
Qed.
End names.

(** ** Properties of the name tree and the FIB *)

Section name_tree.
Context `{WireEncoding}.

(** C21: erasing undoes a lookup.  [lookup] makes the entry of a name and its
    prefixes, and changes nothing that is attached; when the new entry is erased
    again, the tree has exactly the entries it had, with what was attached. *)
Theorem erase_undoes_lookup t n a t1 r t2 : nt_wf t → pruned (nt_heap t) → room t n →
  NameTree_lookup t n = (a, t1) → NameTree_eraseEntryIfEmpty t1 a = (r, t2) →
  (entry_at (nt_heap t1) n a ∧ ∀ m, has_entry t1 m ↔ has_entry t m ∨ m `prefix_of` n) ∧
  (nt_wf t2 ∧ ∀ m, (has_entry t2 m ↔ has_entry t m) ∧ payload_at t1 m = payload_at t m ∧ payload_at t2 m = payload_at t m).
Proof.
  intros Ht Hp Hroom Hl He. destruct (lookup_spec t n a t1 Ht Hroom Hl) as [W1 E1 G1 P1 _].
  destruct E1 as (e & Ee & En). destruct (erase_spec t1 a e r t2 W1 Ee He) as [W2 _ G2 P2 _].
  assert (Hpay1 : ∀ m, payload_at t1 m = payload_at t m) by (intros m; by eapply nt_grow_payload).
  assert (Hpay2 : ∀ m, payload_at t2 m = payload_at t m).
  { intros m. rewrite <-Hpay1. symmetry. by eapply (nt_grow_payload _ t2 t1). }
  split; [split; [by exists e|]|split; [done|]].
  - intros m. split.
    + intros (b & f & Hf & <-). destruct (nt_heap t !! b) as [g|] eqn:Eg.
      * left. destruct (grow_old _ _ _ G1 b g Eg) as (f' & Hf' & Ep & _). exists b, g. split; [done|congruence].
      * right. by destruct (grow_new _ _ _ G1 b f Hf Eg).
    + intros [(b & f & Hf & <-)|[k ->]].
      * destruct (grow_old _ _ _ G1 b f Hf) as (f' & Hf' & Ep & _). by exists b, f'.
      * apply (has_entry_prefix t1 m k W1). by exists a, e.
  - intros m. split_and!; [|done|done]. rewrite !pruned_has_entry by auto. by setoid_rewrite Hpay2.
Qed.

(** C20: matching by hash equals matching by name.  When the prefixes of the name
    have different hashes, the lookups that go through the hash table find exactly
    the accepted entries among the prefixes of the name, longest first; with equal
    names the walk up the parents finds the same. *)
Theorem matching_is_by_name t sel n : nt_wf t → NoDup (computeHashSet n) →
  NameTree_findAllMatches t n sel = prefix_matches t sel n ∧
  NameTree_findLongestPrefixMatch t n sel = head (prefix_matches t sel n) ∧
  (∀ a e, nt_heap t !! a = Some e → e_prefix e = n →
     NameTree_findLongestPrefixMatch_entry t a sel = head (prefix_matches t sel n)).
Proof.
  intros Ht Hn. split_and!; [by apply findAllMatches_spec|by apply LPM_spec|]. intros a e He <-. by apply LPM_entry_spec.
Qed.

(** the enumerations.  [fullEnumerate] visits each accepted entry once;
    [partialEnumerate] lists, parents before children, the accepted entries under
    the prefix whose ancestors from the prefix on are all to be descended into. *)
Theorem enumerations t : nt_wf t →
  (∀ sel, NoDup (NameTree_fullEnumerate t sel) ∧
     ∀ a, a ∈ NameTree_fullEnumerate t sel ↔ ∃ e, nt_heap t !! a = Some e ∧ sel e = true) ∧
  (∀ sel n, NameTree_partialEnumerate t n sel = from_option (preorder t sel) [] (NameTree_findExactMatch t n) ∧
     ∀ b, b ∈ NameTree_partialEnumerate t n sel ↔
       ∃ a ea eb, nt_heap t !! a = Some ea ∧ e_prefix ea = n ∧ nt_heap t !! b = Some eb ∧ reachable_below t sel ea eb).
Proof.
  intros Ht. split.
  - intros sel. rewrite fullEnumerate_spec by done. split; [apply NoDup_filter, (wf_nodup _ (proj2 Ht))|].
    intros a. rewrite list_elem_of_filter, on_entry_true, (wf_dom _ (proj2 Ht)). split; [naive_solver|]. intros (e & He & Hs). split; [by exists e|by exists e].
  - intros sel n. split; [by apply partialEnumerate_spec|]. intros b. by apply partialEnumerate_elem.
Qed.
End name_tree.

Section fib.
Context `{WireEncoding}.




Lemma computeHash_twice p c : computeHash (p ++ [c; c]) = computeHash p.
Proof.
  replace (p ++ [c; c]) with ((p ++ [c]) ++ [c]) by (by rewrite <-app_assoc).
  by rewrite !computeHash_snoc, Z.lxor_assoc, Z.lxor_nilpotent, Z.lxor_0_r.
Qed.

(** the hash of a name is the exclusive or of the hashes of its components, so a
    name that repeats a component twice hashes like the name without the two: with FIB
    entries for a prefix and for the prefix extended by a component, the longest prefix
    match of the prefix with the component twice is the shorter entry. *)
Theorem repeated_component_misroutes t p c x y : nt_wf t → NoDup (computeHashSet (p ++ [c])) →
  fib_get t p = Some x → fib_get t (p ++ [c]) = Some y → fib_get t (p ++ [c; c]) = None →
  lpm (fib_get t) (p ++ [c; c]) = Some y ∧ Fib_findLongestPrefixMatch t (p ++ [c; c]) = x.
Proof.
  intros Ht Hnd Hx Hy Hn. assert (En : p ++ [c; c] = (p ++ [c]) ++ [c]) by (by rewrite <-app_assoc). split.
  - apply lpm_Some. exists (p ++ [c]). split_and!; [rewrite En; by eexists|done|].
    intros q [k Hk] Hlen. rewrite En in Hk. destruct k as [|d k _] using rev_ind.
    + rewrite app_nil_r in Hk. by rewrite <-Hk, <-En.
    + rewrite app_assoc in Hk. apply app_inj_tail in Hk as [Hk _]. apply (f_equal length) in Hk. rewrite !length_app in *. simpl in *. lia.
  - assert (Hent : ∀ m z, fib_get t m = Some z → ∃ a e, nt_heap t !! a = Some e ∧ e_prefix e = m ∧ e_fib e = Some z).
    { intros m z Hm. destruct (entry_at_dec t m Ht) as [(a & e & He & Ee)|Hnone].
      - exists a, e. split_and!; [done|done|]. rewrite <-(fib_get_entry t a e) by done. by rewrite Ee.
      - unfold fib_get in Hm. by rewrite payload_at_None in Hm. }
    destruct (Hent p x Hx) as (a & e & He & Ep & Ef).
    assert (Hmatch : NameTree_matchAt t (p ++ [c; c]) hasFibEntry (computeHash p) = Some a).
    { unfold NameTree_matchAt. apply find_if_unique.
      - apply elem_of_bucket; [apply Ht|]. exists e. split; [done|]. by rewrite (wf_hash _ (proj2 Ht) _ _ He), Ep.
      - apply on_entry_true. exists e. split; [done|]. unfold hasFibEntry. rewrite (wf_hash _ (proj2 Ht) _ _ He), Ep, Z.eqb_refl, Ef.
        rewrite (proj2 (isPrefixOf_true _ _)); [done|by eexists].
      - intros b Hb Hp. apply on_entry_true in Hp as (g & Hg & Hp).
        apply andb_prop in Hp as [[Hh%Z.eqb_eq Hpre%isPrefixOf_true]%andb_prop Hs%bool_decide_eq_true].
        apply (wf_unique _ (proj1 Ht) _ _ p); [exists g; split; [done|]|by exists e].
        assert (Hg' : is_Some (fib_get t (e_prefix g))) by (by rewrite (fib_get_entry t b g)).
        assert (Hpre' : e_prefix g `prefix_of` p ++ [c]).
        { destruct Hpre as [k Hk]. rewrite En in Hk. destruct k as [|d k _] using rev_ind.
          - rewrite app_nil_r in Hk. rewrite <-Hk, <-En, Hn in Hg'. by destruct Hg'.
          - rewrite app_assoc in Hk. apply app_inj_tail in Hk as [-> _]. by eexists. }
        rewrite <-(take_app_length p [c]). apply (same_hash_prefix t (p ++ [c]) (length p) b g); try done.
        + rewrite length_app. lia.
        + by rewrite take_app_length. }
    unfold Fib_findLongestPrefixMatch, NameTree_findLongestPrefixMatch. rewrite En, computeHashSet_snoc, <-En, rev_unit, computeHash_twice.
    simpl. rewrite Hmatch. unfold getFibEntry. rewrite He. simpl. by rewrite Ef.
Qed.

Lemma u64_pred_ne k : u64 (k - 1) ≠ u64 k.
Proof.
  unfold u64. intros Hk. pose proof (Z.mod_pos_bound k (2 ^ 64) eq_refl) as Hb.
  assert (E : (k - 1 - k) mod 2 ^ 64 = 0) by (by rewrite Zminus_mod, Hk, Z.sub_diag).
  replace (k - 1 - k) with (-1) in E by lia. vm_compute in E. done.
Qed.

(** erasing by name a prefix that is in the name tree but has no FIB entry (an
    ancestor of one, say) changes no entry, but takes one off the item count. *)
Theorem erase_without_entry_miscounts t nItems n : fib_wf t nItems → has_entry t n → fib_get t n = None →
  let '(t', k) := Fib_erase t nItems n in
  k = u64 (nItems - 1) ∧ (∀ m, fib_get t' m = fib_get t m) ∧ k ≠ u64 (fib_size t').
Proof.
  intros W (a & e & He & En) Hn. unfold Fib_erase. rewrite (proj2 (findExactMatch_entry t n a (fib_tree _ _ W))) by (by exists e).
  unfold Fib_erase_nte. destruct (NameTree_eraseEntryIfEmpty _ _) as [r t'] eqn:Ee.
  destruct (alter_erase_spec t a e (setFibEntry None) r t' (fib_tree _ _ W) He (setFibEntry_update None) Ee) as (W' & Hp & _).
  assert (Hg : ∀ m, fib_get t' m = fib_get t m).
  { intros m. unfold fib_get. rewrite Hp. case_decide as Em; [|done]. subst m. rewrite En. symmetry. apply Hn. }
  split_and!; [done|done|]. rewrite (fib_nItems _ _ W). unfold fib_size.
  rewrite (payload_names_ext has_fib t t'); [rewrite u64_sub_l; apply u64_pred_ne|apply W|done|done|].
  intros m. pose proof (Hg m) as Hm. unfold fib_get in Hm. unfold has_fib. by rewrite Hm.
Qed.
End fib.
(** ** Properties of the PIT *)

Section pit.
Context `{WireEncoding}.

Lemma Pit_insert_fresh P i p P' : pit_wf P → Pit_insert P i = ((p, true), P') → pit_entries P !! p = None.
Proof.
  intros W. unfold Pit_insert. destruct (NameTree_lookup (pit_nt P) (i_name i)) as [nte t]. case_match; [done|].
  intros [= <- _]. apply eq_None_not_Some. intros Hc. apply (pw_fresh _ W) in Hc. simpl in Hc. lia.
Qed.

Lemma pit_has_unique P i p q : pit_wf P → pit_has P i p → pit_has P i q → p = q.
Proof.
  intros W [(x & a & Hx & Ha) (x' & Hx' & En & Es)] [(y & b & Hy & Hb) (y' & Hy' & Fn & Fs)].
  assert (x' = x) as -> by congruence. assert (y' = y) as -> by congruence.
  destruct (pw_back _ W _ _ _ Hx Ha) as (f & Hf & _ & Ef), (pw_back _ W _ _ _ Hy Hb) as (g & Hg & _ & Eg).
  assert (a = b) as -> by (apply (wf_unique _ (proj1 (pw_tree _ W)) a b (i_name i)); [exists f|exists g]; split; congruence).
  apply (pw_selectors _ W p q x y b); congruence.
Qed.

(** C22: the PIT has one entry per name and selectors: inserting an Interest finds the
    entry if there is one and makes it otherwise, inserting it again finds the same
    one and changes nothing, and erasing a new entry leaves the live entries and the
    FIB, strategy and measurement entries that were there before. *)
Theorem PIT_insert_erase P i p isNew P1 : pit_wf P → room (pit_nt P) (i_name i) → Pit_insert P i = ((p, isNew), P1) →
  pit_wf P1 ∧ pit_has P1 i p ∧ (isNew = false ↔ ∃ q, pit_has P i q) ∧ (isNew = false → pit_has P i p) ∧
  live_pits P1 = {[p]} ∪ live_pits P ∧
  (∀ q P2 b, room (pit_nt P1) (i_name i) → Pit_insert P1 i = ((q, b), P2) → q = p ∧ b = false ∧ pit_entries P2 = pit_entries P1) ∧
  (isNew = true → ∃ P2, Pit_erase P1 p = Some P2 ∧ pit_wf P2 ∧ live_pits P2 = live_pits P ∧
     ∀ n, non_pit (payload_at (pit_nt P2) n) = non_pit (payload_at (pit_nt P) n)).
Proof.
  intros W Hroom Hi. destruct (Pit_insert_spec P i p isNew P1 W Hroom Hi) as [W1 Hh Hnew Hold Hframe Hlive Hpay].
  split_and!; [done|done| |done|done| |].
  - split; [intros E; exists p; auto|]. intros [q Hq]. destruct isNew; [|done]. by destruct (proj1 (Hnew eq_refl) q).
  - intros q P2 b Hroom1 Hi2. destruct (Pit_insert_spec P1 i q b P2 W1 Hroom1 Hi2) as [_ _ Hnew2 Hold2 Hframe2 _ _].
    destruct b; [by destruct (proj1 (Hnew2 eq_refl) p)|]. split_and!; [by apply (pit_has_unique P1 i); auto|done|].
    apply map_eq. intros x. apply Hframe2. by right.
  - intros E. subst isNew. destruct (Hnew eq_refl) as (_ & a & Ha).
    destruct (Pit_erase_spec P1 p _ W1 Ha) as (P2 & Ee & [W2 _ Hl2 Hp2]); [done|]. exists P2. split_and!; [done|done| |].
    + rewrite Hl2, Hlive. assert (p ∉ live_pits P); [|set_solver]. intros Hp%elem_of_live_pits.
      destruct Hp as (x & b & Hx & _). by rewrite (Pit_insert_fresh P i p P1 W Hi) in Hx.
    + intros n. by rewrite Hp2.
Qed.

Context (matchesData : Interest → Data → bool).


(** an Interest for the full name of Data, with the implicit digest, stays
    unanswered: the Data that have this full name do not match its PIT entry, though
    they match the Interest. *)
Theorem full_name_not_matched P data p e : pit_wf P → NoDup (computeHashSet (d_name data)) →
  pit_entries P !! p = Some e → pe_name e = getFullName data → p ∉ Pit_findAllDataMatches matchesData P data.
Proof.
  intros W Hn He Ename Hp. apply findAllDataMatches_spec in Hp as (e' & He' & _ & Hpre & _); [|done|done].
  rewrite He in He'. injection He' as <-. rewrite Ename in Hpre. apply prefix_length in Hpre. unfold getFullName in Hpre.
  rewrite length_app in Hpre. simpl in Hpre. lia.
Qed.

Lemma findNonce_flag e nonce face k : 0 <= k → Z.testbit (PitEntry_findNonce e nonce face) k = true ↔
  (∃ r, r ∈ pe_inRecords e ∧ fr_lastNonce (ir_record r) = nonce ∧ (ir_face r = face ∧ k = 0 ∨ ir_face r ≠ face ∧ k = 1)) ∨
  (∃ r, r ∈ pe_outRecords e ∧ fr_lastNonce r = nonce ∧ (fr_face r = face ∧ k = 2 ∨ fr_face r ≠ face ∧ k = 3)).
Proof.
  intros Hk. rewrite findNonce_testbit, orb_true_iff, !existsb_bool by done. setoid_rewrite list_elem_of_fmap.
  repeat setoid_rewrite andb_true_iff. repeat setoid_rewrite orb_true_iff. repeat setoid_rewrite andb_true_iff.
  setoid_rewrite negb_true_iff. setoid_rewrite bool_decide_eq_true. setoid_rewrite bool_decide_eq_false. setoid_rewrite Z.eqb_eq.
  unfold ir_face. naive_solver.
Qed.

(** the duplicate nonce flags: each of the four bits is set exactly when an
    in- or out-record, of the same or of another face, carries the nonce. *)
Theorem duplicate_nonce_flags e nonce face :
  let same_in r := ir_face r = face ∧ fr_lastNonce (ir_record r) = nonce in
  let other_in r := ir_face r ≠ face ∧ fr_lastNonce (ir_record r) = nonce in
  let same_out (r : OutRecord) := fr_face r = face ∧ fr_lastNonce r = nonce in
  let other_out (r : OutRecord) := fr_face r ≠ face ∧ fr_lastNonce r = nonce in
  let flags := PitEntry_findNonce e nonce face in
  (Z.testbit flags 0 = true ↔ ∃ r, r ∈ pe_inRecords e ∧ same_in r) ∧
  (Z.testbit flags 1 = true ↔ ∃ r, r ∈ pe_inRecords e ∧ other_in r) ∧
  (Z.testbit flags 2 = true ↔ ∃ r, r ∈ pe_outRecords e ∧ same_out r) ∧
  (Z.testbit flags 3 = true ↔ ∃ r, r ∈ pe_outRecords e ∧ other_out r) ∧
  ∀ k, 4 <= k → Z.testbit flags k = false.
Proof.
  intros same_in other_in same_out other_out flags.
  unfold flags, same_in, other_in, same_out, other_out. rewrite !findNonce_flag by lia.
  split_and!; [naive_solver lia..|]. intros k Hk. apply not_true_iff_false. rewrite findNonce_flag by lia. naive_solver lia.
Qed.
End pit.

(** ** Properties of strategy choices and measurements *)

Section choices.
Context `{WireEncoding, NameOrder}.

(** C30: choosing a strategy for a prefix makes it effective for exactly the names
    under the prefix that have no longer choice; erasing the choice gives these names
    the strategy of the parent again.  Every name always has an effective strategy,
    which is installed, and a PIT entry loses its strategy information exactly when
    its effective strategy changes. *)
Theorem strategy_choice_governs P c prefix : sc_wf P c →
  let under n := governed (sc_get (pit_nt P)) prefix n in
  (∀ n, ∃ s, effective (pit_nt P) n = Some s ∧ s ∈ sc_instances c) ∧
  (∀ name strategy, room (pit_nt P) prefix → NoDup (computeHashSet prefix) → StrategyChoice_getStrategy c name = Some strategy →
     ∃ P' c', StrategyChoice_insert P c prefix name = Some (true, (P', c')) ∧ sc_wf P' c' ∧ switch_post P P' ∧
       ∀ n, (under n → effective (pit_nt P') n = Some strategy) ∧ (¬ under n → effective (pit_nt P') n = effective (pit_nt P) n)) ∧
  (prefix ≠ [] → NoDup (computeHashSet (getParentName prefix)) →
     ∃ P' c', StrategyChoice_erase P c prefix = Some (P', c') ∧ sc_wf P' c' ∧ switch_post P P' ∧
       ∀ n, (under n → effective (pit_nt P') n = effective (pit_nt P) (getParentName prefix)) ∧
            (¬ under n → effective (pit_nt P') n = effective (pit_nt P) n)).
Proof.
  intros W under. split_and!.
  - intros n. by apply (effective_total P c).
  - intros name strategy Hr Hn Hs. destruct (StrategyChoice_insert_spec P c prefix name strategy W Hr Hn Hs) as (P' & c' & Ei & W' & Hsw & Hg).
    exists P', c'. split_and!; [done..|]. intros n.
    destruct (lpm_update (sc_get (pit_nt P)) (sc_get (pit_nt P')) prefix n) as [Hgov Hnot].
    { intros m Hm. by rewrite Hg, decide_False. }
    { left. rewrite Hg, decide_True by done. by eexists. }
    rewrite Hg, decide_True in Hgov by done. unfold effective. split; [intros Hu; by rewrite Hgov|intros Hu; by rewrite Hnot].
  - intros Hne Hn. destruct (StrategyChoice_erase_spec P c prefix W Hne Hn) as (P' & c' & Ei & W' & Hsw & Hg).
    exists P', c'. split_and!; [done..|]. intros n.
    destruct (lpm_update (sc_get (pit_nt P)) (sc_get (pit_nt P')) prefix n) as [Hgov Hnot].
    { intros m Hm. by rewrite Hg, decide_False. }
    { right. by rewrite Hg, decide_True. }
    rewrite Hg, decide_True in Hgov by done. unfold effective. split; [intros Hu; by rewrite Hgov|intros Hu; by rewrite Hnot].
Qed.
End choices.

Section measurements.
Context `{WireEncoding} (now : Z).

(** a measurements entry is made on demand with a lifetime of 4 s, an extension
    keeps the later of the two expiries, the cleanup is always set for the expiry, and
    when it runs the entry is gone; nothing else in the name tree changes. *)
Theorem measurements_lifetime t nItems n nte t1 k1 lifetime : meas_wf t nItems → room t n →
  Measurements_get now t nItems n = (nte, (t1, k1)) →
  ∃ m, meas_get t1 n = Some m ∧ (meas_get t n = None → me_expiry m = now + seconds 4) ∧
    let t2 := Measurements_extendLifetime now t1 nte lifetime in
    let '(t3, k3) := Measurements_cleanup t2 k1 nte in
    meas_wf t1 k1 ∧ meas_wf t2 k1 ∧ meas_wf t3 k3 ∧
    (∃ m2, meas_get t2 n = Some m2 ∧ me_expiry m2 = Z.max (me_expiry m) (now + lifetime) ∧ me_cleanup m2 = Some (me_expiry m2)) ∧
    meas_get t3 n = None ∧
    (∀ x, x ≠ n → meas_get t3 x = meas_get t x) ∧ ∀ x, non_meas (payload_at t3 x) = non_meas (payload_at t x).
Proof.
  intros W Hroom Hg. destruct (Measurements_get_spec now t nItems n nte t1 k1 W Hroom Hg) as (W1 & (e & He & En) & G1 & R1).
  pose proof (G1 n) as Gn. rewrite decide_True in Gn by done. set (m := default (fresh_measurements now n) (meas_get t n)) in *.
  exists m. split; [done|]. split; [intros Hnone; unfold m; by rewrite Hnone|].
  assert (Hm : e_measurements e = Some m) by (rewrite <-(meas_get_entry t1 nte e), En by (done || apply W1); done).
  destruct (extendLifetime_spec now t1 k1 nte lifetime e m W1 He Hm) as (W2 & G2 & R2).
  set (t2 := Measurements_extendLifetime now t1 nte lifetime) in *. cbv zeta.
  pose proof (G2 (e_prefix e)) as G2n. rewrite decide_True in G2n by done.
  assert (Hat : ∃ e2, nt_heap t2 !! nte = Some e2 ∧ e_prefix e2 = n).
  { unfold t2, Measurements_extendLifetime. case_match; [|by exists e]. case_match; [by exists e|].
    rewrite lookup_alter_entry, decide_True, He by done. by eexists. }
  destruct Hat as (e2 & He2 & En2). rewrite En, <-En2, (meas_get_entry t2 nte e2) in G2n by (done || apply W2).
  pose proof (cleanup_spec t2 k1 nte e2 _ W2 He2 G2n) as Hc. destruct (Measurements_cleanup t2 k1 nte) as [t3 k3].
  destruct Hc as (W3 & G3 & R3). split_and!; [done..| | | |].
  - eexists. split; [rewrite <-En2, (meas_get_entry t2 nte e2) by (done || apply W2); exact G2n|done].
  - by rewrite G3, decide_True.
  - intros x Hx. rewrite G3, decide_False, G2, decide_False, G1, decide_False by congruence. done.
  - intros x. by rewrite R3, R2, R1.
Qed.

(** the exact match of the measurements finds the entry of the name, but asked for
    a name that is not in the name tree it leaves behind an entry that carries nothing
    and that nothing will erase. *)
Theorem exact_match_leaks t nItems n : meas_wf t nItems → room t n →
  let '(m, t') := Measurements_findExactMatch t n in
  m = meas_get t n ∧ ((∀ a, ¬ entry_at (nt_heap t) n a) → ∃ a e, nt_heap t' !! a = Some e ∧ isEmpty e = true).
Proof.
  intros W Hroom. pose proof (findExactMatch_result t nItems n W Hroom) as Hr. pose proof (findExactMatch_leaks t n (mw_tree _ _ W) Hroom) as Hl.
  destruct (Measurements_findExactMatch t n) as [m t'] eqn:E'. simpl in *. split; [done|]. intros Hnone. specialize (Hl Hnone).
  unfold pruned in Hl. destruct (map_choose_or_empty (filter (λ kv, isEmpty kv.2 = true) (nt_heap t'))) as [(a & e & Hae)|He].
  - apply map_lookup_filter_Some in Hae as [? ?]. by exists a, e.
  - exfalso. apply Hl. intros a e Hae. destruct (isEmpty e) eqn:Ei; [|done].
    assert (Hx : filter (λ kv, isEmpty kv.2 = true) (nt_heap t') !! a = Some e) by (by apply map_lookup_filter_Some).
    by rewrite He, lookup_empty in Hx.
Qed.
End measurements.

(** ** Properties of the Dead Nonce List *)

Section dnl.
Context `{NameWire}.

(** C40: the Dead Nonce List remembers.  Its capacity stays between 2^3 and 2^24;
    eviction never takes it below its capacity; and a nonce just added is found
    until as many further nonces and marks as its capacity have come in, or the
    capacity is adjusted. *)
Theorem dead_nonces_remembered d name nonce ops : capacity_ok d →
  let d1 := DeadNonceList_add d name nonce in
  let d2 := foldl dnl_step d1 ops in
  capacity_ok d2 ∧
  (dnl_capacity d2 < Z.of_nat (length (dnl_queue d2)) → dnl_capacity d2 <= Z.of_nat (length (dnl_queue (evictEntries d2)))) ∧
  (Forall (λ op, is_adjust op = false) ops → Z.of_nat (length ops) < dnl_capacity d → DeadNonceList_has d2 name nonce = true).
Proof.
  intros Hd d1 d2. assert (Hd1 : capacity_ok d1) by exact (dnl_step_capacity d (OpAdd name nonce) Hd).
  assert (Hd2 : capacity_ok d2).
  { unfold d2. clear d2. generalize dependent d1. induction ops as [|op ops IH]; intros d1 Hd1; [done|]. simpl.
    apply IH. by apply dnl_step_capacity. }
  split_and!; [done|by apply evictEntries_assert|]. intros Hops Hlen.
  assert (Hcap : dnl_capacity d1 = dnl_capacity d) by (unfold d1, DeadNonceList_add; by rewrite evictEntries_capacity).
  assert (Hrec : recent (makeEntry name nonce) (0 + length ops) (dnl_queue d2)).
  { apply recent_steps; [by apply add_recent|done|simpl; lia]. }
  unfold DeadNonceList_has. apply bool_decide_eq_true. by eapply recent_elem.
Qed.
End dnl.

(** destroying the list after a mark leaves the mark callback in the scheduler:
    [mark] does not store the event it schedules, so the destructor cannot cancel it. *)
Theorem destroyed_list_still_marks d now `{NameWire} :
  (dnl_markEvent d < dnl_nextEvent d)%positive → (dnl_adjustCapacityEvent d < dnl_nextEvent d)%positive →
  ∃ id, DeadNonceList_destroy (DeadNonceList_mark now d) !! id = Some (now + dnl_markInterval d, MarkEvent).
Proof.
  intros Hm Ha. exists (dnl_nextEvent d). unfold DeadNonceList_destroy. simpl.
  rewrite lookup_delete_ne, lookup_delete_ne, lookup_insert_eq by lia. done.
Qed.

(** ** Properties of the content store *)

Section store.
Context `{NameOrder, !NameSuccessor} {S : Type} `{CsPolicyLaws S}.
Context (matchesData : Interest → Data → bool).

(** C25: the content store never exceeds its limit, whatever the replacement policy:
    insertion and a new limit succeed (no assertion fails), keep the table in order
    without duplicates and in step with the policy, store Data exactly when they may
    be cached, and evict only when the store is full and no more than needed. *)
Theorem store_within_limit now data u n (cs : Cs S) : cs_wf cs → 0 < n →
  (∃ r cs', Cs_insert now data u cs = Some (r, cs') ∧ cs_wf cs' ∧ cs_limit cs' = cs_limit cs ∧
     (r = true ↔ d_cachingPolicy data ≠ Some NO_CACHE) ∧ (r = false → cs' = cs) ∧ Cs_size cs <= Cs_size cs' <= cs_limit cs ∧
     (∀ e, e ∈ cs_table cs' → ce_key e = (d_name data, d_digest data) ∨ e ∈ cs_table cs) ∧
     (r = true → Cs_size cs < cs_limit cs → (d_name data, d_digest data) ∈ (ce_key <$> cs_table cs'))) ∧
  (∃ cs', Cs_setLimit n cs = Some cs' ∧ cs_wf cs' ∧ cs_limit cs' = n ∧ cs_table cs' `sublist_of` cs_table cs ∧
     Cs_size cs' = Z.min (Cs_size cs) n).
Proof.
  intros W Hn. split.
  - destruct (Cs_insert_spec now data u cs W) as (r & cs' & Ei & W' & El & Er & Esame & Hin & Hsz & Hnew).
    exists r, cs'. pose proof (cw_size _ W') as Hs. split_and!; try done; [|lia]. rewrite Er, negb_true_iff. apply bool_decide_eq_false.
  - destruct (Cs_setLimit_spec n cs W Hn) as (cs' & Es & W' & El & Hsub & Hsz). exists cs'. split_and!; try done.
    pose proof (cw_size _ W') as Hs. apply sublist_length in Hsub. unfold Cs_size in *. lia.
Qed.

End store.

(** ** Properties of the replacement policies *)

(** Runs of the LRU queue and of the abstract policy *)
Inductive lru_spec_steps : list LruOp → LruSpec → LruSpec → Prop :=
| lru_spec_nil s : lru_spec_steps [] s s
| lru_spec_cons op ops s1 s2 s3 : lru_spec_step op s1 s2 → lru_spec_steps ops s2 s3 → lru_spec_steps (op :: ops) s1 s3.

Fixpoint lru_run (now : Z) (ops : list LruOp) (q : list CsKey) : option (list CsKey) :=
  match ops with [] => Some q | op :: ops' => q' ← lru_step now op q; lru_run now ops' q' end.

(** C26: the LRU policy refines "evict the entry used least recently": whatever
    sequence of operations the queue performs, the abstract policy, which stamps each
    entry with the time of its last use, can perform too with the same entries in the
    order of their stamps; and the queue fails no assertion on an operation the
    abstract policy allows. *)
Theorem LRU_refines_least_recently_used now ops q s q' : lru_refines q s → lru_run now ops q = Some q' →
  (∃ s', lru_spec_steps ops s s' ∧ lru_refines q' s') ∧
  ∀ op s1 s2, lru_refines q' s1 → lru_spec_step op s1 s2 → is_Some (lru_step now op q').
Proof.
  intros R Hrun. split; [|intros op s1 s2 R1 Hs; by eapply lru_step_total].
  revert q s R Hrun. induction ops as [|op ops IH]; intros q s R; simpl.
  - intros [= ->]. exists s. split; [constructor|done].
  - destruct (lru_step now op q) as [q1|] eqn:E1; [|done]. simpl. intros Hrun.
    destruct (lru_step_refines now op q q1 s R E1) as (s1 & Hs1 & R1). destruct (IH q1 s1 R1 Hrun) as (s' & Hs' & R').
    exists s'. split; [by eapply lru_spec_cons|done].
Qed.

(** C27: the priority FIFO policy.  A callback that comes due always finds its entry, in
    the FIFO queue, and moves it to the stale queue; eviction takes unsolicited Data
    first, then stale Data, then the oldest; so, with no callback overdue, fresh
    solicited Data are evicted only when all Data in the store are fresh and solicited. *)
Theorem priority_FIFO now (cs : Cs PriorityFifo) `{NameOrder, !NameSuccessor} : cs_wf cs → now <= TimePoint_max → fifo_sync now cs →
  (∀ id t k, pf_scheduled (cs_policy cs) !! id = Some (t, k) →
     k ∈ pf_fifo (cs_policy cs) ∧ ∃ s, pf_fire id (cs_policy cs) = Some s ∧ pf_inv s ∧
       pf_stale s = pf_stale (cs_policy cs) ++ [k] ∧ pf_scheduled s = delete id (pf_scheduled (cs_policy cs)) ∧
       (t <= now → ∀ x, entry_sync now (cs_policy cs) x → entry_sync now s x)) ∧
  (∀ k s, pf_evictOne (cs_policy cs) = Some (k, s) → head (pf_unsolicited (cs_policy cs) ++ pf_stale (cs_policy cs) ++ pf_fifo (cs_policy cs)) = Some k) ∧
  (∀ k s e, (∀ id t x, pf_scheduled (cs_policy cs) !! id = Some (t, x) → now < t) →
     pf_evictOne (cs_policy cs) = Some (k, s) → e ∈ cs_table cs → ce_key e = k → ce_isUnsolicited e = false → now < ce_staleTime e →
     ∀ x, x ∈ cs_table cs → ce_isUnsolicited x = false ∧ CsEntry_isStale now x = false).
Proof.
  intros W Hnow Hsync. pose proof (cw_policy _ W : pf_inv (cs_policy cs)) as I. split_and!.
  - intros id t k Hid. pose proof (pi_event _ I id t k Hid) as Hinfo.
    assert (Hk : k ∈ pf_fifo (cs_policy cs)) by (apply (pi_info _ I QUEUE_FIFO k); eauto). split; [done|].
    destruct (pf_fire_spec id t k _ I Hid) as (s & Ef & I' & _ & _ & Hsch). exists s. split_and!; [done..| |done|].
    + unfold pf_fire in Ef. rewrite Hid in Ef. simpl in Ef. unfold moveToStaleQueue in Ef. simpl in Ef. rewrite Hinfo in Ef. simpl in Ef.
      by injection Ef as <-.
    + intros Ht x. by eapply pf_fire_sync.
  - intros k s. rewrite pf_evictOne_eq. unfold pf_keys. destruct (head _) as [i|]; simpl; [|done].
    destruct (detachQueue i _); simpl; [|done]. by intros [= -> _].
  - intros k s e Hdue He. by apply (evict_fresh_last now cs k s e).
Qed.

(** ** The search for the rightmost child *)

Definition sibling (digest : string) : Data := mkData [Generic "a"] (ImplicitSha256Digest digest) [] 0 None 0.

(** the search for the rightmost child escapes the table: with two Data of the same
    name in the store, a lookup by full name with ChildSelector 1 that none of them
    satisfies (they are stale) goes on below the beginning of the table. *)
Theorem rightmost_search_escapes : ∃ cs : Cs PriorityFifo, cs_wf cs ∧ stored_ok (cs_table cs) ∧
  Cs_find prefix_matchesData 5 (mkInterest (getFullName (sibling "d")) 7 (mkSelectors true 1 "") (-1) [] 0 None) cs = None.
Proof.
  destruct (Cs_new_spec PriorityFifo_new) as (c0 & E0 & W0 & T0); [apply PriorityFifo_new_inv|done|].
  destruct (Cs_insert_spec 0 (sibling "d") false c0 W0) as (r1 & c1 & E1 & W1 & _ & _ & _ & T1 & _).
  destruct (Cs_insert_spec 0 (sibling "c") false c1 W1) as (r2 & c2 & E2 & W2 & _ & _ & _ & T2 & _).
  exists c2. split_and!; [done| |].
  - assert (Hs : ∀ e x, ce_key e = (d_name (sibling x), d_digest (sibling x)) → plain (d_name (ce_data e)) ∧ isImplicitSha256Digest (d_digest (ce_data e)) = true).
    { intros e x [= -> ->]. split; [|done]. by intros k ->%list_elem_of_singleton. }
    intros e He. destruct (T2 e He) as [Hk|He1]; [by eapply Hs|]. destruct (T1 e He1) as [Hk|He0]; [by eapply Hs|].
    rewrite T0 in He0. by apply elem_of_nil in He0.
  - assert (E : ('(_, c) ← ('(_, c) ← (c ← Cs_new PriorityFifo_new 10; Cs_insert 0 (sibling "d") false c); Cs_insert 0 (sibling "c") false c);
      Cs_find prefix_matchesData 5 (mkInterest (getFullName (sibling "d")) 7 (mkSelectors true 1 "") (-1) [] 0 None) c) = None)
      by (vm_compute; reflexivity).
    rewrite E0 in E. simpl in E. rewrite E1 in E. simpl in E. rewrite E2 in E. exact E.
Qed.

(** ** Witnesses *)

#[local] Opaque sample_after sample_entry.

Abbreviation w_setup := (sample_after sample_setup).
Abbreviation w_asked := (sample_after sample_asked).
Abbreviation t_setup := (pit_nt (w_pit w_setup)).
Abbreviation data_a := (sample_data sample_a).
Definition name_ab : Name := [Generic "a"; Generic "b"].

Local Ltac by_run := vm_compute; reflexivity.
Local Ltac names_NoDup := apply (bool_decide_eq_true_1 _); vm_compute; reflexivity.

Lemma inv_setup : fwd_inv w_setup.
Proof. apply sample_fwd_inv. by_run. Qed.
Lemma inv_asked : fwd_inv w_asked.
Proof. apply sample_fwd_inv. by_run. Qed.

Lemma erase_undoes_lookup_witness :
  let '(a, t1) := NameTree_lookup t_setup name_ab in
  let '(r, t2) := NameTree_eraseEntryIfEmpty t1 a in
  has_entry t1 name_ab ∧ ∀ m, has_entry t2 m ↔ has_entry t_setup m.
Proof.
  destruct (NameTree_lookup t_setup name_ab) as [a t1] eqn:E1. destruct (NameTree_eraseEntryIfEmpty t1 a) as [r t2] eqn:E2.
  destruct (erase_undoes_lookup t_setup name_ab a t1 r t2) as [[H1 _] [_ H2]];
    [apply (pw_tree _ (fi_pit _ inv_setup))|apply (pw_pruned _ (fi_pit _ inv_setup))|by_run|exact E1|exact E2|].
  split; [by exists a|]. intros m. apply H2.
Defined.

Lemma matching_is_by_name_witness :
  NameTree_findAllMatches t_setup name_ab hasFibEntry = prefix_matches t_setup hasFibEntry name_ab.
Proof.
  apply (matching_is_by_name t_setup hasFibEntry name_ab); [apply (pw_tree _ (fi_pit _ inv_setup))|names_NoDup].
Defined.

Lemma enumerations_witness : NoDup (NameTree_fullEnumerate t_setup hasFibEntry) ∧
  NameTree_partialEnumerate t_setup [] (λ e, (hasFibEntry e, true)) =
    from_option (preorder t_setup (λ e, (hasFibEntry e, true))) [] (NameTree_findExactMatch t_setup []).
Proof.
  destruct (enumerations t_setup (pw_tree _ (fi_pit _ inv_setup))) as [Hf Hp]. split; [apply Hf|apply Hp].
Defined.

(** A FIB with the single entry /a/b, and one with /a too *)
Lemma new_fib_wf : fib_wf (NameTree_new 1024) 0.
Proof.
  assert (W : nt_wf (NameTree_new 1024)) by (by apply (NameTree_new_wf 10)).
  split; [done|by intros a e; simpl; rewrite lookup_empty|by_run|].
  intros n e. unfold fib_get. by rewrite NameTree_new_payload.
Qed.

Definition fib_ab : NameTree * Z := (Fib_insert (NameTree_new 1024) 0 name_ab).2.
Definition fib_a_ab : NameTree * Z := (Fib_insert fib_ab.1 fib_ab.2 sample_a).2.

Lemma Fib_insert_wf t k n : fib_wf t k → room t n → fib_wf (Fib_insert t k n).2.1 (Fib_insert t k n).2.2.
Proof.
  intros W Hr. destruct (Fib_insert t k n) as [[nte isNew] [t' k']] eqn:E. by apply (Fib_insert_spec t k n nte isNew t' k' W Hr).
Qed.

Lemma fib_ab_wf : fib_wf fib_ab.1 fib_ab.2.
Proof. apply Fib_insert_wf; [apply new_fib_wf|by_run]. Qed.
Lemma fib_a_ab_wf : fib_wf fib_a_ab.1 fib_a_ab.2.
Proof. apply Fib_insert_wf; [apply fib_ab_wf|by_run]. Qed.


Lemma repeated_component_misroutes_witness :
  Fib_findLongestPrefixMatch fib_a_ab.1 (sample_a ++ [Generic "b"; Generic "b"]) = FibEntry_new sample_a.
Proof.
  apply (repeated_component_misroutes fib_a_ab.1 sample_a (Generic "b") (FibEntry_new sample_a) (FibEntry_new name_ab));
    [apply fib_a_ab_wf|names_NoDup|by_run|by_run|by_run].
Defined.

Lemma erase_without_entry_miscounts_witness :
  (Fib_erase fib_ab.1 fib_ab.2 sample_a).2 ≠ u64 (fib_size (Fib_erase fib_ab.1 fib_ab.2 sample_a).1).
Proof.
  pose proof (erase_without_entry_miscounts fib_ab.1 fib_ab.2 sample_a fib_ab_wf) as Hm.
  destruct (Fib_erase fib_ab.1 fib_ab.2 sample_a) as [t k]. apply Hm; [|by_run].
  destruct (NameTree_findExactMatch fib_ab.1 sample_a) as [a|] eqn:E; [|vm_compute in E; discriminate E].
  exists a. by apply findExactMatch_entry in E; [|apply fib_ab_wf].
Defined.

(** The PIT *)
Lemma PIT_insert_erase_witness :
  let '((p, isNew), P1) := Pit_insert (w_pit w_asked) (sample_interest name_ab 1) in
  pit_has P1 (sample_interest name_ab 1) p ∧ live_pits P1 = {[p]} ∪ live_pits (w_pit w_asked).
Proof.
  destruct (Pit_insert (w_pit w_asked) (sample_interest name_ab 1)) as [[p isNew] P1] eqn:E.
  destruct (PIT_insert_erase (w_pit w_asked) (sample_interest name_ab 1) p isNew P1) as (_ & Hh & _ & _ & Hl & _);
    [apply (fi_pit _ inv_asked)|by_run|exact E|]. by split.
Defined.


(** Face 4 asks for the full name of the Data. *)
Definition sample_asked_full : list DaemonStep := sample_setup ++ [ReceiveInterest 4 (sample_interest (getFullName data_a) 7)].
Abbreviation w_asked_full := (sample_after sample_asked_full).

Lemma full_name_not_matched_witness :
  prefix_matchesData (pe_interest (sample_entry w_asked_full 1)) data_a = true ∧
  1%positive ∉ Pit_findAllDataMatches prefix_matchesData (w_pit w_asked_full) data_a.
Proof.
  split; [by_run|]. apply (full_name_not_matched prefix_matchesData _ data_a 1 (sample_entry w_asked_full 1)).
  - apply fi_pit, sample_fwd_inv. by_run.
  - apply sample_NoDup.
  - assert (Hh : holds w_asked_full 1 (sample_entry w_asked_full 1)) by (apply sample_holds; by_run). exact (proj1 Hh).
  - by_run.
Defined.

Lemma strategy_choice_governs_witness :
  ∃ P c, StrategyChoice_insert (w_pit w_setup) (w_strategies w_setup) sample_a MulticastStrategy_STRATEGY_NAME = Some (true, (P, c)) ∧
    effective (pit_nt P) sample_a = Some MulticastStrategy_STRATEGY_NAME.
Proof.
  destruct (strategy_choice_governs (w_pit w_setup) (w_strategies w_setup) sample_a (fi_sc _ inv_setup)) as (_ & Hi & _).
  destruct (Hi MulticastStrategy_STRATEGY_NAME MulticastStrategy_STRATEGY_NAME) as (P & c & E & _ & _ & He);
    [by_run|apply sample_NoDup|by_run|].
  exists P, c. split; [exact E|]. apply He. split; [done|]. intros q Hq Hq' Hne. exfalso. apply Hne.
  apply (prefix_length_eq q sample_a) in Hq'; [exact Hq'|]. by apply prefix_length.
Defined.

(** Measurements *)
Lemma new_meas_wf : meas_wf (NameTree_new 1024) 0.
Proof.
  assert (W : nt_wf (NameTree_new 1024)) by (by apply (NameTree_new_wf 10)).
  split; [done|by intros a e; simpl; rewrite lookup_empty|by_run|].
  intros n m. unfold meas_get. by rewrite NameTree_new_payload.
Qed.

Lemma measurements_lifetime_witness :
  ∃ m, meas_get (Measurements_get 5 (NameTree_new 1024) 0 sample_a).2.1 sample_a = Some m ∧ me_expiry m = 5 + seconds 4.
Proof.
  destruct (Measurements_get 5 (NameTree_new 1024) 0 sample_a) as [nte [t1 k1]] eqn:E.
  destruct (measurements_lifetime 5 (NameTree_new 1024) 0 sample_a nte t1 k1 7) as (m & Hm & He & _); [apply new_meas_wf|by_run|exact E|].
  exists m. split; [exact Hm|]. apply He. unfold meas_get. by rewrite NameTree_new_payload.
Defined.

Lemma exact_match_leaks_witness :
  ∃ a e, nt_heap (Measurements_findExactMatch (NameTree_new 1024) sample_a).2 !! a = Some e ∧ isEmpty e = true.
Proof.
  pose proof (exact_match_leaks (NameTree_new 1024) 0 sample_a new_meas_wf) as Hl.
  destruct (Measurements_findExactMatch (NameTree_new 1024) sample_a) as [m t]. apply Hl; [by_run|].
  intros a (e & He & _). simpl in He. by rewrite lookup_empty in He.
Defined.

(** The Dead Nonce List *)
Lemma dead_nonces_remembered_witness :
  DeadNonceList_has (DeadNonceList_mark 3 (DeadNonceList_add (w_dnl w_setup) sample_a 7)) sample_a 7 = true.
Proof.
  apply (dead_nonces_remembered (w_dnl w_setup) sample_a 7 [OpMark 3]).
  - split; vm_compute; discriminate.
  - by repeat constructor.
  - by_run.
Defined.

Lemma destroyed_list_still_marks_witness :
  ∃ id, DeadNonceList_destroy (DeadNonceList_mark 3 (w_dnl w_setup)) !! id = Some (3 + dnl_markInterval (w_dnl w_setup), MarkEvent).
Proof. apply (destroyed_list_still_marks (w_dnl w_setup) 3); by_run. Defined.

(** The content store, with Data that came back for /a *)
Definition sample_answered : list DaemonStep := sample_asked ++ [ReceiveData 3 data_a].
Abbreviation w_answered := (sample_after sample_answered).
Lemma inv_answered : fwd_inv w_answered.
Proof. apply sample_fwd_inv. by_run. Qed.

Lemma store_within_limit_witness :
  ∃ r cs, Cs_insert 0 (sample_data name_ab) true (w_cs w_answered) = Some (r, cs) ∧ Cs_size cs <= 10.
Proof.
  destruct (store_within_limit 0 (sample_data name_ab) true 1 (w_cs w_answered) (fi_cs _ inv_answered)) as [(r & cs & E & _ & _ & _ & _ & Hs & _) _]; [lia|].
  exists r, cs. split; [exact E|]. assert (El : cs_limit (w_cs w_answered) = 10) by by_run. lia.
Defined.


Definition entry_of (n : Name) : CsEntry := CsEntry_setData 0 (sample_data n) false.

Lemma LRU_refines_least_recently_used_witness :
  ∃ q s, lru_run 0 [LruInsert (entry_of sample_a); LruInsert (entry_of name_ab); LruUse (entry_of sample_a); LruEvict] [] = Some q ∧
    lru_refines q s ∧ q = [ce_key (entry_of sample_a)].
Proof.
  destruct (LRU_refines_least_recently_used 0 [LruInsert (entry_of sample_a); LruInsert (entry_of name_ab); LruUse (entry_of sample_a); LruEvict]
    [] (mkLruSpec 0 ∅) [ce_key (entry_of sample_a)]) as [(s & _ & Hs) _].
  - split; simpl; [|constructor|intros; by simplify_map_eq]. intros k. rewrite lookup_empty. split; [by intros ?%elem_of_nil|by intros []].
  - by_run.
  - exists [ce_key (entry_of sample_a)], s. split; [by_run|by split].
Defined.

Lemma priority_FIFO_witness :
  ∃ cs : Cs PriorityFifo, (∃ c0, Cs_new PriorityFifo_new 10 = Some c0 ∧ Cs_insert 0 data_a false c0 = Some (true, cs)) ∧
    ∀ id t k, pf_scheduled (cs_policy cs) !! id = Some (t, k) → k ∈ pf_fifo (cs_policy cs).
Proof.
  destruct (Cs_new_spec PriorityFifo_new) as (c0 & E0 & W0 & T0); [apply PriorityFifo_new_inv|done|].
  destruct (Cs_insert_spec 0 data_a false c0 W0) as (r & cs & E1 & W1 & _ & Er & _).
  assert (Hsync : fifo_sync 0 cs).
  { apply (Cs_insert_sync 0 data_a false c0 cs r W0); [|exact E1]. intros e He. rewrite T0 in He. by apply elem_of_nil in He. }
  exists cs. split; [exists c0; split; [exact E0|rewrite E1, Er; reflexivity]|].
  intros id t k. apply (priority_FIFO 0 cs W1); [vm_compute; discriminate|exact Hsync].
Defined.
