(* ===== verification/PitlessTheorems.v ===== *)
(** * Theorems about the PITless and the bridge forwarder

    What the two forwarders of a PITless network do with each packet, that they
    do not stop, and that together they carry an Interest to the producer and
    the Data back to the consumer; then what they do wrong. *)

From Stdlib Require Import Ascii String.
From S2P Require Import Prelude CityHash Packets FibEntry NameTree NameTreeFacts Fib PitEntry Pit StrategyChoice DeadNonceList ContentStore CsPolicies World Forwarder ForwarderInv ForwarderSpec FaceTable Managers Strategies StrategiesSpec Daemon Requests Variants Pitless Bridge Instances.
Open Scope pipeline_scope.

(** ** The PITless forwarder *)

Section theorems.
Context `{ControlCommandsLaws, WireEncoding, NameWire, NameOrder, !NameSuccessor, !DataRename} {S E : Type} `{CsPolicyLaws S, NdnSimCs E}.
Context (matchesData : Interest → Data → bool) (sort : list NextHop → list NextHop) `{!StdSort sort}.
Context (strategies : Name → Strategy (S := S) (E := E)) `{!∀ s, StrategyLaws (strategies s)}.
Context (m_Name : Name).
Abbreviation World := (World S E).
Abbreviation router := (pitless_step matchesData sort strategies).
Abbreviation bridge := (bridge_step matchesData strategies m_Name sort).
Abbreviation pitless_face := (variant_face (S := S) (E := E) PITlessHandlers).
Abbreviation bridge_face := (variant_face (S := S) (E := E) BridgeHandlers).

Definition pitless_running : World → Prop :=
  variant_running matchesData sort strategies PITlessHandlers true false pitless_factories (PITless_onInterest matchesData) PITless_onData
    (λ w s, matches_prefix matchesData ∧ pitless_packet_ok w s).

Lemma pitless_running_ok (w : World) : matches_prefix matchesData → pitless_running w → variant_ok PITlessHandlers pitless_factories w.
Proof. intros Hm Hr. exact (variant_running_ok _ _ _ _ _ _ _ _ _ _ w Hm Hr). Qed.


(** What a router does with packets on its own faces *)
Lemma router_interest (w : World) f i : matches_prefix matchesData → fwd_inv w → pitless_ready w → pitless_face w f →
  cs_searchable i → NoDup (computeHashSet (i_name i)) →
  runs (router (ReceiveInterest f i)) w (λ _ w', fwd_inv w' ∧ stateless w w' ∧
    pitless_interest_post matchesData w w' f (setInterestIncomingFaceId (getId f w) i)).
Proof. intros Hm Hi Hr Hf Hs Hn. apply variant_receive_own; [done|]. by apply PITless_onIncomingInterest_spec. Qed.

Lemma router_data (w : World) f d : fwd_inv w → pitless_face w f → data_ok d → NoDup (computeHashSet (d_name d)) →
  runs (router (ReceiveData f d)) w (λ _ w', fwd_inv w' ∧ stateless w w' ∧ pitless_data_post w w' f (setDataIncomingFaceId (getId f w) d)).
Proof. intros Hi Hf Hd Hn. apply variant_receive_own; [done|]. by apply PITless_onIncomingData_spec. Qed.

(** C15: a PITless router keeps no state for packets: an Interest is dropped for its
    scope, answered from the content store, or sent unchanged to the next hop of
    its name, and Data are dropped for the scope of their supporting name, or
    cached and sent to the next hop of their own name; the next hop is the first
    of the longest matching FIB entry that is not the face the packet came from.
    Nothing but the store, the counters and the packets sent changes. *)
Theorem pitless_forwards (w : World) f i d : matches_prefix matchesData → pitless_running w → pitless_face w f →
  step_ok w (ReceiveInterest f i) → pitless_packet_ok w (ReceiveInterest f i) →
  step_ok w (ReceiveData f d) → pitless_packet_ok w (ReceiveData f d) →
  runs (router (ReceiveInterest f i)) w (λ _ w', stateless w w' ∧
    let i' := setInterestIncomingFaceId (getId f w) i in
    if violates_localhost w f (i_name i) then w_trace w' = w_trace w
    else ∃ a, cs_answers matchesData w i' a ∧
      w_trace w' = w_trace w ++ match a with Some a => data_from_store w f a | None => interest_to_next_hop w f i' end) ∧
  runs (router (ReceiveData f d)) w (λ _ w', stateless w w' ∧
    w_trace w' = w_trace w ++ if violates_localhost w f (d_supportingName d) then []
                              else data_to_next_hop w f (setDataIncomingFaceId (getId f w) d)).
Proof.
  intros Hm Hr Hf [_ [_ Hs]] [Hn Hrd] [_ Hd] Hnd. pose proof (vo_daemon _ _ _ (pitless_running_ok w Hm Hr)) as [[Hi _] _ _].
  split.
  - eapply runs_mono; [by apply router_interest|]. intros [] w' (_ & Hl & Hp). split; [done|]. unfold pitless_interest_post in Hp.
    simpl in *. destruct (violates_localhost w f (i_name i)); [by subst w'|done].
  - eapply runs_mono; [by apply router_data|]. intros [] w' (_ & Hl & Hp). split; [done|]. unfold pitless_data_post in Hp.
    simpl in *. destruct (violates_localhost w f (d_supportingName d)); [subst w'; by rewrite app_nil_r|done].
Qed.

(** ** The bridge *)

(** Between the check for loops and the strategy, the three ways of an Interest *)
Lemma bridge_interest (w : World) f i : matches_prefix matchesData → fwd_inv w → bridge_step_ok w (ReceiveInterest f i) →
  violates_localhost w f (i_name i) = false → loops w f i = false →
  let i' := setInterestIncomingFaceId (getId f w) i in
  runs (bridge (ReceiveInterest f i)) w (λ _ w', fwd_inv w' ∧ same_env w w' ∧
    ((∃ a p, cs_answers matchesData w i' (Some a) ∧ w_trace w' = w_trace w ++ data_from_store w f a ∧
        live (w_pit w') p ∧ ¬ pending (w_scheduled w') p) ∨
     (w_trace w' = w_trace w ++ interest_to_next_hop w f (setSupportingName m_Name i') ∧
      ∃ p, awaits w' f i (w_now w + milliseconds (interest_lifetime i)) p ∧ pending (w_scheduled w') p))).
Proof.
  intros Hm Hi (Hf & Hr & Hcs & Hn & Hb) Hv Hl i'. apply variant_receive_own; [done|].
  eapply runs_mono; [by apply (Bridge_onIncomingInterest_spec matchesData m_Name f i w)|].
  intros [] w'. cbv beta zeta. rewrite Hv. intros (p & isNew & P' & e & I).
  pose proof (bi_frame _ _ _ _ _ _ _ _ _ _ I) as F. split; [apply F|]. split; [apply F|].
  unfold loops in Hl. rewrite (bi_insert _ _ _ _ _ _ _ _ _ _ I), (bi_entry _ _ _ _ _ _ _ _ _ _ I) in Hl.
  destruct (bi_hit _ _ _ _ _ _ _ _ _ _ I Hl) as ([a|] & Ha & Hne & Hserved).
  - left. destruct (decide (pe_inRecords e = [])) as [He|He]; [|by specialize (Hne He)]. exists a, p.
    destruct Hserved as (Ht & [He' [b Hb']] & Hp). split_and!; [by apply Ha|done| |done]. eexists _, b. split; [exact He'|done].
  - right. destruct Hserved as (Ht & Hp & e' & He' & Hk & Hrec). split; [done|]. exists p. split; [|done].
    destruct (insertInRecord_in (w_now w) f i' e) as (r & Hin & Hface & Hexp).
    assert (Hkey : record_key r ∈ record_key <$> pe_inRecords e') by (rewrite Hrec; by apply list_elem_of_fmap_2).
    apply list_elem_of_fmap in Hkey as (r' & Ek & Hin'). exists e', r'. unfold record_key in Ek. split_and!; [done| |done| |].
    + destruct (bi_interest _ _ _ _ _ _ _ _ _ _ I) as [En Es]. injection Hk as Ekn Eks _. split; [exact (eq_trans En (eq_sym Ekn))|exact (eq_trans Es (eq_sym Eks))].
    + injection Ek. congruence.
    + injection Ek as _ _ _ Ex. rewrite <-Ex. exact Hexp.
Qed.

(** C16: a bridge keeps an Interest in the PIT and sends it, with the bridge's name
    in it, to the next hop of its name, unless it is out of scope, loops, or is
    answered from the content store; an Interest that loops changes nothing but
    perhaps a new PIT entry. *)
Theorem bridge_forwards_interests (w : World) f i : matches_prefix matchesData → bridge_running matchesData strategies m_Name sort w →
  bridge_step_ok w (ReceiveInterest f i) →
  let i' := setInterestIncomingFaceId (getId f w) i in
  runs (bridge (ReceiveInterest f i)) w (λ _ w',
    if violates_localhost w f (i_name i) then w_trace w' = w_trace w ∧ w_pit w' = w_pit w
    else if loops w f i then w_trace w' = w_trace w ∧ w_scheduled w' = w_scheduled w
    else (∃ a, cs_answers matchesData w i' (Some a) ∧ w_trace w' = w_trace w ++ data_from_store w f a) ∨
         (w_trace w' = w_trace w ++ interest_to_next_hop w f (setSupportingName m_Name i') ∧
          ∃ p, awaits w' f i (w_now w + milliseconds (interest_lifetime i)) p ∧ pending (w_scheduled w') p)).
Proof.
  intros Hm Hr Hs i'. pose proof (bridge_running_inv _ _ _ _ w Hm Hr) as Hi.
  destruct (violates_localhost w f (i_name i)) eqn:Hv; [|destruct (loops w f i) eqn:Hl].
  - destruct Hs as (Hf & Hro & Hcs & Hn & Hb). apply variant_receive_own; [done|].
    eapply runs_mono; [by apply (Bridge_onIncomingInterest_spec matchesData m_Name f i w)|].
    intros [] w'. cbv beta zeta. rewrite Hv. by intros ->.
  - destruct Hs as (Hf & Hro & Hcs & Hn & Hb). apply variant_receive_own; [done|].
    eapply runs_mono; [by apply (Bridge_onIncomingInterest_spec matchesData m_Name f i w)|].
    intros [] w'. cbv beta zeta. rewrite Hv. intros (p & isNew & P' & e & I).
    unfold loops in Hl. rewrite (bi_insert _ _ _ _ _ _ _ _ _ _ I), (bi_entry _ _ _ _ _ _ _ _ _ _ I) in Hl.
    by rewrite (bi_loop _ _ _ _ _ _ _ _ _ _ I Hl).
  - eapply runs_mono; [by apply bridge_interest|]. intros [] w' (_ & _ & [(a & p & Ha & Ht & _)|Hw]); [left; by exists a|by right].
Qed.

(** Data go to the faces that wait for their supporting name. *)
Definition waits_for (w : World) (n : Name) (f : face_ptr) : Prop :=
  ∃ p e, holds w p e ∧ pe_name e = n ∧ f ∈ pendingFaces (w_now w) e.

Lemma bridge_data (w : World) g d : fwd_inv w → bridge_step_ok w (ReceiveData g d) → NoDup (computeHashSet (d_supportingName d)) →
  let n := d_supportingName d in
  let d' := renameData n (setDataIncomingFaceId (getId g w) d) in
  runs (bridge (ReceiveData g d)) w (λ _ w',
    if violates_localhost w g n then w_trace w' = w_trace w ∧ w_cs w' = w_cs w
    else ∃ out, w_trace w' = w_trace w ++ out ∧ NoDup (data_faces out) ∧ (∀ f x, SentData f x ∈ out → x = d') ∧
      ∀ f, f ∈ data_faces out ↔ f ≠ g ∧ can_send w f n = true ∧ waits_for w n f).
Proof.
  intros Hi (Hf & Hd & Hpl) Hnd n d'. apply variant_receive_own; [done|].
  eapply runs_mono; [by apply (Bridge_onIncomingData_spec strategies g d w)|].
  intros [] w'. cbv beta zeta. fold n d'. destruct (violates_localhost w g n); [by intros ->|].
  set (m := Pit_findAllDataMatchesByName (w_pit w) n). assert (Hw : ∀ f, pending_in w m f ↔ waits_for w n f).
  { intros f. split.
    - intros (p & e & Hp & He & Hpf). apply findAllDataMatchesByName_spec in Hp as (e' & He' & [x [a [Hx Hl]]] & Hn); [|by apply fi_pit|done].
      unfold entries in *. simplify_eq. exists p, e'. split_and!; [|done|done]. split; [done|by rewrite Hl].
    - intros (p & e & [He [a Ha]] & Hn & Hpf). exists p, e. split_and!; [|done|done].
      apply findAllDataMatchesByName_spec; [by apply fi_pit|done|]. exists e. split_and!; [done| |done]. by exists e, a. }
  case_decide as Em.
  - intros (_ & _ & Ht & _). exists []. split_and!; [by rewrite app_nil_r|constructor|by intros ? ? ?%elem_of_nil|].
    intros f. split; [by intros ?%elem_of_nil|]. intros (_ & _ & (p & e & Hp & _)%Hw). rewrite Em in Hp. by apply elem_of_nil in Hp.
  - intros D. destruct (data_post_faces _ _ _ _ _ D) as (out & Ht & Hn & Hx & Hfs). exists out. split_and!; [done..|].
    intros f. rewrite Hfs, Hw. unfold d'. by rewrite rename_name.
Qed.

(** C17: a bridge gives Data the name of the Interest they answer, their supporting
    name, and sends them exactly once to each face that waits for that name and
    may carry it, but the one they came from. *)
Theorem bridge_returns_data (w : World) g d : matches_prefix matchesData → bridge_running matchesData strategies m_Name sort w →
  bridge_step_ok w (ReceiveData g d) → NoDup (computeHashSet (d_supportingName d)) →
  let n := d_supportingName d in
  let d' := renameData n (setDataIncomingFaceId (getId g w) d) in
  d_name d' = n ∧
  runs (bridge (ReceiveData g d)) w (λ _ w',
    if violates_localhost w g n then w_trace w' = w_trace w ∧ w_cs w' = w_cs w
    else ∃ out, w_trace w' = w_trace w ++ out ∧ NoDup (data_faces out) ∧ (∀ f x, SentData f x ∈ out → x = d') ∧
      ∀ f, f ∈ data_faces out ↔ f ≠ g ∧ can_send w f n = true ∧ waits_for w n f).
Proof.
  intros Hm Hr Hs Hnd n d'. split; [apply rename_name|]. apply bridge_data; [by eapply bridge_running_inv|done|done].
Qed.

(** ** The two together *)

Definition never_answers (w : World) (i : Interest) : Prop := ∀ k a, ¬ cs_answers matchesData w (setInterestIncomingFaceId k i) (Some a).

Lemma awaits_waits (w : World) f i t p : awaits w f i t p → w_now w < t → waits_for w (i_name i) f.
Proof.
  intros (e & r & He & [En _] & Hin & Hf & Ht) Hlt. exists p, e. split_and!; [done|done|].
  apply elem_of_pendingFaces. exists r. split_and!; [done|done|lia].
Qed.

(** The way through the router, of an Interest from [a] to [b] and of Data back *)
Lemma router_round (w : World) a b i d : matches_prefix matchesData → fwd_inv w → pitless_ready w → pitless_face w a → pitless_face w b →
  cs_searchable i → NoDup (computeHashSet (i_name i)) → data_ok d → NoDup (computeHashSet (d_name d)) →
  never_answers w i → violates_localhost w a (i_name i) = false → violates_localhost w b (d_supportingName d) = false →
  next_hop w a (i_name i) = Some b → next_hop w b (d_name d) = Some a → valid_face w b = true → can_send w a (d_name d) = true →
  ∃ w1 w2, router (ReceiveInterest a i) w = Some (tt, w1) ∧
    w_trace w1 = w_trace w ++ [SentInterest b (setInterestIncomingFaceId (getId a w) i)] ∧
    router (ReceiveData b d) w1 = Some (tt, w2) ∧
    w_trace w2 = w_trace w1 ++ [SentData a (setDataIncomingFaceId (getId b w) d)] ∧ stateless w w2.
Proof.
  intros Hm Hi Hr Ha Hb Hs Hn Hd Hnd Hna Hva Hvb Hia Hdb Hvalid Hcan.
  destruct (router_interest w a i) as ([] & w1 & E1 & Hi1 & S1 & P1); [done..|]. pose proof (sl_core _ _ S1) as C1.
  pose proof (sa_faces _ _ C1) as Ef1.
  destruct (router_data w1 b d) as ([] & w2 & E2 & Hi2 & S2 & P2); [done|by eapply variant_face_faces|done|done|].
  exists w1, w2. split; [done|]. split; [|split; [done|split]].
  - unfold pitless_interest_post in P1. simpl in P1. rewrite Hva in P1. destruct P1 as (x & Hx & ->). f_equal.
    destruct x as [x|]; [by apply Hna in Hx|]. unfold interest_to_next_hop. simpl. by rewrite Hia, Hvalid.
  - unfold pitless_data_post in P2. simpl in P2. unfold violates_localhost in *.
    rewrite (isLocal_faces w w1) in P2 by done. rewrite Hvb in P2. rewrite P2. f_equal. rewrite (data_to_next_hop_core w w1) by done.
    unfold data_to_next_hop. simpl. rewrite Hdb, Hcan. unfold getId. by rewrite Ef1.
  - by eapply stateless_trans.
Qed.

(** C13: a request crosses a bridge and a PITless router and comes back.  An
    Interest from the consumer [c] that neither store answers leaves the bridge on
    [u], enters the router on [a] and leaves it on [b] toward the producer; the
    Data that answer it, named by the bridge and with the Interest's name as the
    supporting name, go back through the same faces, and the bridge sends them to
    [c] under the Interest's name, if its lifetime has not passed.  The router
    keeps nothing of it. *)
Theorem bridge_pitless_round_trip (wb wr : World) c u a b i d t : matches_prefix matchesData →
  bridge_running matchesData strategies m_Name sort wb → pitless_running wr →
  (* the way of the Interest *)
  bridge_step_ok wb (ReceiveInterest c i) → violates_localhost wb c (i_name i) = false → loops wb c i = false →
  never_answers wb i → next_hop wb c (i_name i) = Some u → valid_face wb u = true → bridge_face wb u →
  pitless_face wr a → violates_localhost wr a (i_name i) = false → never_answers wr (setSupportingName m_Name i) →
  next_hop wr a (i_name i) = Some b → valid_face wr b = true → pitless_face wr b → pitless_ready wr →
  (* the way of the Data *)
  data_ok d → d_name d = m_Name → NoDup (computeHashSet m_Name) → d_supportingName d = i_name i → plain (i_name i) →
  violates_localhost wr b (i_name i) = false → next_hop wr b m_Name = Some a → can_send wr a m_Name = true →
  violates_localhost wb u (i_name i) = false → can_send wb c (i_name i) = true →
  0 <= t < milliseconds (interest_lifetime i) →
  ∃ i1 d1 d2 wb1 wr1 wr2 wb2 wb3 out,
    bridge (ReceiveInterest c i) wb = Some (tt, wb1) ∧ w_trace wb1 = w_trace wb ++ [SentInterest u i1] ∧
    i_name i1 = i_name i ∧ i_supportingName i1 = m_Name ∧
    router (ReceiveInterest a i1) wr = Some (tt, wr1) ∧ w_trace wr1 = w_trace wr ++ [SentInterest b (setInterestIncomingFaceId (getId a wr) i1)] ∧
    router (ReceiveData b d) wr1 = Some (tt, wr2) ∧ w_trace wr2 = w_trace wr1 ++ [SentData a d1] ∧ stateless wr wr2 ∧
    bridge (Elapse t) wb1 = Some (tt, wb2) ∧
    bridge (ReceiveData u d1) wb2 = Some (tt, wb3) ∧ w_trace wb3 = w_trace wb2 ++ out ∧ SentData c d2 ∈ out ∧ d_name d2 = i_name i.
Proof.
  intros Hm Hrb Hrr Hs Hv Hl Hnab Hu Hvu Hfu Hfa Hva Hnar Hb Hvb Hfb Hrdy Hd Hdn Hmn Hds Hpl Hvbd Ha Hca Hvd Hcc Ht.
  pose proof (bridge_running_inv _ _ _ _ wb Hm Hrb) as Hib.
  pose proof (vo_daemon _ _ _ (pitless_running_ok wr Hm Hrr)) as [[Hir _] _ _].
  pose proof Hs as (Hfc & Hro & Hcs & Hnd & Hbr).
  destruct (bridge_interest wb c i) as ([] & wb1 & E1 & Hi1 & (En & Ef & _) & Hcase); [done..|].
  destruct Hcase as [(x & p & Hx & _)|(Ht1 & p & Hw & _)]; [by apply Hnab in Hx|].
  set (i1 := setSupportingName m_Name (setInterestIncomingFaceId (getId c wb) i)) in *.
  unfold interest_to_next_hop in Ht1. simpl in Ht1. rewrite Hu, Hvu in Ht1.
  destruct (router_round wr a b i1 d) as (wr1 & wr2 & E2 & Ht2 & E3 & Ht3 & Hst); try done; try (by rewrite ?Hdn, ?Hds).
  set (d1 := setDataIncomingFaceId (getId b wr) d) in *.
  assert (Hds1 : d_supportingName d1 = i_name i) by exact Hds.
  set (wb2 := set_now (w_now wb1 + t) wb1). assert (Hi2 : fwd_inv wb2) by (by destruct Hi1).
  assert (Hok : bridge_step_ok wb2 (ReceiveData u d1)).
  { split; [by apply (variant_face_faces _ wb)|]. split; [done|]. by rewrite Hds1. }
  destruct (bridge_data wb2 u d1) as ([] & wb3 & E4 & Hpost); [done|done|by rewrite Hds1|]. rewrite Hds1 in Hpost.
  unfold violates_localhost in Hpost at 1. rewrite (isLocal_faces wb wb2) in Hpost by done.
  unfold violates_localhost in Hvd. rewrite Hvd in Hpost. destruct Hpost as (out & Ht4 & _ & Hx & Hfs).
  assert (Hin : c ∈ data_faces out).
  { apply Hfs. split_and!.
    - apply next_hop_other in Hu as [_ Hne]. congruence.
    - by rewrite (can_send_faces wb wb2).
    - eapply awaits_waits; [by apply awaits_set_now|]. simpl. lia. }
  apply elem_of_data_faces in Hin as [d2 Hin]. pose proof (Hx _ _ Hin) as ->.
  eexists i1, d1, _, wb1, wr1, wr2, wb2, wb3, out. split_and!; try done. apply rename_name.
Qed.

(** ** What they do wrong *)

(** a bridge that answers a new Interest from the content store leaves the PIT
    entry it made for it behind, with no timer: nothing will remove it. *)
Theorem bridge_hit_leaks (w : World) f i p P' : matches_prefix matchesData → bridge_running matchesData strategies m_Name sort w →
  bridge_step_ok w (ReceiveInterest f i) → violates_localhost w f (i_name i) = false → loops w f i = false →
  let i' := setInterestIncomingFaceId (getId f w) i in
  Pit_insert (w_pit w) i' = ((p, true), P') → (cs_answers matchesData w i' None → False) →
  runs (bridge (ReceiveInterest f i)) w (λ _ w', ¬ live (w_pit w) p ∧ live (w_pit w') p ∧ ¬ pending (w_scheduled w') p).
Proof.
  intros Hm Hr (Hf & Hro & Hcs & Hn & Hb) Hv Hl i' HP Hhit. pose proof (bridge_running_inv _ _ _ _ w Hm Hr) as Hi.
  apply variant_receive_own; [done|].
  eapply runs_mono; [by apply (Bridge_onIncomingInterest_spec matchesData m_Name f i w)|].
  intros [] w'. cbv beta zeta. rewrite Hv. intros (q & isNew & Q & e & I).
  subst i'. pose proof (bi_insert _ _ _ _ _ _ _ _ _ _ I) as HQ. rewrite HP in HQ. injection HQ as <- <- <-.
  unfold loops in Hl. rewrite HP, (bi_entry _ _ _ _ _ _ _ _ _ _ I) in Hl.
  destruct (bi_new _ _ _ _ _ _ _ _ _ _ I eq_refl) as [a Ee]. assert (He : pe_inRecords e = []) by (by rewrite Ee).
  destruct (bi_hit _ _ _ _ _ _ _ _ _ _ I Hl) as ([x|] & Ha & _ & Hserved); [|by destruct Hhit; apply Ha].
  destruct Hserved as (_ & [He' [b Hb']] & Hp). split_and!; [|by eexists _, b|done].
  intros (y & b' & Hy & _). destruct (pit_insert_touches w (setInterestIncomingFaceId (getId f w) i) p true P' Hi Hro HP) as (_ & _ & _ & _ & _ & _ & Hnone).
  specialize (Hnone eq_refl). unfold entries in Hnone. congruence.
Qed.

(** a PITless router sends an Interest under /localhost that an application
    expresses on a face that is not local, when the FIB says so. *)
Theorem pitless_localhost_escapes (w : World) f g i : matches_prefix matchesData → pitless_running w → pitless_face w f →
  step_ok w (ReceiveInterest f i) → pitless_packet_ok w (ReceiveInterest f i) →
  LOCALHOST_NAME `prefix_of` i_name i → isLocal w f = true → isLocal w g = false → valid_face w g = true →
  next_hop w f (i_name i) = Some g → never_answers w i →
  runs (router (ReceiveInterest f i)) w (λ _ w', SentInterest g (setInterestIncomingFaceId (getId f w) i) ∈ w_trace w').
Proof.
  intros Hm Hr Hf [_ [_ Hs]] [Hn Hrd] Hlh Hlf Hlg Hvg Hnext Hna.
  pose proof (vo_daemon _ _ _ (pitless_running_ok w Hm Hr)) as [[Hi _] _ _].
  eapply runs_mono; [by apply router_interest|]. intros [] w' (_ & _ & Hp). unfold pitless_interest_post in Hp.
  assert (Hv : violates_localhost w f (i_name (setInterestIncomingFaceId (getId f w) i)) = false) by (unfold violates_localhost; by rewrite Hlf).
  rewrite Hv in Hp. destruct Hp as ([a|] & Ha & ->); [by apply Hna in Ha|].
  unfold interest_to_next_hop. simpl. rewrite Hnext, Hvg. apply elem_of_app. right. by left.
Qed.

(** a PITless router stops on a content store hit when the strategy in effect
    for the name of its own strategy is NCC or access, which use the PIT entry
    they are given. *)
Theorem pitless_hit_stops (w : World) f i s : matches_prefix matchesData → pitless_running w → pitless_face w f →
  step_ok w (ReceiveInterest f i) → violates_localhost w f (i_name i) = false →
  effective (pit_nt (w_pit w)) PITlessBestRouteStrategy_STRATEGY_NAME = Some s →
  s = NccStrategy_STRATEGY_NAME ∨ s = AccessStrategy_STRATEGY_NAME → NoDup (computeHashSet PITlessBestRouteStrategy_STRATEGY_NAME) →
  (cs_answers matchesData w (setInterestIncomingFaceId (getId f w) i) None → False) →
  router (ReceiveInterest f i) w = None.
Proof.
  intros Hm Hr (x & Hx & Hh) [_ [_ Hs]] Hv He Hncc Hsn Hhit.
  pose proof (vo_daemon _ _ _ (pitless_running_ok w Hm Hr)) as [[Hi _] _ _]. set (i' := setInterestIncomingFaceId _ _) in Hhit.
  assert (Hin : PITless_onIncomingInterest matchesData f i w = None).
  { unfold PITless_onIncomingInterest. rewrite gets_bind. fold i'. cbv zeta.
    destruct (count_InInterest_spec 1%positive w Hi) as ([] & w1 & E1 & -> & T1). rewrite (bind_eq _ _ _ _ _ E1), gets_bind.
    assert (Ev : negb (isLocal (add_inInterest w) f) && isPrefixOf LOCALHOST_NAME (i_name i') = violates_localhost w f (i_name i)) by done.
    rewrite Ev, Hv.
    destruct (cs_find_stateless matchesData i' (add_inInterest w) Hm (to_inv _ _ _ T1) Hs) as (d & w2 & E2 & Hi2 & S2 & _ & Ha).
    rewrite (bind_eq _ _ _ _ _ E2). destruct d as [d|]; [|destruct Hhit; exact Ha].
    unfold PITless_onContentStoreHit, dispatchToPITlessStrategy. unfold bind at 1. rewrite gets_bind.
    rewrite findEffectiveStrategy_name; [|apply fi_pit, Hi2|done].
    rewrite (sa_pit _ _ (sl_core _ _ S2)). change (w_pit (add_inInterest w)) with (w_pit w). rewrite He, deref_bind.
    unfold beforeSatisfyInterest_nullptr. destruct Hncc as [-> | ->]; [by rewrite bool_decide_eq_true_2 by done|].
    rewrite (bool_decide_eq_true_2 (AccessStrategy_STRATEGY_NAME = AccessStrategy_STRATEGY_NAME)) by done. by rewrite orb_true_r. }
  unfold pitless_step, variant_step, variant_receive. rewrite gets_bind, Hx, deref_bind, Hh.
  simpl. unfold bind, PITless_onInterest. by rewrite Hin.
Qed.
End theorems.

(** ** A small network: a bridge with the name /b, and a PITless router *)

#[export] Instance sample_DataRename : DataRename.
Proof. refine {| renameData := setDataName |}; by intros. Defined.

Definition pitless_strategies (name : Name) : Strategy (S := PriorityFifo) (E := list Data) :=
  if bool_decide (name = PITlessBestRouteStrategy_STRATEGY_NAME) || bool_decide (name = PITlessMulticastStrategy_STRATEGY_NAME)
  then PITlessStrategy
  else if bool_decide (name = BridgeBestRouteStrategy_STRATEGY_NAME) then BridgeStrategy else nfd_strategies name.
#[export] Instance pitless_strategies_laws name : StrategyLaws (pitless_strategies name).
Proof. unfold pitless_strategies. repeat case_match; apply _. Qed.

Abbreviation router_step := (pitless_step prefix_matchesData insertion_sort pitless_strategies).
Abbreviation sample_bridge_step := (bridge_step prefix_matchesData pitless_strategies sample_b insertion_sort).

(** Both have faces 2 and 3; /a goes to face 3, and in the router /b goes to face 2. *)
Definition two_faces : list DaemonStep :=
  [AddFace 2; AddFace 3; FibRequest (sample_command Fib_COMMAND_PREFIX "add-nexthop" "to-257");
   FibRequest (sample_command Fib_COMMAND_PREFIX "add-nexthop" "b-to-256")].

(** A run of steps whose hypotheses are checked *)
Fixpoint run_steps_of (step : DaemonStep → M PriorityFifo (list Data) unit) (l : list DaemonStep) (w : SWorld) : option SWorld :=
  match l with
  | [] => Some w
  | s :: l' => if check_step w s then match step s w with Some (_, w') => run_steps_of step l' w' | None => None end else None
  end.

Lemma run_steps_reachable kind isPITless isBridge vi vd packet_ok l (w0 w w' : SWorld) :
  (∀ w s, is_packet s = false → packet_ok w s) → Forall (λ s, is_packet s = false) l →
  variant_reachable prefix_matchesData insertion_sort pitless_strategies kind isPITless isBridge vi vd packet_ok w0 w →
  run_steps_of (variant_step prefix_matchesData insertion_sort pitless_strategies kind isPITless isBridge vi vd) l w = Some w' →
  variant_reachable prefix_matchesData insertion_sort pitless_strategies kind isPITless isBridge vi vd packet_ok w0 w'.
Proof.
  intros Hp Hl. revert w. induction Hl as [|s l Hs Hl IH]; intros w Hr; simpl; [by intros [= <-]|].
  destruct (check_step w s) eqn:Ec; [|done]. destruct (variant_step _ _ _ _ _ _ _ _ s w) as [[[] w1]|] eqn:Es; [|done].
  apply IH. eapply variant_next; [done|by apply check_step_ok|by apply Hp|done].
Qed.

Definition sample_router0 : SWorld := default sample_dummy (PITlessForwarder_new factories 0 sample_objects 1 PriorityFifo_new None).
Definition sample_router : SWorld := default sample_dummy (run_steps_of router_step two_faces sample_router0).
Definition sample_bridge0 : SWorld := default sample_dummy (BridgeForwarder_new factories 0 sample_objects 1 PriorityFifo_new None).
Definition sample_bridge : SWorld := default sample_dummy (run_steps_of sample_bridge_step two_faces sample_bridge0).

Lemma sample_fresh : (policy_inv PriorityFifo_new ∧ policy_keys PriorityFifo_new = [] ∧ is_Some (sample_objects !! 1%positive) ∧
  ∀ g x, sample_objects !! g = Some x → face_id x = INVALID_FACEID ∧ face_onReceive x = []).
Proof. split; [apply PriorityFifo_new_inv|]. split; [done|]. split; [by eexists|apply sample_objects_fresh]. Qed.

Abbreviation sample_pitless_running := (pitless_running prefix_matchesData insertion_sort pitless_strategies).
Abbreviation sample_bridge_running := (bridge_running prefix_matchesData pitless_strategies sample_b insertion_sort).

Lemma sample_router_running : sample_pitless_running sample_router.
Proof.
  exists factories, 0, sample_objects, 1%positive, PriorityFifo_new, None, sample_router0. split; [apply sample_fresh|]. split.
  - vm_compute. reflexivity.
  - apply (run_steps_reachable _ _ _ _ _ _ two_faces sample_router0 sample_router0); [intros ? [] Hpk; try discriminate Hpk; (split; [apply sample_matches|exact I])|by repeat constructor|constructor|].
    vm_compute. reflexivity.
Qed.

Lemma sample_bridge_is_running : sample_bridge_running sample_bridge.
Proof.
  exists sample_bridge. split; [|constructor].
  exists factories, 0, sample_objects, 1%positive, PriorityFifo_new, None, sample_bridge0. split; [apply sample_fresh|]. split.
  - vm_compute. reflexivity.
  - apply (run_steps_reachable _ _ _ _ _ _ two_faces sample_bridge0 sample_bridge0); [done|by repeat constructor|constructor|].
    vm_compute. reflexivity.
Qed.

Lemma sample_ready name (w : SWorld) : bool_decide (name ∈ installed w) = true → bool_decide (NoDup (computeHashSet name)) = true →
  effective (pit_nt (w_pit w)) name = Some BestRouteStrategy2_STRATEGY_NAME → strategy_ready name w.
Proof.
  intros Hin%bool_decide_eq_true Hn%bool_decide_eq_true He. split; [done|]. split; [done|]. intros s. rewrite He. intros [= <-].
  by split.
Qed.

Lemma sample_router_ready : pitless_ready sample_router.
Proof. apply sample_ready; vm_compute; reflexivity. Qed.
Lemma sample_bridge_ready : bridge_ready sample_bridge.
Proof. apply sample_ready; vm_compute; reflexivity. Qed.

Lemma sample_variant_face kind (w : SWorld) face : (f ← w_faces w !! face; Some (face_onReceive f)) = Some [kind] → variant_face kind w face.
Proof. destruct (w_faces w !! face) as [f|] eqn:Ef; [|done]. intros [= Hf]. by exists f. Qed.

Lemma sample_store_empty (w : SWorld) i : w_csFromNdnSim w = None → cs_table (w_cs w) = [] → never_answers prefix_matchesData w i.
Proof. intros Ee Ec k a. unfold cs_answers. rewrite Ee, Ec. by intros (e & _ & ?%elem_of_nil & _). Qed.

(** ** Witnesses *)

Abbreviation interest_a := (sample_interest sample_a 7).
(** The producer's answer: named by the bridge, the Interest's name inside *)
Definition answer_a : Data := mkData sample_b (ImplicitSha256Digest "d") sample_a 1000 None 0.

Lemma sample_pitless_interest (w : SWorld) face i : pitless_ready w → bool_decide (NoDup (computeHashSet (i_name i))) = true →
  pitless_packet_ok w (ReceiveInterest face i).
Proof. intros Hr Hn%bool_decide_eq_true. by split. Qed.
Lemma sample_pitless_data (w : SWorld) face d : bool_decide (NoDup (computeHashSet (d_name d))) = true →
  pitless_packet_ok w (ReceiveData face d).
Proof. by intros Hn%bool_decide_eq_true. Qed.

Lemma sample_bridge_ask (w : SWorld) face i : variant_face BridgeHandlers w face → roomb w (i_name i) = true →
  (sel_childSelector (i_selectors i) =? 1) = false → bool_decide (NoDup (computeHashSet (i_name i))) = true → bridge_ready w →
  bridge_step_ok w (ReceiveInterest face i).
Proof. intros Hf Hr%Z.ltb_lt Hs%Z.eqb_neq Hn%bool_decide_eq_true Hb. split_and!; try done. by intros ?. Qed.

Lemma answer_a_ok : data_ok answer_a.
Proof. split; [|done]. by intros c ->%list_elem_of_singleton. Qed.
Lemma plain_a : plain sample_a.
Proof. by intros c ->%list_elem_of_singleton. Qed.

Lemma sample_bridge_asks : bridge_step_ok sample_bridge (ReceiveInterest 2 interest_a).
Proof.
  apply sample_bridge_ask; [apply sample_variant_face| | | |apply sample_bridge_ready]; vm_compute; reflexivity.
Qed.

(** After the Interest came in on face 2 *)
Definition sample_bridge_asked : SWorld := default sample_dummy (run_steps_of sample_bridge_step [ReceiveInterest 2 interest_a] sample_bridge).
Lemma sample_bridge_asked_running : sample_bridge_running sample_bridge_asked.
Proof.
  destruct sample_bridge_is_running as (w0 & H0 & Hr). exists w0. split; [done|].
  eapply bridge_next; [exact Hr|apply sample_bridge_asks|]. vm_compute. reflexivity.
Qed.


Lemma pitless_forwards_witness :
  runs (router_step (ReceiveInterest 2 interest_a)) sample_router (λ _ w', stateless sample_router w') ∧
  runs (router_step (ReceiveData 2 (sample_data sample_a))) sample_router (λ _ w', stateless sample_router w').
Proof.
  destruct (pitless_forwards prefix_matchesData insertion_sort pitless_strategies sample_router 2 interest_a (sample_data sample_a)) as [Hi Hd].
  - apply sample_matches.
  - apply sample_router_running.
  - apply sample_variant_face. vm_compute. reflexivity.
  - apply check_step_ok. vm_compute. reflexivity.
  - apply sample_pitless_interest; [apply sample_router_ready|vm_compute; reflexivity].
  - apply check_step_ok. vm_compute. reflexivity.
  - apply sample_pitless_data. vm_compute. reflexivity.
  - split; (eapply runs_mono; [first [exact Hi|exact Hd]|by intros [] w' [? _]]).
Defined.

Lemma bridge_forwards_interests_witness :
  runs (sample_bridge_step (ReceiveInterest 2 interest_a)) sample_bridge (λ _ w',
    ∃ p, awaits w' 2 interest_a 4000000000 p ∧ pending (w_scheduled w') p).
Proof.
  eapply runs_mono; [apply (bridge_forwards_interests prefix_matchesData insertion_sort pitless_strategies sample_b sample_bridge 2 interest_a);
    [apply sample_matches|apply sample_bridge_is_running|apply sample_bridge_asks]|].
  intros [] w'. cbv zeta. assert (Ev : violates_localhost sample_bridge 2 (i_name interest_a) = false) by (vm_compute; reflexivity).
  assert (El : loops sample_bridge 2 interest_a = false) by (vm_compute; reflexivity). rewrite Ev, El.
  intros [(a & Ha & _)|[_ Hp]]; [|exact Hp].
  destruct (sample_store_empty sample_bridge interest_a) with (k := getId 2 sample_bridge) (a := a); [vm_compute; reflexivity..|done].
Defined.

Lemma bridge_returns_data_witness :
  runs (sample_bridge_step (ReceiveData 3 answer_a)) sample_bridge_asked (λ _ w', ∃ out,
    w_trace w' = w_trace sample_bridge_asked ++ out ∧ NoDup (data_faces out) ∧ 2%positive ∈ data_faces out).
Proof.
  destruct (bridge_returns_data prefix_matchesData insertion_sort pitless_strategies sample_b sample_bridge_asked 3 answer_a) as [_ Hr].
  - apply sample_matches.
  - apply sample_bridge_asked_running.
  - split; [apply sample_variant_face; vm_compute; reflexivity|]. split; [apply answer_a_ok|apply plain_a].
  - apply sample_NoDup.
  - eapply runs_mono; [exact Hr|]. intros [] w'. cbv beta zeta.
    assert (Ev : violates_localhost sample_bridge_asked 3 (d_supportingName answer_a) = false) by (vm_compute; reflexivity). rewrite Ev.
    intros (out & Ht & Hn & _ & Hf). exists out. split; [exact Ht|]. split; [exact Hn|]. apply Hf. split; [done|]. split; [vm_compute; reflexivity|].
    exists 1%positive, (sample_entry sample_bridge_asked 1). split; [apply sample_holds; vm_compute; reflexivity|].
    split; [vm_compute; reflexivity|].
    assert (Ep : pendingFaces (w_now sample_bridge_asked) (sample_entry sample_bridge_asked 1) = [2%positive]) by (vm_compute; reflexivity).
    rewrite Ep. by left.
Defined.

Lemma bridge_pitless_round_trip_witness : ∃ d1 d2 wb1 wb2 wb3,
  sample_bridge_step (ReceiveInterest 2 interest_a) sample_bridge = Some (tt, wb1) ∧
  sample_bridge_step (Elapse 1000000) wb1 = Some (tt, wb2) ∧ sample_bridge_step (ReceiveData 3 d1) wb2 = Some (tt, wb3) ∧
  d_name d2 = sample_a ∧ SentData 2 d2 ∈ w_trace wb3.
Proof.
  destruct (bridge_pitless_round_trip prefix_matchesData insertion_sort pitless_strategies sample_b sample_bridge sample_router 2 3 2 3
    interest_a answer_a 1000000) as (i1 & d1 & d2 & wb1 & wr1 & wr2 & wb2 & wb3 & out & E1 & _ & _ & _ & E2 & _ & E3 & Td & _ & E4 & E5 & Ht & Hin & Hn).
  - apply sample_matches.
  - apply sample_bridge_is_running.
  - apply sample_router_running.
  - apply sample_bridge_asks.
  - vm_compute. reflexivity.
  - vm_compute. reflexivity.
  - apply sample_store_empty; vm_compute; reflexivity.
  - vm_compute. reflexivity.
  - vm_compute. reflexivity.
  - apply sample_variant_face. vm_compute. reflexivity.
  - apply sample_variant_face. vm_compute. reflexivity.
  - vm_compute. reflexivity.
  - apply sample_store_empty; vm_compute; reflexivity.
  - vm_compute. reflexivity.
  - vm_compute. reflexivity.
  - apply sample_variant_face. vm_compute. reflexivity.
  - apply sample_router_ready.
  - apply answer_a_ok.
  - done.
  - apply (bool_decide_eq_true_1 _). vm_compute. reflexivity.
  - done.
  - apply plain_a.
  - vm_compute. reflexivity.
  - vm_compute. reflexivity.
  - vm_compute. reflexivity.
  - vm_compute. reflexivity.
  - vm_compute. reflexivity.
  - split; [lia|vm_compute; reflexivity].
  - exists d1, d2, wb1, wb2, wb3. split_and!; [exact E1|exact E4|exact E5|exact Hn|]. rewrite Ht. apply elem_of_app. by right.
Defined.

(** A bridge with Data for /a in its store, from a local face *)
Definition data_b (n : Name) : Data := mkData n (ImplicitSha256Digest "d") n 1000 None 0.
Definition sample_bridge_stored : SWorld :=
  default sample_dummy (run_steps_of sample_bridge_step [ReceiveData 2 (data_b sample_a)] sample_bridge).

Lemma sample_bridge_stored_running : sample_bridge_running sample_bridge_stored.
Proof.
  destruct sample_bridge_is_running as (w0 & H0 & Hr). exists w0. split; [done|].
  eapply (bridge_next _ _ _ _ _ sample_bridge (ReceiveData 2 (data_b sample_a))); [exact Hr| |vm_compute; reflexivity].
  split; [apply sample_variant_face; vm_compute; reflexivity|]. split; [split; [apply plain_a|done]|apply plain_a].
Qed.

(** Data in the store that satisfy the Interest *)
Lemma sample_store_hit (w : SWorld) i : w_csFromNdnSim w = None →
  existsb (λ e, CsEntry_canSatisfy prefix_matchesData (w_now w) i e) (cs_table (w_cs w)) = true → cs_answers prefix_matchesData w i None → False.
Proof.
  intros Ee (e & He & Hc)%existsb_exists. unfold cs_answers. rewrite Ee. intros Hn. rewrite (Hn e) in Hc by by apply list_elem_of_In. done.
Qed.

Lemma bridge_hit_leaks_witness : ∃ p, runs (sample_bridge_step (ReceiveInterest 2 interest_a)) sample_bridge_stored (λ _ w',
  ¬ live (w_pit sample_bridge_stored) p ∧ live (w_pit w') p ∧ ¬ pending (w_scheduled w') p).
Proof.
  exists 1%positive.
  apply (bridge_hit_leaks prefix_matchesData insertion_sort pitless_strategies sample_b sample_bridge_stored 2 interest_a 1
    (Pit_insert (w_pit sample_bridge_stored) (setInterestIncomingFaceId (getId 2 sample_bridge_stored) interest_a)).2).
  - apply sample_matches.
  - apply sample_bridge_stored_running.
  - apply sample_bridge_ask; [apply sample_variant_face| | | |apply sample_ready]; vm_compute; reflexivity.
  - vm_compute. reflexivity.
  - vm_compute. reflexivity.
  - vm_compute. reflexivity.
  - apply sample_store_hit; vm_compute; reflexivity.
Defined.

(** A router with a route for /localhost to the remote face 3 *)
Definition localhost_steps : list DaemonStep :=
  two_faces ++ [FibRequest (sample_command Fib_COMMAND_PREFIX "add-nexthop" "localhost-to-257")].
Definition sample_router_localhost : SWorld := default sample_dummy (run_steps_of router_step localhost_steps sample_router0).

Lemma sample_setup_running l w : Forall (λ s, is_packet s = false) l → run_steps_of router_step l sample_router0 = Some w → sample_pitless_running w.
Proof.
  intros Hl Hw. exists factories, 0, sample_objects, 1%positive, PriorityFifo_new, None, sample_router0. split; [apply sample_fresh|].
  split; [vm_compute; reflexivity|].
  apply (run_steps_reachable _ _ _ _ _ _ l sample_router0 sample_router0); [|done|constructor|exact Hw].
  intros ? [] Hpk; try discriminate Hpk; (split; [apply sample_matches|exact I]).
Qed.

Lemma pitless_localhost_escapes_witness :
  runs (router_step (ReceiveInterest 2 (sample_interest LOCALHOST_NAME 7))) sample_router_localhost (λ _ w',
    SentInterest 3 (setInterestIncomingFaceId 256 (sample_interest LOCALHOST_NAME 7)) ∈ w_trace w').
Proof.
  apply (pitless_localhost_escapes prefix_matchesData insertion_sort pitless_strategies sample_router_localhost 2 3 (sample_interest LOCALHOST_NAME 7)).
  - apply sample_matches.
  - apply (sample_setup_running localhost_steps); [by repeat constructor|vm_compute; reflexivity].
  - apply sample_variant_face. vm_compute. reflexivity.
  - apply check_step_ok. vm_compute. reflexivity.
  - apply sample_pitless_interest; [apply sample_ready|]; vm_compute; reflexivity.
  - done.
  - vm_compute. reflexivity.
  - vm_compute. reflexivity.
  - vm_compute. reflexivity.
  - vm_compute. reflexivity.
  - apply sample_store_empty; vm_compute; reflexivity.
Defined.

(** A router where the strategy of the name of the PITless strategy is NCC, with Data for /a *)
Definition ncc_steps : list DaemonStep :=
  two_faces ++ [StrategyRequest (sample_command [Generic "localhost"; Generic "nfd"; Generic "strategy-choice"] "set" "pitless-to-ncc")].
Definition ncc_router0 : SWorld :=
  default sample_dummy (PITlessForwarder_new (NccStrategy_STRATEGY_NAME :: factories) 0 sample_objects 1 PriorityFifo_new None).
Definition ncc_router1 : SWorld := default sample_dummy (run_steps_of router_step ncc_steps ncc_router0).
Definition ncc_router : SWorld := default sample_dummy (run_steps_of router_step [ReceiveData 3 (data_b sample_a)] ncc_router1).

Lemma ncc_router_running : sample_pitless_running ncc_router.
Proof.
  exists (NccStrategy_STRATEGY_NAME :: factories), 0, sample_objects, 1%positive, PriorityFifo_new, None, ncc_router0.
  split; [apply sample_fresh|]. split; [vm_compute; reflexivity|].
  eapply (variant_next _ _ _ _ _ _ _ _ _ ncc_router0 ncc_router1 (ReceiveData 3 (data_b sample_a))).
  - apply (run_steps_reachable _ _ _ _ _ _ ncc_steps ncc_router0 ncc_router0); [|by repeat constructor|constructor|vm_compute; reflexivity].
    intros ? [] Hpk; try discriminate Hpk; (split; [apply sample_matches|exact I]).
  - apply check_step_ok. vm_compute. reflexivity.
  - split; [apply sample_matches|]. apply sample_pitless_data. vm_compute. reflexivity.
  - vm_compute. reflexivity.
Qed.

Lemma pitless_hit_stops_witness : router_step (ReceiveInterest 2 interest_a) ncc_router = None.
Proof.
  apply (pitless_hit_stops prefix_matchesData insertion_sort pitless_strategies ncc_router 2 interest_a NccStrategy_STRATEGY_NAME).
  - apply sample_matches.
  - apply ncc_router_running.
  - apply sample_variant_face. vm_compute. reflexivity.
  - apply check_step_ok. vm_compute. reflexivity.
  - vm_compute. reflexivity.
  - vm_compute. reflexivity.
  - by left.
  - apply (bool_decide_eq_true_1 _). vm_compute. reflexivity.
  - apply sample_store_hit; vm_compute; reflexivity.
Defined.

(** A bridge records no outgoing Interest, so an expired PIT entry leaves nothing in
    the Dead Nonce List: the same Interest coming in again is sent again.  The
    ordinary forwarder takes it for a loop. *)
Definition again_steps : list DaemonStep := [ReceiveInterest 2 interest_a; Elapse 5000000000; FireTimer 1; ReceiveInterest 2 interest_a].
Definition sent_nonces (w : SWorld) : list (face_ptr * Z) :=
  omap (λ o, match o with SentInterest f i => Some (f, i_nonce i) | _ => None end) (w_trace w).

Theorem bridge_forgets_nonces :
  (sent_nonces <$> run_steps_of sample_bridge_step again_steps sample_bridge) = Some [(3%positive, 7); (3%positive, 7)] ∧
  (sent_nonces <$> check_run again_steps (sample_after (take 3 sample_setup ++ drop 4 sample_setup))) = Some [(3%positive, 7)].
Proof. split; vm_compute; reflexivity. Qed.
