(* ===== verification/Timers.v ===== *)
(** * Objects with a timer

    A map whose entries each own one event of the scheduler, the event naming the
    entry: partial messages and their cleanups, reassemblers and their expiry.
    The invariant and the two changes that keep it: an entry is made or changed
    and its event replaced; an entry is erased with its event. *)

From S2P Require Import Prelude.

(** [scheduler::cancel] of the event an entry holds, if any *)
Definition cancel_event {K} (id : option positive) (scheduled : gmap positive (Z * K)) : gmap positive (Z * K) :=
  match id with Some id => delete id scheduled | None => scheduled end.

Section timers.
Context {K V : Type} `{Countable K} (expiry : V → option positive).

Record timers_inv (good : K → V → Prop) (m : gmap K V) (scheduled : gmap positive (Z * K)) (next : positive) : Prop := {
  ti_entry k v : m !! k = Some v → good k v ∧ ∃ ev t, expiry v = Some ev ∧ scheduled !! ev = Some (t, k);
  ti_event ev t k : scheduled !! ev = Some (t, k) → (ev < next)%positive ∧ ∃ v, m !! k = Some v ∧ expiry v = Some ev
}.

Lemma timers_empty good next : timers_inv good ∅ ∅ next.
Proof. by split. Qed.

Lemma timers_mono (good good' : K → V → Prop) m scheduled next : (∀ k v, m !! k = Some v → good k v → good' k v) →
  timers_inv good m scheduled next → timers_inv good' m scheduled next.
Proof. intros Hg [A B]. split; [|done]. intros k v Hv. destruct (A k v Hv). auto. Qed.

(** The event of an entry is its own. *)
Lemma timers_unique good m scheduled next k k' v v' ev : timers_inv good m scheduled next →
  m !! k = Some v → m !! k' = Some v' → expiry v = Some ev → expiry v' = Some ev → k = k'.
Proof.
  intros [A B] Hv Hv' He He'. destruct (A k v Hv) as (_ & e & t & Ee & Et), (A k' v' Hv') as (_ & e' & t' & Ee' & Et').
  congruence.
Qed.

Section change.
Context (good good' : K → V → Prop) (k : K) (Hgood : ∀ k' v, k' ≠ k → good k' v → good' k' v).

Lemma timers_erase m scheduled next : timers_inv good m scheduled next →
  timers_inv good' (delete k m) (cancel_event (m !! k ≫= expiry) scheduled) next.
Proof.
  intros Hi. pose proof Hi as [A B]. assert (Hev : ∀ ev x, cancel_event (m !! k ≫= expiry) scheduled !! ev = Some x ↔
    scheduled !! ev = Some x ∧ m !! k ≫= expiry ≠ Some ev).
  { intros ev x. destruct (m !! k ≫= expiry) as [o|]; simpl; [|naive_solver]. rewrite lookup_delete_Some. naive_solver. }
  split.
  - intros k' v Hv. apply lookup_delete_Some in Hv as [Hne Hv]. destruct (A k' v Hv) as (Hg & ev & t & Ee & Et).
    split; [by apply Hgood|]. exists ev, t. split; [done|]. apply Hev. split; [done|].
    intros (v0 & Hv0 & Ee0)%bind_Some. by destruct Hne; eapply timers_unique.
  - intros ev t k' Hs. apply Hev in Hs as [Hs Hne]. destruct (B ev t k' Hs) as (Hl & v & Hv & Ee). split; [done|]. exists v. split; [|done].
    rewrite lookup_delete_ne; [done|]. intros ->. apply Hne. by rewrite Hv.
Qed.

Lemma timers_put v t m scheduled next : timers_inv good m scheduled next → good' k v → expiry v = Some next →
  timers_inv good' (<[k := v]> m) (<[next := (t, k)]> (cancel_event (m !! k ≫= expiry) scheduled)) (Pos.succ next).
Proof.
  intros Hi Hv He. destruct (timers_erase m scheduled next Hi) as [A B]. split.
  - intros k' v' Hv'. apply lookup_insert_Some in Hv' as [[<- <-]|[Hne Hv']].
    + split; [done|]. exists next, t. by rewrite lookup_insert_eq.
    + destruct (A k' v') as (Hg & ev & t' & Ee & Et); [by rewrite lookup_delete_ne|]. split; [done|]. exists ev, t'. split; [done|].
      rewrite lookup_insert_ne; [done|]. destruct (B ev t' k' Et) as [Hl _]. lia.
  - intros ev t' k' Hs. apply lookup_insert_Some in Hs as [[<- [= <- <-]]|[Hne Hs]].
    + split; [lia|]. exists v. by rewrite lookup_insert_eq.
    + destruct (B ev t' k' Hs) as (Hl & v' & Hv' & Ee). split; [lia|]. exists v'. apply lookup_delete_Some in Hv' as [Hk Hv'].
      by rewrite lookup_insert_ne.
Qed.

(** The event may be scheduled before the old one is cancelled. *)
Lemma cancel_after_schedule m scheduled next x : timers_inv good m scheduled next →
  cancel_event (m !! k ≫= expiry) (<[next := x]> scheduled) = <[next := x]> (cancel_event (m !! k ≫= expiry) scheduled).
Proof.
  intros [A B]. destruct (m !! k ≫= expiry) as [ev|] eqn:E; [|done]. simpl. apply bind_Some in E as (v & Hv & Ee).
  destruct (A k v Hv) as (_ & ev' & t & Ee' & Et). destruct (B ev' t k Et) as [Hl _]. apply delete_insert_ne. simplify_eq. lia.
Qed.
End change.
End timers.
