(* ===== verification/Tlv.v ===== *)
(** * TLV blocks

    [ndn::Block] and the encoding functions of ndn-cxx that the link layer uses,
    as an interface: variable-length numbers, nonnegative integers, the first
    block of a buffer, the elements of a value.  The laws state the NDN packet
    format; [ndn_tlv] is an implementation of them. *)

From S2P Require Import Prelude.

(** A TLV block: its type, the bytes of its value, and its wire encoding *)
Record Block := mkBlock { b_type : Z; b_value : list Z; b_wire : list Z }.

#[export] Instance Block_eq_dec : EqDecision Block.
Proof. solve_decision. Defined.

Definition size (l : list Z) : Z := Z.of_nat (length l).

(** [htobe64], [be64toh] on the bytes of a number, and their likes of other widths *)
Fixpoint be_bytes (n : nat) (z : Z) : list Z :=
  match n with O => [] | S n => (z / 256 ^ Z.of_nat n) mod 256 :: be_bytes n z end.
Fixpoint be_number (acc : Z) (l : list Z) : Z :=
  match l with [] => acc | b :: l => be_number (256 * acc + b) l end.

Lemma be_number_bytes n z acc : be_number acc (be_bytes n z) = acc * 256 ^ Z.of_nat n + z mod 256 ^ Z.of_nat n.
Proof.
  revert acc. induction n as [|n IH]; intros acc; simpl be_bytes; simpl be_number.
  - rewrite Z.mod_1_r. lia.
  - rewrite IH. rewrite Nat2Z.inj_succ, Z.pow_succ_r by lia.
    pose proof (Z.pow_pos_nonneg 256 (Z.of_nat n) ltac:(lia) ltac:(lia)) as Hp.
    rewrite (Z.mul_comm 256 (256 ^ Z.of_nat n)), (Z.rem_mul_r z (256 ^ Z.of_nat n) 256) by lia. ring.
Qed.

Lemma length_be_bytes n z : length (be_bytes n z) = n.
Proof. induction n as [|n IH]; simpl; congruence. Qed.

Lemma be_number_inv n z : 0 <= z < 256 ^ Z.of_nat n → be_number 0 (be_bytes n z) = z.
Proof. intros Hz. rewrite be_number_bytes, Z.mod_small by lia. lia. Qed.

#[global] Arguments be_bytes : simpl never.
#[global] Arguments be_number : simpl never.

Lemma u16_small z : 0 <= z < 2 ^ 16 → u16 z = z.
Proof. apply Z.mod_small. Qed.

Lemma u16_range z : 0 <= u16 z < 2 ^ 16.
Proof. by apply Z.mod_pos_bound. Qed.

(** ** The interface *)

Class Tlv := {
  VarNumber : Z → list Z;
  NonNegativeInteger : Z → list Z;
  readNonNegativeInteger : list Z → option Z;            (* None: tlv::Error *)
  Block_parse : list Z → option (list Block);            (* Block::parse of a value; None: tlv::Error *)
  Block_fromBuffer : list Z → option Block;              (* None: (false, Block()) *)
  blockFromValue : list Z → option Block                 (* None: tlv::Error *)
}.

Definition in_size (n : Z) : Prop := 0 <= n < 2 ^ 64.

Section tlv.
Context `{Tlv}.

Definition tlv (type : Z) (value : list Z) : list Z := VarNumber type ++ VarNumber (size value) ++ value.
Definition Block_of (type : Z) (value : list Z) : Block := mkBlock type value (tlv type value).

(** A block as an application makes it *)
Definition encoded (b : Block) : Prop := b = Block_of (b_type b) (b_value b) ∧ in_u32 (b_type b) ∧ in_size (size (b_value b)).

Class TlvLaws : Prop := {
  VarNumber_mono m n : 0 <= m <= n → size (VarNumber m) <= size (VarNumber n);
  VarNumber_nonempty n : VarNumber n ≠ [];
  NonNegativeInteger_mono m n : 0 <= m <= n → size (NonNegativeInteger m) <= size (NonNegativeInteger n);
  NonNegativeInteger_size n : in_u64 n → size (NonNegativeInteger n) <= 8;
  readNonNegativeInteger_encode n : in_u64 n → readNonNegativeInteger (NonNegativeInteger n) = Some n;
  Block_parse_nil : Block_parse [] = Some [];
  Block_parse_cons type value rest : in_u32 type → in_size (size value) →
    Block_parse (tlv type value ++ rest) = l ← Block_parse rest; Some (Block_of type value :: l);
  Block_fromBuffer_tlv type value rest : in_u32 type → in_size (size value) →
    Block_fromBuffer (tlv type value ++ rest) = Some (Block_of type value);
  blockFromValue_tlv type value : in_u32 type → in_size (size value) →
    blockFromValue (tlv type value) = Some (Block_of type value)
}.
End tlv.

Lemma size_app l1 l2 : size (l1 ++ l2) = size l1 + size l2.
Proof. unfold size. rewrite length_app. lia. Qed.
Lemma size_nonneg l : 0 <= size l.
Proof. unfold size. lia. Qed.

(** ** The NDN packet format *)

Definition ndn_VarNumber (n : Z) : list Z :=
  if n <? 253 then [n]
  else if n <? 2 ^ 16 then 253 :: be_bytes 2 n
  else if n <? 2 ^ 32 then 254 :: be_bytes 4 n
  else 255 :: be_bytes 8 n.

Definition ndn_NonNegativeInteger (n : Z) : list Z :=
  if n <? 2 ^ 8 then be_bytes 1 n else if n <? 2 ^ 16 then be_bytes 2 n else if n <? 2 ^ 32 then be_bytes 4 n else be_bytes 8 n.

Definition ndn_readNonNegativeInteger (l : list Z) : option Z :=
  if bool_decide (length l ∈ [1; 2; 4; 8]%nat) then Some (be_number 0 l) else None.

(** Take [n] bytes off a buffer *)
Definition read_bytes (n : Z) (l : list Z) : option (list Z * list Z) :=
  if size l <? n then None else Some (take (Z.to_nat n) l, drop (Z.to_nat n) l).

Definition ndn_readVarNumber (l : list Z) : option (Z * list Z) :=
  match l with
  | [] => None
  | b :: l =>
      if b <? 253 then Some (b, l)
      else '(h, rest) ← read_bytes (if b =? 253 then 2 else if b =? 254 then 4 else 8) l; Some (be_number 0 h, rest)
  end.

Definition ndn_read (l : list Z) : option (Block * list Z) :=
  '(type, l1) ← ndn_readVarNumber l;
  '(len, l2) ← ndn_readVarNumber l1;
  '(value, rest) ← read_bytes len l2;
  if type <? 2 ^ 32 then Some (mkBlock type value (take (length l - length rest) l), rest) else None.

Fixpoint ndn_parse (fuel : nat) (l : list Z) : option (list Block) :=
  match fuel, l with
  | _, [] => Some []
  | O, _ => None
  | S fuel, _ => '(b, rest) ← ndn_read l; bs ← ndn_parse fuel rest; Some (b :: bs)
  end.

#[export] Instance ndn_tlv : Tlv := {
  VarNumber := ndn_VarNumber;
  NonNegativeInteger := ndn_NonNegativeInteger;
  readNonNegativeInteger := ndn_readNonNegativeInteger;
  Block_parse l := ndn_parse (length l) l;
  Block_fromBuffer l := '(b, _) ← ndn_read l; Some b;
  blockFromValue l := '(b, rest) ← ndn_read l; if bool_decide (rest = []) then Some b else None
}.

Lemma read_bytes_app l rest : read_bytes (size l) (l ++ rest) = Some (l, rest).
Proof.
  unfold read_bytes. rewrite size_app. pose proof (size_nonneg rest).
  rewrite (proj2 (Z.ltb_ge _ _)) by lia. unfold size. by rewrite Nat2Z.id, take_app_length, drop_app_length.
Qed.

Lemma ndn_readVarNumber_app n rest : in_u64 n → ndn_readVarNumber (ndn_VarNumber n ++ rest) = Some (n, rest).
Proof.
  intros [H0 H64]. unfold ndn_VarNumber.
  assert (Hbig : ∀ k b, 253 <= b → n < 256 ^ Z.of_nat k → Z.of_nat k = (if b =? 253 then 2 else if b =? 254 then 4 else 8) →
    ndn_readVarNumber ((b :: be_bytes k n) ++ rest) = Some (n, rest)).
  { intros k b Hb Hn Hk. simpl. rewrite (proj2 (Z.ltb_ge _ _)) by lia.
    assert (Hs : size (be_bytes k n) = if b =? 253 then 2 else if b =? 254 then 4 else 8) by (unfold size; by rewrite length_be_bytes).
    rewrite <-Hs, read_bytes_app. simpl. by rewrite be_number_inv by lia. }
  destruct (Z.ltb_spec n 253) as [Hn|Hn]; [simpl; by rewrite (proj2 (Z.ltb_lt _ _)) by lia|].
  repeat case_match; rewrite ?Z.ltb_lt, ?Z.ltb_ge in *; apply Hbig; simpl; lia.
Qed.

Lemma ndn_VarNumber_nonempty n : ndn_VarNumber n ≠ [].
Proof. unfold ndn_VarNumber. by repeat case_match. Qed.

Lemma ndn_read_app type value rest : in_u32 type → in_size (size value) → ndn_read (tlv type value ++ rest) = Some (Block_of type value, rest).
Proof.
  intros [Ht Ht'] Hv. unfold ndn_read, tlv. rewrite <-!app_assoc. simpl VarNumber.
  rewrite ndn_readVarNumber_app by (split; lia). simpl. rewrite ndn_readVarNumber_app by done. simpl.
  rewrite read_bytes_app. simpl. rewrite (proj2 (Z.ltb_lt _ _)) by lia. unfold Block_of. do 3 f_equal. unfold tlv. simpl VarNumber.
  rewrite !app_assoc. rewrite (length_app _ rest), Nat.add_sub. by rewrite take_app_length.
Qed.

Lemma ndn_parse_fuel l fuel fuel' : (length l <= fuel)%nat → (length l <= fuel')%nat → ndn_parse fuel l = ndn_parse fuel' l.
Proof.
  revert l fuel'. induction fuel as [|fuel IH]; intros [|b l] [|fuel'] H1 H2; simpl in *; try done; try lia.
  destruct (ndn_read (b :: l)) as [[x rest]|] eqn:E; [|done]. simpl.
  assert (Hl : (length rest <= length l)%nat).
  { unfold ndn_read in E. destruct (ndn_readVarNumber (b :: l)) as [[t l1]|] eqn:E1; [|done]. simpl in E.
    assert (Hr : ∀ c k m k', ndn_readVarNumber (c :: k) = Some (m, k') → (length k' <= length k)%nat).
    { intros c k m k'. simpl. destruct (c <? 253); [by intros [= _ ->]|]. unfold read_bytes.
      destruct (size k <? _); [done|]. simpl. intros [= _ <-]. rewrite length_drop. lia. }
    pose proof (Hr _ _ _ _ E1) as L1. destruct l1 as [|c l1]; [done|].
    destruct (ndn_readVarNumber (c :: l1)) as [[n l2]|] eqn:E2; [|done]. simpl in E. pose proof (Hr _ _ _ _ E2) as L2.
    unfold read_bytes in E. destruct (size l2 <? n); [done|]. simpl in E. destruct (t <? 2 ^ 32); [|done]. injection E as _ <-. rewrite length_drop. simpl in *. lia. }
  by rewrite (IH rest fuel') by lia.
Qed.

Lemma tlv_nonempty type value : tlv type value ≠ [].
Proof. unfold tlv. simpl. intros [E _]%app_eq_nil. by apply ndn_VarNumber_nonempty in E. Qed.

Lemma size_be_bytes n z : size (be_bytes n z) = Z.of_nat n.
Proof. unfold size. by rewrite length_be_bytes. Qed.
Lemma size_cons b l : size (b :: l) = 1 + size l.
Proof. unfold size. simpl. lia. Qed.

#[export] Instance ndn_tlv_laws : TlvLaws.
Proof.
  split.
  - intros m n Hmn. simpl. unfold ndn_VarNumber. repeat case_match; rewrite ?Z.ltb_lt, ?Z.ltb_ge in *;
      rewrite ?size_cons, ?size_be_bytes; unfold size; simpl; lia.
  - apply ndn_VarNumber_nonempty.
  - intros m n Hmn. simpl. unfold ndn_NonNegativeInteger. repeat case_match; rewrite ?Z.ltb_lt, ?Z.ltb_ge in *;
      rewrite ?size_be_bytes; lia.
  - intros n [H0 H64]. simpl. unfold ndn_NonNegativeInteger. repeat case_match; rewrite size_be_bytes; lia.
  - intros n [H0 H64]. simpl. unfold ndn_readNonNegativeInteger, ndn_NonNegativeInteger.
    repeat case_match; rewrite ?Z.ltb_lt, ?Z.ltb_ge in *; rewrite ?bool_decide_eq_true, ?bool_decide_eq_false in *;
      try (f_equal; apply be_number_inv; simpl; lia);
      (match goal with Hn : _ ∉ _ |- _ => destruct Hn; rewrite length_be_bytes; set_solver end).
  - done.
  - intros type value rest Ht Hv. simpl Block_parse.
    destruct (length (tlv type value ++ rest)) as [|k] eqn:El.
    { destruct (tlv type value) eqn:Et; [by apply tlv_nonempty in Et|done]. }
    assert (Hne : ∃ x y, tlv type value ++ rest = x :: y) by (destruct (tlv type value ++ rest); [done|eauto]).
    destruct Hne as (x & y & Exy). rewrite Exy. cbn [ndn_parse]. rewrite <-Exy, ndn_read_app by done. simpl.
    rewrite (ndn_parse_fuel rest k (length rest)); [done| |done].
    rewrite length_app in El. assert (length (tlv type value) ≠ 0%nat) by (intros ?%nil_length_inv; by eapply tlv_nonempty). lia.
  - intros type value rest Ht Hv. simpl. by rewrite ndn_read_app.
  - intros type value Ht Hv. simpl. rewrite <-(app_nil_r (tlv type value)), ndn_read_app by done. done.
Qed.
