(* ===== verification/Ndnlp.v ===== *)
(** * NDNLP: [daemon/face/ndnlp-slicer.cpp], [daemon/face/ndnlp-data.cpp],
      [daemon/face/ndnlp-sequence-generator.cpp],
      [daemon/face/ndnlp-partial-message-store.cpp]

    Link-layer fragmentation.  A slicer cuts a network packet into fragments that
    fit the MTU, numbered consecutively; the receiver keeps partial messages by
    the number of their first fragment, and forgets those that stay idle. *)

From S2P Require Import Prelude Timers Tlv.

(** ** Packets *)

Definition NdnlpData_type : Z := 80.
Definition NdnlpSequence_type : Z := 81.
Definition NdnlpFragIndex_type : Z := 82.
Definition NdnlpFragCount_type : Z := 83.
Definition NdnlpPayload_type : Z := 84.

Record NdnlpData := mkNdnlpData {
  nd_seq : Z;         (* uint64_t *)
  nd_fragIndex : Z;   (* uint16_t *)
  nd_fragCount : Z;   (* uint16_t *)
  nd_payload : Block
}.
(** What a failing parse returns beside [false] *)
Definition NdnlpData_new : NdnlpData := mkNdnlpData 0 0 0 (mkBlock (2 ^ 32 - 1) [] []).

Section data.
Context `{Tlv}.

(** [None]: [tlv::Error] is thrown, by [Block::parse] or [readNonNegativeInteger]. *)
Definition NdnlpData_fromBlock (wire : Block) : option (bool * NdnlpData) :=
  if negb (b_type wire =? NdnlpData_type) then Some (false, NdnlpData_new)
  else
    elements ← Block_parse (b_value wire);
    if (length elements <? 2)%nat then Some (false, NdnlpData_new)
    else
      sequenceElement ← head elements;
      if negb (b_type sequenceElement =? NdnlpSequence_type) then Some (false, NdnlpData_new)
      else if negb (size (b_value sequenceElement) =? 8) then Some (false, NdnlpData_new)
      else
        let seq := be_number 0 (b_value sequenceElement) in
        payloadElement ← last elements;
        if negb (b_type payloadElement =? NdnlpPayload_type) then Some (false, NdnlpData_new)
        else if (length elements =? 2)%nat then Some (true, mkNdnlpData seq 0 1 payloadElement)
        else if negb (length elements =? 4)%nat then Some (false, NdnlpData_new)
        else
          fragIndexElement ← elements !! 1%nat;
          if negb (b_type fragIndexElement =? NdnlpFragIndex_type) then Some (false, NdnlpData_new)
          else
            fragIndex ← readNonNegativeInteger (b_value fragIndexElement);
            if 2 ^ 16 - 1 <? fragIndex then Some (false, NdnlpData_new)
            else
              fragCountElement ← elements !! 2%nat;
              if negb (b_type fragCountElement =? NdnlpFragCount_type) then Some (false, NdnlpData_new)
              else
                fragCount ← readNonNegativeInteger (b_value fragCountElement);
                if 2 ^ 16 - 1 <? fragCount then Some (false, NdnlpData_new)
                else if u16 fragCount <=? u16 fragIndex then Some (false, NdnlpData_new)
                else Some (true, mkNdnlpData seq (u16 fragIndex) (u16 fragCount) payloadElement).
End data.

(** ** Sequence numbers *)

Record SequenceBlock := mkSequenceBlock { sb_start : Z; sb_count : Z }.

(** [None]: [std::out_of_range] *)
Definition SequenceBlock_at (sb : SequenceBlock) (pos : Z) : option Z :=
  if sb_count sb <=? pos then None else Some (u64 (sb_start sb + pos)).

(** The generator is its next number, [m_next]. *)
Definition SequenceGenerator_new : Z := 0.
Definition nextBlock (m_next count : Z) : SequenceBlock * Z := (mkSequenceBlock m_next count, u64 (m_next + count)).

(** ** The slicer *)

Record Slicer := mkSlicer { m_seqgen : Z; m_mtu : Z; m_maxPayload : Z }.

Section slicer.
Context `{Tlv}.

(** [encodeFragment] for an [EncodingBuffer]: the elements are prepended, the last first. *)
Definition encodeFragment (seq fragIndex fragCount : Z) (payload : list Z) : list Z :=
  let blk := tlv NdnlpPayload_type payload in
  let needFragIndexAndCount := 1 <? fragCount in
  let blk := if needFragIndexAndCount
             then tlv NdnlpFragIndex_type (NonNegativeInteger fragIndex) ++ tlv NdnlpFragCount_type (NonNegativeInteger fragCount) ++ blk
             else blk in
  let blk := tlv NdnlpSequence_type (be_bytes 8 seq) ++ blk in
  tlv NdnlpData_type blk.

(** [encodeFragment] for an [EncodingEstimator]: only the sizes are computed. *)
Definition tlv_size (type length : Z) : Z := size (VarNumber type) + size (VarNumber length) + length.
Definition estimateFragment (seq fragIndex fragCount payloadSize : Z) : Z :=
  let totalLength := tlv_size NdnlpPayload_type payloadSize in
  let needFragIndexAndCount := 1 <? fragCount in
  let totalLength := if needFragIndexAndCount
    then totalLength + tlv_size NdnlpFragCount_type (size (NonNegativeInteger fragCount)) + tlv_size NdnlpFragIndex_type (size (NonNegativeInteger fragIndex))
    else totalLength in
  let totalLength := totalLength + tlv_size NdnlpSequence_type 8 in
  tlv_size NdnlpData_type totalLength.

Definition estimateOverhead (mtu : Z) : Z :=
  let estimatedSize := estimateFragment (2 ^ 64 - 1) (2 ^ 16 - 1 - 1) (2 ^ 16 - 1) mtu in
  let overhead := u64 (estimatedSize - mtu) in
  u64 (mtu - overhead).

Definition Slicer_new (mtu : Z) : Slicer := mkSlicer SequenceGenerator_new mtu (estimateOverhead mtu).

(** One turn of the loop; [None] is the failing [BOOST_VERIFY]. *)
Definition slice_fragment (s : Slicer) (networkPacket : list Z) (seqBlock : SequenceBlock) (fragCount fragIndex : Z) : option (list Z) :=
  let payloadOffset := u64 (fragIndex * m_maxPayload s) in
  let payload := drop (Z.to_nat payloadOffset) networkPacket in
  let payloadSize := Z.min (m_maxPayload s) (u64 (size networkPacket - payloadOffset)) in
  seq ← SequenceBlock_at seqBlock fragIndex;
  let pkt := encodeFragment seq fragIndex fragCount (take (Z.to_nat payloadSize) payload) in
  if size pkt <=? m_mtu s then Some pkt else None.

(** [block] is given by its wire encoding.  [None] also stands for a division by zero. *)
Definition slice (s : Slicer) (networkPacket : list Z) : option (list (list Z) * Slicer) :=
  if m_maxPayload s =? 0 then None
  else
    let networkPacketSize := size networkPacket in
    let fragCount := u16 (networkPacketSize / m_maxPayload s + (if networkPacketSize mod m_maxPayload s =? 0 then 0 else 1)) in
    let '(seqBlock, next) := nextBlock (m_seqgen s) fragCount in
    pa ← mapM (slice_fragment s networkPacket seqBlock fragCount) (seqZ 0 fragCount);
    Some (pa, mkSlicer next (m_mtu s) (m_maxPayload s)).
End slicer.

(** ** Partial messages *)

Record PartialMessage := mkPartialMessage {
  pm_expiry : option positive;
  m_fragCount : Z;
  m_received : Z;
  m_payloads : list (option Block);    (* None: an empty Block *)
  m_totalLength : Z
}.

Definition PartialMessage_new : PartialMessage := mkPartialMessage None 0 0 [] 0.

Definition PartialMessage_add (fragIndex fragCount : Z) (payload : Block) (m : PartialMessage) : bool * PartialMessage :=
  let m := if m_received m =? 0
           then mkPartialMessage (pm_expiry m) fragCount (m_received m) (resize (Z.to_nat fragCount) None (m_payloads m)) (m_totalLength m)
           else m in
  if negb (m_fragCount m =? fragCount) || (m_fragCount m <=? fragIndex) then (false, m)
  else
    match m_payloads m !! Z.to_nat fragIndex with
    | Some None =>
        (true, mkPartialMessage (pm_expiry m) (m_fragCount m) (m_received m + 1) (<[Z.to_nat fragIndex := Some payload]> (m_payloads m))
                 (m_totalLength m + size (b_value payload)))
    | _ => (false, m)   (* duplicate *)
    end.

Definition isComplete (m : PartialMessage) : bool := m_received m =? m_fragCount m.

Definition payload_bytes (payloads : list (option Block)) : list Z := payloads ≫= (λ b, match b with Some b => b_value b | None => [] end).

Section reassemble.
Context `{Tlv}.

(** [None] outside: an assertion fails; inside: [(false, Block())] *)
Definition reassemble (m : PartialMessage) : option (option Block) :=
  if negb (isComplete m) then None
  else
    let buffer := payload_bytes (m_payloads m) in
    if negb (size buffer =? m_totalLength m) then None
    else Some (Block_fromBuffer buffer).

Definition reassembleSingle (fragment : NdnlpData) : option (option Block) :=
  if negb (nd_fragCount fragment =? 1) then None
  else Some (blockFromValue (b_value (nd_payload fragment))).
End reassemble.

(** ** The store *)

Record PartialMessageStore := mkStore {
  m_partialMessages : gmap Z PartialMessage;
  m_idleDuration : Z;
  st_scheduled : gmap positive (Z * Z);   (* the pending cleanups: time, message *)
  st_next : positive
}.

Definition PartialMessageStore_new (idleDuration : Z) : PartialMessageStore := mkStore ∅ idleDuration ∅ 1.

(** The assignment to [expiry] cancels the event it held. *)
Definition scheduleCleanup (now messageIdentifier : Z) (m : PartialMessage) (st : PartialMessageStore) : PartialMessage * PartialMessageStore :=
  let id := st_next st in
  let scheduled := <[id := (now + m_idleDuration st, messageIdentifier)]> (st_scheduled st) in
  (mkPartialMessage (Some id) (m_fragCount m) (m_received m) (m_payloads m) (m_totalLength m),
   mkStore (m_partialMessages st) (m_idleDuration st) (cancel_event (pm_expiry m) scheduled) (Pos.succ id)).

(** [m_partialMessages.erase]: the destructor of [expiry] cancels its event. *)
Definition erase_message (messageIdentifier : Z) (st : PartialMessageStore) : PartialMessageStore :=
  match m_partialMessages st !! messageIdentifier with
  | Some m => mkStore (delete messageIdentifier (m_partialMessages st)) (m_idleDuration st) (cancel_event (pm_expiry m) (st_scheduled st)) (st_next st)
  | None => st
  end.
Definition put_message (messageIdentifier : Z) (m : PartialMessage) (st : PartialMessageStore) : PartialMessageStore :=
  mkStore (<[messageIdentifier := m]> (m_partialMessages st)) (m_idleDuration st) (st_scheduled st) (st_next st).

Definition cleanup : Z → PartialMessageStore → PartialMessageStore := erase_message.

(** The scheduler runs an event. *)
Definition fire_cleanup (id : positive) (st : PartialMessageStore) : option PartialMessageStore :=
  '(_, messageIdentifier) ← st_scheduled st !! id;
  Some (cleanup messageIdentifier (mkStore (m_partialMessages st) (m_idleDuration st) (delete id (st_scheduled st)) (st_next st))).

Section store.
Context `{Tlv}.

(** The result has the block that [onReceive] is emitted with, if it is. *)
Definition receive (now : Z) (pkt : NdnlpData) (st : PartialMessageStore) : option (option Block * PartialMessageStore) :=
  if nd_fragCount pkt =? 1 then reassembled ← reassembleSingle pkt; Some (reassembled, st)
  else
    let messageIdentifier := u64 (nd_seq pkt - nd_fragIndex pkt) in
    let pm := default PartialMessage_new (m_partialMessages st !! messageIdentifier) in
    let '(pm, st) := scheduleCleanup now messageIdentifier pm st in
    let '(_, pm) := PartialMessage_add (nd_fragIndex pkt) (nd_fragCount pkt) (nd_payload pkt) pm in
    let st := put_message messageIdentifier pm st in
    if isComplete pm then reassembled ← reassemble pm; Some (reassembled, erase_message messageIdentifier st)
    else Some (None, st).

(** Packets that come in one after the other, each at its time *)
Fixpoint receive_all (l : list (Z * NdnlpData)) (st : PartialMessageStore) : option (list (option Block) * PartialMessageStore) :=
  match l with
  | [] => Some ([], st)
  | (now, pkt) :: l => '(o, st) ← receive now pkt st; '(os, st) ← receive_all l st; Some (o :: os, st)
  end.
End store.

(** ** Fragments fit the MTU *)

Section slicer_spec.
Context `{Tlv, !TlvLaws}.

Lemma tlv_size_spec type l : size (tlv type l) = tlv_size type (size l).
Proof. unfold tlv, tlv_size. rewrite !size_app. lia. Qed.

Lemma estimateFragment_spec seq fragIndex fragCount payload :
  size (encodeFragment seq fragIndex fragCount payload) = estimateFragment seq fragIndex fragCount (size payload).
Proof.
  unfold encodeFragment, estimateFragment. rewrite tlv_size_spec, size_app, tlv_size_spec, size_be_bytes. change (Z.of_nat 8) with 8. f_equal.
  destruct (1 <? fragCount); rewrite ?size_app, !tlv_size_spec; lia.
Qed.

(** The bytes of an element besides its value, which grow with the value *)
Lemma tlv_size_mono type m n : 0 <= m <= n → tlv_size type m - m <= tlv_size type n - n ∧ m <= tlv_size type m.
Proof.
  intros Hmn. unfold tlv_size. pose proof (VarNumber_mono m n Hmn). pose proof (size_nonneg (VarNumber m)).
  pose proof (size_nonneg (VarNumber type)). lia.
Qed.

(** The header of any fragment is no longer than the one estimated. *)
Lemma estimate_mono seq fragIndex fragCount m n :
  0 <= fragIndex < 2 ^ 16 - 1 → 0 <= fragCount < 2 ^ 16 → 0 <= m <= n →
  estimateFragment seq fragIndex fragCount m - m <= estimateFragment (2 ^ 64 - 1) (2 ^ 16 - 1 - 1) (2 ^ 16 - 1) n - n ∧
  m <= estimateFragment seq fragIndex fragCount m.
Proof.
  intros Hi Hc Hm. unfold estimateFragment. change (1 <? 2 ^ 16 - 1) with true. cbv beta iota zeta.
  set (ci := size (NonNegativeInteger fragIndex)). set (cc := size (NonNegativeInteger fragCount)).
  set (di := size (NonNegativeInteger (2 ^ 16 - 1 - 1))). set (dc := size (NonNegativeInteger (2 ^ 16 - 1))).
  assert (Hci : 0 <= ci <= di) by (split; [apply size_nonneg|apply NonNegativeInteger_mono; lia]).
  assert (Hcc : 0 <= cc <= dc) by (split; [apply size_nonneg|apply NonNegativeInteger_mono; lia]).
  destruct (tlv_size_mono NdnlpPayload_type m n Hm) as [P1 P2]. destruct (tlv_size_mono NdnlpFragIndex_type ci di Hci) as [I1 I2].
  destruct (tlv_size_mono NdnlpFragCount_type cc dc Hcc) as [C1 C2].
  destruct (tlv_size_mono NdnlpFragIndex_type di di) as [_ I3]; [lia|].
  destruct (tlv_size_mono NdnlpFragCount_type dc dc) as [_ C3]; [lia|].
  set (s := tlv_size NdnlpSequence_type 8). assert (Hs : 8 <= s) by (apply (tlv_size_mono _ 8 8); lia).
  set (x := (if 1 <? fragCount then _ else _) + s). set (y := _ + s).
  assert (Hxy : m <= x ∧ x <= y ∧ x - m <= y - n) by (unfold x, y; destruct (1 <? fragCount); lia).
  destruct (tlv_size_mono NdnlpData_type x y) as [D1 D2]; [lia|]. lia.
Qed.

(** *** Slicing *)

(** Each packet has room for some payload. *)
Record slicer_ok (s : Slicer) : Prop := {
  so_seqgen : in_u64 (m_seqgen s);
  so_mtu : 0 <= m_mtu s < 2 ^ 63;
  so_maxPayload : 0 < m_maxPayload s;
  so_estimate : m_maxPayload s = 2 * m_mtu s - estimateFragment (2 ^ 64 - 1) (2 ^ 16 - 1 - 1) (2 ^ 16 - 1) (m_mtu s)
}.

Definition overhead (mtu : Z) : Z := estimateFragment (2 ^ 64 - 1) (2 ^ 16 - 1 - 1) (2 ^ 16 - 1) mtu - mtu.

Lemma overhead_pos mtu : 0 <= mtu → 0 <= overhead mtu.
Proof. intros Hm. unfold overhead. destruct (estimate_mono 0 0 0 0 mtu) as [? ?]; lia. Qed.

Lemma Slicer_new_ok mtu : 0 <= mtu < 2 ^ 63 → overhead mtu < mtu → slicer_ok (Slicer_new mtu).
Proof.
  intros Hm Ho. pose proof (overhead_pos mtu) as Hp. unfold Slicer_new, estimateOverhead. fold (overhead mtu).
  rewrite (u64_small (overhead mtu)) by (split; lia). rewrite (u64_small (mtu - overhead mtu)) by (split; lia).
  split; simpl; [split; done|done|lia|unfold overhead; lia].
Qed.

(** The number of fragments, and their payloads *)
Definition nFragments (s : Slicer) (n : Z) : Z := n / m_maxPayload s + (if n mod m_maxPayload s =? 0 then 0 else 1).
Definition chunk (s : Slicer) (wire : list Z) (k : Z) : list Z :=
  take (Z.to_nat (m_maxPayload s)) (drop (Z.to_nat (k * m_maxPayload s)) wire).

Lemma nFragments_bounds s n : 0 < m_maxPayload s → 0 <= n →
  0 <= nFragments s n ∧ n <= nFragments s n * m_maxPayload s < n + m_maxPayload s.
Proof.
  intros Hp Hn. unfold nFragments. pose proof (Z.div_mod n (m_maxPayload s)). pose proof (Z.mod_pos_bound n (m_maxPayload s) Hp).
  assert (0 <= n / m_maxPayload s) by (apply Z.div_pos; lia). destruct (Z.eqb_spec (n mod m_maxPayload s) 0); nia.
Qed.

Lemma chunks_concat s wire n : 0 < m_maxPayload s → size wire <= Z.of_nat n * m_maxPayload s →
  concat (chunk s wire <$> seqZ 0 (Z.of_nat n)) = wire.
Proof.
  intros Hp. revert wire. induction n as [|n IH]; intros wire Hw.
  - destruct wire; [done|]. rewrite size_cons in Hw. pose proof (size_nonneg wire). lia.
  - rewrite seqZ_cons by lia. csimpl. unfold chunk at 1. simpl.
    replace (Z.pred (Z.of_nat (S n))) with (Z.of_nat n) by lia.
    rewrite <-(take_drop (Z.to_nat (m_maxPayload s)) wire) at 3. f_equal.
    rewrite <-(IH (drop (Z.to_nat (m_maxPayload s)) wire)) at 1.
    + f_equal. change (Z.succ 0) with (1 + 0). rewrite <-fmap_add_seqZ, <-list_fmap_compose. apply list_fmap_ext.
      intros i x [-> _]%lookup_seqZ. unfold compose, chunk. f_equal. rewrite drop_drop. f_equal. lia.
    + unfold size in *. rewrite length_drop. lia.
Qed.

Lemma size_chunk s wire k : 0 < m_maxPayload s → size (chunk s wire k) <= m_maxPayload s.
Proof. intros Hp. unfold chunk, size. rewrite length_take. lia. Qed.

Lemma slice_fragment_spec s wire n k : slicer_ok s → size wire < 2 ^ 63 → n = nFragments s (size wire) → n < 2 ^ 16 → 0 <= k < n →
  slice_fragment s wire (mkSequenceBlock (m_seqgen s) n) n k = Some (encodeFragment (u64 (m_seqgen s + k)) k n (chunk s wire k)) ∧
  size (encodeFragment (u64 (m_seqgen s + k)) k n (chunk s wire k)) <= m_mtu s.
Proof.
  intros [Hg Hm Hp He] Hw Hn Hn16 Hk. pose proof (size_nonneg wire) as Hw0.
  destruct (nFragments_bounds s (size wire) Hp Hw0) as [_ Hb]. rewrite <-Hn in Hb.
  assert (Hoff : 0 <= k * m_maxPayload s < size wire) by nia.
  pose proof (size_chunk s wire k Hp) as Hc. pose proof (size_nonneg (chunk s wire k)) as Hc0.
  pose proof (overhead_pos (m_mtu s) ltac:(lia)) as Ho. unfold overhead in Ho.
  assert (Hfit : size (encodeFragment (u64 (m_seqgen s + k)) k n (chunk s wire k)) <= m_mtu s).
  { rewrite estimateFragment_spec.
    destruct (estimate_mono (u64 (m_seqgen s + k)) k n (size (chunk s wire k)) (m_mtu s)) as [E1 _]; lia. }
  split; [|done]. unfold slice_fragment, SequenceBlock_at. simpl.
  rewrite (proj2 (Z.leb_gt _ _)) by lia. simpl.
  rewrite (u64_small (k * _)) by (split; lia). rewrite (u64_small (size wire - _)) by (split; lia).
  assert (Et : take (Z.to_nat (Z.min (m_maxPayload s) (size wire - k * m_maxPayload s))) (drop (Z.to_nat (k * m_maxPayload s)) wire) = chunk s wire k).
  { unfold chunk. destruct (Z.min_spec (m_maxPayload s) (size wire - k * m_maxPayload s)) as [[_ ->]|[Hle ->]]; [done|].
    rewrite !take_ge; [done|unfold size in *; rewrite length_drop; lia..]. }
  rewrite Et. by rewrite (proj2 (Z.leb_le _ _)) by exact Hfit.
Qed.

Lemma mapM_total {A B} (f : A → option B) (g : A → B) l : (∀ x, x ∈ l → f x = Some (g x)) → mapM f l = Some (g <$> l).
Proof.
  induction l as [|x l IH]; intros Hf; [done|]. rewrite fmap_cons.
  change (mapM f (x :: l)) with (y ← f x; k ← mapM f l; Some (y :: k)). rewrite Hf by set_solver. simpl. by rewrite IH by set_solver.
Qed.

(** A packet of up to 65535 fragments: they carry the packet, are numbered one after
    the other, and fit the MTU. *)
Lemma slice_spec s wire : slicer_ok s → size wire < 2 ^ 63 → nFragments s (size wire) < 2 ^ 16 →
  let n := nFragments s (size wire) in
  let fragment k := encodeFragment (u64 (m_seqgen s + k)) k n (chunk s wire k) in
  slice s wire = Some (fragment <$> seqZ 0 n, mkSlicer (u64 (m_seqgen s + n)) (m_mtu s) (m_maxPayload s)) ∧
  ∀ k, 0 <= k < n → size (fragment k) <= m_mtu s.
Proof.
  intros Hs Hw Hn n fragment. pose proof (so_maxPayload _ Hs) as Hp. pose proof (size_nonneg wire) as Hw0.
  destruct (nFragments_bounds s (size wire) Hp Hw0) as [Hn0 _].
  assert (Hf : ∀ k, 0 <= k < n → slice_fragment s wire (mkSequenceBlock (m_seqgen s) n) n k = Some (fragment k) ∧ size (fragment k) <= m_mtu s).
  { intros k Hk. by apply slice_fragment_spec. }
  split; [|intros k Hk; by apply Hf].
  unfold slice. rewrite (proj2 (Z.eqb_neq _ _)) by lia. fold (nFragments s (size wire)). fold n.
  assert (En : u16 n = n) by (apply u16_small; unfold n; lia). rewrite En. simpl.
  rewrite (mapM_total _ fragment); [done|]. intros k Hk%elem_of_seqZ. apply Hf. lia.
Qed.

(** More fragments than 65535: the count is cut to 16 bits, and so is the packet. *)
Lemma slice_overflow s wire : slicer_ok s → nFragments s (size wire) = 2 ^ 16 → slice s wire = Some ([], s).
Proof.
  intros [Hg _ Hp _] Hn. unfold slice. rewrite (proj2 (Z.eqb_neq _ _)) by lia. fold (nFragments s (size wire)). rewrite Hn.
  change (u16 (2 ^ 16)) with 0. simpl. rewrite Z.add_0_r, u64_small by done. by destruct s.
Qed.

(** ** Parsing undoes encoding *)

Definition fragment_block (seq fragIndex fragCount : Z) (payload : list Z) : Block :=
  Block_of NdnlpData_type (tlv NdnlpSequence_type (be_bytes 8 seq) ++
    (if 1 <? fragCount then tlv NdnlpFragIndex_type (NonNegativeInteger fragIndex) ++ tlv NdnlpFragCount_type (NonNegativeInteger fragCount) ++ tlv NdnlpPayload_type payload
     else tlv NdnlpPayload_type payload)).

Lemma parse_two t1 v1 t2 v2 : in_u32 t1 → in_u32 t2 → in_size (size v1) → in_size (size v2) →
  Block_parse (tlv t1 v1 ++ tlv t2 v2) = Some [Block_of t1 v1; Block_of t2 v2].
Proof.
  intros ????. rewrite Block_parse_cons by done. rewrite <-(app_nil_r (tlv t2 v2)), Block_parse_cons by done. by rewrite Block_parse_nil.
Qed.

Lemma fromBlock_encode seq fragIndex fragCount payload rest : in_u64 seq → 0 <= fragIndex < fragCount → fragCount < 2 ^ 16 →
  size (encodeFragment seq fragIndex fragCount payload) < 2 ^ 63 →
  Block_fromBuffer (encodeFragment seq fragIndex fragCount payload ++ rest) = Some (fragment_block seq fragIndex fragCount payload) ∧
  NdnlpData_fromBlock (fragment_block seq fragIndex fragCount payload) =
    Some (true, mkNdnlpData seq fragIndex fragCount (Block_of NdnlpPayload_type payload)).
Proof.
  intros Hseq Hi Hc Hsize. unfold encodeFragment in Hsize. rewrite tlv_size_spec, size_app in Hsize.
  set (inner := if 1 <? fragCount then _ else _) in Hsize.
  set (value := tlv NdnlpSequence_type (be_bytes 8 seq) ++ inner).
  pose proof (size_nonneg (tlv NdnlpSequence_type (be_bytes 8 seq))) as Hs0. pose proof (size_nonneg inner) as Hi0.
  assert (Hv : 0 <= size value < 2 ^ 63).
  { unfold value. rewrite size_app. destruct (tlv_size_mono NdnlpData_type _ _ (conj (Z.add_nonneg_nonneg _ _ Hs0 Hi0) (Z.le_refl _))). lia. }
  assert (Hp : in_size (size payload)).
  { pose proof (size_nonneg payload). unfold value in Hv. rewrite size_app in Hv.
    assert (size payload <= size inner); [|split; lia]. pose proof (tlv_size_mono NdnlpPayload_type (size payload) (size payload)) as [_ Hm]; [lia|].
    rewrite <-tlv_size_spec in Hm. unfold inner. destruct (1 <? fragCount); rewrite ?size_app; pose proof (size_nonneg (tlv NdnlpFragIndex_type (NonNegativeInteger fragIndex)));
      pose proof (size_nonneg (tlv NdnlpFragCount_type (NonNegativeInteger fragCount))); lia. }
  assert (Hnni : ∀ n, 0 <= n < 2 ^ 16 → in_size (size (NonNegativeInteger n))).
  { intros n Hn. pose proof (NonNegativeInteger_size n ltac:(split; lia)). pose proof (size_nonneg (NonNegativeInteger n)). split; lia. }
  assert (H8 : in_size (size (be_bytes 8 seq))) by (rewrite size_be_bytes; split; lia).
  split; [apply Block_fromBuffer_tlv; [done|split; fold inner value; lia]|].
  unfold NdnlpData_fromBlock, fragment_block. simpl b_type. simpl b_value. rewrite Z.eqb_refl. cbv beta iota delta [negb].
  unfold NdnlpFragIndex_type, NdnlpFragCount_type, NdnlpPayload_type, NdnlpSequence_type in *.
  destruct (Z.ltb_spec 1 fragCount) as [H1|H1].
  - pose proof (Hnni fragIndex ltac:(lia)) as Hsi. pose proof (Hnni fragCount ltac:(lia)) as Hsc.
    assert (H81 : in_u32 81 ∧ in_u32 82 ∧ in_u32 83 ∧ in_u32 84) by by repeat split. destruct H81 as (? & ? & ? & ?).
    rewrite !Block_parse_cons, <-(app_nil_r (tlv 84 payload)), Block_parse_cons, Block_parse_nil by done. simpl.
    rewrite be_number_inv by (change (256 ^ Z.of_nat 8) with (2 ^ 64); destruct Hseq; lia).
    rewrite readNonNegativeInteger_encode by (split; lia). simpl. rewrite (proj2 (Z.ltb_ge _ _)) by lia.
    rewrite readNonNegativeInteger_encode by (split; lia). simpl. rewrite (proj2 (Z.ltb_ge _ _)) by lia.
    rewrite !u16_small by lia. by rewrite (proj2 (Z.leb_gt _ _)) by lia.
  - assert (fragCount = 1 ∧ fragIndex = 0) as [-> ->] by lia. rewrite parse_two by (done || by split). simpl.
    by rewrite be_number_inv by (change (256 ^ Z.of_nat 8) with (2 ^ 64); destruct Hseq; lia).
Qed.
End slicer_spec.

(** What is parsed has an index below the count. *)
Lemma fromBlock_ok `{Tlv} blk p : NdnlpData_fromBlock blk = Some (true, p) → 0 <= nd_fragIndex p < nd_fragCount p ∧ nd_fragCount p < 2 ^ 16.
Proof.
  unfold NdnlpData_fromBlock. intros E. repeat (case_match; simplify_option_eq; try done).
  split; [split; [apply u16_range|by apply Z.leb_gt]|apply u16_range].
Qed.

(** ** Partial messages *)

Record pm_ok (m : PartialMessage) : Prop := {
  pm_count : 0 <= m_fragCount m;
  pm_length : length (m_payloads m) = Z.to_nat (m_fragCount m);
  pm_received : m_received m = Z.of_nat (length (omap id (m_payloads m)));
  pm_total : m_totalLength m = size (payload_bytes (m_payloads m))
}.

Section payloads.
Implicit Types l : list (option Block).

Lemma payload_bytes_app l1 l2 : payload_bytes (l1 ++ l2) = payload_bytes l1 ++ payload_bytes l2.
Proof. apply bind_app. Qed.

Lemma payloads_put l k b : l !! k = Some None →
  size (payload_bytes (<[k := Some b]> l)) = size (payload_bytes l) + size (b_value b) ∧
  length (omap id (<[k := Some b]> l)) = S (length (omap id l)).
Proof.
  intros Hk. pose proof (lookup_lt_Some _ _ _ Hk) as Hl. rewrite insert_take_drop by done.
  rewrite <-(take_drop_middle l k None Hk) at 3 6. rewrite !payload_bytes_app, !size_app, !omap_app, !length_app. simpl. rewrite size_app. lia.
Qed.

Lemma omap_id_length l : (length (omap id l) <= length l)%nat ∧ (length (omap id l) = length l ↔ None ∉ l).
Proof.
  induction l as [|[b|] l [IH1 IH2]]; csimpl; [set_solver| |]; rewrite not_elem_of_cons.
  - split; [lia|]. split; [intros E; split; [done|apply IH2; lia]|intros [_ Hn]; f_equal; by apply IH2].
  - split; [lia|]. split; [lia|intros [Hn _]; done].
Qed.

Lemma replicate_none n : omap id (replicate n (None : option Block)) = [] ∧ payload_bytes (replicate n None) = [].
Proof. induction n as [|n [IH1 IH2]]; [done|]. by split. Qed.
End payloads.

(** The message after its first packet has set the number of fragments *)
Definition begun (fragCount : Z) (m : PartialMessage) : PartialMessage :=
  if m_received m =? 0
  then mkPartialMessage (pm_expiry m) fragCount (m_received m) (resize (Z.to_nat fragCount) None (m_payloads m)) (m_totalLength m)
  else m.

Lemma begun_idle fragCount m : m_received m ≠ 0 → begun fragCount m = m.
Proof. intros Hm. unfold begun. by rewrite (proj2 (Z.eqb_neq _ _)). Qed.

Definition started (m : PartialMessage) : Prop := m_received m = 0 → m_payloads m = [].

Lemma begun_ok fragCount m : 0 <= fragCount → pm_ok m → started m → pm_ok (begun fragCount m) ∧ pm_expiry (begun fragCount m) = pm_expiry m.
Proof.
  intros Hc [C L R T] Hs. unfold begun. destruct (Z.eqb_spec (m_received m) 0) as [E|E]; [|done].
  specialize (Hs E). rewrite Hs in *. rewrite resize_nil. destruct (replicate_none (Z.to_nat fragCount)) as [E1 E2].
  split; [|done]. split; simpl; rewrite ?length_replicate, ?E1, ?E2; done.
Qed.

Lemma PartialMessage_add_eq fragIndex fragCount payload m : 0 <= fragIndex < fragCount → pm_ok m → started m →
  let m0 := begun fragCount m in
  PartialMessage_add fragIndex fragCount payload m =
    if decide (m_fragCount m0 = fragCount ∧ m_payloads m0 !! Z.to_nat fragIndex = Some None)
    then (true, mkPartialMessage (pm_expiry m0) (m_fragCount m0) (m_received m0 + 1) (<[Z.to_nat fragIndex := Some payload]> (m_payloads m0))
                  (m_totalLength m0 + size (b_value payload)))
    else (false, m0).
Proof.
  intros Hi Ho Hs m0. unfold PartialMessage_add. fold (begun fragCount m). fold m0.
  destruct (Z.eqb_spec (m_fragCount m0) fragCount) as [E|E]; simpl; [|by rewrite decide_False by naive_solver].
  rewrite (proj2 (Z.leb_gt _ _)) by lia. destruct (m_payloads m0 !! Z.to_nat fragIndex) as [[b|]|] eqn:Ek;
    [by rewrite decide_False by naive_solver|by rewrite decide_True by done|by rewrite decide_False by naive_solver].
Qed.

(** A packet leaves the message with at least one payload. *)
Lemma PartialMessage_add_spec fragIndex fragCount payload m : 0 <= fragIndex < fragCount → pm_ok m → started m →
  let m' := (PartialMessage_add fragIndex fragCount payload m).2 in
  pm_ok m' ∧ pm_expiry m' = pm_expiry m ∧ 0 < m_received m' <= m_fragCount m'.
Proof.
  intros Hi Ho Hs m'. destruct (begun_ok fragCount m ltac:(lia) Ho Hs) as [[C L R T] Ee]. unfold m'.
  rewrite PartialMessage_add_eq by done. set (m0 := begun fragCount m) in *.
  assert (Hb : m_received m0 <= m_fragCount m0).
  { rewrite R. destruct (omap_id_length (m_payloads m0)) as [Hl _]. lia. }
  destruct (decide _) as [[En Ek]|Hno]; simpl.
  - destruct (payloads_put _ _ payload Ek) as [Et El].
    assert (Ho' : pm_ok (mkPartialMessage (pm_expiry m0) (m_fragCount m0) (m_received m0 + 1) (<[Z.to_nat fragIndex := Some payload]> (m_payloads m0))
      (m_totalLength m0 + size (b_value payload)))) by (split; simpl; rewrite ?length_insert; [done|done|rewrite El; lia|rewrite Et; lia]).
    split; [done|]. split; [done|]. rewrite R. split; [lia|].
    destruct (omap_id_length (<[Z.to_nat fragIndex := Some payload]> (m_payloads m0))) as [Hl _]. rewrite El, length_insert in Hl. lia.
  - split; [done|]. split; [done|]. split; [|done].
    assert (m_received m0 ≠ 0); [|rewrite R in *; lia]. intros E. apply Hno. unfold m0, begun in *.
    destruct (Z.eqb_spec (m_received m) 0) as [E0|E0]; [|done]. simpl. split; [done|]. rewrite (Hs E0), resize_nil.
    apply lookup_replicate. split; [done|lia].
Qed.

Section reassemble_spec.
Context `{Tlv}.

(** The assertions of [reassemble] hold. *)
Lemma reassemble_spec m : pm_ok m → isComplete m = true → reassemble m = Some (Block_fromBuffer (payload_bytes (m_payloads m))).
Proof. intros [_ _ _ T] Hc. unfold reassemble. by rewrite Hc, T, Z.eqb_refl. Qed.
End reassemble_spec.

(** ** The store's invariant *)

(** Each message has one cleanup, at most the idle duration from now. *)
Record store_inv (good : Z → PartialMessage → Prop) (now : Z) (st : PartialMessageStore) : Prop := {
  st_idle : 0 <= m_idleDuration st;
  st_timers : timers_inv pm_expiry good (m_partialMessages st) (st_scheduled st) (st_next st);
  st_due ev t id : st_scheduled st !! ev = Some (t, id) → t <= now + m_idleDuration st
}.

(** Messages are well-formed and incomplete. *)
Definition partial (m : PartialMessage) : Prop := pm_ok m ∧ 0 < m_received m < m_fragCount m.
Definition store_ok : Z → PartialMessageStore → Prop := store_inv (λ _, partial).

Definition pkt_ok (p : NdnlpData) : Prop := 0 <= nd_fragIndex p < nd_fragCount p.
Definition message_id (p : NdnlpData) : Z := u64 (nd_seq p - nd_fragIndex p).

Lemma PartialMessageStore_new_ok now idle : 0 <= idle → store_ok now (PartialMessageStore_new idle).
Proof. intros Hi. split; [done|apply timers_empty|done]. Qed.

Lemma store_later good now now' st : now <= now' → store_inv good now st → store_inv good now' st.
Proof. intros Hn [A B C]. split; [done|done|]. intros ev t id He. specialize (C ev t id He). lia. Qed.

Lemma cancel_event_Some (o : option positive) (m : gmap positive (Z * Z)) ev x : cancel_event o m !! ev = Some x → m !! ev = Some x.
Proof. destruct o; simpl; [|done]. by intros [_ ?]%lookup_delete_Some. Qed.

Lemma erase_message_spec (good good' : Z → PartialMessage → Prop) now id st : (∀ id' m, id' ≠ id → good id' m → good' id' m) →
  store_inv good now st →
  store_inv good' now (erase_message id st) ∧ m_partialMessages (erase_message id st) = delete id (m_partialMessages st).
Proof.
  intros Hg [A B C]. pose proof (timers_erase pm_expiry good good' id Hg _ _ _ B) as B'. unfold erase_message.
  destruct (m_partialMessages st !! id) as [m|] eqn:Em; simpl in B'.
  - split; [|done]. split; [done|done|]. intros ev t id' He%cancel_event_Some. by apply (C ev t id').
  - rewrite delete_id in B' by done. by rewrite delete_id.
Qed.

(** A cleanup forgets its message. *)
Lemma fire_cleanup_spec now ev t id st : store_ok now st → st_scheduled st !! ev = Some (t, id) →
  ∃ st', fire_cleanup ev st = Some st' ∧ store_ok now st' ∧ m_partialMessages st' = delete id (m_partialMessages st).
Proof.
  intros Hs He. destruct (erase_message_spec (λ _, partial) (λ _, partial) now id st) as [Ho Ed]; [done|done|]. exists (erase_message id st).
  destruct (ti_event _ _ _ _ _ (st_timers _ _ _ Hs) ev t id He) as (_ & m & Hm & Eev).
  split; [|done]. unfold fire_cleanup. rewrite He. simpl. f_equal. unfold cleanup, erase_message. simpl. rewrite Hm, Eev. simpl. f_equal.
  by rewrite (delete_id (delete ev _)) by apply lookup_delete_eq.
Qed.

(** A message is made or changed, and its cleanup put off. *)
Lemma put_spec (good good' : Z → PartialMessage → Prop) now id st m' : (∀ id' m, id' ≠ id → good id' m → good' id' m) →
  store_inv good now st → good' id m' → pm_expiry m' = Some (st_next st) →
  let st1 := (scheduleCleanup now id (default PartialMessage_new (m_partialMessages st !! id)) st).2 in
  store_inv good' now (put_message id m' st1) ∧ m_partialMessages (put_message id m' st1) = <[id := m']> (m_partialMessages st).
Proof.
  intros Hg [A B C] Hm' He' st1. split; [|done].
  assert (Esch : st_scheduled st1 = <[st_next st := (now + m_idleDuration st, id)]> (cancel_event (m_partialMessages st !! id ≫= pm_expiry) (st_scheduled st))).
  { rewrite <-(cancel_after_schedule _ _ _ _ _ _ _ B). by destruct (m_partialMessages st !! id). }
  split; [done| |].
  - change (timers_inv pm_expiry good' (<[id := m']> (m_partialMessages st)) (st_scheduled st1) (Pos.succ (st_next st))).
    rewrite Esch. by apply (timers_put pm_expiry good good').
  - intros ev t id' Hev. change (st_scheduled st1 !! ev = Some (t, id')) in Hev. rewrite Esch in Hev. simpl.
    apply lookup_insert_Some in Hev as [[_ [= <- _]]|[_ Hev%cancel_event_Some]]; [lia|by eapply C].
Qed.

(** ** Receiving *)

Section receive_spec.
Context `{Tlv}.

Lemma stored_ok good now id st : (∀ m, good id m → partial m) → store_inv good now st →
  let m := default PartialMessage_new (m_partialMessages st !! id) in pm_ok m ∧ started m.
Proof.
  intros Hg Hs m. unfold m. destruct (m_partialMessages st !! id) as [m0|] eqn:Em; simpl; [|by repeat split].
  destruct (ti_entry _ _ _ _ _ (st_timers _ _ _ Hs) id m0 Em) as [Hm _]. destruct (Hg _ Hm) as [Ho Hr]. split; [done|]. intros ?. lia.
Qed.

Definition with_expiry (ev : positive) (m : PartialMessage) : PartialMessage :=
  mkPartialMessage (Some ev) (m_fragCount m) (m_received m) (m_payloads m) (m_totalLength m).

(** The message after a fragment: kept if incomplete, otherwise put together. *)
Lemma receive_spec now p st : store_ok now st → pkt_ok p → nd_fragCount p ≠ 1 →
  let id := message_id p in
  let m := default PartialMessage_new (m_partialMessages st !! id) in
  let m' := (PartialMessage_add (nd_fragIndex p) (nd_fragCount p) (nd_payload p) (with_expiry (st_next st) m)).2 in
  pm_ok m' ∧ 0 < m_received m' <= m_fragCount m' ∧
  ∃ st', store_ok now st' ∧
    receive now p st = Some (if isComplete m' then Block_fromBuffer (payload_bytes (m_payloads m')) else None, st') ∧
    m_partialMessages st' = if isComplete m' then delete id (m_partialMessages st) else <[id := m']> (m_partialMessages st).
Proof.
  intros Hs Hp Hne id m m'. destruct (stored_ok _ now id st (λ m H, H) Hs) as [Hm Hst]. fold m in Hm, Hst.
  destruct (PartialMessage_add_spec (nd_fragIndex p) (nd_fragCount p) (nd_payload p) (with_expiry (st_next st) m)) as (Ho & Ee & Hr);
    [done|by destruct Hm|done|]. fold m' in Ho, Ee, Hr. split; [done|]. split; [done|].
  unfold receive. rewrite (proj2 (Z.eqb_neq _ _)) by done. fold (message_id p). fold id. fold m.
  unfold scheduleCleanup at 1. fold (with_expiry (st_next st) m).
  destruct (PartialMessage_add _ _ _ _) as [b m2] eqn:Ea. simpl in m'. subst m'.
  set (st1 := mkStore _ _ _ _). change st1 with (scheduleCleanup now id m st).2.
  destruct (isComplete m2) eqn:Ec.
  - rewrite reassemble_spec by done. simpl.
    destruct (put_spec (λ _, partial) (λ id' m, id' ≠ id → partial m) now id st m2) as [Hi Ep]; [done|done|done|done|].
    destruct (erase_message_spec (λ id' m, id' ≠ id → partial m) (λ _, partial) now id _ ltac:(naive_solver) Hi) as [Ho' Ed].
    eexists. split; [exact Ho'|]. split; [done|]. rewrite Ed, Ep. by rewrite delete_insert_eq.
  - destruct (put_spec (λ _, partial) (λ _, partial) now id st m2) as [Hi Ep]; [done|done| |done|].
    { split; [done|]. unfold isComplete in Ec. apply Z.eqb_neq in Ec. lia. }
    eexists. split; [exact Hi|]. done.
Qed.

(** No packet trips an assertion, and the store stays well-formed. *)
Lemma receive_ok now p st : store_ok now st → pkt_ok p → ∃ o st', receive now p st = Some (o, st') ∧ store_ok now st' ∧
  (nd_fragCount p = 1 → st' = st) ∧ ∀ id, id ≠ message_id p → m_partialMessages st' !! id = m_partialMessages st !! id.
Proof.
  intros Hs Hp. destruct (decide (nd_fragCount p = 1)) as [E1|E1].
  - unfold receive, reassembleSingle. rewrite E1. simpl. eauto 10.
  - destruct (receive_spec now p st Hs Hp E1) as (_ & _ & st' & Hs' & Er & Em). rewrite Er. eexists _, st'. split_and!; [done|done|done|].
    intros id Hid. rewrite Em. case_match; [by rewrite lookup_delete_ne|by rewrite lookup_insert_ne].
Qed.
End receive_spec.

(** ** Collecting a message *)

Section collecting.
Context `{Tlv}.

(** The payloads that have come in: those with an index in [got] *)
Definition progress (pays : list Block) (got : gset nat) : list (option Block) :=
  imap (λ k b, if decide (k ∈ got) then Some b else None) pays.

Definition collects (st : PartialMessageStore) (id : Z) (pays : list Block) (got : gset nat) : Prop :=
  match m_partialMessages st !! id with
  | None => got = ∅
  | Some m => m_fragCount m = Z.of_nat (length pays) ∧ m_payloads m = progress pays got
  end.

Lemma progress_lookup pays got k : progress pays got !! k = (λ b, if decide (k ∈ got) then Some b else None) <$> pays !! k.
Proof. apply list_lookup_imap. Qed.

Lemma progress_put pays got k b : pays !! k = Some b → <[k := Some b]> (progress pays got) = progress pays ({[k]} ∪ got).
Proof.
  intros Hk. apply list_eq. intros j. rewrite progress_lookup. destruct (decide (j = k)) as [->|Hj].
  - rewrite list_lookup_insert_eq by (unfold progress; rewrite length_imap; by eapply lookup_lt_Some).
    rewrite Hk. simpl. by rewrite decide_True by set_solver.
  - rewrite list_lookup_insert_ne, progress_lookup by done. destruct (pays !! j); [|done]. simpl. do 2 f_equal.
    destruct (decide (j ∈ got)); [by rewrite decide_True by set_solver|by rewrite decide_False by set_solver].
Qed.

Lemma progress_empty pays : progress pays ∅ = replicate (length pays) None.
Proof.
  apply list_eq. intros j. rewrite progress_lookup. destruct (pays !! j) as [b|] eqn:Ej; simpl.
  - symmetry. apply lookup_replicate. split; [done|by eapply lookup_lt_Some].
  - symmetry. apply lookup_replicate_None. by apply lookup_ge_None.
Qed.

Definition all_got (pays : list Block) (got : gset nat) : Prop := ∀ j, (j < length pays)%nat → j ∈ got.

Lemma progress_all pays got : None ∉ progress pays got ↔ all_got pays got.
Proof.
  split.
  - intros Hn j [b Hj]%lookup_lt_is_Some_2. destruct (decide (j ∈ got)) as [|Hg]; [done|]. destruct Hn.
    apply (list_elem_of_lookup_2 _ j). rewrite progress_lookup, Hj. simpl. by rewrite decide_False.
  - intros Ha [j Hj]%list_elem_of_lookup_1. rewrite progress_lookup in Hj. destruct (pays !! j) as [b|] eqn:Ej; [|done].
    simpl in Hj. rewrite decide_True in Hj; [done|]. apply Ha. by eapply lookup_lt_Some.
Qed.

Lemma progress_bytes pays got : all_got pays got → payload_bytes (progress pays got) = concat (b_value <$> pays).
Proof.
  intros Ha. assert (E : progress pays got = Some <$> pays).
  { apply list_eq. intros j. rewrite progress_lookup, list_lookup_fmap. destruct (pays !! j) as [b|] eqn:Ej; [|done]. simpl.
    rewrite decide_True; [done|]. apply Ha. by eapply lookup_lt_Some. }
  rewrite E. clear. induction pays as [|b pays IH]; [done|]. csimpl. by rewrite IH.
Qed.

(** A packet that is the fragment [k] of the message *)
Definition is_fragment (id : Z) (pays : list Block) (k : nat) (p : NdnlpData) : Prop :=
  message_id p = id ∧ nd_fragIndex p = Z.of_nat k ∧ nd_fragCount p = Z.of_nat (length pays) ∧ pays !! k = Some (nd_payload p).

Lemma collect_step now st id pays got k p : store_ok now st → collects st id pays got → (length pays ≠ 1)%nat → is_fragment id pays k p → k ∉ got →
  ∃ o st', receive now p st = Some (o, st') ∧ store_ok now st' ∧
    (all_got pays ({[k]} ∪ got) → o = Block_fromBuffer (concat (b_value <$> pays)) ∧ m_partialMessages st' !! id = None) ∧
    (¬ all_got pays ({[k]} ∪ got) → o = None ∧ collects st' id pays ({[k]} ∪ got)).
Proof.
  intros Hs Hc Hn (Hid & Hk & Hcount & Hb) Hgot. pose proof (lookup_lt_Some _ _ _ Hb) as Hlt.
  destruct (receive_spec now p st Hs) as (Ho & Hr & st' & Hs' & Er & Em); [unfold pkt_ok; lia|lia|]. rewrite Hid in *.
  set (m := default PartialMessage_new (m_partialMessages st !! id)) in *. set (m1 := with_expiry (st_next st) m) in *.
  destruct (stored_ok _ now id st (λ m H, H) Hs) as [Hm Hst]. fold m in Hm, Hst.
  assert (Hm1 : pm_ok m1) by (by destruct Hm).
  assert (Hb0 : m_fragCount (begun (nd_fragCount p) m1) = Z.of_nat (length pays) ∧ m_payloads (begun (nd_fragCount p) m1) = progress pays got).
  { unfold collects in Hc. destruct (m_partialMessages st !! id) as [m0|] eqn:E0; simpl in m.
    - destruct (ti_entry _ _ _ _ _ (st_timers _ _ _ Hs) id m0 E0) as [[_ Hr0] _]. rewrite begun_idle by (change (m_received m0 ≠ 0); lia). exact Hc.
    - subst got. split; [done|]. simpl. by rewrite resize_nil, progress_empty, Hcount, Nat2Z.id. }
  destruct Hb0 as [Hcnt Hpay].
  assert (Em' : m_fragCount (PartialMessage_add (nd_fragIndex p) (nd_fragCount p) (nd_payload p) m1).2 = Z.of_nat (length pays) ∧
    m_payloads (PartialMessage_add (nd_fragIndex p) (nd_fragCount p) (nd_payload p) m1).2 = progress pays ({[k]} ∪ got)).
  { rewrite PartialMessage_add_eq by (done || lia). rewrite Hcnt, Hpay, Hk, Nat2Z.id, Hcount, decide_True.
    - simpl. split; [done|by apply progress_put].
    - split; [done|]. rewrite progress_lookup, Hb. simpl. by rewrite decide_False. }
  set (m' := (PartialMessage_add _ _ _ _).2) in *. destruct Em' as [Ec Ep]. exists (if isComplete m' then Block_fromBuffer (payload_bytes (m_payloads m')) else None), st'.
  assert (Hcomplete : isComplete m' = true ↔ all_got pays ({[k]} ∪ got)).
  { unfold isComplete. rewrite Z.eqb_eq, (pm_received _ Ho), Ec, Ep, <-progress_all.
    destruct (omap_id_length (progress pays ({[k]} ∪ got))) as [_ <-].
    assert (El : length (progress pays ({[k]} ∪ got)) = length pays) by apply length_imap. rewrite El. lia. }
  split; [done|]. split; [done|]. rewrite Ep. split; intros Ha.
  - rewrite (proj2 Hcomplete Ha) in *. rewrite progress_bytes by done. split; [done|]. rewrite Em. apply lookup_delete_eq.
  - destruct (isComplete m'); [destruct Ha; by apply Hcomplete|]. split; [done|]. unfold collects. rewrite Em, lookup_insert_eq. done.
Qed.

(** What is delivered for the message [id] *)
Definition delivered (id : Z) (l : list (Z * NdnlpData)) (os : list (option Block)) : list Block :=
  omap (λ '((_, p), o), if bool_decide (message_id p = id) then o else None) (zip l os).

Lemma delivered_cons id t p l o os : delivered id ((t, p) :: l) (o :: os) =
  (if decide (message_id p = id) then option_list o else []) ++ delivered id l os.
Proof.
  unfold delivered. simpl. destruct (decide _); [rewrite bool_decide_eq_true_2 by done; by destruct o|by rewrite bool_decide_eq_false_2].
Qed.

Definition own (id : Z) (l : list (Z * NdnlpData)) : list NdnlpData := filter (λ p, message_id p = id) l.*2.

(** Packets in the order of their arrival *)
Fixpoint in_order (now : Z) (l : list (Z * NdnlpData)) : Prop :=
  match l with [] => True | (t, p) :: l => now <= t ∧ pkt_ok p ∧ in_order t l end.

(** The fragments that have not come in yet, each once *)
Record missing (id : Z) (pays : list Block) (got : gset nat) (ps : list NdnlpData) : Prop := {
  mi_fragment p : p ∈ ps → ∃ k, is_fragment id pays k p ∧ k ∉ got;
  mi_all k : (k < length pays)%nat → k ∉ got → ∃ p, p ∈ ps ∧ is_fragment id pays k p;
  mi_once : NoDup (nd_fragIndex <$> ps)
}.

Lemma is_fragment_index id pays k k' p : is_fragment id pays k p → is_fragment id pays k' p → k = k'.
Proof. intros (_ & E1 & _) (_ & E2 & _). lia. Qed.

Lemma missing_next id pays got p ps k : missing id pays got (p :: ps) → is_fragment id pays k p → missing id pays ({[k]} ∪ got) ps.
Proof.
  intros [F A O] Hk. csimpl in O. apply NoDup_cons in O as [Hno O]. split; [| |done].
  - intros q Hq. destruct (F q) as (k' & Hk' & Hg); [by right|]. exists k'. split; [done|]. rewrite not_elem_of_union, not_elem_of_singleton.
    split; [|done]. intros ->. apply Hno. destruct Hk as (_ & -> & _), Hk' as (_ & E & _). apply list_elem_of_fmap. by exists q.
  - intros j Hj Hg. destruct (A j Hj) as (q & [->|Hq]%elem_of_cons & Hf); [set_solver| |by exists q].
    assert (j = k) as -> by (by eapply is_fragment_index). set_solver.
Qed.

(** Packets of other messages deliver nothing for this one. *)
Lemma receive_all_others id l : ∀ now st, in_order now l → store_ok now st → own id l = [] → ∃ os st', receive_all l st = Some (os, st') ∧
  delivered id l os = [] ∧ m_partialMessages st' !! id = m_partialMessages st !! id ∧ ∃ now', store_ok now' st'.
Proof.
  induction l as [|[t p] l IH]; intros now st Ho Hs He; simpl; [by eauto 10|]. destruct Ho as (Ht & Hp & Ho).
  unfold own in He. csimpl in He. rewrite filter_cons in He. destruct (decide (message_id p = id)) as [|Hne]; [done|].
  destruct (receive_ok t p st) as (o & st1 & E1 & Hs1 & _ & Hother); [by eapply store_later|done|].
  destruct (IH t st1 Ho Hs1 He) as (os & st' & E2 & Hd & Hm & Hs'). rewrite E1. simpl. rewrite E2. exists (o :: os), st'.
  split; [done|]. split; [by rewrite delivered_cons, decide_False|]. split; [by rewrite Hm, Hother by congruence|done].
Qed.

Lemma receive_all_collects id pays l : (length pays ≠ 1)%nat → ∀ now st got, in_order now l → store_ok now st → collects st id pays got →
  missing id pays got (own id l) → ¬ all_got pays got →
  ∃ os st', receive_all l st = Some (os, st') ∧ delivered id l os = option_list (Block_fromBuffer (concat (b_value <$> pays))) ∧
    m_partialMessages st' !! id = None ∧ ∃ now', store_ok now' st'.
Proof.
  intros Hn.
  induction l as [|[t p] l IH]; intros now st got Ho Hs Hc Hmi Hnot; simpl.
  { destruct Hnot. intros k Hk. destruct (decide (k ∈ got)); [done|]. destruct (mi_all _ _ _ _ Hmi k Hk) as (p & Hp & _); [done|].
    by apply elem_of_nil in Hp. }
  destruct Ho as (Ht & Hp & Ho). pose proof (store_later _ now t st Ht Hs) as Hst. unfold own in Hmi. csimpl in Hmi. rewrite filter_cons in Hmi.
  destruct (decide (message_id p = id)) as [Hid|Hne]; [|].
  - destruct (mi_fragment _ _ _ _ Hmi p) as (k & Hk & Hg); [by left|]. pose proof (missing_next _ _ _ _ _ _ Hmi Hk) as Hmi'.
    destruct (collect_step t st id pays got k p) as (o & st1 & E1 & Hs1 & Hfull & Hpart); [done..|]. rewrite E1. simpl.
    destruct (decide (Forall (λ j, j ∈ {[k]} ∪ got) (seq 0 (length pays)))) as [Hall|Hall]; rewrite Forall_seq in Hall.
    + destruct Hfull as [-> Hm]; [intros j Hj; apply Hall; lia|].
      destruct (receive_all_others id l t st1 Ho Hs1) as (os & st' & E2 & Hd & Hm' & Hs').
      { destruct (own id l) as [|q qs] eqn:Eq; [done|]. destruct (mi_fragment _ _ _ _ Hmi' q) as (j & (_ & _ & _ & Hj) & Hjg); [unfold own in Eq; rewrite Eq; by left|].
        destruct Hjg. apply Hall. apply lookup_lt_Some in Hj. lia. }
      rewrite E2. eexists _, st'. split; [done|]. split; [|split; [congruence|done]].
      rewrite delivered_cons, decide_True, Hd by done. by rewrite app_nil_r.
    + assert (Hna : ¬ all_got pays ({[k]} ∪ got)) by (intros Ha; apply Hall; intros j Hj; apply Ha; lia).
      destruct (Hpart Hna) as [-> Hc']. destruct (IH t st1 ({[k]} ∪ got) Ho Hs1 Hc' Hmi' Hna) as (os & st' & E2 & Hd & Hrest').
      rewrite E2. eexists _, st'. split; [done|]. split; [|done]. by rewrite delivered_cons, decide_True.
  - destruct (receive_ok t p st) as (o & st1 & E1 & Hs1 & _ & Hother); [done|done|]. rewrite E1. simpl.
    destruct (IH t st1 got Ho Hs1) as (os & st' & E2 & Hd & Hrest'); [|done|done|].
    { unfold collects. by rewrite Hother by congruence. }
    rewrite E2. eexists _, st'. split; [done|]. split; [|done]. by rewrite delivered_cons, decide_False.
Qed.
End collecting.

(** ** From the slicer to the store *)

Section transfer.
Context `{Tlv, !TlvLaws}.

(** A wire packet and the fragment it holds, possibly with padding behind it *)
Definition carries (wire : list Z) (p : NdnlpData) : Prop :=
  ∀ padding, ∃ blk, Block_fromBuffer (wire ++ padding) = Some blk ∧ NdnlpData_fromBlock blk = Some (true, p).

(** The fragments of a packet *)
Definition fragments (s : Slicer) (wire : list Z) : list NdnlpData :=
  let n := nFragments s (size wire) in
  (λ k, mkNdnlpData (u64 (m_seqgen s + k)) k n (Block_of NdnlpPayload_type (chunk s wire k))) <$> seqZ 0 n.

Lemma slice_carries s wire : slicer_ok s → size wire < 2 ^ 63 → nFragments s (size wire) < 2 ^ 16 →
  ∃ pa, slice s wire = Some (pa, mkSlicer (u64 (m_seqgen s + nFragments s (size wire))) (m_mtu s) (m_maxPayload s)) ∧
    Forall2 (λ f p, size f <= m_mtu s ∧ carries f p) pa (fragments s wire).
Proof.
  intros Hs Hw Hn. destruct (slice_spec s wire Hs Hw Hn) as [E Hfit]. eexists. split; [exact E|]. unfold fragments.
  apply Forall2_fmap, Forall_Forall2_diag, Forall_forall. intros k Hk%elem_of_seqZ. pose proof (Hfit k ltac:(lia)) as Hk'. split; [exact Hk'|].
  intros padding. eexists. apply (fromBlock_encode _ k _ _ padding); [apply u64_range|lia|done|]. pose proof (so_mtu _ Hs). lia.
Qed.

Lemma fragment_message_id s wire p : slicer_ok s → p ∈ fragments s wire → message_id p = m_seqgen s.
Proof.
  intros [Hg _ _ _] (k & -> & _)%list_elem_of_fmap. unfold message_id. simpl. unfold u64. rewrite Zminus_mod_idemp_l.
  replace (m_seqgen s + k - k) with (m_seqgen s) by lia. by apply u64_small.
Qed.

Lemma fragments_pkt_ok s wire p : p ∈ fragments s wire → pkt_ok p.
Proof. intros (k & -> & Hk%elem_of_seqZ)%list_elem_of_fmap. unfold pkt_ok. simpl. lia. Qed.

Definition payloads (s : Slicer) (wire : list Z) : list Block :=
  (λ k, Block_of NdnlpPayload_type (chunk s wire k)) <$> seqZ 0 (nFragments s (size wire)).

Lemma payloads_wire s wire : slicer_ok s → concat (b_value <$> payloads s wire) = wire.
Proof.
  intros Hs. pose proof (so_maxPayload _ Hs) as Hp. destruct (nFragments_bounds s (size wire) Hp (size_nonneg wire)) as [Hn0 Hb].
  unfold payloads. rewrite <-list_fmap_compose. rewrite <-(chunks_concat s wire (Z.to_nat (nFragments s (size wire)))) at 2; [|done|lia].
  by rewrite Z2Nat.id by done.
Qed.

Lemma fragments_missing s wire ps : slicer_ok s → ps ≡ₚ fragments s wire → missing (m_seqgen s) (payloads s wire) ∅ ps.
Proof.
  intros Hs Hp. pose proof (nFragments_bounds s (size wire) (so_maxPayload _ Hs) (size_nonneg wire)) as [Hn0 _].
  assert (Hfrag : ∀ j, (j < Z.to_nat (nFragments s (size wire)))%nat →
    let p := mkNdnlpData (u64 (m_seqgen s + Z.of_nat j)) (Z.of_nat j) (nFragments s (size wire)) (Block_of NdnlpPayload_type (chunk s wire (Z.of_nat j))) in
    p ∈ fragments s wire ∧ is_fragment (m_seqgen s) (payloads s wire) j p).
  { intros j Hj p. assert (Hin : p ∈ fragments s wire).
    { apply list_elem_of_fmap. exists (Z.of_nat j). split; [done|]. apply elem_of_seqZ. lia. }
    split; [done|]. split_and!; [by eapply fragment_message_id|done| |].
    - unfold payloads. rewrite length_fmap, length_seqZ. simpl. lia.
    - unfold payloads. rewrite list_lookup_fmap. rewrite (proj2 (lookup_seqZ 0 (nFragments s (size wire)) j (Z.of_nat j))) by lia. done. }
  assert (Hlen : length (payloads s wire) = Z.to_nat (nFragments s (size wire))) by (unfold payloads; by rewrite length_fmap, length_seqZ).
  split.
  - intros p Hin. rewrite Hp in Hin. apply list_elem_of_fmap in Hin as (k & -> & Hk%elem_of_seqZ). exists (Z.to_nat k).
    split; [|set_solver]. destruct (Hfrag (Z.to_nat k)) as [_ Hf]; [lia|]. by rewrite Z2Nat.id in Hf by lia.
  - intros k Hk _. rewrite Hlen in Hk. destruct (Hfrag k Hk) as [Hin Hf]. eexists. rewrite Hp. by split.
  - rewrite (fmap_Permutation nd_fragIndex _ _ Hp). unfold fragments. rewrite <-list_fmap_compose.
    rewrite (list_fmap_ext _ id) by done. rewrite list_fmap_id. apply NoDup_seqZ.
Qed.

(** One single-fragment packet of a message *)
Lemma receive_all_single id p l : nd_fragCount p = 1 → ∀ now st, in_order now l → store_ok now st → own id l = [p] →
  ∃ os st', receive_all l st = Some (os, st') ∧ delivered id l os = option_list (blockFromValue (b_value (nd_payload p))) ∧
    m_partialMessages st' !! id = m_partialMessages st !! id ∧ ∃ now', store_ok now' st'.
Proof.
  intros Hp1.
  induction l as [|[t q] l IH]; intros now st Ho Hs He; [done|]. destruct Ho as (Ht & Hq & Ho). simpl.
  unfold own in He. csimpl in He. rewrite filter_cons in He. pose proof (store_later _ now t st Ht Hs) as Hst.
  destruct (receive_ok t q st) as (o & st1 & E1 & Hs1 & Hsame & Hother); [done|done|]. rewrite E1. simpl.
  destruct (decide (message_id q = id)) as [Hid|Hne].
  - injection He as -> He. rewrite (Hsame Hp1) in *. destruct (receive_all_others id l t st Ho Hs1 He) as (os & st' & E2 & Hd & Hm & Hs').
    rewrite E2. eexists _, st'. split; [done|]. split; [|done]. rewrite delivered_cons, decide_True, Hd, app_nil_r by done.
    unfold receive, reassembleSingle in E1. rewrite Hp1 in E1. simpl in E1. by injection E1 as <-.
  - destruct (IH t st1 Ho Hs1 He) as (os & st' & E2 & Hd & Hm & Hs'). rewrite E2. eexists _, st'. split; [done|].
    split; [by rewrite delivered_cons, decide_False|]. split; [by rewrite Hm, Hother by congruence|done].
Qed.

(** The fragments of a packet, coming in in any order among other packets, deliver
    it once. *)
Lemma fragments_deliver s b now l st : slicer_ok s → encoded b → 
  in_order now l → store_ok now st → m_partialMessages st !! m_seqgen s = None → own (m_seqgen s) l ≡ₚ fragments s (b_wire b) →
  ∃ os st', receive_all l st = Some (os, st') ∧ delivered (m_seqgen s) l os = [b] ∧ m_partialMessages st' !! m_seqgen s = None ∧
    ∃ now', store_ok now' st'.
Proof.
  intros Hs (Eb & Ht & Hv) Ho Hst Hnone Hown. pose proof (payloads_wire s (b_wire b) Hs) as Hwire.
  assert (Hlen : length (payloads s (b_wire b)) = Z.to_nat (nFragments s (size (b_wire b)))) by (unfold payloads; by rewrite length_fmap, length_seqZ).
  assert (Hw : b_wire b = tlv (b_type b) (b_value b)) by (rewrite Eb at 1; done).
  assert (Hb : Block_of (b_type b) (b_value b) = b) by congruence.
  destruct (decide (length (payloads s (b_wire b)) = 1%nat)) as [E1|E1].
  - assert (En : nFragments s (size (b_wire b)) = 1) by lia. unfold fragments, payloads in *. rewrite En in *.
    change (seqZ 0 1) with [0] in *. csimpl in *. simpl in Hwire.
    apply Permutation_singleton_r in Hown. rewrite app_nil_r in Hwire.
    destruct (receive_all_single (m_seqgen s) (mkNdnlpData (u64 (m_seqgen s + 0)) 0 1 (Block_of NdnlpPayload_type (chunk s (b_wire b) 0))) l)
      with (now := now) (st := st) as (os & st' & E2 & Hd & Hm & Hs'); [done..|].
    exists os, st'. split; [done|]. split; [|split; [congruence|done]]. rewrite Hd. simpl. rewrite Hwire, Hw, blockFromValue_tlv by done. by rewrite Hb.
  - destruct (receive_all_collects (m_seqgen s) (payloads s (b_wire b)) l) with (now := now) (st := st) (got := ∅ : gset nat)
      as (os & st' & E2 & Hd & Hm & Hs'); [done|done|done| |by apply fragments_missing| |].
    + unfold collects. by rewrite Hnone.
    + intros Ha. destruct (payloads s (b_wire b)) as [|x l'] eqn:El.
      * simpl in Hwire. destruct (VarNumber_nonempty (b_type b)). symmetry in Hwire. rewrite Hw in Hwire. unfold tlv in Hwire.
        by apply app_eq_nil in Hwire as [? _].
      * specialize (Ha 0%nat). simpl in Ha. set_solver by lia.
    + exists os, st'. split; [done|]. split; [|done]. rewrite Hd, Hwire, Hw. rewrite <-(app_nil_r (tlv _ _)), Block_fromBuffer_tlv by done.
      simpl. by rewrite Hb.
Qed.
End transfer.
