(* ===== verification/EthernetFace.v ===== *)
(** * Ethernet faces: [daemon/face/ethernet-face.cpp]

    A face that sends network packets as Ethernet frames, through an NDNLP slicer,
    and keeps a reassembler for each sender.  libpcap and the socket are the
    environment: a frame is a list of bytes, [pcap_inject] a function of the
    frame.  What the face passes to [decodeAndDispatchInput] is its output. *)

From S2P Require Import Prelude Packets Timers Tlv Ndnlp.

(** An address has six bytes. *)
Abbreviation Address := (list Z).
Definition ADDR_LEN : nat := 6.
Definition TYPE_LEN : nat := 2.
Definition HDR_LEN : nat := 14.

(** The constants of ndn-cxx's [ethernet] namespace *)
Class Ethernet := { MIN_DATA_LEN : nat; ETHERTYPE_NDN : Z; ethertype_u16 : 0 <= ETHERTYPE_NDN < 2 ^ 16 }.

Definition REASSEMBLER_LIFETIME : Z := seconds 60.
(** The default argument of the store's constructor *)
Definition IDLE_DURATION : Z := milliseconds 100.

Record Reassembler := mkReassembler { r_pms : option PartialMessageStore; r_expireEvent : option positive }.

Record EthernetFace := mkEthernetFace {
  ef_isOpen : bool;                            (* m_pcap is not null *)
  ef_isFailed : bool;
  m_srcAddress : Address;
  m_destAddress : Address;
  m_interfaceMtu : Z;
  m_slicer : Slicer;
  m_reassemblers : gmap Address Reassembler;
  ef_scheduled : gmap positive (Z * Address);  (* the pending expireEvents *)
  ef_next : positive;
  ef_nInBytes : Z;                             (* uint64_t *)
  ef_nOutBytes : Z
}.

Definition ef_fail (f : EthernetFace) : EthernetFace :=
  mkEthernetFace (ef_isOpen f) true (m_srcAddress f) (m_destAddress f) (m_interfaceMtu f) (m_slicer f) (m_reassemblers f)
    (ef_scheduled f) (ef_next f) (ef_nInBytes f) (ef_nOutBytes f).
Definition ef_setSlicer (s : Slicer) (f : EthernetFace) : EthernetFace :=
  mkEthernetFace (ef_isOpen f) (ef_isFailed f) (m_srcAddress f) (m_destAddress f) (m_interfaceMtu f) s (m_reassemblers f)
    (ef_scheduled f) (ef_next f) (ef_nInBytes f) (ef_nOutBytes f).
Definition ef_countOut (n : Z) (f : EthernetFace) : EthernetFace :=
  mkEthernetFace (ef_isOpen f) (ef_isFailed f) (m_srcAddress f) (m_destAddress f) (m_interfaceMtu f) (m_slicer f) (m_reassemblers f)
    (ef_scheduled f) (ef_next f) (ef_nInBytes f) (u64 (ef_nOutBytes f + n)).
Definition ef_countIn (n : Z) (f : EthernetFace) : EthernetFace :=
  mkEthernetFace (ef_isOpen f) (ef_isFailed f) (m_srcAddress f) (m_destAddress f) (m_interfaceMtu f) (m_slicer f) (m_reassemblers f)
    (ef_scheduled f) (ef_next f) (u64 (ef_nInBytes f + n)) (ef_nOutBytes f).
Definition ef_setReassemblers (r : gmap Address Reassembler) (scheduled : gmap positive (Z * Address)) (next : positive) (f : EthernetFace) : EthernetFace :=
  mkEthernetFace (ef_isOpen f) (ef_isFailed f) (m_srcAddress f) (m_destAddress f) (m_interfaceMtu f) (m_slicer f) r
    scheduled next (ef_nInBytes f) (ef_nOutBytes f).

Inductive EthernetOutput := Inject (frame : list Z) | OnFail.

Section face.
Context `{Tlv, Ethernet} (pcap_inject : list Z → Z).

(** The face is open once constructed; [mtu] is what [getInterfaceMtu] found. *)
Definition EthernetFace_new (srcAddress destAddress : Address) (mtu : Z) : EthernetFace :=
  mkEthernetFace true false srcAddress destAddress mtu (Slicer_new mtu) ∅ ∅ 1 0 0.

(** [Face::fail] *)
Definition Face_fail (f : EthernetFace) : list EthernetOutput * EthernetFace :=
  if ef_isFailed f then ([], f) else ([OnFail], ef_fail f).

Definition EthernetFace_close (f : EthernetFace) : list EthernetOutput * EthernetFace :=
  if negb (ef_isOpen f) then ([], f)
  else
    Face_fail (mkEthernetFace false (ef_isFailed f) (m_srcAddress f) (m_destAddress f) (m_interfaceMtu f) (m_slicer f) (m_reassemblers f)
                 (ef_scheduled f) (ef_next f) (ef_nInBytes f) (ef_nOutBytes f)).

(** *** Sending *)

Definition make_frame (destAddress srcAddress : Address) (block : list Z) : list Z :=
  let padding := replicate (MIN_DATA_LEN - length block) 0 in
  destAddress ++ srcAddress ++ be_bytes TYPE_LEN ETHERTYPE_NDN ++ block ++ padding.

(** [None]: the assertion on the size fails. *)
Definition sendPacket (block : list Z) (f : EthernetFace) : option (list EthernetOutput * EthernetFace) :=
  if negb (ef_isOpen f) then Some (Face_fail f)
  else if m_interfaceMtu f <? size block then None
  else
    let buffer := make_frame (m_destAddress f) (m_srcAddress f) block in
    let sent := pcap_inject buffer in
    let '(out, f) := if sent <? 0 then Face_fail f
                     else if sent <? size buffer then Face_fail f
                     else ([], ef_countOut (size block) f) in
    Some (Inject buffer :: out, f).

Fixpoint sendPackets (pa : list (list Z)) (f : EthernetFace) : option (list EthernetOutput * EthernetFace) :=
  match pa with
  | [] => Some ([], f)
  | packet :: pa => '(out, f) ← sendPacket packet f; '(out', f) ← sendPackets pa f; Some (out ++ out', f)
  end.

(** [sendInterest] and [sendData], given the wire encoding of the packet *)
Definition EthernetFace_send (networkPacket : list Z) (f : EthernetFace) : option (list EthernetOutput * EthernetFace) :=
  '(pa, s) ← slice (m_slicer f) networkPacket;
  sendPackets pa (ef_setSlicer s f).

(** *** Receiving *)

(** [None]: an assertion fails, or an exception leaves the handler.  The result has
    the blocks passed to [decodeAndDispatchInput]. *)
Definition processIncomingPacket (now : Z) (packet : list Z) (f : EthernetFace) : option (list Block * EthernetFace) :=
  if (length packet <? HDR_LEN + MIN_DATA_LEN)%nat then Some ([], f)
  else
    let sourceAddress := take ADDR_LEN (drop ADDR_LEN packet) in
    if negb (bool_decide (take ADDR_LEN packet = m_destAddress f)) then None
    else if bool_decide (sourceAddress = m_srcAddress f) then None
    else if negb (be_number 0 (take TYPE_LEN (drop (2 * ADDR_LEN) packet)) =? ETHERTYPE_NDN) then None
    else
      match Block_fromBuffer (drop HDR_LEN packet) with
      | None => Some ([], f)
      | Some fragmentBlock =>
          let f := ef_countIn (size (b_wire fragmentBlock)) f in
          let reassembler := default (mkReassembler None None) (m_reassemblers f !! sourceAddress) in
          let pms := default (PartialMessageStore_new IDLE_DURATION) (r_pms reassembler) in
          let id := ef_next f in
          let scheduled := cancel_event (r_expireEvent reassembler) (ef_scheduled f) in
          let scheduled := <[id := (now + REASSEMBLER_LIFETIME, sourceAddress)]> scheduled in
          let put pms := ef_setReassemblers (<[sourceAddress := mkReassembler (Some pms) (Some id)]> (m_reassemblers f)) scheduled (Pos.succ id) f in
          '(isOk, fragment) ← NdnlpData_fromBlock fragmentBlock;
          if isOk : bool
          then '(block, pms) ← receive now fragment pms; Some (option_list block, put pms)
          else Some ([], put pms)
      end.

(** An [expireEvent] runs; its [BOOST_VERIFY] fails when there is no such reassembler. *)
Definition fire_expire (id : positive) (f : EthernetFace) : option EthernetFace :=
  '(_, sourceAddress) ← ef_scheduled f !! id;
  match m_reassemblers f !! sourceAddress with
  | Some _ => Some (ef_setReassemblers (delete sourceAddress (m_reassemblers f)) (delete id (ef_scheduled f)) (ef_next f) f)
  | None => None
  end.

(** A cleanup in one of the stores runs. *)
Definition fire_store (sourceAddress : Address) (id : positive) (f : EthernetFace) : option EthernetFace :=
  r ← m_reassemblers f !! sourceAddress;
  pms ← r_pms r;
  pms ← fire_cleanup id pms;
  Some (ef_setReassemblers (<[sourceAddress := mkReassembler (Some pms) (r_expireEvent r)]> (m_reassemblers f)) (ef_scheduled f) (ef_next f) f).
End face.

(** ** The invariant *)

Section face_spec.
Context `{Tlv, Ethernet}.

(** Each reassembler has a well-formed store, and an event that will remove it. *)
Definition reassembler_ok (now : Z) (a : Address) (r : Reassembler) : Prop := ∃ pms, r_pms r = Some pms ∧ store_ok now pms.
Definition face_ok (now : Z) (f : EthernetFace) : Prop :=
  timers_inv r_expireEvent (reassembler_ok now) (m_reassemblers f) (ef_scheduled f) (ef_next f).

(** The store for a sender *)
Definition store_of (f : EthernetFace) (a : Address) : PartialMessageStore :=
  default (PartialMessageStore_new IDLE_DURATION) (m_reassemblers f !! a ≫= r_pms).

Lemma face_later now now' f : now <= now' → face_ok now f → face_ok now' f.
Proof.
  intros Hn. apply timers_mono. intros a r _ (pms & Ep & Hs). exists pms. split; [done|]. by eapply store_later.
Qed.

Lemma EthernetFace_new_ok now src dst mtu : face_ok now (EthernetFace_new src dst mtu).
Proof. apply timers_empty. Qed.

Lemma store_of_ok now f a : face_ok now f → store_ok now (store_of f a).
Proof.
  intros Hf. unfold store_of. destruct (m_reassemblers f !! a) as [r|] eqn:Er; simpl; [|by apply PartialMessageStore_new_ok].
  destruct (ti_entry _ _ _ _ _ Hf a r Er) as [(pms & -> & Hs) _]. done.
Qed.

(** The reassembler of [a] gets the store [pms] and a new event. *)
Lemma put_reassembler now t a pms f : face_ok now f → store_ok now pms →
  let f' := ef_setReassemblers (<[a := mkReassembler (Some pms) (Some (ef_next f))]> (m_reassemblers f))
    (<[ef_next f := (t, a)]> (cancel_event (r_expireEvent (default (mkReassembler None None) (m_reassemblers f !! a))) (ef_scheduled f)))
    (Pos.succ (ef_next f)) f in
  face_ok now f' ∧ store_of f' a = pms ∧ (∀ b, b ≠ a → store_of f' b = store_of f b).
Proof.
  intros Hf Hp f'. split; [|split].
  - unfold face_ok. simpl. assert (Ee : r_expireEvent (default (mkReassembler None None) (m_reassemblers f !! a)) = (m_reassemblers f !! a ≫= r_expireEvent))
      by (by destruct (m_reassemblers f !! a)).
    rewrite Ee. apply (timers_put r_expireEvent (reassembler_ok now) (reassembler_ok now)); [done|done| |done]. by exists pms.
  - unfold store_of. simpl. by rewrite lookup_insert_eq.
  - intros b Hb. unfold store_of. simpl. by rewrite lookup_insert_ne.
Qed.

(** *** Frames *)

Lemma make_frame_parts dst src wire : length dst = ADDR_LEN → length src = ADDR_LEN →
  let l := make_frame dst src wire in
  (HDR_LEN + MIN_DATA_LEN <= length l)%nat ∧ take ADDR_LEN l = dst ∧ take ADDR_LEN (drop ADDR_LEN l) = src ∧
  be_number 0 (take TYPE_LEN (drop (2 * ADDR_LEN) l)) = ETHERTYPE_NDN ∧
  ∃ padding, drop HDR_LEN l = wire ++ padding.
Proof.
  intros Hd Hs l. unfold l, make_frame. set (rest := wire ++ _).
  assert (Hb : length (be_bytes TYPE_LEN ETHERTYPE_NDN) = TYPE_LEN) by apply length_be_bytes. split_and!.
  - unfold rest. rewrite !length_app, length_replicate, Hd, Hs, Hb. unfold HDR_LEN, ADDR_LEN, TYPE_LEN. lia.
  - by apply take_app_length'.
  - rewrite drop_app_length' by done. by apply take_app_length'.
  - rewrite app_assoc, drop_app_length' by (by rewrite length_app, Hd, Hs). rewrite take_app_length' by done.
    apply be_number_inv, ethertype_u16.
  - rewrite !app_assoc, drop_app_length' by (by rewrite !length_app, Hd, Hs, Hb). unfold rest. eauto.
Qed.

(** A frame with a fragment is received by the store of its sender. *)
Lemma process_frame now t f src wire p : face_ok now f → now <= t → length (m_destAddress f) = ADDR_LEN → length src = ADDR_LEN →
  src ≠ m_srcAddress f → carries wire p → pkt_ok p →
  ∃ o pms f', receive t p (store_of f src) = Some (o, pms) ∧
    processIncomingPacket t (make_frame (m_destAddress f) src wire) f = Some (option_list o, f') ∧
    face_ok t f' ∧ m_destAddress f' = m_destAddress f ∧ m_srcAddress f' = m_srcAddress f ∧
    store_of f' src = pms ∧ ∀ b, b ≠ src → store_of f' b = store_of f b.
Proof.
  intros Hf Ht Hd Hs Hne Hc Hp. pose proof (face_later _ t _ Ht Hf) as Hft.
  destruct (make_frame_parts (m_destAddress f) src wire Hd Hs) as (Hlen & Hdst & Hsrc & Htype & padding & Hdrop).
  destruct (Hc padding) as (blk & Hb & Hparse).
  destruct (receive_ok t p (store_of f src)) as (o & pms & Er & Hpms & _ & _); [by apply store_of_ok|done|].
  set (f1 := ef_countIn (size (b_wire blk)) f).
  destruct (put_reassembler t (t + REASSEMBLER_LIFETIME) src pms f1 Hft Hpms) as (Hf' & Hst & Ho).
  exists o, pms. eexists. split; [done|]. split; [|split; [exact Hf'|split; [done|split; [done|split; [exact Hst|exact Ho]]]]].
  unfold processIncomingPacket. rewrite (proj2 (Nat.ltb_ge _ _)) by exact Hlen. rewrite Hdst, Hsrc, Htype, Hdrop, Hb, Z.eqb_refl.
  rewrite bool_decide_eq_true_2, bool_decide_eq_false_2 by done. simpl. rewrite Hparse. simpl.
  assert (Es : default (PartialMessageStore_new IDLE_DURATION) (r_pms (default (mkReassembler None None) (m_reassemblers f !! src))) = store_of f src).
  { unfold store_of. by destruct (m_reassemblers f !! src). }
  rewrite Es, Er. done.
Qed.

(** An expiry finds its reassembler; a cleanup its message. *)
Lemma fire_expire_ok now ev t a f : face_ok now f → ef_scheduled f !! ev = Some (t, a) →
  ∃ f', fire_expire ev f = Some f' ∧ face_ok now f' ∧ m_reassemblers f' = delete a (m_reassemblers f).
Proof.
  intros Hf He. destruct (ti_event _ _ _ _ _ Hf ev t a He) as (_ & r & Hr & Er). unfold fire_expire. rewrite He. simpl. rewrite Hr.
  eexists. split; [done|]. split; [|done]. pose proof (timers_erase r_expireEvent _ (reassembler_ok now) a (λ _ _ _ H, H) _ _ _ Hf) as Hi.
  rewrite Hr in Hi. simpl in Hi. rewrite Er in Hi. exact Hi.
Qed.

Lemma fire_store_ok now a r pms ev t id f : face_ok now f → m_reassemblers f !! a = Some r → r_pms r = Some pms →
  st_scheduled pms !! ev = Some (t, id) → ∃ f', fire_store a ev f = Some f' ∧ face_ok now f'.
Proof.
  intros Hf Hr Hp He. destruct (ti_entry _ _ _ _ _ Hf a r Hr) as [(pms' & Ep & Hs) _].
  assert (pms' = pms) as -> by congruence. destruct (fire_cleanup_spec now ev t id pms Hs He) as (pms1 & E1 & Hs1 & _). unfold fire_store. rewrite Hr. simpl. rewrite Hp. simpl. rewrite E1. simpl.
  eexists. split; [done|]. destruct Hf as [A B]. split; simpl.
  - intros b x Hx. apply lookup_insert_Some in Hx as [[<- <-]|[Hne Hx]]; [|by apply A].
    destruct (A a r Hr) as (_ & ev' & t' & Ee & Et). split; [by exists pms1|]. by exists ev', t'.
  - intros ev' t' b Hb. destruct (B ev' t' b Hb) as (Hl & x & Hx & Ex). split; [done|]. destruct (decide (b = a)) as [->|Hne].
    + simplify_eq. eexists. rewrite lookup_insert_eq. by split.
    + exists x. by rewrite lookup_insert_ne.
Qed.
End face_spec.
