(* ===== verification/RibEntry.v ===== *)
(** * Routes and RIB entries: [rib/route.hpp], [rib/route.cpp], [rib/rib-entry.cpp]

    A RIB entry has the routes registered for its name, the routes it inherits
    from shorter names (by face), and its place in the tree of entries.  The
    shared pointers between entries are the names of the entries. *)

From S2P Require Import Prelude Packets.

(** ** Routes *)

(** The flags belong to ndn-cxx; child inheritance is a single bit. *)
Class RouteFlags := {
  ROUTE_FLAG_CHILD_INHERIT : Z;
  ROUTE_FLAG_CAPTURE : Z;
  child_inherit_bit : ∃ k, 0 <= k ∧ ROUTE_FLAG_CHILD_INHERIT = 2 ^ k
}.

Record Route := mkRoute {
  rt_faceId : Z; rt_origin : Z; rt_flags : Z; rt_cost : Z;   (* uint64_t *)
  rt_expires : Z;                                            (* nanoseconds *)
  m_expirationEvent : option positive
}.

#[export] Instance Route_eq_dec : EqDecision Route.
Proof. solve_decision. Defined.

(** [Route::operator==] *)
Definition Route_eqb (a b : Route) : bool :=
  (rt_faceId a =? rt_faceId b) && (rt_origin a =? rt_origin b) && (rt_flags a =? rt_flags b) &&
  (rt_cost a =? rt_cost b) && (rt_expires a =? rt_expires b).

Definition compareFaceIdAndOrigin (lhs rhs : Route) : bool :=
  (rt_faceId lhs =? rt_faceId rhs) && (rt_origin lhs =? rt_origin rhs).
Definition compareFaceId (route : Route) (faceId : Z) : bool := rt_faceId route =? faceId.

Section flags.
Context `{RouteFlags}.

Definition isChildInherit (r : Route) : bool := negb (Z.land (rt_flags r) ROUTE_FLAG_CHILD_INHERIT =? 0).
Definition isCapture (r : Route) : bool := negb (Z.land (rt_flags r) ROUTE_FLAG_CAPTURE =? 0).

(** The two tests of the sources are the same. *)
Lemma child_inherit_mask r : (Z.land (rt_flags r) ROUTE_FLAG_CHILD_INHERIT =? ROUTE_FLAG_CHILD_INHERIT) = isChildInherit r.
Proof.
  unfold isChildInherit. destruct child_inherit_bit as (k & Hk & ->).
  assert (E : Z.land (rt_flags r) (2 ^ k) = if Z.testbit (rt_flags r) k then 2 ^ k else 0).
  { apply Z.bits_inj'. intros i Hi. rewrite Z.land_spec, Z.pow2_bits_eqb by done. destruct (Z.eqb_spec k i) as [<-|Hne].
    - destruct (Z.testbit (rt_flags r) k); [by rewrite Z.pow2_bits_true|by rewrite Z.bits_0].
    - rewrite andb_false_r. destruct (Z.testbit (rt_flags r) k); [|by rewrite Z.bits_0]. by rewrite Z.pow2_bits_false. }
  assert (0 < 2 ^ k) by (apply Z.pow_pos_nonneg; lia). rewrite E. destruct (Z.testbit _ _).
  - rewrite Z.eqb_refl. symmetry. apply negb_true_iff, Z.eqb_neq. lia.
  - rewrite Z.eqb_refl. apply Z.eqb_neq. lia.
Qed.
End flags.

(** ** Entries *)

Record RibEntry := mkRibEntry {
  re_name : Name;
  re_children : list Name;
  re_parent : option Name;
  re_routes : list Route;
  re_inherited : list Route;
  m_nRoutesWithCaptureSet : Z    (* uint64_t *)
}.

Definition RibEntry_new : RibEntry := mkRibEntry [] [] None [] [] 0.
Definition re_setName (n : Name) (e : RibEntry) : RibEntry :=
  mkRibEntry n (re_children e) (re_parent e) (re_routes e) (re_inherited e) (m_nRoutesWithCaptureSet e).
Definition re_setChildren (l : list Name) (e : RibEntry) : RibEntry :=
  mkRibEntry (re_name e) l (re_parent e) (re_routes e) (re_inherited e) (m_nRoutesWithCaptureSet e).
Definition re_setParent (p : option Name) (e : RibEntry) : RibEntry :=
  mkRibEntry (re_name e) (re_children e) p (re_routes e) (re_inherited e) (m_nRoutesWithCaptureSet e).
Definition re_setRoutes (l : list Route) (n : Z) (e : RibEntry) : RibEntry :=
  mkRibEntry (re_name e) (re_children e) (re_parent e) l (re_inherited e) n.
Definition re_setInherited (l : list Route) (e : RibEntry) : RibEntry :=
  mkRibEntry (re_name e) (re_children e) (re_parent e) (re_routes e) l (m_nRoutesWithCaptureSet e).

(** [findRoute]: the position and the route, [None] for [end()] *)
Definition findRoute (route : Route) (e : RibEntry) : option (nat * Route) :=
  list_find (λ r, compareFaceIdAndOrigin r route = true) (re_routes e).

Definition hasRoute (route : Route) (e : RibEntry) : bool := bool_decide (is_Some (findRoute route e)).
Definition hasFaceId (faceId : Z) (e : RibEntry) : bool := existsb (λ r, compareFaceId r faceId) (re_routes e).
Definition getNRoutes (e : RibEntry) : nat := length (re_routes e).

Definition addInheritedRoute_e (route : Route) (e : RibEntry) : RibEntry := re_setInherited (re_inherited e ++ [route]) e.
Definition findInheritedRoute (route : Route) (e : RibEntry) : option (nat * Route) :=
  list_find (λ r, compareFaceId r (rt_faceId route) = true) (re_inherited e).
Definition hasInheritedRoute (route : Route) (e : RibEntry) : bool := bool_decide (is_Some (findInheritedRoute route e)).
(** [None]: the iterator that is erased is [end()], undefined behaviour *)
Definition removeInheritedRoute_e (route : Route) (e : RibEntry) : option RibEntry :=
  '(i, _) ← findInheritedRoute route e; Some (re_setInherited (delete i (re_inherited e)) e).

Definition hasCapture (e : RibEntry) : bool := 0 <? m_nRoutesWithCaptureSet e.

Section entry.
Context `{RouteFlags}.

Definition insertRoute (route : Route) (e : RibEntry) : bool * RibEntry :=
  match findRoute route e with
  | None => (true, re_setRoutes (re_routes e ++ [route])
                     (if isCapture route then u64 (m_nRoutesWithCaptureSet e + 1) else m_nRoutesWithCaptureSet e) e)
  | Some _ => (false, e)
  end.

(** The entry and the event that [eraseRoute] cancels *)
Definition eraseRoute (route : Route) (e : RibEntry) : RibEntry * option positive :=
  match findRoute route e with
  | Some (i, r) => (re_setRoutes (delete i (re_routes e))
                      (if isCapture r then u64 (m_nRoutesWithCaptureSet e - 1) else m_nRoutesWithCaptureSet e) e, m_expirationEvent r)
  | None => (e, None)
  end.

Definition hasChildInheritOnFaceId (faceId : Z) (e : RibEntry) : bool :=
  existsb (λ r, (rt_faceId r =? faceId) && isChildInherit r) (re_routes e).

(** The scan for the lowest cost: the first of the routes with it *)
Fixpoint lowest_cost (candidate : option Route) (l : list Route) : option Route :=
  match l with
  | [] => candidate
  | route :: l =>
      match candidate with
      | None => lowest_cost (Some route) l
      | Some c => lowest_cost (if rt_cost route <? rt_cost c then Some route else Some c) l
      end
  end.
Definition getRouteWithLowestCostByFaceId (faceId : Z) (e : RibEntry) : option Route :=
  lowest_cost None (filter (λ r, rt_faceId r = faceId) (re_routes e)).
Definition getRouteWithLowestCostAndChildInheritByFaceId (faceId : Z) (e : RibEntry) : option Route :=
  lowest_cost None (filter (λ r, rt_faceId r = faceId ∧
    Z.land (rt_flags r) ROUTE_FLAG_CHILD_INHERIT = ROUTE_FLAG_CHILD_INHERIT) (re_routes e)).

(** [std::nth_element] leaves the second of the stably sorted routes in place 1
    (ranges of up to three elements are sorted by insertion). *)
Fixpoint insert_by_cost (r : Route) (l : list Route) : list Route :=
  match l with
  | [] => [r]
  | x :: l' => if rt_cost r <? rt_cost x then r :: l else x :: insert_by_cost r l'
  end.
Definition sort_by_cost (l : list Route) : list Route := foldl (λ l r, insert_by_cost r l) [] l.
(** The pointer that is returned points into a vector that is gone; the route is
    what the vector had. *)
Definition getRouteWithSecondLowestCostByFaceId (faceId : Z) (e : RibEntry) : option Route :=
  let matches := filter (λ r, rt_faceId r = faceId) (re_routes e) in
  if (length matches <? 2)%nat then None else sort_by_cost matches !! 1%nat.
End entry.
