(* ===== verification/Rib.v ===== *)
(** * The RIB: [rib/rib.cpp], [rib/rib-update.hpp], [rib/rib-update-batch.cpp]

    The table of entries with their tree, the faces' entries, the queue of
    updates, and the timers of routes that expire.  An operation that fails an
    assertion or uses an iterator or pointer that refers to nothing is [None]. *)

From stdpp Require Import sorting.
From S2P Require Import Prelude Packets Timers RibEntry.

(** ** Updates *)

Inductive RibUpdateAction := REGISTER | UNREGISTER | REMOVE_FACE.
Record RibUpdate := mkRibUpdate { ru_action : RibUpdateAction; ru_name : Name; ru_route : Route }.
Record RibUpdateBatch := mkBatch { m_faceId : Z; m_updates : list RibUpdate }.

Definition RibUpdateBatch_new (faceId : Z) : RibUpdateBatch := mkBatch faceId [].
Definition RibUpdateBatch_add (update : RibUpdate) (b : RibUpdateBatch) : option RibUpdateBatch :=
  if m_faceId b =? rt_faceId (ru_route update) then Some (mkBatch (m_faceId b) (m_updates b ++ [update])) else None.

(** The manager's callbacks are bound to the update they are about; [None] is the
    null callback. *)
Record UpdateQueueItem := mkItem { uq_batch : RibUpdateBatch; managerCallback : option RibUpdate }.

(** What the RIB tells the others: its signals and the manager's callbacks *)
Inductive RibEvent :=
| afterInsertEntry (prefix : Name)
| afterEraseEntry (prefix : Name)
| onRibUpdateSuccess (update : RibUpdate)
| onRibUpdateFailure (update : RibUpdate) (code : Z).

(** ** The table *)

Record Rib := mkRib {
  m_rib : gmap Name RibEntry;
  m_faceMap : gmap Z (list Name);
  rb_nItems : Z;                                      (* size_t *)
  m_updateBatches : list UpdateQueueItem;
  m_isUpdateInProgress : bool;
  rb_scheduled : gmap positive (Z * (Name * Route));  (* the pending expirations *)
  rb_nextEvent : positive;
  rb_events : list RibEvent                           (* what was emitted, oldest first *)
}.

Definition Rib_new : Rib := mkRib ∅ ∅ 0 [] false ∅ 1 [].

Definition rb_setRib (m : gmap Name RibEntry) (b : Rib) : Rib :=
  mkRib m (m_faceMap b) (rb_nItems b) (m_updateBatches b) (m_isUpdateInProgress b) (rb_scheduled b) (rb_nextEvent b) (rb_events b).
Definition rb_setFaceMap (m : gmap Z (list Name)) (b : Rib) : Rib :=
  mkRib (m_rib b) m (rb_nItems b) (m_updateBatches b) (m_isUpdateInProgress b) (rb_scheduled b) (rb_nextEvent b) (rb_events b).
Definition rb_setNItems (n : Z) (b : Rib) : Rib :=
  mkRib (m_rib b) (m_faceMap b) (u64 n) (m_updateBatches b) (m_isUpdateInProgress b) (rb_scheduled b) (rb_nextEvent b) (rb_events b).
Definition rb_setQueue (q : list UpdateQueueItem) (b : Rib) : Rib :=
  mkRib (m_rib b) (m_faceMap b) (rb_nItems b) q (m_isUpdateInProgress b) (rb_scheduled b) (rb_nextEvent b) (rb_events b).
Definition rb_setInProgress (p : bool) (b : Rib) : Rib :=
  mkRib (m_rib b) (m_faceMap b) (rb_nItems b) (m_updateBatches b) p (rb_scheduled b) (rb_nextEvent b) (rb_events b).
Definition rb_cancel (ev : option positive) (b : Rib) : Rib :=
  mkRib (m_rib b) (m_faceMap b) (rb_nItems b) (m_updateBatches b) (m_isUpdateInProgress b) (cancel_event ev (rb_scheduled b)) (rb_nextEvent b)
    (rb_events b).
Definition rb_emit (e : RibEvent) (b : Rib) : Rib :=
  mkRib (m_rib b) (m_faceMap b) (rb_nItems b) (m_updateBatches b) (m_isUpdateInProgress b) (rb_scheduled b) (rb_nextEvent b) (rb_events b ++ [e]).

(** A loop over a list whose body can fail *)
Fixpoint fold_opt {A S} (f : A → S → option S) (l : list A) (s : S) : option S :=
  match l with [] => Some s | x :: l => s ← f x s; fold_opt f l s end.

(** ** The tree of entries *)

(** [addChild], [removeChild] of the entry [e]: they check the child's parent. *)
Definition addChild (e child : Name) (m : gmap Name RibEntry) : option (gmap Name RibEntry) :=
  ce ← m !! child;
  match re_parent ce with
  | Some _ => None
  | None =>
      let m := <[child := re_setParent (Some e) ce]> m in
      ee ← m !! e; Some (<[e := re_setChildren (re_children ee ++ [child]) ee]> m)
  end.
Definition removeChild (e child : Name) (m : gmap Name RibEntry) : option (gmap Name RibEntry) :=
  ce ← m !! child;
  if bool_decide (re_parent ce = Some e) then
    let m := <[child := re_setParent None ce]> m in
    ee ← m !! e; Some (<[e := re_setChildren (filter (λ c, c ≠ child) (re_children ee)) ee]> m)
  else None.

(** [findParent]: the prefixes of the name, longest first *)
Fixpoint findParent_from (m : gmap Name RibEntry) (prefix : Name) (i : nat) : option Name :=
  match i with
  | O => None
  | S i => match m !! getPrefix prefix i with Some _ => Some (getPrefix prefix i) | None => findParent_from m prefix i end
  end.
Definition findParent (m : gmap Name RibEntry) (prefix : Name) : option Name := findParent_from m prefix (length prefix).

Section order.
Context `{NameOrder}.

(** The order in which [m_rib] is iterated *)
Definition name_le (a b : Name) : Prop := name_lt b a = false.
#[export] Instance name_le_dec : RelDecision name_le.
Proof. intros a b. unfold name_le. apply _. Defined.
Definition rib_names (m : gmap Name RibEntry) : list Name := merge_sort name_le (elements (dom m)).

Fixpoint names_after (prefix : Name) (l : list Name) : list Name :=
  match l with [] => [] | n :: l => if bool_decide (n = prefix) then l else names_after prefix l end.
Fixpoint while_below (prefix : Name) (l : list Name) : list Name :=
  match l with [] => [] | n :: l => if isPrefixOf prefix n then n :: while_below prefix l else [] end.

Definition findDescendants (m : gmap Name RibEntry) (prefix : Name) : list Name :=
  match m !! prefix with Some _ => while_below prefix (names_after prefix (rib_names m)) | None => [] end.
Definition findDescendantsForNonInsertedName (m : gmap Name RibEntry) (prefix : Name) : list Name :=
  filter (λ n, isPrefixOf prefix n = true) (rib_names m).
End order.

(** ** Insertion and erasure *)

Definition faceMap_push (faceId : Z) (n : Name) (b : Rib) : Rib :=
  rb_setFaceMap (<[faceId := default [] (m_faceMap b !! faceId) ++ [n]]> (m_faceMap b)) b.
Definition faceMap_remove (faceId : Z) (n : Name) (b : Rib) : Rib :=
  rb_setFaceMap (<[faceId := filter (λ x, x ≠ n) (default [] (m_faceMap b !! faceId))]> (m_faceMap b)) b.

(** [find(prefix, route)] *)
Definition Rib_find (prefix : Name) (route : Route) (b : Rib) : option Route :=
  entry ← m_rib b !! prefix; snd <$> findRoute route entry.

Section rib.
Context `{NameOrder} `{RouteFlags}.

(** The fields that an update of an existing route sets *)
Definition updateRoute (route r : Route) : Route :=
  mkRoute (rt_faceId r) (rt_origin r) (rt_flags route) (rt_cost route) (rt_expires route) (m_expirationEvent route).

(** A child of the new entry's parent moves to the new entry. *)
Definition adopt (prefix : Name) (parent : option Name) (child : Name) (m : gmap Name RibEntry) : option (gmap Name RibEntry) :=
  ce ← m !! child;
  if bool_decide (re_parent ce = parent) then
    m ← match parent with Some p => removeChild p child m | None => Some m end;
    addChild prefix child m
  else Some m.

Definition Rib_insert (prefix : Name) (route : Route) (b : Rib) : option Rib :=
  match m_rib b !! prefix with
  | Some entry =>
      match findRoute route entry with
      | None =>
          let b := rb_setRib (<[prefix := (insertRoute route entry).2]> (m_rib b)) b in
          let b := rb_setNItems (rb_nItems b + 1) b in
          Some (faceMap_push (rt_faceId route) prefix b)
      | Some (i, r) =>
          let b := match m_expirationEvent r with Some ev => rb_cancel (Some ev) b | None => b end in
          Some (rb_setRib (<[prefix := re_setRoutes (<[i := updateRoute route r]> (re_routes entry)) (m_nRoutesWithCaptureSet entry) entry]> (m_rib b)) b)
      end
  | None =>
      let b := rb_setNItems (rb_nItems b + 1) b in
      let m := <[prefix := (insertRoute route (re_setName prefix RibEntry_new)).2]> (m_rib b) in
      let parent := findParent m prefix in
      m ← match parent with Some p => addChild p prefix m | None => Some m end;
      m ← fold_opt (adopt prefix parent) (findDescendants m prefix) m;
      let b := faceMap_push (rt_faceId route) prefix (rb_setRib m b) in
      Some (rb_emit (afterInsertEntry prefix) b)
  end.

(** The children of an entry that is erased go to its parent. *)
Definition disown (prefix : Name) (parent : option Name) (child : Name) (m : gmap Name RibEntry) : option (gmap Name RibEntry) :=
  m ← removeChild prefix child m;
  match parent with Some p => addChild p child m | None => Some m end.

Definition eraseEntry (prefix : Name) (b : Rib) : option Rib :=
  match m_rib b !! prefix with
  | None => Some b
  | Some entry =>
      let parent := re_parent entry in
      m ← match parent with Some p => removeChild p prefix (m_rib b) | None => Some (m_rib b) end;
      m ← fold_opt (disown prefix parent) (re_children entry) m;
      Some (rb_emit (afterEraseEntry (re_name entry)) (rb_setRib (delete prefix m) b))
  end.

Definition Rib_erase (prefix : Name) (route : Route) (b : Rib) : option Rib :=
  match m_rib b !! prefix with
  | None => Some b
  | Some entry =>
      match findRoute route entry with
      | None => Some b
      | Some _ =>
          let '(entry, ev) := eraseRoute route entry in
          let b := rb_cancel ev (rb_setRib (<[prefix := entry]> (m_rib b)) b) in
          let b := rb_setNItems (rb_nItems b - 1) b in
          let b := if hasFaceId (rt_faceId route) entry then b else faceMap_remove (rt_faceId route) prefix b in
          match re_routes entry with [] => eraseEntry prefix b | _ => Some b end
      end
  end.

(** ** Inherited routes *)

(** [RouteSet]: the routes in the order of their faces, one for each face; the
    one that is there stays.  ([RouteSet] objects made without the order never
    compare, as they get at most one element.) *)
Fixpoint routeSet_insert (route : Route) (l : list Route) : list Route :=
  match l with
  | [] => [route]
  | r :: l' => if rt_faceId route <? rt_faceId r then route :: l
               else if rt_faceId r <? rt_faceId route then r :: routeSet_insert route l' else l
  end.
Definition routeSet_find (route : Route) (l : list Route) : option Route := find_if (λ r, rt_faceId r =? rt_faceId route) l.
Definition routeSet_erase (route : Route) (l : list Route) : list Route := filter (λ r, rt_faceId r ≠ rt_faceId route) l.

(** The walk up the tree that both [getAncestorRoutes] make; [None] when it is not
    over after [fuel] entries *)
Fixpoint ancestorRoutes_from (fuel : nat) (m : gmap Name RibEntry) (parent : option Name) (ancestorRoutes : list Route) : option (list Route) :=
  match parent, fuel with
  | None, _ => Some ancestorRoutes
  | Some _, O => None
  | Some p, S fuel =>
      entry ← m !! p;
      let ancestorRoutes := foldl (λ l r, if isChildInherit r then routeSet_insert r l else l) ancestorRoutes (re_routes entry) in
      if hasCapture entry then Some ancestorRoutes else ancestorRoutes_from fuel m (re_parent entry) ancestorRoutes
  end.
(** Of an entry, and of a name *)
Definition getAncestorRoutes_e (m : gmap Name RibEntry) (entry : RibEntry) : option (list Route) :=
  ancestorRoutes_from (size m) m (re_parent entry) [].
Definition getAncestorRoutes (m : gmap Name RibEntry) (name : Name) : option (list Route) :=
  ancestorRoutes_from (size m) m (findParent m name) [].

Definition modifyInheritedRoute (update : RibUpdate) (b : Rib) : option Rib :=
  entry ← m_rib b !! ru_name update;
  match ru_action update with
  | REGISTER => Some (rb_setRib (<[ru_name update := addInheritedRoute_e (ru_route update) entry]> (m_rib b)) b)
  | UNREGISTER =>
      entry ← removeInheritedRoute_e (ru_route update) entry;
      Some (rb_setRib (<[ru_name update := entry]> (m_rib b)) b)
  | REMOVE_FACE => Some b
  end.
Definition modifyInheritedRoutes : list RibUpdate → Rib → option Rib := fold_opt modifyInheritedRoute.
End rib.

(** ** The queue *)

Definition addUpdateToQueue (update : RibUpdate) (callback : option RibUpdate) (b : Rib) : option Rib :=
  batch ← RibUpdateBatch_add update (RibUpdateBatch_new (rt_faceId (ru_route update)));
  Some (rb_setQueue (m_updateBatches b ++ [mkItem batch callback]) b).

(** The routes of a face; [None] cannot happen while [m_faceMap] names entries. *)
Definition routes_of (faceId : Z) (n : Name) (b : Rib) : option (list (Name * Route)) :=
  entry ← m_rib b !! n; Some ((λ r, (re_name entry, r)) <$> filter (λ r, rt_faceId r = faceId) (re_routes entry)).
Definition findRoutesWithFaceId (faceId : Z) (b : Rib) : option (list (Name * Route)) :=
  match m_faceMap b !! faceId with
  | None => Some []
  | Some entries => l ← mapM (λ n, routes_of faceId n b) entries; Some (concat l)
  end.
