(* ===== verification/RibFacts.v ===== *)
(** * Facts about the RIB: the tree of entries and the map of routes

    The tree is a function of the names: the parent of an entry is its longest
    proper prefix in the table.  Insertion and erasure keep that, and act on the
    routes as on a map from name, face and origin. *)

From stdpp Require Import sorting.
From S2P Require Import Prelude Packets Timers RibEntry Rib.

Lemma filter_ext_in {A} (P Q : A → Prop) `{∀ x, Decision (P x)} `{∀ x, Decision (Q x)} (l : list A) :
  (∀ x, x ∈ l → P x ↔ Q x) → filter P l = filter Q l.
Proof.
  induction l as [|x l IH]; intros Hl; [done|]. rewrite !filter_cons, IH by (intros y Hy; apply Hl; set_solver).
  destruct (decide (P x)) as [Hp|Hp], (decide (Q x)) as [Hq|Hq]; try done; exfalso; apply (Hl x) in Hp || apply (Hl x) in Hq; set_solver.
Qed.

(** ** Prefixes *)

(** [n] is strictly below [p]. *)
Definition below (p n : Name) : Prop := p `prefix_of` n ∧ p ≠ n.
#[export] Instance below_dec p n : Decision (below p n).
Proof. unfold below. apply _. Defined.

Lemma below_length p n : below p n → (length p < length n)%nat.
Proof.
  intros [Hp Hne]. pose proof (prefix_length _ _ Hp). destruct (decide (length p = length n)) as [E|]; [|lia].
  destruct Hne. destruct Hp as [k ->]. rewrite length_app in E. destruct k; [by rewrite app_nil_r|simpl in E; lia].
Qed.
Lemma below_irrefl n : ¬ below n n.
Proof. by intros [_ Hn]. Qed.
Lemma below_trans a b c : below a b → below b c → below a c.
Proof. intros Hab Hbc. split; [etrans; [apply Hab|apply Hbc]|]. intros ->. apply below_length in Hab, Hbc. lia. Qed.
Lemma below_prefix_trans a b c : below a b → b `prefix_of` c → below a c.
Proof. intros Hab Hbc. split; [etrans; [apply Hab|done]|]. intros ->. apply below_length in Hab. apply prefix_length in Hbc. lia. Qed.
Lemma prefix_below_trans a b c : a `prefix_of` b → below b c → below a c.
Proof. intros Hab Hbc. split; [etrans; [done|apply Hbc]|]. intros ->. apply below_length in Hbc. apply prefix_length in Hab. lia. Qed.
Lemma below_take p n : below p n ↔ ∃ k, (k < length n)%nat ∧ p = take k n.
Proof.
  split.
  - intros Hb. exists (length p). split; [by apply below_length|]. by apply prefix_take_iff, Hb.
  - intros (k & Hk & ->). split; [apply prefix_take|]. intros E. apply (f_equal length) in E. rewrite length_take in E. lia.
Qed.
Lemma prefixes_comparable (a b n : Name) : a `prefix_of` n → b `prefix_of` n → a = b ∨ below a b ∨ below b a.
Proof.
  intros Ha Hb. destruct (decide (a = b)) as [|Hne]; [by left|right].
  destruct (prefix_weak_total a b n Ha Hb) as [Hab|Hba]; [left; by split|right; split; [done|congruence]].
Qed.

(** ** Parents *)

Lemma findParent_from_Some m n i p : findParent_from m n i = Some p ↔
  ∃ j, (j < i)%nat ∧ p = take j n ∧ is_Some (m !! p) ∧ ∀ k, (j < k < i)%nat → m !! take k n = None.
Proof.
  induction i as [|i IH]; simpl; [split; [done|intros (j & Hj & _); lia]|]. unfold getPrefix in *.
  destruct (m !! take i n) as [e|] eqn:E.
  - split.
    + intros [= <-]. exists i. split_and!; [lia|done|by rewrite E|]. intros k Hk. lia.
    + intros (j & Hj & -> & Hs & Hno). f_equal. destruct (decide (j = i)) as [->|]; [done|].
      rewrite Hno in E; [done|lia].
  - rewrite IH. split; intros (j & Hj & -> & Hs & Hno); exists j.
    + split_and!; [lia|done|done|]. intros k Hk. destruct (decide (k = i)) as [->|]; [done|]. apply Hno. lia.
    + assert (j ≠ i) by (intros ->; rewrite E in Hs; by destruct Hs). split_and!; [lia|done|done|]. intros k Hk. apply Hno. lia.
Qed.

Lemma findParent_Some m n p : findParent m n = Some p ↔
  below p n ∧ is_Some (m !! p) ∧ ∀ q, below q n → is_Some (m !! q) → q `prefix_of` p.
Proof.
  unfold findParent. rewrite findParent_from_Some. split.
  - intros (j & Hj & -> & Hs & Hno). split_and!; [apply below_take; eauto|done|].
    intros q (k & Hk & ->)%below_take Hq. destruct (decide (k <= j)%nat) as [Hle|].
    + exists (drop k (take j n)). rewrite <-(take_drop k (take j n)) at 1. by rewrite take_take, Nat.min_l.
    + rewrite Hno in Hq by lia. by destruct Hq.
  - intros ((j & Hj & ->)%below_take & Hs & Hmax). exists j. split_and!; [done|done|done|]. intros k Hk.
    destruct (m !! take k n) as [e|] eqn:E; [|done]. assert (Hp : take k n `prefix_of` take j n).
    { apply Hmax; [apply below_take; exists k; split; [lia|done]|by rewrite E]. }
    apply prefix_length in Hp. rewrite !length_take in Hp. lia.
Qed.

Lemma findParent_None m n : findParent m n = None ↔ ∀ q, below q n → m !! q = None.
Proof.
  unfold findParent. split.
  - intros Hn q (k & Hk & ->)%below_take. destruct (m !! take k n) as [e|] eqn:E; [|done].
    revert Hn. generalize (length n), Hk. intros i. induction i as [|i IH]; intros Hki Hn; [lia|]. simpl in Hn. unfold getPrefix in Hn.
    destruct (m !! take i n) eqn:Ei; [done|]. apply IH; [|done]. assert (k ≠ i) by congruence. lia.
  - intros Hno. destruct (findParent_from _ _ _) as [p|] eqn:E; [|done].
    apply findParent_from_Some in E as (j & Hj & -> & [e He] & _). rewrite Hno in He; [done|]. apply below_take. eauto.
Qed.

Lemma findParent_dom m m' n : (∀ q, is_Some (m !! q) ↔ is_Some (m' !! q)) → findParent m n = findParent m' n.
Proof.
  intros Hd. unfold findParent. induction (length n) as [|i IH]; [done|]. simpl. specialize (Hd (getPrefix n i)).
  destruct (m !! getPrefix n i), (m' !! getPrefix n i); try done.
  - destruct Hd as [Hd _]. by destruct Hd.
  - destruct Hd as [_ Hd]. by destruct Hd.
Qed.

(** ** Links between entries *)

Definition re_data (e : RibEntry) : Name * list Route * list Route * Z := (re_name e, re_routes e, re_inherited e, m_nRoutesWithCaptureSet e).
(** The same entries but for their links *)
Definition same_data (m m' : gmap Name RibEntry) : Prop := ∀ n, re_data <$> m !! n = re_data <$> m' !! n.
Definition parent_of (m : gmap Name RibEntry) (n : Name) : option (option Name) := re_parent <$> m !! n.

(** The children of an entry are those it is the parent of. *)
Record links (m : gmap Name RibEntry) : Prop := {
  lk_children n e : m !! n = Some e → NoDup (re_children e) ∧ ∀ c, c ∈ re_children e ↔ parent_of m c = Some (Some n);
  lk_parent c p : parent_of m c = Some (Some p) → is_Some (m !! p) ∧ p ≠ c
}.

#[export] Instance same_data_equiv : Equivalence same_data.
Proof.
  split; [by intros m n|by intros m m' Hd n; rewrite Hd|by intros m m' m'' H1 H2 n; rewrite H1].
Qed.

Lemma same_data_dom m m' n : same_data m m' → is_Some (m !! n) ↔ is_Some (m' !! n).
Proof.
  intros Hd. specialize (Hd n). rewrite <-(fmap_is_Some re_data (m !! n)), <-(fmap_is_Some re_data (m' !! n)). by rewrite Hd.
Qed.
Lemma same_data_findParent m m' n : same_data m m' → findParent m n = findParent m' n.
Proof. intros Hd. apply findParent_dom. intros q. by apply same_data_dom. Qed.

(** Changing only the links of one entry *)
Lemma same_data_insert m n e e' : m !! n = Some e → re_data e' = re_data e → same_data m (<[n := e']> m).
Proof.
  intros He Ed x. destruct (decide (x = n)) as [->|Hne]; [rewrite lookup_insert_eq, He; simpl; by rewrite Ed|by rewrite lookup_insert_ne].
Qed.

(** A new parent for the child, new children for the entry *)
Lemma relink m child ce e ee p l : m !! child = Some ce → m !! e = Some ee → e ≠ child →
  let m' := <[e := re_setChildren l ee]> (<[child := re_setParent p ce]> m) in
  same_data m m' ∧ (∀ n, parent_of m' n = if decide (n = child) then Some p else parent_of m n) ∧
  (∀ n x, m' !! n = Some x → ∃ x0, m !! n = Some x0 ∧ re_children x = if decide (n = e) then l else re_children x0).
Proof.
  intros Hce Hee Hne m'. split_and!.
  - etrans; [by eapply (same_data_insert m child ce (re_setParent p ce))|].
    eapply same_data_insert; [by rewrite lookup_insert_ne|done].
  - intros n. unfold parent_of, m'. case_decide as Hn; [subst n; rewrite lookup_insert_ne, lookup_insert_eq by done; done|].
    destruct (decide (n = e)) as [->|Hn']; [rewrite lookup_insert_eq, Hee; done|by rewrite !lookup_insert_ne by congruence].
  - intros n x Hx. unfold m' in Hx. case_decide as Hn; [subst n; rewrite lookup_insert_eq in Hx; injection Hx as <-; by exists ee|].
    rewrite lookup_insert_ne in Hx by done. destruct (decide (n = child)) as [->|Hnc].
    + rewrite lookup_insert_eq in Hx. injection Hx as <-. by exists ce.
    + rewrite lookup_insert_ne in Hx by done. by exists x.
Qed.

Lemma addChild_spec e child m ce : links m → m !! child = Some ce → re_parent ce = None → is_Some (m !! e) → e ≠ child →
  ∃ m', addChild e child m = Some m' ∧ links m' ∧ same_data m m' ∧
    ∀ n, parent_of m' n = if decide (n = child) then Some (Some e) else parent_of m n.
Proof.
  intros [Hc Hp] Hce Hnone [ee Hee] Hne. unfold addChild. rewrite Hce. simpl. rewrite Hnone.
  rewrite lookup_insert_ne by done. rewrite Hee. simpl. eexists. split; [done|].
  destruct (relink m child ce e ee (Some e) (re_children ee ++ [child]) Hce Hee Hne) as (Hd & Hpar & Hch).
  assert (Hcp : parent_of m child = Some None) by (unfold parent_of; rewrite Hce; simpl; by rewrite Hnone).
  split_and!; [|done|done]. split.
  - intros n x Hx. destruct (Hch n x Hx) as (x0 & Hx0 & ->). destruct (Hc n x0 Hx0) as [Hnd Hin]. case_decide as Hn.
    + subst n. assert (x0 = ee) as -> by congruence.
      split; [apply NoDup_app; split_and!; [done| |apply NoDup_singleton]; intros c Hcin ->%list_elem_of_singleton; apply Hin in Hcin; congruence|].
      intros c. rewrite elem_of_app, list_elem_of_singleton, Hin, Hpar. case_decide; naive_solver.
    + split; [done|]. intros c. rewrite Hin, Hpar. case_decide; naive_solver.
  - intros c p Hcp'. rewrite Hpar in Hcp'. case_decide as Hcc.
    + subst c. injection Hcp' as <-. split; [|done]. apply (same_data_dom _ _ e Hd). by eexists.
    + destruct (Hp c p Hcp'). split; [|done]. by apply (same_data_dom _ _ p Hd).
Qed.

Lemma removeChild_spec e child m : links m → parent_of m child = Some (Some e) →
  ∃ m', removeChild e child m = Some m' ∧ links m' ∧ same_data m m' ∧
    ∀ n, parent_of m' n = if decide (n = child) then Some None else parent_of m n.
Proof.
  intros [Hc Hp] Hpc. destruct (Hp _ _ Hpc) as [[ee Hee] Hne]. unfold removeChild. pose proof Hpc as Hpc'. unfold parent_of in Hpc'.
  apply fmap_Some in Hpc' as (ce & Hce & Hpe). rewrite Hce. simpl. rewrite bool_decide_eq_true_2 by done.
  rewrite lookup_insert_ne by done. rewrite Hee. simpl. eexists. split; [done|].
  destruct (relink m child ce e ee None (filter (λ c, c ≠ child) (re_children ee)) Hce Hee Hne) as (Hd & Hpar & Hch).
  split_and!; [|done|done]. split.
  - intros n x Hx. destruct (Hch n x Hx) as (x0 & Hx0 & ->). destruct (Hc n x0 Hx0) as [Hnd Hin]. case_decide as Hn.
    + subst n. assert (x0 = ee) as -> by congruence. split; [by apply NoDup_filter|]. intros c.
      rewrite list_elem_of_filter, Hin, Hpar. case_decide; naive_solver.
    + split; [done|]. intros c. rewrite Hin, Hpar. case_decide; naive_solver.
  - intros c p Hcp'. rewrite Hpar in Hcp'. case_decide as Hcc; [done|].
    destruct (Hp c p Hcp'). split; [|done]. by apply (same_data_dom _ _ p Hd).
Qed.

(** ** The order of iteration *)

Section order.
Context `{NameOrder}.

#[export] Instance name_le_total : Total name_le.
Proof.
  intros a b. unfold name_le. destruct (decide (a = b)) as [->|Hne]; [left; apply name_lt_irrefl|].
  destruct (name_lt b a) eqn:Eb; [right|by left]. destruct (name_lt a b) eqn:Ea; [|done].
  pose proof (name_lt_trans _ _ _ Ea Eb) as Hc. by rewrite name_lt_irrefl in Hc.
Qed.
#[export] Instance name_le_trans : Transitive name_le.
Proof.
  intros a b c Hab Hbc. unfold name_le in *. destruct (name_lt c a) eqn:E; [|done].
  destruct (decide (b = c)) as [->|Hne]; [congruence|]. destruct (name_lt_total b c Hne) as [Hlt|Hlt]; [|congruence].
  rewrite (name_lt_trans b c a) in Hab by done. done.
Qed.

Lemma rib_names_sorted m : StronglySorted name_le (rib_names m).
Proof. apply StronglySorted_merge_sort; apply _. Qed.
Lemma rib_names_Permutation m : rib_names m ≡ₚ elements (dom m).
Proof. apply merge_sort_Permutation. Qed.
Lemma elem_of_rib_names m n : n ∈ rib_names m ↔ is_Some (m !! n).
Proof. by rewrite rib_names_Permutation, elem_of_elements, elem_of_dom. Qed.
Lemma rib_names_NoDup m : NoDup (rib_names m).
Proof. rewrite rib_names_Permutation. apply NoDup_elements. Qed.

Lemma names_after_split prefix l1 l2 : prefix ∉ l1 → names_after prefix (l1 ++ prefix :: l2) = l2.
Proof.
  induction l1 as [|n l1 IH]; intros Hn; simpl; [by rewrite bool_decide_eq_true_2|].
  rewrite bool_decide_eq_false_2 by set_solver. apply IH. set_solver.
Qed.

Lemma while_below_filter prefix l : StronglySorted name_le l → (∀ n, n ∈ l → name_lt n prefix = false) →
  while_below prefix l = filter (λ n, isPrefixOf prefix n = true) l.
Proof.
  induction 1 as [|x l Hs IH Hx]; intros Hge; [done|]. simpl. rewrite filter_cons. destruct (isPrefixOf prefix x) eqn:E.
  - rewrite decide_True by done. f_equal. apply IH. set_solver.
  - rewrite decide_False by congruence. symmetry. apply filter_none. intros y Hy Ey. rewrite isPrefixOf_true in Ey.
    rewrite Forall_forall in Hx. assert (Hpx : prefix `prefix_of` x).
    { eapply name_lt_contiguous; [exact Ey| |]; [apply Hge; set_solver|by apply Hx]. }
    apply isPrefixOf_true in Hpx. congruence.
Qed.

(** The entries that follow an entry in the table up to the first that is not
    below it are all the entries below it. *)
Lemma findDescendants_filter m prefix : is_Some (m !! prefix) → findDescendants m prefix = filter (below prefix) (rib_names m).
Proof.
  intros [e He]. unfold findDescendants. rewrite He.
  assert (Hin : prefix ∈ rib_names m) by (apply elem_of_rib_names; eauto).
  pose proof (rib_names_sorted m) as Hs. pose proof (rib_names_NoDup m) as Hnd.
  apply list_elem_of_split in Hin as (l1 & l2 & E). rewrite E in *. apply NoDup_app in Hnd as (_ & Hdis & [Hn2 _]%NoDup_cons).
  assert (Hn1 : prefix ∉ l1) by (intros Hin; apply (Hdis prefix Hin); set_solver).
  rewrite names_after_split by done. rewrite filter_app, filter_cons_False by apply below_irrefl.
  apply StronglySorted_app in Hs as (H12 & _ & Hs2). apply StronglySorted_inv in Hs2 as [Hs2 Hge]. rewrite Forall_forall in Hge.
  rewrite (filter_none _ l1), (while_below_filter prefix l2); [|done|exact Hge|].
  - simpl. apply filter_ext_in. intros n Hn. rewrite isPrefixOf_true. unfold below. split; [|by intros [??]]. intros Hp. split; [done|]. by intros ->.
  - intros n Hn [Hp Hne]. pose proof (H12 n prefix Hn ltac:(set_solver)) as Hle. unfold name_le in Hle.
    destruct (name_lt_total n prefix) as [Hlt|Hlt]; [done| |congruence]. by rewrite name_lt_prefix in Hlt.
Qed.

Lemma elem_of_descendants m prefix d : is_Some (m !! prefix) → d ∈ findDescendants m prefix ↔ below prefix d ∧ is_Some (m !! d).
Proof. intros Hp. rewrite findDescendants_filter by done. by rewrite list_elem_of_filter, elem_of_rib_names. Qed.
Lemma descendants_NoDup m prefix : is_Some (m !! prefix) → NoDup (findDescendants m prefix).
Proof. intros Hp. rewrite findDescendants_filter by done. apply NoDup_filter, rib_names_NoDup. Qed.
End order.

(** ** Moving children *)

Lemma parent_of_None m n ce : m !! n = Some ce → parent_of m n = Some None → re_parent ce = None.
Proof. unfold parent_of. intros ->. by intros [=]. Qed.

Lemma adopt_all prefix parent l : ∀ m, links m → NoDup l → is_Some (m !! prefix) → prefix ∉ l → (∀ d, d ∈ l → is_Some (m !! d)) →
  ∃ m', fold_opt (adopt prefix parent) l m = Some m' ∧ links m' ∧ same_data m m' ∧
    ∀ n, parent_of m' n = if decide (n ∈ l ∧ parent_of m n = Some parent) then Some (Some prefix) else parent_of m n.
Proof.
  induction l as [|c l IH]; intros m Hl Hnd Hp Hpl Hin.
  { exists m. split_and!; done. }
  apply NoDup_cons in Hnd as [Hcl Hnd]. apply not_elem_of_cons in Hpl as [Hpc Hpl]. simpl.
  assert (Hstep : ∃ m1, adopt prefix parent c m = Some m1 ∧ links m1 ∧ same_data m m1 ∧
    ∀ n, parent_of m1 n = if decide (n = c ∧ parent_of m c = Some parent) then Some (Some prefix) else parent_of m n).
  { unfold adopt. destruct (Hin c ltac:(set_solver)) as [ce Hce]. rewrite Hce. simpl.
    assert (Epar : parent_of m c = Some (re_parent ce)) by (unfold parent_of; by rewrite Hce).
    case_bool_decide as Hpar.
    2: { exists m. split_and!; try done. intros n. rewrite decide_False; [done|]. rewrite Epar. naive_solver. }
    assert (Hfree : ∃ m1, match parent with Some p => removeChild p c m | None => Some m end = Some m1 ∧ links m1 ∧ same_data m m1 ∧
      ∀ n, parent_of m1 n = if decide (n = c) then Some None else parent_of m n).
    { destruct parent as [p|].
      - apply removeChild_spec; [done|]. by rewrite Epar, Hpar.
      - exists m. split_and!; try done. intros n. case_decide; [|done]. subst n. by rewrite Epar, Hpar. }
    destruct Hfree as (m1 & -> & Hl1 & Hd1 & Hp1). simpl. destruct (proj1 (same_data_dom _ _ c Hd1)) as [ce1 Hce1]; [eauto|].
    destruct (addChild_spec prefix c m1 ce1 Hl1 Hce1) as (m2 & -> & Hl2 & Hd2 & Hp2);
      [eapply parent_of_None; [done|]; rewrite Hp1; by case_decide|by apply (same_data_dom _ _ prefix Hd1)|done|].
    exists m2. split_and!; [done|done|by etrans|]. intros n. rewrite Hp2, Hp1. repeat case_decide; naive_solver. }
  destruct Hstep as (m1 & -> & Hl1 & Hd1 & Hp1). simpl.
  destruct (IH m1) as (m' & E & Hl' & Hd' & Hp'); [done|done|by apply (same_data_dom _ _ prefix Hd1)|done| |].
  { intros d Hd. apply (same_data_dom _ _ d Hd1), Hin. set_solver. }
  exists m'. split_and!; [done|done|by etrans|]. intros n. rewrite Hp', Hp1.
  destruct (decide (n = c)) as [->|Hne].
  - rewrite (decide_False (P := c ∈ l ∧ _)) by naive_solver. repeat case_decide; set_solver.
  - rewrite (decide_False (P := n = c ∧ _)) by naive_solver. repeat case_decide; set_solver.
Qed.

Lemma disown_all prefix parent l : ∀ m, links m → NoDup l → (∀ d, d ∈ l → parent_of m d = Some (Some prefix)) →
  (∀ p, parent = Some p → is_Some (m !! p) ∧ p ∉ l) →
  ∃ m', fold_opt (disown prefix parent) l m = Some m' ∧ links m' ∧ same_data m m' ∧
    ∀ n, parent_of m' n = if decide (n ∈ l) then Some parent else parent_of m n.
Proof.
  induction l as [|c l IH]; intros m Hl Hnd Hin Hpar.
  { exists m. split_and!; try done. }
  apply NoDup_cons in Hnd as [Hcl Hnd]. simpl.
  assert (Hstep : ∃ m1, disown prefix parent c m = Some m1 ∧ links m1 ∧ same_data m m1 ∧
    ∀ n, parent_of m1 n = if decide (n = c) then Some parent else parent_of m n).
  { unfold disown. destruct (removeChild_spec prefix c m Hl) as (m1 & -> & Hl1 & Hd1 & Hp1); [apply Hin; set_solver|]. simpl.
    destruct parent as [p|]; [|by exists m1]. destruct (Hpar p eq_refl) as [Hsp Hpl].
    assert (Hc : is_Some (m !! c)).
    { pose proof (Hin c ltac:(set_solver)) as Hc. unfold parent_of in Hc. apply fmap_Some in Hc as (ce & -> & _). by eexists. }
    destruct (proj1 (same_data_dom _ _ c Hd1) Hc) as [ce1 Hce1].
    destruct (addChild_spec p c m1 ce1 Hl1 Hce1) as (m2 & -> & Hl2 & Hd2 & Hp2);
      [eapply parent_of_None; [done|]; rewrite Hp1; by case_decide|by apply (same_data_dom _ _ p Hd1)|set_solver|].
    exists m2. split_and!; [done|done|by etrans|]. intros n. rewrite Hp2, Hp1. by case_decide. }
  destruct Hstep as (m1 & -> & Hl1 & Hd1 & Hp1). simpl.
  destruct (IH m1) as (m' & E & Hl' & Hd' & Hp'); [done|done| | |].
  { intros d Hd. rewrite Hp1, decide_False by (intros ->; done). apply Hin. set_solver. }
  { intros p Ep. destruct (Hpar p Ep). split; [by apply (same_data_dom _ _ p Hd1)|set_solver]. }
  exists m'. split_and!; [done|done|by etrans|]. intros n. rewrite Hp', Hp1. repeat case_decide; set_solver.
Qed.

(** ** The tree *)

(** The tree of a table: the parent of an entry is its longest proper prefix in
    the table, and its children are the entries it is the parent of. *)
Record tree_wf (m : gmap Name RibEntry) : Prop := {
  tw_links : links m;
  tw_name n e : m !! n = Some e → re_name e = n;
  tw_parent n : is_Some (m !! n) → parent_of m n = Some (findParent m n)
}.

Lemma same_data_name m m' n e : same_data m m' → (∀ n e, m !! n = Some e → re_name e = n) → m' !! n = Some e → re_name e = n.
Proof.
  intros Hd Hn He. specialize (Hd n). rewrite He in Hd. simpl in Hd. apply fmap_Some in Hd as (e0 & He0 & Ed).
  apply (Hn n e0) in He0. unfold re_data in Ed. congruence.
Qed.

Lemma findParent_insert m prefix e0 d : m !! prefix = None → d ≠ prefix → is_Some (m !! d) →
  findParent (<[prefix := e0]> m) d =
    if decide (below prefix d ∧ findParent m d = findParent m prefix) then Some prefix else findParent m d.
Proof.
  intros Hno Hne Hd. set (m0 := <[prefix := e0]> m). assert (Hdom : ∀ q, is_Some (m0 !! q) ↔ q = prefix ∨ is_Some (m !! q)).
  { intros q. unfold m0. rewrite lookup_insert_is_Some'. naive_solver. }
  case_decide as Hc.
  - destruct Hc as [Hb Eq]. apply findParent_Some. split_and!; [done|by apply Hdom; left|].
    intros q Hq [->|Hs]%Hdom; [done|]. destruct (prefixes_comparable q prefix d) as [->|[Hqp|Hpq]]; [apply Hq|apply Hb|done|apply Hqp|].
    exfalso. destruct (findParent m d) as [p|] eqn:Ep.
    + symmetry in Eq. apply findParent_Some in Ep as (Hpd & Hsp & Hmax). apply findParent_Some in Eq as (Hpp & _ & _).
      apply (below_irrefl q). eapply prefix_below_trans; [apply Hmax; done|]. by eapply below_trans.
    + pose proof (proj1 (findParent_None m d) Ep q Hq) as Hn. rewrite Hn in Hs. by destruct Hs.
  - destruct (findParent m d) as [p|] eqn:Ep.
    + pose proof Ep as (Hpd & Hsp & Hmax)%findParent_Some. apply findParent_Some. split_and!; [done|apply Hdom; by right|].
      intros q Hq [->|Hs]%Hdom; [|by apply Hmax]. destruct (prefixes_comparable prefix p d) as [->|[Hpp|Hpp]]; [apply Hq|apply Hpd|done|apply Hpp|].
      exfalso. apply Hc. split; [done|]. symmetry. apply findParent_Some. split_and!; [done|done|].
      intros q Hqp Hsq. apply Hmax; [|done]. by eapply below_trans.
    + apply findParent_None. intros q Hq. pose proof (proj1 (findParent_None m d) Ep) as Hn. unfold m0.
      rewrite lookup_insert_ne; [by apply Hn|]. intros ->. apply Hc. split; [done|]. symmetry. apply findParent_None.
      intros x Hx. apply Hn. by eapply below_trans.
Qed.

Lemma findParent_insert_self m prefix e0 : findParent (<[prefix := e0]> m) prefix = findParent m prefix.
Proof.
  unfold findParent. assert (Hi : ∀ i, (i <= length prefix)%nat → findParent_from (<[prefix := e0]> m) prefix i = findParent_from m prefix i).
  { induction i as [|i IH]; intros Hi; [done|]. simpl. rewrite IH by lia. rewrite lookup_insert_ne; [done|]. unfold getPrefix.
    intros E. apply (f_equal length) in E. rewrite length_take in E. lia. }
  by apply Hi.
Qed.

Section insert.
Context `{NameOrder}.

Lemma insert_links m prefix e0 : links m → m !! prefix = None → re_parent e0 = None → re_children e0 = [] → links (<[prefix := e0]> m).
Proof.
  intros [Hc Hp] Hno Hpar Hch. assert (Epar : ∀ c p, parent_of (<[prefix := e0]> m) c = Some (Some p) ↔ parent_of m c = Some (Some p)).
  { intros c p. unfold parent_of. destruct (decide (c = prefix)) as [->|]; [rewrite lookup_insert_eq, Hno; simpl; rewrite Hpar; naive_solver|].
    by rewrite lookup_insert_ne. }
  split.
  - intros n e He. apply lookup_insert_Some in He as [[<- <-]|[Hne He]].
    + rewrite Hch. split; [apply NoDup_nil_2|]. intros c. rewrite Epar. split; [by intros ?%elem_of_nil|].
      intros Hcp. destruct (Hp _ _ Hcp) as [[x Hx] _]. congruence.
    + destruct (Hc n e He) as [? Hin]. split; [done|]. intros c. by rewrite Hin, Epar.
  - intros c p Hcp. rewrite Epar in Hcp. destruct (Hp _ _ Hcp). split; [|done]. rewrite lookup_insert_is_Some'. auto.
Qed.

Lemma new_entry_spec m prefix e0 : tree_wf m → m !! prefix = None → re_parent e0 = None → re_children e0 = [] → re_name e0 = prefix →
  let m0 := <[prefix := e0]> m in let parent := findParent m0 prefix in
  ∃ m1 m', match parent with Some p => addChild p prefix m0 | None => Some m0 end = Some m1 ∧
    fold_opt (adopt prefix parent) (findDescendants m1 prefix) m1 = Some m' ∧ tree_wf m' ∧ same_data m0 m'.
Proof.
  intros [Hl Hn Hp] Hno Hpar0 Hch0 Hn0 m0 parent.
  assert (Hl0 : links m0) by by apply insert_links. assert (H0 : m0 !! prefix = Some e0) by apply lookup_insert_eq.
  assert (Epar : parent = findParent m prefix) by apply findParent_insert_self.
  assert (H1 : ∃ m1, match parent with Some p => addChild p prefix m0 | None => Some m0 end = Some m1 ∧ links m1 ∧ same_data m0 m1 ∧
    ∀ n, parent_of m1 n = if decide (n = prefix) then Some parent else parent_of m0 n).
  { destruct parent as [p|] eqn:Ep.
    - symmetry in Epar. apply findParent_Some in Epar as ([_ Hne] & Hs & _).
      apply (addChild_spec p prefix m0 e0); [done|done|done| |done]. unfold m0. rewrite lookup_insert_is_Some'. auto.
    - exists m0. split_and!; try done. intros n. case_decide; [|done]. subst n. unfold parent_of. rewrite H0. simpl. by rewrite Hpar0. }
  destruct H1 as (m1 & E1 & Hl1 & Hd1 & Hp1). exists m1.
  assert (Hdom1 : ∀ n, is_Some (m1 !! n) ↔ n = prefix ∨ is_Some (m !! n)).
  { intros n. rewrite <-(same_data_dom _ _ n Hd1). unfold m0. rewrite lookup_insert_is_Some'. naive_solver. }
  destruct (adopt_all prefix parent (findDescendants m1 prefix) m1) as (m' & E' & Hl' & Hd' & Hp').
  { done. } { apply descendants_NoDup, Hdom1. by left. } { apply Hdom1. by left. }
  { rewrite elem_of_descendants by (apply Hdom1; by left). by intros [?%below_irrefl _]. }
  { intros d. rewrite elem_of_descendants by (apply Hdom1; by left). by intros [_ Hs]. }
  exists m'. assert (Hd : same_data m0 m') by by etrans. split_and!; [done|done| |done]. split; [done| |].
  - intros n e He. eapply same_data_name; [exact Hd| |exact He]. intros x ex Hx. unfold m0 in Hx.
    apply lookup_insert_Some in Hx as [[<- <-]|[_ Hx]]; [done|by apply Hn].
  - intros n Hs. rewrite <-(same_data_findParent _ _ n Hd). rewrite <-(same_data_dom _ _ n Hd) in Hs. rewrite Hp', Hp1.
    assert (Hin : n ∈ findDescendants m1 prefix ↔ below prefix n ∧ is_Some (m !! n)).
    { rewrite elem_of_descendants by (apply Hdom1; by left). rewrite Hdom1. split; [|naive_solver].
      intros [Hb [->|?]]; [by apply below_irrefl in Hb|done]. }
    destruct (decide (n = prefix)) as [->|Hne].
    + rewrite decide_False by (rewrite Hin; naive_solver). done.
    + assert (Hsm : is_Some (m !! n)) by (unfold m0 in Hs; by rewrite lookup_insert_ne in Hs).
      assert (E0 : parent_of m0 n = Some (findParent m n)) by (rewrite <-Hp by done; unfold parent_of, m0; by rewrite lookup_insert_ne).
      rewrite E0, Epar. unfold m0. rewrite findParent_insert by done.
      destruct (decide (below prefix n ∧ findParent m n = findParent m prefix)) as [[Hb Eb]|Hb].
      * rewrite decide_True; [done|]. split; [by apply Hin|by rewrite Eb].
      * rewrite decide_False; [done|]. intros [Hd1' [= Eb]]. apply Hb. split; [by apply Hin in Hd1' as [? _]|done].
Qed.
End insert.

Lemma links_delete m prefix : links m → parent_of m prefix = Some None → (∀ c, parent_of m c ≠ Some (Some prefix)) → links (delete prefix m).
Proof.
  intros [Hc Hp] Hnone Hno. assert (Epar : ∀ c p, parent_of (delete prefix m) c = Some (Some p) ↔ parent_of m c = Some (Some p)).
  { intros c p. unfold parent_of in *. destruct (decide (c = prefix)) as [->|]; [rewrite lookup_delete_eq, Hnone; naive_solver|].
    by rewrite lookup_delete_ne. }
  split.
  - intros n e [Hne He]%lookup_delete_Some. destruct (Hc n e He) as [? Hin]. split; [done|]. intros c. by rewrite Hin, Epar.
  - intros c p Hcp. rewrite Epar in Hcp. destruct (Hp _ _ Hcp). split; [|done]. rewrite lookup_delete_ne; [done|].
    intros ->. by destruct (Hno c).
Qed.

Lemma findParent_delete m prefix d : is_Some (m !! prefix) →
  findParent (delete prefix m) d = if decide (findParent m d = Some prefix) then findParent m prefix else findParent m d.
Proof.
  intros Hp. assert (Hdom : ∀ q, is_Some (delete prefix m !! q) ↔ q ≠ prefix ∧ is_Some (m !! q)).
  { intros q. rewrite lookup_delete_is_Some. naive_solver. }
  case_decide as Hc.
  - apply findParent_Some in Hc as (Hb & _ & Hmax). destruct (findParent m prefix) as [p|] eqn:Ep.
    + apply findParent_Some in Ep as (Hpp & Hsp & Hmaxp). apply findParent_Some. split_and!; [by eapply below_trans|apply Hdom; split; [apply Hpp|done]|].
      intros q Hq [Hne Hs]%Hdom. apply Hmaxp; [|done]. split; [by apply Hmax|done].
    + apply findParent_None. intros q Hq. destruct (delete prefix m !! q) eqn:E; [|done].
      destruct (proj1 (Hdom q)) as [Hne Hs]; [eauto|]. pose proof (proj1 (findParent_None m prefix) Ep q) as Hn.
      rewrite Hn in Hs; [by destruct Hs|]. split; [by apply Hmax|done].
  - destruct (findParent m d) as [p|] eqn:Ep.
    + apply findParent_Some in Ep as (Hb & Hs & Hmax). apply findParent_Some. split_and!; [done|apply Hdom; split; [congruence|done]|].
      intros q Hq [_ Hs']%Hdom. by apply Hmax.
    + apply findParent_None. intros q Hq. apply lookup_delete_None. right. by apply findParent_None with d.
Qed.

Lemma erase_entry_spec m prefix entry : tree_wf m → m !! prefix = Some entry →
  ∃ m1 m2, match re_parent entry with Some p => removeChild p prefix m | None => Some m end = Some m1 ∧
    fold_opt (disown prefix (re_parent entry)) (re_children entry) m1 = Some m2 ∧
    tree_wf (delete prefix m2) ∧ same_data (delete prefix m) (delete prefix m2).
Proof.
  intros [Hl Hn Hp] He. assert (Epar : parent_of m prefix = Some (re_parent entry)) by (unfold parent_of; by rewrite He).
  assert (Eparent : re_parent entry = findParent m prefix) by (rewrite Hp in Epar by eauto; congruence).
  destruct (lk_children m Hl prefix entry He) as [Hnd Hch].
  assert (H1 : ∃ m1, match re_parent entry with Some p => removeChild p prefix m | None => Some m end = Some m1 ∧ links m1 ∧ same_data m m1 ∧
    ∀ n, parent_of m1 n = if decide (n = prefix) then Some None else parent_of m n).
  { destruct (re_parent entry) as [p|] eqn:E.
    - apply removeChild_spec; [done|]. by rewrite Epar.
    - exists m. split_and!; try done. intros n. case_decide; [|done]. by subst n. }
  destruct H1 as (m1 & E1 & Hl1 & Hd1 & Hp1). exists m1.
  assert (Hself : prefix ∉ re_children entry).
  { rewrite Hch. intros Hs. by destruct (lk_parent m Hl prefix prefix Hs). }
  destruct (disown_all prefix (re_parent entry) (re_children entry) m1 Hl1 Hnd) as (m2 & E2 & Hl2 & Hd2 & Hp2).
  { intros d Hd. rewrite Hp1, decide_False by (intros ->; done). by apply Hch. }
  { intros p Ep. rewrite Ep in Eparent. symmetry in Eparent. apply findParent_Some in Eparent as (Hb & Hs & _).
    split; [by apply (same_data_dom _ _ p Hd1)|]. rewrite Hch. intros Hpar. rewrite Hp in Hpar by done. injection Hpar as Hpar.
    apply findParent_Some in Hpar as (Hb' & _). apply (below_irrefl p). by eapply below_trans. }
  assert (Hd : same_data m m2) by by etrans.
  assert (Hd' : same_data (delete prefix m) (delete prefix m2)).
  { intros n. destruct (decide (n = prefix)) as [->|]; [by rewrite !lookup_delete_eq|by rewrite !lookup_delete_ne]. }
  exists m2. split_and!; [done|done| |done]. split.
  - apply links_delete; [done| |].
    + by rewrite Hp2, Hp1, decide_False, decide_True.
    + intros c Hc. rewrite Hp2, Hp1 in Hc. destruct (decide (c ∈ re_children entry)) as [Hin|Hin].
      * rewrite Eparent in Hc. injection Hc as Hc. apply findParent_Some in Hc as (Hb & _). by apply below_irrefl in Hb.
      * case_decide; [done|]. by apply Hin, Hch.
  - intros n e Hne. eapply same_data_name; [exact Hd'| |exact Hne]. intros x ex [_ Hx]%lookup_delete_Some. by apply Hn.
  - intros n [Hne Hs]%lookup_delete_is_Some. rewrite <-(same_data_findParent _ _ n Hd'), findParent_delete by eauto.
    assert (Hsm : is_Some (m !! n)) by by apply (same_data_dom _ _ n Hd).
    unfold parent_of. rewrite lookup_delete_ne by done. change (parent_of m2 n = Some (if decide (findParent m n = Some prefix) then findParent m prefix else findParent m n)).
    rewrite Hp2, Hp1. rewrite (decide_False (P := n = prefix)) by done. rewrite Hp by done. rewrite <-Eparent.
    destruct (decide (n ∈ re_children entry)) as [Hin|Hin].
    + apply Hch in Hin. rewrite Hp in Hin by done. injection Hin as ->. by rewrite decide_True.
    + rewrite decide_False; [done|]. intros E. apply Hin, Hch. by rewrite Hp, E.
Qed.

(** Routes change, links do not. *)
Lemma tree_wf_update m n e e' : m !! n = Some e → re_children e' = re_children e → re_parent e' = re_parent e → re_name e' = re_name e →
  tree_wf m → tree_wf (<[n := e']> m).
Proof.
  intros He Ec Ep En [[Hc Hlp] Hn Hp]. assert (Epar : ∀ c, parent_of (<[n := e']> m) c = parent_of m c).
  { intros c. unfold parent_of. destruct (decide (c = n)) as [->|]; [rewrite lookup_insert_eq, He; simpl; by rewrite Ep|by rewrite lookup_insert_ne]. }
  assert (Hdom : ∀ q, is_Some (<[n := e']> m !! q) ↔ is_Some (m !! q)).
  { intros q. rewrite lookup_insert_is_Some'. split; [intros [<-|]; eauto|eauto]. }
  split; [split| |].
  - intros x ex Hx. apply lookup_insert_Some in Hx as [[<- <-]|[Hne Hx]].
    + rewrite Ec. destruct (Hc n e He) as [? Hin]. split; [done|]. intros c. by rewrite Epar.
    + destruct (Hc x ex Hx) as [? Hin]. split; [done|]. intros c. by rewrite Epar.
  - intros c p. rewrite Epar, Hdom. apply Hlp.
  - intros x ex Hx. apply lookup_insert_Some in Hx as [[<- <-]|[Hne Hx]]; [rewrite En; by apply Hn|by apply Hn].
  - intros x. rewrite Hdom, Epar. intros Hs. rewrite Hp by done. f_equal. apply findParent_dom. intros q. symmetry. apply Hdom.
Qed.
