(* ===== verification/RibSpec.v ===== *)
(** * What the RIB implements: a map from names, faces and origins to routes

    The invariant of the RIB, insertion and erasure on the map of routes, the
    routes of a face, and the routes an entry inherits from its ancestors. *)

From S2P Require Import Prelude Packets Timers RibEntry Rib RibFacts.

(** ** The routes of an entry *)

Definition route_key (r : Route) : Z * Z := (rt_faceId r, rt_origin r).

Lemma compare_key r s : compareFaceIdAndOrigin r s = true ↔ route_key r = route_key s.
Proof.
  unfold compareFaceIdAndOrigin, route_key. rewrite andb_true_iff, !Z.eqb_eq. split; [by intros [-> ->]|by intros [= -> ->]].
Qed.

Lemma findRoute_Some route e i r : NoDup (route_key <$> re_routes e) →
  findRoute route e = Some (i, r) ↔ re_routes e !! i = Some r ∧ route_key r = route_key route.
Proof.
  intros Hnd. unfold findRoute. rewrite list_find_Some. split.
  - intros (Hi & Hc & _). split; [done|]. by apply compare_key.
  - intros [Hi Hk]. split_and!; [done|by apply compare_key|]. intros j s Hj Hlt Hc%compare_key.
    assert (j = i); [|lia]. apply (NoDup_lookup _ j i (route_key route) Hnd); rewrite list_lookup_fmap; [by rewrite Hj; simpl; rewrite Hc|by rewrite Hi; simpl; rewrite Hk].
Qed.
Lemma findRoute_None route e : findRoute route e = None ↔ route_key route ∉ route_key <$> re_routes e.
Proof.
  unfold findRoute. rewrite list_find_None, Forall_forall. split.
  - intros Hno (r & Ek & Hr)%list_elem_of_fmap. apply (Hno r Hr). by apply compare_key.
  - intros Hno r Hr Hc%compare_key. apply Hno. apply list_elem_of_fmap. by exists r.
Qed.
Lemma findRoute_same route s e : route_key s = route_key route → findRoute s e = findRoute route e.
Proof.
  intros Ek. unfold findRoute. apply list_find_ext. intros r. rewrite !compare_key. by rewrite Ek.
Qed.

Lemma hasFaceId_true f e : hasFaceId f e = true ↔ ∃ r, r ∈ re_routes e ∧ rt_faceId r = f.
Proof.
  unfold hasFaceId. rewrite existsb_exists. setoid_rewrite <-list_elem_of_In. unfold compareFaceId. setoid_rewrite Z.eqb_eq. done.
Qed.

(** ** The map of routes *)

Definition all_routes (m : gmap Name RibEntry) : gmap Name (list Route) := re_routes <$> m.
Definition nRoutes (g : gmap Name (list Route)) : Z := Z.of_nat (length (concat (map_to_list g).*2)).

Lemma all_routes_same m m' : same_data m m' → all_routes m = all_routes m'.
Proof.
  intros Hd. apply map_eq. intros n. unfold all_routes. rewrite !lookup_fmap. specialize (Hd n).
  destruct (m !! n), (m' !! n); try done. simpl in *. unfold re_data in Hd. congruence.
Qed.
Lemma all_routes_insert n e m : all_routes (<[n := e]> m) = <[n := re_routes e]> (all_routes m).
Proof. apply fmap_insert. Qed.
Lemma all_routes_delete n m : all_routes (delete n m) = delete n (all_routes m).
Proof. apply fmap_delete. Qed.

Lemma nRoutes_insert n l g : g !! n = None → nRoutes (<[n := l]> g) = Z.of_nat (length l) + nRoutes g.
Proof.
  intros Hn. unfold nRoutes. rewrite (map_to_list_insert g n l Hn). csimpl. by rewrite length_app, Nat2Z.inj_add.
Qed.
Lemma nRoutes_delete n l g : g !! n = Some l → nRoutes g = Z.of_nat (length l) + nRoutes (delete n g).
Proof. intros Hn. rewrite <-(insert_delete_id g n l) at 1 by done. rewrite nRoutes_insert; [done|apply lookup_delete_eq]. Qed.
Lemma nRoutes_update n l l' g : g !! n = Some l → nRoutes (<[n := l']> g) = nRoutes g + Z.of_nat (length l') - Z.of_nat (length l).
Proof.
  intros Hn. rewrite (nRoutes_delete n l g Hn), <-insert_delete_eq, nRoutes_insert by apply lookup_delete_eq. lia.
Qed.

(** ** The invariant *)

Definition face_in (g : gmap Name (list Route)) (f : Z) (n : Name) : Prop := ∃ l r, g !! n = Some l ∧ r ∈ l ∧ rt_faceId r = f.

Record rib_ok (b : Rib) : Prop := {
  ro_tree : tree_wf (m_rib b);
  ro_routes n l : all_routes (m_rib b) !! n = Some l → l ≠ [] ∧ NoDup (route_key <$> l);
  ro_faces f n : n ∈ default [] (m_faceMap b !! f) ↔ face_in (all_routes (m_rib b)) f n;
  ro_nItems : rb_nItems b = u64 (nRoutes (all_routes (m_rib b)))
}.

Lemma Rib_new_ok : rib_ok Rib_new.
Proof.
  split; simpl.
  - split; [split| |].
    + intros n e He. by rewrite lookup_empty in He.
    + intros c p Hc. unfold parent_of in Hc. by rewrite lookup_empty in Hc.
    + intros n e He. by rewrite lookup_empty in He.
    + intros n Hn. rewrite lookup_empty in Hn. by destruct Hn.
  - intros n l Hl. unfold all_routes in Hl. by rewrite lookup_fmap, lookup_empty in Hl.
  - intros f n. rewrite lookup_empty. simpl. split; [by intros ?%elem_of_nil|]. intros (l & r & Hl & _). unfold all_routes in Hl; by rewrite lookup_fmap, lookup_empty in Hl.
  - done.
Qed.

Lemma face_in_insert g f n l x : face_in (<[n := l]> g) f x ↔ if decide (x = n) then ∃ r, r ∈ l ∧ rt_faceId r = f else face_in g f x.
Proof.
  unfold face_in. case_decide as Hx; [subst x; rewrite lookup_insert_eq; naive_solver|by rewrite lookup_insert_ne].
Qed.
Lemma face_in_delete g f n x : face_in (delete n g) f x ↔ x ≠ n ∧ face_in g f x.
Proof.
  unfold face_in. destruct (decide (x = n)) as [->|]; [rewrite lookup_delete_eq; naive_solver|]. rewrite lookup_delete_ne by done. naive_solver.
Qed.

Lemma push_faces (fm : gmap Z (list Name)) f0 n0 f x :
  x ∈ default [] (<[f0 := default [] (fm !! f0) ++ [n0]]> fm !! f) ↔ x ∈ default [] (fm !! f) ∨ f = f0 ∧ x = n0.
Proof.
  destruct (decide (f = f0)) as [->|]; [rewrite lookup_insert_eq|by rewrite lookup_insert_ne; naive_solver].
  simpl. rewrite elem_of_app, list_elem_of_singleton. naive_solver.
Qed.
Lemma remove_faces (fm : gmap Z (list Name)) f0 n0 f x :
  x ∈ default [] (<[f0 := filter (λ x, x ≠ n0) (default [] (fm !! f0))]> fm !! f) ↔ x ∈ default [] (fm !! f) ∧ ¬ (f = f0 ∧ x = n0).
Proof.
  destruct (decide (f = f0)) as [->|]; [rewrite lookup_insert_eq|by rewrite lookup_insert_ne; naive_solver].
  simpl. rewrite list_elem_of_filter. naive_solver.
Qed.

(** ** Insertion *)

Lemma filter_all {A} (P : A → Prop) `{∀ x, Decision (P x)} (l : list A) : (∀ x, x ∈ l → P x) → filter P l = l.
Proof.
  induction l as [|x l IH]; intros Hl; [done|]. rewrite filter_cons_True by (apply Hl; set_solver).
  f_equal. apply IH. intros y Hy. apply Hl. set_solver.
Qed.

Section ops.
Context `{NameOrder} `{RouteFlags}.

Lemma updateRoute_same route r : route_key r = route_key route → updateRoute route r = route.
Proof. unfold route_key, updateRoute. destruct route, r. simpl. by intros [= -> ->]. Qed.

(** The route in its place, or at the end *)
Definition put_route (route : Route) (l : list Route) : list Route :=
  match list_find (λ r, compareFaceIdAndOrigin r route = true) l with
  | Some (i, r) => <[i := route]> l
  | None => l ++ [route]
  end.

Lemma put_route_new route : put_route route [] = [route].
Proof. done. Qed.

Lemma put_route_keys route l : NoDup (route_key <$> l) → NoDup (route_key <$> put_route route l) ∧ put_route route l ≠ [].
Proof.
  intros Hnd. unfold put_route. destruct (list_find _ l) as [[i r]|] eqn:E.
  - apply list_find_Some in E as (Hi & Hk & _). apply compare_key in Hk. split; [|by destruct l, i].
    rewrite list_fmap_insert, list_insert_id; [done|]. by rewrite list_lookup_fmap, Hi, <-Hk.
  - split; [|by destruct l]. rewrite fmap_app. apply NoDup_app. split_and!; [done| |apply NoDup_singleton].
    intros k Hk ->%list_elem_of_singleton. apply list_elem_of_fmap in Hk as (r & Ek & Hr).
    apply list_find_None in E. rewrite Forall_forall in E. apply (E r Hr). by apply compare_key.
Qed.

Lemma put_route_in route l s : NoDup (route_key <$> l) → s ∈ put_route route l ↔ s = route ∨ s ∈ l ∧ route_key s ≠ route_key route.
Proof.
  intros Hnd. unfold put_route. destruct (list_find _ l) as [[i r]|] eqn:E.
  - apply list_find_Some in E as (Hi & Hk & _). apply compare_key in Hk. split.
    + intros [j Hj]%list_elem_of_lookup_1. destruct (decide (i = j)) as [<-|Hne].
      * rewrite list_lookup_insert_eq in Hj by (by eapply lookup_lt_Some). left. congruence.
      * rewrite list_lookup_insert_ne in Hj by done. right. split; [by eapply list_elem_of_lookup_2|]. intros Es. apply Hne.
        apply (NoDup_lookup _ i j (route_key route) Hnd); rewrite list_lookup_fmap; [by rewrite Hi; simpl; rewrite Hk|by rewrite Hj; simpl; rewrite Es].
    + intros [->|[Hs Hne]].
      * apply (list_elem_of_lookup_2 _ i). apply list_lookup_insert_eq. by eapply lookup_lt_Some.
      * apply list_elem_of_lookup_1 in Hs as [j Hj]. apply (list_elem_of_lookup_2 _ j). rewrite list_lookup_insert_ne; [done|].
        intros ->. congruence.
  - rewrite elem_of_app, list_elem_of_singleton. apply list_find_None in E. rewrite Forall_forall in E. split.
    + intros [Hs| ->]; [|by left]. right. split; [done|]. intros Ek. apply (E s Hs). by apply compare_key.
    + intros [->|[Hs _]]; auto.
Qed.

(** The update keeps one entry's name, or makes it, and leaves the others. *)
Record insert_result (prefix : Name) (route : Route) (b b' : Rib) : Prop := {
  ir_ok : rib_ok b';
  ir_others n : n ≠ prefix → re_data <$> m_rib b' !! n = re_data <$> m_rib b !! n;
  ir_entry : ∃ e', m_rib b' !! prefix = Some e' ∧
    re_routes e' = put_route route (default [] (re_routes <$> m_rib b !! prefix)) ∧
    re_inherited e' = default [] (re_inherited <$> m_rib b !! prefix) ∧
    (isCapture route = false → m_nRoutesWithCaptureSet e' = default 0 (m_nRoutesWithCaptureSet <$> m_rib b !! prefix));
  ir_queue : m_updateBatches b' = m_updateBatches b ∧ m_isUpdateInProgress b' = m_isUpdateInProgress b
}.

Lemma all_routes_upd (m m' : gmap Name RibEntry) prefix e' : (∀ n, n ≠ prefix → re_data <$> m' !! n = re_data <$> m !! n) →
  m' !! prefix = Some e' → all_routes m' = <[prefix := re_routes e']> (all_routes m).
Proof.
  intros Ho He. apply map_eq. intros n. unfold all_routes. destruct (decide (n = prefix)) as [->|Hne].
  - by rewrite lookup_insert_eq, lookup_fmap, He.
  - rewrite lookup_insert_ne, !lookup_fmap by done. specialize (Ho n Hne). destruct (m !! n), (m' !! n); try done.
    simpl in *. unfold re_data in Ho. congruence.
Qed.

(** One entry's routes are replaced, with the number of items and the faces. *)
Lemma rib_ok_put b b' prefix l : rib_ok b → tree_wf (m_rib b') → all_routes (m_rib b') = <[prefix := l]> (all_routes (m_rib b)) →
  l ≠ [] → NoDup (route_key <$> l) →
  rb_nItems b' = u64 (rb_nItems b + Z.of_nat (length l) - Z.of_nat (length (default [] (all_routes (m_rib b) !! prefix)))) →
  (∀ f n, n ∈ default [] (m_faceMap b' !! f) ↔ if decide (n = prefix) then ∃ r, r ∈ l ∧ rt_faceId r = f else n ∈ default [] (m_faceMap b !! f)) →
  rib_ok b'.
Proof.
  intros [Ht Hr Hf Hn] Ht' E Hl Hnd En Ef. split; [done| | |].
  - intros n l'. rewrite E. intros [[<- <-]|[_ Hn']]%lookup_insert_Some; [done|by apply (Hr n)].
  - intros f n. rewrite Ef, E, face_in_insert. case_decide; [done|apply Hf].
  - rewrite En, E, Hn. destruct (all_routes (m_rib b) !! prefix) as [l0|] eqn:E0; simpl.
    + rewrite (nRoutes_update _ _ _ _ E0). unfold u64. rewrite Zminus_mod, Zplus_mod_idemp_l, <-Zminus_mod. done.
    + rewrite nRoutes_insert by done. unfold u64. rewrite Z.sub_0_r, Zplus_mod_idemp_l. f_equal. lia.
Qed.

Section cases.
Context (prefix : Name) (route : Route) (b : Rib) (Hok : rib_ok b).

Lemma insert_existing entry i r : m_rib b !! prefix = Some entry → findRoute route entry = Some (i, r) →
  ∃ b', Rib_insert prefix route b = Some b' ∧ insert_result prefix route b b'.
Proof.
  intros Ee Er. pose proof Hok as [Ht Hr Hf Hn]. unfold Rib_insert. rewrite Ee, Er.
  assert (El : all_routes (m_rib b) !! prefix = Some (re_routes entry)) by (unfold all_routes; by rewrite lookup_fmap, Ee).
  destruct (Hr prefix _ El) as [Hne Hnd]. destruct (put_route_keys route (re_routes entry) Hnd) as [Hnd' Hne'].
  unfold put_route in Hnd', Hne'. fold (findRoute route entry) in Hnd', Hne'. rewrite Er in Hnd', Hne'.
  apply findRoute_Some in Er as [Hi Hk]; [|done]. rewrite updateRoute_same by done. eexists. split; [done|].
  set (b1 := match m_expirationEvent r with Some ev => rb_cancel (Some ev) b | None => b end).
  assert (E1 : m_rib b1 = m_rib b ∧ m_faceMap b1 = m_faceMap b ∧ rb_nItems b1 = rb_nItems b ∧ m_updateBatches b1 = m_updateBatches b ∧
    m_isUpdateInProgress b1 = m_isUpdateInProgress b) by (unfold b1; by destruct (m_expirationEvent r)).
  destruct E1 as (E1 & E2 & E3 & E4 & E5). set (e' := re_setRoutes _ _ entry). set (b' := rb_setRib _ b1).
  assert (Em : m_rib b' = <[prefix := e']> (m_rib b)) by (unfold b'; simpl; by rewrite E1).
  split.
  * eapply (rib_ok_put b b' prefix (<[i := route]> (re_routes entry))); [done| | |done|done| |].
    -- rewrite Em. by eapply tree_wf_update.
    -- by rewrite Em, all_routes_insert.
    -- simpl. rewrite E3, El. simpl. rewrite length_insert, Hn. replace (_ + _ - _) with (u64 (nRoutes (all_routes (m_rib b)))) by lia.
       symmetry. apply u64_small, u64_range.
    -- intros f n. simpl. rewrite E2. case_decide as Hn'; [|done]. subst n. rewrite Hf. unfold face_in. rewrite El.
       assert (Hin : ∀ s, s ∈ <[i := route]> (re_routes entry) ↔ s = route ∨ s ∈ re_routes entry ∧ route_key s ≠ route_key route).
       { intros s. rewrite <-put_route_in by done. unfold put_route. fold (findRoute route entry).
         rewrite (proj2 (findRoute_Some route entry i r Hnd)) by done. done. }
       unfold route_key in Hk. split.
       ++ intros (l & s & [= <-] & Hs & Es). destruct (decide (route_key s = route_key route)) as [Ek|Ek].
          ** exists route. rewrite Hin. split; [by left|]. unfold route_key in Ek. congruence.
          ** exists s. rewrite Hin. auto.
       ++ intros (s & [->|[Hs _]]%Hin & Es); [|eauto]. exists (re_routes entry), r. split_and!; [done|by eapply list_elem_of_lookup_2|congruence].
  * intros n Hne''. rewrite Em, lookup_insert_ne by done. done.
  * exists e'. rewrite Em, lookup_insert_eq, Ee. simpl. split_and!; [done| |done|done].
    unfold put_route. fold (findRoute route entry). by rewrite (proj2 (findRoute_Some route entry i r Hnd)).
  * by split.
Qed.

Lemma insert_route entry : m_rib b !! prefix = Some entry → findRoute route entry = None →
  ∃ b', Rib_insert prefix route b = Some b' ∧ insert_result prefix route b b'.
Proof.
  intros Ee Er. pose proof Hok as [Ht Hr Hf Hn]. unfold Rib_insert. rewrite Ee, Er.
  assert (El : all_routes (m_rib b) !! prefix = Some (re_routes entry)) by (unfold all_routes; by rewrite lookup_fmap, Ee).
  destruct (Hr prefix _ El) as [Hne Hnd]. destruct (put_route_keys route (re_routes entry) Hnd) as [Hnd' Hne'].
  unfold put_route in Hnd', Hne'. fold (findRoute route entry) in Hnd', Hne'. rewrite Er in Hnd', Hne'.
  eexists. split; [done|]. apply findRoute_None in Er as Hk. set (e' := (insertRoute route entry).2).
  assert (Ee' : re_routes e' = re_routes entry ++ [route] ∧ re_inherited e' = re_inherited entry ∧ re_children e' = re_children entry ∧
    re_parent e' = re_parent entry ∧ re_name e' = re_name entry) by (unfold e', insertRoute; by rewrite Er).
  destruct Ee' as (E1 & E2 & E3 & E4 & E5). split.
  * eapply (rib_ok_put b _ prefix (re_routes entry ++ [route])); [done| | |done|done| |].
    -- simpl. by eapply tree_wf_update.
    -- simpl. by rewrite all_routes_insert, E1.
    -- simpl. rewrite El. simpl. rewrite length_app. f_equal. simpl. lia.
    -- intros f n. simpl. rewrite push_faces. case_decide as Hn'; [|naive_solver]. subst n. rewrite Hf. unfold face_in. rewrite El.
       setoid_rewrite elem_of_app. setoid_rewrite list_elem_of_singleton. naive_solver.
  * intros n Hne''. simpl. by rewrite lookup_insert_ne.
  * exists e'. simpl. rewrite lookup_insert_eq, Ee. simpl. split_and!; [done| |done|]; [|intros Hcap; unfold e', insertRoute; by rewrite Er, Hcap].
    unfold put_route. fold (findRoute route entry). by rewrite Er.
  * by split.
Qed.

Lemma insert_entry : m_rib b !! prefix = None → ∃ b', Rib_insert prefix route b = Some b' ∧ insert_result prefix route b b'.
Proof.
  intros Ee. pose proof Hok as [Ht Hr Hf Hn]. unfold Rib_insert. rewrite Ee.
  set (e0 := (insertRoute route (re_setName prefix RibEntry_new)).2).
  destruct (new_entry_spec (m_rib b) prefix e0) as (m1 & m' & E1 & E2 & Ht' & Hd); [done..|]. cbn zeta in E1, E2.
  simpl. change (m_rib (rb_setNItems (rb_nItems b + 1) b)) with (m_rib b). fold e0. rewrite E1. simpl. rewrite E2. simpl. eexists. split; [done|].
  assert (El : all_routes (m_rib b) !! prefix = None) by (unfold all_routes; by rewrite lookup_fmap, Ee).
  pose proof (Hd prefix) as Hp. rewrite lookup_insert_eq in Hp. simpl in Hp. symmetry in Hp. apply fmap_Some in Hp as (e' & He' & Ed).
  unfold re_data in Ed. injection Ed as En Er Einh Ecap. split.
  + eapply (rib_ok_put b _ prefix [route]); [done|done| |done|apply NoDup_singleton| |].
    * simpl. rewrite <-(all_routes_same _ _ Hd), all_routes_insert. done.
    * simpl. rewrite El. simpl. f_equal. lia.
    * intros f n. simpl. rewrite push_faces. case_decide as Hn'; [|naive_solver]. subst n. rewrite Hf. unfold face_in. rewrite El.
      setoid_rewrite list_elem_of_singleton. naive_solver.
  + intros n Hne. simpl. rewrite <-(Hd n). by rewrite lookup_insert_ne.
  + exists e'. simpl. rewrite He', Ee. split_and!; [done|by rewrite <-Er|by rewrite <-Einh|intros Hcap]. rewrite <-Ecap.
    unfold e0, insertRoute. simpl. by rewrite Hcap.
  + by split.
Qed.
End cases.

Lemma Rib_insert_spec prefix route b : rib_ok b → ∃ b', Rib_insert prefix route b = Some b' ∧ insert_result prefix route b b'.
Proof.
  intros Hok. destruct (m_rib b !! prefix) as [entry|] eqn:Ee; [|by apply insert_entry].
  destruct (findRoute route entry) as [[i r]|] eqn:Er; [by eapply insert_existing|by eapply insert_route].
Qed.

(** ** Erasure *)

Definition without (route : Route) (l : list Route) : list Route := filter (λ r, route_key r ≠ route_key route) l.

Lemma delete_without route e i r : NoDup (route_key <$> re_routes e) → findRoute route e = Some (i, r) →
  delete i (re_routes e) = without route (re_routes e).
Proof.
  intros Hnd [Hi Hk]%findRoute_Some; [|done]. unfold without. revert i Hi Hnd. generalize (re_routes e). clear e.
  induction l as [|s l IH]; intros [|i] Hi Hnd; [done|done| |]; csimpl in *; apply NoDup_cons in Hnd as [Hs Hnd].
  - injection Hi as ->. rewrite filter_cons_False by naive_solver. symmetry. apply filter_all. intros x Hx Ex. apply Hs.
    apply list_elem_of_fmap. exists x. split; [congruence|done].
  - rewrite filter_cons_True; [by rewrite (IH i)|]. intros Es. apply Hs. apply list_elem_of_fmap. exists r. split; [congruence|].
    by eapply list_elem_of_lookup_2.
Qed.

Lemma without_keys route l : NoDup (route_key <$> l) → NoDup (route_key <$> without route l).
Proof.
  unfold without. induction l as [|s l IH]; [done|]. rewrite filter_cons. csimpl. intros [Hs Hnd]%NoDup_cons. case_decide; [|auto].
  csimpl. apply NoDup_cons. split; [|auto]. intros (x & Ex & [_ Hx]%list_elem_of_filter)%list_elem_of_fmap. apply Hs.
  apply list_elem_of_fmap. by exists x.
Qed.

Record erase_result (prefix : Name) (route : Route) (b b' : Rib) : Prop := {
  er_ok : rib_ok b';
  er_others n : n ≠ prefix → re_data <$> m_rib b' !! n = re_data <$> m_rib b !! n;
  er_entry : match without route (default [] (re_routes <$> m_rib b !! prefix)) with
             | [] => m_rib b' !! prefix = None
             | l => re_routes <$> m_rib b' !! prefix = Some l ∧ re_inherited <$> m_rib b' !! prefix = re_inherited <$> m_rib b !! prefix
             end;
  er_queue : m_updateBatches b' = m_updateBatches b ∧ m_isUpdateInProgress b' = m_isUpdateInProgress b
}.

Section erase.
Context (prefix : Name) (route : Route) (b : Rib) (Hok : rib_ok b).

Lemma erase_nothing : (∀ entry, m_rib b !! prefix = Some entry → findRoute route entry = None) → erase_result prefix route b b.
Proof.
  intros Hno. split; [done|done| |done]. destruct (m_rib b !! prefix) as [entry|] eqn:Ee; simpl; [|done].
  pose proof (Hno entry eq_refl) as Hk. apply findRoute_None in Hk.
  assert (Ew : without route (re_routes entry) = re_routes entry).
  { unfold without. apply filter_all. intros x Hx Ex. apply Hk. apply list_elem_of_fmap. by exists x. }
  assert (El : all_routes (m_rib b) !! prefix = Some (re_routes entry)) by (unfold all_routes; by rewrite lookup_fmap, Ee).
  destruct (ro_routes b Hok prefix _ El) as [Hne _]. rewrite Ew. by destruct (re_routes entry).
Qed.

(** The face forgets the entry when its last route of the face goes. *)
Lemma erase_faces entry b1 cap f n : m_rib b !! prefix = Some entry → m_faceMap b1 = m_faceMap b →
  n ∈ default [] (m_faceMap (if hasFaceId (rt_faceId route) (re_setRoutes (without route (re_routes entry)) cap entry) then b1
                             else faceMap_remove (rt_faceId route) prefix b1) !! f) ↔
  if decide (n = prefix) then ∃ r, r ∈ without route (re_routes entry) ∧ rt_faceId r = f else n ∈ default [] (m_faceMap b !! f).
Proof.
  intros Ee Ef. assert (El : all_routes (m_rib b) !! prefix = Some (re_routes entry)) by (unfold all_routes; by rewrite lookup_fmap, Ee).
  assert (Hb : n ∈ default [] (m_faceMap b !! f) ↔ if decide (n = prefix) then ∃ r, r ∈ re_routes entry ∧ rt_faceId r = f
    else n ∈ default [] (m_faceMap b !! f)).
  { case_decide as Hn; [|done]. subst n. rewrite (ro_faces b Hok). unfold face_in. rewrite El. naive_solver. }
  assert (Hw : ∀ s, s ∈ without route (re_routes entry) ↔ s ∈ re_routes entry ∧ route_key s ≠ route_key route).
  { intros s. unfold without. rewrite list_elem_of_filter. naive_solver. }
  destruct (hasFaceId _ _) eqn:Eh.
  - apply hasFaceId_true in Eh as (r & Hr & Er). simpl in Hr. rewrite Ef, Hb. case_decide; [|done]. split; [|set_solver].
    intros (s & Hs & Es). destruct (decide (route_key s = route_key route)) as [Ek|Ek]; [|exists s; by rewrite Hw].
    exists r. split; [done|]. unfold route_key in Ek. congruence.
  - assert (Hno : ∀ s, s ∈ without route (re_routes entry) → rt_faceId s ≠ rt_faceId route).
    { intros s Hs Es. rewrite (proj2 (hasFaceId_true _ _)) in Eh; [done|]. by exists s. }
    simpl. rewrite Ef, remove_faces, Hb. case_decide as Hn; [|naive_solver]. split.
    + intros [(s & Hs & Es) Hne]. exists s. rewrite Hw. split; [|done]. split; [done|]. unfold route_key. intros [= Ek _]. apply Hne. by subst.
    + intros (s & Hs & Es). split; [exists s; by apply Hw in Hs as [? _]|]. intros [-> _]. by apply (Hno s).
Qed.

Lemma erase_some entry i r : m_rib b !! prefix = Some entry → findRoute route entry = Some (i, r) → without route (re_routes entry) ≠ [] →
  ∃ b', Rib_erase prefix route b = Some b' ∧ erase_result prefix route b b'.
Proof.
  intros Ee Er Hw. pose proof Hok as [Ht Hr Hf Hn]. unfold Rib_erase, eraseRoute. rewrite Ee, Er.
  assert (El : all_routes (m_rib b) !! prefix = Some (re_routes entry)) by (unfold all_routes; by rewrite lookup_fmap, Ee).
  destruct (Hr prefix _ El) as [Hne Hnd]. pose proof (delete_without route entry i r Hnd Er) as Ed. rewrite Ed.
  set (n := if isCapture r then _ else _). set (entry' := re_setRoutes _ n entry). set (b1 := rb_setNItems _ _).
  set (b2 := if hasFaceId _ _ then b1 else _). change (re_routes entry') with (without route (re_routes entry)).
  assert (E2 : m_rib b2 = <[prefix := entry']> (m_rib b) ∧ rb_nItems b2 = u64 (rb_nItems b - 1) ∧ m_updateBatches b2 = m_updateBatches b ∧
    m_isUpdateInProgress b2 = m_isUpdateInProgress b) by (unfold b2; by destruct (hasFaceId _ _)).
  assert (Eil : Z.of_nat (length (re_routes entry)) = 1 + Z.of_nat (length (without route (re_routes entry)))).
  { rewrite <-Ed. pose proof (proj1 (findRoute_Some route entry i r Hnd) Er) as [Hi _]. apply lookup_lt_Some in Hi as Hlt.
    rewrite length_delete by (by eexists). lia. }
  destruct E2 as (Em & En & Eq & Ep). exists b2. split; [by destruct (without route (re_routes entry))|].
  split.
  - eapply (rib_ok_put b b2 prefix (without route (re_routes entry))); [done| | |done|by apply without_keys| |].
    + rewrite Em. by eapply tree_wf_update.
    + rewrite Em, all_routes_insert. done.
    + rewrite En, El. simpl. rewrite Eil. f_equal. lia.
    + intros f x. rewrite <-(erase_faces entry b1 n f x Ee) by done. done.
  - intros x Hx. rewrite Em. by rewrite lookup_insert_ne.
  - rewrite Ee, Em, lookup_insert_eq. simpl. by destruct (without route (re_routes entry)).
  - by split.
Qed.

Lemma erase_last entry i r : m_rib b !! prefix = Some entry → findRoute route entry = Some (i, r) → without route (re_routes entry) = [] →
  ∃ b', Rib_erase prefix route b = Some b' ∧ erase_result prefix route b b'.
Proof.
  intros Ee Er Hw. pose proof Hok as [Ht Hr Hf Hn]. unfold Rib_erase, eraseRoute. rewrite Ee, Er.
  assert (El : all_routes (m_rib b) !! prefix = Some (re_routes entry)) by (unfold all_routes; by rewrite lookup_fmap, Ee).
  destruct (Hr prefix _ El) as [Hne Hnd]. pose proof (delete_without route entry i r Hnd Er) as Ed. rewrite Ed, Hw.
  set (n := if isCapture r then _ else _). set (entry' := re_setRoutes [] n entry). set (b1 := rb_setNItems _ _).
  set (b2 := if hasFaceId _ _ then b1 else _). change (re_routes entry') with (@nil Route).
  assert (E2 : m_rib b2 = <[prefix := entry']> (m_rib b) ∧ rb_nItems b2 = u64 (rb_nItems b - 1) ∧ m_updateBatches b2 = m_updateBatches b ∧
    m_isUpdateInProgress b2 = m_isUpdateInProgress b) by (unfold b2; by destruct (hasFaceId _ _)).
  destruct E2 as (Em & En & Eq & Ep). assert (Ht2 : tree_wf (m_rib b2)) by (rewrite Em; by eapply tree_wf_update).
  assert (Ee2 : m_rib b2 !! prefix = Some entry') by (rewrite Em; apply lookup_insert_eq).
  assert (Eil : length (re_routes entry) = 1%nat).
  { pose proof (proj1 (findRoute_Some route entry i r Hnd) Er) as [Hi _]. apply lookup_lt_Some in Hi as Hlt.
    rewrite Hw in Ed. apply (f_equal length) in Ed. rewrite length_delete in Ed by (by eexists). simpl in Ed. lia. }
  destruct (erase_entry_spec (m_rib b2) prefix entry' Ht2 Ee2) as (m1 & m2 & E1 & E2 & Ht3 & Hd).
  unfold eraseEntry. rewrite Ee2. simpl in E1, E2. simpl. rewrite E1. simpl. rewrite E2. simpl. eexists. split; [done|].
  assert (Hdel : delete prefix (m_rib b2) = delete prefix (m_rib b)) by (rewrite Em; apply delete_insert_eq).
  rewrite Hdel in Hd. assert (Eall : all_routes (delete prefix m2) = delete prefix (all_routes (m_rib b))).
  { by rewrite <-(all_routes_same _ _ Hd), all_routes_delete. }
  split.
  - split; simpl; [done| | |].
    + intros x l. rewrite Eall. intros [_ Hx]%lookup_delete_Some. by apply (Hr x).
    + intros f x. rewrite Eall, face_in_delete. pose proof (erase_faces entry b1 n f x Ee eq_refl) as Hff. rewrite Hw in Hff.
      etrans; [exact Hff|]. case_decide as Hx; [|rewrite Hf; naive_solver]. split; [intros (s & Hs & _); by apply elem_of_nil in Hs|naive_solver].
    + change (rb_nItems b2 = u64 (nRoutes (all_routes (delete prefix m2)))). rewrite En, Eall, Hn, (nRoutes_delete _ _ _ El), Eil. unfold u64. rewrite Zminus_mod_idemp_l. f_equal. lia.
  - intros x Hx. simpl. rewrite <-(Hd x), lookup_delete_ne by done. done.
  - rewrite Ee. simpl. rewrite Hw. apply lookup_delete_eq.
  - simpl. by split.
Qed.

Lemma Rib_erase_spec : ∃ b', Rib_erase prefix route b = Some b' ∧ erase_result prefix route b b'.
Proof.
  destruct (m_rib b !! prefix) as [entry|] eqn:Ee.
  2: { exists b. unfold Rib_erase. rewrite Ee. split; [done|]. apply erase_nothing. congruence. }
  destruct (findRoute route entry) as [[i r]|] eqn:Er.
  2: { exists b. unfold Rib_erase. rewrite Ee, Er. split; [done|]. apply erase_nothing. congruence. }
  destruct (decide (without route (re_routes entry) = [])); [by eapply erase_last|by eapply erase_some].
Qed.
End erase.

(** Inherited routes change neither the tree nor the routes. *)
Lemma modifyInheritedRoute_ok u b b' : rib_ok b → modifyInheritedRoute u b = Some b' → rib_ok b' ∧ all_routes (m_rib b') = all_routes (m_rib b) ∧
  m_updateBatches b' = m_updateBatches b ∧ m_isUpdateInProgress b' = m_isUpdateInProgress b.
Proof.
  intros Hok Hm. unfold modifyInheritedRoute in Hm. apply bind_Some in Hm as (entry & Ee & Hm).
  assert (Hgen : ∀ l, let b2 := rb_setRib (<[ru_name u := re_setInherited l entry]> (m_rib b)) b in
    rib_ok b2 ∧ all_routes (m_rib b2) = all_routes (m_rib b) ∧ m_updateBatches b2 = m_updateBatches b ∧ m_isUpdateInProgress b2 = m_isUpdateInProgress b).
  { intros l b2. assert (Eall : all_routes (m_rib b2) = all_routes (m_rib b)).
    { unfold b2. simpl. rewrite all_routes_insert. apply insert_id. unfold all_routes. by rewrite lookup_fmap, Ee. }
    destruct Hok as [Ht Hr Hf Hn]. split; [|done]. split; [by eapply tree_wf_update|by rewrite Eall|by rewrite Eall|by rewrite Eall]. }
  destruct (ru_action u).
  - injection Hm as <-. apply Hgen.
  - unfold removeInheritedRoute_e in Hm. destruct (findInheritedRoute (ru_route u) entry) as [[i r]|]; [|done]. injection Hm as <-. apply Hgen.
  - by injection Hm as <-.
Qed.
Lemma modifyInheritedRoutes_ok us : ∀ b b', rib_ok b → modifyInheritedRoutes us b = Some b' → rib_ok b' ∧ all_routes (m_rib b') = all_routes (m_rib b) ∧
  m_updateBatches b' = m_updateBatches b ∧ m_isUpdateInProgress b' = m_isUpdateInProgress b.
Proof.
  unfold modifyInheritedRoutes. induction us as [|u us IH]; intros b b' Hok Hm; simpl in Hm; [by injection Hm as <-|].
  apply bind_Some in Hm as (b1 & E1 & Hm). destruct (modifyInheritedRoute_ok u b b1 Hok E1) as (H1 & E & Eq & Ep).
  destruct (IH b1 b' H1 Hm) as (H2 & E' & Eq' & Ep'). split_and!; [done|congruence..].
Qed.
End ops.
