(* ===== verification/RibInherit.v ===== *)
(** * Inheritance of routes along the tree

    The ancestors of a name are the entries at its proper prefixes, the longest
    first.  What a name inherits for a face is the route that the nearest of them
    hands down; the walk ends at an entry that captures.  [getAncestorRoutes],
    which follows the parents, computes this for all faces. *)

From S2P Require Import Prelude Packets Timers RibEntry Rib RibFacts RibSpec.

(** ** The entries at the proper prefixes *)

Fixpoint chain_from (m : gmap Name RibEntry) (n : Name) (i : nat) : list Name :=
  match i with
  | O => []
  | S i => match m !! take i n with Some _ => [take i n] | None => [] end ++ chain_from m n i
  end.
Definition chain (m : gmap Name RibEntry) (n : Name) : list Name := chain_from m n (length n).

Lemma chain_from_take m n i j : (i <= j)%nat → chain_from m (take j n) i = chain_from m n i.
Proof.
  induction i as [|i IH]; intros Hij; simpl; [done|]. rewrite IH by lia. by rewrite take_take, Nat.min_l by lia.
Qed.
Lemma elem_of_chain_from m n i x : (i <= length n)%nat → x ∈ chain_from m n i ↔ ∃ k, (k < i)%nat ∧ x = take k n ∧ is_Some (m !! x).
Proof.
  induction i as [|i IH]; intros Hi; simpl; [rewrite elem_of_nil; split; [done|intros (k & Hk & _); lia]|].
  rewrite elem_of_app, IH by lia. split.
  - intros [Hx|(k & Hk & Hx)]; [|exists k; split; [lia|done]]. exists i. destruct (m !! take i n) eqn:E; [|by apply elem_of_nil in Hx].
    apply list_elem_of_singleton in Hx as ->. split_and!; [lia|done|by rewrite E].
  - intros (k & Hk & -> & Hs). destruct (decide (k = i)) as [->|]; [left|right; exists k; split_and!; [lia|done|done]].
    destruct (m !! take i n); [set_solver|by destruct Hs].
Qed.
Lemma elem_of_chain m n x : x ∈ chain m n ↔ below x n ∧ is_Some (m !! x).
Proof.
  unfold chain. rewrite elem_of_chain_from by lia. rewrite below_take. naive_solver.
Qed.

(** The parent of a name is the head of its chain, the rest is the parent's. *)
Lemma chain_from_parent m n i : (i <= length n)%nat →
  match findParent_from m n i with Some p => chain_from m n i = p :: chain m p | None => chain_from m n i = [] end.
Proof.
  induction i as [|i IH]; intros Hi; simpl; [done|]. unfold getPrefix. destruct (m !! take i n) eqn:E; [|apply IH; lia].
  simpl. f_equal. unfold chain. rewrite length_take, Nat.min_l by lia. by rewrite chain_from_take by lia.
Qed.
Lemma chain_parent m n : match findParent m n with Some p => chain m n = p :: chain m p | None => chain m n = [] end.
Proof. apply chain_from_parent. lia. Qed.

Lemma chain_from_NoDup m n i : (i <= length n)%nat → NoDup (chain_from m n i).
Proof.
  induction i as [|i IH]; intros Hi; simpl; [apply NoDup_nil_2|]. destruct (m !! take i n); simpl; [|apply IH; lia].
  apply NoDup_cons. split; [|apply IH; lia]. rewrite elem_of_chain_from by lia. intros (k & Hk & E & _).
  apply (f_equal length) in E. rewrite !length_take in E. lia.
Qed.
Lemma chain_length m n : (length (chain m n) <= size m)%nat.
Proof.
  pose proof (chain_from_NoDup m n (length n) ltac:(lia)) as Hnd. fold (chain m n) in Hnd.
  rewrite <-(size_list_to_set (C := gset Name) (chain m n) Hnd), <-size_dom. apply subseteq_size.
  intros x. rewrite elem_of_list_to_set, elem_of_chain, elem_of_dom. naive_solver.
Qed.
Lemma chain_dom m m' n : (∀ x, below x n → is_Some (m !! x) ↔ is_Some (m' !! x)) → chain m n = chain m' n.
Proof.
  intros Hd. unfold chain. assert (Hi : ∀ i, (i <= length n)%nat → chain_from m n i = chain_from m' n i); [|by apply Hi].
  induction i as [|i IH]; intros Hi; simpl; [done|]. rewrite IH by lia. f_equal.
  assert (Hb : below (take i n) n) by (apply below_take; exists i; split; [lia|done]). specialize (Hd _ Hb).
  destruct (m !! take i n), (m' !! take i n); try done; [destruct (proj1 Hd); by eauto|destruct (proj2 Hd); by eauto].
Qed.

(** The chain of a name, cut at a shorter one: the part between them only depends
    on the entries there. *)
Fixpoint chain_between (m : gmap Name RibEntry) (n : Name) (i j : nat) : list Name :=
  match i with
  | O => []
  | S i' => if (i' <? j)%nat then [] else match m !! take i' n with Some _ => [take i' n] | None => [] end ++ chain_between m n i' j
  end.
Lemma chain_from_split m n i j : (j <= i)%nat → chain_from m n i = chain_between m n i j ++ chain_from m n j.
Proof.
  induction i as [|i IH]; intros Hij; [by replace j with O by lia|]. destruct (decide (j = S i)) as [->|].
  - cbn [chain_between]. rewrite (proj2 (Nat.ltb_lt i (S i))) by lia. done.
  - cbn [chain_between chain_from]. rewrite (proj2 (Nat.ltb_ge i j)) by lia. by rewrite IH, app_assoc by lia.
Qed.
Lemma elem_of_chain_between m n i j x : (i <= length n)%nat →
  x ∈ chain_between m n i j ↔ ∃ k, (j <= k < i)%nat ∧ x = take k n ∧ is_Some (m !! x).
Proof.
  induction i as [|i IH]; intros Hi; cbn [chain_between]; [rewrite elem_of_nil; split; [done|intros (k & Hk & _); lia]|].
  destruct (Nat.ltb_spec i j); [rewrite elem_of_nil; split; [done|intros (k & Hk & _); lia]|].
  rewrite elem_of_app, IH by lia. split.
  - intros [Hx|(k & Hk & Hx)]; [|exists k; split; [lia|done]]. exists i. destruct (m !! take i n) eqn:E; [|by apply elem_of_nil in Hx].
    apply list_elem_of_singleton in Hx as ->. split_and!; [lia|lia|done|by rewrite E].
  - intros (k & Hk & -> & Hs). destruct (decide (k = i)) as [->|]; [left|right; exists k; split_and!; [lia|lia|done|done]].
    destruct (m !! take i n); [set_solver|by destruct Hs].
Qed.
Lemma chain_between_dom m m' n i j : (i <= length n)%nat → (∀ k, (j <= k < i)%nat → is_Some (m !! take k n) ↔ is_Some (m' !! take k n)) →
  chain_between m n i j = chain_between m' n i j.
Proof.
  intros Hi Hd. induction i as [|i IH]; [done|]. cbn [chain_between]. destruct (Nat.ltb_spec i j); [done|].
  rewrite IH; [|lia|intros k Hk; apply Hd; lia]. f_equal. pose proof (Hd i ltac:(lia)) as Hx.
  destruct (m !! take i n), (m' !! take i n); try done; [destruct (proj1 Hx); eauto; done|destruct (proj2 Hx); eauto; done].
Qed.

(** ** What the ancestors hand down *)

Section walk.
Context `{RouteFlags}.

(** The route an entry hands down for a face: the first of its routes *)
Definition handed (e : RibEntry) (faceId : Z) : option Route := find_if (λ r, (rt_faceId r =? faceId) && isChildInherit r) (re_routes e).

Fixpoint walk (m : gmap Name RibEntry) (l : list Name) (faceId : Z) : option Route :=
  match l with
  | [] => None
  | n :: l =>
      match m !! n with
      | None => walk m l faceId
      | Some e => match handed e faceId with
                  | Some r => Some r
                  | None => if hasCapture e then None else walk m l faceId
                  end
      end
  end.

(** Nothing at the name keeps routes of the face from passing. *)
Definition transparent (m : gmap Name RibEntry) (faceId : Z) (n : Name) : Prop :=
  ∀ e, m !! n = Some e → handed e faceId = None ∧ hasCapture e = false.

Lemma walk_transparent m l k faceId : (∀ n, n ∈ l → transparent m faceId n) → walk m (l ++ k) faceId = walk m k faceId.
Proof.
  induction l as [|n l IH]; intros Ht; [done|]. simpl. rewrite IH by (intros x Hx; apply Ht; set_solver).
  destruct (m !! n) as [e|] eqn:E; [|done]. destruct (Ht n ltac:(set_solver) e E) as [-> ->]. done.
Qed.
Lemma walk_opaque m l k k' faceId : ¬ (∀ n, n ∈ l → transparent m faceId n) → walk m (l ++ k) faceId = walk m (l ++ k') faceId.
Proof.
  induction l as [|n l IH]; intros Ht; [destruct Ht; by intros n Hn%elem_of_nil|]. simpl.
  destruct (m !! n) as [e|] eqn:E.
  - destruct (handed e faceId) eqn:Eh; [done|]. destruct (hasCapture e) eqn:Ec; [done|]. apply IH. intros Hl. apply Ht.
    intros x [->|Hx]%elem_of_cons; [|by apply Hl]. intros e' He'. by simplify_eq.
  - apply IH. intros Hl. apply Ht. intros x [->|Hx]%elem_of_cons; [|by apply Hl]. intros e' He'. by simplify_eq.
Qed.
Lemma walk_ext m m' l faceId : (∀ n, n ∈ l → re_data <$> m !! n = re_data <$> m' !! n) → walk m l faceId = walk m' l faceId.
Proof.
  induction l as [|n l IH]; intros Hd; [done|]. simpl. rewrite IH by (intros x Hx; apply Hd; set_solver).
  specialize (Hd n ltac:(set_solver)). destruct (m !! n) as [e|], (m' !! n) as [e'|]; try done. simpl in Hd.
  unfold re_data in Hd. injection Hd as _ Er _ Ec. unfold handed, hasCapture. by rewrite Er, Ec.
Qed.

(** ** Sets of routes *)

Definition faces_sorted : list Route → Prop := StronglySorted (λ a b, rt_faceId a < rt_faceId b).
Definition rs_lookup (faceId : Z) (l : list Route) : option Route := find_if (λ r, rt_faceId r =? faceId) l.

Lemma rs_lookup_none faceId l : Forall (λ r, faceId < rt_faceId r) l → rs_lookup faceId l = None.
Proof. intros Hl. apply find_if_None. intros r Hr. rewrite Forall_forall in Hl. specialize (Hl r Hr). apply Z.eqb_neq. lia. Qed.

Lemma routeSet_insert_spec r l : faces_sorted l → faces_sorted (routeSet_insert r l) ∧
  (∀ x, x ∈ routeSet_insert r l → x = r ∨ x ∈ l) ∧
  ∀ f, rs_lookup f (routeSet_insert r l) = match rs_lookup f l with Some x => Some x | None => if rt_faceId r =? f then Some r else None end.
Proof.
  induction 1 as [|x l Hs IH Hx]; simpl.
  - split_and!; [by repeat constructor|set_solver|]. intros f. unfold rs_lookup. simpl. by destruct (rt_faceId r =? f).
  - destruct IH as (IHs & IHi & IHl). destruct (Z.ltb_spec (rt_faceId r) (rt_faceId x)) as [Hlt|Hge].
    + split_and!; [|set_solver|].
      * constructor; [by constructor|]. constructor; [done|]. eapply Forall_impl; [exact Hx|]. simpl. lia.
      * intros f. unfold rs_lookup. simpl. destruct (Z.eqb_spec (rt_faceId r) f) as [<-|];
          [|destruct (rt_faceId x =? f); [done|]; fold (rs_lookup f l); by destruct (rs_lookup f l)].
        rewrite (proj2 (Z.eqb_neq (rt_faceId x) (rt_faceId r))) by lia. fold (rs_lookup (rt_faceId r) l). rewrite rs_lookup_none; [done|].
        eapply Forall_impl; [exact Hx|]. simpl. lia.
    + destruct (Z.ltb_spec (rt_faceId x) (rt_faceId r)) as [Hlt|Hge'].
      * split_and!; [|set_solver|].
        -- constructor; [done|]. apply Forall_forall. intros y Hy. rewrite Forall_forall in Hx. apply IHi in Hy as [->|Hy]; [done|by apply Hx].
        -- intros f. unfold rs_lookup in *. simpl. destruct (rt_faceId x =? f); [done|]. apply IHl.
      * split_and!; [by constructor|set_solver|]. intros f. unfold rs_lookup. simpl. destruct (Z.eqb_spec (rt_faceId x) f); [done|].
        rewrite (proj2 (Z.eqb_neq (rt_faceId r) f)) by lia. fold (rs_lookup f l). by destruct (rs_lookup f l).
Qed.

Lemma collect_handed l : ∀ acc, faces_sorted acc → Forall (λ r, isChildInherit r = true) acc →
  let acc' := foldl (λ l r, if isChildInherit r then routeSet_insert r l else l) acc l in
  faces_sorted acc' ∧ Forall (λ r, isChildInherit r = true) acc' ∧
  ∀ f, rs_lookup f acc' = match rs_lookup f acc with Some x => Some x | None => find_if (λ r, (rt_faceId r =? f) && isChildInherit r) l end.
Proof.
  induction l as [|r l IH]; intros acc Hs Hc; simpl.
  - split_and!; [done|done|]. intros f. by destruct (rs_lookup f acc).
  - destruct (isChildInherit r) eqn:Er.
    + destruct (routeSet_insert_spec r acc Hs) as (Hs' & Hi & Hl). destruct (IH (routeSet_insert r acc) Hs') as (H1 & H2 & H3).
      { apply Forall_forall. intros x [->|Hx]%Hi; [done|]. rewrite Forall_forall in Hc. by apply Hc. }
      split_and!; [done|done|]. intros f. rewrite H3, Hl, andb_true_r. destruct (rs_lookup f acc); [done|]. by destruct (rt_faceId r =? f).
    + destruct (IH acc Hs Hc) as (H1 & H2 & H3). split_and!; [done|done|]. intros f. by rewrite H3, andb_false_r.
Qed.

Lemma ancestorRoutes_walk m : tree_wf m → ∀ fuel n acc, faces_sorted acc → Forall (λ r, isChildInherit r = true) acc →
  (length (chain m n) <= fuel)%nat →
  ∃ rs, ancestorRoutes_from fuel m (findParent m n) acc = Some rs ∧ faces_sorted rs ∧ Forall (λ r, isChildInherit r = true) rs ∧
    ∀ f, rs_lookup f rs = match rs_lookup f acc with Some x => Some x | None => walk m (chain m n) f end.
Proof.
  intros Ht fuel. induction fuel as [|fuel IH]; intros n acc Hs Hc Hf; pose proof (chain_parent m n) as Hp; destruct (findParent m n) as [p|] eqn:Ep.
  - rewrite Hp in Hf. simpl in Hf. lia.
  - exists acc. rewrite Hp. split_and!; [done..|]. intros f. simpl. by destruct (rs_lookup f acc).
  - rewrite Hp in *. simpl in Hf. apply findParent_Some in Ep as (_ & [e He] & _). simpl. rewrite He. simpl.
    pose proof (tw_parent m Ht p) as Hpar. unfold parent_of in Hpar. rewrite He in Hpar. simpl in Hpar.
    specialize (Hpar ltac:(eauto)). injection Hpar as ->.
    destruct (collect_handed (re_routes e) acc Hs Hc) as (H1 & H2 & H3). destruct (hasCapture e).
    + eexists. split_and!; [done|done|done|]. intros f. rewrite H3. fold (handed e f). destruct (rs_lookup f acc); [done|]. by destruct (handed e f).
    + destruct (IH p _ H1 H2) as (rs & E & Hs' & Hc' & Hl); [lia|]. exists rs. split_and!; [done|done|done|]. intros f. rewrite Hl, H3.
      fold (handed e f). destruct (rs_lookup f acc); [done|]. by destruct (handed e f).
  - exists acc. rewrite Hp. split_and!; [by destruct fuel|done|done|]. intros f. simpl. by destruct (rs_lookup f acc).
Qed.

Lemma getAncestorRoutes_spec m n : tree_wf m → ∃ rs, getAncestorRoutes m n = Some rs ∧ faces_sorted rs ∧ Forall (λ r, isChildInherit r = true) rs ∧
  ∀ f, rs_lookup f rs = walk m (chain m n) f.
Proof. intros Ht. apply (ancestorRoutes_walk m Ht (size m) n []); [constructor|constructor|apply chain_length]. Qed.
Lemma getAncestorRoutes_e_spec m n e : tree_wf m → m !! n = Some e → getAncestorRoutes_e m e = getAncestorRoutes m n.
Proof.
  intros Ht He. unfold getAncestorRoutes_e, getAncestorRoutes. pose proof (tw_parent m Ht n) as Hp. unfold parent_of in Hp. rewrite He in Hp.
  simpl in Hp. specialize (Hp ltac:(eauto)). by injection Hp as ->.
Qed.

(** What reaches a name below [n]: it passes between them, or it does not matter
    what comes from above. *)
Lemma chain_below (m : gmap Name RibEntry) n d : below n d → ∃ seg, (∀ x, x ∈ seg ↔ below n x ∧ below x d ∧ is_Some (m !! x)) ∧
  ∀ m' : gmap Name RibEntry, (∀ x, below n x → is_Some (m' !! x) ↔ is_Some (m !! x)) →
    chain m' d = seg ++ match m' !! n with Some _ => [n] | None => [] end ++ chain m' n.
Proof.
  intros Hb. pose proof (below_length _ _ Hb) as Hl. assert (En : take (length n) d = n) by (symmetry; apply prefix_take_iff, Hb).
  assert (Htk : ∀ k, (length n < k)%nat → (k <= length d)%nat → below n (take k d)).
  { intros k Hk Hkd. split; [|intros E; apply (f_equal length) in E; rewrite length_take in E; lia].
    rewrite <-En. exists (drop (length n) (take k d)). rewrite <-(take_drop (length n) (take k d)) at 1. by rewrite take_take, Nat.min_l by lia. }
  exists (chain_between m d (length d) (S (length n))). split.
  - intros x. rewrite elem_of_chain_between by lia. split.
    + intros (k & Hk & -> & Hs). split_and!; [apply Htk; lia|apply below_take; exists k; split; [lia|done]|done].
    + intros (Hnx & Hxd & Hs). exists (length x). apply below_length in Hnx as ?. apply below_length in Hxd as ?.
      split_and!; [lia|lia|by apply prefix_take_iff, Hxd|done].
  - intros m' Hd. unfold chain at 1. rewrite (chain_from_split m' d (length d) (S (length n))) by lia.
    rewrite (chain_between_dom m' m) by (lia || (intros k Hk; apply Hd, Htk; lia)). f_equal.
    cbn [chain_from]. rewrite En. f_equal. unfold chain. rewrite <-En at 2. by rewrite chain_from_take.
Qed.
End walk.
