(* ===== verification/FibUpdater.v ===== *)
(** * The FIB updater: [rib/fib-updater.cpp], [rib/fib-update.cpp], and the part of
      [rib/rib.cpp] that waits for it

    From one update of the RIB the updater computes the changes of the FIB, for the
    entry and for the entries that inherit from it, sends them to the forwarder,
    and applies the update to the RIB when they have succeeded.  The commands that
    wait for an answer are part of the state; answers come in any order.  [None]:
    an assertion fails, a null pointer or end iterator is used, or an exception
    leaves the updater. *)

From S2P Require Import Prelude Packets Timers RibEntry Rib.

(** ** FIB updates *)

Inductive FibUpdateAction := ADD_NEXTHOP | REMOVE_NEXTHOP.
Record FibUpdate := mkFibUpdate { fu_name : Name; fu_faceId : Z; fu_cost : Z; fu_action : FibUpdateAction }.
#[export] Instance FibUpdateAction_eq_dec : EqDecision FibUpdateAction.
Proof. solve_decision. Defined.
#[export] Instance FibUpdate_eq_dec : EqDecision FibUpdate.
Proof. solve_decision. Defined.

Definition createAddUpdate (name : Name) (faceId cost : Z) : FibUpdate := mkFibUpdate name faceId cost ADD_NEXTHOP.
Definition createRemoveUpdate (name : Name) (faceId : Z) : FibUpdate := mkFibUpdate name faceId 0 REMOVE_NEXTHOP.

Record FibUpdater := mkUpdater {
  m_batchFaceId : Z;
  m_inheritedRoutes : list RibUpdate;
  m_updatesForBatchFaceId : list FibUpdate;
  m_updatesForNonBatchFaceId : list FibUpdate
}.
Definition fu_setInherited (l : list RibUpdate) (u : FibUpdater) : FibUpdater :=
  mkUpdater (m_batchFaceId u) l (m_updatesForBatchFaceId u) (m_updatesForNonBatchFaceId u).
Definition fu_setBatch (l : list FibUpdate) (u : FibUpdater) : FibUpdater :=
  mkUpdater (m_batchFaceId u) (m_inheritedRoutes u) l (m_updatesForNonBatchFaceId u).
Definition fu_setNonBatch (l : list FibUpdate) (u : FibUpdater) : FibUpdater :=
  mkUpdater (m_batchFaceId u) (m_inheritedRoutes u) (m_updatesForBatchFaceId u) l.

(** An update replaces the one for the same name and face. *)
Definition same_nexthop (update other : FibUpdate) : Prop := fu_name update = fu_name other ∧ fu_faceId update = fu_faceId other.
#[export] Instance same_nexthop_dec u o : Decision (same_nexthop u o).
Proof. unfold same_nexthop. apply _. Defined.
Definition put_update (update : FibUpdate) (updates : list FibUpdate) : list FibUpdate :=
  match list_find (same_nexthop update) updates with
  | Some (i, existing) => <[i := mkFibUpdate (fu_name existing) (fu_faceId existing) (fu_cost update) (fu_action update)]> updates
  | None => updates ++ [update]
  end.
Definition addFibUpdate (update : FibUpdate) (u : FibUpdater) : FibUpdater :=
  if fu_faceId update =? m_batchFaceId u then fu_setBatch (put_update update (m_updatesForBatchFaceId u)) u
  else fu_setNonBatch (put_update update (m_updatesForNonBatchFaceId u)) u.

(** [addInheritedRoute], [removeInheritedRoute]: notes for the RIB *)
Definition noteInheritedRoute (name : Name) (route : Route) (u : FibUpdater) : FibUpdater :=
  fu_setInherited (m_inheritedRoutes u ++ [mkRibUpdate REGISTER name route]) u.
Definition noteRemovedRoute (name : Name) (route : Route) (u : FibUpdater) : FibUpdater :=
  fu_setInherited (m_inheritedRoutes u ++ [mkRibUpdate UNREGISTER name route]) u.

Definition inherit (name : Name) (route : Route) (u : FibUpdater) : FibUpdater :=
  addFibUpdate (createAddUpdate name (rt_faceId route) (rt_cost route)) (noteInheritedRoute name route u).
Definition disinherit (name : Name) (route : Route) (u : FibUpdater) : FibUpdater :=
  addFibUpdate (createRemoveUpdate name (rt_faceId route)) (noteRemovedRoute name route u).

(** The two [addInheritedRoutes], and [removeInheritedRoutes] *)
Definition addInheritedRoutes_e (entry : RibEntry) (routesToAdd : list Route) (u : FibUpdater) : FibUpdater :=
  foldl (λ u r, if hasFaceId (rt_faceId r) entry then u else inherit (re_name entry) r u) u routesToAdd.
Definition addInheritedRoutes (name : Name) (routesToAdd : list Route) (ignore : Route) (u : FibUpdater) : FibUpdater :=
  foldl (λ u r, if rt_faceId r =? rt_faceId ignore then u else inherit name r u) u routesToAdd.
Definition removeInheritedRoutes (entry : RibEntry) (routesToRemove : list Route) (u : FibUpdater) : FibUpdater :=
  foldl (λ u r, if hasInheritedRoute r entry then disinherit (re_name entry) r u else u) u routesToRemove.

Section updater.
Context `{NameOrder} `{RouteFlags}.

(** ** The subtree of an entry *)

(** Routes of faces that the entry hands down itself go no further. *)
Definition passes (entry : RibEntry) (r : Route) : Prop := hasChildInheritOnFaceId (rt_faceId r) entry = false.
#[export] Instance passes_dec entry r : Decision (passes entry r).
Proof. unfold passes. apply _. Defined.

Fixpoint traverseSubTree (fuel : nat) (m : gmap Name RibEntry) (name : Name) (routesToAdd routesToRemove : list Route) (u : FibUpdater) : option FibUpdater :=
  match fuel with
  | O => None
  | S fuel =>
      entry ← m !! name;
      if hasCapture entry then Some u
      else
        let routesToRemove := filter (passes entry) routesToRemove in
        let u := foldl (λ u r, if hasInheritedRoute r entry then disinherit (re_name entry) r u else u) u routesToRemove in
        let routesToAdd := filter (passes entry) routesToAdd in
        let u := foldl (λ u r, if hasFaceId (rt_faceId r) entry then u else inherit (re_name entry) r u) u routesToAdd in
        fold_opt (λ child u, traverseSubTree fuel m child routesToAdd routesToRemove u) (re_children entry) u
  end.
(** The tree is no deeper than the table is large. *)
Definition modifyChildrensInheritedRoutes (m : gmap Name RibEntry) (children : list Name) (routesToAdd routesToRemove : list Route) : FibUpdater → option FibUpdater :=
  fold_opt (λ child u, traverseSubTree (size m) m child routesToAdd routesToRemove u) children.

(** ** The changes an update makes *)

Definition createFibUpdatesForNewRibEntry (m : gmap Name RibEntry) (name : Name) (route : Route) (children : list Name) (u : FibUpdater) : option FibUpdater :=
  let u := addFibUpdate (createAddUpdate name (rt_faceId route) (rt_cost route)) u in
  if negb (isChildInherit route) && negb (isCapture route) then
    ancestorRoutes ← getAncestorRoutes m name;
    Some (addInheritedRoutes name ancestorRoutes route u)
  else if isChildInherit route && isCapture route then
    ancestorRoutes ← getAncestorRoutes m name;
    modifyChildrensInheritedRoutes m children (routeSet_insert route []) ancestorRoutes u
  else if isChildInherit route then
    ancestorRoutes ← getAncestorRoutes m name;
    let u := addInheritedRoutes name ancestorRoutes route u in
    let ancestorRoutes := match routeSet_find route ancestorRoutes with Some _ => routeSet_erase route ancestorRoutes | None => ancestorRoutes end in
    let ancestorRoutes := routeSet_insert route ancestorRoutes in
    modifyChildrensInheritedRoutes m children ancestorRoutes [] u
  else if isCapture route then
    ancestorRoutes ← getAncestorRoutes m name;
    modifyChildrensInheritedRoutes m children [] ancestorRoutes u
  else Some u.

Definition createFibUpdatesForNewRoute (m : gmap Name RibEntry) (entry : RibEntry) (route : Route) (captureWasTurnedOn : bool) (u : FibUpdater) : option FibUpdater :=
  let prevRoute := getRouteWithLowestCostAndChildInheritByFaceId (rt_faceId route) entry in
  let routesToAdd :=
    if isChildInherit route && match prevRoute with Some p => rt_cost route <=? rt_cost p | None => true end
    then routeSet_insert route [] else [] in
  routesToRemove ← (if captureWasTurnedOn then getAncestorRoutes_e m entry else Some []);
  let u := if captureWasTurnedOn then removeInheritedRoutes entry routesToRemove u else u in
  u ← modifyChildrensInheritedRoutes m (re_children entry) routesToAdd routesToRemove u;
  let other := getRouteWithLowestCostByFaceId (rt_faceId route) entry in
  Some (if match other with Some o => rt_cost route <=? rt_cost o | None => true end
        then addFibUpdate (createAddUpdate (re_name entry) (rt_faceId route) (rt_cost route)) u else u).

(** The part that follows the change of the cost: the flags that changed *)
Definition updatedFlags (m : gmap Name RibEntry) (entry : RibEntry) (route existingRoute : Route) (prevRoute : option Route) (u : FibUpdater) : option FibUpdater :=
  u ← (if negb (isChildInherit existingRoute) && isChildInherit route then
         if match prevRoute with Some p => rt_cost route <=? rt_cost p | None => true end
         then modifyChildrensInheritedRoutes m (re_children entry) (routeSet_insert route []) [] u
         else Some u
       else if isChildInherit existingRoute && negb (isChildInherit route) then
         routesToAdd ← match prevRoute with
                       | Some p => Some (routeSet_insert p [])
                       | None =>
                           ancestorRoutes ← getAncestorRoutes_e m entry;
                           Some match routeSet_find route ancestorRoutes with Some r => routeSet_insert r [] | None => [] end
                       end;
         modifyChildrensInheritedRoutes m (re_children entry) routesToAdd (routeSet_insert route []) u
       else Some u);
  if negb (isCapture existingRoute) && isCapture route then
    ancestorRoutes ← getAncestorRoutes_e m entry;
    modifyChildrensInheritedRoutes m (re_children entry) [] ancestorRoutes (removeInheritedRoutes entry ancestorRoutes u)
  else if isCapture existingRoute && negb (isCapture route) then
    ancestorRoutes ← getAncestorRoutes_e m entry;
    modifyChildrensInheritedRoutes m (re_children entry) ancestorRoutes [] (addInheritedRoutes_e entry ancestorRoutes u)
  else Some u.

Definition createFibUpdatesForUpdatedRoute (m : gmap Name RibEntry) (entry : RibEntry) (route existingRoute : Route) (u : FibUpdater) : option FibUpdater :=
  let costDidChange := negb (rt_cost route =? rt_cost existingRoute) in
  let prevRoute := getRouteWithLowestCostAndChildInheritByFaceId (rt_faceId route) entry in
  if (rt_flags route =? rt_flags existingRoute) && negb costDidChange then Some u
  else if costDidChange then
    lowest ← getRouteWithLowestCostByFaceId (rt_faceId route) entry;
    u ← (if rt_cost route <=? rt_cost lowest then Some (addFibUpdate (createAddUpdate (re_name entry) (rt_faceId route) (rt_cost route)) u)
         else if rt_cost existingRoute <? rt_cost lowest then
           p ← prevRoute; Some (addFibUpdate (createAddUpdate (re_name entry) (rt_faceId p) (rt_cost p)) u)
         else Some u);
    if match prevRoute with Some p => rt_cost route <=? rt_cost p | None => true end && (rt_flags route =? rt_flags existingRoute) && isChildInherit route
    then modifyChildrensInheritedRoutes m (re_children entry) (routeSet_insert route []) [] u
    else updatedFlags m entry route existingRoute prevRoute u
  else updatedFlags m entry route existingRoute prevRoute u.

Definition createFibUpdatesForErasedRoute (m : gmap Name RibEntry) (entry : RibEntry) (route : Route) (captureWasTurnedOff : bool) (u : FibUpdater) : option FibUpdater :=
  let u := addFibUpdate (createRemoveUpdate (re_name entry) (rt_faceId route)) u in
  u ← (if isChildInherit route && isCapture route then
         routesToAdd ← (if captureWasTurnedOff then getAncestorRoutes_e m entry else Some []);
         let u := if captureWasTurnedOff then addInheritedRoutes_e entry routesToAdd u else u in
         modifyChildrensInheritedRoutes m (re_children entry) routesToAdd (routeSet_insert route []) u
       else if isChildInherit route then
         routesToAdd ← (if hasCapture entry then Some [] else getAncestorRoutes_e m entry);
         modifyChildrensInheritedRoutes m (re_children entry) routesToAdd (routeSet_insert route []) u
       else if isCapture route then
         routesToAdd ← (if captureWasTurnedOff then getAncestorRoutes_e m entry else Some []);
         let u := if captureWasTurnedOff then addInheritedRoutes_e entry routesToAdd u else u in
         modifyChildrensInheritedRoutes m (re_children entry) routesToAdd [] u
       else Some u);
  ancestorRoutes ← getAncestorRoutes_e m entry;
  Some (if negb (hasCapture entry) && negb (getNRoutes entry =? 0)%nat
        then match routeSet_find route ancestorRoutes with Some r => inherit (re_name entry) r u | None => u end
        else u).

Definition createFibUpdatesForErasedRibEntry (entry : RibEntry) (u : FibUpdater) : FibUpdater :=
  foldl (λ u r, addFibUpdate (createRemoveUpdate (re_name entry) (rt_faceId r)) u) u (re_inherited entry).

(** ** The updates of a batch *)

(** The copy of the entry with the new fields; the event stays *)
Definition copyFields (route r : Route) : Route := mkRoute (rt_faceId r) (rt_origin r) (rt_flags route) (rt_cost route) (rt_expires route) (m_expirationEvent r).

Definition computeUpdatesForRegistration (b : Rib) (update : RibUpdate) (u : FibUpdater) : option FibUpdater :=
  let prefix := ru_name update in
  let route := ru_route update in
  let m := m_rib b in
  match m !! prefix with
  | Some entry =>
      match findRoute route entry with
      | None => createFibUpdatesForNewRoute m entry route (negb (hasCapture entry) && isCapture route) u
      | Some (i, existingRoute) =>
          let entryCopy := re_setRoutes (<[i := copyFields route existingRoute]> (re_routes entry)) (m_nRoutesWithCaptureSet entry) entry in
          createFibUpdatesForUpdatedRoute m entryCopy route existingRoute u
      end
  | None =>
      let parent := findParent m prefix in
      let children := filter (λ d, re_parent <$> m !! d = Some parent) (findDescendantsForNonInsertedName m prefix) in
      createFibUpdatesForNewRibEntry m prefix route children u
  end.

(** The copy of the entry shares the expiration events: erasing the route in it
    cancels the route's event. *)
Definition computeUpdatesForUnregistration (b : Rib) (update : RibUpdate) (u : FibUpdater) : option (FibUpdater * Rib) :=
  let route := ru_route update in
  let m := m_rib b in
  match m !! ru_name update with
  | None => Some (u, b)
  | Some entry =>
      match findRoute route entry with
      | None => Some (u, b)
      | Some (_, existing) =>
          let '(temp, ev) := eraseRoute route entry in
          let b := rb_cancel ev b in
          let captureWasTurnedOff := hasCapture entry && negb (hasCapture temp) in
          u ← createFibUpdatesForErasedRoute m temp existing captureWasTurnedOff u;
          u ← match getRouteWithSecondLowestCostByFaceId (rt_faceId route) entry with
              | Some next => createFibUpdatesForNewRoute m temp next false u
              | None => Some u
              end;
          Some (if (getNRoutes entry =? 1)%nat then createFibUpdatesForErasedRibEntry entry u else u, b)
      end
  end.

Definition computeUpdate (update : RibUpdate) (s : FibUpdater * Rib) : option (FibUpdater * Rib) :=
  let '(u, b) := s in
  match ru_action update with
  | REGISTER => u ← computeUpdatesForRegistration b update u; Some (u, b)
  | UNREGISTER => computeUpdatesForUnregistration b update u
  | REMOVE_FACE => '(u, b) ← computeUpdatesForUnregistration b update u; Some (fu_setBatch [] u, b)
  end.
Definition computeUpdates (batch : RibUpdateBatch) : FibUpdater * Rib → option (FibUpdater * Rib) := fold_opt computeUpdate (m_updates batch).
End updater.
