(* ===== verification/RibSystem.v ===== *)
(** * The RIB and the FIB updater at work: [rib/rib.cpp] (the queue of updates) and
      [rib/fib-updater.cpp] (commands and their answers)

    One batch is in progress at a time: its FIB commands are sent, those for its
    own face first, and when they have succeeded the batch changes the RIB.  The
    forwarder answers each command once, with success or an error code, in any
    order.  [None]: the program stops (a failed assertion, an invalid pointer or
    iterator, an exception that nobody catches). *)

From S2P Require Import Prelude Packets Timers RibEntry Rib FibUpdater.

Definition MAX_NUM_TIMEOUTS : Z := 10.
Definition ERROR_FACE_NOT_FOUND : Z := 410.
(** [ndn::nfd::Controller::ERROR_TIMEOUT] *)
Class ControllerCodes := { ERROR_TIMEOUT : Z; timeout_is_not_410 : ERROR_TIMEOUT ≠ ERROR_FACE_NOT_FOUND }.

(** A command that has no answer yet: the verb and its parameters, the update it
    was made for, the timeouts so far, and the batch its callbacks are bound to *)
Record FibCommand := mkCommand {
  cmd_verb : FibUpdateAction;
  cmd_update : FibUpdate;
  cmd_nTimeouts : Z;
  cmd_item : UpdateQueueItem
}.

Record RibSystem := mkSystem { sy_rib : Rib; sy_updater : FibUpdater; sy_commands : list FibCommand }.
Definition sy_setRib (b : Rib) (s : RibSystem) : RibSystem := mkSystem b (sy_updater s) (sy_commands s).
Definition sy_setUpdater (u : FibUpdater) (s : RibSystem) : RibSystem := mkSystem (sy_rib s) u (sy_commands s).
Definition sy_send (c : FibCommand) (s : RibSystem) : RibSystem := mkSystem (sy_rib s) (sy_updater s) (sy_commands s ++ [c]).

Definition FibUpdater_new : FibUpdater := mkUpdater 0 [] [] [].
Definition RibSystem_new : RibSystem := mkSystem Rib_new FibUpdater_new [].

(** ** Sending *)

Definition sendAddNextHopUpdate (update : FibUpdate) (nTimeouts : Z) (item : UpdateQueueItem) : RibSystem → RibSystem :=
  sy_send (mkCommand ADD_NEXTHOP update nTimeouts item).
Definition sendRemoveNextHopUpdate (update : FibUpdate) (nTimeouts : Z) (item : UpdateQueueItem) : RibSystem → RibSystem :=
  sy_send (mkCommand REMOVE_NEXTHOP update nTimeouts item).
Definition sendUpdates (updates : list FibUpdate) (item : UpdateQueueItem) (s : RibSystem) : RibSystem :=
  foldl (λ s update, match fu_action update with
                     | ADD_NEXTHOP => sendAddNextHopUpdate update 0 item s
                     | REMOVE_NEXTHOP => sendRemoveNextHopUpdate update 0 item s
                     end) s updates.

Section system.
Context `{NameOrder} `{RouteFlags} `{ControllerCodes}.

(** ** The end of a batch *)

Definition applyUpdate (update : RibUpdate) (b : Rib) : option Rib :=
  match ru_action update with
  | REGISTER => Rib_insert (ru_name update) (ru_route update) b
  | UNREGISTER | REMOVE_FACE => Rib_erase (ru_name update) (ru_route update) b
  end.
Definition applyBatch (batch : RibUpdateBatch) (inheritedRoutes : list RibUpdate) (b : Rib) : option Rib :=
  b ← fold_opt applyUpdate (m_updates batch) b;
  b ← modifyInheritedRoutes inheritedRoutes b;
  Some (rb_setInProgress false b).

Section loop.
(** [sendBatchFromQueue], which the callbacks call *)
Variable sendBatchFromQueue : RibSystem → option RibSystem.

(** [Rib::onFibUpdateSuccess] and [onFibUpdateFailure], with the item they are
    bound to *)
Definition onFibUpdateSuccess (item : UpdateQueueItem) (s : RibSystem) : option RibSystem :=
  b ← applyBatch (uq_batch item) (m_inheritedRoutes (sy_updater s)) (sy_rib s);
  let b := match managerCallback item with Some u => rb_emit (onRibUpdateSuccess u) b | None => b end in
  sendBatchFromQueue (sy_setRib b s).
Definition onFibUpdateFailure (item : UpdateQueueItem) (code : Z) (s : RibSystem) : option RibSystem :=
  let b := rb_setInProgress false (sy_rib s) in
  let b := match managerCallback item with Some u => rb_emit (onRibUpdateFailure u code) b | None => b end in
  sendBatchFromQueue (sy_setRib b s).

Definition sendUpdatesForNonBatchFaceId (item : UpdateQueueItem) (s : RibSystem) : option RibSystem :=
  match m_updatesForNonBatchFaceId (sy_updater s) with
  | [] => onFibUpdateSuccess item s
  | updates => Some (sendUpdates updates item s)
  end.
Definition sendUpdatesForBatchFaceId (item : UpdateQueueItem) (s : RibSystem) : option RibSystem :=
  match m_updatesForBatchFaceId (sy_updater s) with
  | [] => sendUpdatesForNonBatchFaceId item s
  | updates => Some (sendUpdates updates item s)
  end.

Definition computeAndSendFibUpdates (item : UpdateQueueItem) (s : RibSystem) : option RibSystem :=
  let u := mkUpdater (m_faceId (uq_batch item)) [] [] [] in
  '(u, b) ← computeUpdates (uq_batch item) (u, sy_rib s);
  sendUpdatesForBatchFaceId item (mkSystem b u (sy_commands s)).

Definition sendBatch (s : RibSystem) : option RibSystem :=
  match m_updateBatches (sy_rib s) with
  | [] => Some s
  | item :: rest =>
      if m_isUpdateInProgress (sy_rib s) then Some s
      else if negb (length (m_updates (uq_batch item)) =? 1)%nat then None
      else computeAndSendFibUpdates item (sy_setRib (rb_setQueue rest (rb_setInProgress true (sy_rib s))) s)
  end.
End loop.

(** Every batch that needs no command makes room for the next. *)
Fixpoint sendBatches (fuel : nat) (s : RibSystem) : option RibSystem :=
  match fuel with O => None | S fuel => sendBatch (sendBatches fuel) s end.
Definition sendBatchFromQueue (s : RibSystem) : option RibSystem := sendBatches (S (length (m_updateBatches (sy_rib s)))) s.

(** ** Requests *)

Definition beginApplyUpdate (update : RibUpdate) (callback : option RibUpdate) (s : RibSystem) : option RibSystem :=
  b ← addUpdateToQueue update callback (sy_rib s); sendBatchFromQueue (sy_setRib b s).

Definition beginRemoveFace (faceId : Z) (s : RibSystem) : option RibSystem :=
  routes ← findRoutesWithFaceId faceId (sy_rib s);
  b ← fold_opt (λ '(n, r) b, addUpdateToQueue (mkRibUpdate REMOVE_FACE n r) None b) routes (sy_rib s);
  sendBatchFromQueue (sy_setRib b s).

Definition onRouteExpiration (prefix : Name) (route : Route) : RibSystem → option RibSystem :=
  beginApplyUpdate (mkRibUpdate UNREGISTER prefix route) None.
(** The scheduler runs an expiration. *)
Definition fire_expiration (ev : positive) (s : RibSystem) : option RibSystem :=
  '(_, (prefix, route)) ← rb_scheduled (sy_rib s) !! ev;
  onRouteExpiration prefix route (sy_setRib (rb_cancel (Some ev) (sy_rib s)) s).

(** ** Answers *)

(** An update that is done leaves its list; the last one of a list goes on. *)
Definition updateDone (update : FibUpdate) (item : UpdateQueueItem) (s : RibSystem) : option RibSystem :=
  let u := sy_updater s in
  if fu_faceId update =? m_batchFaceId u then
    let l := filter (λ x, x ≠ update) (m_updatesForBatchFaceId u) in
    let s := sy_setUpdater (fu_setBatch l u) s in
    match l with [] => sendUpdatesForNonBatchFaceId sendBatchFromQueue item s | _ => Some s end
  else
    let l := filter (λ x, x ≠ update) (m_updatesForNonBatchFaceId u) in
    let s := sy_setUpdater (fu_setNonBatch l u) s in
    match l with [] => onFibUpdateSuccess sendBatchFromQueue item s | _ => Some s end.

Definition onUpdateSuccess : FibUpdate → UpdateQueueItem → RibSystem → option RibSystem := updateDone.
Definition onUpdateError (update : FibUpdate) (item : UpdateQueueItem) (code nTimeouts : Z) (s : RibSystem) : option RibSystem :=
  if (code =? ERROR_TIMEOUT) && (nTimeouts <? MAX_NUM_TIMEOUTS) then Some (sendAddNextHopUpdate update (nTimeouts + 1) item s)
  else if code =? ERROR_FACE_NOT_FOUND then
    if fu_faceId update =? m_batchFaceId (sy_updater s) then onFibUpdateFailure sendBatchFromQueue item code s
    else updateDone update item s
  else None.

(** The forwarder answers the command at position [i]: success, or an error. *)
Definition answer (i : nat) (error : option Z) (s : RibSystem) : option RibSystem :=
  c ← sy_commands s !! i;
  let s := mkSystem (sy_rib s) (sy_updater s) (delete i (sy_commands s)) in
  match error with
  | None => onUpdateSuccess (cmd_update c) (cmd_item c) s
  | Some code => onUpdateError (cmd_update c) (cmd_item c) code (cmd_nTimeouts c) s
  end.
End system.
