(* ===== verification/FibSync.v ===== *)
(** * The FIB follows the RIB

    The updates the updater has collected, as a map from names and faces; what the
    walk through the subtree of an entry adds to it; and, for registrations
    without capture, that the updates turn the next hops of the RIB before into the
    next hops of the RIB after. *)

From S2P Require Import Prelude Packets Timers RibEntry Rib RibFacts RibSpec RibInherit FibUpdater.

(** ** The collected updates *)

Definition upd_key (u : FibUpdate) : Name * Z := (fu_name u, fu_faceId u).
Definition upd_lookup (n : Name) (f : Z) (l : list FibUpdate) : option FibUpdate := find_if (λ x, bool_decide (upd_key x = (n, f))) l.
Definition pending (u : FibUpdater) (n : Name) (f : Z) : option FibUpdate :=
  upd_lookup n f (if f =? m_batchFaceId u then m_updatesForBatchFaceId u else m_updatesForNonBatchFaceId u).

Record updater_ok (u : FibUpdater) : Prop := {
  uo_batch : NoDup (upd_key <$> m_updatesForBatchFaceId u) ∧ Forall (λ x, fu_faceId x = m_batchFaceId u) (m_updatesForBatchFaceId u);
  uo_nonBatch : NoDup (upd_key <$> m_updatesForNonBatchFaceId u) ∧ Forall (λ x, fu_faceId x ≠ m_batchFaceId u) (m_updatesForNonBatchFaceId u)
}.

Lemma updater_ok_new f : updater_ok (mkUpdater f [] [] []).
Proof. split; (split; [apply NoDup_nil_2|constructor]). Qed.

Lemma upd_lookup_None n f l : upd_lookup n f l = None ↔ (n, f) ∉ upd_key <$> l.
Proof.
  unfold upd_lookup. rewrite find_if_None. setoid_rewrite bool_decide_eq_false. split.
  - intros Hl (x & E & Hx)%list_elem_of_fmap. by apply (Hl x).
  - intros Hn x Hx E. apply Hn, list_elem_of_fmap. by exists x.
Qed.
Lemma upd_lookup_Some n f l x : NoDup (upd_key <$> l) → upd_lookup n f l = Some x ↔ x ∈ l ∧ upd_key x = (n, f).
Proof.
  intros Hnd. split.
  - intros E. apply find_if_Some in E as [Hx E]. by apply bool_decide_eq_true in E.
  - intros [Hx E]. apply find_if_unique; [done|by apply bool_decide_eq_true|]. intros y Hy Ey%bool_decide_eq_true.
    apply list_elem_of_lookup_1 in Hx as [i Hi], Hy as [j Hj]. assert (i = j) as ->; [|congruence].
    apply (NoDup_lookup _ i j (n, f) Hnd); rewrite list_lookup_fmap; [rewrite Hi|rewrite Hj]; simpl; congruence.
Qed.

(** A list that has the update and the others' keys looks up so. *)
Lemma upd_lookup_put x l l' : NoDup (upd_key <$> l) → NoDup (upd_key <$> l') →
  (∀ z, z ∈ l' ↔ z = x ∨ z ∈ l ∧ upd_key z ≠ upd_key x) →
  ∀ n f, upd_lookup n f l' = if decide (upd_key x = (n, f)) then Some x else upd_lookup n f l.
Proof.
  intros Hnd Hnd' Hin n f. case_decide as Hk; [apply upd_lookup_Some; [done|]; rewrite Hin; auto|].
  destruct (upd_lookup n f l) as [z|] eqn:Ez.
  - apply upd_lookup_Some in Ez as [Hz Ez]; [|done]. apply upd_lookup_Some; [done|]. rewrite Hin. split; [right; split; [done|congruence]|done].
  - apply upd_lookup_None in Ez. apply upd_lookup_None. intros (z & E & Hz)%list_elem_of_fmap. apply Hin in Hz as [->|[Hz _]]; [congruence|].
    apply Ez, list_elem_of_fmap. by exists z.
Qed.

Lemma put_update_spec x l : NoDup (upd_key <$> l) → NoDup (upd_key <$> put_update x l) ∧
  (∀ y, y ∈ put_update x l ↔ y = x ∨ y ∈ l ∧ upd_key y ≠ upd_key x).
Proof.
  intros Hnd. unfold put_update. destruct (list_find _ l) as [[i y]|] eqn:E.
  - apply list_find_Some in E as (Hi & [En Ef] & _). rewrite <-En, <-Ef. replace (mkFibUpdate _ _ _ _) with x by by destruct x.
    assert (Ek : upd_key x = upd_key y) by (unfold upd_key; congruence). split.
    { rewrite list_fmap_insert, list_insert_id; [done|]. by rewrite list_lookup_fmap, Hi, Ek. }
    intros z. split.
    + intros [j Hj]%list_elem_of_lookup_1. destruct (decide (i = j)) as [<-|Hne].
      * rewrite list_lookup_insert_eq in Hj by (by eapply lookup_lt_Some). left. congruence.
      * rewrite list_lookup_insert_ne in Hj by done. right. split; [by eapply list_elem_of_lookup_2|]. intros Ez. apply Hne.
        apply (NoDup_lookup _ i j (upd_key x) Hnd); rewrite list_lookup_fmap; [by rewrite Hi, Ek|by rewrite Hj, <-Ez].
    + intros [->|[Hz Hne]].
      * apply (list_elem_of_lookup_2 _ i). apply list_lookup_insert_eq. by eapply lookup_lt_Some.
      * apply list_elem_of_lookup_1 in Hz as [j Hj]. apply (list_elem_of_lookup_2 _ j). rewrite list_lookup_insert_ne; [done|].
        intros ->. congruence.
  - apply list_find_None in E. rewrite Forall_forall in E. assert (Hx : ∀ y, y ∈ l → upd_key y ≠ upd_key x).
    { intros y Hy Ey. apply (E y Hy). unfold upd_key in Ey. injection Ey as En Ef. by split. }
    split.
    + rewrite fmap_app. apply NoDup_app. split_and!; [done| |apply NoDup_singleton]. intros k (y & -> & Hy)%list_elem_of_fmap.
      intros Ey%list_elem_of_singleton. by apply (Hx y).
    + intros y. rewrite elem_of_app, list_elem_of_singleton. naive_solver.
Qed.

Lemma put_update_lookup x l n f : NoDup (upd_key <$> l) →
  upd_lookup n f (put_update x l) = if decide (upd_key x = (n, f)) then Some x else upd_lookup n f l.
Proof. intros Hnd. destruct (put_update_spec x l Hnd) as [Hnd' Hin]. by apply upd_lookup_put. Qed.

(** What an addition does *)
Record added (x : FibUpdate) (u u' : FibUpdater) : Prop := {
  ad_ok : updater_ok u';
  ad_pending n f : pending u' n f = if decide (upd_key x = (n, f)) then Some x else pending u n f;
  ad_face : m_batchFaceId u' = m_batchFaceId u;
  ad_notes : m_inheritedRoutes u' = m_inheritedRoutes u
}.

Lemma addFibUpdate_spec x u : updater_ok u → added x u (addFibUpdate x u).
Proof.
  intros [[Hb Hbf] [Hn Hnf]]. unfold addFibUpdate. destruct (Z.eqb_spec (fu_faceId x) (m_batchFaceId u)) as [E|E].
  - destruct (put_update_spec x _ Hb) as [Hb' Hin]. split; [|intros n f; unfold pending; simpl|done|done].
    + split; [split; [done|]|by split]. simpl. apply Forall_forall. intros y [->|[Hy _]]%Hin; [done|]. rewrite Forall_forall in Hbf. by apply Hbf.
    + destruct (Z.eqb_spec f (m_batchFaceId u)) as [->|Hf]; [by apply put_update_lookup|].
      rewrite decide_False; [done|]. unfold upd_key. intros [= _ <-]. done.
  - destruct (put_update_spec x _ Hn) as [Hn' Hin]. split; [|intros n f; unfold pending; simpl|done|done].
    + split; [by split|split; [done|]]. simpl. apply Forall_forall. intros y [->|[Hy _]]%Hin; [done|]. rewrite Forall_forall in Hnf. by apply Hnf.
    + destruct (Z.eqb_spec f (m_batchFaceId u)) as [->|Hf]; [|by apply put_update_lookup].
      rewrite decide_False; [done|]. unfold upd_key. intros [= _ E']. done.
Qed.

(** ** Additions *)

(** [u'] has the additions of [P] more than [u]; what it notes for the RIB are
    inherited routes of the names of [D]. *)
Record adds (D : Name → Prop) (P : Name → Z → option Z) (u u' : FibUpdater) : Prop := {
  as_ok : updater_ok u';
  as_pending n f : pending u' n f = match P n f with Some c => Some (createAddUpdate n f c) | None => pending u n f end;
  as_face : m_batchFaceId u' = m_batchFaceId u;
  as_notes : ∃ l, m_inheritedRoutes u' = m_inheritedRoutes u ++ l ∧ Forall (λ x, ru_action x = REGISTER ∧ D (ru_name x)) l
}.

Lemma adds_refl D P u : updater_ok u → (∀ n f, P n f = None) → adds D P u u.
Proof. intros Hu HP. split; [done|intros n f; by rewrite HP|done|]. exists []. by rewrite app_nil_r. Qed.
Lemma adds_trans D P Q R u1 u2 u3 : adds D P u1 u2 → adds D Q u2 u3 →
  (∀ n f, R n f = match Q n f with Some c => Some c | None => P n f end) → adds D R u1 u3.
Proof.
  intros [O1 P1 F1 (l1 & E1 & N1)] [O2 P2 F2 (l2 & E2 & N2)] HR. split; [done| |congruence|].
  - intros n f. rewrite P2, P1, HR. by destruct (Q n f).
  - exists (l1 ++ l2). rewrite E2, E1, app_assoc. split; [done|]. by apply Forall_app.
Qed.
Lemma adds_ext D P Q u u' : (∀ n f, P n f = Q n f) → adds D P u u' → adds D Q u u'.
Proof. intros HP [O Pn F N]. split; [done| |done|done]. intros n f. by rewrite Pn, HP. Qed.
Lemma adds_one D n f c u : updater_ok u → adds D (λ n' f', if decide ((n, f) = (n', f')) then Some c else None) u (addFibUpdate (createAddUpdate n f c) u).
Proof.
  intros Hu. destruct (addFibUpdate_spec (createAddUpdate n f c) u Hu) as [O Pn F N]. split; [done| |done|].
  - intros n' f'. rewrite Pn. change (upd_key (createAddUpdate n f c)) with (n, f). case_decide as E; [|done]. by injection E as <- <-.
  - exists []. rewrite N. by rewrite app_nil_r.
Qed.
Lemma adds_inherit (D : Name → Prop) n r u : updater_ok u → D n →
  adds D (λ n' f', if decide ((n, rt_faceId r) = (n', f')) then Some (rt_cost r) else None) u (inherit n r u).
Proof.
  intros Hu Hn. unfold inherit. destruct (adds_one D n (rt_faceId r) (rt_cost r) (noteInheritedRoute n r u)) as [O P F (l & E & N)].
  { destruct Hu as [? ?]. by split. }
  split; [done|exact P|done|]. exists (mkRibUpdate REGISTER n r :: l). rewrite E. simpl. rewrite <-app_assoc. split; [done|]. by constructor.
Qed.

(** The routes of a set that a name inherits *)
Lemma adds_inherit_all (D : Name → Prop) n (skip : Z → bool) routes : D n → faces_sorted routes → ∀ u, updater_ok u →
  adds D (λ n' f', if decide (n = n') then if skip f' then None else rt_cost <$> rs_lookup f' routes else None) u
    (foldl (λ u r, if skip (rt_faceId r) then u else inherit n r u) u routes).
Proof.
  intros Hn Hs. induction Hs as [|r l Hs IH Hr]; intros u Hu; simpl.
  { apply adds_refl; [done|]. intros n' f'. by destruct (decide (n = n')), (skip f'). }
  set (u1 := if skip (rt_faceId r) then u else inherit n r u).
  assert (H1 : adds D (λ n' f', if decide ((n, rt_faceId r) = (n', f')) then if skip f' then None else Some (rt_cost r) else None) u u1).
  { unfold u1. destruct (skip (rt_faceId r)) eqn:E.
    - apply adds_refl; [done|]. intros n' f'. case_decide as Hd; [|done]. injection Hd as <- <-. by rewrite E.
    - eapply adds_ext; [|by apply adds_inherit]. intros n' f'. simpl. case_decide as Hd; [|done]. injection Hd as <- <-. by rewrite E. }
  eapply adds_trans; [exact H1|apply IH; by eapply as_ok|]. intros n' f'. unfold rs_lookup. simpl. case_decide as Hn'.
  - subst n'. destruct (Z.eqb_spec (rt_faceId r) f') as [<-|Hf].
    + rewrite decide_True by done. fold (rs_lookup (rt_faceId r) l). rewrite rs_lookup_none by done. by destruct (skip (rt_faceId r)).
    + rewrite (decide_False (P := (n, rt_faceId r) = (n, f'))) by congruence. fold (rs_lookup f' l). by destruct (skip f'), (rs_lookup f' l).
  - rewrite decide_False; [done|]. congruence.
Qed.

(** ** The subtree of an entry *)

Section subtree.
Context `{NameOrder} `{RouteFlags}.
Context (m : gmap Name RibEntry) (Htree : tree_wf m).

(** Routes of the face pass the name. *)
Definition clear (f : Z) (x : Name) : bool :=
  match m !! x with Some e => negb (hasCapture e) && negb (hasChildInheritOnFaceId f e) | None => true end.
(** A route of the face that comes down to [c] becomes a next hop of [d]. *)
Definition reach_from (c d : Name) (f : Z) : bool :=
  bool_decide (c `prefix_of` d) && match m !! d with Some e => negb (hasFaceId f e) | None => false end &&
  forallb (clear f) (filter (λ x, c `prefix_of` x) (d :: chain m d)).

Lemma handed_None e f : handed e f = None ↔ hasChildInheritOnFaceId f e = false.
Proof.
  unfold handed, hasChildInheritOnFaceId. rewrite find_if_None. split.
  - intros Hn. apply not_true_iff_false. rewrite existsb_exists. setoid_rewrite <-list_elem_of_In. intros (r & Hr & E). by rewrite Hn in E.
  - intros Hn r Hr. apply not_true_iff_false. intros E. apply not_true_iff_false in Hn. apply Hn, existsb_exists. exists r.
    by rewrite <-list_elem_of_In.
Qed.
Lemma clear_transparent f x : clear f x = true ↔ transparent m f x.
Proof.
  unfold clear, transparent. destruct (m !! x) as [e|]; [|by split]. rewrite andb_true_iff, !negb_true_iff. split.
  - intros [? ?] e' [= <-]. by rewrite handed_None.
  - intros Ht. destruct (Ht e eq_refl) as [Hh ?]. by apply handed_None in Hh.
Qed.

Lemma reach_from_true c d f : reach_from c d f = true ↔ c `prefix_of` d ∧ (∃ e, m !! d = Some e ∧ hasFaceId f e = false) ∧
  ∀ x, c `prefix_of` x → x `prefix_of` d → clear f x = true.
Proof.
  unfold reach_from. rewrite !andb_true_iff, bool_decide_eq_true, forallb_forall. setoid_rewrite <-list_elem_of_In. split.
  - intros ((Hp & Hd) & Hc). split; [done|]. destruct (m !! d) as [e|] eqn:Ee; [|done]. apply negb_true_iff in Hd.
    split; [by exists e|]. intros x Hcx Hxd. destruct (m !! x) as [ex|] eqn:Ex; [|unfold clear; by rewrite Ex].
    apply Hc, list_elem_of_filter. split; [done|]. rewrite elem_of_cons, elem_of_chain.
    destruct (decide (x = d)); [by left|right]. rewrite Ex. split; [by split|eauto].
  - intros (Hp & (e & Ee & Hf) & Hc). rewrite Ee, Hf. split; [done|]. intros x [Hcx Hx]%list_elem_of_filter. apply Hc; [done|].
    rewrite elem_of_cons, elem_of_chain in Hx. destruct Hx as [->|[[? _] _]]; done.
Qed.

(** The entry below [n] that is nearest to it on the way to [d] *)
Lemma top_towards n d : below n d → is_Some (m !! d) →
  ∃ c, below n c ∧ c `prefix_of` d ∧ is_Some (m !! c) ∧
    (if m !! n then findParent m c = Some n else findParent m c = findParent m n) ∧ ∀ x, below n x → x `prefix_of` d → is_Some (m !! x) → c `prefix_of` x.
Proof.
  remember (length d) as k eqn:Ek. revert d Ek. induction k as [k IH] using lt_wf_ind. intros d -> Hb Hd.
  assert (Hcase : (∃ p, findParent m d = Some p ∧ below n p) ∨ ¬ ∃ p, findParent m d = Some p ∧ below n p).
  { destruct (findParent m d) as [p|]; [|right; by intros (? & ? & _)]. destruct (decide (below n p)); [left; by exists p|right; naive_solver]. }
  destruct Hcase as [(p & Ep & Hnp)|Hno].
  - pose proof Ep as (Hpd & Hp & Hmax)%findParent_Some. destruct (IH (length p)) with (d := p) as (c & H1 & H2 & H3 & H4 & H5); [by apply below_length|done..|].
    exists c. split_and!; [done|by etrans; [|apply Hpd]|done|done|]. intros x Hnx Hxd Hx. destruct (decide (x = d)) as [->|Hne]; [by etrans; [|apply Hpd]|].
    apply H5; [done| |done]. apply Hmax; [by split|done].
  - exists d. assert (Hmin : ∀ x, below n x → x `prefix_of` d → is_Some (m !! x) → x = d).
    { intros x Hnx Hxd Hx. destruct (decide (x = d)) as [|Hne]; [done|]. exfalso. apply Hno. destruct (findParent m d) as [p|] eqn:Ep.
      - exists p. split; [done|]. apply findParent_Some in Ep as (_ & _ & Hmax). eapply below_prefix_trans; [exact Hnx|]. apply Hmax; [by split|done].
      - pose proof (proj1 (findParent_None m d) Ep x ltac:(by split)) as Hn. rewrite Hn in Hx. by destruct Hx. }
    split_and!; [done|done|done| |intros x Hnx Hxd Hx; by rewrite (Hmin x)].
    assert (Hcmp : ∀ q, below q d → is_Some (m !! q) → q `prefix_of` n).
    { intros q Hq Hs. destruct (prefixes_comparable q n d) as [->|[[? _]|Hnq]]; [apply Hq|apply Hb|done|done|].
      exfalso. apply (below_irrefl d). by rewrite <-(Hmin q Hnq) at 1; [|apply Hq|]. }
    destruct (m !! n) as [en|] eqn:En.
    + apply findParent_Some. split_and!; [done|by rewrite En|done].
    + destruct (findParent m n) as [p|] eqn:Ep.
      * apply findParent_Some in Ep as (Hpn & Hp & Hmax). apply findParent_Some. split_and!; [by eapply below_trans|done|].
        intros q Hq Hs. apply Hmax; [|done]. split; [by apply Hcmp|]. intros ->. rewrite En in Hs. by destruct Hs.
      * apply findParent_None. intros q Hq. destruct (m !! q) as [eq|] eqn:Eq; [|done].
        rewrite (proj1 (findParent_None m n) Ep) in Eq; [done|]. split; [apply Hcmp; [done|by rewrite Eq]|]. intros ->. congruence.
Qed.

Lemma child_iff n e c : m !! n = Some e → c ∈ re_children e ↔ is_Some (m !! c) ∧ findParent m c = Some n.
Proof.
  intros He. destruct (lk_children m (tw_links m Htree) n e He) as [_ Hin]. rewrite Hin. split.
  - intros Hp. assert (Hs : is_Some (m !! c)) by (unfold parent_of in Hp; by apply fmap_Some in Hp as (? & -> & _)).
    split; [done|]. rewrite (tw_parent m Htree) in Hp by done. congruence.
  - intros [Hs Hp]. by rewrite (tw_parent m Htree), Hp.
Qed.

(** Clear above a child and from there on is clear all the way. *)
Lemma clear_through n c d f : (∀ x, below n x → x `prefix_of` d → is_Some (m !! x) → c `prefix_of` x) →
  (∀ x, c `prefix_of` x → x `prefix_of` d → clear f x = true) → ∀ x, below n x → x `prefix_of` d → clear f x = true.
Proof.
  intros Hmin Hc x Hnx Hxd. destruct (m !! x) as [e|] eqn:E; [|unfold clear; by rewrite E]. apply Hc; [|done]. apply Hmin; [done|done|by rewrite E].
Qed.

Lemma reach_step c e d f : m !! c = Some e → hasCapture e = false →
  reach_from c d f = negb (hasChildInheritOnFaceId f e) &&
    if decide (c = d) then negb (hasFaceId f e) else existsb (λ c', reach_from c' d f) (re_children e).
Proof.
  intros He Hcap. assert (Hclear : clear f c = negb (hasChildInheritOnFaceId f e)) by (unfold clear; by rewrite He, Hcap).
  apply eq_true_iff_eq. rewrite andb_true_iff, reach_from_true, <-Hclear. case_decide as Hcd.
  - subst d. rewrite negb_true_iff. split.
    + intros (_ & (e' & He' & Hf) & Hx). split; [by apply Hx|]. congruence.
    + intros [Hx Hf]. split_and!; [done|by exists e|]. intros x Hcx Hxc. assert (x = c) as ->; [|done].
      destruct (decide (x = c)) as [|Hne]; [done|]. exfalso. apply (below_irrefl c). by eapply prefix_below_trans; [|split].
  - rewrite existsb_exists. setoid_rewrite <-list_elem_of_In. split.
    + intros (Hp & Hd & Hx). split; [apply Hx; [done|done]|]. destruct (top_towards c d) as (c' & H1 & H2 & H3 & H4 & H5); [by split|naive_solver|].
      rewrite He in H4. exists c'. split; [by apply (child_iff c e)|]. apply reach_from_true. split_and!; [done|done|]. intros x Hx1 Hx2. apply Hx; [|done].
      etrans; [apply H1|done].
    + intros (Hx & c' & Hc' & Hr). apply reach_from_true in Hr as (Hp & Hd & Hxs). apply (child_iff c e) in Hc' as [Hs Hpar]; [|done].
      apply findParent_Some in Hpar as (Hb & _ & Hmax). split_and!; [etrans; [apply Hb|done]|done|].
      intros x Hcx Hxd. destruct (decide (x = c)) as [->|Hne]; [done|].
      eapply (clear_through c c' d); [|exact Hxs|by split|done]. intros y Hcy Hyd Hsy.
      destruct (prefixes_comparable c' y d) as [->|[[? _]|Hyc]]; [done..|]. exfalso. apply (below_irrefl c).
      eapply below_prefix_trans; [exact Hcy|]. by apply Hmax.
Qed.

Lemma lookup_passes f e l : rs_lookup f (filter (passes e) l) = if hasChildInheritOnFaceId f e then None else rs_lookup f l.
Proof.
  unfold rs_lookup. induction l as [|r l IH]; [by destruct (hasChildInheritOnFaceId f e)|]. rewrite filter_cons. unfold passes at 1.
  simpl. destruct (Z.eqb_spec (rt_faceId r) f) as [<-|Hne].
  - case_decide as Hd; [rewrite Hd; simpl; by rewrite Z.eqb_refl|]. apply not_false_iff_true in Hd. by rewrite IH, Hd.
  - case_decide; [simpl; by rewrite (proj2 (Z.eqb_neq _ _) Hne)|done].
Qed.
Lemma passes_sorted e l : faces_sorted l → faces_sorted (filter (passes e) l).
Proof.
  induction 1 as [|r l Hs IH Hr]; [constructor|]. rewrite filter_cons. case_decide; [|done]. constructor; [done|].
  apply Forall_forall. intros x [_ Hx]%list_elem_of_filter. rewrite Forall_forall in Hr. by apply Hr.
Qed.

(** The entries at and below a name; they bound the depth. *)
Definition subtree (c : Name) : list Name := filter (λ x, c `prefix_of` x) (elements (dom m)).
Lemma subtree_child c c' : below c c' → is_Some (m !! c) → (length (subtree c') < length (subtree c))%nat.
Proof.
  intros Hb Hs. assert (Hsub : c :: subtree c' ⊆+ subtree c).
  { apply NoDup_submseteq.
    - apply NoDup_cons. split; [|apply NoDup_filter, NoDup_elements]. intros [Hp _]%list_elem_of_filter.
      apply (below_irrefl c). by eapply below_prefix_trans.
    - intros x [->|[Hp Hx]%list_elem_of_filter]%elem_of_cons; apply list_elem_of_filter; (split; [|]); [done| |etrans; [apply Hb|done]|done].
      by apply elem_of_elements, elem_of_dom. }
  apply submseteq_length in Hsub. simpl in Hsub. lia.
Qed.
Lemma subtree_size c : (length (subtree c) <= size m)%nat.
Proof. rewrite <-size_dom. unfold size, set_size. simpl. apply length_filter. Qed.

Definition in_table (x : Name) : Prop := is_Some (m !! x).

(** A walk for each entry of a list *)
Lemma fold_adds (toAdd : list Route) (go : Name → FibUpdater → option FibUpdater) l : ∀ u, updater_ok u →
  (∀ c u, c ∈ l → updater_ok u → ∃ u', go c u = Some u' ∧ adds in_table (λ d f, if reach_from c d f then rt_cost <$> rs_lookup f toAdd else None) u u') →
  ∃ u', fold_opt go l u = Some u' ∧
    adds in_table (λ d f, if existsb (λ c, reach_from c d f) l then rt_cost <$> rs_lookup f toAdd else None) u u'.
Proof.
  induction l as [|c l IH]; intros u Hu Hgo; simpl; [exists u; split; [done|by apply adds_refl]|].
  destruct (Hgo c u ltac:(set_solver) Hu) as (u1 & -> & H1). simpl. destruct (IH u1) as (u' & -> & H2); [by eapply as_ok|intros; apply Hgo; set_solver|].
  exists u'. split; [done|]. eapply adds_trans; [exact H1|exact H2|]. intros d f. simpl.
  destruct (reach_from c d f), (existsb _ l), (rs_lookup f toAdd); done.
Qed.

Lemma traverse_adds fuel : ∀ c toAdd u, is_Some (m !! c) → (length (subtree c) <= fuel)%nat → faces_sorted toAdd → updater_ok u →
  ∃ u', traverseSubTree fuel m c toAdd [] u = Some u' ∧
    adds in_table (λ d f, if reach_from c d f then rt_cost <$> rs_lookup f toAdd else None) u u'.
Proof.
  induction fuel as [|fuel IH]; intros c toAdd u Hc Hf Hs Hu.
  { exfalso. assert (Hin : c ∈ subtree c) by (apply list_elem_of_filter; split; [done|]; by apply elem_of_elements, elem_of_dom).
    destruct (subtree c); [by apply elem_of_nil in Hin|simpl in Hf; lia]. }
  destruct Hc as [e He]. simpl. rewrite He. simpl. destruct (hasCapture e) eqn:Ecap.
  { exists u. split; [done|]. apply adds_refl; [done|]. intros d f. destruct (reach_from c d f) eqn:Er; [|done].
    apply reach_from_true in Er as (Hp & _ & Hx). specialize (Hx c (reflexivity _) Hp). unfold clear in Hx. by rewrite He, Ecap in Hx. }
  rewrite (tw_name m Htree c e He). pose proof (passes_sorted e toAdd Hs) as Hs'. set (toAdd' := filter (passes e) toAdd) in *.
  pose proof (adds_inherit_all in_table c (λ f, hasFaceId f e) toAdd' ltac:(by exists e) Hs' u Hu) as H1. simpl in H1.
  set (u1 := foldl _ u toAdd') in *. destruct (fold_adds toAdd' (λ child u, traverseSubTree fuel m child toAdd' [] u) (re_children e) u1) as (u' & Eu & H2).
  { by eapply as_ok. }
  { intros c' u2 Hc' Hu2. apply (child_iff c e) in Hc' as [Hsc Hpar]; [|done]. apply findParent_Some in Hpar as (Hb & _).
    apply IH; [done| |done|done]. pose proof (subtree_child c c' Hb ltac:(by exists e)). lia. }
  exists u'. split; [done|]. eapply adds_trans; [exact H1|exact H2|]. intros d f. simpl. rewrite (reach_step c e d f He Ecap).
  unfold toAdd'. rewrite !lookup_passes. destruct (hasChildInheritOnFaceId f e) eqn:Eci; simpl.
  { case_decide; [by destruct (existsb _ _), (hasFaceId f e)|by destruct (existsb _ _)]. }
  case_decide as Hcd.
  - subst d. assert (Hex : existsb (λ c', reach_from c' c f) (re_children e) = false).
    { apply not_true_iff_false. rewrite existsb_exists. setoid_rewrite <-list_elem_of_In. intros (c' & Hc' & Hr).
      apply (child_iff c e) in Hc' as [_ (Hb & _)%findParent_Some]; [|done]. apply reach_from_true in Hr as [Hp _].
      apply (below_irrefl c). by eapply below_prefix_trans. }
    rewrite Hex. by destruct (hasFaceId f e).
  - by destruct (existsb _ _), (rs_lookup f toAdd).
Qed.

(** ** Below a name *)

(** A route that comes down from [n] becomes a next hop of [d]. *)
Definition reach_below (n d : Name) (f : Z) : bool :=
  bool_decide (below n d) && match m !! d with Some e => negb (hasFaceId f e) | None => false end &&
  forallb (clear f) (filter (below n) (d :: chain m d)).

Lemma reach_below_true n d f : reach_below n d f = true ↔ below n d ∧ (∃ e, m !! d = Some e ∧ hasFaceId f e = false) ∧
  ∀ x, below n x → x `prefix_of` d → clear f x = true.
Proof.
  unfold reach_below. rewrite !andb_true_iff, bool_decide_eq_true, forallb_forall. setoid_rewrite <-list_elem_of_In. split.
  - intros ((Hp & Hd) & Hc). split; [done|]. destruct (m !! d) as [e|] eqn:Ee; [|done]. apply negb_true_iff in Hd.
    split; [by exists e|]. intros x Hcx Hxd. destruct (m !! x) as [ex|] eqn:Ex; [|unfold clear; by rewrite Ex].
    apply Hc, list_elem_of_filter. split; [done|]. rewrite elem_of_cons, elem_of_chain.
    destruct (decide (x = d)); [by left|right]. rewrite Ex. split; [by split|eauto].
  - intros (Hp & (e & Ee & Hf) & Hc). rewrite Ee, Hf. split; [done|]. intros x [Hcx Hx]%list_elem_of_filter. apply Hc; [done|].
    rewrite elem_of_cons, elem_of_chain in Hx. destruct Hx as [->|[[? _] _]]; done.
Qed.

Definition tops (n : Name) (l : list Name) : Prop := ∀ c, c ∈ l ↔ below n c ∧ is_Some (m !! c) ∧
  if m !! n then findParent m c = Some n else findParent m c = findParent m n.

Lemma reach_tops n l d f : tops n l → existsb (λ c, reach_from c d f) l = reach_below n d f.
Proof.
  intros Ht. apply eq_true_iff_eq. rewrite existsb_exists, reach_below_true. setoid_rewrite <-list_elem_of_In. split.
  - intros (c & (Hb & Hs & Hpar)%Ht & (Hp & Hd & Hx)%reach_from_true). split_and!; [by eapply below_prefix_trans|done|].
    apply (clear_through n c d f); [|done]. intros x Hnx Hxd Hsx. destruct (prefixes_comparable c x d) as [->|[[? _]|Hxc]]; [done..|]. exfalso.
    apply (below_irrefl n). eapply below_prefix_trans; [exact Hnx|]. destruct (m !! n) as [en|] eqn:En.
    + apply findParent_Some in Hpar as (_ & _ & Hmax). by apply Hmax.
    + destruct (findParent m n) as [p|] eqn:Ep.
      * apply findParent_Some in Hpar as (_ & _ & Hmax). apply findParent_Some in Ep as ([? _] & _). etrans; [by apply Hmax|done].
      * pose proof (proj1 (findParent_None m c) Hpar x Hxc) as Hn. rewrite Hn in Hsx. by destruct Hsx.
  - intros (Hb & Hd & Hx). destruct (top_towards n d) as (c & H1 & H2 & H3 & H4 & H5); [done|naive_solver|].
    exists c. split; [by apply Ht|]. apply reach_from_true. split_and!; [done|done|]. intros x Hcx Hxd. apply Hx; [|done]. by eapply below_prefix_trans.
Qed.

Lemma modifyChildren_adds n l toAdd u : tops n l → faces_sorted toAdd → updater_ok u →
  ∃ u', modifyChildrensInheritedRoutes m l toAdd [] u = Some u' ∧
    adds in_table (λ d f, if reach_below n d f then rt_cost <$> rs_lookup f toAdd else None) u u'.
Proof.
  intros Ht Hs Hu. destruct (fold_adds toAdd (λ child u, traverseSubTree (size m) m child toAdd [] u) l u Hu) as (u' & E & Ha).
  { intros c u2 Hc Hu2. apply Ht in Hc as (_ & Hsc & _). apply traverse_adds; [done|apply subtree_size|done|done]. }
  exists u'. split; [done|]. eapply adds_ext; [|exact Ha]. intros d f. simpl. by rewrite (reach_tops n l d f Ht).
Qed.
End subtree.

(** ** The next hops a RIB asks for *)

(** The cheapest of the entry's own routes of the face or, if it has none and does
    not capture, what its ancestors hand down *)
Section nexthops.
Context `{NameOrder} `{RouteFlags}.

Definition nexthop (m : gmap Name RibEntry) (d : Name) (f : Z) : option Z :=
  e ← m !! d;
  match getRouteWithLowestCostByFaceId f e with
  | Some r => Some (rt_cost r)
  | None => if hasCapture e then None else rt_cost <$> walk m (chain m d) f
  end.

Lemma lowest_cost_some l : ∀ c, is_Some (lowest_cost (Some c) l).
Proof. induction l as [|r l IH]; intros c; simpl; [eauto|]. destruct (_ <? _); apply IH. Qed.
Lemma own_None f e : getRouteWithLowestCostByFaceId f e = None ↔ hasFaceId f e = false.
Proof.
  unfold getRouteWithLowestCostByFaceId. assert (Hh : hasFaceId f e = false ↔ filter (λ r, rt_faceId r = f) (re_routes e) = []).
  { rewrite <-not_true_iff_false, hasFaceId_true. split.
    - intros Hn. apply filter_none. intros r Hr E. apply Hn. by exists r.
    - intros E (r & Hr & Er). assert (Hin : r ∈ filter (λ r, rt_faceId r = f) (re_routes e)) by by apply list_elem_of_filter.
      rewrite E in Hin. by apply elem_of_nil in Hin. }
  rewrite Hh. destruct (filter _ _) as [|r l]; [done|]. simpl. split; [|done]. intros E. destruct (lowest_cost_some l r). congruence.
Qed.

(** The table after the registration of a route of a new face *)
Record registered (n : Name) (r : Route) (m m' : gmap Name RibEntry) : Prop := {
  rg_others x : x ≠ n → re_data <$> m' !! x = re_data <$> m !! x;
  rg_entry : ∃ e', m' !! n = Some e' ∧ re_routes e' = default [] (re_routes <$> m !! n) ++ [r] ∧ hasCapture e' = false
}.
Definition no_capture (m : gmap Name RibEntry) : Prop := ∀ n e, m !! n = Some e → hasCapture e = false.

Context (m m' : gmap Name RibEntry) (Htree : tree_wf m) (n : Name) (r : Route).
Context (Hcap : no_capture m) (Hfresh : ∀ e, m !! n = Some e → hasFaceId (rt_faceId r) e = false) (Hreg : registered n r m m').

Lemma rg_dom x : x ≠ n → is_Some (m' !! x) ↔ is_Some (m !! x).
Proof.
  intros Hx. pose proof (rg_others _ _ _ _ Hreg x Hx) as E. rewrite <-(fmap_is_Some re_data (m' !! x)), <-(fmap_is_Some re_data (m !! x)). by rewrite E.
Qed.
Lemma chain_at_n : chain m' n = chain m n.
Proof. apply chain_dom. intros x [_ Hx]. by apply rg_dom. Qed.
Lemma walk_at_n f : walk m' (chain m n) f = walk m (chain m n) f.
Proof. apply walk_ext. intros x [[_ Hx] _]%elem_of_chain. by apply Hreg. Qed.

(** What comes to [n] from above, and what [n] then hands down *)
Definition here (k : gmap Name RibEntry) : list Name := match k !! n with Some _ => [n] | None => [] end.

Lemma walk_here f : walk m' ([n] ++ chain m n) f =
  if isChildInherit r && (f =? rt_faceId r) then Some r else walk m (here m ++ chain m n) f.
Proof.
  destruct (rg_entry _ _ _ _ Hreg) as (e' & He' & Er & Ec). cbn [app walk]. rewrite He'. unfold handed at 1. rewrite Er, Ec, walk_at_n.
  assert (Happ : ∀ l, (∀ x, x ∈ l → rt_faceId x ≠ rt_faceId r) → find_if (λ x, (rt_faceId x =? f) && isChildInherit x) (l ++ [r]) =
    if isChildInherit r && (f =? rt_faceId r) then Some r else find_if (λ x, (rt_faceId x =? f) && isChildInherit x) l).
  { clear -f. induction l as [|x l IH]; intros Hl; simpl.
    - rewrite (Z.eqb_sym f). by destruct (rt_faceId r =? f), (isChildInherit r).
    - rewrite IH by set_solver. destruct (Z.eqb_spec (rt_faceId x) f) as [<-|]; simpl; [|done].
      rewrite (proj2 (Z.eqb_neq (rt_faceId x) (rt_faceId r))) by (apply Hl; set_solver). rewrite andb_false_r. by destruct (isChildInherit x). }
  unfold here. destruct (m !! n) as [e|] eqn:Ee; simpl.
  - rewrite Happ. 2: { intros x Hx E. pose proof (Hfresh e eq_refl) as Hf. apply not_true_iff_false in Hf. apply Hf, hasFaceId_true. by exists x. }
    rewrite Ee. destruct (isChildInherit r && (f =? rt_faceId r)); [done|]. fold (handed e f). destruct (handed e f); [done|]. by rewrite (Hcap n e Ee).
  - rewrite (Z.eqb_sym f). by destruct (rt_faceId r =? f), (isChildInherit r).
Qed.

Lemma nexthop_self f : nexthop m' n f = if f =? rt_faceId r then Some (rt_cost r) else
  match m !! n with Some _ => nexthop m n f | None => rt_cost <$> walk m (chain m n) f end.
Proof.
  destruct (rg_entry _ _ _ _ Hreg) as (e' & He' & Er & Ec). unfold nexthop at 1. rewrite He'. simpl. rewrite Ec, chain_at_n, walk_at_n.
  unfold getRouteWithLowestCostByFaceId. rewrite Er, filter_app, filter_cons, filter_nil. destruct (Z.eqb_spec f (rt_faceId r)) as [->|Hf].
  - rewrite decide_True by done. rewrite filter_none; [done|]. intros x Hx E. destruct (m !! n) as [e|] eqn:Ee; simpl in Hx; [|by apply elem_of_nil in Hx].
    pose proof (Hfresh e eq_refl) as Hn. apply not_true_iff_false in Hn. apply Hn, hasFaceId_true. by exists x.
  - rewrite decide_False, app_nil_r by congruence. destruct (m !! n) as [e|] eqn:Ee; simpl; [|done].
    unfold nexthop. rewrite Ee. simpl. unfold getRouteWithLowestCostByFaceId. by rewrite (Hcap n e Ee).
Qed.

(** An entry below [n] that the routes of the face reach has what comes out of [n]. *)
Lemma nexthop_reached d f : reach_below m n d f = true → nexthop m d f = rt_cost <$> walk m (here m ++ chain m n) f.
Proof.
  intros (Hb & (e & He & Hf) & Hx)%reach_below_true. unfold nexthop. rewrite He. simpl. apply own_None in Hf. rewrite Hf, (Hcap d e He).
  destruct (chain_below m n d Hb) as (seg & Hseg & Hch). rewrite (Hch m) by done. f_equal. apply walk_transparent.
  intros x (Hnx & Hxd & _)%Hseg. apply clear_transparent, Hx; [done|apply Hxd].
Qed.

Lemma nexthop_other d f : d ≠ n → nexthop m' d f =
  if reach_below m n d f && isChildInherit r && (f =? rt_faceId r) then Some (rt_cost r) else nexthop m d f.
Proof.
  intros Hd. pose proof (rg_others _ _ _ _ Hreg d Hd) as Ed. destruct (m !! d) as [e|] eqn:Ee.
  2: { destruct (m' !! d) eqn:Ee'; [done|]. unfold nexthop, reach_below. rewrite Ee, Ee'. by rewrite andb_false_r. }
  destruct (m' !! d) as [e'|] eqn:Ee'; [|done]. simpl in Ed. unfold re_data in Ed. injection Ed as _ Er _ Ec.
  assert (Eown : getRouteWithLowestCostByFaceId f e' = getRouteWithLowestCostByFaceId f e) by (unfold getRouteWithLowestCostByFaceId; by rewrite Er).
  assert (Ecap : hasCapture e' = false) by (unfold hasCapture; rewrite Ec; by apply (Hcap d e)).
  destruct (getRouteWithLowestCostByFaceId f e) as [x|] eqn:Eo.
  { assert (Eb : reach_below m n d f = false).
    { apply not_true_iff_false. intros (_ & (e2 & He2 & Hf) & _)%reach_below_true. apply own_None in Hf. congruence. }
    rewrite Eb. unfold nexthop. rewrite Ee, Ee'. simpl. by rewrite Eown, Eo. }
  assert (En' : nexthop m' d f = rt_cost <$> walk m' (chain m' d) f) by (unfold nexthop; rewrite Ee'; simpl; by rewrite Eown, Ecap).
  assert (En : nexthop m d f = rt_cost <$> walk m (chain m d) f) by (unfold nexthop; rewrite Ee; simpl; by rewrite Eo, (Hcap d e Ee)).
  destruct (decide (below n d)) as [Hb|Hb].
  2: { unfold reach_below. rewrite bool_decide_eq_false_2 by done. simpl. rewrite En, En'.
       rewrite (chain_dom m' m d) by (intros x Hx; apply rg_dom; by intros ->). f_equal. apply walk_ext. intros x [Hx _]%elem_of_chain.
       apply Hreg. by intros ->. }
  destruct (chain_below m n d Hb) as (seg & Hseg & Hch). destruct (rg_entry _ _ _ _ Hreg) as (en & Hen & _).
  assert (Hsegne : ∀ x, x ∈ seg → x ≠ n) by (intros x (Hnx & _)%Hseg ->; by apply below_irrefl in Hnx).
  rewrite En'. rewrite (Hch m'), Hen, chain_at_n by (intros x Hx; apply rg_dom; intros ->; by apply below_irrefl in Hx).
  assert (Hdat : ∀ x, x ∈ seg → re_data <$> m' !! x = re_data <$> m !! x) by (intros x Hx; by apply Hreg, Hsegne).
  destruct (reach_below m n d f) eqn:Erb.
  - rewrite nexthop_reached by done. apply reach_below_true in Erb as (_ & _ & Hx). rewrite walk_transparent, walk_here.
    { simpl. destruct (isChildInherit r && (f =? rt_faceId r)); done. }
    intros x Hxs e2 He2. pose proof Hxs as (Hnx & Hxd & _)%Hseg. specialize (Hdat x Hxs). rewrite He2 in Hdat. simpl in Hdat. symmetry in Hdat.
    apply fmap_Some in Hdat as (e1 & He1 & E). unfold re_data in E. injection E as _ E1 _ E2.
    pose proof (proj1 (clear_transparent m f x) (Hx x Hnx (proj1 Hxd)) e1 He1) as [Hh Hc]. unfold handed, hasCapture in *. by rewrite E1, E2.
  - simpl. rewrite En, (Hch m) by done. f_equal. assert (Hop : ¬ ∀ x, x ∈ seg → transparent m f x).
    { intros Hall. apply not_true_iff_false in Erb. apply Erb, reach_below_true. split_and!; [done|exists e; by rewrite <-own_None|].
      intros x Hnx Hxd. apply clear_transparent. destruct (decide (x = d)) as [->|Hne].
      - intros e2 He2. assert (e2 = e) as -> by congruence. split; [|by apply (Hcap d)]. apply handed_None. apply own_None in Eo.
        apply not_true_iff_false. unfold hasChildInheritOnFaceId. rewrite existsb_exists. setoid_rewrite <-list_elem_of_In.
        intros (y & Hy & [Ey%Z.eqb_eq _]%andb_true_iff). apply not_true_iff_false in Eo. apply Eo, hasFaceId_true. by exists y.
      - intros e2 He2. assert (Hin : x ∈ seg) by (apply Hseg; split_and!; [done|by split|by rewrite He2]). by apply (Hall x Hin). }
    rewrite (walk_opaque m seg _ []) by done. rewrite (walk_opaque m' seg _ []).
    + apply walk_ext. intros x. rewrite app_nil_r. apply Hdat.
    + intros Hall. apply Hop. intros x Hx e1 He1. specialize (Hdat x Hx). rewrite He1 in Hdat. simpl in Hdat.
      apply fmap_Some in Hdat as (e2 & He2 & E). unfold re_data in E. injection E as _ E1 _ E2. destruct (Hall x Hx e2 He2) as [Hh Hc].
      unfold handed, hasCapture in *. by rewrite E1, E2.
Qed.
End nexthops.

(** ** Registration *)

Section registration.
Context `{NameOrder} `{RouteFlags}.

Lemma adds_mono (D D' : Name → Prop) P u u' : (∀ x, D x → D' x) → adds D P u u' → adds D' P u u'.
Proof.
  intros Hd [O Pn F (l & E & N)]. split; [done..|]. exists l. split; [done|]. eapply Forall_impl; [exact N|]. intros x [? ?]. auto.
Qed.

Lemma lookup_erase r f l : rs_lookup f (routeSet_erase r l) = if f =? rt_faceId r then None else rs_lookup f l.
Proof.
  unfold rs_lookup, routeSet_erase. induction l as [|x l IH]; [by destruct (f =? _)|]. rewrite filter_cons. simpl.
  destruct (Z.eqb_spec (rt_faceId x) f) as [<-|Hne].
  - case_decide as Hd; simpl; [by rewrite Z.eqb_refl, (proj2 (Z.eqb_neq _ _) Hd)|]. by rewrite IH, Hd, Z.eqb_refl.
  - case_decide; [|done]. simpl. by rewrite (proj2 (Z.eqb_neq _ _) Hne).
Qed.
Lemma erase_sorted r l : faces_sorted l → faces_sorted (routeSet_erase r l).
Proof.
  induction 1 as [|x l Hs IH Hx]; [constructor|]. unfold routeSet_erase in *. rewrite filter_cons. case_decide; [|done]. constructor; [done|].
  apply Forall_forall. intros y [_ Hy]%list_elem_of_filter. rewrite Forall_forall in Hx. by apply Hx.
Qed.
(** The new route takes the place of an ancestor's. *)
Lemma overwrite_spec r l : faces_sorted l →
  let l' := routeSet_insert r (match routeSet_find r l with Some _ => routeSet_erase r l | None => l end) in
  faces_sorted l' ∧ ∀ f, rs_lookup f l' = if f =? rt_faceId r then Some r else rs_lookup f l.
Proof.
  intros Hs. change (routeSet_find r l) with (rs_lookup (rt_faceId r) l). destruct (rs_lookup (rt_faceId r) l) eqn:E.
  - destruct (routeSet_insert_spec r _ (erase_sorted r l Hs)) as (H1 & _ & H2). split; [done|]. intros f. rewrite H2, lookup_erase, (Z.eqb_sym (rt_faceId r)).
    destruct (f =? rt_faceId r); [done|]. by destruct (rs_lookup f l).
  - destruct (routeSet_insert_spec r l Hs) as (H1 & _ & H2). split; [done|]. intros f. rewrite H2, (Z.eqb_sym (rt_faceId r)).
    destruct (Z.eqb_spec f (rt_faceId r)) as [->|]; [by rewrite E|]. by destruct (rs_lookup f l).
Qed.
Lemma single_spec r : faces_sorted (routeSet_insert r []) ∧ ∀ f, rs_lookup f (routeSet_insert r []) = if f =? rt_faceId r then Some r else None.
Proof.
  destruct (routeSet_insert_spec r []) as (H1 & _ & H2); [constructor|]. split; [done|]. intros f. by rewrite H2, (Z.eqb_sym (rt_faceId r)).
Qed.

Context (b : Rib) (m' : gmap Name RibEntry) (Htree : tree_wf (m_rib b)) (n : Name) (r : Route) (u : FibUpdater) (Hu : updater_ok u).
Context (Hcap : no_capture (m_rib b)) (Hr : isCapture r = false).
Context (Hfresh : ∀ e, m_rib b !! n = Some e → hasFaceId (rt_faceId r) e = false) (Hreg : registered n r (m_rib b) m').

Definition becomes (P : Name → Z → option Z) : Prop :=
  ∀ d f, nexthop m' d f = match P d f with Some c => Some c | None => nexthop (m_rib b) d f end.

Lemma no_entry_nexthop f : m_rib b !! n = None → nexthop (m_rib b) n f = None.
Proof. unfold nexthop. by intros ->. Qed.

Lemma children_tops : m_rib b !! n = None →
  tops (m_rib b) n (filter (λ d, re_parent <$> m_rib b !! d = Some (findParent (m_rib b) n)) (findDescendantsForNonInsertedName (m_rib b) n)).
Proof.
  intros Hn c. unfold findDescendantsForNonInsertedName. rewrite !list_elem_of_filter, elem_of_rib_names, isPrefixOf_true, Hn.
  change (re_parent <$> m_rib b !! c) with (parent_of (m_rib b) c). split.
  - intros (Hp & Hb & Hs). rewrite (tw_parent _ Htree) in Hp by done. injection Hp as Hp. split_and!; [|done|done].
    split; [done|]. intros ->. rewrite Hn in Hs. by destruct Hs.
  - intros ([Hb _] & Hs & Hp). split_and!; [|done|done]. rewrite (tw_parent _ Htree) by done. by rewrite Hp.
Qed.
Lemma entry_tops e : m_rib b !! n = Some e → tops (m_rib b) n (re_children e).
Proof.
  intros He c. rewrite (child_iff _ Htree n e c He), He. split; [|naive_solver]. intros [Hs Hp]. split_and!; [|done|done].
  by apply findParent_Some in Hp as (? & _).
Qed.

Lemma new_entry_adds children : m_rib b !! n = None → tops (m_rib b) n children →
  ∃ u' P, createFibUpdatesForNewRibEntry (m_rib b) n r children u = Some u' ∧ adds (λ x, x = n ∨ in_table (m_rib b) x) P u u' ∧ becomes P.
Proof.
  intros Hn Htop. destruct (getAncestorRoutes_spec (m_rib b) n Htree) as (anc & Eanc & Hs & _ & Hl).
  set (D := λ x, x = n ∨ in_table (m_rib b) x). assert (HDn : D n) by by left.
  pose proof (adds_one D n (rt_faceId r) (rt_cost r) u Hu) as H1. unfold createFibUpdatesForNewRibEntry.
  set (u1 := addFibUpdate _ u) in *. rewrite Hr, andb_true_r, andb_false_r, Eanc. cbn [mbind option_bind negb].
  pose proof (adds_inherit_all D n (λ f, f =? rt_faceId r) anc HDn Hs u1 ltac:(by eapply as_ok)) as H2. simpl in H2.
  change (foldl _ u1 anc) with (addInheritedRoutes n anc r u1) in H2. set (u2 := addInheritedRoutes n anc r u1) in *.
  assert (Hself : ∀ f, nexthop m' n f =
    match (match (if f =? rt_faceId r then None else rt_cost <$> rs_lookup f anc) with
           | Some c => Some c
           | None => if decide ((n, rt_faceId r) = (n, f)) then Some (rt_cost r) else None
           end) with
    | Some c => Some c
    | None => nexthop (m_rib b) n f
    end).
  { intros f. rewrite Hl, (nexthop_self (m_rib b) m' n r Hcap Hfresh Hreg), Hn, no_entry_nexthop by done. destruct (Z.eqb_spec f (rt_faceId r)) as [->|Hf].
    - by rewrite decide_True.
    - rewrite decide_False by congruence. by destruct (walk _ _ f). }
  assert (Hbelow : ∀ f, reach_below (m_rib b) n n f = false).
  { intros f. apply not_true_iff_false. intros (Hb & _)%reach_below_true. by apply below_irrefl in Hb. }
  destruct (isChildInherit r) eqn:Ec; cbn [negb].
  - destruct (overwrite_spec r anc Hs) as [Hs3 Hl3]. cbn zeta in Hs3, Hl3. set (anc3 := routeSet_insert r _) in *.
    destruct (modifyChildren_adds (m_rib b) Htree n children anc3 u2 Htop Hs3 ltac:(by eapply as_ok)) as (u' & E & H3). exists u'.
    eexists. split; [exact E|]. split.
    { eapply adds_trans; [eapply adds_trans; [exact H1|exact H2|]|eapply adds_mono; [|exact H3]; by right|]; intros d f; reflexivity. }
    intros d f. cbn beta. rewrite Hl3. destruct (decide (d = n)) as [->|Hd].
    + rewrite Hbelow, decide_True by done. apply Hself.
    + rewrite (decide_False (P := n = d)), (decide_False (P := (n, _) = _)) by congruence.
      rewrite (nexthop_other (m_rib b) m' n r Hcap Hfresh Hreg d f Hd), Ec, andb_true_r.
      destruct (reach_below (m_rib b) n d f) eqn:Erb; [|done]. simpl. destruct (f =? rt_faceId r); [done|].
      rewrite (nexthop_reached (m_rib b) n Hcap d f Erb). unfold here. rewrite Hn, Hl. simpl. by destruct (walk _ _ f).
  - exists u2. eexists. split; [done|]. split; [eapply adds_trans; [exact H1|exact H2|]; intros d f; reflexivity|].
    intros d f. cbn beta. destruct (decide (d = n)) as [->|Hd].
    + rewrite decide_True by done. apply Hself.
    + rewrite (decide_False (P := n = d)), (decide_False (P := (n, _) = _)) by congruence.
      rewrite (nexthop_other (m_rib b) m' n r Hcap Hfresh Hreg d f Hd), Ec, andb_false_r. done.
Qed.

Lemma new_route_adds e : m_rib b !! n = Some e →
  ∃ u' P, createFibUpdatesForNewRoute (m_rib b) e r false u = Some u' ∧ adds (λ x, x = n ∨ in_table (m_rib b) x) P u u' ∧ becomes P.
Proof.
  intros He. pose proof (proj2 (own_None _ _) (Hfresh e He)) as Hown. unfold createFibUpdatesForNewRoute. rewrite Hown.
  assert (Eprev : getRouteWithLowestCostAndChildInheritByFaceId (rt_faceId r) e = None).
  { unfold getRouteWithLowestCostAndChildInheritByFaceId. rewrite filter_none; [done|]. intros x Hx [Ex _].
    pose proof (Hfresh e He) as Hn. apply not_true_iff_false in Hn. apply Hn, hasFaceId_true. by exists x. }
  rewrite Eprev, andb_true_r. cbn [mbind option_bind]. rewrite (tw_name _ Htree n e He).
  set (toAdd := if isChildInherit r then routeSet_insert r [] else []).
  assert (Ht : faces_sorted toAdd ∧ ∀ f, rs_lookup f toAdd = if isChildInherit r && (f =? rt_faceId r) then Some r else None).
  { unfold toAdd. destruct (isChildInherit r); [apply single_spec|]. split; [constructor|done]. }
  destruct Ht as [Hs Hl]. destruct (modifyChildren_adds (m_rib b) Htree n (re_children e) toAdd u (entry_tops e He) Hs Hu) as (u1 & E & H1).
  rewrite E. eexists _, _. split; [done|]. split.
  { eapply adds_trans; [eapply adds_mono; [|exact H1]; by right|apply adds_one; by eapply as_ok|]. intros d f. reflexivity. }
  intros d f. cbn beta. rewrite Hl. destruct (decide (d = n)) as [->|Hd].
  - rewrite (nexthop_self (m_rib b) m' n r Hcap Hfresh Hreg), He. destruct (Z.eqb_spec f (rt_faceId r)) as [->|Hf]; [by rewrite decide_True|].
    rewrite decide_False, andb_false_r by congruence. by destruct (reach_below _ _ _ _).
  - rewrite decide_False by congruence. rewrite (nexthop_other (m_rib b) m' n r Hcap Hfresh Hreg d f Hd).
    by destruct (reach_below _ _ _ _), (isChildInherit r), (f =? rt_faceId r).
Qed.

(** The updates of a registration are additions, and make the next hops of the RIB
    before those of the RIB after. *)
Lemma registration_adds :
  ∃ u' P, computeUpdatesForRegistration b (mkRibUpdate REGISTER n r) u = Some u' ∧ adds (λ x, x = n ∨ in_table (m_rib b) x) P u u' ∧ becomes P.
Proof.
  pose proof new_route_adds as Hroute. pose proof (λ Hn, new_entry_adds _ Hn (children_tops Hn)) as Hentry. pose proof Hfresh as Hf.
  unfold computeUpdatesForRegistration. simpl. clear -Hroute Hentry Hf Hr. destruct (m_rib b !! n) as [e|].
  - assert (Ef : findRoute r e = None).
    { apply findRoute_None. intros (x & Ex & Hx)%list_elem_of_fmap. pose proof (Hf e eq_refl) as Hn. apply not_true_iff_false in Hn.
      apply Hn, hasFaceId_true. exists x. split; [done|]. unfold route_key in Ex. congruence. }
    rewrite Ef, Hr, andb_false_r. by apply Hroute.
  - by apply Hentry.
Qed.
End registration.

(** ** The FIB *)

(** The next hops of the FIB: the cost of each name and face *)
Abbreviation Nexthops := (gmap (Name * Z) Z).

(** What the forwarder does with a command that succeeds *)
Definition apply_update (u : FibUpdate) (fib : Nexthops) : Nexthops :=
  match fu_action u with
  | ADD_NEXTHOP => <[upd_key u := fu_cost u]> fib
  | REMOVE_NEXTHOP => delete (upd_key u) fib
  end.
Definition apply_updates (l : list FibUpdate) (fib : Nexthops) : Nexthops := foldl (λ fib u, apply_update u fib) fib l.

(** The order of updates for different next hops does not matter. *)
Lemma apply_updates_lookup l : ∀ fib n f, NoDup (upd_key <$> l) → apply_updates l fib !! (n, f) =
  match upd_lookup n f l with
  | Some u => match fu_action u with ADD_NEXTHOP => Some (fu_cost u) | REMOVE_NEXTHOP => None end
  | None => fib !! (n, f)
  end.
Proof.
  unfold apply_updates, upd_lookup. induction l as [|u l IH]; intros fib n f Hnd; simpl; [done|]. csimpl in Hnd. apply NoDup_cons in Hnd as [Hu Hnd].
  rewrite IH by done. case_bool_decide as E.
  - assert (Hno : upd_lookup n f l = None) by (apply upd_lookup_None; by rewrite <-E). unfold upd_lookup in Hno. rewrite Hno.
    unfold apply_update. rewrite E. destruct (fu_action u); [apply lookup_insert_eq|apply lookup_delete_eq].
  - destruct (find_if _ l); [done|]. unfold apply_update. destruct (fu_action u); [by rewrite lookup_insert_ne|by rewrite lookup_delete_ne].
Qed.
Lemma apply_updates_perm l l' fib : NoDup (upd_key <$> l) → l ≡ₚ l' → apply_updates l fib = apply_updates l' fib.
Proof.
  intros Hnd Hp. assert (Hnd' : NoDup (upd_key <$> l')) by by rewrite <-Hp. apply map_eq. intros [n f]. rewrite !apply_updates_lookup by done.
  assert (E : upd_lookup n f l = upd_lookup n f l'); [|by rewrite E]. destruct (upd_lookup n f l') as [x|] eqn:E.
  - apply upd_lookup_Some in E as [Hx E]; [|done]. apply upd_lookup_Some; [done|]. by rewrite Hp.
  - apply upd_lookup_None in E. apply upd_lookup_None. by rewrite Hp.
Qed.

Definition all_updates (u : FibUpdater) : list FibUpdate := m_updatesForBatchFaceId u ++ m_updatesForNonBatchFaceId u.

Lemma all_updates_keys u : updater_ok u → NoDup (upd_key <$> all_updates u).
Proof.
  intros [[Hb Fb] [Hn Fn]]. unfold all_updates. rewrite fmap_app. apply NoDup_app. split_and!; [done| |done].
  intros k (x & -> & Hx)%list_elem_of_fmap (y & E & Hy)%list_elem_of_fmap. rewrite Forall_forall in Fb, Fn. apply (Fn y Hy).
  unfold upd_key in E. rewrite <-(Fb x Hx). congruence.
Qed.
Lemma all_updates_lookup u n f : updater_ok u → upd_lookup n f (all_updates u) = pending u n f.
Proof.
  intros Hu. pose proof (all_updates_keys u Hu) as Hnd. destruct Hu as [[Hb Fb] [Hn Fn]]. rewrite Forall_forall in Fb, Fn. unfold pending.
  destruct (upd_lookup n f (if f =? m_batchFaceId u then m_updatesForBatchFaceId u else m_updatesForNonBatchFaceId u)) as [x|] eqn:E.
  - apply upd_lookup_Some; [done|]. unfold all_updates. rewrite elem_of_app. destruct (f =? m_batchFaceId u); apply upd_lookup_Some in E as [? ?]; auto.
  - apply upd_lookup_None in E. apply upd_lookup_None. intros Hin. apply E. unfold all_updates in Hin. rewrite fmap_app, elem_of_app in Hin.
    destruct Hin as [Hin|Hin]; destruct (Z.eqb_spec f (m_batchFaceId u)) as [Ef|Ef]; try done; apply list_elem_of_fmap in Hin as (x & Ex & Hx);
      exfalso; unfold upd_key in Ex; injection Ex as _ Ex; [by apply Ef; rewrite <-(Fb x Hx)|apply (Fn x Hx); congruence].
Qed.
