(* ===== verification/RibRun.v ===== *)
(** * Runs of the RIB against the forwarder

    Registrations come in while the commands of earlier ones wait for their
    answers; the answers come in any order.  The invariant of such runs: what is in
    progress, what the updates that are left do to the FIB, and what is queued. *)

From S2P Require Import Prelude Packets Timers RibEntry Rib RibFacts RibSpec RibInherit FibUpdater RibSystem FibSync.

Section run.
Context `{NameOrder} `{RouteFlags} `{ControllerCodes}.

(** ** Only the routes matter for the next hops *)

Definition re_own (e : RibEntry) : list Route * Z := (re_routes e, m_nRoutesWithCaptureSet e).
Definition same_routes (m m' : gmap Name RibEntry) : Prop := ∀ x, re_own <$> m !! x = re_own <$> m' !! x.

#[export] Instance same_routes_equiv : Equivalence same_routes.
Proof. split; [by intros m x|by intros m m' Hs x|by intros m m' m'' H1' H2' x; rewrite H1']. Qed.

Lemma same_routes_dom m m' x : same_routes m m' → is_Some (m !! x) ↔ is_Some (m' !! x).
Proof. intros Hs. specialize (Hs x). rewrite <-(fmap_is_Some re_own (m !! x)), <-(fmap_is_Some re_own (m' !! x)). by rewrite Hs. Qed.
Lemma same_routes_walk m m' l f : same_routes m m' → walk m l f = walk m' l f.
Proof.
  intros Hs. induction l as [|x l IH]; [done|]. simpl. rewrite IH. specialize (Hs x). destruct (m !! x) as [e|], (m' !! x) as [e'|]; try done.
  simpl in Hs. unfold re_own in Hs. injection Hs as Er Ec. unfold handed, hasCapture. by rewrite Er, Ec.
Qed.
#[export] Instance nexthop_proper : Proper (same_routes ==> eq ==> eq ==> eq) nexthop.
Proof.
  intros m m' Hs d ? <- f ? <-. unfold nexthop. pose proof (Hs d) as Hd. rewrite (same_routes_walk m m' (chain m d) f Hs).
  rewrite (chain_dom m m' d) by (intros x _; by apply same_routes_dom).
  destruct (m !! d) as [e|], (m' !! d) as [e'|]; try done. simpl in *. unfold re_own in Hd. injection Hd as Er Ec.
  unfold getRouteWithLowestCostByFaceId, hasCapture. by rewrite Er, Ec.
Qed.
Lemma same_routes_no_capture m m' : same_routes m m' → no_capture m → no_capture m'.
Proof.
  intros Hs Hn x e He. specialize (Hs x). rewrite He in Hs. apply fmap_Some in Hs as (e0 & He0 & E). unfold re_own in E. injection E as _ Ec.
  unfold hasCapture. rewrite Ec. by apply (Hn x e0).
Qed.

(** Noting inherited routes succeeds and changes no routes. *)
Lemma notes_apply us : ∀ b, Forall (λ x, ru_action x = REGISTER ∧ is_Some (m_rib b !! ru_name x)) us →
  ∃ b', modifyInheritedRoutes us b = Some b' ∧ same_routes (m_rib b) (m_rib b').
Proof.
  induction us as [|x us IH]; intros b Hall; simpl; [by exists b|]. apply Forall_cons in Hall as [[Ea [e He]] Hall].
  set (b1 := rb_setRib (<[ru_name x := addInheritedRoute_e (ru_route x) e]> (m_rib b)) b).
  assert (E1 : modifyInheritedRoute x b = Some b1) by (unfold modifyInheritedRoute; rewrite He; simpl; by rewrite Ea).
  unfold modifyInheritedRoutes. simpl. rewrite E1. simpl. assert (Hs : same_routes (m_rib b) (m_rib b1)).
  { intros y. unfold b1. simpl. destruct (decide (y = ru_name x)) as [->|]; [by rewrite lookup_insert_eq, He|by rewrite lookup_insert_ne]. }
  destruct (IH b1) as (b' & E & Hs').
  { eapply Forall_impl; [exact Hall|]. intros y [? Hy]. split; [done|]. by apply (same_routes_dom _ _ _ Hs). }
  exists b'. split; [exact E|]. by etrans.
Qed.

(** ** The invariant *)

(** A request: the name, the route, and the manager's callback *)
Definition Request : Type := (Name * Route) * option RibUpdate.
Definition request_key (q : Request) : Name * Z := (q.1.1, rt_faceId q.1.2).
Definition item_of (q : Request) : UpdateQueueItem := mkItem (mkBatch (rt_faceId q.1.2) [mkRibUpdate REGISTER q.1.1 q.1.2]) q.2.

(** The routes of the table *)
Definition has_routes (m : gmap Name RibEntry) (k : list Request) : Prop :=
  ∀ n r, (∃ l, all_routes m !! n = Some l ∧ r ∈ l) ↔ ∃ cb, ((n, r), cb) ∈ k.
Definition in_sync (m : gmap Name RibEntry) (fib : Nexthops) : Prop := ∀ d f, fib !! (d, f) = nexthop m d f.

Record table_ok (b : Rib) (k : list Request) : Prop := {
  to_rib : rib_ok b;
  to_capture : no_capture (m_rib b);
  to_routes : has_routes (m_rib b) k
}.
(** Requests [k] that are done and [q] that are not: for different names or faces,
    the latter without capture *)
Definition requests_ok (k q : list Request) : Prop := NoDup (request_key <$> k ++ q) ∧ Forall (λ x, isCapture x.1.2 = false) q.

(** Nothing is in progress. *)
Record ready (s : RibSystem) (fib : Nexthops) (k q : list Request) : Prop := {
  rd_table : table_ok (sy_rib s) k;
  rd_requests : requests_ok k q;
  rd_queue : m_updateBatches (sy_rib s) = item_of <$> q;
  rd_progress : m_isUpdateInProgress (sy_rib s) = false;
  rd_commands : sy_commands s = [];
  rd_sync : in_sync (m_rib (sy_rib s)) fib
}.

(** The request [x] is in progress: the updates that are left make the FIB what the
    RIB will ask for. *)
Record working (s : RibSystem) (fib : Nexthops) (k : list Request) (x : Request) (q : list Request) : Prop := {
  wk_table : table_ok (sy_rib s) k;
  wk_requests : requests_ok k (x :: q);
  wk_queue : m_updateBatches (sy_rib s) = item_of <$> q;
  wk_progress : m_isUpdateInProgress (sy_rib s) = true;
  wk_updater : updater_ok (sy_updater s);
  wk_adds : Forall (λ u, fu_action u = ADD_NEXTHOP) (all_updates (sy_updater s));
  wk_notes : Forall (λ y, ru_action y = REGISTER ∧ (ru_name y = x.1.1 ∨ is_Some (m_rib (sy_rib s) !! ru_name y))) (m_inheritedRoutes (sy_updater s));
  wk_target m' : registered x.1.1 x.1.2 (m_rib (sy_rib s)) m' → in_sync m' (apply_updates (all_updates (sy_updater s)) fib)
}.

(** The command of an update *)
Definition commands_for (x : Request) (l : list FibUpdate) (cs : list FibCommand) : Prop :=
  cmd_update <$> cs ≡ₚ l ∧ Forall (λ c, cmd_item c = item_of x ∧ cmd_verb c = ADD_NEXTHOP ∧ 0 <= cmd_nTimeouts c <= MAX_NUM_TIMEOUTS) cs.

(** The commands that wait are those of the batch's face, then the others. *)
Definition waiting (u : FibUpdater) : list FibUpdate :=
  match m_updatesForBatchFaceId u with [] => m_updatesForNonBatchFaceId u | l => l end.

Inductive invariant (s : RibSystem) (fib : Nexthops) (l : list Request) : Prop :=
| inv_idle : ready s fib l [] → invariant s fib l
| inv_busy k x q : l = k ++ x :: q → working s fib k x q → waiting (sy_updater s) ≠ [] → commands_for x (waiting (sy_updater s)) (sy_commands s) → invariant s fib l.

(** ** The end of a batch *)

Lemma fresh_face (b : Rib) k x q : table_ok b k → requests_ok k (x :: q) → ∀ e, m_rib b !! x.1.1 = Some e → hasFaceId (rt_faceId x.1.2) e = false.
Proof.
  intros [Hr _ Hk] [Hnd _] e He. apply not_true_iff_false. rewrite hasFaceId_true. intros (r & Hin & Ef).
  assert (Hl : ∃ l, all_routes (m_rib b) !! x.1.1 = Some l ∧ r ∈ l) by (exists (re_routes e); unfold all_routes; by rewrite lookup_fmap, He).
  apply Hk in Hl as [cb Hcb]. rewrite fmap_app in Hnd. apply NoDup_app in Hnd as (_ & Hd & _). apply (Hd (request_key x)).
  - apply list_elem_of_fmap. exists ((x.1.1, r), cb). split; [|done]. unfold request_key. simpl. by rewrite Ef.
  - csimpl. set_solver.
Qed.

Lemma put_route_fresh r l : (∀ s, s ∈ l → rt_faceId s ≠ rt_faceId r) → put_route r l = l ++ [r].
Proof.
  intros Hl. unfold put_route. destruct (list_find _ l) as [[i s]|] eqn:E; [|done].
  apply list_find_Some in E as (Hi & Hc%compare_key & _). exfalso. apply (Hl s); [by eapply list_elem_of_lookup_2|]. unfold route_key in Hc. congruence.
Qed.

Lemma insert_registered b k x q : table_ok b k → requests_ok k (x :: q) →
  ∃ b', Rib_insert x.1.1 x.1.2 b = Some b' ∧ registered x.1.1 x.1.2 (m_rib b) (m_rib b') ∧ table_ok b' (k ++ [x]) ∧ m_updateBatches b' = m_updateBatches b ∧
    ∃ e, m_rib b' !! x.1.1 = Some e.
Proof.
  intros Ht Hq. pose proof (fresh_face b k x q Ht Hq) as Hf. destruct Ht as [Hr Hc Hk]. destruct Hq as [Hnd Hfl].
  apply Forall_cons in Hfl as [Hx _]. destruct x as [[n r] cb]. simpl in *.
  destruct (Rib_insert_spec n r b Hr) as (b' & Eb & [Hr' Ho (e' & He' & Er & _ & Ecap) [Eq _]]). exists b'. specialize (Ecap Hx).
  assert (Erl : re_routes e' = default [] (re_routes <$> m_rib b !! n) ++ [r]).
  { rewrite Er. apply put_route_fresh. intros s Hs E. destruct (m_rib b !! n) as [e|] eqn:Ee; simpl in Hs; [|by apply elem_of_nil in Hs].
    pose proof (Hf e eq_refl) as Hfe. apply not_true_iff_false in Hfe. apply Hfe, hasFaceId_true. by exists s. }
  assert (Hcap' : hasCapture e' = false).
  { unfold hasCapture. rewrite Ecap. destruct (m_rib b !! n) as [e|] eqn:Ee; simpl; [|done]. by apply (Hc n e). }
  assert (Hreg : registered n r (m_rib b) (m_rib b')) by (split; [done|by exists e']). split_and!; [done|done| |done|by exists e'].
  split; [done| |].
  - intros y e He. destruct (decide (y = n)) as [->|Hy]; [congruence|]. specialize (Ho y Hy). rewrite He in Ho. simpl in Ho. symmetry in Ho.
    apply fmap_Some in Ho as (e0 & He0 & E). unfold re_data in E. injection E as _ _ _ E. unfold hasCapture. rewrite E. by apply (Hc y e0).
  - intros y s. rewrite (all_routes_upd (m_rib b) (m_rib b') n e' Ho He'). destruct (decide (y = n)) as [->|Hy].
    + rewrite lookup_insert_eq. setoid_rewrite elem_of_app. setoid_rewrite list_elem_of_singleton. split.
      * intros (l & [= <-] & Hs). rewrite Erl, elem_of_app, list_elem_of_singleton in Hs. destruct Hs as [Hs| ->]; [|exists cb; by right].
        destruct (proj1 (Hk n s)) as [cb' Hcb]; [|exists cb'; by left]. unfold all_routes. rewrite lookup_fmap.
        destruct (m_rib b !! n) as [e|]; simpl in Hs; [by eexists|by apply elem_of_nil in Hs].
      * intros (cb' & [Hs|[= -> ->]]); exists (re_routes e'); (split; [done|]); rewrite Erl, elem_of_app, list_elem_of_singleton; [left|by right].
        destruct (proj2 (Hk n s)) as (l & El & Hl); [by exists cb'|]. unfold all_routes in El. rewrite lookup_fmap in El.
        destruct (m_rib b !! n) as [e|]; [|done]. simpl in *. congruence.
    + rewrite lookup_insert_ne by done. etrans; [apply (Hk y s)|]. setoid_rewrite elem_of_app. setoid_rewrite list_elem_of_singleton. naive_solver.
Qed.

Lemma table_ok_fields b b' k : m_rib b' = m_rib b → m_faceMap b' = m_faceMap b → rb_nItems b' = rb_nItems b → table_ok b k → table_ok b' k.
Proof. intros E1 E2 E3 [[Ht Hr Hf Hn] Hc Hk]. split; [split|..]; by rewrite ?E1, ?E2, ?E3. Qed.

Lemma requests_next k x q : requests_ok k (x :: q) → requests_ok (k ++ [x]) q.
Proof. intros [Hnd Hfl]. split; [by rewrite <-app_assoc|by apply Forall_cons in Hfl as [_ ?]]. Qed.

(** When no update is left, the batch changes the RIB, and the next one can start. *)
Lemma finish s fib k x q send : working s fib k x q → all_updates (sy_updater s) = [] → sy_commands s = [] →
  ∃ s', onFibUpdateSuccess send (item_of x) s = send s' ∧ ready s' fib (k ++ [x]) q.
Proof.
  intros [Ht Hq Hqu Hp Hu Ha Hno Htar] Eall Ec. destruct (insert_registered _ k x q Ht Hq) as (b1 & Eb & Hreg & Ht1 & Equ & e & He).
  unfold onFibUpdateSuccess, applyBatch. simpl. unfold applyUpdate. simpl. rewrite Eb. simpl.
  assert (Hno1 : Forall (λ y, ru_action y = REGISTER ∧ is_Some (m_rib b1 !! ru_name y)) (m_inheritedRoutes (sy_updater s))).
  { eapply Forall_impl; [exact Hno|]. intros y [? Hy]. split; [done|]. destruct (decide (ru_name y = x.1.1)) as [->|Hne]; [by rewrite He|].
    destruct Hy as [?|Hy]; [done|]. by apply (rg_dom _ _ _ _ Hreg). }
  destruct (notes_apply _ b1 Hno1) as (b2 & E2 & Hs). rewrite E2. simpl.
  destruct (modifyInheritedRoutes_ok _ b1 b2 (to_rib _ _ Ht1) E2) as (Hr2 & Eall2 & Equ2 & _).
  set (b3 := match x.2 with Some u => _ | None => _ end). exists (sy_setRib b3 s). split; [done|].
  assert (E3 : m_rib b3 = m_rib b2 ∧ m_faceMap b3 = m_faceMap b2 ∧ rb_nItems b3 = rb_nItems b2 ∧ m_updateBatches b3 = m_updateBatches b2 ∧
    m_isUpdateInProgress b3 = false) by (unfold b3; by destruct (x.2)).
  destruct E3 as (E31 & E32 & E33 & E34 & E35). split; simpl.
  - apply (table_ok_fields b2); [done..|]. split; [done|by eapply same_routes_no_capture, Ht1|].
    intros n r. rewrite Eall2. apply Ht1.
  - by apply requests_next.
  - congruence.
  - done.
  - done.
  - intros d f. rewrite E31. rewrite <-(nexthop_proper _ _ Hs d d eq_refl f f eq_refl). specialize (Htar _ Hreg d f). by rewrite Eall in Htar.
Qed.

(** ** The start of a batch *)

Lemma compute_working s fib k x q b : table_ok b k → requests_ok k (x :: q) → in_sync (m_rib b) fib →
  m_updateBatches b = item_of <$> q → m_isUpdateInProgress b = true →
  ∃ u, computeUpdates (uq_batch (item_of x)) (mkUpdater (rt_faceId x.1.2) [] [] [], b) = Some (u, b) ∧ working (mkSystem b u s) fib k x q.
Proof.
  intros Ht Hq Hsync Hqu Hp. pose proof (fresh_face b k x q Ht Hq) as Hf.
  assert (Hfl : isCapture x.1.2 = false) by (destruct Hq as [_ Hq]; by apply Forall_cons in Hq as [? _]).
  set (u0 := mkUpdater (rt_faceId x.1.2) [] [] []). assert (Hu0 : updater_ok u0) by apply updater_ok_new.
  assert (Hall : ∀ m', registered x.1.1 x.1.2 (m_rib b) m' → ∃ u' P, computeUpdatesForRegistration b (mkRibUpdate REGISTER x.1.1 x.1.2) u0 = Some u' ∧
    adds (λ y, y = x.1.1 ∨ in_table (m_rib b) y) P u0 u' ∧ becomes b m' P).
  { intros m' Hreg. apply (registration_adds b m' (ro_tree _ (to_rib _ _ Ht)) x.1.1 x.1.2 u0 Hu0 (to_capture _ _ Ht) Hfl Hf Hreg). }
  destruct (insert_registered b k x q Ht Hq) as (b1 & _ & Hreg1 & _). destruct (Hall _ Hreg1) as (u & P & Eu & Had & _). exists u.
  split; [unfold computeUpdates; simpl; unfold computeUpdate; simpl; by rewrite Eu|]. pose proof Had as [Hu Hpe _ (l & El & Hl)]. split; simpl.
  - done.
  - done.
  - done.
  - done.
  - done.
  - apply Forall_forall. intros y Hy. assert (Ey : pending u (fu_name y) (fu_faceId y) = Some y).
    { rewrite <-all_updates_lookup by done. apply upd_lookup_Some; [by apply all_updates_keys|done]. }
    rewrite Hpe in Ey. destruct (P _ _); [by injection Ey as <-|]. unfold pending in Ey. simpl in Ey. by destruct (_ =? _).
  - rewrite El. simpl. eapply Forall_impl; [exact Hl|]. by intros y [? ?].
  - intros m' Hreg d f. destruct (Hall m' Hreg) as (u2 & P2 & Eu2 & [_ Hpe2 _ _] & Hb). assert (u2 = u) as -> by congruence.
    rewrite apply_updates_lookup by by apply all_updates_keys. rewrite all_updates_lookup by done. rewrite Hpe2, Hb.
    destruct (P2 d f); [done|]. rewrite Hsync. unfold pending. simpl. by destruct (f =? _).
Qed.

Lemma sendUpdates_spec l item : ∀ s, Forall (λ u, fu_action u = ADD_NEXTHOP) l →
  sendUpdates l item s = mkSystem (sy_rib s) (sy_updater s) (sy_commands s ++ ((λ u, mkCommand ADD_NEXTHOP u 0 item) <$> l)).
Proof.
  unfold sendUpdates. induction l as [|u l IH]; intros s Hl; simpl; [rewrite app_nil_r; by destruct s|].
  apply Forall_cons in Hl as [-> Hl]. rewrite IH by done. simpl. by rewrite <-app_assoc.
Qed.
Lemma sent_commands x l : commands_for x l ((λ u, mkCommand ADD_NEXTHOP u 0 (item_of x)) <$> l).
Proof.
  split; [rewrite <-list_fmap_compose; by rewrite list_fmap_id|]. apply Forall_fmap, Forall_true. intros u. simpl. unfold MAX_NUM_TIMEOUTS. by split_and!.
Qed.

Lemma sends_busy s fib k x q l : working s fib k x q → sy_commands s = [] → waiting (sy_updater s) = l → l ≠ [] →
  invariant (sendUpdates l (item_of x) s) fib (k ++ x :: q) ∧ sy_rib (sendUpdates l (item_of x) s) = sy_rib s ∧
    sy_updater (sendUpdates l (item_of x) s) = sy_updater s.
Proof.
  intros Hw Ec El Hl. assert (Hadd : Forall (λ u, fu_action u = ADD_NEXTHOP) l).
  { pose proof (wk_adds _ _ _ _ _ Hw) as Ha. unfold all_updates in Ha. apply Forall_app in Ha as [Hb Hn]. rewrite <-El. unfold waiting.
    by destruct (m_updatesForBatchFaceId (sy_updater s)). }
  rewrite sendUpdates_spec by done. rewrite Ec. split; [|by split]. eapply inv_busy; [done| | |].
  - destruct Hw. by split.
  - simpl. by rewrite El.
  - simpl. rewrite El. apply sent_commands.
Qed.

(** The state is idle, or has less than [n] requests in the queue. *)
Definition fewer (s : RibSystem) (n : nat) : Prop := m_isUpdateInProgress (sy_rib s) = false ∨ (length (m_updateBatches (sy_rib s)) < n)%nat.

Lemma sendBatches_ok fuel : ∀ s fib k q, (length q < fuel)%nat → ready s fib k q →
  ∃ s', sendBatches fuel s = Some s' ∧ invariant s' fib (k ++ q) ∧ fewer s' (length q).
Proof.
  induction fuel as [|fuel IH]; intros s fib k q Hf [Ht Hq Hqu Hp Hc Hs]; [lia|]. simpl. unfold sendBatch. rewrite Hqu. destruct q as [|x q]; simpl.
  { exists s. split_and!; [done| |by left]. apply inv_idle. rewrite app_nil_r. by split. }
  rewrite Hp. cbn [negb Nat.eqb length]. unfold computeAndSendFibUpdates.
  set (b := rb_setQueue _ _). assert (Ht' : table_ok b k) by (by eapply table_ok_fields; [..|exact Ht]).
  destruct (compute_working (sy_commands s) fib k x q b Ht' Hq Hs eq_refl eq_refl) as (u & Eu & Hw). simpl in Eu |- *. rewrite Eu. simpl.
  rewrite Hc in *. set (s1 := mkSystem b u []) in *. unfold sendUpdatesForBatchFaceId, sendUpdatesForNonBatchFaceId.
  destruct (m_updatesForBatchFaceId (sy_updater s1)) as [|a l] eqn:Eb.
  - destruct (m_updatesForNonBatchFaceId (sy_updater s1)) as [|a l] eqn:En.
    + destruct (finish s1 fib k x q (sendBatches fuel) Hw) as (s2 & E2 & Hr2); [unfold all_updates; by rewrite Eb, En|done|].
      rewrite E2. destruct (IH s2 fib (k ++ [x]) q) as (s' & E' & Hi & Hl); [simpl in Hf; lia|done|]. exists s'.
      split_and!; [done|by rewrite <-app_assoc in Hi|]. destruct Hl as [Hl|Hl]; [by left|right; lia].
    + destruct (sends_busy s1 fib k x q (a :: l) Hw) as (Hi & Erib & _); [done|unfold waiting; by rewrite Eb|done|].
      eexists. split_and!; [done|exact Hi|]. right. rewrite Erib. simpl. rewrite length_fmap. lia.
  - destruct (sends_busy s1 fib k x q (a :: l) Hw) as (Hi & Erib & _); [done|unfold waiting; by rewrite Eb|done|].
    eexists. split_and!; [done|exact Hi|]. right. rewrite Erib. simpl. rewrite length_fmap. lia.
Qed.
Lemma sendBatchFromQueue_ok s fib k q : ready s fib k q → ∃ s', sendBatchFromQueue s = Some s' ∧ invariant s' fib (k ++ q) ∧ fewer s' (length q).
Proof. intros Hr. apply sendBatches_ok; [|done]. rewrite (rd_queue _ _ _ _ Hr), length_fmap. lia. Qed.

(** ** Answers *)

Lemma remove_update u l : NoDup (upd_key <$> l) → u ∈ l → l ≡ₚ u :: filter (λ y, y ≠ u) l.
Proof.
  induction l as [|y l IH]; intros Hnd Hu; [by apply elem_of_nil in Hu|]. csimpl in Hnd. apply NoDup_cons in Hnd as [Hy Hnd].
  destruct (decide (y = u)) as [->|Hne].
  - rewrite filter_cons_False by naive_solver. constructor. rewrite filter_all; [done|]. intros z Hz ->. apply Hy, list_elem_of_fmap. by exists u.
  - rewrite filter_cons_True by done. apply elem_of_cons in Hu as [->|Hu]; [done|]. rewrite Permutation_swap. constructor. by apply IH.
Qed.
Lemma remove_elsewhere u (l : list FibUpdate) : u ∉ l → filter (λ y, y ≠ u) l = l.
Proof. intros Hu. apply filter_all. intros y Hy ->. done. Qed.

(** The updater without an update *)
Definition without_update (u : FibUpdate) (w : FibUpdater) : FibUpdater :=
  mkUpdater (m_batchFaceId w) (m_inheritedRoutes w) (filter (λ y, y ≠ u) (m_updatesForBatchFaceId w)) (filter (λ y, y ≠ u) (m_updatesForNonBatchFaceId w)).

Lemma without_all u w : updater_ok w → u ∈ all_updates w → all_updates w ≡ₚ u :: all_updates (without_update u w).
Proof. intros Hw Hu. rewrite (remove_update u (all_updates w)) by (done || by apply all_updates_keys). unfold all_updates at 1. by rewrite filter_app. Qed.
Lemma filter_keys_NoDup (P : FibUpdate → Prop) `{∀ x, Decision (P x)} l : NoDup (upd_key <$> l) → NoDup (upd_key <$> filter P l).
Proof.
  induction l as [|y l IH]; [done|]. rewrite filter_cons. csimpl. intros [Hy Hnd]%NoDup_cons. case_decide; [|auto]. csimpl. apply NoDup_cons. split; [|auto].
  intros (z & E & [_ Hz]%list_elem_of_filter)%list_elem_of_fmap. apply Hy, list_elem_of_fmap. by exists z.
Qed.
Lemma without_ok u w : updater_ok w → updater_ok (without_update u w).
Proof.
  intros [[Hb Fb] [Hn Fn]]. rewrite Forall_forall in Fb, Fn. split; (split; [by apply filter_keys_NoDup|]); apply Forall_forall; intros y [_ Hy]%list_elem_of_filter; auto.
Qed.

Lemma working_without s fib k x q u cs : working s fib k x q → u ∈ all_updates (sy_updater s) →
  working (mkSystem (sy_rib s) (without_update u (sy_updater s)) cs) (apply_update u fib) k x q.
Proof.
  intros [Ht Hq Hqu Hp Hu Ha Hno Htar] Hin. pose proof (without_all u _ Hu Hin) as Hperm. split; simpl; [done..|by apply without_ok| |done|].
  - rewrite Hperm in Ha. by apply Forall_cons in Ha as [_ ?].
  - intros m' Hreg. specialize (Htar m' Hreg). 
    by rewrite (apply_updates_perm _ _ fib (all_updates_keys _ Hu) Hperm) in Htar.
Qed.
(** A command that was carried out but not answered: it does nothing the second
    time. *)
Lemma working_early s fib k x q u cs : working s fib k x q → u ∈ all_updates (sy_updater s) →
  working (mkSystem (sy_rib s) (sy_updater s) cs) (apply_update u fib) k x q.
Proof.
  intros [Ht Hq Hqu Hp Hu Ha Hno Htar] Hin. split; simpl; [done..|]. intros m' Hreg d f. rewrite <-(Htar m' Hreg d f).
  rewrite !apply_updates_lookup by by apply all_updates_keys. destruct (upd_lookup d f _) as [y|] eqn:E; [done|].
  apply upd_lookup_None in E. unfold apply_update. assert (upd_key u ≠ (d, f)) by (intros Ek; apply E, list_elem_of_fmap; by exists u).
  destruct (fu_action u); [by rewrite lookup_insert_ne|by rewrite lookup_delete_ne].
Qed.

Lemma waiting_sub w u : u ∈ waiting w → u ∈ all_updates w.
Proof. unfold waiting, all_updates. rewrite elem_of_app. destruct (m_updatesForBatchFaceId w); auto. Qed.

Lemma commands_delete x l cs i c : NoDup (upd_key <$> l) → commands_for x l cs → cs !! i = Some c →
  cmd_update c ∈ l ∧ commands_for x (filter (λ y, y ≠ cmd_update c) l) (delete i cs).
Proof.
  intros Hnd [Hp Hf] Hi. assert (Hin : cmd_update c ∈ l).
  { rewrite <-Hp. apply list_elem_of_fmap. exists c. split; [done|]. by eapply list_elem_of_lookup_2. }
  split; [done|]. pose proof (delete_Permutation cs i c Hi) as Hd. split.
  - rewrite Hd in Hp. csimpl in Hp. rewrite (remove_update _ l Hnd Hin) in Hp. by apply Permutation_cons_inv in Hp.
  - rewrite Hd in Hf. by apply Forall_cons in Hf as [_ ?].
Qed.

Lemma finish_next s fib k x q : working s fib k x q → all_updates (sy_updater s) = [] → sy_commands s = [] →
  ∃ s', onFibUpdateSuccess sendBatchFromQueue (item_of x) s = Some s' ∧ invariant s' fib (k ++ x :: q) ∧ fewer s' (length q).
Proof.
  intros Hw Eall Ec. destruct (finish s fib k x q sendBatchFromQueue Hw Eall Ec) as (s2 & -> & Hr2).
  destruct (sendBatchFromQueue_ok s2 _ _ _ Hr2) as (s' & E' & Hi' & Hl). exists s'. split_and!; [done|by rewrite <-app_assoc in Hi'|done].
Qed.

(** An answer leaves fewer requests, or fewer updates of the one in progress. *)
Definition progress (s s' : RibSystem) : Prop := fewer s' (length (m_updateBatches (sy_rib s))) ∨
  length (m_updateBatches (sy_rib s')) = length (m_updateBatches (sy_rib s)) ∧
  (length (all_updates (sy_updater s')) < length (all_updates (sy_updater s)))%nat.

Lemma answer_ok s fib l i c : invariant s fib l → sy_commands s !! i = Some c →
  cmd_verb c = fu_action (cmd_update c) ∧ ∃ s', answer i None s = Some s' ∧ invariant s' (apply_update (cmd_update c) fib) l ∧ progress s s'.
Proof.
  intros [Hr|k x q -> Hw Hne Hc] Hi; [by rewrite (rd_commands _ _ _ _ Hr) in Hi|].
  pose proof (wk_updater _ _ _ _ _ Hw) as Hu. pose proof Hu as [[Hb Fb] [Hn Fn]]. set (w := sy_updater s) in *.
  assert (Hndw : NoDup (upd_key <$> waiting w)) by (unfold waiting; by destruct (m_updatesForBatchFaceId w)).
  destruct (commands_delete x _ _ i c Hndw Hc Hi) as [Hin Hc']. set (u := cmd_update c) in *.
  assert (Hcin : cmd_item c = item_of x ∧ cmd_verb c = ADD_NEXTHOP).
  { destruct Hc as [_ Hf]. rewrite Forall_forall in Hf. destruct (Hf c) as (? & ? & _); [by eapply list_elem_of_lookup_2|done]. }
  destruct Hcin as [Eitem Everb]. pose proof (waiting_sub w u Hin) as Hall.
  split. { rewrite Everb. pose proof (wk_adds _ _ _ _ _ Hw) as Ha. rewrite Forall_forall in Ha. by rewrite Ha. }
  assert (Hless : (length (all_updates (without_update u w)) < length (all_updates w))%nat) by (rewrite (without_all u w Hu Hall); simpl; lia).
  assert (Hqu : length (m_updateBatches (sy_rib s)) = length q) by (by rewrite (wk_queue _ _ _ _ _ Hw), length_fmap).
  unfold answer. rewrite Hi. simpl. rewrite Eitem. fold u. unfold onUpdateSuccess, updateDone. cbn [sy_updater sy_rib sy_commands]. fold w.
  pose proof (working_without s fib k x q u (delete i (sy_commands s)) Hw Hall) as Hw'. fold w in Hw'.
  assert (Hgo : all_updates (without_update u w) = [] → delete i (sy_commands s) = [] →
    ∃ s', onFibUpdateSuccess sendBatchFromQueue (item_of x) (mkSystem (sy_rib s) (without_update u w) (delete i (sy_commands s))) = Some s' ∧
      invariant s' (apply_update u fib) (k ++ x :: q) ∧ progress s s').
  { intros Eall Ed. destruct (finish_next _ _ _ _ _ Hw' Eall Ed) as (s' & E & Hi' & Hl). exists s'. split_and!; [done|done|]. left. by rewrite Hqu. }
  unfold waiting in Hin, Hc', Hne. rewrite Forall_forall in Fb, Fn. destruct (m_updatesForBatchFaceId w) as [|a lb] eqn:Eb.
  - rewrite (proj2 (Z.eqb_neq _ _) (Fn u Hin)). assert (Ew : fu_setNonBatch (filter (λ y, y ≠ u) (m_updatesForNonBatchFaceId w)) w = without_update u w).
    { unfold without_update, fu_setNonBatch. rewrite Eb. done. }
    unfold sy_setUpdater. cbn [sy_rib sy_commands]. rewrite Ew. destruct (filter (λ y, y ≠ u) (m_updatesForNonBatchFaceId w)) as [|a ln] eqn:En.
    + apply Hgo; [unfold all_updates, without_update; simpl; by rewrite Eb, En|]. destruct Hc' as [Hp _]. by apply Permutation_nil_r, fmap_nil_inv in Hp.
    + eexists. split_and!; [done| |by right]. eapply inv_busy; [done|exact Hw'| |];
        unfold waiting, without_update; simpl; rewrite Eb, En; simpl; [done|exact Hc'].
  - rewrite (proj2 (Z.eqb_eq _ _) (Fb u Hin)). assert (Enon : filter (λ y, y ≠ u) (m_updatesForNonBatchFaceId w) = m_updatesForNonBatchFaceId w).
    { apply remove_elsewhere. intros Hun. apply (Fn u Hun). by apply Fb. }
    assert (Ew : fu_setBatch (filter (λ y, y ≠ u) (a :: lb)) w = without_update u w) by (unfold without_update, fu_setBatch; by rewrite Eb, Enon).
    unfold sy_setUpdater. cbn [sy_rib sy_commands]. rewrite Ew. destruct (filter (λ y, y ≠ u) (a :: lb)) as [|a' lb'] eqn:En.
    + assert (Ed : delete i (sy_commands s) = []) by (destruct Hc' as [Hp _]; apply Permutation_nil_r, fmap_nil_inv in Hp; done).
      unfold sendUpdatesForNonBatchFaceId. cbn [sy_updater].
      change (m_updatesForNonBatchFaceId (without_update u w)) with (filter (λ y, y ≠ u) (m_updatesForNonBatchFaceId w)). rewrite Enon.
      destruct (m_updatesForNonBatchFaceId w) as [|a2 l2] eqn:En2.
      * apply Hgo; [unfold all_updates, without_update; simpl; by rewrite Eb, En, En2|done].
      * destruct (sends_busy _ _ _ _ _ (a2 :: l2) Hw') as (Hi' & Erib & Eup); [done|unfold waiting, without_update; simpl; by rewrite Eb, En, En2, Enon|done|].
        eexists. split_and!; [done|exact Hi'|]. right. by rewrite Erib, Eup.
    + eexists. split_and!; [done| |by right]. eapply inv_busy; [done|exact Hw'| |];
        unfold waiting, without_update; simpl; rewrite Eb, En; simpl; [done|exact Hc'].
Qed.

(** A timeout sends the command again, whether it was carried out or not. *)
Lemma timeout_ok s fib l i c (done : bool) : invariant s fib l → sy_commands s !! i = Some c → cmd_nTimeouts c < MAX_NUM_TIMEOUTS →
  ∃ s', answer i (Some ERROR_TIMEOUT) s = Some s' ∧ invariant s' (if done then apply_update (cmd_update c) fib else fib) l.
Proof.
  intros [Hr|k x q -> Hw Hne Hc] Hi Ht; [by rewrite (rd_commands _ _ _ _ Hr) in Hi|].
  pose proof (wk_updater _ _ _ _ _ Hw) as Hu. pose proof Hu as [[Hb _] [Hn _]].
  assert (Hcin : cmd_item c = item_of x ∧ cmd_verb c = ADD_NEXTHOP ∧ 0 <= cmd_nTimeouts c).
  { destruct Hc as [_ Hf]. rewrite Forall_forall in Hf. destruct (Hf c) as (? & ? & ? & _); [by eapply list_elem_of_lookup_2|done]. }
  destruct Hcin as (Eitem & Everb & Hge). unfold answer. rewrite Hi. simpl. unfold onUpdateError.
  rewrite Z.eqb_refl, (proj2 (Z.ltb_lt _ _) Ht). cbn [andb]. unfold sendAddNextHopUpdate, sy_send. cbn [sy_rib sy_updater sy_commands]. rewrite Eitem.
  eexists. split; [reflexivity|]. set (cs := delete i (sy_commands s) ++ _).
  assert (Hndw : NoDup (upd_key <$> waiting (sy_updater s))) by (unfold waiting; by destruct (m_updatesForBatchFaceId (sy_updater s))).
  destruct (commands_delete x _ _ i c Hndw Hc Hi) as [Hin _]. pose proof (waiting_sub _ _ Hin) as Hall.
  assert (Hw' : working (mkSystem (sy_rib s) (sy_updater s) cs) (if done then apply_update (cmd_update c) fib else fib) k x q).
  { destruct done; [by eapply working_early|]. destruct Hw. by split. }
  eapply inv_busy; [reflexivity|exact Hw'|exact Hne|]. destruct Hc as [Hp Hf]. pose proof (delete_Permutation _ i c Hi) as Hd. simpl. split.
  - unfold cs. rewrite fmap_app. etrans; [apply Permutation_app_comm|]. etrans; [|exact Hp]. symmetry. exact (fmap_Permutation cmd_update _ _ Hd).
  - rewrite Hd in Hf. apply Forall_cons in Hf as [_ Hf]. unfold cs. apply Forall_app. split; [exact Hf|]. constructor; [|constructor]. simpl.
    split_and!; [reflexivity|reflexivity|lia|lia].
Qed.

(** ** Requests *)

Lemma request_ok s fib l (x : Request) : invariant s fib l → isCapture x.1.2 = false → request_key x ∉ request_key <$> l →
  ∃ s', beginApplyUpdate (mkRibUpdate REGISTER x.1.1 x.1.2) x.2 s = Some s' ∧ invariant s' fib (l ++ [x]).
Proof.
  intros Hi Hfl Hkey. unfold beginApplyUpdate, addUpdateToQueue, RibUpdateBatch_add. simpl. rewrite Z.eqb_refl. simpl.
  set (b := rb_setQueue _ _). destruct Hi as [[Ht [Hnd Hq] Hqu Hp Hc Hs]|k y q -> Hw Hne Hc].
  - assert (Hr : ready (sy_setRib b s) fib l [x]); [|destruct (sendBatchFromQueue_ok _ _ _ _ Hr) as (s' & E & Hi' & _); by exists s'].
    split; simpl; [by eapply table_ok_fields; [..|exact Ht]| |by rewrite Hqu|done|done|done]. split.
    + rewrite app_nil_r in Hnd. rewrite fmap_app. apply NoDup_app. split_and!; [done| |apply NoDup_singleton].
      intros z Hz ->%list_elem_of_singleton. done.
    + by constructor.
  - pose proof Hw as [Ht [Hnd Hq] Hqu Hp Hu Ha Hno Htar]. unfold sendBatchFromQueue. cbn [sendBatches]. unfold sendBatch. simpl. rewrite Hqu, Hp.
    assert (Eq : (item_of <$> q) ++ [mkItem (mkBatch (rt_faceId x.1.2) ([] ++ [mkRibUpdate REGISTER x.1.1 x.1.2])) x.2] = item_of <$> (q ++ [x])).
    { by rewrite fmap_app. }
    exists (sy_setRib b s). split.
    { destruct q; done. }
    eapply (inv_busy _ _ _ k y (q ++ [x])); [by rewrite <-app_assoc| |done|done]. split; simpl; [by eapply table_ok_fields; [..|exact Ht]| |by rewrite Hqu|done..].
    split.
    + rewrite app_comm_cons, app_assoc, fmap_app. apply NoDup_app. split_and!; [done| |apply NoDup_singleton].
      intros z Hz ->%list_elem_of_singleton. done.
    + apply Forall_cons in Hq as [? ?]. constructor; [done|]. apply Forall_app. split; [done|]. by constructor.
Qed.

Lemma start_ok : invariant RibSystem_new ∅ [].
Proof.
  apply inv_idle. split; [|split; [apply NoDup_nil_2|constructor]|done|done|done|].
  - split; [apply Rib_new_ok|intros n e He; simpl in He; by rewrite lookup_empty in He|]. intros n r. split.
    + intros (l & El & _). unfold all_routes in El. simpl in El. by rewrite lookup_fmap, lookup_empty in El.
    + intros [cb Hcb]. by apply elem_of_nil in Hcb.
  - intros d f. unfold nexthop. simpl. by rewrite !lookup_empty.
Qed.
End run.
