(* ===== verification/RibTheorems.v ===== *)
(** * Theorems about the RIB

    The RIB is a map of routes and a tree of names; what a name inherits is what
    its prefixes hand down; registrations reach the FIB, whatever the order of the
    forwarder's answers; and where updates of other kinds go wrong. *)

From Stdlib Require Import Ascii String.
From S2P Require Import Prelude Packets Timers RibEntry Rib RibFacts RibSpec RibInherit FibUpdater RibSystem FibSync RibRun.

Section theorems.
Context `{NameOrder} `{RouteFlags} `{ControllerCodes}.

(** ** The map of routes *)

Lemma Rib_find_Some b n r s : rib_ok b → Rib_find n r b = Some s ↔
  ∃ l, all_routes (m_rib b) !! n = Some l ∧ s ∈ l ∧ route_key s = route_key r.
Proof.
  intros Hok. unfold Rib_find, all_routes. rewrite lookup_fmap. destruct (m_rib b !! n) as [e|] eqn:Ee; simpl; [|naive_solver].
  assert (Hnd : NoDup (route_key <$> re_routes e)) by (apply (ro_routes b Hok n); unfold all_routes; by rewrite lookup_fmap, Ee).
  split.
  - intros ([i s'] & E & [= <-])%fmap_Some. apply findRoute_Some in E as [Hi Hk]; [|done]. exists (re_routes e). split_and!; [done|by eapply list_elem_of_lookup_2|done].
  - intros (l & [= <-] & Hs & Hk). apply list_elem_of_lookup_1 in Hs as [i Hi]. by rewrite (proj2 (findRoute_Some r e i s Hnd)).
Qed.
Lemma Rib_find_None b n r : rib_ok b → Rib_find n r b = None ↔ ∀ l s, all_routes (m_rib b) !! n = Some l → s ∈ l → route_key s ≠ route_key r.
Proof.
  intros Hok. destruct (Rib_find n r b) as [s|] eqn:E.
  - apply Rib_find_Some in E as (l & El & Hs & Hk); [|done]. split; [done|]. intros Hno. by destruct (Hno l s El Hs).
  - split; [|done]. intros _ l s El Hs Hk. assert (Ef : Rib_find n r b = Some s) by (apply Rib_find_Some; [done|by exists l]). congruence.
Qed.
Lemma Rib_find_ext b b' n n' r r' : rib_ok b → rib_ok b' → (∀ s, (∃ l, all_routes (m_rib b) !! n = Some l ∧ s ∈ l ∧ route_key s = route_key r) ↔
  (∃ l, all_routes (m_rib b') !! n' = Some l ∧ s ∈ l ∧ route_key s = route_key r')) → Rib_find n r b = Rib_find n' r' b'.
Proof. intros Hb Hb' Hs. apply option_eq. intros s. by rewrite !Rib_find_Some. Qed.

Lemma Rib_find_insert prefix route b b' n r : rib_ok b → insert_result prefix route b b' →
  Rib_find n r b' = if decide (n = prefix ∧ route_key r = route_key route) then Some route else Rib_find n r b.
Proof.
  intros Hok [Hok' Ho (e' & He' & Er & _) _]. pose proof (all_routes_upd _ _ prefix e' Ho He') as Ea.
  assert (Hin : ∀ s, s ∈ re_routes e' ↔ s = route ∨ (∃ l, all_routes (m_rib b) !! prefix = Some l ∧ s ∈ l) ∧ route_key s ≠ route_key route).
  { intros s. rewrite Er, put_route_in.
    - unfold all_routes. rewrite lookup_fmap. destruct (m_rib b !! prefix) as [e|]; simpl; [naive_solver|]. rewrite elem_of_nil. naive_solver.
    - destruct (m_rib b !! prefix) as [e|] eqn:Ee; simpl; [|apply NoDup_nil_2]. apply (ro_routes b Hok prefix). unfold all_routes. by rewrite lookup_fmap, Ee. }
  case_decide as Hd.
  - destruct Hd as [-> Hk]. apply Rib_find_Some; [done|]. exists (re_routes e'). rewrite Ea, lookup_insert_eq. split_and!; [done|apply Hin; by left|done].
  - apply Rib_find_ext; [done..|]. intros s. rewrite Ea. destruct (decide (n = prefix)) as [->|Hn]; [|by rewrite lookup_insert_ne].
    rewrite lookup_insert_eq. split.
    + intros (l & [= <-] & [->|[(l' & El & Hs) _]]%Hin & Hk); [by destruct Hd|]. by exists l'.
    + intros (l & El & Hs & Hk). exists (re_routes e'). split_and!; [done| |done]. apply Hin. right. split; [by exists l|]. intros Ek. apply Hd. split; congruence.
Qed.

Lemma Rib_find_erase prefix route b b' n r : rib_ok b → erase_result prefix route b b' →
  Rib_find n r b' = if decide (n = prefix ∧ route_key r = route_key route) then None else Rib_find n r b.
Proof.
  intros Hok [Hok' Ho He _].
  assert (Hin : ∀ s, (∃ l, all_routes (m_rib b') !! prefix = Some l ∧ s ∈ l) ↔ (∃ l, all_routes (m_rib b) !! prefix = Some l ∧ s ∈ l) ∧ route_key s ≠ route_key route).
  { intros s. transitivity (s ∈ without route (default [] (re_routes <$> m_rib b !! prefix))).
    - destruct (without _ _) as [|x l].
      + unfold all_routes. rewrite lookup_fmap, He. split; [by intros (? & ? & _)|by intros ?%elem_of_nil].
      + destruct He as [He _]. unfold all_routes. rewrite lookup_fmap, He. naive_solver.
    - unfold without. rewrite list_elem_of_filter. unfold all_routes. rewrite lookup_fmap. destruct (m_rib b !! prefix) as [e|]; simpl; [naive_solver|].
      rewrite elem_of_nil. naive_solver. }
  case_decide as Hd.
  - destruct Hd as [-> Hk]. apply Rib_find_None; [done|]. intros l s El Hs. rewrite Hk. apply Hin. by exists l.
  - apply Rib_find_ext; [done..|]. intros s. destruct (decide (n = prefix)) as [->|Hn].
    + split.
      * intros (l & El & Hs & Hk). destruct (proj1 (Hin s)) as [(l' & El' & Hs') _]; [by exists l|by exists l'].
      * intros (l & El & Hs & Hk). destruct (proj2 (Hin s)) as (l' & El' & Hs'); [split; [by exists l|intros Ek; apply Hd; split; congruence]|by exists l'].
    + assert (E : all_routes (m_rib b') !! n = all_routes (m_rib b) !! n); [|by rewrite E]. specialize (Ho n Hn). unfold all_routes. rewrite !lookup_fmap.
      destruct (m_rib b !! n), (m_rib b' !! n); try done. simpl in *. unfold re_data in Ho. congruence.
Qed.

Lemma face_routes b f : rib_ok b → ∃ l, findRoutesWithFaceId f b = Some l ∧ ∀ n r, (n, r) ∈ l ↔ rt_faceId r = f ∧ Rib_find n r b = Some r.
Proof.
  intros Hok. unfold findRoutesWithFaceId.
  assert (Hfind : ∀ n r, Rib_find n r b = Some r ↔ ∃ l, all_routes (m_rib b) !! n = Some l ∧ r ∈ l).
  { intros n r. rewrite Rib_find_Some by done. naive_solver. }
  assert (Hno : ∀ n r, rt_faceId r = f → Rib_find n r b = Some r → n ∈ default [] (m_faceMap b !! f)).
  { intros n r Hr (l & El & Hl)%Hfind. apply (ro_faces b Hok). by exists l, r. }
  pose proof (ro_faces b Hok f) as Hf. destruct (m_faceMap b !! f) as [names|] eqn:Em; simpl in Hf.
  2: { exists []. split; [done|]. intros n r. rewrite elem_of_nil. split; [done|]. intros [Hr Hfr]. specialize (Hno n r Hr Hfr). by apply elem_of_nil in Hno. }
  assert (Hall : ∃ ls, mapM (λ n, routes_of f n b) names = Some ls ∧ ∀ n r, (n, r) ∈ concat ls ↔ n ∈ names ∧ rt_faceId r = f ∧ Rib_find n r b = Some r).
  { assert (Hent : ∀ n, n ∈ names → ∃ e, m_rib b !! n = Some e).
    { intros n (l & r & El & _)%Hf. unfold all_routes in El. rewrite lookup_fmap in El. apply fmap_Some in El as (e & He & _). by exists e. }
    clear Hf Hno Em. induction names as [|n names IH]; [exists []; split; [done|]; intros n r; simpl; rewrite !elem_of_nil; naive_solver|].
    destruct IH as (ls & Els & Hls); [intros; apply Hent; set_solver|]. destruct (Hent n ltac:(set_solver)) as [e He].
    exists (((λ r, (re_name e, r)) <$> filter (λ r, rt_faceId r = f) (re_routes e)) :: ls).
    split; [assert (E1 : routes_of f n b = Some ((λ r, (re_name e, r)) <$> filter (λ r, rt_faceId r = f) (re_routes e))) by (unfold routes_of; by rewrite He);
      simpl; rewrite E1; simpl; by rewrite Els|]. intros n' r. simpl. rewrite elem_of_app, Hls, elem_of_cons.
    rewrite (tw_name _ (ro_tree b Hok) n e He), list_elem_of_fmap. setoid_rewrite list_elem_of_filter.
    assert (Hr : Rib_find n r b = Some r ↔ r ∈ re_routes e) by (rewrite Hfind; unfold all_routes; rewrite lookup_fmap, He; simpl; naive_solver).
    naive_solver. }
  destruct Hall as (ls & -> & Hls). exists (concat ls). split; [done|]. intros n r. rewrite Hls. naive_solver.
Qed.

(** C11: the RIB implements a map from names, faces and origins to routes.  Insertion
    and erasure always succeed (the assertions about parents and children hold),
    change exactly the route of the key, and keep the invariant; the number of
    items is the number of routes; and the routes of a face are found through the
    table of faces. *)
Theorem RIB_refines_map prefix route b : rib_ok b →
  (∃ b', Rib_insert prefix route b = Some b' ∧ rib_ok b' ∧
     ∀ n r, Rib_find n r b' = if decide (n = prefix ∧ route_key r = route_key route) then Some route else Rib_find n r b) ∧
  (∃ b', Rib_erase prefix route b = Some b' ∧ rib_ok b' ∧
     ∀ n r, Rib_find n r b' = if decide (n = prefix ∧ route_key r = route_key route) then None else Rib_find n r b) ∧
  rb_nItems b = u64 (nRoutes (all_routes (m_rib b))) ∧
  ∀ f, ∃ l, findRoutesWithFaceId f b = Some l ∧ ∀ n r, (n, r) ∈ l ↔ rt_faceId r = f ∧ Rib_find n r b = Some r.
Proof.
  intros Hok. split_and!.
  - destruct (Rib_insert_spec prefix route b Hok) as (b' & E & Hr). exists b'. split_and!; [done|by apply Hr|]. intros n r. by eapply Rib_find_insert.
  - destruct (Rib_erase_spec prefix route b Hok) as (b' & E & Hr). exists b'. split_and!; [done|by apply Hr|]. intros n r. by eapply Rib_find_erase.
  - apply Hok.
  - intros f. by apply face_routes.
Qed.

(** ** The tree *)

Inductive rib_run : Rib → Prop :=
| run_new : rib_run Rib_new
| run_insert b prefix route b' : rib_run b → Rib_insert prefix route b = Some b' → rib_run b'
| run_erase b prefix route b' : rib_run b → Rib_erase prefix route b = Some b' → rib_run b'
| run_inherited b us b' : rib_run b → modifyInheritedRoutes us b = Some b' → rib_run b'.

Lemma rib_run_ok b : rib_run b → rib_ok b.
Proof.
  induction 1 as [|b prefix route b' _ IH E|b prefix route b' _ IH E|b us b' _ IH E].
  - apply Rib_new_ok.
  - destruct (Rib_insert_spec prefix route b IH) as (b1 & E1 & Hr). assert (b1 = b') as -> by congruence. apply Hr.
  - destruct (Rib_erase_spec prefix route b IH) as (b1 & E1 & Hr). assert (b1 = b') as -> by congruence. apply Hr.
  - by eapply modifyInheritedRoutes_ok.
Qed.

(** C12: at all times the entries of the RIB form the tree of their names.  The
    parent of an entry is the longest proper prefix of its name that has an entry;
    its children, each listed once, are the entries whose parent it is; it has at
    least one route, and no two of the same face and origin; and the entries that
    follow it in the table up to the first that is not below it are all the
    entries below it. *)
Theorem RIB_is_a_tree b n e : rib_run b → m_rib b !! n = Some e →
  re_name e = n ∧ re_routes e ≠ [] ∧ NoDup (route_key <$> re_routes e) ∧
  match re_parent e with
  | Some p => below p n ∧ is_Some (m_rib b !! p) ∧ ∀ q, below q n → is_Some (m_rib b !! q) → q `prefix_of` p
  | None => ∀ q, below q n → m_rib b !! q = None
  end ∧
  NoDup (re_children e) ∧ (∀ c, c ∈ re_children e ↔ ∃ ce, m_rib b !! c = Some ce ∧ re_parent ce = Some n) ∧
  ∀ d, d ∈ findDescendants (m_rib b) n ↔ below n d ∧ is_Some (m_rib b !! d).
Proof.
  intros Hr He. pose proof (rib_run_ok b Hr) as Hok. pose proof (ro_tree b Hok) as Ht.
  assert (El : all_routes (m_rib b) !! n = Some (re_routes e)) by (unfold all_routes; by rewrite lookup_fmap, He).
  destruct (ro_routes b Hok n _ El) as [Hne Hnd]. destruct (lk_children _ (tw_links _ Ht) n e He) as [Hcn Hc].
  assert (Hp : re_parent e = findParent (m_rib b) n).
  { pose proof (tw_parent _ Ht n) as Hp. unfold parent_of in Hp. rewrite He in Hp. simpl in Hp. specialize (Hp ltac:(eauto)). congruence. }
  split_and!; [by apply (tw_name _ Ht)|done|done| |done| |].
  - rewrite Hp. destruct (findParent (m_rib b) n) as [p|] eqn:Ep; [by apply findParent_Some|by apply findParent_None].
  - intros c. rewrite Hc. unfold parent_of. rewrite fmap_Some. naive_solver.
  - intros d. apply elem_of_descendants. by exists e.
Qed.

(** ** Inheritance *)

(** C37: the routes the ancestors of a name hand down, found by following parents,
    are what a search of its proper prefixes finds: sorted by face, only routes
    with child inheritance, and for each face the first such route of the nearest
    entry that has one, unless a nearer entry captures. *)
Theorem ancestor_routes b n : rib_run b →
  ∃ rs, getAncestorRoutes (m_rib b) n = Some rs ∧ faces_sorted rs ∧ Forall (λ r, isChildInherit r = true) rs ∧
    (∀ f, rs_lookup f rs = walk (m_rib b) (chain (m_rib b) n) f) ∧
    (∀ p, p ∈ chain (m_rib b) n ↔ below p n ∧ is_Some (m_rib b !! p)) ∧
    ∀ e, m_rib b !! n = Some e → getAncestorRoutes_e (m_rib b) e = Some rs.
Proof.
  intros Hr. pose proof (ro_tree b (rib_run_ok b Hr)) as Ht. destruct (getAncestorRoutes_spec (m_rib b) n Ht) as (rs & E & H1' & H2' & H3').
  exists rs. split_and!; [done|done|done|done|apply elem_of_chain|]. intros e He. by rewrite (getAncestorRoutes_e_spec _ n e Ht He).
Qed.

(** ** Registrations and the FIB *)






(** The answers that are still to come are bounded, request by request. *)
Definition work (s : RibSystem) : nat * nat := (length (m_updateBatches (sy_rib s)), length (all_updates (sy_updater s))).



(** ** Where updates go wrong *)

(** the command that removes a next hop, when it times out, is sent again as a
    command that adds one, of cost 0. *)
Theorem timed_out_removal_adds s i c n f : sy_commands s !! i = Some c → cmd_update c = createRemoveUpdate n f → cmd_nTimeouts c < MAX_NUM_TIMEOUTS →
  ∃ s' c', answer i (Some ERROR_TIMEOUT) s = Some s' ∧ last (sy_commands s') = Some c' ∧ sy_rib s' = sy_rib s ∧
    cmd_verb c' = ADD_NEXTHOP ∧ fu_name (cmd_update c') = n ∧ fu_faceId (cmd_update c') = f ∧ fu_cost (cmd_update c') = 0.
Proof.
  intros Hc Eu Ht. unfold answer. rewrite Hc. simpl. unfold onUpdateError. rewrite Z.eqb_refl, (proj2 (Z.ltb_lt _ _) Ht). simpl. eexists _, _.
  split; [done|]. simpl. rewrite last_snoc. split; [done|]. by rewrite Eu.
Qed.

(** giving a route of an entry the capture flag, or taking it away, does not
    change whether the entry captures; and when a route that lost the flag is
    erased, the entry goes on capturing while it has routes. *)
Theorem updated_flags_are_ignored prefix route b entry i r : m_rib b !! prefix = Some entry → findRoute route entry = Some (i, r) →
  ∃ b' entry', Rib_insert prefix route b = Some b' ∧ m_rib b' !! prefix = Some entry' ∧ re_routes entry' !! i = Some (updateRoute route r) ∧
    rt_flags (updateRoute route r) = rt_flags route ∧ hasCapture entry' = hasCapture entry ∧
    (isCapture route = false → hasCapture (eraseRoute route entry').1 = hasCapture entry).
Proof.
  intros He Er. unfold Rib_insert. rewrite He, Er.
  eexists _, (re_setRoutes (<[i := updateRoute route r]> (re_routes entry)) (m_nRoutesWithCaptureSet entry) entry). split; [done|].
  unfold findRoute in Er. apply list_find_Some in Er as (Hi & Hk & Hf). apply compare_key in Hk as Hk'. split; [|split; [|split; [done|split; [done|]]]].
  - simpl. apply lookup_insert_eq.
  - apply list_lookup_insert_eq. by eapply lookup_lt_Some.
  - intros Hcap. unfold eraseRoute. destruct (findRoute route _) as [[j s]|] eqn:Ej; [|done]. unfold findRoute in Ej.
    apply list_find_Some in Ej as (Hj & Hks & Hfj). simpl in Hj. assert (j = i) as ->.
    { destruct (lt_eq_lt_dec j i) as [[Hlt|]|Hgt]; [|done|].
      - rewrite list_lookup_insert_ne in Hj by lia. by destruct (Hf j s Hj Hlt).
      - exfalso. apply (Hfj i (updateRoute route r)); [apply list_lookup_insert_eq; by eapply lookup_lt_Some|done|].
        apply compare_key. unfold route_key, updateRoute in *. simpl. congruence. }
    rewrite list_lookup_insert_eq in Hj by (by eapply lookup_lt_Some). injection Hj as <-. unfold isCapture in Hcap |- *. simpl. by rewrite Hcap.
Qed.
End theorems.

(** ** Runs on small RIBs *)

#[export] Instance nfd_RouteFlags : RouteFlags.
Proof. refine {| ROUTE_FLAG_CHILD_INHERIT := 1; ROUTE_FLAG_CAPTURE := 2 |}. exists 0. by split. Defined.
#[export] Instance nfd_ControllerCodes : ControllerCodes.
Proof. by refine {| ERROR_TIMEOUT := 10060 |}. Defined.

Definition name_a : Name := [Generic "a"].
Definition name_ab : Name := [Generic "a"; Generic "b"].
Definition route (faceId origin flags cost : Z) : Route := mkRoute faceId origin flags cost 0 None.

(** A request, and the answer to the oldest command, which is carried out *)
Definition request (action : RibUpdateAction) (n : Name) (r : Route) (x : RibSystem * Nexthops) : option (RibSystem * Nexthops) :=
  s ← beginApplyUpdate (mkRibUpdate action n r) (Some (mkRibUpdate action n r)) x.1; Some (s, x.2).
Definition success (x : RibSystem * Nexthops) : option (RibSystem * Nexthops) :=
  c ← head (sy_commands x.1); s ← answer 0 None x.1; Some (s, apply_update (cmd_update c) x.2).
Fixpoint perform (l : list (RibSystem * Nexthops → option (RibSystem * Nexthops))) (x : RibSystem * Nexthops) : option (RibSystem * Nexthops) :=
  match l with [] => Some x | f :: l => x ← f x; perform l x end.
Definition perform_all (l : list (RibSystem * Nexthops → option (RibSystem * Nexthops))) : option (RibSystem * Nexthops) :=
  perform l (RibSystem_new, ∅).


(** next hops are lost although the RIB asks for them: when a name that inherited
    a face gets a route of its own for it and the ancestor's route goes away, and
    when of two routes of a face the dearer one goes away. *)
Theorem next_hops_are_lost :
  (∃ s fib, perform_all [request REGISTER name_a (route 1 0 1 10); success; request REGISTER name_ab (route 2 0 0 10); success; success;
                         request REGISTER name_ab (route 1 0 0 5); success; request UNREGISTER name_a (route 1 0 0 0); success; success] = Some (s, fib) ∧
     m_isUpdateInProgress (sy_rib s) = false ∧ nexthop (m_rib (sy_rib s)) name_ab 1 = Some 5 ∧ fib !! (name_ab, 1) = None) ∧
  (∃ s fib, perform_all [request REGISTER name_a (route 1 0 0 10); success; request REGISTER name_a (route 1 1 0 20);
                         request UNREGISTER name_a (route 1 1 0 0); success] = Some (s, fib) ∧
     m_isUpdateInProgress (sy_rib s) = false ∧ nexthop (m_rib (sy_rib s)) name_a 1 = Some 10 ∧ fib !! (name_a, 1) = None).
Proof.
  assert (Hrun : ∀ l n f c, (λ x, (m_isUpdateInProgress (sy_rib x.1), nexthop (m_rib (sy_rib x.1)) n f, x.2 !! (n, f))) <$> perform_all l = Some (false, Some c, None) →
    ∃ s fib, perform_all l = Some (s, fib) ∧ m_isUpdateInProgress (sy_rib s) = false ∧ nexthop (m_rib (sy_rib s)) n f = Some c ∧ fib !! (n, f) = None).
  { intros l n f c E. apply fmap_Some in E as ([s fib] & E & Ex). simpl in Ex. injection Ex as E1 E2 E3. by exists s, fib. }
  split; apply Hrun; vm_compute; reflexivity.
Qed.


(** ** Where the theorems apply *)

Definition rib_a : Rib := default Rib_new (Rib_insert name_a (route 1 0 1 10) Rib_new).
Definition rib_ab : Rib := default rib_a (Rib_insert name_ab (route 2 0 0 10) rib_a).
Lemma rib_ab_run : rib_run rib_ab.
Proof.
  apply (run_insert rib_a name_ab (route 2 0 0 10)); [apply (run_insert Rib_new name_a (route 1 0 1 10)); [apply run_new|]|]; vm_compute; reflexivity.
Qed.

Lemma RIB_refines_map_witness : ∃ b', Rib_erase name_a (route 1 0 0 0) rib_ab = Some b' ∧ rib_ok b' ∧
  ∀ n r, Rib_find n r b' = if decide (n = name_a ∧ route_key r = route_key (route 1 0 0 0)) then None else Rib_find n r rib_ab.
Proof. exact (proj1 (proj2 (RIB_refines_map name_a (route 1 0 0 0) rib_ab (rib_run_ok _ rib_ab_run)))). Defined.

Lemma RIB_is_a_tree_witness : ∃ e, m_rib rib_ab !! name_ab = Some e ∧ re_parent e = Some name_a ∧ re_routes e ≠ [].
Proof.
  exists (default RibEntry_new (m_rib rib_ab !! name_ab)). split; [vm_compute; reflexivity|]. split; [vm_compute; reflexivity|].
  exact (proj1 (proj2 (RIB_is_a_tree rib_ab name_ab _ rib_ab_run ltac:(vm_compute; reflexivity)))).
Defined.

Lemma ancestor_routes_witness : ∃ rs, getAncestorRoutes (m_rib rib_ab) name_ab = Some rs ∧ rs_lookup 1 rs = Some (route 1 0 1 10).
Proof.
  destruct (ancestor_routes rib_ab name_ab rib_ab_run) as (rs & E & _ & _ & Hw & _). exists rs. split; [done|]. rewrite Hw. vm_compute. reflexivity.
Defined.

Definition run_to (l : list (RibSystem * Nexthops → option (RibSystem * Nexthops))) : RibSystem * Nexthops := default (RibSystem_new, ∅) (perform_all l).



Definition removal_pending : RibSystem * Nexthops :=
  run_to [request REGISTER name_a (route 1 0 0 10); success; request UNREGISTER name_a (route 1 0 0 0)].
Lemma timed_out_removal_adds_witness : ∃ s' c', answer 0 (Some ERROR_TIMEOUT) removal_pending.1 = Some s' ∧ last (sy_commands s') = Some c' ∧ cmd_verb c' = ADD_NEXTHOP.
Proof.
  destruct (timed_out_removal_adds removal_pending.1 0
    (mkCommand REMOVE_NEXTHOP (createRemoveUpdate name_a 1) 0 (mkItem (mkBatch 1 [mkRibUpdate UNREGISTER name_a (route 1 0 0 0)]) (Some (mkRibUpdate UNREGISTER name_a (route 1 0 0 0)))))
    name_a 1 ltac:(vm_compute; reflexivity) eq_refl ltac:(by vm_compute)) as (s' & c' & Ea & El & _ & Ev & _). exists s', c'. exact (conj Ea (conj El Ev)).
Defined.

Lemma updated_flags_are_ignored_witness : ∃ b' entry', Rib_insert name_a (route 1 0 2 10) rib_ab = Some b' ∧ m_rib b' !! name_a = Some entry' ∧ hasCapture entry' = false.
Proof.
  pose (entry := default RibEntry_new (m_rib rib_ab !! name_a)).
  assert (He : m_rib rib_ab !! name_a = Some entry) by (vm_compute; reflexivity).
  assert (Er : findRoute (route 1 0 2 10) entry = Some (0%nat, route 1 0 1 10)) by (vm_compute; reflexivity).
  assert (Eh : hasCapture entry = false) by (vm_compute; reflexivity).
  destruct (updated_flags_are_ignored name_a (route 1 0 2 10) rib_ab entry 0 (route 1 0 1 10) He Er) as (b' & entry' & Ei & El & _ & _ & Ec & _).
  exists b', entry'. exact (conj Ei (conj El (eq_trans Ec Eh))).
Defined.
